(* ===== verification/_CoqProject ===== *)
-Q . S2P
Prelude.v
GoStd.v
Json.v
GoStrings.v
Paths.v
JsonText.v
JsonFacts.v
Sha2.v
External.v
Concurrency.v
Wp.v
Pb.v
ProtoWire.v
ProtoMessages.v
ProtoFacts.v
ProtoLaws.v
ProtoSafe.v
Settings.v
Convo.v
Mixnet.v
SettingsWire.v
MixOnions.v
ConvoMix.v
MixClient.v
MixServe.v
MixInterleave.v
MixChain.v
MixExamples.v
ConvoConfig.v
ConfigJson.v
ConfigDecode.v
ConfigExamples.v
Coordinator.v
Client.v
ClientConn.v
Conversation.v
Delivery.v
ClientExamples.v
Harness.v
HarnessExamples.v
System.v
SystemExamples.v
Gui.v
GuiInvariant.v
GuiScreen.v
Commands.v
Calls.v
GuiSystem.v
Connect.v
GuiRun.v
GuiScreenExamples.v
Handler.v
GuiExamples.v
HandlerExamples.v
Persist.v
Startup.v
HarnessNeverlur.v
HarnessServers.v
HarnessClient.v
Demo.v
DemoExamples.v
CmdConf.v
Toml.v
ServerMain.v
ClientConnExamples.v
Notify.v
MixConns.v
