(* ===== verification/Prelude.v ===== *)
(** * Gjallarhorn: a verification development

    Gjallarhorn is a messenger whose servers learn neither what its users say nor to whom.
    Time is cut into rounds. In every round each client sends the same number of messages,
    wrapped in onions, to a coordinator; the coordinator sends the batch through a chain of
    mixers, each of which peels, filters, shuffles and adds noise; the last mixer swaps the
    messages that meet at a dead drop; the replies go back the same way. This library models
    the Go program part by part, as it is written, and proves what each part promises to the
    others and what they achieve together.

    ** How the parts fit

    A [GuiClient] (gui.go, [Gui]) is the handler of the client library (client.go,
    [Client]). The coordinator (coordinator/server.go, [Coordinator]) announces a round with
    settings that the mixers signed ([Settings]); the library checks the signatures, asks the
    handler for messages ([Outgoing]), seals them and sends them. The coordinator gathers the
    onions of all clients and calls the first mixer through the mixnet client
    ([MixClient]); a mixer (mixnet/mixnet.go, [Mixnet] and [MixOnions]) calls the next one
    the same way; the last runs the conversation service (convo/mixer.go, [Convo]). The
    replies are routed to the clients, opened by the library and given to [Replies]. A
    [Conversation] (conversation.go) numbers, encrypts and acknowledges the texts.

    ** Files

    Shared: [Prelude] (bytes, machine integers, the outcomes and the state monad of Go code,
    slices, lemmas on lists and maps); [GoStd], [GoStrings], [Paths], [Json], [JsonText],
    [JsonFacts] and [Sha2] (what the code uses of the standard library: big-endian integers,
    decimal numbers, durations, strings, sorting, tables, paths, JSON encoders, the reader of
    package encoding/json, SHA-2 and HMAC); [External] (classes for the cryptography:
    [NaCl], [Onionbox], [Signature], [Shuffle], [Spans], each with the laws the proofs use
    and the instance [Toy] that satisfies them); [Concurrency] (the parallel loop under an
    arbitrary schedule); [Wp] (weakest preconditions).

    - mixnet/convopb (mixnet.pb.go): [Pb], the messages of the mixnet; [ProtoWire], the helpers of
      the generated code and what it repeats for every message and field; [ProtoMessages], [Size],
      [MarshalTo], [Marshal] and [Unmarshal] of each message; [ProtoFacts] (the text of a message
      as a list of fields), [ProtoLaws] (the round trip of each message, as instances of a class)
      and [ProtoSafe] (any bytes);
    - mixnet/settings.go: [Settings], the round settings, the signing message and the nonces, and
      [SettingsWire], the settings on their way to a server;
    - convo/mixer.go and noise.go: [Convo] and [ConvoMix], dead-drop messages,
      [HandleMessages] and [GenerateNoise], and the service as the mixer sees it;
    - mixnet/mixnet.go: [Mixnet] (state, authentication, [NewRound], [SetRoundSettings],
      [DeleteRound]), [MixOnions] ([AddOnions], decryption, [filterIncoming], [CloseRound],
      [encryptReplies], [GetOnions]), [MixClient] (the client of a mixer), [MixConns]
      (its cache of connections under concurrent calls), [MixServe] (client and server
      together), [MixInterleave] (the goroutines of one round in any interleaving) and
      [MixChain] (a chain of any length);
    - convo/config.go: [ConvoConfig]; its JSON (config.go, convo_easyjson.go and
      mixnet_easyjson.go): [ConfigJson] on top of easyjson's lexer and writer, which are
      classes with laws, and [ConfigDecode], the proof against decoders of values;
    - coordinator/server.go: [Coordinator]; client.go: [Client] (the messages of the
      coordinator) and [ClientConn] (connecting, closing, and the goroutines of connections);
      internal/ioutil2, coordinator/persist.go and persist.go: [Persist];
    - cmd/gjallarhorn-client: [Conversation] and [Delivery] (conversation.go), [Gui],
      [GuiInvariant], [GuiScreen] and [GuiRun] (gui.go: conversations and windows, the
      invariant, the layout of the screen, the keys and the main loop), [Commands]
      (commands.go), [Calls] (alpenhorn.go), [Connect] (connect.go), [Notify] (notify.go), [Startup] (main.go), [GuiSystem] (the terminal
      client as a state machine);
    - internal/testharness (convostate.go, convohandler.go, client.go, rounds.go): [Harness],
      the second implementation of a conversation that drives the integration tests;
      internal/testharness (harness.go, gjallarhorn.go, neverlur.go, handles.go, client.go)
      and internal/mock: [HarnessNeverlur], [HarnessServers] and [HarnessClient], the servers
      and clients the tests start and stop;
    - cmd/gjallarhorn-conversation-demo: [Demo], a program that runs a harness;
    - cmd/cmdconf, internal/vzlog and the mains of mixer and coordinator: [CmdConf], [Toml] (the
      laws of the configuration format, and that the template keeps to it) and [ServerMain], the
      files of a server, [-init] and serving;
    - the compositions: [System] (coordinator, mixers and clients in one round) and [Handler]
      (the client library with the terminal client).

    [MixExamples], [ClientExamples], [ClientConnExamples], [ConfigExamples],
    [HarnessExamples], [DemoExamples], [SystemExamples], [GuiExamples], [GuiScreenExamples] and
    [HandlerExamples] apply the theorems to concrete inputs.

    ** How code is modelled

    A function that cannot fail is a function; one that can return an error, panic or block
    for ever has an [outcome]; a method that reads and writes its object is a state passer
    [go S E A], whose writes stay when it fails. Objects shared by pointers live in a heap,
    a [gmap] from locations, inside the state. A [uint32] is a [Z] and every operation that
    can wrap is written with [u32]. Goroutines are further operations that can run later, a
    parallel loop runs under a schedule that is an argument, the range over a Go map follows
    an order that is an argument. The clock, random bytes and the answers of other programs
    are arguments; what is sent, printed or asked of other packages is recorded in order in
    the state. Locks guard what the model does in one operation; where the code leaves a lock
    between two steps, the steps are separate definitions, but for these: a reply is taken in
    and shown in one step ([Delivery], [GuiSystem]), a call finds its conversation and activates
    it in one step ([Calls]), and the line that [PrintfSync] waits for is written at once ([Gui]).

    ** What the theorems show

    - The whole system ([System]): a text that one client sends through coordinator and
      mixers is shown by the other, and every message of every client is answered as the
      dead-drop exchange prescribes.
    - The chain of mixers ([MixChain], [MixOnions]): one reply for each onion, routed back
      through the shuffles, all of one size; duplicates are dropped once; calls need the
      right key, and without it every call is refused and changes nothing; closing a round twice, before its settings or with a failing successor;
      what happens when offsets wrap around. Whatever the interleaving of streams, workers
      and the closing of the round, nothing panics and the batch is the same
      ([MixInterleave]).
    - The wire ([ProtoSafe], [SettingsWire]): each of the thirteen messages is written in as many
      bytes as announced and read back, whatever unknown fields are added; the decoders end on all
      bytes, and panic only at a length that overflows an index, which an example
      reaches with eleven bytes; the settings of a round arrive with the text that is signed.
    - Settings and dead drops ([Mixnet], [Settings], [Convo]): a server signs one settings per
      round; the signed text determines the settings; [HandleMessages] refines the abstract
      exchange under every schedule; the noise has the drawn size and shape.
    - The conversation ([Conversation], [Delivery]): the wire form, the ratchet, the agreement
      on dead drops, and delivery of all texts in order, each once, whatever is lost.
    - Client and coordinator ([Client], [Coordinator], [Persist]): onions are sent only for
      settings all mixers signed; replies reach the sender of their onions; the rounds of a
      coordinator, across restarts and crashes.
    - Connections ([ClientConn], [MixConns]): whatever the order of connecting, closing, messages
      and late goroutines, the client library never blocks, and panics only when it cannot write
      its state, when the chain of configurations is empty or when a configuration is of another
      service; concurrent calls of the mixers'
      connection cache end with connections to the right server.
    - The terminal client ([GuiSystem], [Connect], [Handler]): an invariant of all reachable states
      under which nothing panics; as many messages in every round whatever the user does; a
      call sets up one session on both sides, in which each shows what the other sends; completion and connecting. On a terminal that is
      wide enough the screen is drawn in each of these states ([GuiScreen]); notifications
      are four minutes apart ([Notify]); a first start leaves a whole state or none ([Startup]).
    - The test harness ([Harness]): its conversation state computes the keys, nonces, messages
      and dead drops of the conversation it stands for, and a client's channel delivers the
      texts in the order of the rounds. A harness that [New] returns is consistent, its
      configurations are signed, and it stops what it started, in the reverse order of
      registration ([HarnessServers]); the clients it
      makes know them ([HarnessClient]). However the demonstration program ends, what it undoes
      before is known ([Demo]).
    - Configurations ([ConfigDecode]): the generated decoder does what the parsed value of a
      text says, and reads back what the encoder wrote. A coordinator that was initialised
      serves with the configuration and the round it was given: the text that the template
      writes reads back as that configuration ([Toml]), and no crash on the way leaves another
      one ([ServerMain]).

    ** Bounds and fuel

    [Conversation.drain] takes one turn more than its map has entries, which is proved to be
    enough; [Harness.turns] counts the rounds a key is rolled forward; [Json.escape],
    [Json.base64], [GoStrings.fields_go], [CmdConf.quote] and the lexer of [JsonText] take as
    many as there are bytes, each turn takes one at least; the parser of values takes one turn
    more than there are tokens, the generated decoders one more than there are bytes, proved to
    be enough in [JsonFacts] and [ConfigDecode]; decimal numbers have at most 20 digits, the
    whole part of a float at most 309. [ProtoWire.unmarshal] and [skipMixnet] take one turn more
    than there are bytes, proved to be enough for any bytes ([ProtoSafe]), and the numbers of the
    wire ten digits, where the code gives up too; slices are shorter than 2^62 bytes. The waits of [Demo] are over after 121 looks. The theorems bound round numbers and
    sequence numbers by 2^32 where the code would wrap, and say so.

    ** Not modelled

    Websockets, gRPC streams, TLS, flags and signals are I/O around the components: what they
    answer is an argument; of mixnet.pb.go these are the stubs of the calls, with the accessors
    and the compressed descriptor. Of neverlur, a library of its own, these are parameters: the signed configurations
    ([SignedConfigs]) with their own JSON, the alpenhorn client with its state, the servers that
    the harness starts, TOML and the base-32 encoding, of which [Toml] states the laws. So are easyjson's lexer and writer, the terminal
    library, the desktop, the colours, the table of printable runes above Latin-1 and, in the
    messages of the client, the verbs %.1f and %q. What is logged or printed by the servers is
    left out. *)

From Stdlib Require Import ZArith Lia.
From Stdlib Require Export Init.Byte.
From stdpp Require Import base numbers strings gmap fin_maps list.

Open Scope Z_scope.

(** ** Bytes *)

Declare Scope go_scope.
Delimit Scope go_scope with go.
Open Scope go_scope.

Abbreviation bytes := (list Byte.byte).

#[export] Instance byte_eq_decision : EqDecision Byte.byte := Byte.byte_eq_dec.

#[export] Program Instance byte_countable : Countable Byte.byte :=
  inj_countable Byte.to_N Byte.of_N _.
Next Obligation. apply Byte.of_to_N. Qed.

(** The integer conversions [int(b)] and [byte(z)] of Go. *)
Definition Z_of_byte (b : Byte.byte) : Z := Z.of_N (Byte.to_N b).

Definition byte_of_Z (z : Z) : Byte.byte :=
  default x00 (Byte.of_N (Z.to_N (z mod 256))).

Lemma Z_of_byte_range b : 0 <= Z_of_byte b < 256.
Proof. unfold Z_of_byte. pose proof (Byte.to_N_bounded b). lia. Qed.

Lemma Z_of_byte_of_Z z : Z_of_byte (byte_of_Z z) = z mod 256.
Proof.
  unfold byte_of_Z, Z_of_byte.
  pose proof (Z.mod_pos_bound z 256 ltac:(lia)).
  destruct (Byte.of_N (Z.to_N (z mod 256))) as [b|] eqn:E; simpl.
  - apply Byte.to_of_N in E. rewrite E. lia.
  - apply Byte.of_N_None_iff in E. lia.
Qed.

Lemma byte_of_Z_of_byte b : byte_of_Z (Z_of_byte b) = b.
Proof.
  unfold byte_of_Z, Z_of_byte.
  pose proof (Byte.to_N_bounded b).
  rewrite Z.mod_small by lia.
  rewrite N2Z.id, Byte.of_to_N. done.
Qed.

#[export] Instance Z_of_byte_inj : Inj (=) (=) Z_of_byte.
Proof. intros a b E. rewrite <- (byte_of_Z_of_byte a), E. apply byte_of_Z_of_byte. Qed.

(** ** Unsigned machine integers

    A Go [uint32] or [uint64] is a [Z]; every operation of the source that can
    wrap is written with [u32] or [u64], the reduction modulo the width. *)
Definition u32 (z : Z) : Z := z mod 2 ^ 32.
Definition u64 (z : Z) : Z := z mod 2 ^ 64.

Definition is_u32 (z : Z) : Prop := 0 <= z < 2 ^ 32.
Definition is_u64 (z : Z) : Prop := 0 <= z < 2 ^ 64.

#[export] Instance is_u32_decision z : Decision (is_u32 z) := _.
#[export] Instance is_u64_decision z : Decision (is_u64 z) := _.

Lemma u32_range z : is_u32 (u32 z).
Proof. unfold is_u32, u32. apply Z.mod_pos_bound. lia. Qed.

Lemma u32_id z : is_u32 z → u32 z = z.
Proof. apply Z.mod_small. Qed.

Lemma u32_u32 z : u32 (u32 z) = u32 z.
Proof. apply u32_id, u32_range. Qed.

Lemma u32_add_wrap a b : is_u32 a → is_u32 b → 2 ^ 32 <= a + b → u32 (a + b) = a + b - 2 ^ 32.
Proof.
  unfold is_u32, u32. intros ???.
  rewrite <- (Z.mod_unique (a + b) (2 ^ 32) 1 (a + b - 2 ^ 32)); lia.
Qed.

(** ** Outcomes

    What a call of a Go function can do besides returning a value: return a
    non-nil error, panic, or block forever (a receive from a nil channel, a
    wait that nothing ends). *)
Inductive outcome (E A : Type) : Type :=
| Ret (a : A)
| Err (e : E)
| Panic
| Block.

Arguments Ret {E A} a.
Arguments Err {E A} e.
Arguments Panic {E A}.
Arguments Block {E A}.

#[export] Instance outcome_ret E : MRet (outcome E) := λ A a, Ret a.

#[export] Instance outcome_bind E : MBind (outcome E) := λ A B f o,
  match o with
  | Ret a => f a
  | Err e => Err e
  | Panic => Panic
  | Block => Block
  end.

#[export] Instance outcome_fmap E : FMap (outcome E) := λ A B f o,
  o ≫= λ a, Ret (f a).

(** A read that panics where the index or slice bound is out of range. *)
Definition or_panic {E A} (o : option A) : outcome E A :=
  match o with Some a => Ret a | None => Panic end.

(** [if cond { return err }]. *)
Definition guard_err {E} (b : bool) (e : E) : outcome E unit :=
  if b then Ret () else Err e.

Lemma or_panic_Ret {E A} (o : option A) (a : A) :
  or_panic (E:=E) o = Ret a ↔ o = Some a.
Proof. destruct o; naive_solver. Qed.

Lemma bind_Ret_inv {E A B} (o : outcome E A) (f : A → outcome E B) b :
  o ≫= f = Ret b → ∃ a, o = Ret a ∧ f a = Ret b.
Proof. destruct o; naive_solver. Qed.

Definition not_panic {E A} (o : outcome E A) : Prop :=
  match o with Panic => False | _ => True end.

Definition is_ret {E A} (o : outcome E A) : Prop :=
  match o with Ret _ => True | _ => False end.

(** ** Stateful computations

    A handler reads and writes a state of type [S]; the writes it made before
    it returned an error, panicked or blocked stay in the state. *)
Definition go (S E A : Type) : Type := S → S * outcome E A.

#[export] Instance go_ret S E : MRet (go S E) := λ A a s, (s, Ret a).

#[export] Instance go_bind S E : MBind (go S E) := λ A B f m s,
  match m s with
  | (s', Ret a) => f a s'
  | (s', Err e) => (s', Err e)
  | (s', Panic) => (s', Panic)
  | (s', Block) => (s', Block)
  end.

Definition get {S E} : go S E S := λ s, (s, Ret s).
Definition put {S E} (s : S) : go S E unit := λ _, (s, Ret ()).
Definition modify {S E} (f : S → S) : go S E unit := λ s, (f s, Ret ()).
Definition lift {S E A} (o : outcome E A) : go S E A := λ s, (s, o).
Definition throw {S E A} (e : E) : go S E A := λ s, (s, Err e).
Definition panic {S E A} : go S E A := λ s, (s, Panic).
Definition block {S E A} : go S E A := λ s, (s, Block).

Arguments get {S E} _ /.
Arguments put {S E} _ _ /.
Arguments modify {S E} _ _ /.
Arguments lift {S E A} _ _ /.
Arguments throw {S E A} _ _ /.
Arguments panic {S E A} _ /.
Arguments block {S E A} _ /.

Lemma go_bind_unfold {S E A B} (m : go S E A) (f : A → go S E B) s :
  (m ≫= f) s =
    match m s with
    | (s', Ret a) => f a s'
    | (s', Err e) => (s', Err e)
    | (s', Panic) => (s', Panic)
    | (s', Block) => (s', Block)
    end.
Proof. done. Qed.

(** [x, err := f()]: the error as a value. *)
Definition catch {S E A} (m : go S E A) : go S E (E + A) := λ s,
  match m s with
  | (s', Ret a) => (s', Ret (inr a))
  | (s', Err e) => (s', Ret (inl e))
  | (s', Panic) => (s', Panic)
  | (s', Block) => (s', Block)
  end.

(** ** Record update

    [set_field eta f v r], inside [ltac:(...)], is the record [r] with field [f] set to
    [v]; [eta r] is [r] with its constructor written out. *)
Ltac set_field eta f v r :=
  let t := eval unfold eta in (eta r) in
  let t := eval pattern (f r) in t in
  match t with ?g _ => let t := eval cbv beta in (g v) in exact t end.

(** ** Slices *)

(** [xs[lo:hi]]; [None] where the bounds are out of range (Go panics). The
    capacity of a slice is taken to be its length. *)
Definition slice {A} (lo hi : nat) (xs : list A) : option (list A) :=
  if decide (lo ≤ hi ∧ hi ≤ length xs)%nat then Some (take (hi - lo) (drop lo xs)) else None.

(** The contents of [dst] after [copy(dst, src)]. *)
Definition go_copy {A} (dst src : list A) : list A :=
  take (length dst) src ++ drop (length src) dst.

(** An assignment [xs[i] = x]; [None] where [i] is out of range. *)
Definition assign {A} (i : nat) (x : A) (xs : list A) : option (list A) :=
  if decide (i < length xs)%nat then Some (<[i := x]> xs) else None.

(** [xs[i]] for a signed [i]. *)
Definition index {A} (i : Z) (xs : list A) : option A :=
  if decide (i < 0) then None else xs !! Z.to_nat i.

Arguments slice : simpl never.
Arguments go_copy : simpl never.
Arguments index : simpl never.
Arguments assign : simpl never.

(** ** Lengths, slices and copies

    The rewrite database [len] computes lengths; the tactic [len] closes the
    goals about lengths that remain. *)
Create Rewrite HintDb len.

#[export] Hint Rewrite @length_app @length_take @length_drop @length_replicate
  @length_insert @length_fmap @length_imap @length_seq @length_reverse : len.

Ltac len := autorewrite with len; try lia; simpl; try lia.

Lemma length_go_copy {A} (dst src : list A) : length (go_copy dst src) = length dst.
Proof. unfold go_copy. len. Qed.

#[export] Hint Rewrite @length_go_copy : len.

(** A copy from a source at least as long as the target overwrites all of it. *)
Lemma go_copy_all {A} (dst src : list A) :
  (length dst ≤ length src)%nat → go_copy dst src = take (length dst) src.
Proof. intros. unfold go_copy. rewrite drop_ge by lia. apply app_nil_r. Qed.

Lemma go_copy_exact {A} (dst src : list A) :
  length dst = length src → go_copy dst src = src.
Proof. intros E. rewrite go_copy_all by lia. rewrite E. by apply take_ge. Qed.

(** A copy from a shorter source leaves the end of the target. *)
Lemma go_copy_short {A} (dst src : list A) :
  (length src ≤ length dst)%nat → go_copy dst src = src ++ drop (length src) dst.
Proof. intros. unfold go_copy. by rewrite take_ge by lia. Qed.

Lemma slice_Some {A} lo hi (xs ys : list A) :
  slice lo hi xs = Some ys ↔
  (lo ≤ hi ∧ hi ≤ length xs)%nat ∧ ys = take (hi - lo) (drop lo xs).
Proof.
  unfold slice. case_decide; split; [intros [= <-]; done|intros [_ ->]; done|done|intros [? _]; done].
Qed.

Lemma slice_is_Some {A} lo hi (xs : list A) :
  (lo ≤ hi)%nat → (hi ≤ length xs)%nat → slice lo hi xs = Some (take (hi - lo) (drop lo xs)).
Proof. intros. unfold slice. rewrite decide_True by lia. done. Qed.

Lemma slice_None {A} lo hi (xs : list A) :
  slice lo hi xs = None ↔ (hi < lo)%nat ∨ (length xs < hi)%nat.
Proof.
  unfold slice. case_decide as H; split; intros; try done; lia.
Qed.

Lemma slice_length {A} lo hi (xs ys : list A) :
  slice lo hi xs = Some ys → length ys = (hi - lo)%nat.
Proof. intros [? ->]%slice_Some. len. Qed.

Lemma slice_app_l {A} (xs ys : list A) : slice 0 (length xs) (xs ++ ys) = Some xs.
Proof.
  rewrite slice_is_Some by len. f_equal. rewrite Nat.sub_0_r, drop_0. apply take_app_length.
Qed.

Lemma slice_app_r {A} (xs ys : list A) :
  slice (length xs) (length xs + length ys) (xs ++ ys) = Some ys.
Proof.
  rewrite slice_is_Some by len. f_equal.
  rewrite drop_app_length. apply take_ge. lia.
Qed.

Lemma assign_Some {A} i (x : A) xs ys :
  assign i x xs = Some ys ↔ (i < length xs)%nat ∧ ys = <[i := x]> xs.
Proof.
  unfold assign. case_decide; split; [intros [= <-]; done|intros [_ ->]; done|done|intros [? _]; done].
Qed.

(** ** Lists *)

Lemma list_eq_lookup_len {A} (xs ys : list A) :
  length xs = length ys →
  (∀ i x y, xs !! i = Some x → ys !! i = Some y → x = y) → xs = ys.
Proof.
  intros Hl H. apply list_eq_same_length with (n := length ys); auto.
  intros i x y _. apply H.
Qed.

Lemma take_drop_cons {A} (xs : list A) i x :
  xs !! i = Some x → xs = take i xs ++ x :: drop (S i) xs.
Proof. intros. symmetry. by apply take_drop_middle. Qed.

Lemma mapM_id_Some {A} (l : list A) : mapM id (Some <$> l) = Some l.
Proof. induction l as [|x l IH]; [done|]. cbn in *. by rewrite IH. Qed.

Lemma lookup_lt_is_Some_1 {A} (xs : list A) i :
  (i < length xs)%nat → ∃ x, xs !! i = Some x.
Proof. intros H. by apply lookup_lt_is_Some_2 in H. Qed.

Lemma NoDup_fmap_inj_on {A B} (f : A → B) (l : list A) :
  (∀ x y, x ∈ l → y ∈ l → f x = f y → x = y) → NoDup l → NoDup (f <$> l).
Proof.
  induction 2 as [|x l Hx Hnd IH]; [constructor|].
  rewrite fmap_cons. constructor.
  - rewrite list_elem_of_fmap. intros (y & E & Hy).
    apply H in E; [congruence|set_solver..].
  - apply IH. intros; apply H; set_solver.
Qed.

(** The contents of [dst] after [copy(dst[lo:hi], src)]. *)
Definition copy_into {A} (lo hi : nat) (dst src : list A) : list A :=
  take lo dst ++ go_copy (take (hi - lo) (drop lo dst)) src ++ drop hi dst.

Arguments copy_into : simpl never.

Lemma length_copy_into {A} lo hi (dst src : list A) :
  (lo ≤ hi ≤ length dst)%nat → length (copy_into lo hi dst src) = length dst.
Proof. intros. unfold copy_into. len. Qed.

(** The part that is written stands between the two others. *)
Lemma copy_into_app {A} lo hi (a b c src : list A) :
  length a = lo → length b = (hi - lo)%nat → (lo ≤ hi)%nat →
  copy_into lo hi (a ++ b ++ c) src = a ++ go_copy b src ++ c.
Proof.
  intros Ha Hb Hl. unfold copy_into. rewrite take_app_length', drop_app_length' by done.
  rewrite take_app_length' by done. do 2 f_equal.
  rewrite app_assoc. apply drop_app_length'. len.
Qed.

(** [copy(dst[:lo], a)] and then [copy(dst[lo:], b)], both sources filling their
    part: [dst] is their concatenation. *)
Lemma copy_into_two {A} lo n (dst a b : list A) :
  length dst = n → length a = lo → length b = (n - lo)%nat → (lo ≤ n)%nat →
  copy_into lo n (copy_into 0 lo dst a) b = a ++ b.
Proof.
  intros Hd Ha Hb Hn. unfold copy_into. rewrite Nat.sub_0_r, take_0, drop_0, app_nil_l.
  rewrite (go_copy_exact (take lo dst) a) by len.
  rewrite take_app_length', drop_app_length' by done.
  rewrite (go_copy_exact _ b) by len.
  rewrite drop_ge by len. by rewrite app_nil_r.
Qed.

Lemma list_filter_ext_in {A} (P Q : A → Prop) `{!∀ x, Decision (P x), !∀ x, Decision (Q x)} (l : list A) :
  (∀ x, x ∈ l → (P x ↔ Q x)) → filter P l = filter Q l.
Proof.
  induction l as [|x l IH]; intros HPQ; [done|].
  pose proof (HPQ x ltac:(by left)). rewrite !filter_cons.
  rewrite IH by (intros; apply HPQ; by right).
  case_decide; case_decide; done || exfalso; tauto.
Qed.

(** ** Positions of a value in a list, in increasing order *)

Definition positions `{EqDecision A} (d : A) (ds : list A) : list nat :=
  filter (λ i, ds !! i = Some d) (seq 0 (length ds)).

Section positions.
Context `{EqDecision A}.
Implicit Types (d : A) (ds : list A).

Lemma elem_of_positions d ds i : i ∈ positions d ds ↔ ds !! i = Some d.
Proof.
  unfold positions. rewrite list_elem_of_filter, elem_of_seq. split; [by intros [? _]|].
  intros H. split; [done|]. apply lookup_lt_Some in H. lia.
Qed.

Lemma NoDup_positions d ds : NoDup (positions d ds).
Proof. apply NoDup_filter, NoDup_seq. Qed.

Lemma positions_snoc d ds x :
  positions d (ds ++ [x]) = positions d ds ++ (if decide (x = d) then [length ds] else []).
Proof.
  unfold positions. rewrite length_app, Nat.add_comm. simpl length.
  rewrite Nat.add_1_l, seq_S, filter_app. f_equal.
  - apply list_filter_ext_in. intros i [_ Hi]%elem_of_seq.
    by rewrite lookup_app_l by lia.
  - rewrite filter_cons, filter_nil. rewrite lookup_app_r, Nat.sub_diag by lia.
    simpl. case_decide; case_decide; naive_solver.
Qed.

(** Two positions and no other: the list holds both, in some order. *)
Lemma positions_pair d ds i j :
  i ≠ j → ds !! i = Some d → ds !! j = Some d →
  (∀ k, ds !! k = Some d → k = i ∨ k = j) →
  positions d ds = [i; j] ∨ positions d ds = [j; i].
Proof.
  intros Hne Hi Hj Hk.
  assert (Hp : positions d ds ≡ₚ [i; j]).
  { apply NoDup_Permutation; [apply NoDup_positions| |].
    - repeat constructor; set_solver.
    - intros k. rewrite elem_of_positions. set_solver. }
  symmetry in Hp. by apply Permutation_length_2_inv in Hp.
Qed.

Lemma positions_single d ds i :
  ds !! i = Some d → (∀ k, ds !! k = Some d → k = i) → positions d ds = [i].
Proof.
  intros Hi Hk.
  assert (Hp : positions d ds ≡ₚ [i]).
  { apply NoDup_Permutation; [apply NoDup_positions|apply NoDup_singleton|].
    intros k. rewrite elem_of_positions. set_solver. }
  symmetry in Hp. by apply Permutation_length_1_inv in Hp.
Qed.

Lemma positions_app d ds es : ∃ l, positions d (ds ++ es) = positions d ds ++ l.
Proof.
  induction es as [|x es [l IH]] using rev_ind; [exists []; by rewrite !app_nil_r|].
  rewrite app_assoc, positions_snoc, IH, <- app_assoc. eauto.
Qed.

(** The first two positions. *)
Lemma positions_first_two d ds i j :
  (i < j)%nat → ds !! i = Some d → ds !! j = Some d →
  (∀ k, (k < j)%nat → ds !! k = Some d → k = i) →
  ∃ l, positions d ds = i :: j :: l.
Proof.
  intros Hij Hi Hj Hk. pose proof (lookup_lt_Some _ _ _ Hj) as Hlt.
  destruct (positions_app d (take (S j) ds) (drop (S j) ds)) as [l E].
  rewrite take_drop in E. exists l. rewrite E.
  rewrite (take_S_r _ _ d) by done. rewrite positions_snoc, decide_True by done.
  rewrite length_take, Nat.min_l by lia.
  rewrite (positions_single d (take j ds) i); [done|by rewrite lookup_take_lt by lia|].
  intros k Hkd. pose proof (lookup_lt_Some _ _ _ Hkd) as Hkl. rewrite length_take in Hkl.
  rewrite lookup_take_lt in Hkd by lia. apply Hk; [lia|done].
Qed.

End positions.

(** ** Sizes of finite sets, one element more or less *)

Section set_size.
Context `{Countable A}.
Implicit Types (x : A) (X : gset A).

Lemma size_insert_new x X : x ∉ X → Z.of_nat (size ({[x]} ∪ X)) = Z.of_nat (size X) + 1.
Proof. intros. rewrite size_union, size_singleton by set_solver. lia. Qed.

Lemma size_insert_old x X : x ∈ X → size ({[x]} ∪ X) = size X.
Proof. intros. f_equal. set_solver. Qed.

Lemma size_remove_in x X : x ∈ X → Z.of_nat (size (X ∖ {[x]})) = Z.of_nat (size X) - 1.
Proof.
  intros Hx. assert (Hs : X = {[x]} ∪ X ∖ {[x]}).
  { apply set_eq. intros y. destruct (decide (y = x)); set_solver. }
  rewrite Hs at 2. rewrite size_insert_new by set_solver. lia.
Qed.

Lemma size_remove_out x X : x ∉ X → size (X ∖ {[x]}) = size X.
Proof. intros. f_equal. set_solver. Qed.

End set_size.
