(* ===== verification/GoStd.v ===== *)
(** * The parts of Go's standard library that the modelled code calls

    Big-endian integers ([encoding/binary]), decimal integers ([fmt], [strconv])
    and the string functions of package [strings] that the client uses, each with
    the lemmas the components need. *)

From Stdlib Require Import ZArith Lia.
From stdpp Require Import base numbers strings gmap list.
From S2P Require Import Prelude.

(** ** [encoding/binary]: big-endian unsigned integers *)

Module BigEndian.

(** The [n] bytes of [v], most significant first. *)
Fixpoint put (n : nat) (v : Z) : bytes :=
  match n with
  | O => []
  | S n => put n (v / 256) ++ [byte_of_Z v]
  end.

(** The value of a big-endian byte string. *)
Definition val (bs : bytes) : Z :=
  foldl (λ acc b, acc * 256 + Z_of_byte b) 0 bs.

(** [binary.BigEndian.PutUint32], [Uint32], [Uint64] and [binary.Write] of a uint32. *)
Definition put32 (v : Z) : bytes := put 4 v.
Definition put64 (v : Z) : bytes := put 8 v.
Definition get32 (bs : bytes) : Z := val (take 4 bs).
Definition get64 (bs : bytes) : Z := val (take 8 bs).

Lemma length_put n v : length (put n v) = n.
Proof. revert v. induction n as [|n IH]; intros v; simpl; [done|]. len. rewrite IH. lia. Qed.

Lemma length_put32 v : length (put32 v) = 4%nat.
Proof. apply length_put. Qed.

Lemma length_put64 v : length (put64 v) = 8%nat.
Proof. apply length_put. Qed.

Lemma val_snoc bs b : val (bs ++ [b]) = val bs * 256 + Z_of_byte b.
Proof. unfold val. by rewrite foldl_app. Qed.

Lemma val_put n v : val (put n v) = v mod 256 ^ Z.of_nat n.
Proof.
  revert v. induction n as [|n IH]; intros v.
  - cbn. by rewrite Z.mod_1_r.
  - cbn [put]. rewrite val_snoc, IH, Z_of_byte_of_Z.
    rewrite Nat2Z.inj_succ, Z.pow_succ_r by lia.
    rewrite Z.rem_mul_r by lia. lia.
Qed.

Lemma val_bound bs : 0 <= val bs < 256 ^ Z.of_nat (length bs).
Proof.
  induction bs as [|b bs IH] using rev_ind; [done|].
  rewrite val_snoc, length_app, Nat2Z.inj_add, Z.pow_add_r by lia.
  pose proof (Z_of_byte_range b). simpl length. change (256 ^ Z.of_nat 1) with 256. lia.
Qed.

Lemma put_val bs : put (length bs) (val bs) = bs.
Proof.
  induction bs as [|b bs IH] using rev_ind; [done|].
  rewrite length_app, Nat.add_comm. cbn [length Nat.add put].
  rewrite val_snoc. pose proof (Z_of_byte_range b).
  rewrite Z.div_add_l, Z.div_small, Z.add_0_r, IH by lia. f_equal. f_equal.
  apply (inj Z_of_byte). rewrite Z_of_byte_of_Z.
  rewrite Z.add_comm, Z.mod_add, Z.mod_small by lia. done.
Qed.

Lemma get32_put32 v bs : is_u32 v → get32 (put32 v ++ bs) = v.
Proof.
  intros Hv. unfold get32. rewrite take_app_length' by (symmetry; apply length_put32).
  unfold put32. rewrite val_put. by apply Z.mod_small.
Qed.

Lemma get32_range bs : is_u32 (get32 bs).
Proof.
  unfold get32, is_u32. pose proof (val_bound (take 4 bs)) as H. rewrite length_take in H.
  assert (256 ^ Z.of_nat (4 `min` length bs) <= 256 ^ 4) by (apply Z.pow_le_mono_r; lia).
  change (2 ^ 32) with (256 ^ 4). lia.
Qed.

Lemma put32_get32 bs : length bs = 4%nat → put32 (get32 bs) = bs.
Proof.
  intros E. unfold get32, put32. rewrite take_ge by lia.
  pose proof (put_val bs) as P. by rewrite E in P.
Qed.

Lemma put32_inj v w : is_u32 v → is_u32 w → put32 v = put32 w → v = w.
Proof.
  intros Hv Hw E. rewrite <- (get32_put32 v []), <- (get32_put32 w []) by done.
  by rewrite E.
Qed.

End BigEndian.

#[export] Hint Rewrite BigEndian.length_put BigEndian.length_put32 BigEndian.length_put64 : len.

(** ** [fmt] and [strconv]: unsigned decimal integers *)

Module Decimal.

Definition digit (d : Z) : Ascii.ascii := Ascii.ascii_of_N (Z.to_N (48 + d)).

Definition digit_val (c : Ascii.ascii) : option Z :=
  let n := Z.of_N (Ascii.N_of_ascii c) in
  if decide (48 <= n <= 57) then Some (n - 48) else None.

(** [fmt.Sprintf("%d", n)] for [n >= 0]: [fuel] bounds the number of digits. *)
Fixpoint sprint_go (fuel : nat) (n : Z) (acc : string) : string :=
  match fuel with
  | O => acc
  | S fuel =>
      let acc := String.String (digit (n mod 10)) acc in
      if decide (n < 10) then acc else sprint_go fuel (n / 10) acc
  end.

(** 20 digits are enough for every [uint64]. *)
Definition sprint (n : Z) : string := sprint_go 20 n "".

(** The loop of [strconv.ParseUint(s, 10, bits)], with [max] = 2^bits - 1. *)
Fixpoint parse_go (max : Z) (acc : Z) (s : string) : option Z :=
  match s with
  | "" => Some acc
  | String.String c s =>
      match digit_val c with
      | None => None
      | Some d => if decide (acc * 10 + d <= max) then parse_go max (acc * 10 + d) s else None
      end
  end.

Definition parse_uint32 (s : string) : option Z :=
  match s with
  | "" => None
  | _ => parse_go (2 ^ 32 - 1) 0 s
  end.

Lemma digit_val_digit d : 0 <= d < 10 → digit_val (digit d) = Some d.
Proof.
  intros H.
  assert (Hall : Forall (λ d, digit_val (digit d) = Some d) (seqZ 0 10)) by repeat constructor.
  rewrite Forall_forall in Hall. apply Hall, elem_of_seqZ. lia.
Qed.

Lemma parse_sprint_go max fuel n acc :
  0 <= n < 10 ^ Z.of_nat fuel → n <= max → (0 < fuel)%nat →
  parse_go max 0 (sprint_go fuel n acc) = parse_go max n acc.
Proof.
  revert n acc. induction fuel as [|fuel IH]; intros n acc Hn Hmax Hf; [lia|].
  rewrite Nat2Z.inj_succ, Z.pow_succ_r in Hn by lia.
  pose proof (Z.mod_pos_bound n 10 ltac:(lia)). pose proof (Z.div_mod n 10 ltac:(lia)).
  cbn [sprint_go]. destruct (decide (n < 10)).
  - cbn [parse_go]. rewrite digit_val_digit by lia.
    rewrite Z.mod_small by lia. rewrite decide_True by lia. f_equal; lia.
  - assert (n / 10 < 10 ^ Z.of_nat fuel) by (apply Z.div_lt_upper_bound; lia).
    assert (0 < n / 10) by (apply Z.div_str_pos; lia).
    rewrite IH; [|lia..|].
    2: { destruct fuel; [simpl in *; lia|lia]. }
    cbn [parse_go]. rewrite digit_val_digit by lia. rewrite decide_True by lia. f_equal. lia.
Qed.

Lemma sprint_go_nonempty fuel n acc : (0 < fuel)%nat → sprint_go fuel n acc ≠ "".
Proof.
  revert n acc. induction fuel as [|fuel IH]; intros n acc Hf; [lia|].
  cbn [sprint_go]. case_decide; [done|]. destruct fuel; [done|]. apply IH. lia.
Qed.

(** What [fmt] prints, [strconv.ParseUint] reads back. *)
Lemma parse_uint32_sprint n : is_u32 n → parse_uint32 (sprint n) = Some n.
Proof.
  intros Hn. unfold is_u32 in Hn.
  unfold parse_uint32. destruct (sprint n) eqn:E.
  - by apply sprint_go_nonempty in E; [|lia].
  - rewrite <- E. unfold sprint. by rewrite parse_sprint_go by (simpl; lia).
Qed.

Lemma parse_go_range max acc s n :
  0 <= acc <= max → parse_go max acc s = Some n → 0 <= n <= max.
Proof.
  revert acc. induction s as [|c s IH]; intros acc Ha; cbn [parse_go]; [by intros [= <-]|].
  unfold digit_val. case_decide; [|done]. case_decide; [|done]. apply IH. lia.
Qed.

Lemma parse_uint32_range s n : parse_uint32 s = Some n → is_u32 n.
Proof.
  unfold parse_uint32, is_u32. destruct s; [done|]. intros H%parse_go_range; lia.
Qed.

End Decimal.

(** ** [strings] and [bytes] *)

(** The bytes of [bs] after its leading NULs. *)
Fixpoint trim_left_nul (bs : bytes) : bytes :=
  match bs with
  | b :: bs' => if decide (b = x00) then trim_left_nul bs' else bs
  | [] => []
  end.

(** [strings.TrimRight(s, "\x00")] on the bytes of [s]. *)
Definition trim_right_nul (bs : bytes) : bytes := reverse (trim_left_nul (reverse bs)).

Lemma trim_left_nul_replicate n bs : trim_left_nul (replicate n x00 ++ bs) = trim_left_nul bs.
Proof. induction n as [|n IH]; [done|]. cbn. exact IH. Qed.

(** Padding with NULs does not change what is left after trimming. *)
Lemma trim_right_nul_pad n bs : trim_right_nul (bs ++ replicate n x00) = trim_right_nul bs.
Proof.
  unfold trim_right_nul. rewrite reverse_app, reverse_replicate.
  by rewrite trim_left_nul_replicate.
Qed.

(** A text that does not end in a NUL is left alone. *)
Lemma trim_right_nul_id (bs : bytes) : last bs ≠ Some x00 → trim_right_nul bs = bs.
Proof.
  intros H. unfold trim_right_nul. induction bs as [|b bs _] using rev_ind; [done|].
  rewrite last_snoc in H. rewrite reverse_snoc. cbn [trim_left_nul].
  rewrite decide_False by congruence. by rewrite reverse_cons, reverse_involutive.
Qed.

(** ** [time]: printing durations *)

Module Duration.

(** The decimal digits of [v], [prec] of them, the last ones first. *)
Fixpoint frac_digits (prec : nat) (v : Z) : list Z :=
  match prec with
  | O => []
  | S prec => v mod 10 :: frac_digits prec (v / 10)
  end.

(** Trailing zeros are left out, and the point where nothing is left. *)
Fixpoint drop_zeros (ds : list Z) : list Z :=
  match ds with
  | d :: ds' => if decide (d = 0) then drop_zeros ds' else ds
  | [] => []
  end.

Definition fmtFrac (prec : nat) (v : Z) : string :=
  match drop_zeros (frac_digits prec v) with
  | [] => ""
  | ds => String.String (Ascii.ascii_of_nat 46)
            (foldr (λ d s, String.String (Decimal.digit d) s) "" (reverse ds))
  end.

(** [Duration.String] on a number of nanoseconds. *)
Definition print (u : Z) : string := (
  if decide (u = 0)%Z then "0s"
  else if decide (u < 1000)%Z then Decimal.sprint u ++ "ns"
  else if decide (u < 1000000)%Z then Decimal.sprint (u / 1000)%Z ++ fmtFrac 3 u ++ "µs"
  else if decide (u < 1000000000)%Z then Decimal.sprint (u / 1000000)%Z ++ fmtFrac 6 u ++ "ms"
  else
    let secs := (u / 1000000000)%Z in
    let s := Decimal.sprint (secs mod 60)%Z ++ fmtFrac 9 u ++ "s" in
    if decide (secs / 60 = 0)%Z then s
    else
      let s := Decimal.sprint (secs / 60 mod 60)%Z ++ "m" ++ s in
      if decide (secs / 3600 = 0)%Z then s else Decimal.sprint (secs / 3600)%Z ++ "h" ++ s)%string.

Definition String (d : Z) : string :=
  if decide (d < 0) then ("-" ++ print (- d))%string else print d.

Example String_examples :
  String 1500000000 = "1.5s" ∧ String 0 = "0s" ∧ String (-2000001) = "-2.000001ms" ∧
  String 5400000000000 = "1h30m0s" ∧ String 1200 = "1.2µs".
Proof. vm_compute. done. Qed.

End Duration.
