(* ===== verification/Json.v ===== *)
(** * The part of [encoding/json] that makes the signing message

    The encoder for strings (with its HTML-safe escapes and its replacement of bytes
    that are not UTF-8), numbers, byte arrays, byte slices (base64), slices and null,
    as lists of bytes, and unique readability: an encoder is [readable] when what it
    writes determines both the value and where its text ends. *)

From Stdlib Require Import ZArith Lia.
From stdpp Require Import base numbers strings sets list.
From S2P Require Import Prelude GoStd.

(** The bytes of a Go string. *)
Definition str (s : string) : bytes := String.list_byte_of_string s.

(** ** UTF-8 *)

(** A continuation byte within [lo..hi]: its payload. *)
Definition cont_byte (lo hi : Z) (bs : bytes) : option (Z * bytes) :=
  match bs with
  | b :: bs => if decide (lo <= Z_of_byte b <= hi) then Some (Z_of_byte b mod 64, bs) else None
  | [] => None
  end.

(** [utf8.DecodeRune] on a non-empty string: the rune and the bytes after it; [None]
    where it returns [RuneError] and size 1. *)
Definition decode_rune (bs : bytes) : option (Z * bytes) :=
  match bs with
  | [] => None
  | b :: bs =>
      let z := Z_of_byte b in
      if decide (z < 0x80) then Some (z, bs)
      else if decide (z < 0xC2) then None
      else if decide (z < 0xE0) then
        '(c1, bs) ← cont_byte 0x80 0xBF bs; Some ((z mod 32) * 64 + c1, bs)
      else if decide (z < 0xF0) then
        '(c1, bs) ← cont_byte (if decide (z = 0xE0) then 0xA0 else 0x80)
                              (if decide (z = 0xED) then 0x9F else 0xBF) bs;
        '(c2, bs) ← cont_byte 0x80 0xBF bs;
        Some (((z mod 16) * 64 + c1) * 64 + c2, bs)
      else if decide (z < 0xF5) then
        '(c1, bs) ← cont_byte (if decide (z = 0xF0) then 0x90 else 0x80)
                              (if decide (z = 0xF4) then 0x8F else 0xBF) bs;
        '(c2, bs) ← cont_byte 0x80 0xBF bs;
        '(c3, bs) ← cont_byte 0x80 0xBF bs;
        Some ((((z mod 8) * 64 + c1) * 64 + c2) * 64 + c3, bs)
      else None
  end.

(** ** Strings *)

Definition hex_digit (d : Z) : Byte.byte := byte_of_Z (if decide (d < 10) then 48 + d else 87 + d).

(** A byte below 0x80. *)
Definition escape_ascii (b : Byte.byte) : bytes :=
  match b with
  | x5c | x22 => [x5c; b]           (* backslash, quote *)
  | x08 => [x5c; x62]
  | x0c => [x5c; x66]
  | x0a => [x5c; x6e]
  | x0d => [x5c; x72]
  | x09 => [x5c; x74]
  | _ =>
      let z := Z_of_byte b in
      if decide (z < 0x20 ∨ b = x3c ∨ b = x3e ∨ b = x26)
      then [x5c; x75; x30; x30; hex_digit (z / 16); hex_digit (z mod 16)]
      else [b]
  end.

(** The body of a JSON string; [fuel] is the number of bytes. *)
Fixpoint escape (fuel : nat) (bs : bytes) : bytes :=
  match fuel, bs with
  | S fuel, b :: rest =>
      if decide (Z_of_byte b < 0x80) then escape_ascii b ++ escape fuel rest
      else
        match decode_rune bs with
        | None => [x5c; x75; x66; x66; x66; x64] ++ escape fuel rest
        | Some (c, rest) =>
            (if decide (c = 0x2028 ∨ c = 0x2029)
             then [x5c; x75; x32; x30; x32; hex_digit (c mod 16)]
             else take (length bs - length rest) bs) ++ escape fuel rest
        end
  | _, _ => []
  end.

Definition json_string (bs : bytes) : bytes := [x22] ++ escape (length bs) bs ++ [x22].

(** No byte is replaced. *)
Fixpoint valid_utf8_go (fuel : nat) (bs : bytes) : bool :=
  match fuel, bs with
  | S fuel, _ :: _ =>
      match decode_rune bs with Some (_, rest) => valid_utf8_go fuel rest | None => false end
  | _, _ => true
  end.

Definition valid_utf8 (bs : bytes) : bool := valid_utf8_go (length bs) bs.

(** ** Numbers, arrays, slices, base64 *)

Definition json_number (n : Z) : bytes := str (Decimal.sprint n).

(** The rest of an array whose elements are [xs]. *)
Fixpoint json_elems {A} (enc : A → bytes) (xs : list A) : bytes :=
  match xs with
  | [] => [x5d]
  | x :: xs => [x2c] ++ enc x ++ json_elems enc xs
  end.

Definition json_array {A} (enc : A → bytes) (xs : list A) : bytes :=
  match xs with
  | [] => [x5b; x5d]
  | x :: xs => [x5b] ++ enc x ++ json_elems enc xs
  end.

Definition json_null : bytes := str "null".

(** A pointer or slice that may be nil. *)
Definition json_option {A} (enc : A → bytes) (o : option A) : bytes :=
  match o with Some x => enc x | None => json_null end.

(** [*[32]byte] *)
Definition json_byte_array (bs : bytes) : bytes := json_array (json_number ∘ Z_of_byte) bs.

Definition base64_char (d : Z) : Byte.byte :=
  byte_of_Z (if decide (d < 26) then 65 + d
             else if decide (d < 52) then 71 + d
             else if decide (d < 62) then d - 4
             else if decide (d = 62) then 43 else 47).

(** [base64.StdEncoding] *)
Fixpoint base64 (bs : bytes) : bytes :=
  match bs with
  | a :: b :: c :: bs =>
      let n := (Z_of_byte a * 256 + Z_of_byte b) * 256 + Z_of_byte c in
      [base64_char (n / 2 ^ 18); base64_char (n / 2 ^ 12 mod 64);
       base64_char (n / 2 ^ 6 mod 64); base64_char (n mod 64)] ++ base64 bs
  | [a; b] =>
      let n := (Z_of_byte a * 256 + Z_of_byte b) * 256 in
      [base64_char (n / 2 ^ 18); base64_char (n / 2 ^ 12 mod 64);
       base64_char (n / 2 ^ 6 mod 64); x3d]
  | [a] =>
      let n := Z_of_byte a * 65536 in
      [base64_char (n / 2 ^ 18); base64_char (n / 2 ^ 12 mod 64); x3d; x3d]
  | [] => []
  end.

Definition json_bytes (bs : bytes) : bytes := [x22] ++ base64 bs ++ [x22].

Example base64_ex : base64 (str "gjallarhorn!") = str "Z2phbGxhcmhvcm4h" ∧
  base64 (str "gj") = str "Z2o=" ∧ base64 (str "g") = str "Zw==".
Proof. repeat split; vm_compute; reflexivity. Qed.

Example json_string_ex :
  json_string (str "a<b" ++ [x0a; xc3; xa9; xff]) =
    [x22] ++ str "a\u003cb\n" ++ [xc3; xa9] ++ str "\ufffd" ++ [x22].
Proof. vm_compute. reflexivity. Qed.

(** ** Unique readability *)

(** On values in [P] and continuations in [Q], the text determines the value and the
    continuation. *)
Definition readable {A} (P : A → Prop) (Q : bytes → Prop) (enc : A → bytes) : Prop :=
  ∀ a b r r', P a → P b → Q r → Q r' → enc a ++ r = enc b ++ r' → a = b ∧ r = r'.

Definition anything (r : bytes) : Prop := True.

(** What follows a value inside an array or an object. *)
Definition delimited (r : bytes) : Prop :=
  match r with b :: _ => b ∈ [x2c; x5d; x7d] | [] => False end.

Lemma readable_weaken {A} (P P' : A → Prop) (Q Q' : bytes → Prop) enc :
  (∀ a, P' a → P a) → (∀ r, Q' r → Q r) → readable P Q enc → readable P' Q' enc.
Proof. intros HP HQ H a b r r' ????. apply H; auto. Qed.

(** A prefix of bytes that all differ from the byte that ends it. *)
Lemma app_delim_inj (P : Byte.byte → Prop) l1 l2 r1 r2 :
  Forall P l1 → Forall P l2 →
  (∀ b, head r1 = Some b → ¬ P b) → (∀ b, head r2 = Some b → ¬ P b) →
  l1 ++ r1 = l2 ++ r2 → l1 = l2 ∧ r1 = r2.
Proof.
  intros H1. revert l2. induction H1 as [|x l1 Hx H1 IH]; intros [|y l2] H2 Hr1 Hr2 E; simpl in *.
  - done.
  - subst r1. exfalso. apply Forall_cons in H2 as [Hy _]. by eapply Hr1.
  - subst r2. exfalso. by eapply Hr2.
  - injection E as -> E. apply Forall_cons in H2 as [_ H2].
    destruct (IH l2) as [-> ->]; done.
Qed.

(** *** Strings: a reader for what [escape] writes *)

Definition hex_val (b : Byte.byte) : Z :=
  let z := Z_of_byte b in if decide (z < 58) then z - 48 else z - 87.

Definition read_escape (c : Byte.byte) : Byte.byte :=
  match c with
  | x62 => x08 | x66 => x0c | x6e => x0a | x72 => x0d | x74 => x09
  | _ => c
  end.

Fixpoint read_string (bs : bytes) : option (bytes * bytes) :=
  match bs with
  | [] => None
  | x22 :: bs => Some ([], bs)
  | x5c :: x75 :: x30 :: x30 :: h1 :: h2 :: bs =>
      '(s, r) ← read_string bs; Some (byte_of_Z (hex_val h1 * 16 + hex_val h2) :: s, r)
  | x5c :: x75 :: x32 :: x30 :: x32 :: h :: bs =>
      '(s, r) ← read_string bs; Some ([xe2; x80; byte_of_Z (0xA0 + hex_val h)] ++ s, r)
  | x5c :: c :: bs => '(s, r) ← read_string bs; Some (read_escape c :: s, r)
  | b :: bs => '(s, r) ← read_string bs; Some (b :: s, r)
  end.

Lemma read_string_ascii b rest :
  Z_of_byte b < 0x80 →
  read_string (escape_ascii b ++ rest) = '(s, r) ← read_string rest; Some (b :: s, r).
Proof. intros H. destruct b; try reflexivity; vm_compute in H; discriminate H. Qed.

Lemma read_string_raw b rest :
  ¬ Z_of_byte b < 0x80 →
  read_string (b :: rest) = '(s, r) ← read_string rest; Some (b :: s, r).
Proof. intros H. destruct b; try reflexivity; exfalso; apply H; vm_compute; reflexivity. Qed.

(** Bytes from 0x80 on are copied. *)
Lemma read_string_raws l rest :
  Forall (λ b, ¬ Z_of_byte b < 0x80) l →
  read_string (l ++ rest) = '(s, r) ← read_string rest; Some (l ++ s, r).
Proof.
  induction 1 as [|b l Hb Hl IH]; simpl app.
  - by destruct (read_string rest) as [[]|].
  - rewrite read_string_raw, IH by done. by destruct (read_string rest) as [[]|].
Qed.

Lemma cont_byte_inv lo hi bs c rest :
  cont_byte lo hi bs = Some (c, rest) →
  ∃ b, bs = b :: rest ∧ lo <= Z_of_byte b <= hi ∧ c = Z_of_byte b mod 64.
Proof.
  destruct bs as [|b bs]; [done|]. unfold cont_byte. case_decide; [|done].
  intros [= <- <-]. eauto.
Qed.

Ltac cont_bytes :=
  repeat match goal with
  | H : (cont_byte ?lo ?hi ?bs ≫= _) = Some _ |- _ =>
      let c := fresh "c" in let rest := fresh "rest" in let E := fresh "E" in
      destruct (cont_byte lo hi bs) as [[c rest]|] eqn:E; [cbn in H|discriminate H];
      apply cont_byte_inv in E as (? & -> & ? & ->)
  end.

(** A rune from 0x80 on: all its bytes are from 0x80 on, and the line separators have
    the encoding the reader restores. *)
Lemma decode_rune_high b bs c rest :
  ¬ Z_of_byte b < 0x80 → decode_rune (b :: bs) = Some (c, rest) →
  ∃ l, b :: bs = l ++ rest ∧ (0 < length l)%nat ∧ Forall (λ b, ¬ Z_of_byte b < 0x80) l ∧
    (c = 0x2028 ∨ c = 0x2029 → Z_of_byte <$> l = [0xE2; 0x80; 0xA0 + c mod 16]).
Proof.
  intros Hb. pose proof (Z_of_byte_range b).
  unfold decode_rune. rewrite decide_False by done. repeat case_decide; try discriminate; intros E; cont_bytes;
    injection E as <- <-.
  all: match goal with
       | |- ∃ l, ?b :: ?x :: ?y :: ?z :: ?rest = l ++ ?rest ∧ _ => exists [b; x; y; z]
       | |- ∃ l, ?b :: ?x :: ?y :: ?rest = l ++ ?rest ∧ _ => exists [b; x; y]
       | |- ∃ l, ?b :: ?x :: ?rest = l ++ ?rest ∧ _ => exists [b; x]
       end.
  all: split; [done|]; split; [simpl; lia|]; split; [repeat constructor; lia|].
  all: intros Hc; cbn; Z.to_euclidean_division_equations; repeat f_equal; lia.
Qed.

Lemma read_string_separator c rest :
  c = 0x2028 ∨ c = 0x2029 →
  read_string ([x5c; x75; x32; x30; x32; hex_digit (c mod 16)] ++ rest) =
    '(s, r) ← read_string rest; Some ([xe2; x80; byte_of_Z (0xA0 + c mod 16)] ++ s, r).
Proof. intros [-> | ->]; reflexivity. Qed.

Lemma decode_rune_ascii b bs : Z_of_byte b < 0x80 → decode_rune (b :: bs) = Some (Z_of_byte b, bs).
Proof. intros H. unfold decode_rune. by rewrite decide_True. Qed.

(** The reader gives back a valid string, and what follows its closing quote. *)
Lemma read_string_escape fuel bs rest :
  valid_utf8_go fuel bs = true → (length bs ≤ fuel)%nat →
  read_string (escape fuel bs ++ [x22] ++ rest) = Some (bs, rest).
Proof.
  revert bs. induction fuel as [|fuel IH]; intros [|b bs] Hv Hl; [done|simpl in Hl; lia|done|].
  cbn [valid_utf8_go escape] in *. destruct (decide (Z_of_byte b < 0x80)) as [Hb|Hb].
  - rewrite decode_rune_ascii in Hv by done. rewrite <- app_assoc, read_string_ascii by done.
    rewrite IH; [done|done|simpl in Hl; lia].
  - destruct (decode_rune (b :: bs)) as [[c rest']|] eqn:E; [|done].
    apply decode_rune_high in E as (l & E & Hlen & Hhigh & Hsep); [|done]. rewrite E in *.
    rewrite length_app in Hl. rewrite <- app_assoc. case_decide as Hc.
    + rewrite read_string_separator, IH by (done || lia). cbn [mbind option_bind].
      f_equal. f_equal. f_equal. apply (inj (fmap Z_of_byte)). rewrite Hsep by done.
      cbn. rewrite Z_of_byte_of_Z. repeat f_equal. destruct Hc as [-> | ->]; reflexivity.
    + rewrite length_app, Nat.add_sub, take_app_length.
      rewrite read_string_raws, IH by (done || lia). done.
Qed.

Lemma readable_string : readable (λ s, valid_utf8 s = true) anything json_string.
Proof.
  intros a b r r' Ha Hb _ _ E. unfold json_string in E. rewrite <- !app_assoc in E.
  apply app_inv_head in E. apply (f_equal read_string) in E.
  rewrite !read_string_escape in E by done. by injection E as -> ->.
Qed.

(** *** Numbers *)

Definition is_digit (b : Byte.byte) : Prop := 48 <= Z_of_byte b <= 57.

Lemma digit_is_digit d : 0 <= d < 10 → is_digit (Ascii.byte_of_ascii (Decimal.digit d)).
Proof.
  intros H.
  assert (Hall : Forall (λ d, is_digit (Ascii.byte_of_ascii (Decimal.digit d))) (seqZ 0 10)).
  { repeat constructor; vm_compute; congruence. }
  rewrite Forall_forall in Hall. apply Hall, elem_of_seqZ. lia.
Qed.

Lemma sprint_go_digits fuel n acc :
  Forall is_digit (str acc) → 0 <= n → Forall is_digit (str (Decimal.sprint_go fuel n acc)).
Proof.
  revert n acc. induction fuel as [|fuel IH]; intros n acc Ha Hn; [done|].
  cbn [Decimal.sprint_go]. pose proof (Z.mod_pos_bound n 10 ltac:(lia)).
  assert (Forall is_digit (str (String.String (Decimal.digit (n mod 10)) acc))).
  { constructor; [by apply digit_is_digit|done]. }
  case_decide; [done|]. apply IH; [done|]. apply Z.div_pos; lia.
Qed.

Lemma str_inj s t : str s = str t → s = t.
Proof.
  intros E. rewrite <- (String.string_of_list_byte_of_string s).
  rewrite <- (String.string_of_list_byte_of_string t). by f_equal.
Qed.

Lemma delimited_not_digit r b : delimited r → head r = Some b → ¬ is_digit b.
Proof.
  destruct r as [|x r]; [done|]. intros Hr [= ->]. unfold delimited in Hr. unfold is_digit.
  repeat (apply elem_of_cons in Hr as [->|Hr]; [vm_compute; naive_solver|]).
  by apply elem_of_nil in Hr.
Qed.

Lemma readable_number : readable is_u32 delimited json_number.
Proof.
  intros a b r r' Ha Hb Hr Hr' E. unfold json_number in E.
  apply (app_delim_inj is_digit) in E as [E ->].
  - split; [|done]. apply str_inj in E. apply (f_equal Decimal.parse_uint32) in E.
    rewrite !Decimal.parse_uint32_sprint in E by done. congruence.
  - apply sprint_go_digits; [constructor|unfold is_u32 in Ha; lia].
  - apply sprint_go_digits; [constructor|unfold is_u32 in Hb; lia].
  - intros ?. by apply delimited_not_digit.
  - intros ?. by apply delimited_not_digit.
Qed.

(** The first byte a value is written with is not [b]. *)
Definition starts_not {A} (P : A → Prop) (enc : A → bytes) (b : Byte.byte) : Prop :=
  ∀ a, P a → ∃ x l, enc a = x :: l ∧ x ≠ b.

Lemma number_starts b : ¬ is_digit b → starts_not is_u32 json_number b.
Proof.
  intros Hb n Hn. unfold json_number.
  pose proof (sprint_go_digits 20 n "" ltac:(constructor) ltac:(unfold is_u32 in Hn; lia)) as Hd.
  fold (Decimal.sprint n) in Hd. destruct (Decimal.sprint n) as [|c s] eqn:E.
  - by apply Decimal.sprint_go_nonempty in E; [|lia].
  - do 2 eexists. split; [reflexivity|]. intros <-. apply Forall_cons in Hd as [Hd _]. done.
Qed.

(** *** Arrays *)

Section arrays.
Context {A : Type} (P : A → Prop) (enc : A → bytes).
Hypothesis enc_readable : readable P delimited enc.
Hypothesis enc_starts : starts_not P enc x5d.

Lemma json_elems_delimited xs r : delimited (json_elems enc xs ++ r).
Proof. destruct xs; simpl; set_solver. Qed.

Lemma readable_elems : readable (Forall P) anything (json_elems enc).
Proof.
  intros xs ys r r' Hx Hy _ _. revert ys Hy.
  induction Hx as [|x xs Hx Hxs IH]; intros [|y ys] Hy E; try discriminate E.
  - cbn in E. split; congruence.
  - apply Forall_cons in Hy as [Hy Hys]. cbn [json_elems] in E. rewrite <- !app_assoc in E.
    apply app_inv_head in E.
    apply enc_readable in E as [-> E]; [|done|done|apply json_elems_delimited..].
    destruct (IH ys Hys E) as [-> ->]. done.
Qed.

Lemma readable_array : readable (Forall P) anything (json_array enc).
Proof.
  intros xs ys r r' Hx Hy _ _ E.
  assert (Hfirst : ∀ x xs r r', P x → [x5b; x5d] ++ r = ([x5b] ++ enc x ++ json_elems enc xs) ++ r' → False).
  { intros x zs s s' Hx'. destruct (enc_starts x Hx') as (b & l & -> & Hb). intros [=]. congruence. }
  destruct Hx as [|x xs Hx Hxs], Hy as [|y ys Hy Hys]; cbn [json_array] in E.
  - by apply app_inv_head in E.
  - by eapply Hfirst in E.
  - symmetry in E. by eapply Hfirst in E.
  - rewrite <- !app_assoc in E. apply app_inv_head in E.
    apply enc_readable in E as [-> E]; [|done|done|apply json_elems_delimited..].
    apply readable_elems in E as [-> ->]; done.
Qed.

(** A nil pointer or slice. *)
Lemma readable_option Q :
  readable P Q enc → starts_not P enc x6e →
  readable (λ o, match o with Some x => P x | None => True end) Q (json_option enc).
Proof.
  intros Henc Hn [x|] [y|] r r' Hx Hy Hr Hr' E; cbn [json_option] in E.
  - apply Henc in E as [-> ->]; done.
  - destruct (Hn x Hx) as (b & l & Ex & Hb). rewrite Ex in E. injection E as -> _. done.
  - destruct (Hn y Hy) as (b & l & Ey & Hb). rewrite Ey in E. injection E as <- _. done.
  - by apply app_inv_head in E.
Qed.

End arrays.

Lemma readable_byte_array : readable (λ _, True) anything json_byte_array.
Proof.
  intros a b r r' _ _ _ _ E. unfold json_byte_array in E.
  assert (Hu : ∀ c, is_u32 (Z_of_byte c)).
  { intros c. pose proof (Z_of_byte_range c). unfold is_u32. lia. }
  apply (readable_array (λ _, True) (json_number ∘ Z_of_byte)) in E;
    [done| | |by apply Forall_true..|done|done].
  - intros x y s s' _ _ Hs Hs' E'. apply readable_number in E' as [E' ->]; [|done..].
    by apply (inj Z_of_byte) in E' as ->.
  - intros c _. apply number_starts; [|done]. unfold is_digit. vm_compute. naive_solver.
Qed.

(** *** base64 *)

Definition base64_val (c : Byte.byte) : Z :=
  let z := Z_of_byte c in
  if decide (65 <= z <= 90) then z - 65
  else if decide (97 <= z <= 122) then z - 71
  else if decide (48 <= z <= 57) then z + 4
  else if decide (z = 43) then 62 else 63.

Lemma base64_char_props d :
  0 <= d < 64 → base64_val (base64_char d) = d ∧ base64_char d ≠ x22 ∧ base64_char d ≠ x3d.
Proof.
  intros H.
  assert (Hall : Forall (λ d, base64_val (base64_char d) = d ∧ base64_char d ≠ x22 ∧
                              base64_char d ≠ x3d) (seqZ 0 64)).
  { apply (bool_decide_unpack _). vm_compute. exact I. }
  rewrite Forall_forall in Hall. apply Hall, elem_of_seqZ. lia.
Qed.

Lemma base64_char_inj d e : 0 <= d < 64 → 0 <= e < 64 → base64_char d = base64_char e → d = e.
Proof.
  intros Hd He E. rewrite <- (proj1 (base64_char_props d Hd)), E. by apply base64_char_props.
Qed.

(** The six-bit digits of a 24-bit number are below 64 and determine it. *)
Lemma base64_digits n :
  0 <= n < 2 ^ 24 →
  0 <= n / 2 ^ 18 < 64 ∧ 0 <= n / 2 ^ 12 mod 64 < 64 ∧ 0 <= n / 2 ^ 6 mod 64 < 64 ∧ 0 <= n mod 64 < 64 ∧
  n = ((n / 2 ^ 18 * 64 + n / 2 ^ 12 mod 64) * 64 + n / 2 ^ 6 mod 64) * 64 + n mod 64.
Proof.
  intros H.
  assert (E1 : n / 2 ^ 6 / 64 = n / 2 ^ 12) by (rewrite Z.div_div by lia; done).
  assert (E2 : n / 2 ^ 12 / 64 = n / 2 ^ 18) by (rewrite Z.div_div by lia; done).
  pose proof (Z.div_mod n 64 ltac:(lia)) as D0. change 64 with (2 ^ 6) in D0 at 2.
  pose proof (Z.div_mod (n / 2 ^ 6) 64 ltac:(lia)) as D1. rewrite E1 in D1.
  pose proof (Z.div_mod (n / 2 ^ 12) 64 ltac:(lia)) as D2. rewrite E2 in D2.
  pose proof (Z.mod_pos_bound n 64 ltac:(lia)).
  pose proof (Z.mod_pos_bound (n / 2 ^ 6) 64 ltac:(lia)).
  pose proof (Z.mod_pos_bound (n / 2 ^ 12) 64 ltac:(lia)).
  assert (0 <= n / 2 ^ 18 < 64).
  { split; [apply Z.div_pos; lia|apply Z.div_lt_upper_bound; lia]. }
  lia.
Qed.

Lemma three_bytes_inj a b c a' b' c' :
  (Z_of_byte a * 256 + Z_of_byte b) * 256 + Z_of_byte c =
  (Z_of_byte a' * 256 + Z_of_byte b') * 256 + Z_of_byte c' → a = a' ∧ b = b' ∧ c = c'.
Proof.
  intros E. pose proof (Z_of_byte_range a); pose proof (Z_of_byte_range b).
  pose proof (Z_of_byte_range c); pose proof (Z_of_byte_range a').
  pose proof (Z_of_byte_range b'); pose proof (Z_of_byte_range c').
  repeat split; apply (inj Z_of_byte); lia.
Qed.

Lemma three_bytes_range a b c :
  0 <= (Z_of_byte a * 256 + Z_of_byte b) * 256 + Z_of_byte c < 2 ^ 24.
Proof.
  pose proof (Z_of_byte_range a); pose proof (Z_of_byte_range b); pose proof (Z_of_byte_range c).
  lia.
Qed.

Lemma bytes3_ind (P : bytes → Prop) :
  P [] → (∀ a, P [a]) → (∀ a b, P [a; b]) → (∀ a b c l, P l → P (a :: b :: c :: l)) → ∀ l, P l.
Proof.
  intros H0 H1 H2 H3. fix IH 1. intros [|a [|b [|c l]]]; [done|done|done|]. apply H3, IH.
Qed.

(** The four digits of a group. *)
Definition digits64 (n : Z) : list Z := [n / 2 ^ 18; n / 2 ^ 12 mod 64; n / 2 ^ 6 mod 64; n mod 64].

Lemma digits64_chars_inj n m k :
  0 <= n < 2 ^ 24 → 0 <= m < 2 ^ 24 →
  take k (base64_char <$> digits64 n) = take k (base64_char <$> digits64 m) →
  take k (digits64 n) = take k (digits64 m).
Proof.
  intros Hn Hm E. rewrite <- !fmap_take in E.
  assert (Hr : ∀ x, 0 <= x < 2 ^ 24 → Forall (λ d, 0 <= d < 64) (digits64 x)).
  { intros x Hx. destruct (base64_digits x Hx) as (?&?&?&?&_).
    unfold digits64. by rewrite !Forall_cons. }
  pose proof (Forall_take _ k _ (Hr n Hn)) as Hn'. pose proof (Forall_take _ k _ (Hr m Hm)) as Hm'.
  revert E Hn' Hm'. generalize (take k (digits64 n)) (take k (digits64 m)). clear.
  intros l. induction l as [|x l IH]; intros [|y l'] E Hl Hl'; try done.
  apply Forall_cons in Hl as [Hx Hl], Hl' as [Hy Hl']. injection E as E1 E2.
  f_equal; [by apply base64_char_inj|by apply IH].
Qed.

(** The bytes that a group stands for, from as many digits as it writes. *)
Lemma base64_group_inj n m :
  0 <= n < 2 ^ 24 → 0 <= m < 2 ^ 24 → digits64 n = digits64 m → n = m.
Proof.
  intros Hn Hm E. destruct (base64_digits n Hn) as (_&_&_&_&->).
  destruct (base64_digits m Hm) as (_&_&_&_&->). injection E as -> -> -> ->. done.
Qed.

Lemma base64_short_inj n m k :
  (k = 2%nat ∧ n mod 2 ^ 12 = 0 ∧ m mod 2 ^ 12 = 0 ∨
   k = 3%nat ∧ n mod 2 ^ 6 = 0 ∧ m mod 2 ^ 6 = 0) →
  0 <= n < 2 ^ 24 → 0 <= m < 2 ^ 24 → take k (digits64 n) = take k (digits64 m) → n = m.
Proof.
  intros Hk Hn Hm E. apply base64_group_inj; [done..|]. unfold digits64 in *.
  assert (Hz : ∀ x, x mod 2 ^ 12 = 0 → x / 2 ^ 6 mod 64 = 0 ∧ x mod 64 = 0).
  { intros x Hx. apply Z.mod_divide in Hx as [q ->]; [|done].
    replace (q * 2 ^ 12) with (q * 64 * 64) by lia. rewrite Z.mod_mul by done.
    change (2 ^ 6) with 64. rewrite Z.div_mul, Z.mod_mul by done. done. }
  destruct Hk as [(-> & Hn0 & Hm0)|(-> & Hn0 & Hm0)]; injection E as E1 E2.
  - destruct (Hz n Hn0) as [-> ->], (Hz m Hm0) as [-> ->]. by rewrite E1, E2.
  - change 64 with (2 ^ 6) at 3 6. rewrite Hn0, Hm0. congruence.
Qed.

Definition group (a b c : Byte.byte) : Z :=
  (Z_of_byte a * 256 + Z_of_byte b) * 256 + Z_of_byte c.

Lemma base64_3 a b c l : base64 (a :: b :: c :: l) = (base64_char <$> digits64 (group a b c)) ++ base64 l.
Proof. done. Qed.

Lemma base64_2 a b : base64 [a; b] = take 3 (base64_char <$> digits64 (group a b x00)) ++ [x3d].
Proof.
  unfold base64. cbn [digits64 fmap list_fmap take app]. unfold group.
  change (Z_of_byte x00) with 0. by rewrite Z.add_0_r.
Qed.

Lemma base64_1 a : base64 [a] = take 2 (base64_char <$> digits64 (group a x00 x00)) ++ [x3d; x3d].
Proof.
  unfold base64. cbn [digits64 fmap list_fmap take app]. unfold group.
  change (Z_of_byte x00) with 0. rewrite !Z.add_0_r. by rewrite <- Z.mul_assoc.
Qed.

Lemma group_chars_not_pad n m k j l r :
  0 <= n < 2 ^ 24 → (k < j)%nat → (k < 4)%nat → 
  take j (base64_char <$> digits64 n) ++ l = take k (base64_char <$> digits64 m) ++ x3d :: r → False.
Proof.
  intros Hn Hkj Hk E. destruct (base64_digits n Hn) as (H1&H2&H3&H4&_).
  apply base64_char_props in H1 as (_&_&H1), H2 as (_&_&H2), H3 as (_&_&H3), H4 as (_&_&H4).
  destruct k as [|[|[|[|k]]]], j as [|[|[|[|j]]]]; cbn in E; try lia; injection E; congruence.
Qed.

Lemma group_range a b c : 0 <= group a b c < 2 ^ 24.
Proof. apply three_bytes_range. Qed.

Lemma group_mod6 a b : group a b x00 mod 2 ^ 6 = 0.
Proof.
  unfold group. change (Z_of_byte x00) with 0. rewrite Z.add_0_r.
  apply Z.mod_divide; [done|]. exists ((Z_of_byte a * 256 + Z_of_byte b) * 4). lia.
Qed.

Lemma group_mod12 a : group a x00 x00 mod 2 ^ 12 = 0.
Proof.
  unfold group. change (Z_of_byte x00) with 0. rewrite !Z.add_0_r.
  apply Z.mod_divide; [done|]. exists (Z_of_byte a * 16). lia.
Qed.

(** Two encodings that agree on their first [k] characters, which hold all of the group. *)
Lemma group_inj k n m a b c a' b' c' l l' :
  n = group a b c → m = group a' b' c' →
  (k = 4%nat ∨ (k = 2%nat ∧ n mod 2 ^ 12 = 0 ∧ m mod 2 ^ 12 = 0 ∨
                k = 3%nat ∧ n mod 2 ^ 6 = 0 ∧ m mod 2 ^ 6 = 0)) →
  take k (base64_char <$> digits64 n) ++ l = take k (base64_char <$> digits64 m) ++ l' →
  a = a' ∧ b = b' ∧ c = c' ∧ l = l'.
Proof.
  intros -> -> Hk E. apply app_inj_1 in E as [E ->]; [|by rewrite !length_take].
  pose proof (digits64_chars_inj _ _ k (group_range a b c) (group_range a' b' c') E) as Ed.
  assert (Eg : group a b c = group a' b' c').
  { destruct Hk as [->|Hk].
    - by apply base64_group_inj; [apply group_range..|].
    - by apply (base64_short_inj _ _ k Hk); [apply group_range..|]. }
  apply three_bytes_inj in Eg as (-> & -> & ->). done.
Qed.

Ltac not_pad k j E :=
  exfalso; eapply (group_chars_not_pad _ _ k j) in E; [exact E|apply group_range|lia|lia].

Lemma base64_inj xs : ∀ ys, base64 xs = base64 ys → xs = ys.
Proof.
  pose proof group_range as Hr. pose proof group_mod6 as H6. pose proof group_mod12 as H12.
  induction xs as [|a|a b|a b c xs IH] using bytes3_ind; intros ys E;
    destruct ys as [|a' [|b' [|c' ys]]];
    rewrite ?base64_1, ?base64_2, ?base64_3 in E; try discriminate E; try done.
  - eapply (group_inj 2 _ _ a x00 x00 a' x00 x00) in E as (-> & _ & _ & _); [done..|right; left; auto].
  - symmetry in E. not_pad 2%nat 3%nat E.
  - symmetry in E. not_pad 2%nat 4%nat E.
  - not_pad 2%nat 3%nat E.
  - eapply (group_inj 3 _ _ a b x00 a' b' x00) in E as (-> & -> & _ & _);
      [done..|right; right; auto].
  - symmetry in E. not_pad 3%nat 4%nat E.
  - not_pad 2%nat 4%nat E.
  - not_pad 3%nat 4%nat E.
  - eapply (group_inj 4 _ _ a b c a' b' c') in E as (-> & -> & -> & E); [|done|done|by left].
    by rewrite (IH _ E).
Qed.

Lemma base64_no_quote xs : Forall (λ b, b ≠ x22) (base64 xs).
Proof.
  assert (Hc : ∀ k n, 0 <= n < 2 ^ 24 → Forall (λ b, b ≠ x22) (take k (base64_char <$> digits64 n))).
  { intros k n Hn. apply Forall_take. destruct (base64_digits n Hn) as (H1&H2&H3&H4&_).
    cbn. rewrite !Forall_cons, Forall_nil. repeat split; by apply base64_char_props. }
  induction xs as [|a|a b|a b c xs IH] using bytes3_ind; [constructor| | |];
    rewrite ?base64_1, ?base64_2, ?base64_3; apply Forall_app; split.
  - apply Hc, group_range.
  - by repeat constructor.
  - apply Hc, group_range.
  - by repeat constructor.
  - apply (Hc 4%nat), group_range.
  - exact IH.
Qed.

Lemma readable_bytes : readable (λ _, True) anything json_bytes.
Proof.
  intros a b r r' _ _ _ _ E. unfold json_bytes in E. rewrite <- !app_assoc in E.
  apply app_inv_head in E.
  apply (app_delim_inj (λ b, b ≠ x22)) in E as [E E'].
  - split; [by apply base64_inj|by apply app_inv_head in E'].
  - apply base64_no_quote.
  - apply base64_no_quote.
  - intros ? [= <-]. auto.
  - intros ? [= <-]. auto.
Qed.
