(* ===== verification/GoStrings.v ===== *)
(** * Package [strings], and the parts of [strconv], [sort] and [text/tabwriter] that the
    command line uses

    A Go string is a Rocq [string]; where a function works on runes it goes through the
    bytes and [decode_rune]. *)

From Stdlib Require Import ZArith Lia.
From stdpp Require Import base numbers strings gmap list sorting.
From S2P Require Import Prelude GoStd Json.

Definition nl : string := String.String (Ascii.ascii_of_nat 10) "".
Definition to_string (bs : bytes) : string := String.string_of_list_byte bs.

Lemma to_string_str s : to_string (str s) = s.
Proof. apply String.string_of_list_byte_of_string. Qed.

Lemma str_to_string bs : str (to_string bs) = bs.
Proof. apply String.list_byte_of_string_of_list_byte. Qed.

(** [strings.Repeat(" ", n)] *)
Fixpoint spaces (n : nat) : string :=
  match n with
  | O => ""
  | S n => String.String (Ascii.ascii_of_nat 32) (spaces n)
  end.

(** ** Prefixes and substrings *)

(** [strings.HasPrefix(s, p)], and the rest of [s]. *)
Fixpoint cut_prefix (p s : string) : option string :=
  match p, s with
  | "", _ => Some s
  | String.String a p, String.String b s => if decide (a = b) then cut_prefix p s else None
  | _, _ => None
  end.

Definition HasPrefix (s p : string) : bool := bool_decide (is_Some (cut_prefix p s)).

Lemma cut_prefix_Some p s rest : cut_prefix p s = Some rest ↔ s = (p ++ rest)%string.
Proof.
  revert s. induction p as [|a p IH]; intros s; cbn [cut_prefix].
  - split; [by intros [= ->]|by intros ->].
  - destruct s as [|b s]; [done|]. destruct (decide (a = b)) as [->|Hne].
    + rewrite IH. cbn. split; [by intros ->|by intros [= ->]].
    + split; [done|]. cbn. intros [= -> _]. done.
Qed.

Lemma HasPrefix_true s p : HasPrefix s p = true ↔ ∃ rest, s = (p ++ rest)%string.
Proof.
  unfold HasPrefix. rewrite bool_decide_eq_true. split.
  - intros [rest E]. exists rest. by apply cut_prefix_Some.
  - intros [rest E]. exists rest. by apply cut_prefix_Some.
Qed.

(** ** Splitting *)

(** [unicode.IsSpace] *)
Definition is_space (r : Z) : bool :=
  bool_decide (9 <= r <= 13 ∨ r = 0x20 ∨ r = 0x85 ∨ r = 0xA0 ∨ r = 0x1680 ∨ 0x2000 <= r <= 0x200A ∨
    r = 0x2028 ∨ r = 0x2029 ∨ r = 0x202F ∨ r = 0x205F ∨ r = 0x3000).

Definition flush (cur : bytes) : list bytes := match cur with [] => [] | _ => [cur] end.

(** The words of [bs], with [cur] read of the first; every turn takes a byte at least, so
    [fuel] = the number of bytes is enough. *)
Fixpoint fields_go (fuel : nat) (bs cur : bytes) : list bytes :=
  match fuel, bs with
  | _, [] => flush cur
  | O, _ => flush cur
  | S fuel, b :: rest =>
      match decode_rune bs with
      | Some (r, rest) =>
          if is_space r then flush cur ++ fields_go fuel rest []
          else fields_go fuel rest (cur ++ take (length bs - length rest) bs)
      | None => fields_go fuel rest (cur ++ [b])
      end
  end.

(** [strings.Fields(s)] *)
Definition Fields (s : string) : list string := to_string <$> fields_go (length (str s)) (str s) [].

(** [strings.Split(s, sep)] for a [sep] of one byte. *)
Fixpoint split_on (sep : Ascii.ascii) (s : string) : list string :=
  match s with
  | "" => [""]
  | String.String c s =>
      if decide (c = sep) then "" :: split_on sep s
      else match split_on sep s with
           | w :: ws => String.String c w :: ws
           | [] => [String.String c ""]
           end
  end.

(** [strings.TrimRight(s, c)] for a [c] of one byte. *)
Fixpoint trim_right (c : Ascii.ascii) (s : string) : string :=
  match s with
  | "" => ""
  | String.String a s =>
      match trim_right c s with
      | "" => if decide (a = c) then "" else String.String a ""
      | s => String.String a s
      end
  end.

Example Fields_ex : Fields "call  bob@x " = ["call"; "bob@x"].
Proof. vm_compute. done. Qed.

Example split_ex : split_on (Ascii.ascii_of_nat 32) "w  a" = ["w"; ""; "a"].
Proof. vm_compute. done. Qed.

(** ** Numbers *)

(** [strconv.ParseInt(s, 10, 0)] with 64-bit integers; [None] is an error. *)
Definition parse_uint64 (s : string) : option Z :=
  match s with "" => None | _ => Decimal.parse_go (2 ^ 64 - 1) 0 s end.

Definition ParseInt (s : string) : option Z :=
  match s with
  | "" => None
  | String.String c rest =>
      let neg := bool_decide (c = Ascii.ascii_of_nat 45) in
      let digits := if decide (c = Ascii.ascii_of_nat 43 ∨ c = Ascii.ascii_of_nat 45) then rest else s in
      un ← parse_uint64 digits;
      if negb neg then if decide (2 ^ 63 <= un) then None else Some un
      else if decide (2 ^ 63 < un) then None else Some (- un)
  end.

Example ParseInt_ex :
  ParseInt "12" = Some 12 ∧ ParseInt "-3" = Some (-3) ∧ ParseInt "x" = None ∧ ParseInt "+" = None ∧
  ParseInt "9223372036854775808" = None ∧ ParseInt "-9223372036854775808" = Some (- 2 ^ 63).
Proof. vm_compute. done. Qed.

(** ** Lists of strings *)

(** [sort.Strings] *)
Definition sort_Strings (xs : list string) : list string := merge_sort String.le xs.

Lemma sort_Strings_perm xs : sort_Strings xs ≡ₚ xs.
Proof. apply merge_sort_Permutation. Qed.

Lemma sort_Strings_sorted xs : StronglySorted String.le (sort_Strings xs).
Proof. apply StronglySorted_merge_sort; apply _. Qed.

(** [fmt] with %v *)
Definition sprint_list (xs : list string) : string := ("[" ++ String.concat " " xs ++ "]")%string.

(** The bytes of [key] in base64, without padding and with the URL alphabet. *)
Definition raw_url_char (b : Byte.byte) : Byte.byte :=
  match b with x2b => x2d | x2f => x5f | _ => b end.

Definition raw_url_base64 (bs : bytes) : bytes :=
  raw_url_char <$> filter (λ b, b ≠ x3d) (base64 bs).

(** ** [text/tabwriter] with cells padded by one blank

    A row is its tab-terminated cells and its last text; all rows have the same number of
    cells. A column is as wide as its widest cell and the padding. *)

Fixpoint rune_count (fuel : nat) (bs : bytes) : nat :=
  match fuel, bs with
  | _, [] => O
  | O, _ => O
  | S fuel, _ :: rest =>
      S (rune_count fuel (match decode_rune bs with Some (_, rest) => rest | None => rest end))
  end.

Definition width (s : string) : nat := rune_count (length (str s)) (str s).

Definition column_width (rows : list (list string)) (i : nat) : nat :=
  S (foldr (λ row w, width (default "" (row !! i)) `max` w)%nat 0%nat rows).

Definition pad_cell (w : nat) (cell : string) : string := (cell ++ spaces (w - width cell))%string.

Definition tab_row (rows : list (list string)) (row : list string * string) : string :=
  (String.concat "" (imap (λ i cell, pad_cell (column_width rows i) cell) row.1) ++ row.2 ++ nl)%string.

Definition tabwriter (rows : list (list string * string)) : string :=
  String.concat "" (tab_row rows.*1 <$> rows).

Example tabwriter_ex :
  tabwriter [(["  a"], "x"); (["  bcd"], "y")] = ("  a   x" ++ nl ++ "  bcd y" ++ nl)%string.
Proof. vm_compute. done. Qed.

Definition lower_ascii (c : Ascii.ascii) : Ascii.ascii :=
  let n := Ascii.nat_of_ascii c in
  if decide (65 ≤ n ≤ 90)%nat then Ascii.ascii_of_nat (n + 32) else c.

(** [strings.ToLower] of an ASCII string *)
Fixpoint ToLower (s : string) : string :=
  match s with "" => "" | String.String c s => String.String (lower_ascii c) (ToLower s) end.
