(* ===== verification/Paths.v ===== *)
(** * Paths of files, as path/filepath has them

    [Clean] and [Join] on a system whose separator is the slash, and the last element of a path:
    files with different names in one directory have different paths. *)

From Stdlib Require Import ZArith Lia.
From stdpp Require Import base numbers strings list.
From S2P Require Import Prelude GoStrings.

Definition slash : Ascii.ascii := Ascii.ascii_of_nat 47.

(** The elements of a cleaned path, the last one first: [..] takes the one before it away. *)
Fixpoint clean_elements (rooted : bool) (elems acc : list string) : list string :=
  match elems with
  | [] => acc
  | e :: elems =>
      if decide (e = "" ∨ e = ".") then clean_elements rooted elems acc
      else if decide (e = "..") then
        match acc with
        | [] => clean_elements rooted elems (if rooted then [] else [".."])
        | ".." :: _ => clean_elements rooted elems (".." :: acc)
        | _ :: acc => clean_elements rooted elems acc
        end
      else clean_elements rooted elems (e :: acc)
  end.

(** [filepath.Clean] *)
Definition Clean (path : string) : string :=
  let rooted := HasPrefix path "/" in
  let body := String.concat "/" (rev (clean_elements rooted (split_on slash path) [])) in
  if rooted then ("/" ++ body)%string else if decide (body = "") then "." else body.

(** [filepath.Join] of a directory and a name that is not empty. *)
Definition Join (dir name : string) : string :=
  Clean (if decide (dir = "") then name else (dir ++ "/" ++ name)%string).

Example Join_ex :
  Join "/home/alice/.vuvuzela" "alice-keywheel" = "/home/alice/.vuvuzela/alice-keywheel" ∧
  Join "/home/alice/.vuvuzela" "../x-keywheel" = "/home/alice/x-keywheel" ∧
  Join "a//b/./c/" "../../../../d" = "../d".
Proof. done. Qed.

(** ** The last element *)

Definition base (path : string) : option string := last (split_on slash path).

(** A name of one element that is neither the directory nor its parent. *)
Definition plain (name : string) : Prop :=
  split_on slash name = [name] ∧ name ≠ "" ∧ name ≠ "." ∧ name ≠ "..".

Lemma split_on_nonempty sep s : split_on sep s ≠ [].
Proof. destruct s as [|c s]; cbn [split_on]; [done|]. case_decide; [done|]. by destruct (split_on sep s). Qed.

Lemma split_on_app sep a b :
  split_on sep (a ++ String.String sep b)%string = split_on sep a ++ split_on sep b.
Proof.
  induction a as [|c a IH].
  - change ("" +:+ String.String sep b) with (String.String sep b). cbn [split_on]. by rewrite decide_True.
  - change (String.String c a +:+ String.String sep b) with (String.String c (a +:+ String.String sep b)).
    cbn [split_on]. case_decide; [by rewrite IH|]. rewrite IH.
    destruct (split_on sep a) as [|w ws] eqn:E; [by apply split_on_nonempty in E|done].
Qed.

Lemma base_app a b : base (a ++ String.String slash b)%string = base b.
Proof.
  unfold base. rewrite split_on_app.
  destruct (split_on slash b) as [|x xs] eqn:E; [by apply split_on_nonempty in E|apply last_app_cons].
Qed.

Lemma clean_elements_plain rooted elems acc name :
  plain name → clean_elements rooted (elems ++ [name]) acc = name :: clean_elements rooted elems acc.
Proof.
  intros (_ & Hne & Hd & Hdd). revert acc.
  induction elems as [|e elems IH]; intros acc; cbn [app clean_elements].
  - by rewrite decide_False by (by intros [?|?]); rewrite decide_False by done.
  - case_decide; [done|]. case_decide; [|done]. destruct acc as [|x acc]; [done|].
    by repeat case_match.
Qed.

Lemma append_assoc (a b c : string) : (a ++ b ++ c)%string = ((a ++ b) ++ c)%string.
Proof.
  induction a as [|x a IH]; [done|].
  change (String.String x (a ++ b ++ c)%string = String.String x ((a ++ b) ++ c)%string). by rewrite IH.
Qed.

Lemma concat_snoc sep xs y :
  String.concat sep (xs ++ [y]) =
    match xs with [] => y | _ => (String.concat sep xs ++ sep ++ y)%string end.
Proof.
  induction xs as [|x [|x' xs] IH]; [done|done|].
  change (String.concat sep ((x :: x' :: xs) ++ [y])) with (x ++ sep ++ String.concat sep ((x' :: xs) ++ [y]))%string.
  rewrite IH. change (String.concat sep (x :: x' :: xs)) with (x ++ sep ++ String.concat sep (x' :: xs))%string.
  by rewrite !append_assoc.
Qed.

Lemma base_concat xs name : plain name → base (String.concat "/" (xs ++ [name])) = Some name.
Proof.
  intros [Hs _]. rewrite concat_snoc. assert (E : base name = Some name) by (unfold base; by rewrite Hs).
  destruct xs as [|x xs]; [done|].
  change ("/" ++ name)%string with (String.String slash name). by rewrite base_app.
Qed.

(** A joined path ends with the name. *)
Lemma base_Join dir name : plain name → base (Join dir name) = Some name.
Proof.
  intros Hp. unfold Join, Clean. set (path := if decide _ then _ else _).
  assert (E : ∃ elems, split_on slash path = elems ++ [name]).
  { destruct Hp as [Hs _]. unfold path. case_decide; [by exists []|].
    exists (split_on slash dir). change ("/" ++ name)%string with (String.String slash name).
    by rewrite split_on_app, Hs. }
  destruct E as [elems ->]. rewrite clean_elements_plain by done. cbn [rev].
  pose proof (base_concat (rev (clean_elements (HasPrefix path "/") elems [])) name Hp) as E.
  destruct (HasPrefix path "/").
  - change (base (String.String slash (String.concat "/" (rev (clean_elements true elems []) ++ [name]))) = Some name).
    rewrite <- E. apply (base_app "").
  - case_decide as Hnil; [|done]. exfalso. rewrite Hnil in E. destruct Hp as (_ & Hne & _).
    injection E as <-. done.
Qed.

(** Two plain names in one directory, or in two, are two paths. *)
Lemma Join_inj dir dir' a b : plain a → plain b → Join dir a = Join dir' b → a = b.
Proof. intros Ha Hb E. apply (f_equal base) in E. rewrite !base_Join in E by done. by injection E. Qed.

Lemma Join_nonempty dir name : plain name → Join dir name ≠ "".
Proof.
  intros Hp E. apply (f_equal base) in E. rewrite base_Join in E by done.
  destruct Hp as (_ & Hne & _). by injection E.
Qed.
