(* ===== verification/JsonText.v ===== *)
(** * The part of [encoding/json] that reads

    JSON text as tokens and as values, with the rules of the package: its white space,
    escapes, replacement of what is not UTF-8, and nesting depth; [json.Unmarshal] into a
    struct with one integer field; and [compact], which [json.Marshal] applies to what a
    [MarshalJSON] method returns. [lexes] says that a text is well encoded (no byte and no
    escape is replaced) and what its tokens are. *)

From Stdlib Require Import ZArith Lia.
From stdpp Require Import base numbers strings sets list.
From S2P Require Import Prelude GoStd Json GoStrings.

(** ** Tokens *)

Inductive delim := LBrace | RBrace | LBracket | RBracket.

Inductive token :=
| TDelim (d : delim)
| TColon
| TComma
| TString (s : bytes)         (* without quotes and escapes *)
| TNumber (lit : bytes)
| TBool (b : bool)
| TNull.

#[export] Instance delim_eq_decision : EqDecision delim.
Proof. solve_decision. Defined.

#[export] Instance token_eq_decision : EqDecision token.
Proof. solve_decision. Defined.

Definition is_ws (b : Byte.byte) : bool := bool_decide (b ∈ [x20; x09; x0a; x0d]).

Fixpoint skip_ws (bs : bytes) : bytes :=
  match bs with
  | [] => []
  | b :: rest => if is_ws b then skip_ws rest else bs
  end.

(** *** Strings *)

Definition hex_digit_val (b : Byte.byte) : option Z :=
  let z := Z_of_byte b in
  if decide (48 <= z <= 57) then Some (z - 48)
  else if decide (97 <= z <= 102) then Some (z - 87)
  else if decide (65 <= z <= 70) then Some (z - 55)
  else None.

(** Four hexadecimal digits. *)
Definition hex4 (bs : bytes) : option (Z * bytes) :=
  match bs with
  | a :: b :: c :: d :: bs =>
      a ← hex_digit_val a; b ← hex_digit_val b; c ← hex_digit_val c; d ← hex_digit_val d;
      Some (((a * 16 + b) * 16 + c) * 16 + d, bs)
  | _ => None
  end.

Definition is_surrogate (c : Z) : bool := bool_decide (0xD800 <= c < 0xE000).

(** [utf8.AppendRune] of a rune that is no surrogate. *)
Definition encode_rune (c : Z) : bytes :=
  if decide (c < 0x80) then [byte_of_Z c]
  else if decide (c < 0x800) then [byte_of_Z (0xC0 + c / 64); byte_of_Z (0x80 + c mod 64)]
  else if decide (c < 0x10000) then
    [byte_of_Z (0xE0 + c / 4096); byte_of_Z (0x80 + c / 64 mod 64); byte_of_Z (0x80 + c mod 64)]
  else
    [byte_of_Z (0xF0 + c / 262144); byte_of_Z (0x80 + c / 4096 mod 64);
     byte_of_Z (0x80 + c / 64 mod 64); byte_of_Z (0x80 + c mod 64)].

(** U+FFFD *)
Definition replacement : bytes := [xef; xbf; xbd].

(** The bytes after [c], if [bs] starts with it. *)
Definition after_byte (c : Byte.byte) (bs : bytes) : option bytes :=
  match bs with b :: rest => if decide (b = c) then Some rest else None | [] => None end.

(** After the surrogate [c]: the rune that it makes with the escape that follows. *)
Definition surrogate_pair (c : Z) (rest : bytes) : option (bytes * bytes) :=
  rest ← after_byte x5c rest;
  rest ← after_byte x75 rest;
  '(d, rest) ← hex4 rest;
  if decide (c < 0xDC00 ∧ 0xDC00 <= d < 0xE000)
  then Some (encode_rune ((c - 0xD800) * 1024 + (d - 0xDC00) + 0x10000), rest)
  else None.

(** What follows [\u]. A surrogate without its pair is replaced, which a [strict] reader
    refuses. *)
Definition read_unicode (strict : bool) (bs : bytes) : option (bytes * bytes) :=
  '(c, rest) ← hex4 bs;
  if is_surrogate c then
    match surrogate_pair c rest with
    | Some r => Some r
    | None => if strict then None else Some (replacement, rest)
    end
  else Some (encode_rune c, rest).

(** What follows a backslash. *)
Definition unescape (strict : bool) (bs : bytes) : option (bytes * bytes) :=
  match bs with
  | x22 :: rest => Some ([x22], rest)
  | x5c :: rest => Some ([x5c], rest)
  | x2f :: rest => Some ([x2f], rest)
  | x62 :: rest => Some ([x08], rest)
  | x66 :: rest => Some ([x0c], rest)
  | x6e :: rest => Some ([x0a], rest)
  | x72 :: rest => Some ([x0d], rest)
  | x74 :: rest => Some ([x09], rest)
  | x75 :: rest => read_unicode strict rest
  | _ => None
  end.

(** One character of a string: what it stands for. *)
Definition read_char (strict : bool) (bs : bytes) : option (bytes * bytes) :=
  match bs with
  | [] => None
  | x5c :: rest => unescape strict rest
  | b :: rest =>
      if decide (Z_of_byte b < 0x20) then None
      else
        match decode_rune bs with
        | Some (_, after) => Some (take (length bs - length after) bs, after)
        | None => if strict then None else Some (replacement, rest)
        end
  end.

(** The rest of a string up to its closing quote; every turn takes a byte at least. *)
Fixpoint unquote (strict : bool) (fuel : nat) (bs : bytes) : option (bytes * bytes) :=
  match fuel with
  | O => None
  | S fuel =>
      match bs with
      | x22 :: rest => Some ([], rest)
      | _ =>
          '(c, rest) ← read_char strict bs;
          '(s, rest) ← unquote strict fuel rest;
          Some (c ++ s, rest)
      end
  end.

(** *** Numbers *)

Fixpoint digits (bs : bytes) : bytes * bytes :=
  match bs with
  | b :: rest =>
      if decide (48 <= Z_of_byte b <= 57) then let '(ds, rest) := digits rest in (b :: ds, rest)
      else ([], bs)
  | [] => ([], [])
  end.

Definition some_digits (bs : bytes) : option (bytes * bytes) :=
  match digits bs with ([], _) => None | r => Some r end.

(** A byte of [cs], if [bs] starts with one. *)
Definition one_of (cs : bytes) (bs : bytes) : bytes * bytes :=
  match bs with b :: rest => if decide (b ∈ cs) then ([b], rest) else ([], bs) | [] => ([], []) end.

Definition read_int (bs : bytes) : option (bytes * bytes) :=
  match after_byte x30 bs with Some rest => Some ([x30], rest) | None => some_digits bs end.

Definition read_frac (bs : bytes) : option (bytes * bytes) :=
  match after_byte x2e bs with
  | Some rest => '(ds, rest) ← some_digits rest; Some (x2e :: ds, rest)
  | None => Some ([], bs)
  end.

Definition read_exp (bs : bytes) : option (bytes * bytes) :=
  let '(e, rest) := one_of [x65; x45] bs in
  match e with
  | [] => Some ([], bs)
  | _ =>
      let '(sign, rest) := one_of [x2b; x2d] rest in
      '(ds, rest) ← some_digits rest;
      Some (e ++ sign ++ ds, rest)
  end.

Definition read_number (bs : bytes) : option (bytes * bytes) :=
  let '(sign, bs) := one_of [x2d] bs in
  '(int, bs) ← read_int bs;
  '(frac, bs) ← read_frac bs;
  '(exp, bs) ← read_exp bs;
  Some (sign ++ int ++ frac ++ exp, bs).

(** *** The text *)

Definition literal (lit : string) (bs : bytes) : option bytes :=
  if decide (take (String.length lit) bs = str lit) then Some (drop (String.length lit) bs) else None.

Definition delim_of (b : Byte.byte) : option delim :=
  match b with
  | x7b => Some LBrace
  | x7d => Some RBrace
  | x5b => Some LBracket
  | x5d => Some RBracket
  | _ => None
  end.

Definition lex_token (strict : bool) (bs : bytes) : option (token * bytes) :=
  match bs with
  | [] => None
  | b :: rest =>
      match delim_of b with
      | Some d => Some (TDelim d, rest)
      | None =>
          if decide (b = x3a) then Some (TColon, rest)
          else if decide (b = x2c) then Some (TComma, rest)
          else if decide (b = x22) then
            '(s, rest) ← unquote strict (length rest) rest; Some (TString s, rest)
          else
            match literal "true" bs, literal "false" bs, literal "null" bs with
            | Some rest, _, _ => Some (TBool true, rest)
            | _, Some rest, _ => Some (TBool false, rest)
            | _, _, Some rest => Some (TNull, rest)
            | _, _, _ => '(n, rest) ← read_number bs; Some (TNumber n, rest)
            end
      end
  end.

Fixpoint lex (strict : bool) (fuel : nat) (bs : bytes) : option (list token) :=
  match skip_ws bs with
  | [] => Some []
  | b :: rest =>
      match fuel with
      | O => None
      | S fuel =>
          '(t, rest) ← lex_token strict (b :: rest);
          ts ← lex strict fuel rest;
          Some (t :: ts)
      end
  end.

Definition tokens (strict : bool) (bs : bytes) : option (list token) := lex strict (length bs) bs.

(** ** Values *)

Inductive jvalue :=
| JNull
| JBool (b : bool)
| JNumber (lit : bytes)
| JString (s : bytes)
| JArray (vs : list jvalue)
| JObject (kvs : list (bytes * jvalue)).

(** The scanner refuses more than this many open brackets and braces. *)
Definition maxNestingDepth : N := 10000.

(** Values, the elements of an array up to its bracket and the members of an object up to
    its brace, inside [depth] others. *)
Fixpoint parse_value (fuel : nat) (depth : N) (ts : list token) : option (jvalue * list token) :=
  match fuel with
  | O => None
  | S fuel =>
      match ts with
      | TNull :: ts => Some (JNull, ts)
      | TBool b :: ts => Some (JBool b, ts)
      | TNumber n :: ts => Some (JNumber n, ts)
      | TString s :: ts => Some (JString s, ts)
      | TDelim LBracket :: ts =>
          if decide (depth < maxNestingDepth)%N then
            match ts with
            | TDelim RBracket :: ts => Some (JArray [], ts)
            | _ => '(vs, ts) ← parse_elems fuel (depth + 1) ts; Some (JArray vs, ts)
            end
          else None
      | TDelim LBrace :: ts =>
          if decide (depth < maxNestingDepth)%N then
            match ts with
            | TDelim RBrace :: ts => Some (JObject [], ts)
            | _ => '(kvs, ts) ← parse_members fuel (depth + 1) ts; Some (JObject kvs, ts)
            end
          else None
      | _ => None
      end
  end
with parse_elems (fuel : nat) (depth : N) (ts : list token) : option (list jvalue * list token) :=
  match fuel with
  | O => None
  | S fuel =>
      '(v, ts) ← parse_value fuel depth ts;
      match ts with
      | TComma :: ts => '(vs, ts) ← parse_elems fuel depth ts; Some (v :: vs, ts)
      | TDelim RBracket :: ts => Some ([v], ts)
      | _ => None
      end
  end
with parse_members (fuel : nat) (depth : N) (ts : list token)
    : option (list (bytes * jvalue) * list token) :=
  match fuel with
  | O => None
  | S fuel =>
      match ts with
      | TString k :: TColon :: ts =>
          '(v, ts) ← parse_value fuel depth ts;
          match ts with
          | TComma :: ts => '(kvs, ts) ← parse_members fuel depth ts; Some ((k, v) :: kvs, ts)
          | TDelim RBrace :: ts => Some ([(k, v)], ts)
          | _ => None
          end
      | _ => None
      end
  end.

(** Two calls for each token, and one. *)
Definition parse_tokens (ts : list token) : option jvalue :=
  match parse_value (S (2 * length ts)) 0 ts with
  | Some (v, []) => Some v
  | _ => None
  end.

(** [checkValid], with the value of a valid text. *)
Definition parse_json (data : bytes) : option jvalue := tokens false data ≫= parse_tokens.

(** The text of the value: [data] without the white space around it. *)
Definition value_text (data : bytes) : bytes := reverse (skip_ws (reverse (skip_ws data))).

(** ** [json.Unmarshal] into a struct with one integer field *)

(** [foldRune], as far as it leads to ASCII. *)
Definition fold_rune (c : Z) : Z :=
  if decide (97 <= c <= 122) then c - 32
  else if decide (c = 0x17F) then 83
  else if decide (c = 0x212A) then 75
  else c.

Fixpoint runes (fuel : nat) (bs : bytes) : list Z :=
  match fuel, bs with
  | S fuel, _ :: rest =>
      match decode_rune bs with
      | Some (c, rest) => c :: runes fuel rest
      | None => 0xFFFD :: runes fuel rest
      end
  | _, _ => []
  end.

(** Names of fields are compared without regard to case. *)
Definition fold_name (k : bytes) : list Z := fold_rune <$> runes (length k) k.

Section field.
(** The text of a number as a value of the field's type, if it fits, and the field's name. *)
Context (read : string → option Z) (name : string).

(** A member of the object: the value of the field so far, and whether some value did not
    fit it. *)
Definition store_number (st : Z * bool) (kv : bytes * jvalue) : Z * bool :=
  let '(n, bad) := st in
  let '(k, v) := kv in
  if decide (fold_name k = fold_name (str name)) then
    match v with
    | JNull => (n, bad)
    | JNumber lit => match read (to_string lit) with Some m => (m, bad) | None => (n, true) end
    | _ => (n, true)
    end
  else (n, bad).

Definition number_field (v : jvalue) : option Z :=
  match v with
  | JNull => Some 0
  | JObject kvs =>
      let '(n, bad) := foldl store_number (0, false) kvs in
      if bad : bool then None else Some n
  | _ => None
  end.

Definition unmarshal_number (data : bytes) : option Z := parse_json data ≫= number_field.
End field.

(** Fields of type [int] and [uint32]. *)
Definition int_field : string → jvalue → option Z := number_field ParseInt.
Definition unmarshal_int : string → bytes → option Z := unmarshal_number ParseInt.
Definition unmarshal_uint32 : string → bytes → option Z := unmarshal_number Decimal.parse_uint32.

(** ** [compact] *)

Inductive compacting := Outside | InString | Escaped.

(** White space between tokens is dropped; inside strings, what HTML and JavaScript take
    for markup is escaped. *)
Fixpoint compact_go (st : compacting) (bs : bytes) : bytes :=
  match bs with
  | [] => []
  | b :: rest =>
      match st with
      | Outside =>
          if is_ws b then compact_go Outside rest
          else b :: compact_go (if decide (b = x22) then InString else Outside) rest
      | Escaped => b :: compact_go InString rest
      | InString =>
          if decide (b = x22) then b :: compact_go Outside rest
          else if decide (b = x5c) then b :: compact_go Escaped rest
          else if decide (b ∈ [x3c; x3e; x26]) then
            [x5c; x75; x30; x30; hex_digit (Z_of_byte b / 16); hex_digit (Z_of_byte b mod 16)] ++
            compact_go InString rest
          else
            match rest with
            | y :: z :: after =>
                if decide (b = xe2 ∧ y = x80 ∧ z ∈ [xa8; xa9]) then
                  [x5c; x75; x32; x30; x32; hex_digit (Z_of_byte z mod 16)] ++
                  compact_go InString after
                else b :: compact_go InString rest
            | _ => b :: compact_go InString rest
            end
      end
  end.

(** [None] where the text is not valid. *)
Definition compact (data : bytes) : option bytes :=
  match parse_json data with
  | Some _ => Some (compact_go Outside data)
  | None => None
  end.

Example unmarshal_int_ex :
  unmarshal_int "Version" (str "{" ++ [x22] ++ str "x" ++ [x22] ++ str ": [1, {}], " ++
    [x22] ++ str "ver\u017fion" ++ [x22] ++ str ": 3 }") = Some 3 ∧
  unmarshal_int "Version" (str "{" ++ [x22] ++ str "Version" ++ [x22] ++ str ":1.0}") = None ∧
  unmarshal_int "Version" (str "null") = Some 0 ∧ unmarshal_int "Version" (str "[1,]") = None.
Proof. vm_compute. done. Qed.

Example compact_ex :
  compact (str " [ 1 , " ++ [x22] ++ str "a < b" ++ [xe2; x80; xa9] ++ [x22] ++ str " ]") =
    Some (str "[1," ++ [x22] ++ str "a \u003c b\u2029" ++ [x22] ++ str "]").
Proof. vm_compute. done. Qed.
