(* ===== verification/JsonFacts.v ===== *)
(** * Facts about the JSON reader

    What [JsonText] reads gets shorter, so its fuel is enough; a strict reader agrees with
    the lax one; compaction and white space around a text do not change its tokens; the
    shape of what the parser accepts; and [writes], the texts whose tokens, and those of
    their compacted form, are known. *)

From Stdlib Require Import ZArith Lia.
From stdpp Require Import base numbers strings sets list.
From S2P Require Import Prelude GoStd Json GoStrings JsonText.

(** ** Reading takes bytes *)

(** A rune that is decoded: its bytes, whatever follows them. *)
Lemma decode_rune_split bs c rest :
  decode_rune bs = Some (c, rest) →
  ∃ b l, bs = (b :: l) ++ rest ∧ (∀ r, decode_rune ((b :: l) ++ r) = Some (c, r)) ∧
    Forall (λ b, 0x80 <= Z_of_byte b < 0xC0) l ∧ (b = xe2 → length l = 2%nat).
Proof.
  destruct bs as [|b bs]; [done|]. unfold decode_rune at 1.
  repeat case_decide; try discriminate; intros E; cont_bytes; injection E as <- <-.
  all: match goal with
       | |- ∃ _ _, ?b :: ?x :: ?y :: ?z :: ?rest = _ ∧ _ => exists b, [x; y; z]
       | |- ∃ _ _, ?b :: ?x :: ?y :: ?rest = _ ∧ _ => exists b, [x; y]
       | |- ∃ _ _, ?b :: ?x :: ?rest = _ ∧ _ => exists b, [x]
       | |- ∃ _ _, ?b :: ?rest = _ ∧ _ => exists b, []
       end.
  all: split; [done|]; split.
  all: try (intros r; cbn [app]; unfold decode_rune, cont_byte; repeat (case_decide; try lia; cbn [mbind option_bind]); done).
  all: split; [repeat apply Forall_cons_2; try apply Forall_nil_2; repeat case_decide; lia|].
  all: intros ->; change (Z_of_byte xe2) with 0xE2 in *; first [done|lia].
Qed.

Lemma hex4_shorter bs c rest : hex4 bs = Some (c, rest) → (length rest < length bs)%nat.
Proof.
  destruct bs as [|x1 [|x2 [|x3 [|x4 bs]]]]; try done. cbn [hex4].
  destruct (hex_digit_val x1), (hex_digit_val x2), (hex_digit_val x3), (hex_digit_val x4); try done.
  intros [= _ <-]. cbn. lia.
Qed.

Lemma after_byte_app c bs rest : after_byte c bs = Some rest → bs = c :: rest.
Proof. destruct bs as [|b bs]; [done|]. cbn. case_decide as E; [|done]. by intros [= <-]; subst. Qed.

Lemma after_byte_cons c rest : after_byte c (c :: rest) = Some rest.
Proof. cbn. by rewrite decide_True. Qed.

Lemma surrogate_pair_inv c rest s r :
  surrogate_pair c rest = Some (s, r) →
  ∃ d rest', rest = x5c :: x75 :: rest' ∧ hex4 rest' = Some (d, r) ∧
    ∀ after k, hex4 after = Some (d, k) → surrogate_pair c (x5c :: x75 :: after) = Some (s, k).
Proof.
  unfold surrogate_pair at 1. intros E.
  destruct (after_byte x5c rest) as [rest1|] eqn:E1; [|done]. cbn [mbind option_bind] in E.
  destruct (after_byte x75 rest1) as [rest2|] eqn:E2; [|done]. cbn [mbind option_bind] in E.
  apply after_byte_app in E1 as ->, E2 as ->.
  destruct (hex4 rest2) as [[d k]|] eqn:Eh; [|done]. cbn [mbind option_bind] in E.
  case_decide; [|done]. injection E as <- <-. exists d, rest2. split; [done|]. split; [done|].
  intros after k' E. unfold surrogate_pair. rewrite !after_byte_cons. cbn [mbind option_bind].
  rewrite after_byte_cons. cbn [mbind option_bind]. rewrite E. cbn [mbind option_bind]. by rewrite decide_True.
Qed.

Lemma read_unicode_shorter strict bs s rest :
  read_unicode strict bs = Some (s, rest) → (length rest < length bs)%nat.
Proof.
  unfold read_unicode. destruct (hex4 bs) as [[c r]|] eqn:E; [|done]. cbn [mbind option_bind].
  apply hex4_shorter in E. destruct (is_surrogate c); [|intros [= _ <-]; done].
  destruct (surrogate_pair c r) as [[]|] eqn:El.
  - intros [= -> ->]. apply surrogate_pair_inv in El as (d & r' & -> & Eh%hex4_shorter & _). cbn in E. lia.
  - destruct strict; [done|]. intros [= _ <-]. done.
Qed.

Lemma unescape_shorter strict bs s rest :
  unescape strict bs = Some (s, rest) → (length rest < length bs)%nat.
Proof.
  destruct bs as [|[] bs]; try done; cbn [unescape length];
    first [intros [= _ <-]; lia|intros ?%read_unicode_shorter; lia].
Qed.

Lemma decode_rune_shorter bs c rest : decode_rune bs = Some (c, rest) → (length rest < length bs)%nat.
Proof. intros (b & l & -> & _)%decode_rune_split. rewrite length_app. cbn. lia. Qed.

(** What [read_char] does on a byte that is no backslash. *)
Definition read_plain (strict : bool) (b : Byte.byte) (rest : bytes) : option (bytes * bytes) :=
  if decide (Z_of_byte b < 0x20) then None
  else
    match decode_rune (b :: rest) with
    | Some (_, after) => Some (take (length (b :: rest) - length after) (b :: rest), after)
    | None => if strict then None else Some (replacement, rest)
    end.

Lemma read_char_cases strict b rest :
  (b = x5c ∧ read_char strict (b :: rest) = unescape strict rest) ∨
  (b ≠ x5c ∧ read_char strict (b :: rest) = read_plain strict b rest).
Proof. destruct (decide (b = x5c)) as [->|Hb]; [by left|right]. split; [done|]. by destruct b. Qed.

Lemma read_char_shorter strict bs s rest :
  read_char strict bs = Some (s, rest) → (length rest < length bs)%nat.
Proof.
  destruct bs as [|b bs]; [done|].
  destruct (read_char_cases strict b bs) as [[-> ->]|[_ ->]].
  - intros ?%unescape_shorter. cbn. lia.
  - unfold read_plain. case_decide; [done|].
    destruct (decode_rune (b :: bs)) as [[c r]|] eqn:E.
    + intros [= _ <-]. by apply decode_rune_shorter in E.
    + destruct strict; [done|]. intros [= _ <-]. cbn. lia.
Qed.

(** One turn of [unquote] on a byte that is no quote. *)
Lemma unquote_turn strict fuel bs s rest :
  unquote strict (S fuel) bs = Some (s, rest) →
  (bs = x22 :: rest ∧ s = []) ∨
  ∃ c s' r, head bs ≠ Some x22 ∧ read_char strict bs = Some (c, r) ∧
    unquote strict fuel r = Some (s', rest) ∧ s = c ++ s'.
Proof.
  cbn [unquote]. intros E. destruct (decide (head bs = Some x22)) as [Hq|Hq].
  - destruct bs as [|b bs]; [done|]. injection Hq as ->. injection E as <- ->. by left.
  - right. assert (E' : ('(c, rest) ← read_char strict bs;
      '(s, rest) ← unquote strict fuel rest; Some (c ++ s, rest)) = Some (s, rest)).
    { destruct bs as [|[] bs]; try exact E; by destruct Hq. }
    destruct (read_char strict bs) as [[c r]|]; [|done]. cbn [mbind option_bind] in E'.
    destruct (unquote strict fuel r) as [[s' r']|] eqn:Eu; [|done]. injection E' as <- <-. by exists c, s', r.
Qed.

Lemma unquote_step strict fuel bs c r s rest :
  head bs ≠ Some x22 → read_char strict bs = Some (c, r) → unquote strict fuel r = Some (s, rest) →
  unquote strict (S fuel) bs = Some (c ++ s, rest).
Proof.
  intros Hq Ec Eu. transitivity ('(c, rest) ← read_char strict bs;
    '(s, rest) ← unquote strict fuel rest; Some (c ++ s, rest)).
  - destruct bs as [|[] bs]; try reflexivity; by destruct Hq.
  - rewrite Ec. cbn [mbind option_bind]. by rewrite Eu.
Qed.

(** What can be read with some fuel can be read with one unit for each byte. *)
Lemma unquote_fuel strict n m bs s rest :
  unquote strict n bs = Some (s, rest) → (length bs ≤ m)%nat →
  unquote strict m bs = Some (s, rest) ∧ (length rest < length bs)%nat.
Proof.
  revert m bs s. induction n as [|n IH]; intros m bs s E Hm; [done|].
  apply unquote_turn in E as [[-> ->]|(c & s' & r & Hq & Ec & Eu & ->)].
  - destruct m as [|m]; [cbn in Hm; lia|]. split; [done|cbn; lia].
  - pose proof (read_char_shorter _ _ _ _ Ec). destruct m as [|m]; [lia|].
    apply (IH m) in Eu as [Eu ?]; [|lia]. split; [by eapply unquote_step|lia].
Qed.

(** A strict reader reads what the other reads. *)
Lemma read_char_strict bs c r : read_char true bs = Some (c, r) → read_char false bs = Some (c, r).
Proof.
  destruct bs as [|b bs]; [done|].
  destruct (read_char_cases true b bs) as [[Hb ->]|[Hb ->]],
    (read_char_cases false b bs) as [[? ->]|[? ->]]; try done.
  - destruct bs as [|[] bs]; try done. cbn [unescape]. unfold read_unicode.
    destruct (hex4 bs) as [[z r']|]; [|done]. cbn [mbind option_bind].
    destruct (is_surrogate z); [|done]. by destruct (surrogate_pair z r').
  - unfold read_plain. case_decide; [done|]. by destruct (decode_rune (b :: bs)) as [[]|].
Qed.

Lemma unquote_strict n bs s r : unquote true n bs = Some (s, r) → unquote false n bs = Some (s, r).
Proof.
  revert bs s. induction n as [|n IH]; intros bs s E; [done|].
  apply unquote_turn in E as [[-> ->]|(c & s' & r' & Hq & Ec & Eu & ->)]; [done|].
  eapply unquote_step; [done|by apply read_char_strict|by apply IH].
Qed.

Lemma take_before {A} (l r : list A) : take (length (l ++ r) - length r) (l ++ r) = l.
Proof. by rewrite length_app, Nat.add_sub, take_app_length. Qed.

(** ** Compaction keeps what a string stands for *)

(** A byte that is copied, whatever follows. *)
Lemma compact_copy b rest :
  b ∉ [x22; x5c; x3c; x3e; x26; xe2] → compact_go InString (b :: rest) = b :: compact_go InString rest.
Proof.
  rewrite !not_elem_of_cons. intros (H1 & H2 & H3 & H4 & H5 & H6 & _). cbn [compact_go].
  rewrite !decide_False by (rewrite ?elem_of_cons, ?elem_of_nil; naive_solver).
  destruct rest as [|y [|z after]]; [done..|]. by rewrite decide_False by naive_solver.
Qed.

Lemma compact_hex a z rest :
  hex_digit_val a = Some z → compact_go InString (a :: rest) = a :: compact_go InString rest.
Proof.
  intros E. apply compact_copy. intros Ha.
  repeat (apply elem_of_cons in Ha as [->|Ha]; [vm_compute in E; discriminate E|]).
  by apply elem_of_nil in Ha.
Qed.

Lemma hex4_compact bs c rest :
  hex4 bs = Some (c, rest) → hex4 (compact_go InString bs) = Some (c, compact_go InString rest).
Proof.
  destruct bs as [|x1 [|x2 [|x3 [|x4 bs]]]]; try done. intros E. cbn [hex4] in E.
  destruct (hex_digit_val x1) eqn:E1, (hex_digit_val x2) eqn:E2, (hex_digit_val x3) eqn:E3,
    (hex_digit_val x4) eqn:E4; try done.
  injection E as <- <-. rewrite !(compact_hex _ _ _ E1), !(compact_hex _ _ _ E2), !(compact_hex _ _ _ E3),
    !(compact_hex _ _ _ E4). cbn [hex4]. by rewrite E1, E2, E3, E4.
Qed.

Lemma unescape_compact bs c rest :
  unescape true bs = Some (c, rest) →
  unescape true (compact_go Escaped bs) = Some (c, compact_go InString rest).
Proof.
  destruct bs as [|b bs]; [done|]. cbn [compact_go].
  destruct b; try done; cbn [unescape]; try (by intros [= <- <-]).
  unfold read_unicode. destruct (hex4 bs) as [[z r]|] eqn:E; [|done]. cbn [mbind option_bind].
  rewrite (hex4_compact _ _ _ E). cbn [mbind option_bind].
  destruct (is_surrogate z); [|by intros [= <- <-]].
  destruct (surrogate_pair z r) as [[s k]|] eqn:El; [|done]. intros [= <- <-].
  apply surrogate_pair_inv in El as (d & r' & -> & Eh & Hl).
  change (compact_go InString (x5c :: x75 :: r')) with (x5c :: x75 :: compact_go InString r').
  by rewrite (Hl _ _ (hex4_compact _ _ _ Eh)).
Qed.

(** Bytes of which none starts one of the escaped sequences. *)
Lemma compact_copies l rest :
  Forall (λ b, 0x80 <= Z_of_byte b < 0xC0) l →
  compact_go InString (l ++ rest) = l ++ compact_go InString rest.
Proof.
  induction 1 as [|b l Hb Hl IH]; [done|]. cbn [app]. rewrite <- IH.
  apply compact_copy. intros Hx.
  repeat (apply elem_of_cons in Hx as [->|Hx]; [vm_compute in Hb; naive_solver|]).
  by apply elem_of_nil in Hx.
Qed.

Lemma compact_multibyte b l rest :
  ¬ Z_of_byte b < 0x80 → Forall (λ b, 0x80 <= Z_of_byte b < 0xC0) l → (b = xe2 → length l = 2%nat) →
  compact_go InString ((b :: l) ++ rest) = (b :: l) ++ compact_go InString rest ∨
  ∃ c, (c = xa8 ∨ c = xa9) ∧ b :: l = [xe2; x80; c] ∧
    compact_go InString ((b :: l) ++ rest) =
      [x5c; x75; x32; x30; x32; hex_digit (Z_of_byte c mod 16)] ++ compact_go InString rest.
Proof.
  intros Hb Hl He. destruct (decide (b = xe2)) as [->|Hne].
  - destruct l as [|y [|z [|]]]; try (by specialize (He eq_refl)).
    cbn [app compact_go]. rewrite !decide_False by (done || set_solver).
    case_decide as Hc.
    + right. destruct Hc as (_ & -> & Hc). exists z. split; [|done]. revert Hc. set_solver.
    + left. f_equal. by apply (compact_copies [y; z]).
  - left. change (compact_go InString (b :: l ++ rest) = b :: l ++ compact_go InString rest).
    rewrite <- compact_copies by done.
    apply compact_copy. intros Hx.
    repeat (apply elem_of_cons in Hx as [->|Hx]; [first [by destruct Hne|exfalso; apply Hb; vm_compute; done]|]).
    by apply elem_of_nil in Hx.
Qed.

(** One character, kept or escaped. *)
Lemma read_char_compact bs c rest :
  head bs ≠ Some x22 → read_char true bs = Some (c, rest) →
  head (compact_go InString bs) ≠ Some x22 ∧
  read_char true (compact_go InString bs) = Some (c, compact_go InString rest).
Proof.
  destruct bs as [|b bs]; [done|]. intros Hq E.
  destruct (read_char_cases true b bs) as [[Hb Er]|[Hb Er]]; rewrite Er in E; clear Er.
  { subst b. cbn [compact_go]. split; [done|]. by apply unescape_compact. }
  unfold read_plain in E. case_decide as Hlow; [done|].
  destruct (decode_rune (b :: bs)) as [[z r]|] eqn:Ed; [|done].
  injection E as <- <-.
  destruct (decide (Z_of_byte b < 0x80)) as [Ha|Ha].
  - rewrite decode_rune_ascii in Ed by done. injection Ed as <- <-.
    cbn [length]. replace (S (length bs) - length bs)%nat with 1%nat by lia. cbn [take].
    destruct (decide (b ∈ [x3c; x3e; x26])) as [Hm|Hm].
    + repeat (apply elem_of_cons in Hm as [->|Hm]; [by split|]). by apply elem_of_nil in Hm.
    + rewrite compact_copy.
      2: { rewrite !not_elem_of_cons in Hm. rewrite !not_elem_of_cons. destruct Hm as (? & ? & ? & _).
           assert (b ≠ x22) by (by intros ->). assert (b ≠ xe2) by (by intros ->).
           repeat (split; [done|]). apply not_elem_of_nil. }
      split; [done|]. destruct (read_char_cases true b (compact_go InString bs)) as [[? _]|[_ ->]]; [done|].
      unfold read_plain. rewrite decide_False, decode_rune_ascii by done.
      cbn [length]. by rewrite Nat.sub_succ_l, Nat.sub_diag by lia.
  - apply decode_rune_split in Ed as (b' & l & E & Hd & Hl & He). injection E as <- ->.
    replace (take _ _) with (b :: l).
    2: { symmetry. apply (take_before (b :: l) r). }
    rewrite app_comm_cons.
    destruct (compact_multibyte b l r Ha Hl He) as [->|(x & Hx & -> & ->)].
    + split; [done|]. rewrite <- app_comm_cons.
      destruct (read_char_cases true b (l ++ compact_go InString r)) as [[? _]|[_ ->]]; [done|].
      unfold read_plain. rewrite decide_False by lia. rewrite app_comm_cons, Hd.
      by rewrite take_before.
    + split; [done|]. by destruct Hx as [-> | ->].
Qed.

Lemma unquote_compact n bs s rest :
  unquote true n bs = Some (s, rest) →
  unquote true n (compact_go InString bs) = Some (s, compact_go Outside rest).
Proof.
  revert bs s. induction n as [|n IH]; intros bs s E; [done|].
  apply unquote_turn in E as [[-> ->]|(c & s' & r & Hq & Ec & Eu & ->)]; [done|].
  apply read_char_compact in Ec as [Hq' Ec]; [|done].
  eapply unquote_step; [done..|by apply IH].
Qed.

(** ** Tokens and text *)

Lemma digits_app bs : bs = (digits bs).1 ++ (digits bs).2.
Proof.
  induction bs as [|b bs IH]; [done|]. cbn [digits]. case_decide; [|done].
  destruct (digits bs) as [ds r]. cbn in *. by rewrite IH at 1.
Qed.

Lemma some_digits_app bs ds r : some_digits bs = Some (ds, r) → bs = ds ++ r ∧ ds ≠ [].
Proof.
  unfold some_digits. pose proof (digits_app bs) as E. destruct (digits bs) as [[|d l] k]; [done|].
  by intros [= <- <-].
Qed.

Lemma one_of_app cs bs : bs = (one_of cs bs).1 ++ (one_of cs bs).2.
Proof. destruct bs as [|b bs]; [done|]. cbn. by case_decide. Qed.

Lemma read_int_app bs n r : read_int bs = Some (n, r) → bs = n ++ r ∧ n ≠ [].
Proof.
  unfold read_int. destruct (after_byte x30 bs) as [rest|] eqn:E.
  - apply after_byte_app in E as ->. by intros [= <- <-].
  - apply some_digits_app.
Qed.

Lemma read_frac_app bs n r : read_frac bs = Some (n, r) → bs = n ++ r.
Proof.
  unfold read_frac. destruct (after_byte x2e bs) as [rest|] eqn:E; [|by intros [= <- <-]].
  apply after_byte_app in E as ->. destruct (some_digits rest) as [[ds k]|] eqn:E; [|done].
  intros [= <- <-]. by apply some_digits_app in E as [-> _].
Qed.

Lemma read_exp_app bs n r : read_exp bs = Some (n, r) → bs = n ++ r.
Proof.
  unfold read_exp. pose proof (one_of_app [x65; x45] bs) as E1.
  destruct (one_of _ bs) as [e rest]. cbn in E1. destruct e as [|e es]; [by intros [= <- <-]|].
  pose proof (one_of_app [x2b; x2d] rest) as E2. destruct (one_of _ rest) as [sign rest']. cbn in E2.
  destruct (some_digits rest') as [[ds k]|] eqn:E; [|done]. intros [= <- <-].
  apply some_digits_app in E as [-> _]. subst. by simplify_list_eq.
Qed.

Lemma read_number_app bs n r : read_number bs = Some (n, r) → bs = n ++ r ∧ n ≠ [].
Proof.
  unfold read_number. pose proof (one_of_app [x2d] bs) as E.
  destruct (one_of _ bs) as [sign bs1]. cbn in E. subst bs.
  destruct (read_int bs1) as [[int bs2]|] eqn:E2; [|done]. cbn [mbind option_bind].
  destruct (read_frac bs2) as [[frac bs3]|] eqn:E3; [|done]. cbn [mbind option_bind].
  destruct (read_exp bs3) as [[exp bs4]|] eqn:E4; [|done]. cbn [mbind option_bind].
  apply read_int_app in E2 as [-> Hi]. apply read_frac_app in E3 as ->. apply read_exp_app in E4 as ->.
  intros [= <- <-]. rewrite <- !app_assoc. split; [done|]. by destruct sign, int.
Qed.

Lemma literal_app lit bs rest : literal lit bs = Some rest → bs = str lit ++ rest.
Proof.
  unfold literal. case_decide as E; [|done]. intros [= <-]. rewrite <- E. symmetry. apply take_drop.
Qed.

(** ** Texts and their tokens *)

Lemma skip_ws_shorter bs : (length (skip_ws bs) ≤ length bs)%nat.
Proof. induction bs as [|b bs IH]; [done|]. cbn. destruct (is_ws b); cbn; lia. Qed.

Lemma lex_token_shorter strict bs t rest :
  lex_token strict bs = Some (t, rest) → (length rest < length bs)%nat.
Proof.
  destruct bs as [|b bs]; [done|]. unfold lex_token. destruct (delim_of b); [intros [= _ <-]; cbn; lia|].
  repeat case_decide; try (intros [= _ <-]; cbn; lia).
  { destruct (unquote _ _ _) as [[s r]|] eqn:E; [|done]. intros [= _ <-].
    apply (unquote_fuel _ _ (length bs)) in E as [_ ?]; [|done]. cbn. lia. }
  assert (Hl : ∀ lit k, literal lit (b :: bs) = Some k → str lit ≠ [] → (length k < length (b :: bs))%nat).
  { intros lit k E Hne. rewrite (literal_app _ _ _ E), length_app. destruct (str lit); [done|cbn; lia]. }
  destruct (literal "true" (b :: bs)) eqn:E1; [intros [= _ <-]; by eapply Hl|].
  destruct (literal "false" (b :: bs)) eqn:E2; [intros [= _ <-]; by eapply Hl|].
  destruct (literal "null" (b :: bs)) eqn:E3; [intros [= _ <-]; by eapply Hl|].
  destruct (read_number (b :: bs)) as [[n r]|] eqn:E; [|done]. intros [= _ <-].
  apply read_number_app in E as [-> Hn]. rewrite length_app. destruct n; [done|cbn; lia].
Qed.

(** One turn of [lex]. *)
Lemma lex_turn strict n bs ts :
  lex strict n bs = Some ts →
  (skip_ws bs = [] ∧ ts = []) ∨
  ∃ m t r ts', n = S m ∧ skip_ws bs ≠ [] ∧ lex_token strict (skip_ws bs) = Some (t, r) ∧
    lex strict m r = Some ts' ∧ ts = t :: ts'.
Proof.
  intros E. assert (E' : match skip_ws bs with
    | [] => Some []
    | b :: rest => match n with
        | O => None
        | S m => '(t, rest) ← lex_token strict (b :: rest); ts ← lex strict m rest; Some (t :: ts)
        end
    end = Some ts) by (by destruct n).
  clear E. destruct (skip_ws bs) as [|b rest]; [left; by injection E' as <-|right].
  destruct n as [|m]; [done|].
  destruct (lex_token strict (b :: rest)) as [[t r]|]; [|done]. cbn [mbind option_bind] in E'.
  destruct (lex strict m r) as [ts'|] eqn:El; [|done]. injection E' as <-. by exists m, t, r, ts'.
Qed.

Lemma lex_nil strict n bs : skip_ws bs = [] → lex strict n bs = Some [].
Proof. destruct n; cbn [lex]; by intros ->. Qed.

Lemma lex_step strict n bs t r ts :
  lex_token strict (skip_ws bs) = Some (t, r) → lex strict n r = Some ts →
  lex strict (S n) bs = Some (t :: ts).
Proof.
  intros E El. cbn [lex]. destruct (skip_ws bs) as [|b rest]; [done|].
  rewrite E. cbn [mbind option_bind]. by rewrite El.
Qed.

Lemma lex_fuel strict n m bs ts :
  lex strict n bs = Some ts → (length bs ≤ m)%nat → lex strict m bs = Some ts.
Proof.
  revert m bs ts. induction n as [|n IH]; intros m bs ts E Hm;
    apply lex_turn in E as [[Ews ->]|(k & t & r & ts' & Ek & Hne & Et & El & ->)]; try done;
    try by apply lex_nil.
  injection Ek as <-. pose proof (lex_token_shorter _ _ _ _ Et). pose proof (skip_ws_shorter bs).
  destruct m as [|m]; [lia|]. apply (lex_step _ _ _ _ r); [done|]. apply IH; [done|lia].
Qed.

(** [ts] are the tokens of the well encoded text [bs]. *)
Definition lexes (bs : bytes) (ts : list token) : Prop := tokens true bs = Some ts.

Lemma lexes_intro n bs ts : lex true n bs = Some ts → lexes bs ts.
Proof. intros E. by eapply lex_fuel. Qed.

Lemma lexes_nil : lexes [] [].
Proof. done. Qed.

Lemma lexes_cons bs t r ts : lex_token true (skip_ws bs) = Some (t, r) → lexes r ts → lexes bs (t :: ts).
Proof. intros Et El. apply (lexes_intro (S (length r))). by eapply lex_step. Qed.

Lemma lex_token_strict bs t r : lex_token true bs = Some (t, r) → lex_token false bs = Some (t, r).
Proof.
  destruct bs as [|b bs]; [done|]. unfold lex_token. destruct (delim_of b); [done|].
  repeat case_decide; try done.
  destruct (unquote true _ _) as [[s k]|] eqn:E; [|done]. by rewrite (unquote_strict _ _ _ _ E).
Qed.

Lemma lexes_lax bs ts : lexes bs ts → tokens false bs = Some ts.
Proof.
  unfold lexes, tokens. generalize (length bs) as n. intros n. revert bs ts.
  induction n as [|n IH]; intros bs ts E;
    apply lex_turn in E as [[Ews ->]|(k & t & r & ts' & Ek & Hne & Et & El & ->)]; try done;
    try by apply lex_nil.
  injection Ek as <-. eapply lex_step; [by apply lex_token_strict|by apply IH].
Qed.

Lemma length_lexes bs ts : lexes bs ts → (length ts ≤ length bs)%nat.
Proof.
  unfold lexes, tokens. generalize (length bs) as n. intros n. revert bs ts.
  induction n as [|n IH]; intros bs ts E;
    apply lex_turn in E as [[Ews ->]|(k & t & r & ts' & Ek & Hne & Et & El & ->)]; cbn; try lia; try done.
  injection Ek as <-. apply IH in El. lia.
Qed.

(** ** White space behind a text does not matter *)

Lemma ws_inv b : is_ws b = true → b = x20 ∨ b = x09 ∨ b = x0a ∨ b = x0d.
Proof. unfold is_ws. rewrite bool_decide_eq_true. set_solver. Qed.

Section trailing.
Context (w : bytes) (Hw : Forall (λ b, is_ws b = true) w).

Definition trail {A} (o : option (A * bytes)) : option (A * bytes) :=
  (λ p : A * bytes, (p.1, p.2 ++ w)) <$> o.

(** A byte of white space is not what [P] looks for. *)
Lemma ws_head (P : Byte.byte → Prop) b : ¬ P x20 → ¬ P x09 → ¬ P x0a → ¬ P x0d → head w = Some b → ¬ P b.
Proof.
  intros H1 H2 H3 H4 E. destruct Hw as [|c v Hc]; [done|]. injection E as ->.
  by apply ws_inv in Hc as [->|[->|[->| ->]]].
Qed.

Lemma cont_byte_trail lo hi bs : 0x80 <= lo → cont_byte lo hi (bs ++ w) = trail (cont_byte lo hi bs).
Proof.
  intros Hlo. destruct bs as [|b bs]; cbn.
  - pose proof (ws_head (λ b, lo <= Z_of_byte b <= hi)) as Hn. destruct w as [|b v]; [done|]. cbn.
    rewrite decide_False; [done|]. apply Hn; [..|done]; cbv - [Z.le]; lia.
  - by case_decide.
Qed.

Lemma decode_rune_trail b bs : decode_rune ((b :: bs) ++ w) = trail (decode_rune (b :: bs)).
Proof.
  unfold decode_rune. cbn [app]. repeat (case_decide; [try done|]); try done;
    rewrite cont_byte_trail by (repeat case_decide; lia);
    destruct (cont_byte _ _ bs) as [[c1 r1]|]; try done; cbn;
    rewrite cont_byte_trail by lia; destruct (cont_byte _ _ r1) as [[c2 r2]|]; try done; cbn;
    rewrite cont_byte_trail by lia; by destruct (cont_byte _ _ r2) as [[c3 r3]|].
Qed.

Lemma hex4_trail bs : hex4 (bs ++ w) = trail (hex4 bs).
Proof.
  assert (Hd : ∀ b, head w = Some b → hex_digit_val b = None).
  { intros b E. destruct w as [|c v]; [done|]. injection E as ->. apply Forall_cons in Hw as [Hc _].
    by apply ws_inv in Hc as [->|[->|[->| ->]]]. }
  destruct bs as [|x1 [|x2 [|x3 [|x4 bs]]]]; cbn [app].
  1-4: destruct w as [|y1 [|y2 [|y3 [|y4 v]]]]; try done; cbn [hex4];
    rewrite (Hd y1 eq_refl); repeat (destruct (hex_digit_val _); try done).
  cbn [hex4]. by destruct (hex_digit_val x1), (hex_digit_val x2), (hex_digit_val x3), (hex_digit_val x4).
Qed.

Lemma after_byte_trail c bs : is_ws c = false → after_byte c (bs ++ w) = (.++ w) <$> after_byte c bs.
Proof.
  intros Hc. destruct bs as [|b bs]; cbn; [|by case_decide]. destruct w as [|b v]; [done|]. cbn.
  rewrite decide_False; [done|]. intros ->. apply Forall_cons in Hw as [? _]. congruence.
Qed.

Lemma surrogate_pair_trail c bs : surrogate_pair c (bs ++ w) = trail (surrogate_pair c bs).
Proof.
  unfold surrogate_pair. rewrite after_byte_trail by done. destruct (after_byte x5c bs) as [r1|]; [|done].
  cbn. rewrite after_byte_trail by done. destruct (after_byte x75 r1) as [r2|]; [|done]. cbn.
  rewrite hex4_trail. destruct (hex4 r2) as [[d r3]|]; [|done]. cbn. by case_decide.
Qed.

Lemma unescape_trail bs : unescape true (bs ++ w) = trail (unescape true bs).
Proof.
  destruct bs as [|b bs]; cbn [app].
  - destruct w as [|c v]; [done|]. apply Forall_cons in Hw as [Hc _].
    by apply ws_inv in Hc as [->|[->|[->| ->]]].
  - destruct b; try done. cbn [unescape]. unfold read_unicode. rewrite hex4_trail.
    destruct (hex4 bs) as [[c r]|]; [|done]. cbn. destruct (is_surrogate c); [|done].
    rewrite surrogate_pair_trail. by destruct (surrogate_pair c r) as [[]|].
Qed.

Lemma read_char_trail b bs : read_char true ((b :: bs) ++ w) = trail (read_char true (b :: bs)).
Proof.
  cbn [app]. destruct (read_char_cases true b (bs ++ w)) as [[Hb ->]|[Hb ->]],
    (read_char_cases true b bs) as [[? ->]|[? ->]]; try done; [apply unescape_trail|].
  unfold read_plain. case_decide; [done|]. pose proof (decode_rune_trail b bs) as E. cbn [app] in E.
  rewrite E. destruct (decode_rune (b :: bs)) as [[c r]|] eqn:Ed; [|done]. cbn.
  apply decode_rune_split in Ed as (b' & l & E' & _). injection E' as <- ->. do 2 f_equal.
  transitivity (b :: l); [|symmetry; apply (take_before (b :: l))].
  rewrite <- app_assoc. apply (take_before (b :: l)).
Qed.

Lemma unquote_ws n v : Forall (λ b, is_ws b = true) v → unquote true n v = None.
Proof.
  revert v. induction n as [|n IH]; intros v Hv; [done|].
  destruct (unquote true (S n) v) as [[s r]|] eqn:E; [|done]. exfalso.
  apply unquote_turn in E as [[-> _]|(c & s' & k & _ & Ec & Eu & _)].
  { by apply Forall_cons in Hv as [? _]. }
  destruct v as [|b v]; [done|]. apply Forall_cons in Hv as [Hb Hv].
  assert (Hk : k = v); [|subst k; by rewrite IH in Eu].
  by apply ws_inv in Hb as [->|[->|[->| ->]]]; try discriminate Ec; injection Ec.
Qed.

Lemma unquote_trail n bs : unquote true n (bs ++ w) = trail (unquote true n bs).
Proof.
  revert bs. induction n as [|n IH]; intros bs; [done|].
  destruct bs as [|b bs]; [by rewrite unquote_ws|]. destruct (decide (b = x22)) as [->|Hb]; [done|].
  assert (Hs : ∀ bs, head bs = Some b → unquote true (S n) bs =
    '(c, rest) ← read_char true bs; '(s, rest) ← unquote true n rest; Some (c ++ s, rest)).
  { intros [|[] ?] [= <-]; try reflexivity; done. }
  rewrite !Hs by done. rewrite read_char_trail. destruct (read_char true (b :: bs)) as [[c r]|]; [|done].
  cbn. rewrite IH. by destruct (unquote true n r) as [[]|].
Qed.
Lemma digits_trail bs : digits (bs ++ w) = ((digits bs).1, (digits bs).2 ++ w).
Proof.
  induction bs as [|b bs IH]; cbn [app digits].
  - pose proof (ws_head (λ b, 48 <= Z_of_byte b <= 57)) as Hn. destruct w as [|b v]; [done|]. cbn.
    rewrite decide_False; [done|]. apply Hn; [..|done]; cbv - [Z.le]; lia.
  - case_decide; [|done]. rewrite IH. by destruct (digits bs).
Qed.

Lemma some_digits_trail bs : some_digits (bs ++ w) = trail (some_digits bs).
Proof. unfold some_digits. rewrite digits_trail. by destruct (digits bs) as [[|] ?]. Qed.

Lemma one_of_trail cs bs :
  x20 ∉ cs → x09 ∉ cs → x0a ∉ cs → x0d ∉ cs →
  one_of cs (bs ++ w) = ((one_of cs bs).1, (one_of cs bs).2 ++ w).
Proof.
  intros H1 H2 H3 H4. destruct bs as [|b bs]; cbn [app one_of].
  - pose proof (ws_head (.∈ cs)) as Hn. destruct w as [|b v]; [done|]. cbn.
    rewrite decide_False; [done|]. by apply Hn.
  - by case_decide.
Qed.

Lemma read_int_trail bs : read_int (bs ++ w) = trail (read_int bs).
Proof.
  unfold read_int. rewrite after_byte_trail by done. destruct (after_byte x30 bs); [done|]. cbn.
  apply some_digits_trail.
Qed.

Lemma read_frac_trail bs : read_frac (bs ++ w) = trail (read_frac bs).
Proof.
  unfold read_frac. rewrite after_byte_trail by done. destruct (after_byte x2e bs) as [r|]; [|done]. cbn.
  rewrite some_digits_trail. by destruct (some_digits r) as [[]|].
Qed.

Lemma read_exp_trail bs : read_exp (bs ++ w) = trail (read_exp bs).
Proof.
  unfold read_exp. rewrite one_of_trail by set_solver.
  destruct (one_of [x65; x45] bs) as [[|e es] r]; [done|]. cbn.
  rewrite one_of_trail by set_solver. destruct (one_of [x2b; x2d] r) as [s k]. cbn.
  rewrite some_digits_trail. by destruct (some_digits k) as [[]|].
Qed.

Lemma read_number_trail bs : read_number (bs ++ w) = trail (read_number bs).
Proof.
  unfold read_number. rewrite one_of_trail by set_solver.
  destruct (one_of [x2d] bs) as [sign r]. cbn. rewrite read_int_trail.
  destruct (read_int r) as [[int k]|]; [|done]. cbn. rewrite read_frac_trail.
  destruct (read_frac k) as [[frac k1]|]; [|done]. cbn. rewrite read_exp_trail.
  by destruct (read_exp k1) as [[]|].
Qed.

Lemma literal_trail lit bs :
  Forall (λ b, is_ws b = false) (str lit) → literal lit (bs ++ w) = (.++ w) <$> literal lit bs.
Proof.
  intros Hl. assert (length (str lit) = String.length lit) as Hlen.
  { unfold str. clear. induction lit as [|a lit IH]; [done|]. exact (f_equal S IH). }
  unfold literal. rewrite <- Hlen. clear Hlen. revert Hl. generalize (str lit) as l. intros l Hl. revert bs.
  induction Hl as [|b l Hb Hl IH]; intros bs; [done|]. destruct bs as [|c bs]; cbn [app length].
  - cbn [fmap option_fmap option_map]. rewrite (decide_False (P:=take _ [] = _)) by done.
    destruct Hw as [|c v Hc]; [done|]. cbn. rewrite decide_False; [done|]. intros [= -> _]. congruence.
  - cbn [take drop]. specialize (IH bs). repeat case_decide; simplify_eq/=; try done; try congruence.
Qed.

Lemma lex_token_trail b bs : lex_token true ((b :: bs) ++ w) = trail (lex_token true (b :: bs)).
Proof.
  unfold lex_token. cbn [app]. destruct (delim_of b); [done|]. repeat (case_decide; [try done|]).
  { destruct (unquote true (length bs) bs) as [[s r]|] eqn:E.
    - assert (E' : unquote true (length (bs ++ w)) bs = Some (s, r)).
      { apply (unquote_fuel _ _ (length (bs ++ w))) in E as [E _]; [done|]. rewrite length_app. lia. }
      by rewrite unquote_trail, E'.
    - rewrite unquote_trail. destruct (unquote true (length (bs ++ w)) bs) as [[s r]|] eqn:E'; [|done].
      apply (unquote_fuel _ _ (length bs)) in E' as [E' _]; [congruence|done]. }
  rewrite app_comm_cons. rewrite !literal_trail by (repeat constructor).
  destruct (literal "true" (b :: bs)); [done|]. destruct (literal "false" (b :: bs)); [done|].
  destruct (literal "null" (b :: bs)); [done|]. cbn [fmap option_fmap option_map].
  rewrite read_number_trail. by destruct (read_number (b :: bs)) as [[]|].
Qed.

Lemma skip_ws_all v : Forall (λ b, is_ws b = true) v → skip_ws v = [].
Proof. induction 1 as [|b v Hb Hv IH]; [done|]. cbn. by rewrite Hb. Qed.

Lemma skip_ws_trail bs : skip_ws (bs ++ w) = if decide (skip_ws bs = []) then [] else skip_ws bs ++ w.
Proof.
  induction bs as [|b bs IH]; cbn [app skip_ws]; [by rewrite skip_ws_all|].
  destruct (is_ws b); [done|]. by rewrite decide_False.
Qed.

Lemma lex_trail n bs : lex true n (bs ++ w) = lex true n bs.
Proof.
  revert bs. induction n as [|n IH]; intros bs; cbn [lex]; rewrite skip_ws_trail.
  - case_decide as E; [by rewrite E|]. by destruct (skip_ws bs).
  - case_decide as E; [by rewrite E|]. destruct (skip_ws bs) as [|b r]; [done|].
    rewrite <- app_comm_cons, app_comm_cons, lex_token_trail.
    destruct (lex_token true (b :: r)) as [[t k]|]; [|done]. cbn. by rewrite IH.
Qed.
End trailing.

Lemma skip_ws_split bs : ∃ v, Forall (λ b, is_ws b = true) v ∧ bs = v ++ skip_ws bs.
Proof.
  induction bs as [|b bs (v & Hv & E)]; [by exists []|]. cbn. destruct (is_ws b) eqn:Eb; [|by exists []].
  exists (b :: v). split; [by constructor|]. cbn. by rewrite <- E.
Qed.

Lemma skip_ws_idem bs : skip_ws (skip_ws bs) = skip_ws bs.
Proof. induction bs as [|b bs IH]; [done|]. cbn. destruct (is_ws b) eqn:E; [done|]. cbn. by rewrite E. Qed.

Lemma lex_skip_ws strict n bs : lex strict n (skip_ws bs) = lex strict n bs.
Proof. destruct n; cbn [lex]; by rewrite skip_ws_idem. Qed.

(** The text of the value has the same tokens. *)
Lemma lexes_value_text bs ts : lexes bs ts → lexes (value_text bs) ts.
Proof.
  unfold lexes at 1, tokens. rewrite <- lex_skip_ws. intros E. unfold value_text.
  destruct (skip_ws_split (reverse (skip_ws bs))) as (v & Hv & Er).
  apply (f_equal reverse) in Er. rewrite reverse_involutive, reverse_app in Er. rewrite Er in E.
  rewrite lex_trail in E; [by eapply lexes_intro|]. by apply Forall_reverse.
Qed.

(** ** Parsing *)

(** Enough fuel: what some call parses, a call with this much fuel parses the same way. *)
Section fuel.
Context (n : nat).

Definition value_fuel (n : nat) : Prop := ∀ d ts v r,
  parse_value n d ts = Some (v, r) → (length r < length ts)%nat ∧
  ∀ m, (2 * length ts ≤ m)%nat → parse_value m d ts = Some (v, r).

Definition elems_fuel (n : nat) : Prop := ∀ d ts vs r,
  parse_elems n d ts = Some (vs, r) → (length r < length ts)%nat ∧
  ∀ m, (2 * length ts < m)%nat → parse_elems m d ts = Some (vs, r).

Definition members_fuel (n : nat) : Prop := ∀ d ts kvs r,
  parse_members n d ts = Some (kvs, r) → (length r < length ts)%nat ∧
  ∀ m, (2 * length ts < m)%nat → parse_members m d ts = Some (kvs, r).

Lemma elems_fuel_step : value_fuel n → elems_fuel n → elems_fuel (S n).
Proof.
  intros IHv IHe d ts vs r E. cbn [parse_elems] in E.
  destruct (parse_value n d ts) as [[v k]|] eqn:Ev; [|done]. cbn [mbind option_bind] in E.
  apply IHv in Ev as [Hl Ev]. destruct k as [|[[]| | | | | |] k]; try done; cbn in Hl.
  - injection E as <- <-. split; [lia|]. intros [|m] Hm; [lia|]. cbn [parse_elems].
    by rewrite Ev by lia.
  - destruct (parse_elems n d k) as [[vs' k']|] eqn:Ee; [|done]. injection E as <- <-.
    apply IHe in Ee as [Hl' Ee]. split; [lia|]. intros [|m] Hm; [lia|]. cbn [parse_elems].
    rewrite Ev by lia. cbn [mbind option_bind]. by rewrite Ee by lia.
Qed.

Lemma members_fuel_step : value_fuel n → members_fuel n → members_fuel (S n).
Proof.
  intros IHv IHm d ts kvs r E. cbn [parse_members] in E.
  destruct ts as [|[[]| | |key| | |] [|[[]| | | | | |] ts]]; try done.
  destruct (parse_value n d ts) as [[v k]|] eqn:Ev; [|done]. cbn [mbind option_bind] in E.
  apply IHv in Ev as [Hl Ev]. cbn [length]. destruct k as [|[[]| | | | | |] k]; try done; cbn in Hl.
  - injection E as <- <-. split; [lia|]. intros [|m] Hm; [lia|]. cbn [parse_members].
    by rewrite Ev by lia.
  - destruct (parse_members n d k) as [[kvs' k']|] eqn:Ee; [|done]. injection E as <- <-.
    apply IHm in Ee as [Hl' Ee]. split; [lia|]. intros [|m] Hm; [lia|]. cbn [parse_members].
    rewrite Ev by lia. cbn [mbind option_bind]. by rewrite Ee by lia.
Qed.

(** An array or object is empty or has elements or members. *)
Lemma parse_array_case m d ts :
  match ts with
  | TDelim RBracket :: ts => Some (JArray [], ts)
  | _ => '(vs, ts) ← parse_elems m d ts; Some (JArray vs, ts)
  end =
  if decide (head ts = Some (TDelim RBracket)) then Some (JArray [], tail ts)
  else '(vs, ts) ← parse_elems m d ts; Some (JArray vs, ts).
Proof. by destruct ts as [|[[]| | | | | |] ts]. Qed.

Lemma parse_object_case m d ts :
  match ts with
  | TDelim RBrace :: ts => Some (JObject [], ts)
  | _ => '(kvs, ts) ← parse_members m d ts; Some (JObject kvs, ts)
  end =
  if decide (head ts = Some (TDelim RBrace)) then Some (JObject [], tail ts)
  else '(kvs, ts) ← parse_members m d ts; Some (JObject kvs, ts).
Proof. by destruct ts as [|[[]| | | | | |] ts]. Qed.

Lemma value_fuel_step : elems_fuel n → members_fuel n → value_fuel (S n).
Proof.
  intros IHe IHm d ts v r E. cbn [parse_value] in E.
  destruct ts as [|t ts]; [done|]. cbn [length].
  assert (Hlt : ∀ m, (2 * S (length ts) ≤ m)%nat → ∃ m', m = S m' ∧ (2 * length ts < m')%nat).
  { intros m Hm. exists (pred m). lia. }
  assert (Ht : ∀ t', head ts = Some t' → (length (tail ts) < S (length ts))%nat).
  { destruct ts; [done|]. cbn. lia. }
  destruct t as [[]| | | | | |]; try done;
    try (injection E as <- <-; split; [cbn; lia|]; intros m (m' & -> & _)%Hlt; done).
  all: case_decide as Hd; [|done]; rewrite ?parse_array_case, ?parse_object_case in E; case_decide as Hh;
    [injection E as <- <-; split; [by eapply Ht|]; intros m (m' & -> & _)%Hlt; cbn [parse_value];
     by rewrite ?parse_array_case, ?parse_object_case, !decide_True|].
  - destruct (parse_members n (d + 1) ts) as [[kvs k]|] eqn:Em; [|done]. injection E as <- <-.
    apply IHm in Em as [Hl Em]. split; [lia|]. intros m (m' & -> & ?)%Hlt. cbn [parse_value].
    rewrite decide_True, parse_object_case, decide_False, Em by done. done.
  - destruct (parse_elems n (d + 1) ts) as [[vs k]|] eqn:Em; [|done]. injection E as <- <-.
    apply IHe in Em as [Hl Em]. split; [lia|]. intros m (m' & -> & ?)%Hlt. cbn [parse_value].
    rewrite decide_True, parse_array_case, decide_False, Em by done. done.
Qed.
End fuel.

Lemma parse_fuel n : value_fuel n ∧ elems_fuel n ∧ members_fuel n.
Proof.
  induction n as [|n (IHv & IHe & IHm)]; [done|].
  split_and!; [by apply value_fuel_step|by apply elems_fuel_step|by apply members_fuel_step].
Qed.

(** A text whose tokens some call of the parser takes in whole is valid. *)
Lemma parse_tokens_intro n ts v : parse_value n 0 ts = Some (v, []) → parse_tokens ts = Some v.
Proof.
  intros E. apply parse_fuel in E as [_ E]. unfold parse_tokens. by rewrite E by lia.
Qed.

Lemma parse_json_intro bs ts n v : lexes bs ts → parse_value n 0 ts = Some (v, []) → parse_json bs = Some v.
Proof.
  intros El Ep. unfold parse_json. rewrite (lexes_lax _ _ El). by apply (parse_tokens_intro n).
Qed.

Lemma parse_tokens_inv ts v : parse_tokens ts = Some v → ∃ n, parse_value n 0 ts = Some (v, []).
Proof.
  unfold parse_tokens. intros E. exists (S (2 * length ts)).
  destruct (parse_value _ 0 ts) as [[v' [|]]|]; try done. by injection E as ->.
Qed.

(** The tokens of a value. *)
Lemma parse_value_inv n d ts v r :
  parse_value n d ts = Some (v, r) →
  match v with
  | JNull => ts = TNull :: r
  | JBool b => ts = TBool b :: r
  | JNumber lit => ts = TNumber lit :: r
  | JString s => ts = TString s :: r
  | JArray vs => ∃ ts', ts = TDelim LBracket :: ts' ∧
      ((ts' = TDelim RBracket :: r ∧ vs = []) ∨
       head ts' ≠ Some (TDelim RBracket) ∧ ∃ m, parse_elems m (d + 1) ts' = Some (vs, r))
  | JObject kvs => ∃ ts', ts = TDelim LBrace :: ts' ∧
      ((ts' = TDelim RBrace :: r ∧ kvs = []) ∨
       head ts' ≠ Some (TDelim RBrace) ∧ ∃ m, parse_members m (d + 1) ts' = Some (kvs, r))
  end.
Proof.
  destruct n as [|n]; [done|]. cbn [parse_value].
  destruct ts as [|[[]| | | | | |] ts]; try done; try (by intros [= <- <-]).
  all: case_decide as Hd; [|done]; rewrite ?parse_array_case, ?parse_object_case; case_decide as Hh.
  1, 3: intros [= <- <-]; exists ts; split; [done|]; left; split; [|done];
    destruct ts; [done|by injection Hh as ->].
  - destruct (parse_members n (d + 1) ts) as [[kvs k]|] eqn:E; [|done]. intros [= <- <-].
    exists ts. split; [done|]. right. eauto.
  - destruct (parse_elems n (d + 1) ts) as [[vs k]|] eqn:E; [|done]. intros [= <- <-].
    exists ts. split; [done|]. right. eauto.
Qed.

(** ** Texts that are written *)

(** The text [p] starts with the tokens [ts], as it is and compacted, whatever follows. *)
Definition writes (p : bytes) (ts : list token) : Prop := ∀ rest ts',
  (lexes rest ts' → lexes (p ++ rest) (ts ++ ts')) ∧
  (lexes (compact_go Outside rest) ts' → lexes (compact_go Outside (p ++ rest)) (ts ++ ts')).

Lemma writes_nil : writes [] [].
Proof. by intros rest ts'. Qed.

Lemma writes_app p1 p2 ts1 ts2 : writes p1 ts1 → writes p2 ts2 → writes (p1 ++ p2) (ts1 ++ ts2).
Proof.
  intros H1 H2 rest ts'. rewrite <- !app_assoc. destruct (H2 rest ts') as [Ha Hb]. split.
  - intros Hl. by apply H1, Ha.
  - intros Hl. by apply H1, Hb.
Qed.

Lemma writes_text p ts : writes p ts → lexes p ts ∧ lexes (compact_go Outside p) ts.
Proof.
  intros H. destruct (H [] []) as [Ha Hb]. rewrite !app_nil_r in *.
  split; [by apply Ha|by apply Hb].
Qed.

Lemma skip_ws_head b bs : is_ws b = false → skip_ws (b :: bs) = b :: bs.
Proof. cbn. by intros ->. Qed.

(** One byte that is a token. *)
Lemma writes_byte b t :
  is_ws b = false → b ≠ x22 → (∀ rest, lex_token true (b :: rest) = Some (t, rest)) → writes [b] [t].
Proof.
  intros Hw Hq Ht rest ts'. cbn [app compact_go]. rewrite Hw, decide_False by done.
  split; intros Hl; (eapply lexes_cons; [|exact Hl]); by rewrite skip_ws_head.
Qed.

Lemma writes_comma : writes [x2c] [TComma].
Proof. by apply writes_byte. Qed.

Lemma writes_colon : writes [x3a] [TColon].
Proof. by apply writes_byte. Qed.

Lemma writes_delim b d : delim_of b = Some d → writes [b] [TDelim d].
Proof.
  intros E. apply writes_byte; [by destruct b|by intros ->|]. intros rest. cbn [lex_token]. by rewrite E.
Qed.

Lemma lex_quote strict body :
  lex_token strict (x22 :: body) =
    '(s, rest) ← unquote strict (length body) body; Some (TString s, rest).
Proof. done. Qed.

Lemma lex_string_inv bs s rest :
  lex_token true bs = Some (TString s, rest) →
  ∃ body, bs = x22 :: body ∧ unquote true (length body) body = Some (s, rest).
Proof.
  destruct bs as [|b bs]; [done|]. unfold lex_token. destruct (delim_of b); [done|].
  repeat case_decide; try done; subst.
  - destruct (unquote _ _ _) as [[s' r]|] eqn:E; [|done]. intros [= <- <-]. by exists bs.
  - by destruct (literal "true" (b :: bs)), (literal "false" (b :: bs)), (literal "null" (b :: bs)),
      (read_number (b :: bs)) as [[]|].
Qed.

(** A string, whatever writes it. *)
Lemma writes_string p s :
  (∀ rest, lex_token true (p ++ rest) = Some (TString s, rest)) → writes p [TString s].
Proof.
  intros Hp rest ts'. specialize (Hp rest). apply lex_string_inv in Hp as Hb.
  destruct Hb as (body & E & Eu). rewrite E in *. split; intros Hl; (eapply lexes_cons; [|exact Hl]); [done|].
  apply unquote_compact in Eu.
  change (compact_go Outside (x22 :: body)) with (x22 :: compact_go InString body).
  rewrite skip_ws_head, lex_quote by done.
  by apply (unquote_fuel _ _ (length (compact_go InString body))) in Eu as [-> _].
Qed.

(** A number and the comma behind it. *)
Lemma writes_number lit :
  Forall (λ b, is_ws b = false ∧ b ≠ x22) lit →
  (∀ rest, lex_token true (lit ++ x2c :: rest) = Some (TNumber lit, x2c :: rest)) → lit ≠ [] →
  writes (lit ++ [x2c]) [TNumber lit; TComma].
Proof.
  intros Hlit Ht Hne rest ts'. rewrite <- app_assoc. cbn [app].
  assert (Hc : ∀ r, compact_go Outside (lit ++ r) = lit ++ compact_go Outside r).
  { clear -Hlit. intros r. induction Hlit as [|b l [Hb Hq] Hl IH]; [done|]. cbn [app compact_go].
    rewrite Hb, decide_False by done. by rewrite IH. }
  rewrite Hc. cbn [compact_go]. rewrite decide_False by done.
  assert (Hs : ∀ r, skip_ws (lit ++ r) = lit ++ r).
  { intros r. destruct Hlit as [|b l [Hb _]]; [done|]. by apply skip_ws_head. }
  split; intros Hl; (eapply lexes_cons; [rewrite Hs; apply Ht|]); by eapply lexes_cons.
Qed.

(** ** Reading what [json_string] writes *)

Lemma read_char_ascii b rest :
  Z_of_byte b < 0x80 →
  head (escape_ascii b ++ rest) ≠ Some x22 ∧ read_char true (escape_ascii b ++ rest) = Some ([b], rest).
Proof.
  intros Hb. assert (Hp : escape_ascii b = [b] → 0x20 <= Z_of_byte b → b ≠ x22 → b ≠ x5c →
    head (escape_ascii b ++ rest) ≠ Some x22 ∧ read_char true (escape_ascii b ++ rest) = Some ([b], rest)).
  { intros -> H20 Hq Hs. split; [cbn; congruence|]. cbn [app].
    destruct (read_char_cases true b rest) as [[? _]|[_ ->]]; [done|].
    unfold read_plain. rewrite decide_False, decode_rune_ascii by (done || lia).
    cbn [length]. by rewrite Nat.sub_succ_l, Nat.sub_diag by lia. }
  destruct b; try (exfalso; revert Hb; by vm_compute);
    first [by apply Hp|split; [by vm_compute|vm_compute; reflexivity]].
Qed.

Lemma unquote_escape fuel bs rest :
  valid_utf8_go fuel bs = true → (length bs ≤ fuel)%nat →
  ∃ n, unquote true n (escape fuel bs ++ x22 :: rest) = Some (bs, rest).
Proof.
  revert bs. induction fuel as [|fuel IH]; intros [|b bs] Hv Hl; try (by exists 1%nat); [cbn in Hl; lia|].
  cbn [valid_utf8_go escape] in *. destruct (decide (Z_of_byte b < 0x80)) as [Hb|Hb].
  - rewrite decode_rune_ascii in Hv by done. destruct (IH bs Hv) as [n E]; [cbn in Hl; lia|]. exists (S n).
    rewrite <- app_assoc. destruct (read_char_ascii b (escape fuel bs ++ x22 :: rest) Hb) as [Hq Er].
    by apply (unquote_step _ _ _ _ _ _ _ Hq Er).
  - destruct (decode_rune (b :: bs)) as [[c after]|] eqn:Ed; [|done].
    apply decode_rune_high in Ed as Eh; [|done]. destruct Eh as (l & E & Hlen & Hhigh & Hsep).
    assert (length after < length (b :: bs))%nat by (by eapply decode_rune_shorter).
    destruct (IH after Hv) as [n Eu]; [cbn in *; lia|]. exists (S n). rewrite <- app_assoc.
    replace (b :: bs) with (l ++ after) by done.
    case_decide as Hc.
    + apply unquote_step with (escape fuel after ++ x22 :: rest); [done| |done].
      replace l with (if decide (c = 0x2028) then [xe2; x80; xa8] else [xe2; x80; xa9]).
      * by destruct Hc as [-> | ->].
      * apply (inj (fmap Z_of_byte)). rewrite Hsep by done. by destruct Hc as [-> | ->].
    + rewrite take_before. apply decode_rune_split in Ed as (b' & l' & E' & Hd & _ & _).
      injection E' as <- ->. assert (l = b :: l') as ->.
      { rewrite app_comm_cons in E. by apply app_inv_tail in E. }
      apply unquote_step with (escape fuel after ++ x22 :: rest); [| |done].
      * cbn. intros [= ->]. by apply Hb.
      * cbn [app]. destruct (read_char_cases true b (l' ++ escape fuel after ++ x22 :: rest)) as [[-> _]|[_ ->]].
        { exfalso. by apply Hb. }
        unfold read_plain. rewrite decide_False by lia. rewrite app_comm_cons, Hd. by rewrite take_before.
Qed.

Lemma lex_json_string bs rest :
  valid_utf8 bs = true → lex_token true (json_string bs ++ rest) = Some (TString bs, rest).
Proof.
  intros Hv. unfold json_string. rewrite <- !app_assoc. cbn [app]. rewrite lex_quote.
  destruct (unquote_escape (length bs) bs rest Hv (le_n _)) as [n E].
  by apply (unquote_fuel _ _ (length (escape (length bs) bs ++ x22 :: rest))) in E as [-> _].
Qed.

(** ** Reading numbers that [json_number] writes *)

Lemma digits_all ds rest :
  Forall is_digit ds → (∀ b, head rest = Some b → ¬ is_digit b) → digits (ds ++ rest) = (ds, rest).
Proof.
  intros Hd Hr. induction Hd as [|b ds Hb Hd IH].
  - destruct rest as [|c rest]; [done|]. cbn. rewrite decide_False; [done|]. by apply Hr.
  - cbn [app digits]. rewrite decide_True by done. by rewrite IH.
Qed.

(** No leading zero, except for zero itself. *)
Lemma sprint_go_head fuel n acc :
  0 < n < 10 ^ Z.of_nat fuel → ∃ c s, Decimal.sprint_go fuel n acc = String.String c s ∧
    c ≠ Decimal.digit 0.
Proof.
  revert n acc. induction fuel as [|fuel IH]; intros n acc Hn; [cbn in Hn; lia|].
  rewrite Nat2Z.inj_succ, Z.pow_succ_r in Hn by lia. cbn [Decimal.sprint_go]. case_decide.
  - eexists _, _. split; [done|]. rewrite Z.mod_small by lia. intros E.
    apply (f_equal Decimal.digit_val) in E. rewrite !Decimal.digit_val_digit in E by lia. injection E. lia.
  - apply IH. split; [apply Z.div_str_pos; lia|]. apply Z.div_lt_upper_bound; lia.
Qed.

Lemma digit_byte_zero c :
  Ascii.byte_of_ascii c = x30 → c = Decimal.digit 0.
Proof.
  intros E. apply (f_equal Ascii.ascii_of_byte) in E. by rewrite Ascii.ascii_of_byte_of_ascii in E.
Qed.

Lemma json_number_nonempty n : json_number n ≠ [].
Proof.
  intros E. apply (Decimal.sprint_go_nonempty 20 n ""); [lia|]. by apply str_inj.
Qed.

(** What ends a number. *)
Definition ends_number (rest : bytes) : Prop :=
  ∀ b, head rest = Some b → ¬ is_digit b ∧ b ∉ [x2e; x65; x45].

Lemma read_int_number n rest :
  0 <= n < 10 ^ 20 → (∀ b, head rest = Some b → ¬ is_digit b) →
  read_int (json_number n ++ rest) = Some (json_number n, rest).
Proof.
  intros Hn Hr. unfold json_number, Decimal.sprint. destruct (decide (n = 0)) as [->|Hn0]; [done|].
  assert (Hall : Forall is_digit (str (Decimal.sprint_go 20 n ""))) by (apply sprint_go_digits; [constructor|lia]).
  destruct (sprint_go_head 20 n "") as (c & s & E & Hc); [cbn; lia|]. rewrite E in *.
  assert (Hz : after_byte x30 (str (String.String c s) ++ rest) = None).
  { change (str (String.String c s) ++ rest) with (Ascii.byte_of_ascii c :: (str s ++ rest)). cbn.
    rewrite decide_False; [done|]. intros Eb. by apply Hc, digit_byte_zero. }
  unfold read_int. rewrite Hz. unfold some_digits. by rewrite digits_all.
Qed.

Lemma read_number_number n rest :
  0 <= n < 10 ^ 20 → ends_number rest → read_number (json_number n ++ rest) = Some (json_number n, rest).
Proof.
  intros Hn Hr. unfold read_number.
  assert (Hs : one_of [x2d] (json_number n ++ rest) = ([], json_number n ++ rest)).
  { assert (Hall : Forall is_digit (json_number n)) by (apply sprint_go_digits; [constructor|lia]).
    unfold one_of. destruct (json_number n) as [|b l] eqn:E.
    - by destruct (json_number_nonempty n).
    - cbn [app]. apply Forall_cons in Hall as [Hb _]. rewrite decide_False; [done|].
      intros ->%list_elem_of_singleton. vm_compute in Hb. by destruct Hb as [Hb _]. }
  rewrite Hs. rewrite read_int_number by (try done; intros b Hb; by apply Hr). cbn [mbind option_bind].
  assert (Hf : read_frac rest = Some ([], rest)).
  { unfold read_frac. destruct (after_byte x2e rest) as [k|] eqn:E; [|done].
    apply after_byte_app in E as ->. destruct (Hr x2e eq_refl) as [_ Hb]. set_solver. }
  rewrite Hf. cbn [mbind option_bind].
  assert (He : read_exp rest = Some ([], rest)).
  { unfold read_exp, one_of. destruct rest as [|b rest]; [done|].
    destruct (Hr b eq_refl) as [_ Hb]. rewrite decide_False by set_solver. done. }
  rewrite He. cbn [mbind option_bind]. by rewrite !app_nil_r.
Qed.

Lemma skip_ws_number n rest : 0 <= n → skip_ws (json_number n ++ rest) = json_number n ++ rest.
Proof.
  intros Hn. assert (Hall : Forall is_digit (json_number n)) by (apply sprint_go_digits; [constructor|lia]).
  destruct (json_number n) as [|b l] eqn:E; [by destruct (json_number_nonempty n)|].
  apply Forall_cons in Hall as [Hb _]. apply skip_ws_head. unfold is_ws. apply bool_decide_eq_false_2.
  intros Hin. repeat (apply elem_of_cons in Hin as [->|Hin]; [by destruct Hb as [Hb _]|]).
  by apply elem_of_nil in Hin.
Qed.

Lemma lex_json_number n rest :
  0 <= n < 10 ^ 20 → ends_number rest →
  lex_token true (json_number n ++ rest) = Some (TNumber (json_number n), rest).
Proof.
  intros Hn Hr. pose proof (read_number_number n rest Hn Hr) as E.
  assert (Hall : Forall is_digit (json_number n)) by (apply sprint_go_digits; [constructor|lia]).
  destruct (json_number n) as [|b l] eqn:El.
  { by destruct (json_number_nonempty n). }
  apply Forall_cons in Hall as [Hb _]. cbn [app] in *. unfold lex_token.
  assert (Hd : delim_of b = None ∧ b ≠ x3a ∧ b ≠ x2c ∧ b ≠ x22 ∧ b ≠ x74 ∧ b ≠ x66 ∧ b ≠ x6e).
  { destruct (decide (delim_of b = None)) as [Hn'|Hn'];
      [|exfalso; destruct b; try done; vm_compute in Hb; destruct Hb as [? Hb]; by apply Hb].
    split; [done|]. split_and!; intros ->; vm_compute in Hb; destruct Hb as [H1 H2]; first [by apply H1|by apply H2]. }
  destruct Hd as (-> & H1 & H2 & H3 & H4 & H5 & H6). rewrite !decide_False by done.
  assert (Hl : ∀ lit c s, lit = String.String c s → b ≠ Ascii.byte_of_ascii c →
    literal lit (b :: l ++ rest) = None).
  { intros lit c s -> Hc. destruct (literal _ _) as [k|] eqn:Ek; [|done].
    apply literal_app in Ek. injection Ek as Ek _. done. }
  rewrite (Hl "true" _ _ eq_refl), (Hl "false" _ _ eq_refl), (Hl "null" _ _ eq_refl) by done. by rewrite E.
Qed.

(** ** Less deep *)

(** What parses inside some brackets parses inside fewer. *)
Lemma parse_depth n :
  (∀ d d' ts r, (d' <= d)%N → parse_value n d ts = Some r → parse_value n d' ts = Some r) ∧
  (∀ d d' ts r, (d' <= d)%N → parse_elems n d ts = Some r → parse_elems n d' ts = Some r) ∧
  (∀ d d' ts r, (d' <= d)%N → parse_members n d ts = Some r → parse_members n d' ts = Some r).
Proof.
  induction n as [|n (IHv & IHe & IHm)]; [done|].
  assert (Hv : ∀ d d' ts (r : jvalue * list token), (d' <= d)%N →
    parse_value n d ts = Some r → parse_value n d' ts = Some r) by exact IHv.
  split_and!.
  - intros d d' ts r Hd. cbn [parse_value].
    destruct ts as [|[[]| | | | | |] ts]; try done.
    all: destruct (decide (d < maxNestingDepth)%N); [|done];
      rewrite (decide_True (P:=(d' < maxNestingDepth)%N)), ?parse_array_case, ?parse_object_case by lia;
      case_decide; [done|].
    + destruct (parse_members n (d + 1) ts) as [x|] eqn:E; [|done].
      by rewrite (IHm (d + 1)%N (d' + 1)%N _ _ ltac:(lia) E).
    + destruct (parse_elems n (d + 1) ts) as [x|] eqn:E; [|done].
      by rewrite (IHe (d + 1)%N (d' + 1)%N _ _ ltac:(lia) E).
  - intros d d' ts r Hd. cbn [parse_elems].
    destruct (parse_value n d ts) as [[v k]|] eqn:E; [|done].
    rewrite (Hv _ _ _ _ Hd E). cbn [mbind option_bind]. destruct k as [|[[]| | | | | |] k]; try done.
    destruct (parse_elems n d k) as [x|] eqn:E'; [|done]. by rewrite (IHe _ _ _ _ Hd E').
  - intros d d' ts r Hd. cbn [parse_members].
    destruct ts as [|[[]| | |key| | |] [|[[]| | | | | |] ts]]; try done.
    destruct (parse_value n d ts) as [[v k]|] eqn:E; [|done].
    rewrite (Hv _ _ _ _ Hd E). cbn [mbind option_bind]. destruct k as [|[[]| | | | | |] k]; try done.
    destruct (parse_members n d k) as [x|] eqn:E'; [|done]. by rewrite (IHm _ _ _ _ Hd E').
Qed.
