(* ===== verification/Sha2.v ===== *)
(** * The hash functions of Go's standard library that the client calls

    [crypto/sha256] ([Sum256]), [crypto/sha512] ([New512_256]) and [crypto/hmac]
    over SHA-256, executable on byte strings, as FIPS 180-4 and FIPS 198-1 define
    them. The two SHA-2 widths share one definition, parametrised by a record of
    their constants. *)

From Stdlib Require Import ZArith Lia.
From stdpp Require Import base numbers list.
From S2P Require Import Prelude GoStd.

(** ** The parameters of a SHA-2 function *)

Record sha2 := mkSha2 {
  width : Z;                  (* bits of a word *)
  wbytes : nat;               (* bytes of a word *)
  lenbytes : nat;             (* bytes of the length field of the padding *)
  consts : list Z;            (* the round constants K *)
  initial : list Z;           (* the initial hash value *)
  Sigma0 : Z * Z * Z;         (* three rotations *)
  Sigma1 : Z * Z * Z;
  sigma0 : Z * Z * Z;         (* two rotations and a shift *)
  sigma1 : Z * Z * Z
}.

Section sha2.
Context (p : sha2).

Definition word (z : Z) : Z := z mod 2 ^ width p.

Definition rotr (n x : Z) : Z := Z.lor (Z.shiftr x n) (word (Z.shiftl x (width p - n))).

Definition rot3 (a : Z * Z * Z) (x : Z) : Z :=
  let '(i, j, k) := a in Z.lxor (rotr i x) (Z.lxor (rotr j x) (rotr k x)).

Definition rot2shift (a : Z * Z * Z) (x : Z) : Z :=
  let '(i, j, k) := a in Z.lxor (rotr i x) (Z.lxor (rotr j x) (Z.shiftr x k)).

Definition Ch (x y z : Z) : Z := Z.lxor (Z.land x y) (Z.land (Z.lxor x (2 ^ width p - 1)) z).
Definition Maj (x y z : Z) : Z := Z.lxor (Z.land x y) (Z.lxor (Z.land x z) (Z.land y z)).

(** The block size in bytes: sixteen words. *)
Definition block_size : nat := (16 * wbytes p)%nat.

(** The message followed by 0x80, zeros and its length in bits. *)
Definition pad (m : bytes) : bytes :=
  let used := (length m + 1 + lenbytes p)%nat in
  let zeros := ((block_size - used mod block_size) mod block_size)%nat in
  m ++ [x80] ++ replicate zeros x00 ++ BigEndian.put (lenbytes p) (8 * Z.of_nat (length m)).

(** [n] words of a byte string. *)
Fixpoint words (n : nat) (bs : bytes) : list Z :=
  match n with
  | O => []
  | S n => BigEndian.val (take (wbytes p) bs) :: words n (drop (wbytes p) bs)
  end.

(** The message schedule: [w] holds the words so far, the newest first. *)
Fixpoint extend (n : nat) (w : list Z) : list Z :=
  match n with
  | O => w
  | S n =>
      let at_ i := nth i w 0 in
      extend n (word (rot2shift (sigma1 p) (at_ 1%nat) + at_ 6%nat
                      + rot2shift (sigma0 p) (at_ 14%nat) + at_ 15%nat) :: w)
  end.

Definition schedule (block : bytes) : list Z :=
  reverse (extend (length (consts p) - 16) (reverse (words 16 block))).

Definition round (st : list Z) (kw : Z * Z) : list Z :=
  match st with
  | [a; b; c; d; e; f; g; h] =>
      let t1 := h + rot3 (Sigma1 p) e + Ch e f g + kw.1 + kw.2 in
      let t2 := rot3 (Sigma0 p) a + Maj a b c in
      [word (t1 + t2); a; b; c; word (d + t1); e; f; g]
  | _ => st
  end.

Definition compress (h : list Z) (block : bytes) : list Z :=
  zip_with (λ x y, word (x + y)) h
    (foldl round h (zip (consts p) (schedule block))).

(** [fuel] bounds the number of blocks. *)
Fixpoint absorb (fuel : nat) (h : list Z) (m : bytes) : list Z :=
  match fuel with
  | O => h
  | S fuel =>
      match m with
      | [] => h
      | _ => absorb fuel (compress h (take block_size m)) (drop block_size m)
      end
  end.

Definition digest (m : bytes) : bytes :=
  let m' := pad m in
  mjoin (BigEndian.put (wbytes p) <$> absorb (length m') (initial p) m').

End sha2.

(** ** The constants

    FIPS 180-4 takes them from the first prime numbers: the round constants are the
    first bits of the fractional parts of their cube roots, the initial hash value of
    SHA-256 that of their square roots. *)

(** The first [n] primes from [k] on, by trial division by the primes found. *)
Fixpoint primes_from (fuel : nat) (k : Z) (found : list Z) : list Z :=
  match fuel with
  | O => found
  | S fuel =>
      primes_from fuel (k + 1) (if forallb (λ q, negb (k mod q =? 0)) found then found ++ [k] else found)
  end.

(** The first 80 primes are below 410. *)
Definition primes : list Z := Eval vm_compute in primes_from 408 2 [].

(** The largest [r] with [r ^ 3 <= x], bit by bit. *)
Fixpoint cube_root (bits : nat) (x r : Z) : Z :=
  match bits with
  | O => r
  | S bits =>
      let r' := r + 2 ^ Z.of_nat bits in
      cube_root bits x (if r' ^ 3 <=? x then r' else r)
  end.

Definition cube_root_fraction (w p : Z) : Z := cube_root 80 (p * 2 ^ (3 * w)) 0 mod 2 ^ w.
Definition square_root_fraction (w p : Z) : Z := Z.sqrt (p * 2 ^ (2 * w)) mod 2 ^ w.

Definition round_constants (w : Z) (n : nat) : list Z := cube_root_fraction w <$> take n primes.

(** ** The functions the source calls *)

Definition sha256_k : list Z := Eval vm_compute in round_constants 32 64.
Definition sha256_iv : list Z := Eval vm_compute in square_root_fraction 32 <$> take 8 primes.
Definition sha512_k : list Z := Eval vm_compute in round_constants 64 80.
Definition sha512_iv : list Z := Eval vm_compute in square_root_fraction 64 <$> take 8 primes.

Definition sha256_params : sha2 := {|
  width := 32; wbytes := 4; lenbytes := 8;
  consts := sha256_k; initial := sha256_iv;
  Sigma0 := (2, 13, 22); Sigma1 := (6, 11, 25);
  sigma0 := (7, 18, 3); sigma1 := (17, 19, 10)
|}.

(** SHA-512 with an initial hash value; that of SHA-512 itself comes from the square
    roots, that of SHA-512/t is the digest of the function's name under SHA-512 with
    every initial word xored with 0xa5a5...a5. *)
Definition sha512_params (h : list Z) : sha2 := {|
  width := 64; wbytes := 8; lenbytes := 16;
  consts := sha512_k;
  initial := h;
  Sigma0 := (28, 34, 39); Sigma1 := (14, 18, 41);
  sigma0 := (1, 8, 7); sigma1 := (19, 61, 6)
|}.

(** The bytes of "SHA-512/256". *)
Definition sha512_256_name : bytes := [x53; x48; x41; x2d; x35; x31; x32; x2f; x32; x35; x36].

Definition sha512_256_iv : list Z := Eval vm_compute in
  let p := sha512_params (Z.lxor 0xa5a5a5a5a5a5a5a5 <$> sha512_iv) in
  words p 8 (digest p sha512_256_name).

Definition sha512_256_params : sha2 := sha512_params sha512_256_iv.

(** [sha256.Sum256] *)
Definition Sum256 (m : bytes) : bytes := take 32 (digest sha256_params m).

(** [sha512.New512_256]: the first 32 bytes of the digest. *)
Definition Sum512_256 (m : bytes) : bytes := take 32 (digest sha512_256_params m).

(** [hmac.New(sha256.New, key)], [Write(m)], [Sum(nil)]. *)
Definition hmac_sha256 (key m : bytes) : bytes :=
  let key := if decide (64 < length key)%nat then Sum256 key else key in
  let key := key ++ replicate (64 - length key) x00 in
  let xor c := (λ b, byte_of_Z (Z.lxor (Z_of_byte b) c)) <$> key in
  Sum256 (xor 0x5c ++ Sum256 (xor 0x36 ++ m)).

(** ** Lengths of digests *)

Lemma length_round p st kw : length (round p st kw) = length st.
Proof. unfold round. by repeat case_match. Qed.

Lemma length_foldl_round p st l :
  (length st ≤ length (foldl (round p) st l))%nat.
Proof.
  revert st. induction l as [|kw l IH]; intros st; [done|].
  cbn [foldl]. etransitivity; [|apply IH]. by rewrite length_round.
Qed.

Lemma length_compress p h b : length (compress p h b) = length h.
Proof.
  unfold compress. rewrite length_zip_with.
  pose proof (length_foldl_round p h (zip (consts p) (schedule p b))). lia.
Qed.

Lemma length_absorb p fuel h m : length (absorb p fuel h m) = length h.
Proof.
  revert h m. induction fuel as [|fuel IH]; intros h m; [done|].
  cbn [absorb]. destruct m; [done|]. by rewrite IH, length_compress.
Qed.

Lemma length_mjoin_put w (l : list Z) :
  length (mjoin (BigEndian.put w <$> l)) = (length l * w)%nat.
Proof.
  induction l as [|x l IH]; [done|].
  change (mjoin (BigEndian.put w <$> x :: l))
    with (BigEndian.put w x ++ mjoin (BigEndian.put w <$> l)).
  rewrite length_app, BigEndian.length_put, IH. simpl. lia.
Qed.

Lemma length_digest p m : length (digest p m) = (length (initial p) * wbytes p)%nat.
Proof. unfold digest. cbv zeta. by rewrite length_mjoin_put, length_absorb. Qed.

Lemma length_Sum256 m : length (Sum256 m) = 32%nat.
Proof. unfold Sum256. rewrite length_take, length_digest. reflexivity. Qed.

Lemma length_Sum512_256 m : length (Sum512_256 m) = 32%nat.
Proof. unfold Sum512_256. rewrite length_take, length_digest. reflexivity. Qed.

Lemma length_hmac_sha256 k m : length (hmac_sha256 k m) = 32%nat.
Proof. apply length_Sum256. Qed.

#[export] Hint Rewrite length_Sum256 length_Sum512_256 length_hmac_sha256 : len.

(** ** Known answers: the digests of "abc" *)

Example Sum256_abc :
  BigEndian.val (Sum256 [x61; x62; x63]) =
  0xba7816bf8f01cfea414140de5dae2223b00361a396177a9cb410ff61f20015ad.
Proof. vm_compute. reflexivity. Qed.

Example Sum512_256_abc :
  BigEndian.val (Sum512_256 [x61; x62; x63]) =
  0x53048e2681941ef99b2e29b76b4c7dabe4c2d0c634fc6d46e0e2f13107e7af23.
Proof. vm_compute. reflexivity. Qed.

(** HMAC-SHA256 with the 32-byte zero key, of "DeadDrop". *)
Example hmac_sha256_DeadDrop :
  BigEndian.val (hmac_sha256 (replicate 32 x00) [x44; x65; x61; x64; x44; x72; x6f; x70]) =
  0x7af82314b6aa988acd8a8e65b8abdc6856e5d62bd4418c5364dd82d4cdcf1b55.
Proof. vm_compute. reflexivity. Qed.
