(* ===== verification/External.v ===== *)
(** * The code outside the repository, as interfaces

    One class per external package, with the operations the sources call, and one
    class of laws per package: what its documentation promises and the sources rely
    on. Components take the operations as class arguments; a theorem that needs a
    law names the law class. [Toy] instantiates every class with executable
    functions, so that each theorem can be applied to concrete inputs.

    - [NaCl]: golang.org/x/crypto/nacl/box and nacl/secretbox
    - [Onionbox]: vuvuzela.io/crypto/onionbox
    - [Shuffle]: vuvuzela.io/crypto/shuffle
    - [Spans]: vuvuzela.io/concurrency (Spans; ParallelFor is in [Concurrency])
    - [Signature]: crypto/ed25519, as a signature scheme *)

From Stdlib Require Import ZArith Lia.
From stdpp Require Import base numbers list.
From S2P Require Import Prelude.

(** ** nacl/box and nacl/secretbox *)

Class NaCl := {
  (** [box.Overhead], also the overhead of secretbox *)
  box_Overhead : nat;
  (** the public key that [box.GenerateKey] returns with a private key *)
  box_Public : bytes → bytes;
  (** [box.Precompute(&shared, peersPublic, private)] *)
  Precompute : bytes → bytes → bytes;
  (** [box.SealAfterPrecomputation(nil, message, nonce, shared)] *)
  SealAfterPrecomputation : bytes → bytes → bytes → bytes;
  (** [box.OpenAfterPrecomputation(nil, box, nonce, shared)] *)
  OpenAfterPrecomputation : bytes → bytes → bytes → option bytes;
  (** [box.Open(nil, box, nonce, peersPublic, private)] *)
  box_Open : bytes → bytes → bytes → bytes → option bytes;
  (** [secretbox.Seal(nil, message, nonce, key)], [secretbox.Open(nil, box, nonce, key)] *)
  secretbox_Seal : bytes → bytes → bytes → bytes;
  secretbox_Open : bytes → bytes → bytes → option bytes
}.

Class NaClLaws `{NaCl} : Prop := {
  Precompute_comm a b : Precompute (box_Public a) b = Precompute (box_Public b) a;
  Open_Seal m n k : OpenAfterPrecomputation (SealAfterPrecomputation m n k) n k = Some m;
  length_Seal m n k : length (SealAfterPrecomputation m n k) = (length m + box_Overhead)%nat;
  length_Open c n k m :
    OpenAfterPrecomputation c n k = Some m → length c = (length m + box_Overhead)%nat;
  box_Open_eq c n pk sk : box_Open c n pk sk = OpenAfterPrecomputation c n (Precompute pk sk);
  length_box_Public sk : length (box_Public sk) = 32%nat;
  secretbox_Open_Seal m n k : secretbox_Open (secretbox_Seal m n k) n k = Some m;
  length_secretbox_Seal m n k : length (secretbox_Seal m n k) = (length m + box_Overhead)%nat
}.

(** ** onionbox *)

Class Onionbox := {
  onion_Overhead : nat;
  (** [onionbox.Seal(message, nonce, publicKeys)]: the onion and the shared keys.
      The first argument is the randomness of the ephemeral keys. *)
  onion_Seal : bytes → bytes → bytes → list bytes → bytes * list bytes;
  (** [onionbox.Open(onion, nonce, sharedKeys)] *)
  onion_Open : bytes → bytes → list bytes → option bytes
}.

(** [peels nonce sks m o ks]: [o] is an onion for [m] that the servers with the
    private keys [sks] peel in this order, computing the shared keys [ks]. A layer
    is an ephemeral public key followed by a box for the server. *)
Inductive peels `{NaCl} (nonce : bytes) : list bytes → bytes → bytes → list bytes → Prop :=
| peels_nil m : peels nonce [] m m []
| peels_cons sk sks m o o' eph ks :
    length eph = 32%nat →
    peels nonce sks m o' ks →
    o = eph ++ SealAfterPrecomputation o' nonce (Precompute eph sk) →
    peels nonce (sk :: sks) m o (Precompute eph sk :: ks).

(** The reply onion: every server of the chain seals with its shared key, the last
    server first. *)
Definition reply_onion `{NaCl} (nonce : bytes) (ks : list bytes) (m : bytes) : bytes :=
  foldr (λ k o, SealAfterPrecomputation o nonce k) m ks.

Class OnionboxLaws `{NaCl} `{Onionbox} : Prop := {
  onion_Overhead_eq : onion_Overhead = (32 + box_Overhead)%nat;
  onion_Seal_peels r m n sks :
    peels n sks m (onion_Seal r m n (box_Public <$> sks)).1
                  (onion_Seal r m n (box_Public <$> sks)).2;
  onion_Open_reply n ks m : onion_Open (reply_onion n ks m) n ks = Some m
}.

(** ** shuffle *)

Class Shuffle := {
  Shuffler : Type;
  (** [shuffle.New(rand, n)]; the first argument is the randomness it reads *)
  shuffle_New : bytes → nat → Shuffler;
  (** [s.Shuffle(xs)] and [s.Unshuffle(xs)] on the contents of the slice *)
  do_shuffle : Shuffler → list bytes → list bytes;
  do_unshuffle : Shuffler → list bytes → list bytes;
  (** the length [s] was made for, and its permutation: [Shuffle] moves the element
      at [shuffle_perm s !! j] to position [j] *)
  shuffle_len : Shuffler → nat;
  shuffle_perm : Shuffler → list nat
}.

Class ShuffleLaws `{Shuffle} : Prop := {
  shuffle_len_New r n : shuffle_len (shuffle_New r n) = n;
  shuffle_perm_perm s : shuffle_perm s ≡ₚ seq 0 (shuffle_len s);
  length_do_shuffle s xs : length (do_shuffle s xs) = length xs;
  length_do_unshuffle s xs : length (do_unshuffle s xs) = length xs;
  do_shuffle_lookup s xs i j :
    length xs = shuffle_len s → shuffle_perm s !! j = Some i → do_shuffle s xs !! j = xs !! i;
  do_unshuffle_lookup s xs i j :
    length xs = shuffle_len s → shuffle_perm s !! j = Some i → do_unshuffle s xs !! i = xs !! j
}.

(** ** concurrency.Spans *)

Record Span := mkSpan { Start : nat; Count : nat }.

Class Spans := {
  (** [concurrency.Spans(total, spanSize)] *)
  spans : nat → nat → list Span
}.

(** The indices of a span. *)
Definition span_indices (s : Span) : list nat := seq (Start s) (Count s).

Class SpansLaws `{Spans} : Prop := {
  spans_cover n k : (0 < k)%nat → mjoin (span_indices <$> spans n k) = seq 0 n;
  spans_bound n k s : s ∈ spans n k → (Start s + Count s ≤ n)%nat;
  spans_none k : spans 0 k = []
}.

(** The elements of [xs] in a span; the spans of a list put together give the list. *)
Definition span_elems {A} (xs : list A) (s : Span) : list A := take (Count s) (drop (Start s) xs).

Section spans.
Context `{SpansLaws} {A : Type}.
Implicit Types xs : list A.

Lemma slice_span xs k s :
  s ∈ spans (length xs) k → slice (Start s) (Start s + Count s) xs = Some (span_elems xs s).
Proof.
  intros Hs%spans_bound. rewrite slice_is_Some by lia. unfold span_elems. by rewrite Nat.add_comm, Nat.add_sub.
Qed.

Lemma seq_elems xs start count :
  (start + count ≤ length xs)%nat →
  (λ i, xs !! i) <$> seq start count = Some <$> take count (drop start xs).
Proof.
  revert start. induction count as [|count IH]; intros start Hl; [done|].
  destruct (lookup_lt_is_Some_1 xs start) as [x Hx]; [lia|].
  rewrite (drop_S _ _ _ Hx). cbn. rewrite Hx. f_equal. apply IH. lia.
Qed.

Lemma spans_elems xs k : (0 < k)%nat → mjoin (span_elems xs <$> spans (length xs) k) = xs.
Proof.
  intros Hk. apply (inj (fmap Some)).
  transitivity ((λ i, xs !! i) <$> seq 0 (length xs)).
  - rewrite <- (spans_cover (length xs) k) by done.
    pose proof (spans_bound (length xs) k) as Hb. revert Hb.
    generalize (spans (length xs) k) as l. induction l as [|s l IH]; intros Hb; [done|].
    change (mjoin (span_elems xs <$> s :: l)) with (span_elems xs s ++ mjoin (span_elems xs <$> l)).
    change (mjoin (span_indices <$> s :: l)) with (span_indices s ++ mjoin (span_indices <$> l)).
    rewrite !fmap_app, IH by (intros; apply Hb; by right). f_equal.
    symmetry. apply seq_elems. apply Hb. by left.
  - rewrite seq_elems by lia. by rewrite drop_0, take_ge by lia.
Qed.

End spans.

(** ** Signatures *)

Class Signature := {
  sig_Public : bytes → bytes;                  (* PrivateKey.Public() *)
  sig_Sign : bytes → bytes → bytes;            (* ed25519.Sign *)
  sig_Verify : bytes → bytes → bytes → bool    (* ed25519.Verify *)
}.

Class SignatureLaws `{Signature} : Prop := {
  Verify_Sign sk m : sig_Verify (sig_Public sk) m (sig_Sign sk m) = true;
  length_sig_Public sk : length (sig_Public sk) = 32%nat
}.

(** ** Executable instances

    Not cryptography: functions that satisfy the laws, to run the model with. *)
Module Toy.

Definition pad32 (k : bytes) : bytes := take 32 (k ++ replicate 32 x00).

Definition bxor (a b : Byte.byte) : Byte.byte := byte_of_Z (Z.lxor (Z_of_byte a) (Z_of_byte b)).

Definition tag (n k : bytes) : bytes := take 16 (zip_with bxor (pad32 k) (pad32 n)).

Definition toy_seal (m n k : bytes) : bytes := tag n k ++ m.

Definition toy_open (c n k : bytes) : option bytes :=
  if decide (take 16 c = tag n k) then Some (drop 16 c) else None.

Definition toy_precompute (pk sk : bytes) : bytes := zip_with bxor (pad32 pk) (pad32 sk).

Definition nacl : NaCl := {|
  box_Overhead := 16;
  box_Public := pad32;
  Precompute := toy_precompute;
  SealAfterPrecomputation := toy_seal;
  OpenAfterPrecomputation := toy_open;
  box_Open c n pk sk := toy_open c n (toy_precompute pk sk);
  secretbox_Seal := toy_seal;
  secretbox_Open := toy_open
|}.

Lemma length_pad32 k : length (pad32 k) = 32%nat.
Proof. unfold pad32. len. Qed.

Lemma pad32_pad32 k : pad32 (pad32 k) = pad32 k.
Proof.
  unfold pad32 at 1. pose proof (length_pad32 k) as E.
  rewrite take_app_le by lia. apply take_ge. lia.
Qed.

Lemma bxor_comm a b : bxor a b = bxor b a.
Proof. unfold bxor. by rewrite Z.lxor_comm. Qed.

Lemma length_tag n k : length (tag n k) = 16%nat.
Proof. unfold tag. rewrite length_take, length_zip_with, !length_pad32. lia. Qed.

Lemma toy_open_seal m n k : toy_open (toy_seal m n k) n k = Some m.
Proof.
  unfold toy_open, toy_seal. pose proof (length_tag n k) as E.
  rewrite take_app_length', drop_app_length' by done. by rewrite decide_True.
Qed.

Lemma length_toy_open c n k m : toy_open c n k = Some m → length c = (length m + 16)%nat.
Proof.
  unfold toy_open. case_decide as H; [|done]. intros [= <-].
  assert (length (take 16 c) = 16%nat) as E by (rewrite H; apply length_tag).
  rewrite length_take in E. rewrite length_drop. lia.
Qed.

Lemma zip_bxor_comm xs ys : zip_with bxor xs ys = zip_with bxor ys xs.
Proof.
  revert ys. induction xs as [|x xs IH]; intros [|y ys]; simpl; [done..|].
  by rewrite bxor_comm, IH.
Qed.

Lemma nacl_laws : @NaClLaws nacl.
Proof.
  constructor; simpl; intros.
  - unfold toy_precompute. by rewrite !pad32_pad32, zip_bxor_comm.
  - apply toy_open_seal.
  - unfold toy_seal. rewrite length_app, length_tag. lia.
  - by eapply length_toy_open.
  - done.
  - apply length_pad32.
  - apply toy_open_seal.
  - unfold toy_seal. rewrite length_app, length_tag. lia.
Qed.

Fixpoint toy_onion_seal (r m n : bytes) (pks : list bytes) : bytes * list bytes :=
  match pks with
  | [] => (m, [])
  | pk :: pks =>
      let '(o, ks) := toy_onion_seal r m n pks in
      let k := toy_precompute pk r in
      (pad32 r ++ toy_seal o n k, k :: ks)
  end.

Fixpoint toy_onion_open (o n : bytes) (ks : list bytes) : option bytes :=
  match ks with
  | [] => Some o
  | k :: ks => match toy_open o n k with Some o => toy_onion_open o n ks | None => None end
  end.

Definition onionbox : Onionbox := {|
  onion_Overhead := 48;
  onion_Seal := toy_onion_seal;
  onion_Open := toy_onion_open
|}.

Lemma onionbox_laws : @OnionboxLaws nacl onionbox.
Proof.
  pose proof nacl_laws as L. constructor; simpl.
  - done.
  - intros r m n sks. induction sks as [|sk sks IH]; simpl; [constructor|].
    change (list_fmap bytes bytes pad32 sks) with (pad32 <$> sks).
    destruct (toy_onion_seal r m n (pad32 <$> sks)) as [o ks]; simpl in *.
    pose proof (@Precompute_comm _ L sk r) as E. simpl in E. rewrite E.
    eapply (@peels_cons nacl); [apply length_pad32|exact IH|done].
  - intros n ks m. induction ks as [|k ks IH]; simpl; [done|]. by rewrite toy_open_seal.
Qed.

(** The shuffle that reverses. *)
Definition shuffle : Shuffle := {|
  Shuffler := nat;
  shuffle_New _ n := n;
  do_shuffle _ xs := reverse xs;
  do_unshuffle _ xs := reverse xs;
  shuffle_len n := n;
  shuffle_perm n := reverse (seq 0 n)
|}.

Lemma reverse_seq_lookup n i j : reverse (seq 0 n) !! j = Some i → (j < n ∧ i = n - S j)%nat.
Proof.
  intros H. pose proof (lookup_lt_Some _ _ _ H) as Hj. rewrite length_reverse, length_seq in Hj.
  rewrite reverse_lookup, length_seq in H by len. apply lookup_seq in H. lia.
Qed.

Lemma shuffle_laws : @ShuffleLaws shuffle.
Proof.
  constructor; simpl.
  - done.
  - intros n. apply reverse_Permutation.
  - intros _ xs. len.
  - intros _ xs. len.
  - intros n xs i j E [Hj ->]%reverse_seq_lookup. rewrite reverse_lookup by lia. f_equal. lia.
  - intros n xs i j E [Hj ->]%reverse_seq_lookup.
    rewrite reverse_lookup by lia. f_equal. lia.
Qed.

(** Consecutive spans of [k] indices, the last one shorter. *)
Fixpoint toy_spans (fuel start n k : nat) : list Span :=
  match fuel with
  | O => []
  | S fuel =>
      if decide (n = 0)%nat then []
      else mkSpan start (k `min` n) :: toy_spans fuel (start + k `min` n) (n - k `min` n) k
  end.

Definition spans_inst : Spans := {| spans n k := toy_spans n 0 n k |}.

Lemma toy_spans_cover fuel start n k :
  (0 < k)%nat → (n ≤ fuel)%nat → mjoin (span_indices <$> toy_spans fuel start n k) = seq start n.
Proof.
  intros Hk. revert start n. induction fuel as [|fuel IH]; intros start n Hn.
  - by replace n with 0%nat by lia.
  - cbn [toy_spans]. case_decide as E; [by subst|].
    change (seq start (k `min` n) ++
            mjoin (span_indices <$> toy_spans fuel (start + k `min` n) (n - k `min` n) k)
            = seq start n).
    rewrite IH by lia. rewrite <- seq_app. f_equal. lia.
Qed.

Lemma toy_spans_bound fuel start n k s :
  s ∈ toy_spans fuel start n k → (Start s + Count s ≤ start + n)%nat.
Proof.
  revert start n. induction fuel as [|fuel IH]; intros start n; cbn [toy_spans]; [by intros ?%elem_of_nil|].
  case_decide; [by intros ?%elem_of_nil|]. intros [->|Hs%IH]%elem_of_cons; cbn; lia.
Qed.

Lemma spans_laws : @SpansLaws spans_inst.
Proof.
  constructor; simpl.
  - intros n k Hk. by apply toy_spans_cover.
  - intros n k s Hs. by apply toy_spans_bound in Hs.
  - done.
Qed.

Definition signature : Signature := {|
  sig_Public := pad32;
  sig_Sign sk m := pad32 sk ++ m;
  sig_Verify pk m s := bool_decide (s = pk ++ m)
|}.

Lemma signature_laws : @SignatureLaws signature.
Proof.
  constructor; simpl; [|apply length_pad32].
  intros. by apply bool_decide_eq_true.
Qed.

End Toy.
