(* ===== verification/Concurrency.v ===== *)
(** * concurrency.ParallelFor

    [ParallelFor(n, f)] runs [f] in several goroutines that share the indices
    0..n-1: every index is handed out once, to one of them. A run is a schedule,
    the sequence of (worker, index) pairs in the order the iterations take effect.
    An iteration reads the locals its worker declared before the loop, may leave
    them changed for the worker's next iteration, and assigns to elements of a
    shared slice.

    [run_parallel_writes]: when what an iteration writes depends on its index
    only, and no two iterations write to the same element, every schedule leaves
    the same slice. *)

From Stdlib Require Import ZArith Lia.
From stdpp Require Import base numbers gmap list.
From S2P Require Import Prelude.

(** Every index is handed out exactly once. *)
Definition valid_schedule (n : nat) (sch : list (nat * nat)) : Prop := sch.*2 ≡ₚ seq 0 n.

#[export] Instance valid_schedule_decision n sch : Decision (valid_schedule n sch).
Proof. unfold valid_schedule. apply _. Defined.

(** A sequence of assignments [arr[i] = a]. *)
Fixpoint apply_writes {A} (ws : list (nat * A)) (arr : list A) : option (list A) :=
  match ws with
  | [] => Some arr
  | (i, a) :: ws => assign i a arr ≫= apply_writes ws
  end.

Section parallel.
Context {E L A : Type}.
Context (init : L) (body : L → nat → outcome E (L * list (nat * A))).

Fixpoint run_parallel (sch : list (nat * nat)) (locals : gmap nat L) (arr : list A)
    : outcome E (list A) :=
  match sch with
  | [] => Ret arr
  | (w, i) :: sch =>
      '(l, ws) ← body (default init (locals !! w)) i;
      arr ← or_panic (apply_writes ws arr);
      run_parallel sch (<[w := l]> locals) arr
  end.

(** [ParallelFor] over a slice, under a schedule. *)
Definition ParallelFor (sch : list (nat * nat)) (arr : list A) : outcome E (list A) :=
  run_parallel sch ∅ arr.

End parallel.

(** ** Writes *)

Section writes.
Context {A : Type}.
Implicit Types (ws : list (nat * A)) (arr : list A).

Lemma apply_writes_app ws1 ws2 arr :
  apply_writes (ws1 ++ ws2) arr = apply_writes ws1 arr ≫= apply_writes ws2.
Proof.
  revert arr. induction ws1 as [|[i a] ws1 IH]; intros arr; [done|].
  simpl. destruct (assign i a arr) as [arr'|]; simpl; [apply IH|done].
Qed.

Lemma apply_writes_length ws arr arr' : apply_writes ws arr = Some arr' → length arr' = length arr.
Proof.
  revert arr. induction ws as [|[i a] ws IH]; intros arr; simpl; [congruence|].
  destruct (assign i a arr) as [arr1|] eqn:Ea; simpl; [|done].
  intros ->%IH. apply assign_Some in Ea as [_ ->]. len.
Qed.

Lemma apply_writes_other ws arr arr' j :
  apply_writes ws arr = Some arr' → j ∉ ws.*1 → arr' !! j = arr !! j.
Proof.
  revert arr. induction ws as [|[i a] ws IH]; intros arr; simpl; [congruence|].
  destruct (assign i a arr) as [arr1|] eqn:Ea; simpl; [|done].
  intros H [Hne Hj]%not_elem_of_cons. apply assign_Some in Ea as [_ ->].
  rewrite (IH _ H) by done. by apply list_lookup_insert_ne.
Qed.

Lemma apply_writes_total ws arr :
  Forall (λ i, (i < length arr)%nat) ws.*1 → ∃ arr', apply_writes ws arr = Some arr'.
Proof.
  revert arr. induction ws as [|[i a] ws IH]; intros arr H; simpl in *; [eauto|].
  apply Forall_cons in H as [Hi H]. unfold assign. rewrite decide_True by done.
  simpl. apply IH. by len.
Qed.

Lemma apply_writes_lookup ws arr arr' j a :
  apply_writes ws arr = Some arr' → NoDup ws.*1 → (j, a) ∈ ws → arr' !! j = Some a.
Proof.
  revert arr. induction ws as [|[i b] ws IH]; intros arr; simpl; [set_solver|].
  destruct (assign i b arr) as [arr1|] eqn:Ea; simpl; [|done].
  intros H [Hi Hnd]%NoDup_cons [Hj|Hj]%elem_of_cons; [|by eapply IH].
  injection Hj as -> ->. apply assign_Some in Ea as [Hlt ->].
  rewrite (apply_writes_other _ _ _ _ H) by done. by apply list_lookup_insert_eq.
Qed.

End writes.

(** ** Schedules do not matter *)

Section deterministic.
Context {E L A : Type}.
Context (init : L) (body : L → nat → outcome E (L * list (nat * A))).
(** [good] holds of the locals at the start of an iteration; [g i] is what
    iteration [i] writes. *)
Context (n : nat) (good : L → Prop) (g : nat → list (nat * A)).
Hypothesis good_init : good init.
Hypothesis body_det : ∀ l i, (i < n)%nat → good l → ∃ l', good l' ∧ body l i = Ret (l', g i).

Lemma run_parallel_writes sch locals arr :
  Forall (λ i, (i < n)%nat) sch.*2 →
  map_Forall (λ _, good) locals →
  run_parallel init body sch locals arr = or_panic (apply_writes (mjoin (g <$> sch.*2)) arr).
Proof.
  revert locals arr. induction sch as [|[w i] sch IH]; intros locals arr Hi Hg; [done|].
  apply Forall_cons in Hi as [Hin Hi']. simpl in Hin. cbn [run_parallel].
  assert (good (default init (locals !! w))) as Hl.
  { destruct (locals !! w) eqn:Ew; simpl; [by eapply Hg|done]. }
  destruct (body_det _ _ Hin Hl) as (l' & Hl' & ->). cbn.
  change (mjoin (g <$> i :: sch.*2)) with (g i ++ mjoin (g <$> sch.*2)).
  rewrite apply_writes_app. destruct (apply_writes (g i) arr) as [arr1|]; [cbn|done].
  apply IH; [done|]. by apply map_Forall_insert_2.
Qed.

(** Every valid schedule gives the array in which each element holds the value its
    iteration writes. *)
Lemma ParallelFor_writes sch arr :
  valid_schedule n sch →
  NoDup (mjoin (g <$> seq 0 n)).*1 →
  (∀ i j a, (i < n)%nat → (j, a) ∈ g i → (j < length arr)%nat) →
  ∃ arr', ParallelFor init body sch arr = Ret arr' ∧ length arr' = length arr ∧
    (∀ i j a, (i < n)%nat → (j, a) ∈ g i → arr' !! j = Some a) ∧
    (∀ j, (∀ i a, (i < n)%nat → (j, a) ∉ g i) → arr' !! j = arr !! j).
Proof.
  intros Hs Hnd Hb. unfold ParallelFor, valid_schedule in *.
  assert (∀ i, i ∈ sch.*2 ↔ (i < n)%nat) as Hin.
  { intros i. rewrite Hs, elem_of_seq. lia. }
  rewrite run_parallel_writes; [|apply Forall_forall; intros i; apply Hin|apply map_Forall_empty].
  set (ws := mjoin (g <$> sch.*2)).
  assert (Hws : ∀ x, x ∈ ws ↔ ∃ i, (i < n)%nat ∧ x ∈ g i).
  { intros x. unfold ws. rewrite list_elem_of_join. setoid_rewrite list_elem_of_fmap. split.
    - intros (l & Hx & i & -> & Hi%Hin). eauto.
    - intros (i & Hi & Hx). exists (g i). split; [done|]. exists i. by rewrite Hin. }
  assert (Hnd' : NoDup ws.*1) by (unfold ws; by rewrite Hs).
  destruct (apply_writes_total ws arr) as [arr' E'].
  { apply Forall_forall. intros j ([? a] & -> & Hx)%list_elem_of_fmap.
    apply Hws in Hx as (i & ? & ?). simpl. eauto. }
  exists arr'. rewrite E'. split; [done|]. split; [by eapply apply_writes_length|]. split.
  - intros i j a Hi Hx. eapply apply_writes_lookup; [done..|]. apply Hws. eauto.
  - intros j Hj. eapply apply_writes_other; [done|].
    intros ([? a] & -> & Hx)%list_elem_of_fmap. apply Hws in Hx as (i & ? & ?).
    by eapply Hj.
Qed.

End deterministic.

(** The common case: iteration [i] writes [f i] to element [i]. *)
Lemma ParallelFor_imap {E L A} (init : L) (body : L → nat → outcome E (L * list (nat * A)))
    n (good : L → Prop) (f : nat → A) sch arr :
  good init →
  (∀ l i, (i < n)%nat → good l → ∃ l', good l' ∧ body l i = Ret (l', [(i, f i)])) →
  valid_schedule n sch → length arr = n →
  ParallelFor init body sch arr = Ret (f <$> seq 0 n).
Proof.
  intros Hg Hb Hs Hl.
  assert (Hk : (mjoin ((λ i, [(i, f i)]) <$> seq 0 n)).*1 = seq 0 n).
  { generalize (seq 0 n) as l. induction l as [|x l IH]; [done|].
    cbn in *. by f_equal. }
  destruct (ParallelFor_writes init body n good (λ i, [(i, f i)]) Hg Hb sch arr Hs)
    as (arr' & -> & Hl' & Hw & _).
  - rewrite Hk. apply NoDup_seq.
  - intros i j a Hi [= -> ->]%list_elem_of_singleton. lia.
  - f_equal. apply list_eq_same_length with (n := n); [len..|].
    intros i x y Hi Hx Hy. rewrite list_lookup_fmap, lookup_seq_lt in Hy by lia.
    rewrite (Hw i i (f i)) in Hx by (try done; set_solver). simpl in Hy. congruence.
Qed.
