(* ===== verification/Wp.v ===== *)
(** * Weakest preconditions of stateful computations

    [wp m Q R s]: run from [s], [m] neither panics nor blocks; if it returns, [Q] holds of
    the value and the state, if it returns an error, [R]. The proofs about the terminal
    client step through its operations with the rules below. *)

From Stdlib Require Import ZArith.
From stdpp Require Import base tactics.
From S2P Require Import Prelude.

Definition wp {S E A} (m : go S E A) (Q : A → S → Prop) (R : E → S → Prop) (s : S) : Prop :=
  match m s with
  | (s', Ret a) => Q a s'
  | (s', Err e) => R e s'
  | _ => False
  end.

Section rules.
Context {S E : Type}.
Implicit Types s : S.

Lemma wp_bind {A B} (m : go S E A) (f : A → go S E B) Q R s :
  wp (m ≫= f) Q R s ↔ wp m (λ a, wp (f a) Q R) R s.
Proof. unfold wp. rewrite go_bind_unfold. by destruct (m s) as [s' []]. Qed.

Lemma wp_ret {A} (a : A) Q R s : wp (E:=E) (mret a) Q R s ↔ Q a s.
Proof. done. Qed.

Lemma wp_get Q R s : wp (E:=E) get Q R s ↔ Q s s.
Proof. done. Qed.

Lemma wp_put s' Q R s : wp (E:=E) (put s') Q R s ↔ Q () s'.
Proof. done. Qed.

Lemma wp_modify f Q R s : wp (E:=E) (modify f) Q R s ↔ Q () (f s).
Proof. done. Qed.

Lemma wp_throw {A} (e : E) Q R s : wp (A:=A) (throw e) Q R s ↔ R e s.
Proof. done. Qed.

Lemma wp_lift_ret {A} (a : A) Q R s : wp (E:=E) (lift (Ret a)) Q R s ↔ Q a s.
Proof. done. Qed.

Lemma wp_lift_Some {A} (o : option A) (a : A) Q R s :
  o = Some a → wp (E:=E) (lift (or_panic o)) Q R s ↔ Q a s.
Proof. by intros ->. Qed.

Lemma wp_mono {A} (m : go S E A) (Q Q' : A → S → Prop) (R R' : E → S → Prop) s :
  wp m Q R s → (∀ a s', Q a s' → Q' a s') → (∀ e s', R e s' → R' e s') → wp m Q' R' s.
Proof. unfold wp. destruct (m s) as [s' []]; eauto. Qed.

Lemma wp_catch {A} (m : go S E A) Q R s :
  wp (catch m) Q R s ↔ wp m (λ a, Q (inr a)) (λ e, Q (inl e)) s.
Proof. unfold wp, catch. by destruct (m s) as [s' []]. Qed.

(** The value and the state of a computation that does not fail. *)
Lemma wp_Ret {A} (m : go S E A) Q s :
  wp m Q (λ _ _, False) s → ∃ s' a, m s = (s', Ret a) ∧ Q a s'.
Proof. unfold wp. destruct (m s) as [s' []]; try done. eauto. Qed.

Lemma wp_run {A} (m : go S E A) Q R s s' a : m s = (s', Ret a) → wp m Q R s ↔ Q a s'.
Proof. unfold wp. by intros ->. Qed.

End rules.

Create Rewrite HintDb wp.
#[export] Hint Rewrite @wp_bind @wp_ret @wp_get @wp_put @wp_modify @wp_throw @wp_lift_ret @wp_catch : wp.

Ltac wp_steps := repeat (progress (autorewrite with wp; cbn beta iota zeta)).
