(* ===== verification/Pb.v ===== *)
(** * The messages of the mixnet protocol (mixnet/convopb/mixnet.pb.go)

    The structs of the generated package, as the handlers read them. A pointer to a
    request is the request (the RPC layer passes no nil one), and a nil element of a repeated
    message field does not come off the wire; but a request can come without its settings,
    which is a nil pointer. The encoding on the wire is in [ProtoMessages]. *)

From Stdlib Require Import ZArith.
From stdpp Require Import base numbers strings list.
From S2P Require Import Prelude.

Module pb.

Record PublicServerConfig := mkPublicServerConfig { Key : bytes; Address : string }.

Record NewRoundRequest := mkNewRoundRequest {
  NewRound_Service : string;
  NewRound_Round : Z;
  NewRound_Chain : list PublicServerConfig
}.

Record NewRoundResponse := mkNewRoundResponse { OnionKey : bytes }.

Record RoundSettings := mkRoundSettings {
  Service : string;
  Round : Z;
  OnionKeys : list bytes;
  ServiceData : option bytes     (* None: the nil slice *)
}.

Record SetRoundSettingsRequest := mkSetRoundSettingsRequest { Settings : option RoundSettings }.

Record RoundSettingsSignature := mkRoundSettingsSignature { Signature : bytes }.

Record AddOnionsRequest := mkAddOnionsRequest {
  AddOnions_Offset : Z;
  AddOnions_Onions : list bytes
}.

Record CloseRoundRequest := mkCloseRoundRequest {
  CloseRound_Service : string;
  CloseRound_Round : Z
}.

Record CloseRoundResponse := mkCloseRoundResponse { Result : string }.

Record GetOnionsRequest := mkGetOnionsRequest {
  GetOnions_Service : string;
  GetOnions_Round : Z;
  GetOnions_Offset : Z;
  GetOnions_Count : Z
}.

Record GetOnionsResponse := mkGetOnionsResponse {
  GetOnions_resp_Offset : Z;
  GetOnions_resp_Onions : list bytes
}.

Record DeleteRoundRequest := mkDeleteRoundRequest {
  DeleteRound_Service : string;
  DeleteRound_Round : Z
}.

End pb.
