(* ===== verification/ProtoWire.v ===== *)
(** * The wire format of protocol buffers, as the generated code has it (mixnet.pb.go)

    The helpers of the generated file and the code it repeats in every message: variable-length
    integers, the loops that read them, [skipMixnet], the cases of a field by its type, and the
    writes into a buffer of computed size. An [int] has 64 bits; an index outside of a slice, or a
    slice whose bounds are not in order, panics. *)

From Stdlib Require Import ZArith Lia.
From stdpp Require Import base numbers strings list.
From S2P Require Import Prelude GoStrings.

Inductive wire_error :=
| ErrIntOverflow
| ErrUnexpectedEOF
| ErrInvalidLength
| IllegalWireType (t : Z)
| EndGroup (msg : string)
| IllegalTag (msg : string) (num wire : Z)
| WrongWireType (t : Z) (field : string).

(** ** Integers and slices *)

(** The value of the low [w] bits as a signed integer. *)
Definition signed (w v : Z) : Z := (v + 2 ^ (w - 1)) mod 2 ^ w - 2 ^ (w - 1).
Abbreviation i64 := (signed 64).
Abbreviation i32 := (signed 32).

Definition len (dAtA : bytes) : Z := Z.of_nat (length dAtA).

(** [dAtA[i]] *)
Definition index (dAtA : bytes) (i : Z) : outcome wire_error Byte.byte :=
  if decide (0 <= i) then or_panic (dAtA !! Z.to_nat i) else Panic.

(** [dAtA[i:j]], where [j] is checked against the length before. *)
Definition part (dAtA : bytes) (i j : Z) : outcome wire_error bytes :=
  if decide (0 <= i <= j ∧ j <= len dAtA) then Ret (take (Z.to_nat (j - i)) (drop (Z.to_nat i) dAtA))
  else Panic.

(** ** Reading *)

(** The loop over the shifts 0, 7, ..., 63 that gathers a number of [w] bits from [iNdEx] on: the
    number and the index after it. *)
Fixpoint read_loop (w : Z) (dAtA : bytes) (turns : nat) (shift acc iNdEx : Z) : outcome wire_error (Z * Z) :=
  match turns with
  | O => Err ErrIntOverflow
  | S turns =>
      if decide (len dAtA <= iNdEx) then Err ErrUnexpectedEOF
      else
        b ← index dAtA iNdEx;
        let iNdEx := iNdEx + 1 in
        let acc := Z.lor acc (Z.shiftl (Z.land (Z_of_byte b) 0x7F) shift mod 2 ^ w) in
        if decide (Z_of_byte b < 0x80) then Ret (acc, iNdEx)
        else read_loop w dAtA turns (shift + 7) acc iNdEx
  end.

Definition read_varint (w : Z) (dAtA : bytes) (iNdEx : Z) : outcome wire_error (Z * Z) :=
  read_loop w dAtA 10 0 0 iNdEx.

(** A group is skipped field by field, up to its end. *)
Fixpoint skip_group (skip : bytes → outcome wire_error Z) (dAtA : bytes) (fuel : nat) (iNdEx : Z)
    : outcome wire_error Z :=
  match fuel with
  | O => Block
  | S fuel =>
      let start := iNdEx in
      '(innerWire, iNdEx) ← read_varint 64 dAtA iNdEx;
      if decide (Z.land innerWire 7 = 4) then Ret iNdEx
      else
        rest ← part dAtA start (len dAtA);
        next ← skip rest;
        skip_group skip dAtA fuel (i64 (start + next))
  end.

(** The index after the first field of [dAtA], which may lie behind its end. *)
Fixpoint skip_fuel (fuel : nat) (dAtA : bytes) : outcome wire_error Z :=
  match fuel with
  | O => Block
  | S fuel =>
      if decide (len dAtA <= 0) then Panic
      else
        '(wire, iNdEx) ← read_varint 64 dAtA 0;
        let wireType := Z.land wire 7 in
        if decide (wireType = 0) then '(_, iNdEx) ← read_varint 64 dAtA iNdEx; Ret iNdEx
        else if decide (wireType = 1) then Ret (iNdEx + 8)
        else if decide (wireType = 2) then
          '(length, iNdEx) ← read_varint 64 dAtA iNdEx;
          let length := i64 length in
          let iNdEx := i64 (iNdEx + length) in
          if decide (length < 0) then Err ErrInvalidLength else Ret iNdEx
        else if decide (wireType = 3) then skip_group (skip_fuel fuel) dAtA (S (length dAtA)) iNdEx
        else if decide (wireType = 4) then Ret iNdEx
        else if decide (wireType = 5) then Ret (iNdEx + 4)
        else Err (IllegalWireType wireType)
  end.

Definition skipMixnet (dAtA : bytes) : outcome wire_error Z := skip_fuel (S (length dAtA)) dAtA.

(** ** The cases of [Unmarshal] *)

(** What a field is to the message: its name, and how a value changes the message. *)
Inductive field M :=
| BytesField (name : string) (set : bytes → M → M)
| Uint32Field (name : string) (set : Z → M → M)
| MessageField (name : string) (merge : bytes → M → outcome wire_error M).

Arguments BytesField {M}. Arguments Uint32Field {M}. Arguments MessageField {M}.

(** A length and the bytes it announces. *)
Definition read_bytes (dAtA : bytes) (iNdEx : Z) : outcome wire_error (bytes * Z) :=
  '(byteLen, iNdEx) ← read_varint 64 dAtA iNdEx;
  let byteLen := i64 byteLen in
  if decide (byteLen < 0) then Err ErrInvalidLength
  else
    let postIndex := i64 (iNdEx + byteLen) in
    if decide (len dAtA < postIndex) then Err ErrUnexpectedEOF
    else
      bs ← part dAtA iNdEx postIndex;
      Ret (bs, postIndex).

Definition read_field {M} (f : field M) (wireType : Z) (dAtA : bytes) (iNdEx : Z) (m : M)
    : outcome wire_error (M * Z) :=
  match f with
  | BytesField name set =>
      if decide (wireType ≠ 2) then Err (WrongWireType wireType name)
      else '(bs, iNdEx) ← read_bytes dAtA iNdEx; Ret (set bs m, iNdEx)
  | Uint32Field name set =>
      if decide (wireType ≠ 0) then Err (WrongWireType wireType name)
      else '(v, iNdEx) ← read_varint 32 dAtA iNdEx; Ret (set v m, iNdEx)
  | MessageField name merge =>
      if decide (wireType ≠ 2) then Err (WrongWireType wireType name)
      else
        '(bs, iNdEx) ← read_bytes dAtA iNdEx;
        m ← merge bs m;
        Ret (m, iNdEx)
  end.

(** The loop of [Unmarshal] of the message [msg], whose known fields are [fields]. *)
Fixpoint unmarshal_loop {M} (msg : string) (fields : Z → option (field M)) (dAtA : bytes) (fuel : nat)
    (iNdEx : Z) (m : M) : outcome wire_error M :=
  match fuel with
  | O => Block
  | S fuel =>
      if decide (iNdEx < len dAtA) then
        let preIndex := iNdEx in
        '(wire, iNdEx) ← read_varint 64 dAtA iNdEx;
        let fieldNum := i32 (Z.shiftr wire 3) in
        let wireType := Z.land wire 7 in
        if decide (wireType = 4) then Err (EndGroup msg)
        else if decide (fieldNum <= 0) then Err (IllegalTag msg fieldNum wire)
        else
          match fields fieldNum with
          | Some f =>
              '(m, iNdEx) ← read_field f wireType dAtA iNdEx m;
              unmarshal_loop msg fields dAtA fuel iNdEx m
          | None =>
              rest ← part dAtA preIndex (len dAtA);
              skippy ← skipMixnet rest;
              if decide (skippy < 0) then Err ErrInvalidLength
              else
                let iNdEx := i64 (preIndex + skippy) in
                if decide (len dAtA < iNdEx) then Err ErrUnexpectedEOF
                else unmarshal_loop msg fields dAtA fuel iNdEx m
          end
      else if decide (len dAtA < iNdEx) then Err ErrUnexpectedEOF
      else Ret m
  end.

Definition unmarshal {M} (msg : string) (fields : Z → option (field M)) (dAtA : bytes) (m : M)
    : outcome wire_error M :=
  unmarshal_loop msg fields dAtA (S (length dAtA)) 0 m.

(** ** Writing *)

(** The buffer of [MarshalTo] and the index in it. *)
Record Out := mkOut { buf : bytes; at_ : nat }.

Abbreviation writer := (go Out wire_error unit).

(** [dAtA[i] = b; i++] *)
Definition write_byte (b : Z) : writer := λ o,
  if decide (at_ o < length (buf o))%nat
  then (mkOut (<[at_ o := byte_of_Z b]> (buf o)) (S (at_ o)), Ret ())
  else (o, Panic).

(** A [uint64] has at most ten digits of seven bits. *)
Fixpoint encode_loop (turns : nat) (v : Z) : writer :=
  match turns with
  | O => write_byte v
  | S turns =>
      if decide (2 ^ 7 <= v) then
        write_byte (Z.lor (Z.land v 0x7F) 0x80);;
        encode_loop turns (Z.shiftr v 7)
      else write_byte v
  end.

Definition encodeVarintMixnet (v : Z) : writer := encode_loop 9 v.

(** [i += copy(dAtA[i:], s)] *)
Definition write_copy (s : bytes) : writer := λ o,
  if decide (at_ o ≤ length (buf o))%nat
  then
    let rest := drop (at_ o) (buf o) in
    (mkOut (take (at_ o) (buf o) ++ go_copy rest s) (at_ o + length s `min` length rest), Ret ())
  else (o, Panic).

(** [n, err := msg.MarshalTo(dAtA[i:])], which writes to the same buffer. *)
Definition write_message (MarshalTo : writer) : writer := λ o,
  if decide (at_ o ≤ length (buf o))%nat
  then
    match MarshalTo (mkOut (drop (at_ o) (buf o)) 0) with
    | (o', Ret _) => (mkOut (take (at_ o) (buf o) ++ buf o') (at_ o + at_ o'), Ret ())
    | (o', r) => (mkOut (take (at_ o) (buf o) ++ buf o') (at_ o), r)
    end
  else (o, Panic).

(** The number of digits of a [uint64] *)
Fixpoint sov_loop (turns : nat) (x : Z) : Z :=
  match turns with
  | O => 1
  | S turns => if decide (Z.shiftr x 7 = 0) then 1 else 1 + sov_loop turns (Z.shiftr x 7)
  end.

Definition sovMixnet (x : Z) : Z := sov_loop 9 x.

(** A length-delimited field: the tag, the length, the bytes. *)
Definition write_bytes (tag : Z) (bs : bytes) : writer :=
  write_byte tag;;
  encodeVarintMixnet (len bs);;
  write_copy bs.

Definition write_varint (tag v : Z) : writer :=
  write_byte tag;;
  encodeVarintMixnet v.

Definition write_nested (tag size : Z) (MarshalTo : writer) : writer :=
  write_byte tag;;
  encodeVarintMixnet size;;
  write_message MarshalTo.

(** [for _, x := range xs] *)
Fixpoint write_each {A} (write : A → writer) (xs : list A) : writer :=
  match xs with
  | [] => mret ()
  | x :: xs => write x;; write_each write xs
  end.

(** A field that is written when it is not empty, not zero, or not nil. *)
Definition write_nonempty (tag : Z) (bs : bytes) : writer :=
  if decide (0 < len bs) then write_bytes tag bs else mret ().
Definition write_nonzero (tag v : Z) : writer :=
  if decide (v ≠ 0) then write_varint tag v else mret ().
Definition write_repeated (tag : Z) (xs : list bytes) : writer :=
  if decide (0 < length xs)%nat then write_each (write_bytes tag) xs else mret ().

(** What [Size] adds for such a field, whose tag is one byte. *)
Definition size_bytes (l : Z) : Z := 1 + l + sovMixnet l.
Definition size_nonempty (bs : bytes) : Z := if decide (0 < len bs) then size_bytes (len bs) else 0.
Definition size_nonzero (v : Z) : Z := if decide (v ≠ 0) then 1 + sovMixnet v else 0.
Definition size_repeated (sizes : list Z) : Z := foldl (λ n l, n + size_bytes l) 0 sizes.

(** [Marshal] *)
Definition marshal (Size : Z) (MarshalTo : writer) : outcome wire_error bytes :=
  match MarshalTo (mkOut (replicate (Z.to_nat Size) x00) 0) with
  | (o, Ret _) => part (buf o) 0 (Z.of_nat (at_ o))
  | (_, Err e) => Err e
  | (_, Panic) => Panic
  | (_, Block) => Block
  end.

(** ** Messages

    What the generated code has for each message. *)
Class ProtoMessage (M : Type) := mkProtoMessage {
  message_name : string;
  new_message : M;
  Size : M → Z;
  MarshalTo : M → writer;
  fields : Z → option (field M)
}.

Definition Marshal `{ProtoMessage M} (m : M) : outcome wire_error bytes := marshal (Size m) (MarshalTo m).

Definition Unmarshal `{ProtoMessage M} (dAtA : bytes) (m : M) : outcome wire_error M :=
  unmarshal message_name fields dAtA m.
