(* ===== verification/ProtoMessages.v ===== *)
(** * The messages of the mixnet protocol on the wire (mixnet.pb.go)

    For each message its [Size], its [MarshalTo] and the cases of its [Unmarshal], and the
    instance that gathers them. *)

From Stdlib Require Import ZArith Lia.
From stdpp Require Import base numbers strings list.
From S2P Require Import Prelude Json GoStrings Pb ProtoWire.

(** ** Nothing *)

Definition Nothing_fields (num : Z) : option (field unit) := None.

#[export] Instance Nothing_message : ProtoMessage unit := {|
  message_name := "Nothing";
  new_message := ();
  Size _ := 0;
  MarshalTo _ := mret ();
  fields := Nothing_fields
|}.

(** ** PublicServerConfig *)

Definition PublicServerConfig_Size (m : pb.PublicServerConfig) : Z :=
  size_nonempty (pb.Key m) + size_nonempty (str (pb.Address m)).

Definition PublicServerConfig_MarshalTo (m : pb.PublicServerConfig) : writer :=
  write_nonempty 0x0A (pb.Key m);;
  write_nonempty 0x12 (str (pb.Address m)).

Definition PublicServerConfig_fields (num : Z) : option (field pb.PublicServerConfig) :=
  match num with
  | 1 => Some (BytesField "Key" (λ bs m, pb.mkPublicServerConfig bs (pb.Address m)))
  | 2 => Some (BytesField "Address" (λ bs m, pb.mkPublicServerConfig (pb.Key m) (to_string bs)))
  | _ => None
  end.

#[export] Instance PublicServerConfig_message : ProtoMessage pb.PublicServerConfig := {|
  message_name := "PublicServerConfig";
  new_message := pb.mkPublicServerConfig [] "";
  Size := PublicServerConfig_Size;
  MarshalTo := PublicServerConfig_MarshalTo;
  fields := PublicServerConfig_fields
|}.

(** ** NewRoundRequest *)

Definition NewRoundRequest_Size (m : pb.NewRoundRequest) : Z :=
  size_nonempty (str (pb.NewRound_Service m)) + size_nonzero (pb.NewRound_Round m) +
  size_repeated (Size <$> pb.NewRound_Chain m).

Definition NewRoundRequest_MarshalTo (m : pb.NewRoundRequest) : writer :=
  write_nonempty 0x0A (str (pb.NewRound_Service m));;
  write_nonzero 0x10 (pb.NewRound_Round m);;
  write_each (λ msg, write_nested 0x1A (Size msg) (MarshalTo msg)) (pb.NewRound_Chain m).

Definition NewRoundRequest_fields (num : Z) : option (field pb.NewRoundRequest) :=
  match num with
  | 1 => Some (BytesField "Service" (λ bs m,
           pb.mkNewRoundRequest (to_string bs) (pb.NewRound_Round m) (pb.NewRound_Chain m)))
  | 2 => Some (Uint32Field "Round" (λ v m,
           pb.mkNewRoundRequest (pb.NewRound_Service m) v (pb.NewRound_Chain m)))
  | 3 => Some (MessageField "Chain" (λ bs m,
           c ← Unmarshal bs new_message;
           Ret (pb.mkNewRoundRequest (pb.NewRound_Service m) (pb.NewRound_Round m) (pb.NewRound_Chain m ++ [c]))))
  | _ => None
  end.

#[export] Instance NewRoundRequest_message : ProtoMessage pb.NewRoundRequest := {|
  message_name := "NewRoundRequest";
  new_message := pb.mkNewRoundRequest "" 0 [];
  Size := NewRoundRequest_Size;
  MarshalTo := NewRoundRequest_MarshalTo;
  fields := NewRoundRequest_fields
|}.

(** ** NewRoundResponse *)

Definition NewRoundResponse_Size (m : pb.NewRoundResponse) : Z := size_nonempty (pb.OnionKey m).

Definition NewRoundResponse_MarshalTo (m : pb.NewRoundResponse) : writer := write_nonempty 0x0A (pb.OnionKey m).

Definition NewRoundResponse_fields (num : Z) : option (field pb.NewRoundResponse) :=
  match num with
  | 1 => Some (BytesField "OnionKey" (λ bs m, pb.mkNewRoundResponse bs))
  | _ => None
  end.

#[export] Instance NewRoundResponse_message : ProtoMessage pb.NewRoundResponse := {|
  message_name := "NewRoundResponse";
  new_message := pb.mkNewRoundResponse [];
  Size := NewRoundResponse_Size;
  MarshalTo := NewRoundResponse_MarshalTo;
  fields := NewRoundResponse_fields
|}.

(** ** RoundSettings *)

Definition RoundSettings_Size (m : pb.RoundSettings) : Z :=
  size_nonempty (str (pb.Service m)) + size_nonzero (pb.Round m) +
  size_repeated (len <$> pb.OnionKeys m) + size_nonempty (default [] (pb.ServiceData m)).

Definition RoundSettings_MarshalTo (m : pb.RoundSettings) : writer :=
  write_nonempty 0x0A (str (pb.Service m));;
  write_nonzero 0x10 (pb.Round m);;
  write_repeated 0x1A (pb.OnionKeys m);;
  write_nonempty 0x22 (default [] (pb.ServiceData m)).

Definition RoundSettings_fields (num : Z) : option (field pb.RoundSettings) :=
  match num with
  | 1 => Some (BytesField "Service" (λ bs m,
           pb.mkRoundSettings (to_string bs) (pb.Round m) (pb.OnionKeys m) (pb.ServiceData m)))
  | 2 => Some (Uint32Field "Round" (λ v m,
           pb.mkRoundSettings (pb.Service m) v (pb.OnionKeys m) (pb.ServiceData m)))
  | 3 => Some (BytesField "OnionKeys" (λ bs m,
           pb.mkRoundSettings (pb.Service m) (pb.Round m) (pb.OnionKeys m ++ [bs]) (pb.ServiceData m)))
  | 4 => Some (BytesField "ServiceData" (λ bs m,
           pb.mkRoundSettings (pb.Service m) (pb.Round m) (pb.OnionKeys m) (Some bs)))
  | _ => None
  end.

#[export] Instance RoundSettings_message : ProtoMessage pb.RoundSettings := {|
  message_name := "RoundSettings";
  new_message := pb.mkRoundSettings "" 0 [] None;
  Size := RoundSettings_Size;
  MarshalTo := RoundSettings_MarshalTo;
  fields := RoundSettings_fields
|}.

(** ** SetRoundSettingsRequest *)

Definition SetRoundSettingsRequest_Size (m : pb.SetRoundSettingsRequest) : Z :=
  match pb.Settings m with Some s => size_bytes (Size s) | None => 0 end.

Definition SetRoundSettingsRequest_MarshalTo (m : pb.SetRoundSettingsRequest) : writer :=
  match pb.Settings m with
  | Some s => write_nested 0x0A (Size s) (MarshalTo s)
  | None => mret ()
  end.

(** A second occurrence is read into the settings of the first. *)
Definition SetRoundSettingsRequest_fields (num : Z) : option (field pb.SetRoundSettingsRequest) :=
  match num with
  | 1 => Some (MessageField "Settings" (λ bs m,
           s ← Unmarshal bs (default new_message (pb.Settings m));
           Ret (pb.mkSetRoundSettingsRequest (Some s))))
  | _ => None
  end.

#[export] Instance SetRoundSettingsRequest_message : ProtoMessage pb.SetRoundSettingsRequest := {|
  message_name := "SetRoundSettingsRequest";
  new_message := pb.mkSetRoundSettingsRequest None;
  Size := SetRoundSettingsRequest_Size;
  MarshalTo := SetRoundSettingsRequest_MarshalTo;
  fields := SetRoundSettingsRequest_fields
|}.

(** ** RoundSettingsSignature *)

Definition RoundSettingsSignature_Size (m : pb.RoundSettingsSignature) : Z := size_nonempty (pb.Signature m).

Definition RoundSettingsSignature_MarshalTo (m : pb.RoundSettingsSignature) : writer :=
  write_nonempty 0x0A (pb.Signature m).

Definition RoundSettingsSignature_fields (num : Z) : option (field pb.RoundSettingsSignature) :=
  match num with
  | 1 => Some (BytesField "Signature" (λ bs m, pb.mkRoundSettingsSignature bs))
  | _ => None
  end.

#[export] Instance RoundSettingsSignature_message : ProtoMessage pb.RoundSettingsSignature := {|
  message_name := "RoundSettingsSignature";
  new_message := pb.mkRoundSettingsSignature [];
  Size := RoundSettingsSignature_Size;
  MarshalTo := RoundSettingsSignature_MarshalTo;
  fields := RoundSettingsSignature_fields
|}.

(** ** AddOnionsRequest *)

Definition AddOnionsRequest_Size (m : pb.AddOnionsRequest) : Z :=
  size_nonzero (pb.AddOnions_Offset m) + size_repeated (len <$> pb.AddOnions_Onions m).

Definition AddOnionsRequest_MarshalTo (m : pb.AddOnionsRequest) : writer :=
  write_nonzero 0x08 (pb.AddOnions_Offset m);;
  write_repeated 0x12 (pb.AddOnions_Onions m).

Definition AddOnionsRequest_fields (num : Z) : option (field pb.AddOnionsRequest) :=
  match num with
  | 1 => Some (Uint32Field "Offset" (λ v m, pb.mkAddOnionsRequest v (pb.AddOnions_Onions m)))
  | 2 => Some (BytesField "Onions" (λ bs m,
           pb.mkAddOnionsRequest (pb.AddOnions_Offset m) (pb.AddOnions_Onions m ++ [bs])))
  | _ => None
  end.

#[export] Instance AddOnionsRequest_message : ProtoMessage pb.AddOnionsRequest := {|
  message_name := "AddOnionsRequest";
  new_message := pb.mkAddOnionsRequest 0 [];
  Size := AddOnionsRequest_Size;
  MarshalTo := AddOnionsRequest_MarshalTo;
  fields := AddOnionsRequest_fields
|}.

(** ** CloseRoundRequest *)

Definition CloseRoundRequest_Size (m : pb.CloseRoundRequest) : Z :=
  size_nonempty (str (pb.CloseRound_Service m)) + size_nonzero (pb.CloseRound_Round m).

Definition CloseRoundRequest_MarshalTo (m : pb.CloseRoundRequest) : writer :=
  write_nonempty 0x0A (str (pb.CloseRound_Service m));;
  write_nonzero 0x10 (pb.CloseRound_Round m).

Definition CloseRoundRequest_fields (num : Z) : option (field pb.CloseRoundRequest) :=
  match num with
  | 1 => Some (BytesField "Service" (λ bs m, pb.mkCloseRoundRequest (to_string bs) (pb.CloseRound_Round m)))
  | 2 => Some (Uint32Field "Round" (λ v m, pb.mkCloseRoundRequest (pb.CloseRound_Service m) v))
  | _ => None
  end.

#[export] Instance CloseRoundRequest_message : ProtoMessage pb.CloseRoundRequest := {|
  message_name := "CloseRoundRequest";
  new_message := pb.mkCloseRoundRequest "" 0;
  Size := CloseRoundRequest_Size;
  MarshalTo := CloseRoundRequest_MarshalTo;
  fields := CloseRoundRequest_fields
|}.

(** ** CloseRoundResponse *)

Definition CloseRoundResponse_Size (m : pb.CloseRoundResponse) : Z := size_nonempty (str (pb.Result m)).

Definition CloseRoundResponse_MarshalTo (m : pb.CloseRoundResponse) : writer :=
  write_nonempty 0x0A (str (pb.Result m)).

Definition CloseRoundResponse_fields (num : Z) : option (field pb.CloseRoundResponse) :=
  match num with
  | 1 => Some (BytesField "Result" (λ bs m, pb.mkCloseRoundResponse (to_string bs)))
  | _ => None
  end.

#[export] Instance CloseRoundResponse_message : ProtoMessage pb.CloseRoundResponse := {|
  message_name := "CloseRoundResponse";
  new_message := pb.mkCloseRoundResponse "";
  Size := CloseRoundResponse_Size;
  MarshalTo := CloseRoundResponse_MarshalTo;
  fields := CloseRoundResponse_fields
|}.

(** ** GetOnionsRequest *)

Definition GetOnionsRequest_Size (m : pb.GetOnionsRequest) : Z :=
  size_nonempty (str (pb.GetOnions_Service m)) + size_nonzero (pb.GetOnions_Round m) +
  size_nonzero (pb.GetOnions_Offset m) + size_nonzero (pb.GetOnions_Count m).

Definition GetOnionsRequest_MarshalTo (m : pb.GetOnionsRequest) : writer :=
  write_nonempty 0x0A (str (pb.GetOnions_Service m));;
  write_nonzero 0x10 (pb.GetOnions_Round m);;
  write_nonzero 0x18 (pb.GetOnions_Offset m);;
  write_nonzero 0x20 (pb.GetOnions_Count m).

Definition GetOnionsRequest_fields (num : Z) : option (field pb.GetOnionsRequest) :=
  match num with
  | 1 => Some (BytesField "Service" (λ bs m,
           pb.mkGetOnionsRequest (to_string bs) (pb.GetOnions_Round m) (pb.GetOnions_Offset m) (pb.GetOnions_Count m)))
  | 2 => Some (Uint32Field "Round" (λ v m,
           pb.mkGetOnionsRequest (pb.GetOnions_Service m) v (pb.GetOnions_Offset m) (pb.GetOnions_Count m)))
  | 3 => Some (Uint32Field "Offset" (λ v m,
           pb.mkGetOnionsRequest (pb.GetOnions_Service m) (pb.GetOnions_Round m) v (pb.GetOnions_Count m)))
  | 4 => Some (Uint32Field "Count" (λ v m,
           pb.mkGetOnionsRequest (pb.GetOnions_Service m) (pb.GetOnions_Round m) (pb.GetOnions_Offset m) v))
  | _ => None
  end.

#[export] Instance GetOnionsRequest_message : ProtoMessage pb.GetOnionsRequest := {|
  message_name := "GetOnionsRequest";
  new_message := pb.mkGetOnionsRequest "" 0 0 0;
  Size := GetOnionsRequest_Size;
  MarshalTo := GetOnionsRequest_MarshalTo;
  fields := GetOnionsRequest_fields
|}.

(** ** GetOnionsResponse *)

Definition GetOnionsResponse_Size (m : pb.GetOnionsResponse) : Z :=
  size_nonzero (pb.GetOnions_resp_Offset m) + size_repeated (len <$> pb.GetOnions_resp_Onions m).

Definition GetOnionsResponse_MarshalTo (m : pb.GetOnionsResponse) : writer :=
  write_nonzero 0x08 (pb.GetOnions_resp_Offset m);;
  write_repeated 0x12 (pb.GetOnions_resp_Onions m).

Definition GetOnionsResponse_fields (num : Z) : option (field pb.GetOnionsResponse) :=
  match num with
  | 1 => Some (Uint32Field "Offset" (λ v m, pb.mkGetOnionsResponse v (pb.GetOnions_resp_Onions m)))
  | 2 => Some (BytesField "Onions" (λ bs m,
           pb.mkGetOnionsResponse (pb.GetOnions_resp_Offset m) (pb.GetOnions_resp_Onions m ++ [bs])))
  | _ => None
  end.

#[export] Instance GetOnionsResponse_message : ProtoMessage pb.GetOnionsResponse := {|
  message_name := "GetOnionsResponse";
  new_message := pb.mkGetOnionsResponse 0 [];
  Size := GetOnionsResponse_Size;
  MarshalTo := GetOnionsResponse_MarshalTo;
  fields := GetOnionsResponse_fields
|}.

(** ** DeleteRoundRequest *)

Definition DeleteRoundRequest_Size (m : pb.DeleteRoundRequest) : Z :=
  size_nonempty (str (pb.DeleteRound_Service m)) + size_nonzero (pb.DeleteRound_Round m).

Definition DeleteRoundRequest_MarshalTo (m : pb.DeleteRoundRequest) : writer :=
  write_nonempty 0x0A (str (pb.DeleteRound_Service m));;
  write_nonzero 0x10 (pb.DeleteRound_Round m).

Definition DeleteRoundRequest_fields (num : Z) : option (field pb.DeleteRoundRequest) :=
  match num with
  | 1 => Some (BytesField "Service" (λ bs m, pb.mkDeleteRoundRequest (to_string bs) (pb.DeleteRound_Round m)))
  | 2 => Some (Uint32Field "Round" (λ v m, pb.mkDeleteRoundRequest (pb.DeleteRound_Service m) v))
  | _ => None
  end.

#[export] Instance DeleteRoundRequest_message : ProtoMessage pb.DeleteRoundRequest := {|
  message_name := "DeleteRoundRequest";
  new_message := pb.mkDeleteRoundRequest "" 0;
  Size := DeleteRoundRequest_Size;
  MarshalTo := DeleteRoundRequest_MarshalTo;
  fields := DeleteRoundRequest_fields
|}.

(** ** The functions of the generated file *)

Definition Nothing_Marshal : unit → outcome wire_error bytes := Marshal.
Definition Nothing_Unmarshal : bytes → unit → outcome wire_error unit := Unmarshal.

Definition PublicServerConfig_Marshal : pb.PublicServerConfig → outcome wire_error bytes := Marshal.
Definition PublicServerConfig_Unmarshal : bytes → pb.PublicServerConfig → outcome wire_error pb.PublicServerConfig := Unmarshal.

Definition NewRoundRequest_Marshal : pb.NewRoundRequest → outcome wire_error bytes := Marshal.
Definition NewRoundRequest_Unmarshal : bytes → pb.NewRoundRequest → outcome wire_error pb.NewRoundRequest := Unmarshal.

Definition NewRoundResponse_Marshal : pb.NewRoundResponse → outcome wire_error bytes := Marshal.
Definition NewRoundResponse_Unmarshal : bytes → pb.NewRoundResponse → outcome wire_error pb.NewRoundResponse := Unmarshal.

Definition RoundSettings_Marshal : pb.RoundSettings → outcome wire_error bytes := Marshal.
Definition RoundSettings_Unmarshal : bytes → pb.RoundSettings → outcome wire_error pb.RoundSettings := Unmarshal.

Definition SetRoundSettingsRequest_Marshal : pb.SetRoundSettingsRequest → outcome wire_error bytes := Marshal.
Definition SetRoundSettingsRequest_Unmarshal : bytes → pb.SetRoundSettingsRequest → outcome wire_error pb.SetRoundSettingsRequest := Unmarshal.

Definition RoundSettingsSignature_Marshal : pb.RoundSettingsSignature → outcome wire_error bytes := Marshal.
Definition RoundSettingsSignature_Unmarshal : bytes → pb.RoundSettingsSignature → outcome wire_error pb.RoundSettingsSignature := Unmarshal.

Definition AddOnionsRequest_Marshal : pb.AddOnionsRequest → outcome wire_error bytes := Marshal.
Definition AddOnionsRequest_Unmarshal : bytes → pb.AddOnionsRequest → outcome wire_error pb.AddOnionsRequest := Unmarshal.

Definition CloseRoundRequest_Marshal : pb.CloseRoundRequest → outcome wire_error bytes := Marshal.
Definition CloseRoundRequest_Unmarshal : bytes → pb.CloseRoundRequest → outcome wire_error pb.CloseRoundRequest := Unmarshal.

Definition CloseRoundResponse_Marshal : pb.CloseRoundResponse → outcome wire_error bytes := Marshal.
Definition CloseRoundResponse_Unmarshal : bytes → pb.CloseRoundResponse → outcome wire_error pb.CloseRoundResponse := Unmarshal.

Definition GetOnionsRequest_Marshal : pb.GetOnionsRequest → outcome wire_error bytes := Marshal.
Definition GetOnionsRequest_Unmarshal : bytes → pb.GetOnionsRequest → outcome wire_error pb.GetOnionsRequest := Unmarshal.

Definition GetOnionsResponse_Marshal : pb.GetOnionsResponse → outcome wire_error bytes := Marshal.
Definition GetOnionsResponse_Unmarshal : bytes → pb.GetOnionsResponse → outcome wire_error pb.GetOnionsResponse := Unmarshal.

Definition DeleteRoundRequest_Marshal : pb.DeleteRoundRequest → outcome wire_error bytes := Marshal.
Definition DeleteRoundRequest_Unmarshal : bytes → pb.DeleteRoundRequest → outcome wire_error pb.DeleteRoundRequest := Unmarshal.
