(* ===== verification/ProtoFacts.v ===== *)
(** * Encoding and decoding of protocol buffers

    The text of a message as a list of fields, what [MarshalTo] writes and [Size] counts in those
    terms, and how the loop of [Unmarshal] takes such a text apart. *)

From Stdlib Require Import ZArith Lia.
From stdpp Require Import base numbers strings list.
From S2P Require Import Prelude GoStrings Wp ProtoWire.

(** ** Numbers *)

(** The digits of seven bits, the lowest first; all but the last have their eighth bit set. *)
Fixpoint varint_digits (turns : nat) (v : Z) : bytes :=
  match turns with
  | O => [byte_of_Z v]
  | S turns =>
      if decide (2 ^ 7 <= v) then byte_of_Z (v mod 128 + 128) :: varint_digits turns (v / 128)
      else [byte_of_Z v]
  end.

Definition varint (v : Z) : bytes := varint_digits 9 v.

Lemma low_bits v : Z.land v 0x7F = v mod 128.
Proof. change 0x7F with (Z.ones 7). rewrite Z.land_ones by lia. done. Qed.

Lemma shiftr_7 v : Z.shiftr v 7 = v / 128.
Proof. rewrite Z.shiftr_div_pow2 by lia. done. Qed.

Lemma Z_of_byte_small v : 0 <= v < 256 → Z_of_byte (byte_of_Z v) = v.
Proof. intros. rewrite Z_of_byte_of_Z. by apply Z.mod_small. Qed.

(** The lowest digit and the others give the number again, shifted and cut to [w] bits. *)
Lemma lor_digits v s w :
  0 <= s → 0 <= w →
  Z.lor (Z.shiftl (v mod 128) s mod 2 ^ w) (Z.shiftl (v / 128) (s + 7) mod 2 ^ w) = Z.shiftl v s mod 2 ^ w.
Proof.
  intros Hs Hw. rewrite <- low_bits, <- shiftr_7, <- !Z.land_ones by done. apply Z.bits_inj'. intros i Hi.
  rewrite Z.lor_spec, !Z.land_spec, !Z.shiftl_spec, Z.land_spec by done.
  destruct (decide (i < s)) as [Hlt|Hge].
  - by rewrite !(Z.testbit_neg_r _ (_ - _)) by lia.
  - change 0x7F with (Z.ones 7). destruct (decide (i < s + 7)) as [Hlt|Hge7].
    + rewrite (Z.testbit_neg_r _ (i - (s + 7))), (Z.ones_spec_low 7) by lia.
      by rewrite andb_true_r, orb_false_r.
    + rewrite (Z.ones_spec_high 7) by lia. rewrite Z.shiftr_spec by lia.
      replace (i - (s + 7) + 7) with (i - s) by lia. by rewrite andb_false_r.
Qed.

Lemma length_varint_digits t v : (1 ≤ length (varint_digits t v) ≤ S t)%nat.
Proof.
  revert v. induction t as [|t IH]; intros v; cbn [varint_digits]; [cbn; lia|].
  case_decide; cbn [length]; [specialize (IH (v / 128)); lia|lia].
Qed.

Lemma length_varint v : (1 ≤ length (varint v) ≤ 10)%nat.
Proof. apply length_varint_digits. Qed.

(** *** Reading *)

Lemma len_app a b : len (a ++ b) = len a + len b.
Proof. unfold len. rewrite length_app. lia. Qed.

Lemma index_app pre b rest : index (pre ++ b :: rest) (len pre) = Ret b.
Proof.
  unfold index, len. rewrite decide_True by lia. rewrite Nat2Z.id.
  by rewrite list_lookup_middle.
Qed.

Lemma read_digits w t : ∀ v pre rest turns s acc,
  0 <= w → 0 <= s → 0 <= v < 2 ^ (7 * (Z.of_nat t + 1)) → (t < turns)%nat →
  read_loop w (pre ++ varint_digits t v ++ rest) turns s acc (len pre) =
    Ret (Z.lor acc (Z.shiftl v s mod 2 ^ w), len pre + len (varint_digits t v)).
Proof.
  induction t as [|t IH]; intros v pre rest turns s acc Hw Hs Hv Ht.
  - change (2 ^ (7 * (Z.of_nat 0 + 1))) with 128 in Hv.
    destruct turns as [|turns]; [lia|]. cbn [varint_digits app read_loop].
    rewrite decide_False by (rewrite len_app; unfold len; cbn; lia). rewrite index_app. cbn [mbind outcome_bind].
    rewrite Z_of_byte_small by lia. rewrite decide_True by lia.
    rewrite low_bits, (Z.mod_small v 128) by lia. done.
  - destruct turns as [|turns]; [lia|]. cbn [varint_digits]. destruct (decide (2 ^ 7 <= v)) as [Hge|Hlt].
    + cbn [app read_loop]. rewrite decide_False by (rewrite len_app; unfold len; cbn; lia).
      rewrite index_app. cbn [mbind outcome_bind].
      pose proof (Z.mod_pos_bound v 128 ltac:(lia)) as Hm.
      rewrite Z_of_byte_small by lia. rewrite decide_False by lia.
      replace (pre ++ byte_of_Z (v mod 128 + 128) :: varint_digits t (v / 128) ++ rest)
        with ((pre ++ [byte_of_Z (v mod 128 + 128)]) ++ varint_digits t (v / 128) ++ rest)
        by (by rewrite <- app_assoc).
      replace (len pre + 1) with (len (pre ++ [byte_of_Z (v mod 128 + 128)])) by (rewrite len_app; done).
      rewrite IH; [|done|lia| |lia].
      * rewrite low_bits, <- Z.add_mod_idemp_r by lia. change (128 mod 128) with 0. rewrite Z.add_0_r, Z.mod_mod by lia.
        rewrite <- Z.lor_assoc, lor_digits by lia. f_equal. f_equal. rewrite len_app. unfold len. cbn [length]. lia.
      * split; [apply Z.div_pos; lia|]. apply Z.div_lt_upper_bound; [lia|].
        replace (2 ^ (7 * (Z.of_nat (S t) + 1))) with (2 ^ 7 * 2 ^ (7 * (Z.of_nat t + 1))) in Hv
          by (rewrite <- Z.pow_add_r by lia; f_equal; lia). lia.
    + cbn [app read_loop]. rewrite decide_False by (rewrite len_app; unfold len; cbn; lia).
      rewrite index_app. cbn [mbind outcome_bind]. rewrite Z_of_byte_small by lia. rewrite decide_True by lia.
      rewrite low_bits, (Z.mod_small v 128) by lia. done.
Qed.

(** A number is read back, as far as [w] bits hold it. *)
Lemma read_varint_ok w v pre rest :
  0 <= w → 0 <= v < 2 ^ 64 →
  read_varint w (pre ++ varint v ++ rest) (len pre) = Ret (v mod 2 ^ w, len pre + len (varint v)).
Proof.
  intros Hw Hv. unfold read_varint, varint. rewrite read_digits; [|done|lia| |lia].
  - by rewrite Z.lor_0_l, Z.shiftl_0_r.
  - split; [lia|]. assert (2 ^ 64 <= 2 ^ (7 * (Z.of_nat 9 + 1))) by (apply Z.pow_le_mono_r; lia). lia.
Qed.

(** *** Writing *)

(** [w] writes [bs] over as many bytes, from the index on, and nothing else. *)
Definition writes (w : writer) (bs : bytes) : Prop :=
  ∀ pre old rest, length old = length bs →
    w (mkOut (pre ++ old ++ rest) (length pre)) = (mkOut (pre ++ bs ++ rest) (length pre + length bs), Ret ()).

Lemma writes_none : writes (mret ()) [].
Proof. intros pre old rest Hl. apply nil_length_inv in Hl as ->. cbn. by rewrite Nat.add_0_r. Qed.

Lemma writes_seq w1 w2 bs1 bs2 : writes w1 bs1 → writes w2 bs2 → writes (w1;; w2) (bs1 ++ bs2).
Proof.
  intros H1 H2 pre old rest Hl. rewrite length_app in Hl. rewrite go_bind_unfold.
  rewrite <- (take_drop (length bs1) old), <- app_assoc. rewrite H1 by (rewrite length_take; lia).
  rewrite app_assoc. replace (length pre + length bs1)%nat with (length (pre ++ bs1)) by (by rewrite length_app).
  rewrite H2 by (rewrite length_drop; lia). rewrite !length_app, <- !app_assoc. do 2 f_equal. lia.
Qed.

Lemma writes_one v : writes (write_byte v) [byte_of_Z v].
Proof.
  intros pre old rest Hl. destruct old as [|b [|]]; [done| |done]. unfold write_byte. cbn [at_ buf].
  rewrite decide_True by (rewrite !length_app; cbn; lia). rewrite insert_app_r_alt by lia.
  rewrite Nat.sub_diag. cbn. do 2 f_equal. lia.
Qed.

Lemma lor_128 d : 0 <= d < 128 → Z.lor d 0x80 = d + 128.
Proof.
  intros Hd. assert (Hall : Forall (λ n, Z.lor (Z.of_nat n) 0x80 = Z.of_nat n + 128) (seq 0 128))
    by (repeat constructor).
  rewrite <- (Z2Nat.id d) by lia. eapply Forall_forall in Hall; [exact Hall|]. apply elem_of_seq. lia.
Qed.

Lemma writes_digits t v : 0 <= v → writes (encode_loop t v) (varint_digits t v).
Proof.
  revert v. induction t as [|t IH]; intros v Hv; cbn [encode_loop varint_digits]; [apply writes_one|].
  case_decide; [|apply writes_one].
  rewrite low_bits, shiftr_7.
  replace (Z.lor (v mod 128) 128) with (v mod 128 + 128).
  - apply (writes_seq _ _ [_]); [apply writes_one|]. apply IH. apply Z.div_pos; lia.
  - symmetry. apply lor_128. by apply Z.mod_pos_bound.
Qed.

Lemma writes_varint v : 0 <= v → writes (encodeVarintMixnet v) (varint v).
Proof. apply writes_digits. Qed.

Lemma writes_copy s : writes (write_copy s) s.
Proof.
  intros pre old rest Hl. unfold write_copy. cbn [at_ buf].
  rewrite decide_True by (rewrite !length_app; lia). rewrite take_app_length, drop_app_length.
  rewrite go_copy_short by (rewrite length_app; lia). rewrite drop_app_length' by done.
  rewrite length_app, Nat.min_l by lia. done.
Qed.

Lemma writes_message w bs : writes w bs → writes (write_message w) bs.
Proof.
  intros Hw pre old rest Hl. unfold write_message. cbn [at_ buf].
  rewrite decide_True by (rewrite !length_app; lia). rewrite take_app_length, drop_app_length.
  pose proof (Hw [] old rest Hl) as E. cbn [app length] in E. by rewrite E.
Qed.

(** The number of digits. *)
Lemma sov_digits t v : 0 <= v → sov_loop t v = len (varint_digits t v).
Proof.
  revert v. induction t as [|t IH]; intros v Hv; cbn [sov_loop varint_digits]; [done|]. rewrite shiftr_7.
  destruct (decide (2 ^ 7 <= v)) as [Hge|Hlt].
  - rewrite decide_False by (assert (1 <= v / 128); [apply Z.div_le_lower_bound|]; lia).
    rewrite IH by (apply Z.div_pos; lia). unfold len. cbn [length]. lia.
  - rewrite decide_True by (apply Z.div_small; lia). done.
Qed.

Lemma sov_varint v : 0 <= v → sovMixnet v = len (varint v).
Proof. apply sov_digits. Qed.

(** ** The text of a message *)

(** A field on the wire, with its number. *)
Inductive item :=
| IVarint (num v : Z)
| IFixed64 (num : Z) (bs : bytes)
| IBytes (num : Z) (bs : bytes)
| IFixed32 (num : Z) (bs : bytes).

Definition item_num (it : item) : Z :=
  match it with IVarint n _ | IFixed64 n _ | IBytes n _ | IFixed32 n _ => n end.
Definition item_type (it : item) : Z :=
  match it with IVarint _ _ => 0 | IFixed64 _ _ => 1 | IBytes _ _ => 2 | IFixed32 _ _ => 5 end.

Definition item_payload (it : item) : bytes :=
  match it with
  | IVarint _ v => varint v
  | IBytes _ bs => varint (len bs) ++ bs
  | IFixed64 _ bs | IFixed32 _ bs => bs
  end.

Definition item_text (it : item) : bytes := varint (item_num it * 8 + item_type it) ++ item_payload it.
Definition text (its : list item) : bytes := mjoin (item_text <$> its).

(** Field numbers have 29 bits, values 64. *)
Definition valid_item (it : item) : Prop :=
  0 < item_num it < 2 ^ 29 ∧
  match it with
  | IVarint _ v => 0 <= v < 2 ^ 64
  | IFixed64 _ bs => len bs = 8
  | IFixed32 _ bs => len bs = 4
  | IBytes _ _ => True
  end.

(** Texts are in memory: nothing is as long as this. *)
Definition memory : Z := 2 ^ 62.

Lemma item_type_range it : 0 <= item_type it < 8.
Proof. destruct it; cbn; lia. Qed.

Lemma tag_range it : valid_item it → 0 <= item_num it * 8 + item_type it < 2 ^ 32.
Proof. intros [Hn _]. pose proof (item_type_range it). lia. Qed.

Lemma tag_num it : valid_item it → i32 (Z.shiftr (item_num it * 8 + item_type it) 3) = item_num it.
Proof.
  intros [Hn _]. pose proof (item_type_range it) as Ht. rewrite Z.shiftr_div_pow2 by lia.
  rewrite Z.div_add_l by lia. rewrite (Z.div_small (item_type it)) by (change (2 ^ 3) with 8; lia).
  rewrite Z.add_0_r. unfold signed. rewrite Z.mod_small by lia. lia.
Qed.

Lemma tag_type it : Z.land (item_num it * 8 + item_type it) 7 = item_type it.
Proof.
  pose proof (item_type_range it) as Ht. change 7 with (Z.ones 3). rewrite Z.land_ones by lia.
  change (2 ^ 3) with 8. rewrite Z.add_comm, Z.mod_add by lia. by apply Z.mod_small.
Qed.

Lemma i64_small v : - 2 ^ 63 <= v < 2 ^ 63 → i64 v = v.
Proof. intros Hv. unfold signed. rewrite Z.mod_small by lia. lia. Qed.

Lemma len_nonneg bs : 0 <= len bs.
Proof. unfold len. lia. Qed.

Lemma len_item it : 1 <= len (item_text it).
Proof. unfold item_text. rewrite len_app. pose proof (length_varint (item_num it * 8 + item_type it)).
  pose proof (len_nonneg (item_payload it)). unfold len at 1. lia. Qed.

(** The tag of a field. *)
Lemma read_tag it pre rest :
  valid_item it →
  read_varint 64 (pre ++ item_text it ++ rest) (len pre) =
    Ret (item_num it * 8 + item_type it, len pre + len (varint (item_num it * 8 + item_type it))).
Proof.
  intros Hv. pose proof (tag_range it Hv). unfold item_text. rewrite <- app_assoc.
  rewrite read_varint_ok by lia. by rewrite Z.mod_small by lia.
Qed.

Lemma part_app pre bs rest i j :
  i = len pre → j = len pre + len bs → part (pre ++ bs ++ rest) i j = Ret bs.
Proof.
  intros -> ->. pose proof (len_nonneg pre). pose proof (len_nonneg bs). pose proof (len_nonneg rest).
  unfold part. rewrite decide_True by (rewrite !len_app; lia).
  unfold len. rewrite Nat2Z.id, drop_app_length.
  replace (Z.to_nat _) with (length bs) by lia. by rewrite take_app_length.
Qed.

Lemma part_from pre rest : part (pre ++ rest) (len pre) (len (pre ++ rest)) = Ret rest.
Proof.
  rewrite <- (app_nil_r rest) at 1. apply part_app; [done|apply len_app].
Qed.

Lemma read_bytes_ok pre bs rest :
  len (pre ++ varint (len bs) ++ bs ++ rest) < memory →
  read_bytes (pre ++ varint (len bs) ++ bs ++ rest) (len pre) =
    Ret (bs, len pre + len (varint (len bs)) + len bs).
Proof.
  unfold memory. rewrite !len_app. intros Hm. unfold read_bytes.
  pose proof (len_nonneg pre). pose proof (len_nonneg bs). pose proof (len_nonneg rest).
  pose proof (len_nonneg (varint (len bs))). pose proof (len_nonneg pre).
  rewrite read_varint_ok by lia. cbn [mbind outcome_bind]. rewrite Z.mod_small by lia.
  rewrite i64_small by lia. rewrite decide_False by lia. rewrite i64_small by lia.
  rewrite !len_app. rewrite decide_False by lia. rewrite app_assoc.
  rewrite part_app; [done|by rewrite len_app|by rewrite len_app].
Qed.

(** [skipMixnet] goes over a whole field. *)
Lemma skip_item it rest :
  valid_item it → len (item_text it ++ rest) < memory →
  skipMixnet (item_text it ++ rest) = Ret (len (item_text it)).
Proof.
  intros Hv Hm. unfold skipMixnet. pose proof (len_item it) as Hl. pose proof (len_nonneg rest).
  cbn [skip_fuel]. rewrite decide_False by (rewrite len_app; lia).
  pose proof (read_tag it [] rest Hv) as Et. cbn [app] in Et. change (len []) with 0 in Et.
  rewrite Et. cbn [mbind outcome_bind]. rewrite tag_type.
  assert (E : item_text it ++ rest = varint (item_num it * 8 + item_type it) ++ item_payload it ++ rest)
    by (unfold item_text; by rewrite <- app_assoc).
  assert (Eb : len (item_text it) = len (varint (item_num it * 8 + item_type it)) + len (item_payload it))
    by (unfold item_text; apply len_app).
  rewrite Z.add_0_l, Eb. unfold memory in Hm. rewrite len_app, Eb in Hm. rewrite E.
  destruct Hv as [Hn Hv]. destruct it as [n v|n bs|n bs|n bs]; cbn [item_type item_payload item_num] in *.
  - rewrite decide_True by done. rewrite read_varint_ok by lia. done.
  - rewrite decide_False, decide_True by done. by rewrite Hv.
  - rewrite decide_False, decide_False, decide_True by done. rewrite len_app in *.
    pose proof (len_nonneg bs). pose proof (len_nonneg (varint (n * 8 + 2))). pose proof (len_nonneg (varint (len bs))).
    rewrite <- app_assoc, read_varint_ok by lia. cbn [mbind outcome_bind].
    rewrite (Z.mod_small (len bs)), (i64_small (len bs)), decide_False, i64_small by lia. f_equal. lia.
  - rewrite !decide_False by done. rewrite decide_True by done. by rewrite Hv.
Qed.

(** ** What a text means *)

(** What a field does to a message; an unknown one nothing. [None]: it is refused. *)
Definition act {M} (fields : Z → option (field M)) (m : M) (it : item) : option M :=
  match fields (item_num it), it with
  | None, _ => Some m
  | Some (BytesField _ set), IBytes _ bs => Some (set bs m)
  | Some (Uint32Field _ set), IVarint _ v => Some (set (v mod 2 ^ 32) m)
  | Some (MessageField _ merge), IBytes _ bs => match merge bs m with Ret m => Some m | _ => None end
  | _, _ => None
  end.

Definition acts {M} (fields : Z → option (field M)) (its : list item) (m : M) : option M :=
  foldl (λ m it, m ≫= λ m, act fields m it) (Some m) its.

Lemma acts_None {M} (fields : Z → option (field M)) its :
  foldl (λ m it, m ≫= λ m, act fields m it) None its = None.
Proof. by induction its. Qed.

Lemma acts_cons {M} (fields : Z → option (field M)) it its m :
  acts fields (it :: its) m = act fields m it ≫= acts fields its.
Proof. unfold acts. cbn [foldl mbind option_bind]. destruct (act fields m it); [done|apply acts_None]. Qed.

Lemma acts_app {M} (fields : Z → option (field M)) its its' m :
  acts fields (its ++ its') m = acts fields its m ≫= acts fields its'.
Proof.
  unfold acts. rewrite foldl_app. destruct (foldl _ (Some m) its); [done|apply acts_None].
Qed.

(** Unknown fields can be anywhere. *)
Definition known {M} (fields : Z → option (field M)) (its : list item) : list item :=
  filter (λ it, is_Some (fields (item_num it))) its.

Lemma acts_known {M} (fields : Z → option (field M)) its m : acts fields its m = acts fields (known fields its) m.
Proof.
  revert m. unfold known. induction its as [|it its IH]; intros m; [done|]. rewrite filter_cons, acts_cons.
  case_decide as Hk.
  - rewrite acts_cons. destruct (act fields m it); [apply IH|done].
  - apply eq_None_not_Some in Hk. unfold act. rewrite Hk. apply IH.
Qed.

Lemma text_cons it its : text (it :: its) = item_text it ++ text its.
Proof. done. Qed.

Lemma text_app its its' : text (its ++ its') = text its ++ text its'.
Proof. unfold text. by rewrite fmap_app, join_app. Qed.

(** A known field is read. *)
Lemma read_field_ok {M} (f : field M) (fields : Z → option (field M)) it pre rest m m' :
  fields (item_num it) = Some f → act fields m it = Some m' → valid_item it →
  len (pre ++ item_payload it ++ rest) < memory →
  read_field f (item_type it) (pre ++ item_payload it ++ rest) (len pre) m =
    Ret (m', len pre + len (item_payload it)).
Proof.
  intros Hf Ha [_ Hv] Hm. unfold act in Ha. rewrite Hf in Ha.
  destruct f as [name set|name set|name merge], it as [n v|n bs|n bs|n bs]; try done;
    cbn [read_field item_type item_payload] in *.
  - injection Ha as <-. rewrite decide_False by (intros []; done). rewrite <- app_assoc in *.
    rewrite read_bytes_ok by done. cbn. by rewrite len_app, Z.add_assoc.
  - injection Ha as <-. rewrite decide_False by (intros []; done). by rewrite read_varint_ok by lia.
  - rewrite decide_False by (intros []; done). rewrite <- app_assoc in *. rewrite read_bytes_ok by done.
    cbn. destruct (merge bs m) as [x| | |]; [|done..]. injection Ha as <-. cbn. by rewrite len_app, Z.add_assoc.
Qed.

(** The loop takes one field after the other. *)
Lemma unmarshal_items {M} msg (fields : Z → option (field M)) its : ∀ pre m m' fuel,
  Forall valid_item its → len (pre ++ text its) < memory → acts fields its m = Some m' →
  (length (text its) < fuel)%nat →
  unmarshal_loop msg fields (pre ++ text its) fuel (len pre) m = Ret m'.
Proof.
  induction its as [|it its IH]; intros pre m m' fuel Hv Hm Ha Hf; (destruct fuel as [|fuel]; [lia|]);
    cbn [unmarshal_loop].
  - change (text []) with (@nil Byte.byte) in *. rewrite app_nil_r.
    rewrite decide_False, decide_False by lia. unfold acts in Ha. cbn in Ha. by injection Ha as <-.
  - apply Forall_cons in Hv as [Hit Hv]. rewrite text_cons in *. rewrite acts_cons in Ha.
    destruct (act fields m it) as [m1|] eqn:E1; [|done]. cbn [mbind option_bind] in Ha.
    pose proof (len_item it) as Hl. pose proof (len_nonneg (text its)) as Hn. pose proof (len_nonneg pre) as Hp.
    rewrite decide_True by (rewrite !len_app; lia). rewrite (read_tag it pre) by done. cbn [mbind outcome_bind].
    rewrite tag_num, tag_type by done.
    rewrite decide_False by (destruct it; cbn; lia). rewrite decide_False by (destruct Hit; lia).
    assert (Hfuel : (length (text its) < fuel)%nat).
    { rewrite length_app in Hf. unfold len in Hl. lia. }
    pose proof (IH (pre ++ item_text it) m1 m' fuel Hv ltac:(by rewrite <- app_assoc) Ha Hfuel) as IH'.
    rewrite <- app_assoc, (len_app pre) in IH'.
    destruct (fields (item_num it)) as [f|] eqn:Ef.
    + set (tag := varint (item_num it * 8 + item_type it)) in *.
      assert (Et : item_text it = tag ++ item_payload it) by done.
      assert (Ep : pre ++ item_text it ++ text its = (pre ++ tag) ++ item_payload it ++ text its)
        by (by rewrite Et, <- !app_assoc).
      rewrite Ep in *. rewrite <- len_app.
      rewrite (read_field_ok f fields it (pre ++ tag) (text its) m m1) by done. cbn [mbind outcome_bind].
      rewrite Et, len_app, Z.add_assoc, <- len_app in IH'. done.
    + unfold act in E1. rewrite Ef in E1. injection E1 as <-.
      rewrite part_from. cbn [mbind outcome_bind].
      rewrite skip_item by (done || (rewrite !len_app in *; lia)). cbn [mbind outcome_bind].
      unfold memory in Hm. rewrite !len_app in *. rewrite decide_False by lia. rewrite i64_small by lia.
      rewrite decide_False by lia. done.
Qed.

Lemma unmarshal_text {M} msg (fields : Z → option (field M)) its m m' :
  Forall valid_item its → len (text its) < memory → acts fields its m = Some m' →
  unmarshal msg fields (text its) m = Ret m'.
Proof. intros Hv Hm Ha. apply (unmarshal_items msg fields its [] m m'); [done..|lia]. Qed.

(** ** Fields as the generated code writes them *)

Definition nonempty_item (num : Z) (bs : bytes) : list item := if decide (0 < len bs) then [IBytes num bs] else [].
Definition nonzero_item (num v : Z) : list item := if decide (v ≠ 0) then [IVarint num v] else [].

Lemma text_one it : text [it] = item_text it.
Proof. unfold text. cbn. apply app_nil_r. Qed.

(** A tag below 128 is one byte. *)
Lemma varint_small v : 0 <= v < 128 → varint v = [byte_of_Z v].
Proof. intros Hv. unfold varint. cbn [varint_digits]. by rewrite decide_False by lia. Qed.

Section fields.
Context (num tag : Z).
Hypothesis num_small : 0 < num < 16.

Lemma writes_bytes bs : tag = num * 8 + 2 → writes (write_bytes tag bs) (item_text (IBytes num bs)).
Proof.
  intros ->. unfold item_text. cbn [item_num item_type item_payload]. rewrite varint_small by lia.
  apply writes_seq; [apply writes_one|]. apply writes_seq; [apply writes_varint, len_nonneg|apply writes_copy].
Qed.

Lemma writes_nested size w bs :
  tag = num * 8 + 2 → size = len bs → writes w bs → writes (write_nested tag size w) (item_text (IBytes num bs)).
Proof.
  intros -> -> Hw. unfold item_text. cbn [item_num item_type item_payload]. rewrite varint_small by lia.
  apply writes_seq; [apply writes_one|]. apply writes_seq; [apply writes_varint, len_nonneg|by apply writes_message].
Qed.

Lemma writes_nonempty bs : tag = num * 8 + 2 → writes (write_nonempty tag bs) (text (nonempty_item num bs)).
Proof.
  intros Ht. unfold write_nonempty, nonempty_item. case_decide; [|apply writes_none].
  rewrite text_one. by apply writes_bytes.
Qed.

Lemma writes_nonzero v : tag = num * 8 → 0 <= v → writes (write_nonzero tag v) (text (nonzero_item num v)).
Proof.
  intros -> Hv. unfold write_nonzero, nonzero_item. case_decide; [|apply writes_none].
  rewrite text_one. unfold item_text. cbn [item_num item_type item_payload].
  rewrite Z.add_0_r, varint_small by lia. apply writes_seq; [apply writes_one|by apply writes_varint].
Qed.

Lemma writes_each {A} (w : A → writer) (it : A → item) xs :
  Forall (λ x, writes (w x) (item_text (it x))) xs → writes (write_each w xs) (text (it <$> xs)).
Proof.
  induction 1 as [|x xs Hx _ IH]; [apply writes_none|].
  cbn [write_each fmap list_fmap]. rewrite text_cons. by apply writes_seq.
Qed.

Lemma writes_repeated xs : tag = num * 8 + 2 → writes (write_repeated tag xs) (text (IBytes num <$> xs)).
Proof.
  intros Ht. unfold write_repeated. case_decide as Hl.
  - apply writes_each, Forall_true. intros bs. by apply writes_bytes.
  - destruct xs; [apply writes_none|cbn in Hl; lia].
Qed.

Lemma size_bytes_ok bs : size_bytes (len bs) = len (item_text (IBytes num bs)).
Proof.
  unfold size_bytes, item_text. cbn [item_num item_type item_payload].
  rewrite varint_small, !len_app, sov_varint by (lia || apply len_nonneg). change (len [_]) with 1. lia.
Qed.

Lemma size_nonempty_ok bs : size_nonempty bs = len (text (nonempty_item num bs)).
Proof.
  unfold size_nonempty, nonempty_item. case_decide; [|done]. by rewrite text_one, size_bytes_ok.
Qed.

Lemma size_nonzero_ok v : 0 <= v → size_nonzero v = len (text (nonzero_item num v)).
Proof.
  intros Hv. unfold size_nonzero, nonzero_item. case_decide; [|done]. rewrite text_one. unfold item_text.
  cbn [item_num item_type item_payload]. by rewrite varint_small, len_app, sov_varint by lia.
Qed.

Lemma size_repeated_ok xs : size_repeated (len <$> xs) = len (text (IBytes num <$> xs)).
Proof.
  unfold size_repeated. change (len (text (IBytes num <$> xs))) with (0 + len (text (IBytes num <$> xs))).
  generalize 0. induction xs as [|bs xs IH]; intros n; cbn [fmap list_fmap foldl].
  - change (len (text [])) with 0. lia.
  - rewrite IH, text_cons, len_app, size_bytes_ok. lia.
Qed.

Lemma valid_nonempty bs : Forall valid_item (nonempty_item num bs).
Proof. unfold nonempty_item. case_decide; repeat constructor; cbn; lia. Qed.

Lemma valid_nonzero v : 0 <= v < 2 ^ 64 → Forall valid_item (nonzero_item num v).
Proof. intros. unfold nonzero_item. case_decide; repeat constructor; cbn; lia. Qed.

Lemma valid_repeated xs : Forall valid_item (IBytes num <$> xs).
Proof. apply Forall_fmap, Forall_true. intros bs. split; [cbn; lia|done]. Qed.

(** *** What they do *)

Context {M : Type} (fields : Z → option (field M)).

Lemma acts_nonempty name set bs m :
  fields num = Some (BytesField name set) →
  acts fields (nonempty_item num bs) m = Some (if decide (0 < len bs) then set bs m else m).
Proof.
  intros Hf. unfold nonempty_item. case_decide; [|done]. unfold acts, act. cbn. by rewrite Hf.
Qed.

(** What is not written is what a new message has. *)
Lemma acts_bytes name set bs m :
  fields num = Some (BytesField name set) → set [] m = m →
  acts fields (nonempty_item num bs) m = Some (set bs m).
Proof.
  intros Hf Hm. rewrite (acts_nonempty name set) by done. destruct bs as [|b bs]; [by rewrite decide_False, Hm|].
  by rewrite decide_True by (unfold len; cbn; lia).
Qed.

Lemma acts_uint32 name set v m :
  fields num = Some (Uint32Field name set) → 0 <= v < 2 ^ 32 → set 0 m = m →
  acts fields (nonzero_item num v) m = Some (set v m).
Proof.
  intros Hf Hv Hm. unfold nonzero_item. destruct (decide (v ≠ 0)) as [Hne|E].
  - unfold acts, act. cbn [foldl mbind option_bind item_num]. rewrite Hf. by rewrite Z.mod_small.
  - assert (v = 0) as -> by lia. by rewrite Hm.
Qed.

Lemma acts_each {A} (it : A → item) (add : A → M → M) xs m :
  Forall (λ x, ∀ m, act fields m (it x) = Some (add x m)) xs →
  acts fields (it <$> xs) m = Some (foldl (λ m x, add x m) m xs).
Proof.
  intros Hx. revert m. induction Hx as [|x xs Hx _ IH]; intros m; [done|]. cbn [fmap list_fmap foldl].
  rewrite acts_cons, Hx. apply IH.
Qed.

Lemma acts_repeated name set xs m :
  fields num = Some (BytesField name set) →
  acts fields (IBytes num <$> xs) m = Some (foldl (λ m x, set x m) m xs).
Proof.
  intros Hf. apply acts_each, Forall_true. intros x m'. unfold act. cbn. by rewrite Hf.
Qed.

End fields.

(** Fields that append. *)
Lemma foldl_append {A B} (mk : list A → B) (add : A → B → B) xs ys :
  (∀ x zs, add x (mk zs) = mk (zs ++ [x])) → foldl (λ m x, add x m) (mk ys) xs = mk (ys ++ xs).
Proof.
  intros Ha. revert ys. induction xs as [|x xs IH]; intros ys; cbn [foldl]; [by rewrite app_nil_r|].
  rewrite Ha, IH. by rewrite <- app_assoc.
Qed.

(** ** Messages whose code agrees with their text *)

Class ProtoLaws M `{ProtoMessage M} := mkProtoLaws {
  items : M → list item;
  (** What the fields of the Go struct hold: integers of 32 bits. *)
  in_range : M → Prop;
  (** What comes back: an empty slice is not written, and a nil one returns. *)
  normal : M → M;
  items_valid m : in_range m → Forall valid_item (items m);
  size_ok m : in_range m → Size m = len (text (items m));
  write_ok m : in_range m → writes (MarshalTo m) (text (items m));
  read_ok m : in_range m → len (text (items m)) < memory → acts fields (items m) new_message = Some (normal m)
}.

Lemma Marshal_text `{ProtoLaws M} (m : M) : in_range m → Marshal m = Ret (text (items m)).
Proof.
  intros Hm. unfold Marshal, marshal. rewrite (size_ok m Hm).
  pose proof (write_ok m Hm [] (replicate (Z.to_nat (len (text (items m)))) x00) []) as Hw.
  cbn [app length] in Hw. rewrite !app_nil_r in Hw. rewrite Hw by (rewrite length_replicate; unfold len; lia).
  cbn [buf at_]. rewrite Nat.add_0_l. pose proof (part_app [] (text (items m)) [] 0 _ eq_refl eq_refl) as E.
  cbn [app] in E. by rewrite app_nil_r in E.
Qed.

Lemma Unmarshal_items `{ProtoLaws M} (m : M) :
  in_range m → len (text (items m)) < memory → Unmarshal (text (items m)) new_message = Ret (normal m).
Proof. intros Hm Hl. apply unmarshal_text; [by apply items_valid|done|by apply read_ok]. Qed.

(** With fields that the message does not have, among its own. *)
Lemma Unmarshal_text `{ProtoLaws M} (m : M) its :
  in_range m → known fields its = items m → Forall valid_item its → len (text its) < memory →
  len (text (items m)) < memory →
  Unmarshal (text its) new_message = Ret (normal m).
Proof.
  intros Hm Hk Hv Hl Hl'. unfold Unmarshal. apply unmarshal_text; [done..|].
  rewrite acts_known, Hk. by apply read_ok.
Qed.

Lemma known_le {M} (fields : Z → option (field M)) its : len (text (known fields its)) <= len (text its).
Proof.
  induction its as [|it its IH]; [done|]. unfold known in *. rewrite filter_cons.
  case_decide; rewrite !text_cons, !len_app; [lia|]. pose proof (len_item it). lia.
Qed.
