(* ===== verification/ProtoLaws.v ===== *)
(** * The messages of the mixnet protocol survive the wire

    For each message of [ProtoMessages] its text, and that [Size], [MarshalTo] and [Unmarshal]
    agree with it; what the wire loses is the difference between an empty service data and none. *)

From Stdlib Require Import ZArith Lia.
From stdpp Require Import base numbers strings list.
From S2P Require Import Prelude Json GoStrings Pb ProtoWire ProtoMessages ProtoFacts.

(** ** Proofs that follow the shape of the fields *)

Ltac ranges := unfold is_u32 in *; cbn in *; lia.

Ltac valid_fields :=
  repeat apply Forall_app_2;
  first [apply valid_nonempty | apply valid_nonzero | apply valid_repeated]; ranges.

Ltac size_fields def :=
  cbn -[def text]; unfold def; rewrite ?text_app, ?len_app, ?Z.add_assoc; repeat f_equal;
  first [apply size_nonempty_ok | apply size_nonzero_ok | apply size_repeated_ok]; ranges.

Ltac write_fields def :=
  cbn -[def text]; unfold def; rewrite ?text_app; repeat apply writes_seq;
  first [apply writes_nonempty | apply writes_nonzero | apply writes_repeated]; ranges.

(** The next fields of the text are read. *)
Ltac read_bytes_field := erewrite acts_bytes; [|reflexivity|reflexivity]; cbn [mbind option_bind].
Ltac read_uint32_field :=
  erewrite acts_uint32; [|reflexivity|ranges|reflexivity]; cbn [mbind option_bind].
Ltac read_fields :=
  repeat (rewrite ?acts_app; first [read_bytes_field | read_uint32_field]); cbn -[to_string str]; rewrite ?to_string_str.

(** A part of a text is no longer than the text. *)
Lemma len_text_elem it its : it ∈ its → len (item_text it) <= len (text its).
Proof.
  induction 1 as [it its|it it' its _ IH]; rewrite text_cons, len_app.
  - pose proof (len_nonneg (text its)). lia.
  - pose proof (len_nonneg (item_text it')). lia.
Qed.

Lemma len_bytes_elem num bs its : IBytes num bs ∈ its → len bs <= len (text its).
Proof.
  intros Hin%len_text_elem. unfold item_text in Hin. cbn [item_payload] in Hin. rewrite !len_app in Hin.
  pose proof (len_nonneg (varint (item_num (IBytes num bs) * 8 + item_type (IBytes num bs)))).
  pose proof (len_nonneg (varint (len bs))). lia.
Qed.

(** A message in a field of another. *)
Lemma Unmarshal_part `{ProtoLaws M} num (m : M) its :
  in_range m → IBytes num (text (items m)) ∈ its → len (text its) < memory →
  Unmarshal (text (items m)) new_message = Ret (normal m).
Proof.
  intros Hm Hin%len_bytes_elem Hl. apply Unmarshal_items; [done|lia].
Qed.

(** ** The messages *)

#[local] Obligation Tactic := idtac.

#[export] Program Instance Nothing_laws : ProtoLaws unit := {|
  items _ := []; in_range _ := True; normal m := m
|}.
Next Obligation. intros m _. constructor. Qed.
Next Obligation. done. Qed.
Next Obligation. intros m _. apply writes_none. Qed.
Next Obligation. by intros []. Qed.

#[export] Program Instance PublicServerConfig_laws : ProtoLaws pb.PublicServerConfig := {|
  items m := nonempty_item 1 (pb.Key m) ++ nonempty_item 2 (str (pb.Address m));
  in_range m := True;
  normal m := m
|}.
Next Obligation. intros m Hm. cbn. valid_fields. Qed.
Next Obligation. intros m Hm. size_fields PublicServerConfig_Size. Qed.
Next Obligation. intros m Hm. write_fields PublicServerConfig_MarshalTo. Qed.
Next Obligation. intros [key address] Hm _. cbn [fields new_message PublicServerConfig_message]. by read_fields. Qed.

#[export] Program Instance NewRoundResponse_laws : ProtoLaws pb.NewRoundResponse := {|
  items m := nonempty_item 1 (pb.OnionKey m);
  in_range m := True;
  normal m := m
|}.
Next Obligation. intros m Hm. cbn. valid_fields. Qed.
Next Obligation. intros m Hm. size_fields NewRoundResponse_Size. Qed.
Next Obligation. intros m Hm. write_fields NewRoundResponse_MarshalTo. Qed.
Next Obligation. intros [key] Hm _. cbn [fields new_message NewRoundResponse_message]. by read_fields. Qed.

#[export] Program Instance RoundSettingsSignature_laws : ProtoLaws pb.RoundSettingsSignature := {|
  items m := nonempty_item 1 (pb.Signature m);
  in_range m := True;
  normal m := m
|}.
Next Obligation. intros m Hm. cbn. valid_fields. Qed.
Next Obligation. intros m Hm. size_fields RoundSettingsSignature_Size. Qed.
Next Obligation. intros m Hm. write_fields RoundSettingsSignature_MarshalTo. Qed.
Next Obligation. intros [signature] Hm _. cbn [fields new_message RoundSettingsSignature_message]. by read_fields. Qed.

#[export] Program Instance CloseRoundRequest_laws : ProtoLaws pb.CloseRoundRequest := {|
  items m := nonempty_item 1 (str (pb.CloseRound_Service m)) ++ nonzero_item 2 (pb.CloseRound_Round m);
  in_range m := is_u32 (pb.CloseRound_Round m);
  normal m := m
|}.
Next Obligation. intros m Hm. cbn. valid_fields. Qed.
Next Obligation. intros m Hm. size_fields CloseRoundRequest_Size. Qed.
Next Obligation. intros m Hm. write_fields CloseRoundRequest_MarshalTo. Qed.
Next Obligation. intros [service round] Hm _. cbn [fields new_message CloseRoundRequest_message]. by read_fields. Qed.

#[export] Program Instance CloseRoundResponse_laws : ProtoLaws pb.CloseRoundResponse := {|
  items m := nonempty_item 1 (str (pb.Result m));
  in_range m := True;
  normal m := m
|}.
Next Obligation. intros m Hm. cbn. valid_fields. Qed.
Next Obligation. intros m Hm. size_fields CloseRoundResponse_Size. Qed.
Next Obligation. intros m Hm. write_fields CloseRoundResponse_MarshalTo. Qed.
Next Obligation. intros [result] Hm _. cbn [fields new_message CloseRoundResponse_message]. by read_fields. Qed.

#[export] Program Instance GetOnionsRequest_laws : ProtoLaws pb.GetOnionsRequest := {|
  items m := nonempty_item 1 (str (pb.GetOnions_Service m)) ++ nonzero_item 2 (pb.GetOnions_Round m) ++
             nonzero_item 3 (pb.GetOnions_Offset m) ++ nonzero_item 4 (pb.GetOnions_Count m);
  in_range m := is_u32 (pb.GetOnions_Round m) ∧ is_u32 (pb.GetOnions_Offset m) ∧ is_u32 (pb.GetOnions_Count m);
  normal m := m
|}.
Next Obligation. intros m Hm. cbn. valid_fields. Qed.
Next Obligation. intros m Hm. size_fields GetOnionsRequest_Size. Qed.
Next Obligation. intros m Hm. write_fields GetOnionsRequest_MarshalTo. Qed.
Next Obligation. intros [service round offset count] Hm _. cbn [fields new_message GetOnionsRequest_message]. by read_fields. Qed.

#[export] Program Instance DeleteRoundRequest_laws : ProtoLaws pb.DeleteRoundRequest := {|
  items m := nonempty_item 1 (str (pb.DeleteRound_Service m)) ++ nonzero_item 2 (pb.DeleteRound_Round m);
  in_range m := is_u32 (pb.DeleteRound_Round m);
  normal m := m
|}.
Next Obligation. intros m Hm. cbn. valid_fields. Qed.
Next Obligation. intros m Hm. size_fields DeleteRoundRequest_Size. Qed.
Next Obligation. intros m Hm. write_fields DeleteRoundRequest_MarshalTo. Qed.
Next Obligation. intros [service round] Hm _. cbn [fields new_message DeleteRoundRequest_message]. by read_fields. Qed.

(** The onions of a request append to those read before. *)
#[export] Program Instance AddOnionsRequest_laws : ProtoLaws pb.AddOnionsRequest := {|
  items m := nonzero_item 1 (pb.AddOnions_Offset m) ++ (IBytes 2 <$> pb.AddOnions_Onions m);
  in_range m := is_u32 (pb.AddOnions_Offset m);
  normal m := m
|}.
Next Obligation. intros m Hm. cbn. valid_fields. Qed.
Next Obligation. intros m Hm. size_fields AddOnionsRequest_Size. Qed.
Next Obligation. intros m Hm. write_fields AddOnionsRequest_MarshalTo. Qed.
Next Obligation.
  intros [offset onions] Hm _. cbn [fields new_message AddOnionsRequest_message]. rewrite acts_app.
  read_uint32_field. erewrite acts_repeated by reflexivity. by rewrite (foldl_append (pb.mkAddOnionsRequest _)).
Qed.

#[export] Program Instance GetOnionsResponse_laws : ProtoLaws pb.GetOnionsResponse := {|
  items m := nonzero_item 1 (pb.GetOnions_resp_Offset m) ++ (IBytes 2 <$> pb.GetOnions_resp_Onions m);
  in_range m := is_u32 (pb.GetOnions_resp_Offset m);
  normal m := m
|}.
Next Obligation. intros m Hm. cbn. valid_fields. Qed.
Next Obligation. intros m Hm. size_fields GetOnionsResponse_Size. Qed.
Next Obligation. intros m Hm. write_fields GetOnionsResponse_MarshalTo. Qed.
Next Obligation.
  intros [offset onions] Hm _. cbn [fields new_message GetOnionsResponse_message]. rewrite acts_app.
  read_uint32_field. erewrite acts_repeated by reflexivity. by rewrite (foldl_append (pb.mkGetOnionsResponse _)).
Qed.

(** An empty service data is not written, and comes back as none. *)
#[export] Program Instance RoundSettings_laws : ProtoLaws pb.RoundSettings := {|
  items m := nonempty_item 1 (str (pb.Service m)) ++ nonzero_item 2 (pb.Round m) ++
             (IBytes 3 <$> pb.OnionKeys m) ++ nonempty_item 4 (default [] (pb.ServiceData m));
  in_range m := is_u32 (pb.Round m);
  normal m := pb.mkRoundSettings (pb.Service m) (pb.Round m) (pb.OnionKeys m)
                (d ← pb.ServiceData m; if decide (0 < len d) then Some d else None)
|}.
Next Obligation. intros m Hm. cbn. valid_fields. Qed.
Next Obligation. intros m Hm. size_fields RoundSettings_Size. Qed.
Next Obligation. intros m Hm. write_fields RoundSettings_MarshalTo. Qed.
Next Obligation.
  intros [service round keys data] Hm _. cbn [fields new_message RoundSettings_message]. rewrite !acts_app.
  read_bytes_field. rewrite acts_app. read_uint32_field. rewrite acts_app. erewrite acts_repeated by reflexivity.
  rewrite (foldl_append (λ l, pb.mkRoundSettings _ _ l _)) by done. cbn [mbind option_bind].
  erewrite acts_nonempty by reflexivity. cbn -[to_string str len]. rewrite to_string_str.
  destruct data as [d|]; cbn -[len]; [by case_decide|done].
Qed.

#[export] Program Instance SetRoundSettingsRequest_laws : ProtoLaws pb.SetRoundSettingsRequest := {|
  items m := match pb.Settings m with Some s => [IBytes 1 (text (items s))] | None => [] end;
  in_range m := match pb.Settings m with Some s => in_range s | None => True end;
  normal m := pb.mkSetRoundSettingsRequest (normal <$> pb.Settings m)
|}.
Next Obligation. intros [[s|]] Hm; repeat constructor. Qed.
Next Obligation.
  intros [[s|]] Hm; [|done]. cbn [Size SetRoundSettingsRequest_message]. unfold SetRoundSettingsRequest_Size.
  cbn [pb.Settings]. by rewrite text_one, (size_ok s), (size_bytes_ok 1) by done.
Qed.
Next Obligation.
  intros [[s|]] Hm; [|apply writes_none]. cbn [MarshalTo SetRoundSettingsRequest_message].
  unfold SetRoundSettingsRequest_MarshalTo. cbn [pb.Settings]. rewrite text_one.
  apply writes_nested; [done..|by apply size_ok|by apply write_ok].
Qed.
Next Obligation.
  intros [[s|]] Hm Hl; [|done]. cbn [pb.Settings] in *. rewrite acts_cons. unfold act.
  pose proof (Unmarshal_part 1 s _ Hm (list_elem_of_here _ _) Hl) as E.
  cbn -[Unmarshal text items normal] in *. by rewrite E.
Qed.

#[export] Program Instance NewRoundRequest_laws : ProtoLaws pb.NewRoundRequest := {|
  items m := nonempty_item 1 (str (pb.NewRound_Service m)) ++ nonzero_item 2 (pb.NewRound_Round m) ++
             ((λ c, IBytes 3 (text (items c))) <$> pb.NewRound_Chain m);
  in_range m := is_u32 (pb.NewRound_Round m);
  normal m := m
|}.
Next Obligation.
  intros m Hm. cbn. apply Forall_app_2; [valid_fields|]. apply Forall_app_2; [valid_fields|].
  apply Forall_fmap, Forall_true. by repeat constructor.
Qed.
Next Obligation.
  intros m Hm. cbn [Size NewRoundRequest_message]. unfold NewRoundRequest_Size. rewrite !text_app, !len_app, Z.add_assoc.
  f_equal; [f_equal; [by apply size_nonempty_ok|apply size_nonzero_ok; ranges]|].
  transitivity (size_repeated (len <$> ((λ c, text (items c)) <$> pb.NewRound_Chain m))).
  - f_equal. rewrite <- list_fmap_compose. apply list_fmap_ext. intros i c _. by apply size_ok.
  - rewrite (size_repeated_ok 3) by lia. by rewrite <- list_fmap_compose.
Qed.
Next Obligation.
  intros m Hm. cbn [MarshalTo NewRoundRequest_message]. unfold NewRoundRequest_MarshalTo. rewrite !text_app.
  apply writes_seq; [by apply writes_nonempty|]. apply writes_seq; [apply writes_nonzero; ranges|].
  apply writes_each, Forall_true. intros c. apply writes_nested; [done..|by apply size_ok|by apply write_ok].
Qed.
Next Obligation.
  intros [service round chain] Hm Hl. cbn [fields new_message NewRoundRequest_message] in *. rewrite !acts_app.
  read_bytes_field. rewrite acts_app. read_uint32_field.
  rewrite (acts_each _ _ (λ c m, pb.mkNewRoundRequest (pb.NewRound_Service m) (pb.NewRound_Round m) (pb.NewRound_Chain m ++ [c]))).
  - rewrite (foldl_append (pb.mkNewRoundRequest _ _)) by done. cbn -[to_string str]. by rewrite to_string_str.
  - apply Forall_forall. intros c Hc m. unfold act.
    assert (Hin : IBytes 3 (text (items c)) ∈ (λ c, IBytes 3 (text (items c))) <$> chain)
      by (apply list_elem_of_fmap; by exists c).
    pose proof (Unmarshal_part 3 c _ I (proj2 (elem_of_app _ _ _) (or_intror (proj2 (elem_of_app _ _ _) (or_intror Hin)))) Hl) as E.
    cbn -[Unmarshal text items] in *. by rewrite E.
Qed.
