(* ===== verification/ProtoSafe.v ===== *)
(** * Any bytes as a message

    What the generated code does to bytes that are no message: it always returns, or panics at an
    announced length so large that an index overflows. *)

From Stdlib Require Import ZArith Lia.
From stdpp Require Import base numbers strings list.
From S2P Require Import Prelude Json GoStrings Pb ProtoWire ProtoMessages ProtoFacts ProtoLaws.

(** ** Numbers in a slice *)

Lemma lor_range w a b : 0 <= w → 0 <= a < 2 ^ w → 0 <= b < 2 ^ w → 0 <= Z.lor a b < 2 ^ w.
Proof.
  intros Hw Ha Hb. assert (E : Z.land (Z.lor a b) (Z.ones w) = Z.lor a b).
  { apply Z.bits_inj'. intros i Hi. rewrite Z.land_spec, Z.lor_spec.
    destruct (decide (i < w)) as [Hlt|Hge]; [by rewrite Z.ones_spec_low, andb_true_r by lia|].
    rewrite (Z.ones_spec_high w) by lia. rewrite andb_false_r. symmetry. apply orb_false_iff.
    split; rewrite <- (Z.mod_small _ (2 ^ w)) by eassumption; apply Z.mod_pow2_bits_high; lia. }
  rewrite <- E, Z.land_ones by done. apply Z.mod_pos_bound. lia.
Qed.

Lemma index_some dAtA i : 0 <= i < len dAtA → ∃ b, index dAtA i = Ret b ∧ dAtA !! Z.to_nat i = Some b.
Proof.
  intros Hi. unfold index, len in *. rewrite decide_True by lia.
  destruct (lookup_lt_is_Some_2 dAtA (Z.to_nat i)) as [b Hb]; [lia|]. exists b. by rewrite Hb.
Qed.

(** A number is in the slice, and is a number of [w] bits. *)
Lemma read_loop_spec w dAtA turns : ∀ shift acc i, 0 <= w → 0 <= i → 0 <= acc < 2 ^ w →
  match read_loop w dAtA turns shift acc i with
  | Ret (v, j) => i < j <= len dAtA ∧ 0 <= v < 2 ^ w
  | Err _ => True
  | _ => False
  end.
Proof.
  induction turns as [|turns IH]; intros shift acc i Hw Hi Ha; cbn [read_loop]; [done|]. case_decide; [done|].
  destruct (index_some dAtA i) as (b & -> & _); [lia|]. cbn [mbind outcome_bind].
  assert (Hacc : 0 <= Z.lor acc (Z.shiftl (Z.land (Z_of_byte b) 0x7F) shift mod 2 ^ w) < 2 ^ w)
    by (apply lor_range; [done..|apply Z.mod_pos_bound; lia]).
  case_decide; [lia|]. specialize (IH (shift + 7) _ (i + 1) Hw ltac:(lia) Hacc).
  destruct (read_loop _ _ _ _ _ _) as [[v j]| | |]; [|done..]. lia.
Qed.

Lemma read_varint_spec w dAtA i : 0 <= w → 0 <= i →
  match read_varint w dAtA i with
  | Ret (v, j) => i < j <= len dAtA ∧ 0 <= v < 2 ^ w
  | Err _ => True
  | _ => False
  end.
Proof. intros Hw Hi. apply read_loop_spec; [done..|]. split; [done|by apply Z.pow_pos_nonneg]. Qed.

(** In front of the slice there is nothing. *)
Lemma read_loop_neg w dAtA turns shift acc i : i < 0 → read_loop w dAtA (S turns) shift acc i = Panic.
Proof.
  intros Hi. cbn [read_loop]. pose proof (len_nonneg dAtA). rewrite decide_False by lia.
  unfold index. by rewrite decide_False by lia.
Qed.

Lemma read_varint_neg w dAtA i : i < 0 → read_varint w dAtA i = Panic.
Proof. apply read_loop_neg. Qed.

Lemma part_inv dAtA i j bs : part dAtA i j = Ret bs → 0 <= i <= j ∧ j <= len dAtA ∧ len bs = j - i.
Proof.
  unfold part. intros E. case_decide as Hd; [|done]. injection E as <-. unfold len in *.
  rewrite length_take, length_drop. lia.
Qed.

Lemma part_lookup dAtA i j bs k b :
  part dAtA i j = Ret bs → bs !! k = Some b → dAtA !! (Z.to_nat i + k)%nat = Some b.
Proof.
  unfold part. intros E Hb. case_decide; [|done]. injection E as <-.
  apply lookup_take_Some in Hb as [Hb _]. by rewrite lookup_drop in Hb.
Qed.

Lemma part_ok dAtA i j : 0 <= i <= j → j <= len dAtA → ∃ bs, part dAtA i j = Ret bs.
Proof. intros. unfold part. rewrite decide_True by lia. by eexists. Qed.

(** A number in a part of a slice is one of the slice. *)
Lemma read_loop_part w dAtA i j bs turns : part dAtA i j = Ret bs → ∀ shift acc k v k', 0 <= k →
  read_loop w bs turns shift acc k = Ret (v, k') → read_loop w dAtA turns shift acc (i + k) = Ret (v, i + k').
Proof.
  intros Hp. pose proof (part_inv _ _ _ _ Hp) as (Hi & Hj & Hl).
  induction turns as [|turns IH]; intros shift acc k v k' Hk; cbn [read_loop]; [done|]. case_decide; [done|].
  destruct (index_some bs k) as (b & -> & Hb); [lia|]. rewrite decide_False by lia.
  pose proof (part_lookup _ _ _ _ _ _ Hp Hb) as Hb'.
  unfold index. rewrite decide_True by lia. rewrite Z2Nat.inj_add, Hb' by lia. cbn [or_panic mbind outcome_bind].
  case_decide.
  - intros [= <- <-]. by rewrite Z.add_assoc.
  - intros E. rewrite <- Z.add_assoc. by apply IH; [lia|].
Qed.

Lemma read_varint_part w dAtA i j bs k v k' :
  part dAtA i j = Ret bs → 0 <= k → read_varint w bs k = Ret (v, k') → read_varint w dAtA (i + k) = Ret (v, i + k').
Proof. intros. by eapply read_loop_part. Qed.

(** No number of the slice is so large that it overflows an index up to [B] it is added to; one with the highest
    bit set is a negative length, and is refused. *)
Definition tame (B : Z) (dAtA : bytes) : Prop :=
  ∀ i v j, 0 <= i → read_varint 64 dAtA i = Ret (v, j) → v < 2 ^ 63 - B ∨ 2 ^ 63 <= v.

Lemma tame_part B dAtA i j bs : part dAtA i j = Ret bs → tame B dAtA → tame B bs.
Proof.
  intros Hp Ht k v k' Hk Hr. pose proof (part_inv _ _ _ _ Hp).
  eapply (Ht (i + k)); [lia|]. by eapply read_varint_part.
Qed.

(** ** [skipMixnet] *)

(** The index after a field is behind its start, or one that overflowed, which a tame slice rules out. *)
Definition skips (B : Z) (dAtA : bytes) (r : outcome wire_error Z) : Prop :=
  match r with
  | Ret n => (0 < n ∨ n <= - memory) ∧ - 2 ^ 63 <= n < 2 ^ 63 ∧ (tame B dAtA → 0 < n < len dAtA + (2 ^ 63 - B))
  | Err _ => True
  | Panic => ¬ tame B dAtA
  | Block => False
  end.

Lemma i64_range v : - 2 ^ 63 <= i64 v < 2 ^ 63.
Proof. unfold signed. pose proof (Z.mod_pos_bound (v + 2 ^ (64 - 1)) (2 ^ 64)). lia. Qed.

(** A sum with one overflow is negative. *)
Lemma i64_over v : 2 ^ 63 <= v < 2 ^ 63 + memory → i64 v = v - 2 ^ 64.
Proof.
  unfold memory. intros Hv. unfold signed. rewrite <- (Z.mod_add _ (-1)), Z.mod_small by lia. lia.
Qed.

Lemma skip_group_spec B skip dAtA :
  len dAtA <= B <= memory →
  (∀ bs, 0 < len bs < len dAtA → skips B bs (skip bs)) →
  ∀ fuel i, (0 < fuel)%nat → (0 < i ∧ len dAtA - i < Z.of_nat fuel) ∨ (i < 0 ∧ ¬ tame B dAtA) →
    skips B dAtA (skip_group skip dAtA fuel i).
Proof.
  unfold memory. intros HB Hskip. induction fuel as [|fuel IH]; intros i Hf Hi; [lia|]. cbn [skip_group].
  destruct Hi as [[Hi Hl]|[Hi Ht]]; [|by rewrite read_varint_neg].
  pose proof (read_varint_spec 64 dAtA i ltac:(lia) ltac:(lia)) as Hr.
  destruct (read_varint 64 dAtA i) as [[v j]|e| |]; [|done..]. cbn [mbind outcome_bind].
  case_decide; [cbn; lia|].
  destruct (part_ok dAtA i (len dAtA)) as [rest Hrest]; [lia..|]. rewrite Hrest. cbn [mbind outcome_bind].
  pose proof (part_inv _ _ _ _ Hrest) as (_ & _ & Hlen). specialize (Hskip rest ltac:(lia)).
  assert (Htame : tame B dAtA → tame B rest) by (intros; by eapply tame_part).
  destruct (skip rest) as [n|e| |]; cbn [skips mbind outcome_bind] in *; [|done|tauto|done].
  destruct Hskip as ([Hn|Hn] & Hrange & Hnt); unfold memory in *.
  - destruct (decide (i + n < 2 ^ 63)) as [Hs|Ho].
    + rewrite i64_small by lia. apply IH; lia.
    + rewrite i64_over by (unfold memory; lia). apply IH; [lia|right].
      split; [lia|intros Ht; specialize (Hnt (Htame Ht)); lia].
  - rewrite i64_small by lia. apply IH; [lia|right].
    split; [lia|intros Ht; specialize (Hnt (Htame Ht)); lia].
Qed.

(** A length is a number below [2 ^ 63], or negative. *)
Lemma i64_length v : 0 <= v < 2 ^ 64 → (v < 2 ^ 63 ∧ i64 v = v) ∨ (2 ^ 63 <= v ∧ i64 v < 0).
Proof.
  intros Hv. destruct (decide (v < 2 ^ 63)); [left; split; [done|apply i64_small; lia]|right; split; [lia|]].
  unfold signed. rewrite <- (Z.mod_add _ (-1)), Z.mod_small by lia. lia.
Qed.

Lemma len_lt_nat bs n : len bs < Z.of_nat n → (length bs < n)%nat.
Proof. unfold len. lia. Qed.

Lemma skip_fuel_spec B fuel : ∀ dAtA,
  0 < len dAtA <= B → B <= memory → (length dAtA < fuel)%nat → skips B dAtA (skip_fuel fuel dAtA).
Proof.
  unfold memory. induction fuel as [|fuel IH]; intros dAtA Hd HB Hf; [lia|]. cbn [skip_fuel].
  rewrite decide_False by lia. pose proof (read_varint_spec 64 dAtA 0 ltac:(lia) ltac:(lia)) as Hr.
  destruct (read_varint 64 dAtA 0) as [[wire i]| | |]; [|done..]. cbn [mbind outcome_bind].
  pose proof (read_varint_spec 64 dAtA i ltac:(lia) ltac:(lia)) as Hr2.
  case_decide; [destruct (read_varint 64 dAtA i) as [[v j]| | |]; [cbn; unfold memory; lia|done..]|].
  case_decide; [cbn; unfold memory; lia|]. case_decide.
  - destruct (read_varint 64 dAtA i) as [[v j]| | |] eqn:E; [|done..]. cbn [mbind outcome_bind].
    destruct (i64_length v ltac:(lia)) as [[Hv Ev]|[_ Ev]]; [|by rewrite decide_True by done].
    rewrite Ev, decide_False by lia.
    assert (Ht : tame B dAtA → v < 2 ^ 63 - B) by (intros Ht; destruct (Ht i v j ltac:(lia) E); lia).
    unfold skips, memory. destruct (decide (j + v < 2 ^ 63)).
    + rewrite i64_small by lia. split_and!; [lia..|intros Htame; specialize (Ht Htame); lia].
    + rewrite i64_over by (unfold memory; lia). split_and!; [lia..|intros Htame; specialize (Ht Htame); lia].
  - case_decide; [|repeat case_decide; cbn; unfold memory; lia].
    apply skip_group_spec; [unfold memory; lia| |lia|left; unfold len; lia].
    intros bs Hbs. apply IH; [lia|done|]. unfold len in *. lia.
Qed.

(** ** [Unmarshal] *)

(** It returns, with a message or an error; at worst it panics, on a slice that is not tame. *)
Definition returns {A} (B : Z) (dAtA : bytes) (r : outcome wire_error A) : Prop :=
  match r with Ret _ | Err _ => True | Panic => ¬ tame B dAtA | Block => False end.

Lemma returns_part {A} B dAtA i j bs (r : outcome wire_error A) :
  part dAtA i j = Ret bs → returns B bs r → returns B dAtA r.
Proof. intros Hp Hr. destruct r; try done. intros Ht. apply Hr. by eapply tame_part. Qed.

(** A field that is a message is read by the code of that message. *)
Class ProtoReturns M `{ProtoMessage M} := merge_returns : ∀ num name merge B bs m,
  fields num = Some (MessageField name merge) → len bs <= B <= memory → returns B bs (merge bs m).

Lemma read_bytes_spec B dAtA i :
  0 <= i → len dAtA <= B <= memory →
  match read_bytes dAtA i with
  | Ret (bs, j) => i < j <= len dAtA ∧ ∃ i', part dAtA i' j = Ret bs
  | Err _ => True
  | Panic => ¬ tame B dAtA
  | Block => False
  end.
Proof.
  unfold memory, read_bytes. intros Hi HB. pose proof (read_varint_spec 64 dAtA i ltac:(lia) Hi) as Hr.
  destruct (read_varint 64 dAtA i) as [[v j]| | |] eqn:E; [|done..]. cbn [mbind outcome_bind].
  destruct (i64_length v ltac:(lia)) as [[Hv Ev]|[_ Ev]]; [|by rewrite decide_True by done].
  rewrite Ev, decide_False by lia.
  destruct (decide (j + v < 2 ^ 63)).
  - rewrite i64_small by lia. case_decide; [done|]. destruct (part_ok dAtA j (j + v)) as [bs Hbs]; [lia..|].
    rewrite Hbs. split; [lia|by exists j].
  - rewrite i64_over by (unfold memory; lia). rewrite decide_False by lia. unfold part.
    rewrite decide_False by lia. intros Ht. destruct (Ht i v j Hi E); lia.
Qed.

Lemma read_field_spec `{ProtoReturns M} B num f t dAtA i (m : M) :
  fields num = Some f → 0 <= i → len dAtA <= B <= memory →
  match read_field f t dAtA i m with
  | Ret (_, j) => i < j <= len dAtA
  | Err _ => True
  | Panic => ¬ tame B dAtA
  | Block => False
  end.
Proof.
  intros Hf Hi HB. pose proof (read_bytes_spec B dAtA i Hi HB) as Hb.
  pose proof (read_varint_spec 32 dAtA i ltac:(lia) Hi) as Hv.
  destruct f as [name set|name set|name merge]; cbn [read_field]; (case_decide; [done|]).
  - destruct (read_bytes dAtA i) as [[bs j]| | |]; [cbn; tauto|done..].
  - destruct (read_varint 32 dAtA i) as [[v j]| | |]; [cbn; tauto|done..].
  - destruct (read_bytes dAtA i) as [[bs j]| | |]; [|done..]. cbn [mbind outcome_bind].
    destruct Hb as [Hj [i' Hp]]. pose proof (part_inv _ _ _ _ Hp).
    pose proof (returns_part _ _ _ _ _ _ Hp (merge_returns num name merge B bs m Hf ltac:(lia))) as Hm.
    by destruct (merge bs m).
Qed.

Lemma unmarshal_loop_spec `{ProtoReturns M} B msg dAtA : len dAtA <= B <= memory → ∀ fuel i (m : M),
  (0 < fuel)%nat → (0 <= i ∧ len dAtA - i < Z.of_nat fuel) ∨ (i < 0 ∧ ¬ tame B dAtA) →
  returns B dAtA (unmarshal_loop msg fields dAtA fuel i m).
Proof.
  intros HB. induction fuel as [|fuel IH]; intros i m Hf Hi; [lia|]. cbn [unmarshal_loop].
  case_decide as Hlt; [|by case_decide].
  destruct Hi as [[Hi Hl]|[Hi Ht]]; [|by rewrite read_varint_neg].
  pose proof (read_varint_spec 64 dAtA i ltac:(lia) Hi) as Hr.
  destruct (read_varint 64 dAtA i) as [[wire j]| | |]; [|done..]. cbn [mbind outcome_bind].
  case_decide; [done|]. case_decide; [done|].
  destruct (fields (i32 (Z.shiftr wire 3))) as [f|] eqn:Ef.
  - pose proof (read_field_spec B _ f (Z.land wire 7) dAtA j m Ef ltac:(lia) HB) as Hfield.
    destruct (read_field f (Z.land wire 7) dAtA j m) as [[m' k]| | |]; [|done..]. cbn [mbind outcome_bind].
    apply IH; lia.
  - destruct (part_ok dAtA i (len dAtA)) as [rest Hrest]; [lia..|]. rewrite Hrest. cbn [mbind outcome_bind].
    pose proof (part_inv _ _ _ _ Hrest) as (_ & _ & Hlen).
    pose proof (skip_fuel_spec B (S (length rest)) rest ltac:(lia) ltac:(lia) ltac:(lia)) as Hs.
    fold (skipMixnet rest) in Hs. assert (Htame : tame B dAtA → tame B rest) by (intros; by eapply tame_part).
    destruct (skipMixnet rest) as [n|e| |]; cbn [skips mbind outcome_bind] in *; [|done|exact (λ Ht, Hs (Htame Ht))|done].
    destruct Hs as (Hn & Hrange & Hnt). case_decide; [done|]. unfold memory in *.
    destruct (decide (i + n < 2 ^ 63)).
    + rewrite i64_small by lia. case_decide; [done|]. apply IH; lia.
    + rewrite i64_over by (unfold memory; lia). case_decide; [done|]. apply IH; [lia|right].
      split; [lia|intros Ht; specialize (Hnt (Htame Ht)); lia].
Qed.

Lemma Unmarshal_returns_any `{ProtoReturns M} B dAtA (m : M) :
  len dAtA <= B <= memory → returns B dAtA (Unmarshal dAtA m).
Proof. intros HB. apply unmarshal_loop_spec; [done|lia|left; unfold len; lia]. Qed.

Lemma returns_bind_ret {A C} B bs (r : outcome wire_error A) (f : A → C) :
  returns B bs r → returns B bs (x ← r; Ret (f x)).
Proof. by destruct r. Qed.

(** ** The messages *)

Ltac no_messages :=
  intros num name merge B bs m Hf _; exfalso; cbn in Hf;
  match type of Hf with ?f _ = _ => unfold f in Hf end; repeat case_match; simplify_eq.

#[export] Instance Nothing_returns : ProtoReturns unit.
Proof. no_messages. Qed.
#[export] Instance PublicServerConfig_returns : ProtoReturns pb.PublicServerConfig.
Proof. no_messages. Qed.
#[export] Instance NewRoundResponse_returns : ProtoReturns pb.NewRoundResponse.
Proof. no_messages. Qed.
#[export] Instance RoundSettings_returns : ProtoReturns pb.RoundSettings.
Proof. no_messages. Qed.
#[export] Instance RoundSettingsSignature_returns : ProtoReturns pb.RoundSettingsSignature.
Proof. no_messages. Qed.
#[export] Instance AddOnionsRequest_returns : ProtoReturns pb.AddOnionsRequest.
Proof. no_messages. Qed.
#[export] Instance CloseRoundRequest_returns : ProtoReturns pb.CloseRoundRequest.
Proof. no_messages. Qed.
#[export] Instance CloseRoundResponse_returns : ProtoReturns pb.CloseRoundResponse.
Proof. no_messages. Qed.
#[export] Instance GetOnionsRequest_returns : ProtoReturns pb.GetOnionsRequest.
Proof. no_messages. Qed.
#[export] Instance GetOnionsResponse_returns : ProtoReturns pb.GetOnionsResponse.
Proof. no_messages. Qed.
#[export] Instance DeleteRoundRequest_returns : ProtoReturns pb.DeleteRoundRequest.
Proof. no_messages. Qed.

#[export] Instance NewRoundRequest_returns : ProtoReturns pb.NewRoundRequest.
Proof.
  intros num name merge B bs m Hf HB. cbn in Hf. unfold NewRoundRequest_fields in Hf.
  repeat case_match; simplify_eq. by apply returns_bind_ret, Unmarshal_returns_any.
Qed.

#[export] Instance SetRoundSettingsRequest_returns : ProtoReturns pb.SetRoundSettingsRequest.
Proof.
  intros num name merge B bs m Hf HB. cbn in Hf. unfold SetRoundSettingsRequest_fields in Hf.
  repeat case_match; simplify_eq. by apply returns_bind_ret, Unmarshal_returns_any.
Qed.

(** ** Whether a slice is tame *)

Definition tameb (B : Z) (dAtA : bytes) : bool :=
  forallb (λ i, match read_varint 64 dAtA (Z.of_nat i) with
                | Ret (v, _) => (v <? 2 ^ 63 - B) || (2 ^ 63 <=? v)
                | _ => true
                end) (seq 0 (length dAtA)).

Lemma tameb_tame B dAtA : tameb B dAtA = true → tame B dAtA.
Proof.
  intros Ht i v j Hi Hr. pose proof (read_varint_spec 64 dAtA i ltac:(lia) Hi) as Hs. rewrite Hr in Hs.
  unfold tameb in Ht. rewrite forallb_forall in Ht. specialize (Ht (Z.to_nat i)). rewrite Z2Nat.id, Hr in Ht by done.
  assert (Hin : In (Z.to_nat i) (seq 0 (length dAtA))) by (apply in_seq; unfold len in Hs; lia).
  specialize (Ht Hin). lia.
Qed.

(** ** Properties *)

(** [Marshal] writes [m] as so many bytes as [Size] says; they are the text of some fields, and [Unmarshal] makes [m']
    of them, also when fields that the message does not have, of any numbers and values, are among them. *)
Definition comes_back `{ProtoMessage M} (m m' : M) : Prop :=
  ∃ its, Marshal m = Ret (text its) ∧ len (text its) = Size m ∧
    Unmarshal (text its) new_message = Ret m' ∧
    ∀ its', known (M := M) fields its' = its → Forall valid_item its' → len (text its') < memory →
      Unmarshal (text its') new_message = Ret m'.

Lemma laws_come_back `{ProtoLaws M} (m m' : M) :
  in_range m → normal m = m' → Size m < memory → comes_back m m'.
Proof.
  intros Hm <- Hl. rewrite (size_ok m Hm) in *. exists (items m). split_and!.
  - by apply Marshal_text.
  - symmetry. by apply size_ok.
  - by apply Unmarshal_items.
  - intros its Hk Hv Hits. by apply Unmarshal_text.
Qed.

(** What comes back of settings: the slice of no service data and the nil slice are written alike. *)
Definition without_empty_data (s : pb.RoundSettings) : pb.RoundSettings :=
  pb.mkRoundSettings (pb.Service s) (pb.Round s) (pb.OnionKeys s)
    (match pb.ServiceData s with Some [] => None | data => data end).

Lemma normal_settings s : normal s = without_empty_data s.
Proof.
  unfold without_empty_data. cbn -[len]. f_equal. destruct (pb.ServiceData s) as [[|b d]|]; [done| |done].
  cbn -[len]. by rewrite decide_True by (unfold len; cbn; lia).
Qed.

(** C20. Every message of the protocol survives the wire: what Marshal writes has the size that Size says, and
    Unmarshal makes the same message of it, also with unknown fields anywhere among its own. Only an empty service data
    of the settings comes back as a nil one. *)
Theorem wire_roundtrip :
  comes_back () () ∧
  (∀ m : pb.PublicServerConfig, Size m < memory → comes_back m m) ∧
  (∀ m : pb.NewRoundRequest, is_u32 (pb.NewRound_Round m) → Size m < memory → comes_back m m) ∧
  (∀ m : pb.NewRoundResponse, Size m < memory → comes_back m m) ∧
  (∀ m : pb.RoundSettings, is_u32 (pb.Round m) → Size m < memory → comes_back m (without_empty_data m)) ∧
  (∀ m : pb.SetRoundSettingsRequest, (∀ s, pb.Settings m = Some s → is_u32 (pb.Round s)) → Size m < memory →
     comes_back m (pb.mkSetRoundSettingsRequest (without_empty_data <$> pb.Settings m))) ∧
  (∀ m : pb.RoundSettingsSignature, Size m < memory → comes_back m m) ∧
  (∀ m : pb.AddOnionsRequest, is_u32 (pb.AddOnions_Offset m) → Size m < memory → comes_back m m) ∧
  (∀ m : pb.CloseRoundRequest, is_u32 (pb.CloseRound_Round m) → Size m < memory → comes_back m m) ∧
  (∀ m : pb.CloseRoundResponse, Size m < memory → comes_back m m) ∧
  (∀ m : pb.GetOnionsRequest, is_u32 (pb.GetOnions_Round m) → is_u32 (pb.GetOnions_Offset m) →
     is_u32 (pb.GetOnions_Count m) → Size m < memory → comes_back m m) ∧
  (∀ m : pb.GetOnionsResponse, is_u32 (pb.GetOnions_resp_Offset m) → Size m < memory → comes_back m m) ∧
  (∀ m : pb.DeleteRoundRequest, is_u32 (pb.DeleteRound_Round m) → Size m < memory → comes_back m m).
Proof.
  split_and!; intros; apply laws_come_back; try done.
  - apply normal_settings.
  - destruct m as [[s|]]; [by apply H|done].
  - destruct m as [[s|]]; [|done]. cbn [normal SetRoundSettingsRequest_laws pb.Settings fmap option_fmap option_map].
    by rewrite normal_settings.
Qed.

(** C21. Whatever bytes come as whatever message, Unmarshal ends; unless they hold a number so close below 2^63 that
    an index into them plus this length overflows an int, it returns the message or an error, without a panic. *)
Theorem Unmarshal_any_bytes `{ProtoReturns M} (dAtA : bytes) (m : M) :
  len dAtA <= memory →
  Unmarshal dAtA m ≠ Block ∧
  (tame (len dAtA) dAtA → (∃ m', Unmarshal dAtA m = Ret m') ∨ ∃ e, Unmarshal dAtA m = Err e).
Proof.
  intros Hl. pose proof (Unmarshal_returns_any (len dAtA) dAtA m ltac:(lia)) as Hr.
  destruct (Unmarshal dAtA m) as [m'|e| |]; cbn in Hr; [|..|done]; (split; [done|]); intros Ht;
    [left|right|by destruct Hr]; by eexists.
Qed.

(** A length-delimited field whose length wraps the index around: the check against the length of the slice passes,
    and the slice expression panics. *)
Theorem Unmarshal_huge_length_panics `{ProtoMessage M} num (f : field M) v rest (m : M) :
  fields num = Some f → (∀ name set, f ≠ Uint32Field name set) → 0 < num < 2 ^ 29 →
  let tag := varint (num * 8 + 2) in
  v < 2 ^ 63 <= len (tag ++ varint v) + v → len (tag ++ varint v ++ rest) < memory →
  Unmarshal (tag ++ varint v ++ rest) m = Panic.
Proof.
  intros Hf Hne Hn tag Hv Hl. pose proof (len_nonneg rest) as Hrest.
  assert (Htag : (1 ≤ length tag ≤ 10)%nat) by apply length_varint.
  assert (Hd : (1 ≤ length (varint v) ≤ 10)%nat) by apply length_varint.
  unfold memory in *. rewrite !len_app in *. unfold Unmarshal, unmarshal.
  set (dAtA := tag ++ varint v ++ rest). cbn [unmarshal_loop].
  rewrite decide_True by (unfold dAtA; rewrite !len_app; unfold len in *; lia).
  assert (Etag : read_varint 64 dAtA 0 = Ret (num * 8 + 2, len tag)).
  { pose proof (read_varint_ok 64 (num * 8 + 2) [] (varint v ++ rest) ltac:(lia) ltac:(lia)) as E.
    by rewrite Z.mod_small in E by lia. }
  rewrite Etag. cbn [mbind outcome_bind].
  pose proof (tag_num (IBytes num []) (conj Hn I)) as En. pose proof (tag_type (IBytes num [])) as Et.
  cbn [item_num item_type] in En, Et. rewrite En, Et, decide_False, decide_False, Hf by lia.
  assert (Eb : read_bytes dAtA (len tag) = Panic).
  { unfold read_bytes, dAtA. unfold len in Hv. rewrite read_varint_ok by lia. cbn [mbind outcome_bind].
    rewrite Z.mod_small, (i64_small v), decide_False by lia. rewrite i64_over by (unfold len, memory; lia).
    rewrite decide_False by (unfold len; lia). unfold part. by rewrite decide_False by (unfold len; lia). }
  destruct f as [name set|name set|name merge]; [|by destruct (Hne name set)|]; cbn [read_field];
    by rewrite decide_False, Eb by (intros []; done).
Qed.

(** ** On concrete messages *)

Definition a_chain : pb.NewRoundRequest :=
  pb.mkNewRoundRequest "Convo" 300 [pb.mkPublicServerConfig [x01; x02] "localhost:2718"; pb.mkPublicServerConfig [] ""].

Definition a_request : pb.GetOnionsRequest := pb.mkGetOnionsRequest "Convo" 7 300 0.

Lemma wire_roundtrip_witness : comes_back a_chain a_chain ∧ comes_back a_request a_request.
Proof.
  destruct wire_roundtrip as (_ & _ & Hchain & _ & _ & _ & _ & _ & _ & _ & Hget & _).
  split; [apply Hchain; [split; [discriminate|reflexivity]|reflexivity]|].
  apply Hget; [split; [discriminate|reflexivity]..|reflexivity].
Defined.

(** Unknown fields at the start, in the middle and at the end. *)
Example unknown_fields_are_skipped :
  Unmarshal (text [IVarint 1000 (2 ^ 64 - 1); IBytes 1 (str "Convo"); IFixed32 77 [x01; x02; x03; x04]; IVarint 2 7;
                   IVarint 3 300; IBytes 5 [xff; xff]]) new_message = Ret a_request.
Proof. vm_compute. reflexivity. Qed.

Definition some_bytes : bytes := [x0a; x7f; x01; xff; xff; xff; x0b; x0c].

Lemma Unmarshal_any_bytes_witness :
  Unmarshal some_bytes a_chain ≠ Block ∧
  ((∃ m', Unmarshal some_bytes a_chain = Ret m') ∨ ∃ e, Unmarshal some_bytes a_chain = Err e).
Proof.
  destruct (Unmarshal_any_bytes some_bytes a_chain) as [Hb Ht]; [discriminate|]. split; [exact Hb|].
  apply Ht. apply tameb_tame. vm_compute. reflexivity.
Defined.

(** Eleven bytes bring a server down: the field Service with the length 2^63 - 1. *)
Example eleven_bytes :
  Unmarshal ([x0a] ++ [xff; xff; xff; xff; xff; xff; xff; xff; x7f] ++ [x00]) (new_message : pb.CloseRoundRequest) = Panic.
Proof. vm_compute. reflexivity. Qed.

Example settings_on_the_wire :
  let s := pb.mkRoundSettings "Convo" 300 [[x01; x02]; []] (Some [x09]) in
  Marshal s = Ret ([x0a; x05] ++ str "Convo" ++ [x10; xac; x02; x1a; x02; x01; x02; x1a; x00; x22; x01; x09]) ∧
  (data ← Marshal (pb.mkSetRoundSettingsRequest (Some s)); Unmarshal data new_message) =
    Ret (pb.mkSetRoundSettingsRequest (Some s)).
Proof. vm_compute. done. Qed.

(** A request without its settings is an empty message. *)
Example no_settings : Unmarshal [] new_message = Ret (pb.mkSetRoundSettingsRequest None).
Proof. vm_compute. done. Qed.
