(* ===== verification/Settings.v ===== *)
(** * Round settings and nonces (mixnet/settings.go, mixnet/mixnet.go)

    [RoundSettings] and [PublicServerConfig] with their conversions to and from the
    protobuf messages, and the two nonces of a round. *)

From Stdlib Require Import ZArith Lia.
From stdpp Require Import base numbers strings sets list.
From S2P Require Import Prelude GoStd Json Pb.

(** An [interface{}] value: the dynamic types the services put in one. *)
Inductive interface :=
| inil
| ibytess (xs : list bytes)       (* [][]byte *)
| istring (s : string).

(** [OnionKeys] is a slice of pointers, [None] the nil pointer; [RawServiceData] is
    [None] where it is the nil slice. *)
Record RoundSettings := mkRoundSettings {
  Service : string;
  Round : Z;
  OnionKeys : list (option bytes);
  RawServiceData : option bytes;
  ServiceData : interface
}.

Record PublicServerConfig := mkPublicServerConfig { Key : bytes; Address : string }.

#[export] Instance PublicServerConfig_eq_dec : EqDecision PublicServerConfig.
Proof. solve_decision. Defined.

Definition PublicKeySize : nat := 32.

Inductive settings_error :=
| WrongKeySize (i got want : nat)
| InvalidServerKey (key : bytes).

(** ** Conversions *)

(** The loop of [FromProto]: a fresh 32-byte array per key, filled with [copy]; the
    key is stored unless the copy was short. [OnionKeys] has been made already. *)
Fixpoint FromProto_keys (i : nat) (pbkeys : list bytes) : go RoundSettings settings_error unit :=
  match pbkeys with
  | [] => mret ()
  | pbkey :: pbkeys =>
      let key := go_copy (replicate 32 x00) pbkey in
      let n := Nat.min 32 (length pbkey) in
      if decide (n ≠ 32)%nat then throw (WrongKeySize i n 32)
      else
        modify (λ s, mkRoundSettings (Service s) (Round s) (<[i := Some key]> (OnionKeys s))
                                     (RawServiceData s) (ServiceData s));;
        FromProto_keys (S i) pbkeys
  end.

Definition FromProto (pbs : pb.RoundSettings) : go RoundSettings settings_error unit :=
  modify (λ s, mkRoundSettings (pb.Service pbs) (pb.Round pbs)
                 (replicate (length (pb.OnionKeys pbs)) None) (RawServiceData s) (ServiceData s));;
  FromProto_keys 0 (pb.OnionKeys pbs);;
  modify (λ s, mkRoundSettings (Service s) (Round s) (OnionKeys s)
                 (pb.ServiceData pbs) (ServiceData s)).

(** [key[:]] panics on a nil pointer. *)
Definition Proto {E} (s : RoundSettings) : outcome E pb.RoundSettings :=
  keys ← or_panic (mapM id (OnionKeys s));
  Ret (pb.mkRoundSettings (Service s) (Round s) keys (RawServiceData s)).

(** The zero value a handler declares before [FromProto]. *)
Definition zero_settings : RoundSettings := mkRoundSettings "" 0 [] None inil.

Definition PublicServerConfig_Proto (c : PublicServerConfig) : pb.PublicServerConfig :=
  pb.mkPublicServerConfig (Key c) (Address c).

Definition PublicServerConfig_FromProto (pbc : pb.PublicServerConfig)
    : go PublicServerConfig settings_error unit :=
  if decide (length (pb.Key pbc) ≠ PublicKeySize) then throw (InvalidServerKey (pb.Key pbc))
  else put (mkPublicServerConfig (pb.Key pbc) (pb.Address pbc)).

(** ** The signing message *)

Definition json_field (name : string) : bytes := json_string (str name) ++ [x3a].

(** The prefix, then the JSON of the struct as [json.Encoder] writes it: the fields in
    their order, [ServiceData] left out, a newline at the end. A slice of keys that is nil would
    be null where an empty one is []; wherever the program fills in the keys it makes the slice
    ([NewRound] of the mixnet client, [FromProto]), so that [OnionKeys] is a list. *)
Definition SigningMessage (s : RoundSettings) : bytes :=
  str "RoundSettings" ++ [x7b] ++
  json_field "Service" ++ json_string (str (Service s)) ++ [x2c] ++
  json_field "Round" ++ json_number (Round s) ++ [x2c] ++
  json_field "OnionKeys" ++ json_array (json_option json_byte_array) (OnionKeys s) ++ [x2c] ++
  json_field "RawServiceData" ++ json_option json_bytes (RawServiceData s) ++
  [x7d; x0a].

Arguments SigningMessage : simpl never.

(** ** Nonces *)

Definition ForwardNonce (round : Z) : bytes :=
  let nonce := replicate 24 x00 in
  let nonce := copy_into 0 4 nonce (BigEndian.put32 round) in
  <[4%nat := x00]> nonce.

Definition BackwardNonce (round : Z) : bytes :=
  let nonce := replicate 24 x00 in
  let nonce := copy_into 0 4 nonce (BigEndian.put32 round) in
  <[4%nat := x01]> nonce.

(** ** Lemmas *)

(** Every key is a 32-byte array. *)
Definition wf_keys (keys : list (option bytes)) : Prop :=
  Forall (λ k, ∃ b, k = Some b ∧ length b = 32%nat) keys.

(** The loop on keys that are long enough: each key is cut to 32 bytes. *)
Lemma FromProto_keys_ok i pbkeys s :
  Forall (λ k, 32 ≤ length k)%nat pbkeys →
  length (OnionKeys s) = (i + length pbkeys)%nat →
  FromProto_keys i pbkeys s =
    (mkRoundSettings (Service s) (Round s) (take i (OnionKeys s) ++ (Some ∘ take 32 <$> pbkeys))
                     (RawServiceData s) (ServiceData s), Ret ()).
Proof.
  revert i s. induction pbkeys as [|k pbkeys IH]; intros i s Hk Hl; cbn [FromProto_keys].
  - rewrite take_ge by (simpl in Hl; lia). destruct s; simpl. by rewrite app_nil_r.
  - apply Forall_cons in Hk as [Hk Hks]. cbn [length] in Hl.
    rewrite decide_False by lia. rewrite go_bind_unfold. cbn [modify].
    rewrite IH; [|done|cbn; len]. cbn. do 2 f_equal.
    rewrite (go_copy_all _ k) by len.
    rewrite (take_S_r _ _ (Some (take 32 k))) by (apply list_lookup_insert_eq; lia).
    rewrite take_insert_ge by lia. by rewrite <- app_assoc.
Qed.

(** ... and it stops at the first key that is too short, before storing it. *)
Lemma FromProto_keys_short i pre k post s :
  Forall (λ k, 32 ≤ length k)%nat pre → (length k < 32)%nat →
  length (OnionKeys s) = (i + length pre + S (length post))%nat →
  (FromProto_keys i (pre ++ k :: post) s).2 = Err (WrongKeySize (i + length pre) (length k) 32).
Proof.
  revert i s. induction pre as [|k0 pre IH]; intros i s Hpre Hk Hl; cbn [FromProto_keys app].
  - rewrite decide_True, Nat.min_r, Nat.add_0_r by lia. done.
  - apply Forall_cons in Hpre as [Hk0 Hpre]. cbn [length] in *.
    rewrite decide_False by lia. rewrite go_bind_unfold. cbn [modify].
    rewrite IH; [by rewrite Nat.add_succ_comm|done..|cbn; len].
Qed.

Lemma Proto_wf {E} s :
  wf_keys (OnionKeys s) →
  ∃ keys, OnionKeys s = Some <$> keys ∧ Forall (λ k, length k = 32%nat) keys ∧
    Proto (E:=E) s = Ret (pb.mkRoundSettings (Service s) (Round s) keys (RawServiceData s)).
Proof.
  intros Hw.
  assert (∃ keys, OnionKeys s = Some <$> keys ∧ Forall (λ k, length k = 32%nat) keys)
    as (keys & E1 & Hk).
  { induction Hw as [|k ks (b & -> & Hb) _ (keys & -> & Hk)]; [by exists []|].
    exists (b :: keys). split; [done|]. by constructor. }
  exists keys. split; [done|]. split; [done|]. unfold Proto. rewrite E1.
  by rewrite mapM_id_Some.
Qed.

Lemma length_ForwardNonce r : length (ForwardNonce r) = 24%nat.
Proof. unfold ForwardNonce. rewrite length_insert, length_copy_into by len. len. Qed.

Lemma length_BackwardNonce r : length (BackwardNonce r) = 24%nat.
Proof. unfold BackwardNonce. rewrite length_insert, length_copy_into by len. len. Qed.

(** A nonce written out: the round, the direction, zeros. *)
Lemma nonce_app d r :
  <[4%nat := d]> (copy_into 0 4 (replicate 24 x00) (BigEndian.put32 r)) =
    BigEndian.put32 r ++ d :: replicate 19 x00.
Proof.
  unfold copy_into. cbn [take app]. rewrite drop_0, go_copy_exact by len.
  rewrite insert_app_r_alt by len. by len.
Qed.

Lemma ForwardNonce_app r : ForwardNonce r = BigEndian.put32 r ++ x00 :: replicate 19 x00.
Proof. apply nonce_app. Qed.

Lemma BackwardNonce_app r : BackwardNonce r = BigEndian.put32 r ++ x01 :: replicate 19 x00.
Proof. apply nonce_app. Qed.

#[export] Hint Rewrite length_ForwardNonce length_BackwardNonce : len.

(** The two composite values of the signing message are uniquely readable. *)
Lemma readable_onion_keys a b r r' :
  json_array (json_option json_byte_array) a ++ r = json_array (json_option json_byte_array) b ++ r' →
  a = b ∧ r = r'.
Proof.
  assert (Hb : ∀ c, c ≠ x5b → starts_not (λ _, True) json_byte_array c).
  { intros c Hc [|x l] _; do 2 eexists; (split; [reflexivity|done]). }
  assert (Ho : ∀ c, c ≠ x5b → c ≠ x6e → starts_not (λ _, True) (json_option json_byte_array) c).
  { intros c Hc Hn [x|] _; [by apply Hb|]. do 2 eexists. split; [reflexivity|done]. }
  apply (readable_array (λ _, True)); [|by apply Ho|by apply Forall_true..|done|done].
  intros o o' s s' _ _ _ _. apply (readable_option (λ _, True) json_byte_array anything);
    [apply readable_byte_array|by apply Hb|by destruct o|by destruct o'|done|done].
Qed.

Lemma readable_raw_data a b r r' :
  json_option json_bytes a ++ r = json_option json_bytes b ++ r' → a = b ∧ r = r'.
Proof.
  apply (readable_option (λ _, True) json_bytes anything);
    [apply readable_bytes| |by destruct a|by destruct b|done|done].
  intros x _. do 2 eexists. split; [reflexivity|done].
Qed.

(** ** Properties *)

(** What [Proto] writes, [FromProto] reads back, into any value: all fields but
    the parsed service data, which is not sent. *)
Theorem RoundSettings_roundtrip (s s0 : RoundSettings) :
  wf_keys (OnionKeys s) →
  ∃ pbs, Proto (E:=settings_error) s = Ret pbs ∧
    FromProto pbs s0 =
      (mkRoundSettings (Service s) (Round s) (OnionKeys s) (RawServiceData s) (ServiceData s0),
       Ret ()).
Proof.
  intros (keys & E & Hk & HP)%(Proto_wf (E:=settings_error)). eexists. split; [exact HP|].
  unfold FromProto. rewrite !go_bind_unfold. cbn [modify]. rewrite go_bind_unfold.
  rewrite FromProto_keys_ok; [|eapply Forall_impl; [exact Hk|]; cbn; lia|cbn; len].
  cbn. rewrite E. do 3 f_equal. rewrite Forall_forall in Hk.
  apply list_fmap_ext. intros i k Hi. cbn. f_equal. apply take_ge.
  rewrite (Hk k); [lia|]. by eapply list_elem_of_lookup_2.
Qed.

Definition example_settings : RoundSettings :=
  mkRoundSettings "Convo" 7 [Some (replicate 32 x01); Some (replicate 32 x02)] (Some [x05]) inil.

Lemma RoundSettings_roundtrip_witness :
  wf_keys (OnionKeys example_settings) ∧
  ∃ pbs, Proto (E:=settings_error) example_settings = Ret pbs ∧
    FromProto pbs zero_settings = (example_settings, Ret ()).
Proof.
  assert (H : wf_keys (OnionKeys example_settings)) by (repeat constructor; eauto).
  split; [exact H|]. exact (RoundSettings_roundtrip example_settings zero_settings H).
Defined.

(** The size check of [FromProto] sees keys that are too short, and reports the first
    of them with its position and size; a key that is too long it cannot see, because
    [copy] reports at most 32 bytes: the key is cut to its first 32 bytes and accepted. *)
Theorem FromProto_key_sizes (pre post : list bytes) (k : bytes) service round data (s0 : RoundSettings) :
  Forall (λ k, 32 ≤ length k)%nat pre → Forall (λ k, 32 ≤ length k)%nat post →
  let pbs := pb.mkRoundSettings service round (pre ++ k :: post) data in
  ((length k < 32)%nat → (FromProto pbs s0).2 = Err (WrongKeySize (length pre) (length k) 32)) ∧
  ((32 ≤ length k)%nat → FromProto pbs s0 =
     (mkRoundSettings service round (Some ∘ take 32 <$> pre ++ k :: post) data (ServiceData s0),
      Ret ())).
Proof.
  intros Hpre Hpost pbs. subst pbs. unfold FromProto. rewrite !go_bind_unfold.
  cbn [modify pb.OnionKeys]. rewrite go_bind_unfold. split; intros Hk.
  - pose proof (FromProto_keys_short 0 pre k post
      (mkRoundSettings service round (replicate (length (pre ++ k :: post)) None)
         (RawServiceData s0) (ServiceData s0)) Hpre Hk ltac:(cbn; len)) as E.
    cbn [pb.Service pb.Round]. destruct (FromProto_keys _ _ _) as [s1 o]. cbn in E. by subst o.
  - rewrite FromProto_keys_ok; [done| |cbn; len].
    apply Forall_app. split; [done|]. by constructor.
Qed.

Lemma FromProto_key_sizes_witness :
  (FromProto (pb.mkRoundSettings "Convo" 7 [replicate 32 x01; [x02]] None) zero_settings).2
    = Err (WrongKeySize 1 1 32) ∧
  FromProto (pb.mkRoundSettings "Convo" 7 [replicate 32 x01; replicate 40 x02] None) zero_settings
    = (mkRoundSettings "Convo" 7 [Some (replicate 32 x01); Some (replicate 32 x02)] None inil, Ret ()).
Proof.
  assert (H : Forall (λ k, 32 ≤ length k)%nat [replicate 32 x01]) by (repeat constructor).
  split.
  - apply (FromProto_key_sizes [replicate 32 x01] [] [x02] "Convo" 7 None zero_settings H
             ltac:(constructor)). cbn. lia.
  - apply (FromProto_key_sizes [replicate 32 x01] [] (replicate 40 x02) "Convo" 7 None zero_settings H
             ltac:(constructor)). cbn. lia.
Defined.

(** C15. What a server signs binds the round: two settings with the same signing message
    have the same service, round, onion keys and raw service data. So a client that
    checks the signatures of all servers and a server that signs agree on everything
    that was signed; only the parsed service data is outside the signature. *)
Theorem SigningMessage_injective (s s' : RoundSettings) :
  valid_utf8 (str (Service s)) = true → valid_utf8 (str (Service s')) = true →
  is_u32 (Round s) → is_u32 (Round s') →
  SigningMessage s = SigningMessage s' →
  Service s = Service s' ∧ Round s = Round s' ∧ OnionKeys s = OnionKeys s' ∧
  RawServiceData s = RawServiceData s'.
Proof.
  intros Hu Hu' Hr Hr' E. unfold SigningMessage in E. do 3 apply app_inv_head in E.
  apply readable_string in E as [Es E]; [|done..]. do 2 apply app_inv_head in E.
  apply readable_number in E as [Er E]; [|done|done|cbn; set_solver..].
  do 2 apply app_inv_head in E. apply readable_onion_keys in E as [Ek E].
  do 2 apply app_inv_head in E. apply readable_raw_data in E as [Ed _].
  split; [by apply str_inj|]. done.
Qed.

Lemma SigningMessage_injective_witness :
  valid_utf8 (str (Service example_settings)) = true ∧ is_u32 (Round example_settings) ∧
  ∀ s', valid_utf8 (str (Service s')) = true → is_u32 (Round s') →
    SigningMessage example_settings = SigningMessage s' → Round s' = 7.
Proof.
  assert (Hu : valid_utf8 (str (Service example_settings)) = true) by reflexivity.
  assert (Hr : is_u32 (Round example_settings)) by (unfold is_u32; cbn; lia).
  split; [exact Hu|]. split; [exact Hr|]. intros s' Hu' Hr' E.
  destruct (SigningMessage_injective example_settings s' Hu Hu' Hr Hr' E) as (_ & E' & _).
  rewrite <- E'. reflexivity.
Defined.

(** A nonce belongs to one round and one direction: no two rounds share one, and
    the nonce of an onion is never that of a reply. *)
Theorem nonces_distinct (r r' : Z) :
  is_u32 r → is_u32 r' →
  (ForwardNonce r = ForwardNonce r' → r = r') ∧
  (BackwardNonce r = BackwardNonce r' → r = r') ∧
  ForwardNonce r ≠ BackwardNonce r'.
Proof.
  intros Hr Hr'. rewrite !ForwardNonce_app, !BackwardNonce_app.
  assert (Hinj : ∀ d d', BigEndian.put32 r ++ d :: replicate 19 x00 =
                    BigEndian.put32 r' ++ d' :: replicate 19 x00 → r = r' ∧ d = d').
  { intros d d' E. apply app_inj_1 in E as [E1 E2]; [|by len].
    split; [by apply BigEndian.put32_inj|congruence]. }
  split; [|split].
  - intros E. by apply Hinj in E as [-> _].
  - intros E. by apply Hinj in E as [-> _].
  - intros E. by apply Hinj in E as [_ E].
Qed.

Lemma nonces_distinct_witness :
  is_u32 7 ∧ is_u32 7 ∧ ForwardNonce 7 ≠ BackwardNonce 7.
Proof.
  assert (H : is_u32 7) by (unfold is_u32; lia).
  split; [done|]. split; [done|]. exact (proj2 (proj2 (nonces_distinct 7 7 H H))).
Defined.
