(* ===== verification/Convo.v ===== *)
(** * The conversation service (convo/mixer.go, convo/noise.go)

    [DeadDropMessage] and its wire form, the dead-drop exchange of the last server
    ([HandleMessages]) and the noise of the other servers ([GenerateNoise],
    [FillWithFakeSingles], [FillWithFakeDoubles]). The two parallel loops of the
    package run under an arbitrary schedule ([Concurrency]).

    The abstract exchange ([exchange]) says which message each reply carries; the
    theorems of [HandleMessages] are stated against it. *)

From Stdlib Require Import ZArith Lia.
From stdpp Require Import base numbers strings gmap fin_maps list.
From S2P Require Import Prelude GoStd External Concurrency Settings.

(** ** Sizes *)

Section sizes.
Context `{NaCl}.

Definition SizeMessageBody : nat := 240.
Definition SizeEncryptedMessageBody : nat := (SizeMessageBody + box_Overhead)%nat.
(** [unsafe.Sizeof(DeadDropMessage{})]: two byte arrays, no padding. *)
Definition sizeDeadDropMessage : nat := (16 + SizeEncryptedMessageBody)%nat.

End sizes.

(** ** Dead-drop messages *)

Record DeadDropMessage := mkDeadDropMessage {
  DeadDrop : bytes;            (* [16]byte *)
  EncryptedMessage : bytes     (* [SizeEncryptedMessageBody]byte *)
}.

Inductive convo_error := WrongSize (got want : nat).

Section messages.
Context `{NaCl}.

(** The arrays of the struct have their declared lengths. *)
Definition wf_message (m : DeadDropMessage) : Prop :=
  length (DeadDrop m) = 16%nat ∧ length (EncryptedMessage m) = SizeEncryptedMessageBody.

Definition Marshal (m : DeadDropMessage) : bytes :=
  let data := replicate sizeDeadDropMessage x00 in
  let data := copy_into 0 16 data (DeadDrop m) in
  copy_into 16 sizeDeadDropMessage data (EncryptedMessage m).

Definition Unmarshal (data : bytes) : go DeadDropMessage convo_error unit :=
  if decide (length data ≠ sizeDeadDropMessage)
  then throw (WrongSize (length data) sizeDeadDropMessage)
  else modify (λ m, mkDeadDropMessage (go_copy (DeadDrop m) (take 16 data))
                                      (go_copy (EncryptedMessage m) (drop 16 data))).

Lemma Marshal_app m : wf_message m → Marshal m = DeadDrop m ++ EncryptedMessage m.
Proof.
  intros [Hd He]. unfold Marshal. apply copy_into_two; [len|done| |].
  - rewrite He. unfold sizeDeadDropMessage. lia.
  - unfold sizeDeadDropMessage. lia.
Qed.

Lemma length_Marshal m : wf_message m → length (Marshal m) = sizeDeadDropMessage.
Proof.
  intros Hm. rewrite Marshal_app by done. destruct Hm. unfold sizeDeadDropMessage. len.
Qed.

Lemma Unmarshal_ok m0 data :
  wf_message m0 → length data = sizeDeadDropMessage →
  Unmarshal data m0 = (mkDeadDropMessage (take 16 data) (drop 16 data), Ret ()).
Proof.
  intros [Hd He] Hl. unfold Unmarshal. rewrite decide_False by auto. simpl.
  unfold sizeDeadDropMessage in Hl. by rewrite !go_copy_exact by len.
Qed.

End messages.

(** ** The dead-drop exchange *)

Record AccessCount := mkAccessCount { Singles : Z; Doubles : Z }.

(** The service: [AccessCounts] is a channel, [None] for nil, otherwise its capacity
    and the values buffered in it. *)
Record ConvoService := mkConvoService { AccessCounts : option (nat * list AccessCount) }.

Section HandleMessages.
Context `{NaCl}.

(** The first loop: the accesses of every dead drop, at most two of them. *)
Definition count_access (i : nat) (msg : bytes) (st : Z * Z * gmap bytes (list nat))
    : outcome convo_error (Z * Z * gmap bytes (list nat)) :=
  let '(singles, doubles, deadDrops) := st in
  dest ← or_panic (slice 0 16 msg);
  let drop := default [] (deadDrops !! dest) in
  match length drop with
  | 0%nat => Ret (singles + 1, doubles, <[dest := drop ++ [i]]> deadDrops)
  | 1%nat => Ret (singles - 1, doubles + 1, <[dest := drop ++ [i]]> deadDrops)
  | _ => Ret st
  end.

Fixpoint count_accesses (i : nat) (incoming : list bytes) (st : Z * Z * gmap bytes (list nat))
    : outcome convo_error (Z * Z * gmap bytes (list nat)) :=
  match incoming with
  | [] => Ret st
  | msg :: incoming => st ← count_access i msg st; count_accesses (S i) incoming st
  end.

(** The second loop: one iteration, with the worker's locals [dest] and [other]. *)
Definition reply_iter (incoming : list bytes) (deadDrops : gmap bytes (list nat))
    (locals : bytes * nat) (i : nat)
    : outcome convo_error (bytes * nat * list (nat * bytes)) :=
  let '(dest, other) := locals in
  msg ← or_panic (incoming !! i);
  m16 ← or_panic (slice 0 16 msg);
  let dest := go_copy dest m16 in
  let drop := default [] (deadDrops !! dest) in
  match drop with
  | [_] =>
      body ← or_panic (slice 16 (16 + SizeEncryptedMessageBody) msg);
      Ret (dest, other, [(i, body)])
  | [d0; d1] =>
      let other := if decide (i = d0) then d1 else d0 in
      omsg ← or_panic (incoming !! other);
      body ← or_panic (slice 16 (16 + SizeEncryptedMessageBody) omsg);
      Ret (dest, other, [(i, body)])
  | _ => Ret (dest, other, [])
  end.

(** [select { case s.AccessCounts <- counts: default: }] *)
Definition send_counts (counts : AccessCount) (s : ConvoService) : ConvoService :=
  match AccessCounts s with
  | Some (cap, buf) =>
      if decide (length buf < cap)%nat
      then {| AccessCounts := Some (cap, buf ++ [counts]) |} else s
  | None => s
  end.

Definition HandleMessages (sch : list (nat * nat)) (incoming : list bytes)
    : go ConvoService convo_error (list bytes) :=
  '(singles, doubles, deadDrops) ← lift (count_accesses 0 incoming (0, 0, ∅));
  replies ← lift (ParallelFor (replicate 16 x00, 0%nat) (reply_iter incoming deadDrops) sch
                              (replicate (length incoming) []));
  modify (send_counts (mkAccessCount singles doubles));;
  mret replies.

(** *** The abstract exchange *)

(** The dead drops of a batch, and the message bodies. *)
Definition dests (msgs : list bytes) : list bytes := take 16 <$> msgs.
Definition body (msg : bytes) : bytes := take SizeEncryptedMessageBody (drop 16 msg).

(** Whose message the [i]th reply carries: with one access the own one; the first two
    accesses of a dead drop swap; a later one gets the first one's. *)
Definition partner (msgs : list bytes) (i : nat) : nat :=
  match dests msgs !! i with
  | Some d =>
      match positions d (dests msgs) with
      | j0 :: j1 :: _ => if decide (i = j0) then j1 else j0
      | _ => i
      end
  | None => i
  end.

Definition exchange (msgs : list bytes) : list bytes :=
  (λ i, body (msgs !!! partner msgs i)) <$> seq 0 (length msgs).

(** How many dead drops were accessed exactly once, and more than once. *)
Definition drops_accessed (P : nat → bool) (msgs : list bytes) : gset bytes :=
  filter (λ d, P (length (positions d (dests msgs)))) (list_to_set (dests msgs)).

Definition access_counts (msgs : list bytes) : AccessCount :=
  mkAccessCount (Z.of_nat (size (drops_accessed (λ n, n =? 1)%nat msgs)))
                (Z.of_nat (size (drops_accessed (λ n, 2 <=? n)%nat msgs))).

(** A batch the last server receives: full dead-drop messages. *)
Definition wf_batch (msgs : list bytes) : Prop :=
  Forall (λ m, length m = sizeDeadDropMessage) msgs.


(** *** The counting loop *)

Lemma dests_snoc msgs msg : dests (msgs ++ [msg]) = dests msgs ++ [take 16 msg].
Proof. unfold dests. by rewrite fmap_app. Qed.

Lemma length_dests msgs : length (dests msgs) = length msgs.
Proof. unfold dests. len. Qed.

Lemma elem_of_drops_accessed P msgs d :
  d ∈ drops_accessed P msgs ↔ P (length (positions d (dests msgs))) ∧ d ∈ dests msgs.
Proof. unfold drops_accessed. by rewrite elem_of_filter, elem_of_list_to_set. Qed.

Lemma positions_nil_iff d (ds : list bytes) : positions d ds = [] ↔ d ∉ ds.
Proof.
  rewrite list_elem_of_lookup. setoid_rewrite <- elem_of_positions. split.
  - intros -> [i Hi]. by apply elem_of_nil in Hi.
  - intros Hn. destruct (positions d ds) as [|i l]; [done|].
    exfalso. apply Hn. exists i. by left.
Qed.

Lemma positions_snoc_length d (ds : list bytes) x :
  length (positions d (ds ++ [x])) = (length (positions d ds) + if decide (x = d) then 1 else 0)%nat.
Proof. rewrite positions_snoc, length_app. by case_decide. Qed.

Lemma drops_accessed_snoc P msgs msg :
  let x := take 16 msg in
  drops_accessed P (msgs ++ [msg]) =
    if P (S (length (positions x (dests msgs))))
    then {[x]} ∪ drops_accessed P msgs else drops_accessed P msgs ∖ {[x]}.
Proof.
  intros x. apply set_eq. intros d.
  rewrite elem_of_drops_accessed, dests_snoc, positions_snoc_length, elem_of_app.
  fold x. destruct (decide (d = x)) as [->|Hne].
  - rewrite decide_True, Nat.add_1_r by done.
    destruct (P (S _)); split; try set_solver.
  - rewrite decide_False, Nat.add_0_r by done.
    destruct (P (S _)); [rewrite elem_of_union|rewrite elem_of_difference];
      rewrite elem_of_drops_accessed; set_solver.
Qed.

Definition count_inv (msgs : list bytes) (st : Z * Z * gmap bytes (list nat)) : Prop :=
  (∀ d, default [] (st.2 !! d) = take 2 (positions d (dests msgs))) ∧
  mkAccessCount st.1.1 st.1.2 = access_counts msgs.

Lemma count_access_inv msgs msg st :
  (16 ≤ length msg)%nat → count_inv msgs st →
  ∃ st', count_access (length msgs) msg st = Ret st' ∧ count_inv (msgs ++ [msg]) st'.
Proof.
  destruct st as [[singles doubles] deadDrops]. intros Hl [Hd Hc]; simpl in *.
  rewrite slice_is_Some, drop_0 by lia. cbn.
  set (x := take 16 msg). rewrite (Hd x).
  set (ps := positions x (dests msgs)) in *.
  assert (Hx : ∀ P, x ∈ drops_accessed P msgs ↔ P (length ps) ∧ ps ≠ []).
  { intros P. rewrite elem_of_drops_accessed. unfold ps. rewrite positions_nil_iff.
    destruct (decide (x ∈ dests msgs)); naive_solver. }
  assert (Hins : ∀ d, default [] (<[x := take 2 ps ++ [length msgs]]> deadDrops !! d) =
                 if decide (x = d) then take 2 ps ++ [length msgs]
                 else take 2 (positions d (dests msgs))).
  { intros d. rewrite lookup_insert. by case_decide. }
  assert (Hpos : ∀ d, positions d (dests (msgs ++ [msg])) =
                 positions d (dests msgs) ++ if decide (x = d) then [length msgs] else []).
  { intros d. by rewrite dests_snoc, positions_snoc, length_dests. }
  injection Hc as -> ->. unfold count_inv, access_counts.
  rewrite !drops_accessed_snoc. fold x ps.
  pose proof (Hx (λ n, n =? 1)%nat) as H1. pose proof (Hx (λ n, 2 <=? n)%nat) as H2.
  destruct ps as [|p0 [|p1 ps']] eqn:Eps; cbn [length take] in *;
    eexists; (split; [reflexivity|]); (split; [intros d; cbn [fst snd]|cbn; f_equal]).
  - rewrite Hins, Hpos. case_decide; [subst d; by rewrite (Eps : positions x (dests msgs) = _)|].
    by rewrite app_nil_r.
  - rewrite size_insert_new; [done|]. rewrite H1. tauto.
  - rewrite size_remove_out; [done|]. rewrite H2. tauto.
  - rewrite Hins, Hpos. case_decide; [subst d; by rewrite (Eps : positions x (dests msgs) = _)|].
    by rewrite app_nil_r.
  - rewrite size_remove_in; [done|]. by rewrite H1.
  - rewrite size_insert_new; [done|]. rewrite H2. cbn. tauto.
  - rewrite Hd, Hpos. case_decide; [subst d; by rewrite (Eps : positions x (dests msgs) = _)|].
    by rewrite app_nil_r.
  - rewrite size_remove_out; [done|]. rewrite H1. cbn. tauto.
  - rewrite size_insert_old; [done|]. by rewrite H2.
Qed.


Lemma count_inv_nil : count_inv [] (0, 0, ∅).
Proof. split; [done|reflexivity]. Qed.

Lemma count_accesses_inv done_ rest st :
  Forall (λ m, 16 ≤ length m)%nat rest → count_inv done_ st →
  ∃ st', count_accesses (length done_) rest st = Ret st' ∧ count_inv (done_ ++ rest) st'.
Proof.
  revert done_ st. induction rest as [|msg rest IH]; intros done_ st Hl Hst.
  - exists st. by rewrite app_nil_r.
  - apply Forall_cons in Hl as [Hm Hl]. cbn [count_accesses].
    destruct (count_access_inv _ _ _ Hm Hst) as (st1 & -> & Hst1). cbn.
    specialize (IH (done_ ++ [msg]) st1 Hl Hst1).
    rewrite length_app, Nat.add_1_r, <- app_assoc in IH. exact IH.
Qed.

(** *** The reply loop *)

Lemma wf_batch_lookup msgs i msg :
  wf_batch msgs → msgs !! i = Some msg → length msg = sizeDeadDropMessage.
Proof. intros Hwf Hi. by eapply (Forall_lookup_1 _ _ _ _ Hwf). Qed.

Lemma slice_body msg :
  length msg = sizeDeadDropMessage →
  slice 16 (16 + SizeEncryptedMessageBody) msg = Some (body msg).
Proof.
  intros Hl. rewrite slice_is_Some by (unfold sizeDeadDropMessage in Hl; lia).
  unfold body. by do 2 f_equal.
Qed.

(** Whom an iteration finds in the table it reads. *)
Lemma partner_drops msgs i d :
  dests msgs !! i = Some d →
  match take 2 (positions d (dests msgs)) with
  | [_] => partner msgs i = i
  | [d0; d1] => partner msgs i = if decide (i = d0) then d1 else d0
  | _ => False
  end.
Proof.
  intros Hi. unfold partner. rewrite Hi.
  assert (Hp : i ∈ positions d (dests msgs)) by by apply elem_of_positions.
  destruct (positions d (dests msgs)) as [|j0 [|j1 l]]; [|done..].
  by apply elem_of_nil in Hp.
Qed.

Lemma partner_lt msgs i : (i < length msgs)%nat → (partner msgs i < length msgs)%nat.
Proof.
  intros Hi. unfold partner. destruct (dests msgs !! i) as [d|]; [|done].
  destruct (positions d (dests msgs)) as [|j0 [|j1 l]] eqn:E; [done..|].
  assert (Hk : ∀ k, k ∈ [j0; j1] → (k < length msgs)%nat).
  { intros k Hk. rewrite <- length_dests. eapply lookup_lt_Some, elem_of_positions.
    rewrite E. set_solver. }
  case_decide; apply Hk; set_solver.
Qed.

Lemma reply_iter_ok msgs deadDrops locals i :
  wf_batch msgs → (∀ d, default [] (deadDrops !! d) = take 2 (positions d (dests msgs))) →
  (i < length msgs)%nat → length locals.1 = 16%nat →
  ∃ locals', length locals'.1 = 16%nat ∧
    reply_iter msgs deadDrops locals i = Ret (locals', [(i, body (msgs !!! partner msgs i))]).
Proof.
  destruct locals as [dest other]. intros Hwf Hd Hi Hdest. simpl in Hdest.
  destruct (lookup_lt_is_Some_1 _ _ Hi) as [msg Em].
  pose proof (wf_batch_lookup _ _ _ Hwf Em) as Hl.
  assert (H16 : (16 ≤ length msg)%nat) by (rewrite Hl; unfold sizeDeadDropMessage; lia).
  assert (Ed : dests msgs !! i = Some (take 16 msg)).
  { unfold dests. by rewrite list_lookup_fmap, Em. }
  pose proof (partner_drops _ _ _ Ed) as Hp.
  unfold reply_iter. rewrite Em. cbn. rewrite (slice_is_Some 0 16), drop_0 by lia. cbn.
  change (take (16 - 0) msg) with (take 16 msg).
  rewrite go_copy_exact by (rewrite length_take; lia). rewrite Hd.
  destruct (take 2 (positions (take 16 msg) (dests msgs))) as [|d0 [|d1 [|]]] eqn:Eps;
    try done.
  - rewrite slice_body by done. cbn. rewrite Hp, (list_lookup_total_correct _ _ _ Em).
    eexists (_, _). split; [|reflexivity]. cbn. rewrite length_take. lia.
  - destruct (lookup_lt_is_Some_1 msgs (partner msgs i)) as [omsg Eo].
    { by apply partner_lt. }
    rewrite <- Hp, Eo. cbn. rewrite slice_body by (by eapply wf_batch_lookup).
    cbn. rewrite (list_lookup_total_correct _ _ _ Eo).
    eexists (_, _). split; [|reflexivity]. cbn. rewrite length_take. lia.
Qed.

(** The two loops compute the abstract exchange under every schedule, and send the
    access counts. *)
Lemma HandleMessages_spec sch msgs s :
  wf_batch msgs → valid_schedule (length msgs) sch →
  HandleMessages sch msgs s = (send_counts (access_counts msgs) s, Ret (exchange msgs)).
Proof.
  intros Hwf Hs. unfold HandleMessages. rewrite go_bind_unfold. cbn [lift].
  destruct (count_accesses_inv [] msgs (0, 0, ∅)) as ([[a b] drops] & Ec & Hd & Hc);
    [|apply count_inv_nil|].
  { eapply Forall_impl; [exact Hwf|]. cbn. unfold sizeDeadDropMessage. lia. }
  cbn in Ec, Hd, Hc. rewrite Ec. cbn. rewrite go_bind_unfold. cbn [lift].
  rewrite (ParallelFor_imap _ _ (length msgs) (λ l, length l.1 = 16%nat)
             (λ i, body (msgs !!! partner msgs i))); [|done| |done|len].
  - cbn. by rewrite Hc.
  - intros l i Hi Hl. by apply reply_iter_ok.
Qed.

End HandleMessages.

(** ** Noise *)

Section noise.
Context `{NaCl} `{Onionbox}.

(** What [rand.Read] and [onionbox.Seal] draw in iteration [i] of a fill: the bytes
    of the first and of the second message, and the randomness of the two onions. *)
Record draws := mkDraws {
  msg1 : nat → bytes; msg2 : nat → bytes; coins1 : nat → bytes; coins2 : nat → bytes
}.

(** [rand.Read(msg[:])] and [rand.Read(msg2[16:])] fill their slices. *)
Definition wf_draws (r : draws) : Prop :=
  ∀ i, length (msg1 r i) = sizeDeadDropMessage ∧ length (msg2 r i) = SizeEncryptedMessageBody.

(** [onionbox.Seal(message, nonce, publicKeys)] on pointers: it reads every key. *)
Definition Seal_onion (coins msg nonce : bytes) (nextKeys : list (option bytes))
    : outcome convo_error bytes :=
  keys ← or_panic (mapM id nextKeys);
  Ret (onion_Seal coins msg nonce keys).1.

Definition FillWithFakeSingles (sch : list (nat * nat)) (r : draws) (nonce : bytes)
    (nextKeys : list (option bytes)) (dest : list bytes) : outcome convo_error (list bytes) :=
  ParallelFor () (λ _ i,
    let msg := go_copy (replicate sizeDeadDropMessage x00) (msg1 r i) in
    onion ← Seal_onion (coins1 r i) msg nonce nextKeys;
    Ret ((), [(i, onion)])) sch dest.

(** An iteration of [FillWithFakeDoubles]. *)
Definition fake_double (r : draws) (nonce : bytes) (nextKeys : list (option bytes)) (i : nat)
    : outcome convo_error (unit * list (nat * bytes)) :=
  let m1 := go_copy (replicate sizeDeadDropMessage x00) (msg1 r i) in
  let m2 := copy_into 0 16 (replicate sizeDeadDropMessage x00) (take 16 m1) in
  let m2 := copy_into 16 sizeDeadDropMessage m2 (msg2 r i) in
  onion1 ← Seal_onion (coins1 r i) m1 nonce nextKeys;
  onion2 ← Seal_onion (coins2 r i) m2 nonce nextKeys;
  Ret ((), [((i * 2)%nat, onion1); ((i * 2 + 1)%nat, onion2)]).

Definition FillWithFakeDoubles (sch : list (nat * nat)) (r : draws) (nonce : bytes)
    (nextKeys : list (option bytes)) (dest : list bytes) : outcome convo_error (list bytes) :=
  ParallelFor () (λ _, fake_double r nonce nextKeys) sch dest.

(** What a call of [GenerateNoise] draws: two numbers from [s.Laplace.Uint32()], then
    the bytes of the two fills. *)
Record noise_draws := mkNoiseDraws {
  drawn_singles : Z; drawn_doubles : Z; draws_singles : draws; draws_doubles : draws
}.

(** The number of doubles, rounded up to an even one in uint32 arithmetic. *)
Definition even_doubles (nd : noise_draws) : Z :=
  u32 (drawn_doubles nd + drawn_doubles nd mod 2).

(** [None] is the nil slice of the last server. *)
Definition GenerateNoise (nd : noise_draws) (sch1 sch2 : list (nat * nat))
    (settings : RoundSettings) (myPos : nat) : outcome convo_error (option (list bytes)) :=
  if negb (Z.of_nat myPos <? Z.of_nat (length (OnionKeys settings)) - 1) then Ret None
  else
    nextServerKeys ← or_panic (slice (S myPos) (length (OnionKeys settings)) (OnionKeys settings));
    let nonce := ForwardNonce (Round settings) in
    let numFakeSingles := Z.to_nat (drawn_singles nd) in
    let noise := replicate (Z.to_nat (u32 (drawn_singles nd + even_doubles nd))) [] in
    head ← or_panic (slice 0 numFakeSingles noise);
    head ← FillWithFakeSingles sch1 (draws_singles nd) nonce nextServerKeys head;
    tail ← or_panic (slice numFakeSingles (length noise) noise);
    tail ← FillWithFakeDoubles sch2 (draws_doubles nd) nonce nextServerKeys tail;
    Ret (Some (head ++ tail)).

(** *** What the fills write *)

Definition single_message (r : draws) (i : nat) : bytes := msg1 r i.
Definition double_message (r : draws) (i : nat) : bytes := take 16 (msg1 r i) ++ msg2 r i.

Lemma Seal_onion_Some coins m nonce keys :
  Seal_onion coins m nonce (Some <$> keys) = Ret (onion_Seal coins m nonce keys).1.
Proof.
  unfold Seal_onion. by rewrite mapM_id_Some.
Qed.

Lemma length_double_message r i :
  wf_draws r → length (double_message r i) = sizeDeadDropMessage.
Proof.
  intros Hr. destruct (Hr i) as [H1 H2]. unfold double_message.
  rewrite length_app, length_take, H1, H2. unfold sizeDeadDropMessage. lia.
Qed.

Lemma FillWithFakeSingles_ok sch r nonce keys dest :
  wf_draws r → valid_schedule (length dest) sch →
  FillWithFakeSingles sch r nonce (Some <$> keys) dest =
    Ret ((λ i, (onion_Seal (coins1 r i) (single_message r i) nonce keys).1) <$> seq 0 (length dest)).
Proof.
  intros Hr Hs. apply (ParallelFor_imap _ _ (length dest) (λ _, True)); try done.
  intros [] i Hi _. exists (). split; [done|]. destruct (Hr i) as [H1 _].
  rewrite go_copy_exact by len. cbn zeta. by rewrite Seal_onion_Some.
Qed.

Definition double_writes (r : draws) (nonce : bytes) (keys : list bytes) (i : nat)
    : list (nat * bytes) :=
  [((i * 2)%nat, (onion_Seal (coins1 r i) (msg1 r i) nonce keys).1);
   ((i * 2 + 1)%nat, (onion_Seal (coins2 r i) (double_message r i) nonce keys).1)].

Lemma NoDup_pairs {A} (f g : nat → A) start n :
  NoDup (mjoin ((λ i, [((i * 2)%nat, f i); ((i * 2 + 1)%nat, g i)]) <$> seq start n)).*1 ∧
  ∀ j, j ∈ (mjoin ((λ i, [((i * 2)%nat, f i); ((i * 2 + 1)%nat, g i)]) <$> seq start n)).*1 →
       (start * 2 ≤ j)%nat.
Proof.
  revert start. induction n as [|n IH]; intros start; cbn; [split; [constructor|set_solver]|].
  destruct (IH (S start)) as [Hnd Hle]. cbn in Hnd, Hle. split.
  - repeat constructor; [|intros Hj%Hle; lia|done].
    intros [Hj|Hj%Hle]%elem_of_cons; lia.
  - intros j [->|[->|Hj%Hle]%elem_of_cons]%elem_of_cons; lia.
Qed.

Lemma fake_double_ok r nonce keys i :
  wf_draws r →
  fake_double r nonce (Some <$> keys) i = Ret ((), double_writes r nonce keys i).
Proof.
  intros Hr. destruct (Hr i) as [H1 H2]. unfold fake_double.
  rewrite go_copy_exact by len. rewrite Seal_onion_Some. cbn [mbind outcome_bind].
  rewrite copy_into_two; [by rewrite Seal_onion_Some|len|..];
    rewrite ?length_take, ?H1, ?H2; unfold sizeDeadDropMessage; lia.
Qed.

Lemma FillWithFakeDoubles_ok sch r nonce keys dest :
  wf_draws r → valid_schedule (length dest / 2) sch →
  ∃ dest', FillWithFakeDoubles sch r nonce (Some <$> keys) dest = Ret dest' ∧
    length dest' = length dest ∧
    ∀ i j o, (i < length dest / 2)%nat → (j, o) ∈ double_writes r nonce keys i → dest' !! j = Some o.
Proof.
  intros Hr Hs. unfold FillWithFakeDoubles.
  destruct (ParallelFor_writes () (λ _, fake_double r nonce (Some <$> keys))
    (length dest / 2) (λ _, True) (double_writes r nonce keys) I
    (λ l i _ _, ex_intro _ () (conj I (fake_double_ok r nonce keys i Hr))) sch dest)
    as (dest' & E & Hl & Hw & _); [done|apply NoDup_pairs| |eauto].
  intros i j o Hi Hx. unfold double_writes in Hx.
  pose proof (Nat.Div0.mul_div_le (length dest) 2).
  apply elem_of_cons in Hx as [Hx|Hx%list_elem_of_singleton]; injection Hx as -> _; lia.
Qed.

Lemma even_doubles_range nd : is_u32 (even_doubles nd).
Proof. apply u32_range. Qed.

Lemma even_doubles_even nd : even_doubles nd mod 2 = 0.
Proof.
  unfold even_doubles, u32. rewrite Z.mod_mod_divide by (by exists (2 ^ 31)).
  pose proof (Z.div_mod (drawn_doubles nd) 2 ltac:(lia)).
  replace (_ + _) with ((drawn_doubles nd / 2 + drawn_doubles nd mod 2) * 2) by lia.
  by apply Z.mod_mul.
Qed.

(** The slices of the noise the two fills get. *)
Lemma noise_slices nd (x : bytes) :
  is_u32 (drawn_singles nd) → drawn_singles nd + even_doubles nd < 2 ^ 32 →
  let noise := replicate (Z.to_nat (u32 (drawn_singles nd + even_doubles nd))) x in
  slice 0 (Z.to_nat (drawn_singles nd)) noise = Some (replicate (Z.to_nat (drawn_singles nd)) x) ∧
  slice (Z.to_nat (drawn_singles nd)) (length noise) noise =
    Some (replicate (Z.to_nat (even_doubles nd)) x).
Proof.
  intros Hs Hlt noise. pose proof (even_doubles_range nd) as He. unfold is_u32 in *.
  assert (E : noise = replicate (Z.to_nat (drawn_singles nd)) x ++
                      replicate (Z.to_nat (even_doubles nd)) x).
  { unfold noise. rewrite u32_id by (unfold is_u32; lia).
    rewrite Z2Nat.inj_add by lia. apply replicate_add. }
  rewrite E, length_app, !length_replicate. split.
  - rewrite slice_is_Some by len. rewrite drop_0, Nat.sub_0_r. by rewrite take_app_length' by len.
  - rewrite slice_is_Some by len. rewrite drop_app_length' by len.
    by rewrite take_ge by len.
Qed.

(** A noise batch as the two fills leave it. *)
Lemma GenerateNoise_fills nd sch1 sch2 settings myPos keys :
  drop (S myPos) (OnionKeys settings) = Some <$> keys →
  (S myPos < length (OnionKeys settings))%nat →
  wf_draws (draws_singles nd) → wf_draws (draws_doubles nd) → is_u32 (drawn_singles nd) →
  drawn_singles nd + even_doubles nd < 2 ^ 32 →
  valid_schedule (Z.to_nat (drawn_singles nd)) sch1 →
  valid_schedule (Z.to_nat (even_doubles nd) / 2) sch2 →
  let nonce := ForwardNonce (Round settings) in
  let S1 := Z.to_nat (drawn_singles nd) in
  ∃ noise, GenerateNoise nd sch1 sch2 settings myPos = Ret (Some noise) ∧
    length noise = (S1 + Z.to_nat (even_doubles nd))%nat ∧
    (∀ i, (i < S1)%nat → noise !! i =
       Some (onion_Seal (coins1 (draws_singles nd) i) (msg1 (draws_singles nd) i) nonce keys).1) ∧
    (∀ i j o, (i < Z.to_nat (even_doubles nd) / 2)%nat →
       (j, o) ∈ double_writes (draws_doubles nd) nonce keys i → noise !! (S1 + j)%nat = Some o).
Proof.
  intros Hk Hpos Hr1 Hr2 Hs Hlt Hsch1 Hsch2 nonce S1.
  destruct (noise_slices nd [] Hs Hlt) as [E1 E2].
  unfold GenerateNoise. replace (negb _) with false by (symmetry; apply negb_false_iff; lia).
  rewrite (slice_is_Some (S myPos)) by lia.
  rewrite take_ge by len. rewrite Hk. cbn [or_panic mbind outcome_bind].
  cbn zeta. rewrite E1, E2. cbn [or_panic mbind outcome_bind].
  rewrite FillWithFakeSingles_ok by (by rewrite ?length_replicate).
  cbn [mbind outcome_bind]. fold nonce.
  destruct (FillWithFakeDoubles_ok sch2 (draws_doubles nd) nonce keys
              (replicate (Z.to_nat (even_doubles nd)) []))
    as (tail & -> & Hl & Ht); [done|by rewrite length_replicate|].
  rewrite length_replicate in *. fold S1. eexists. split; [reflexivity|]. split; [len|]. split.
  - intros i Hi. rewrite lookup_app_l by len.
    rewrite list_lookup_fmap, lookup_seq_lt by lia. done.
  - intros i j o Hi Hx. rewrite lookup_app_r by len.
    replace (S1 + j - _)%nat with j by len. by eapply Ht.
Qed.

End noise.

(** ** Properties *)

Section properties.
Context `{NaCl}.

(** The wire form of a dead-drop message: [Marshal] writes [sizeDeadDropMessage] bytes
    that [Unmarshal] reads back into any message, and [Unmarshal] refuses every other
    size, leaving its receiver alone. *)
Theorem DeadDropMessage_roundtrip (m m0 : DeadDropMessage) (data : bytes) :
  wf_message m → wf_message m0 →
  length (Marshal m) = sizeDeadDropMessage ∧
  Unmarshal (Marshal m) m0 = (m, Ret ()) ∧
  (length data ≠ sizeDeadDropMessage →
   Unmarshal data m0 = (m0, Err (WrongSize (length data) sizeDeadDropMessage))) ∧
  (length data = sizeDeadDropMessage → Marshal (Unmarshal data m0).1 = data).
Proof.
  intros Hm Hm0. pose proof (length_Marshal m Hm) as Hl. split; [done|]. split; [|split].
  - rewrite Unmarshal_ok by done. rewrite Marshal_app by done. destruct Hm as [Hd He].
    rewrite take_app_length', drop_app_length' by done. by destruct m.
  - intros Hne. unfold Unmarshal. by rewrite decide_True.
  - intros E. rewrite Unmarshal_ok by done. cbn [fst].
    rewrite Marshal_app; [apply take_drop|].
    unfold wf_message, sizeDeadDropMessage in *. cbn [DeadDrop EncryptedMessage]. split; len.
Qed.

(** C11. The exchange of the last server: for every schedule of the parallel loop,
    [HandleMessages] returns for each message the body that [exchange] assigns to it,
    and offers the number of dead drops accessed once and more than once on the
    channel, which a full or nil channel drops. It neither fails nor panics on a batch
    of full messages. *)
Theorem HandleMessages_refines_exchange sch (msgs : list bytes) (s : ConvoService) :
  wf_batch msgs → valid_schedule (length msgs) sch →
  HandleMessages sch msgs s = (send_counts (access_counts msgs) s, Ret (exchange msgs)).
Proof. apply HandleMessages_spec. Qed.

(** Looking up the exchange. *)
Lemma exchange_lookup msgs i :
  (i < length msgs)%nat → exchange msgs !! i = Some (body (msgs !!! partner msgs i)).
Proof. intros Hi. unfold exchange. by rewrite list_lookup_fmap, lookup_seq_lt by done. Qed.

(** Who gets what at a dead drop. The first two messages for it, at positions [i < j],
    swap bodies; a further message for it, at [k], gets the body of the first; a message
    alone at its dead drop gets its own body back. A reply depends on no message of
    another dead drop. *)
Theorem exchange_at_dead_drop (msgs : list bytes) (d : bytes) (i : nat) :
  dests msgs !! i = Some d → (∀ k, (k < i)%nat → dests msgs !! k ≠ Some d) →
  ((∀ k, dests msgs !! k = Some d → k = i) → exchange msgs !! i = Some (body (msgs !!! i))) ∧
  (∀ j, (i < j)%nat → dests msgs !! j = Some d →
        (∀ k, (i < k < j)%nat → dests msgs !! k ≠ Some d) →
        exchange msgs !! i = Some (body (msgs !!! j)) ∧
        exchange msgs !! j = Some (body (msgs !!! i)) ∧
        ∀ k, (j < k)%nat → dests msgs !! k = Some d → exchange msgs !! k = Some (body (msgs !!! i))).
Proof.
  intros Hi Hfirst.
  assert (Hlt : ∀ k, dests msgs !! k = Some d → (k < length msgs)%nat).
  { intros k Hk%lookup_lt_Some. by rewrite length_dests in Hk. }
  split.
  - intros Honly. rewrite exchange_lookup by auto. unfold partner. rewrite Hi.
    by rewrite (positions_single _ _ i).
  - intros j Hij Hj Hbetween.
    destruct (positions_first_two d (dests msgs) i j) as [l E]; [done..| |].
    { intros k Hk Hkd. destruct (decide (k = i)) as [|Hne]; [done|]. exfalso.
      destruct (decide (k < i)%nat); [by eapply (Hfirst k)|]. eapply (Hbetween k); [lia|done]. }
    assert (Hp : ∀ k, dests msgs !! k = Some d → partner msgs k = if decide (k = i) then j else i).
    { intros k Hk. unfold partner. rewrite Hk, E. done. }
    split; [|split].
    + by rewrite exchange_lookup, Hp, decide_True by auto.
    + by rewrite exchange_lookup, Hp, decide_False by (lia || auto).
    + intros k Hk Hkd. by rewrite exchange_lookup, Hp, decide_False by (lia || auto).
Qed.

End properties.

Section noise_properties.
Context `{NaClLaws} `{!Onionbox} `{!OnionboxLaws}.

(** [o] is an onion for [m] that the servers after position [myPos] peel. *)
Definition noise_onion (settings : RoundSettings) (sks : list bytes) (myPos : nat) (m o : bytes) : Prop :=
  ∃ ks, peels (ForwardNonce (Round settings)) (drop (S myPos) sks) m o ks.

(** C17. The cover traffic of a server that is not the last: as many single onions as drawn,
    then the drawn number of doubles rounded up to an even one, in pairs. Every onion is
    one the remaining servers of the chain peel, in their order and with the round's
    forward nonce, to a full dead-drop message; the two messages of a pair name the same
    dead drop. Under every schedule of the two parallel fills. *)
Theorem GenerateNoise_cover_traffic nd sch1 sch2 (settings : RoundSettings) (sks : list bytes) (myPos : nat) :
  OnionKeys settings = Some ∘ box_Public <$> sks → (S myPos < length sks)%nat →
  wf_draws (draws_singles nd) → wf_draws (draws_doubles nd) → is_u32 (drawn_singles nd) →
  drawn_singles nd + even_doubles nd < 2 ^ 32 →
  let ns := Z.to_nat (drawn_singles nd) in
  let ndb := Z.to_nat (even_doubles nd) in
  valid_schedule ns sch1 → valid_schedule (ndb / 2) sch2 →
  ∃ noise, GenerateNoise nd sch1 sch2 settings myPos = Ret (Some noise) ∧
    length noise = (ns + ndb)%nat ∧ even_doubles nd mod 2 = 0 ∧
    (∀ i, (i < ns)%nat → ∃ m o, noise !! i = Some o ∧
       length m = sizeDeadDropMessage ∧ noise_onion settings sks myPos m o) ∧
    (∀ i, (i < ndb / 2)%nat → ∃ m1 m2 o1 o2,
       noise !! (ns + i * 2)%nat = Some o1 ∧ noise !! (ns + (i * 2 + 1))%nat = Some o2 ∧
       length m1 = sizeDeadDropMessage ∧ length m2 = sizeDeadDropMessage ∧
       take 16 m1 = take 16 m2 ∧
       noise_onion settings sks myPos m1 o1 ∧ noise_onion settings sks myPos m2 o2).
Proof.
  intros Hk Hpos Hr1 Hr2 Hs Hlt ns ndb Hsch1 Hsch2.
  assert (Hkeys : drop (S myPos) (OnionKeys settings) = Some <$> (box_Public <$> drop (S myPos) sks)).
  { rewrite Hk, list_fmap_compose, !fmap_drop. done. }
  assert (Hpos' : (S myPos < length (OnionKeys settings))%nat) by (rewrite Hk; len).
  destruct (GenerateNoise_fills nd sch1 sch2 settings myPos _ Hkeys Hpos' Hr1 Hr2 Hs Hlt Hsch1 Hsch2)
    as (noise & E & Hl & Hsingles & Hdoubles).
  assert (Hpeel : ∀ coins m, noise_onion settings sks myPos m
      (onion_Seal coins m (ForwardNonce (Round settings)) (box_Public <$> drop (S myPos) sks)).1).
  { intros coins m. eexists. apply onion_Seal_peels. }
  exists noise. split; [done|]. split; [done|]. split; [apply even_doubles_even|]. split.
  - intros i Hi. do 2 eexists. split; [by apply Hsingles|]. split; [apply Hr1|apply Hpeel].
  - intros i Hi. pose proof (Hdoubles i) as Hd. unfold double_writes in Hd.
    exists (msg1 (draws_doubles nd) i), (double_message (draws_doubles nd) i).
    do 2 eexists. split; [apply Hd; [done|by left]|]. split; [apply Hd; [done|right; by left]|].
    split; [apply Hr2|]. split; [by apply length_double_message|]. split; [|split; apply Hpeel].
    unfold double_message. rewrite take_app_length'; [done|].
    rewrite length_take. destruct (Hr2 i) as [-> _]. unfold sizeDeadDropMessage. lia.
Qed.

End noise_properties.

Section noise_edges.
Context `{NaCl} `{!Onionbox}.

(** The two other outcomes of [GenerateNoise]: the last server makes no noise, whatever
    it draws; and where the number of singles and the rounded number of doubles add up to
    2^32 or more, the uint32 sum wraps to less than the number of singles and slicing
    the noise panics. *)
Theorem GenerateNoise_edges nd sch1 sch2 (settings : RoundSettings) (myPos : nat) :
  ((length (OnionKeys settings) ≤ S myPos)%nat →
   GenerateNoise nd sch1 sch2 settings myPos = Ret None) ∧
  ((S myPos < length (OnionKeys settings))%nat → is_u32 (drawn_singles nd) →
   2 ^ 32 <= drawn_singles nd + even_doubles nd →
   GenerateNoise nd sch1 sch2 settings myPos = Panic).
Proof.
  unfold GenerateNoise. split.
  - intros Hpos. by replace (negb _) with true by (symmetry; apply negb_true_iff; lia).
  - intros Hpos Hs Hwrap. pose proof (even_doubles_range nd) as He.
    replace (negb _) with false by (symmetry; apply negb_false_iff; lia).
    rewrite (slice_is_Some (S myPos)) by lia. cbn [or_panic mbind outcome_bind]. cbn zeta.
    rewrite u32_add_wrap by done. unfold is_u32 in *.
    rewrite (proj2 (slice_None 0 _ _)); [done|]. right. len.
Qed.

End noise_edges.

(** ** Witnesses *)

Module Examples.

Local Existing Instance Toy.nacl.
Local Existing Instance Toy.onionbox.
Local Existing Instance Toy.nacl_laws.
Local Existing Instance Toy.onionbox_laws.

(** A message for dead drop [d] with a body of [b]s. *)
Definition message (d b : Byte.byte) : bytes := replicate 16 d ++ replicate 256 b.
Definition batch : list bytes := [message x01 x0a; message x02 x0b; message x01 x0c; message x01 x0d].
Definition schedule : list (nat * nat) := [(1, 2); (0, 3); (1, 0); (0, 1)]%nat.
Definition service : ConvoService := {| AccessCounts := Some (1%nat, []) |}.

Lemma DeadDropMessage_roundtrip_witness :
  let m := mkDeadDropMessage (replicate 16 x01) (replicate 256 x02) in
  let m0 := mkDeadDropMessage (replicate 16 x00) (replicate 256 x00) in
  Unmarshal (Marshal m) m0 = (m, Ret ()).
Proof.
  intros m m0.
  assert (Hm : wf_message m) by (split; reflexivity).
  assert (Hm0 : wf_message m0) by (split; reflexivity).
  exact (proj1 (proj2 (DeadDropMessage_roundtrip m m0 [] Hm Hm0))).
Defined.

Lemma HandleMessages_refines_exchange_witness :
  HandleMessages schedule batch service =
    ({| AccessCounts := Some (1%nat, [mkAccessCount 1 1]) |},
     Ret [replicate 256 x0c; replicate 256 x0b; replicate 256 x0a; replicate 256 x0a]).
Proof.
  assert (Hwf : wf_batch batch) by (repeat constructor).
  assert (Hs : valid_schedule (length batch) schedule) by (vm_compute; solve_Permutation).
  rewrite (HandleMessages_refines_exchange schedule batch service Hwf Hs).
  vm_compute. reflexivity.
Defined.

Lemma exchange_at_dead_drop_witness :
  exchange batch !! 0%nat = Some (replicate 256 x0c) ∧
  exchange batch !! 3%nat = Some (replicate 256 x0a).
Proof.
  assert (H0 : dests batch !! 0%nat = Some (replicate 16 x01)) by reflexivity.
  assert (Hf : ∀ k, (k < 0)%nat → dests batch !! k ≠ Some (replicate 16 x01)) by lia.
  destruct (exchange_at_dead_drop batch _ 0 H0 Hf) as [_ Hpair].
  destruct (Hpair 2%nat) as (E0 & _ & E3); [lia|reflexivity| |].
  { intros k Hk. by replace k with 1%nat by lia. }
  split; [exact E0|]. apply E3; [lia|reflexivity].
Defined.

Definition sample_draws : draws :=
  mkDraws (λ _, message x07 x08) (λ _, replicate 256 x09) (λ _, [x01]) (λ _, [x02]).
Definition sample_noise : noise_draws := mkNoiseDraws 2 1 sample_draws sample_draws.
Definition sample_sks : list bytes := [[x01]; [x02]; [x03]].
Definition sample_settings : RoundSettings :=
  mkRoundSettings "Convo" 5 (Some ∘ box_Public <$> sample_sks) None inil.

Lemma wf_sample_draws : wf_draws sample_draws.
Proof. intros i. split; reflexivity. Qed.

Lemma GenerateNoise_cover_traffic_witness :
  ∃ noise, GenerateNoise sample_noise [(0, 1); (1, 0)]%nat [(0, 0)]%nat sample_settings 0
             = Ret (Some noise) ∧ length noise = 4%nat.
Proof.
  destruct (GenerateNoise_cover_traffic sample_noise [(0, 1); (1, 0)]%nat [(0, 0)]%nat
              sample_settings sample_sks 0) as (noise & E & Hl & _).
  - reflexivity.
  - cbn. lia.
  - apply wf_sample_draws.
  - apply wf_sample_draws.
  - vm_compute. split; congruence.
  - vm_compute. reflexivity.
  - vm_compute. solve_Permutation.
  - vm_compute. solve_Permutation.
  - exists noise. split; [exact E|]. rewrite Hl. reflexivity.
Defined.

Lemma GenerateNoise_edges_witness :
  let nd := mkNoiseDraws (2 ^ 32 - 1) 1 sample_draws sample_draws in
  GenerateNoise nd [] [] sample_settings 2 = Ret None ∧
  GenerateNoise nd [] [] sample_settings 1 = Panic.
Proof.
  intros nd. split.
  - apply (GenerateNoise_edges nd [] [] sample_settings 2). cbn. lia.
  - apply (GenerateNoise_edges nd [] [] sample_settings 1).
    + cbn. lia.
    + unfold is_u32. cbn. lia.
    + vm_compute. congruence.
Defined.

End Examples.
