(* ===== verification/Mixnet.v ===== *)
(** * The mixer: its state, authentication and the set-up of a round (mixnet/mixnet.go)

    [roundState] is the struct of the same name, with the state of its mutex, wait
    group and channels as fields. The server's [rounds] map points into a store of
    round states: a handler that looked a round up keeps its pointer while the map
    changes, which is what makes concurrent [NewRound]s go wrong. Handlers whose body
    is not one critical section are written as the composition of their atomic parts,
    so that the parts can also be interleaved ([MixInterleave]).

    This file: [auth], [authPrev], [getRound], [NewRound], [SetRoundSettings] with its
    noise goroutine, [DeleteRound]. The onion pipeline is in [MixOnions]. *)

From Stdlib Require Import ZArith Lia.
From stdpp Require Import base numbers strings gmap fin_maps list.
From S2P Require Import Prelude GoStd Json External Pb Settings.

(** ** Errors *)

Inductive auth_error :=
| FailedToGetPeer                  (* codes.DataLoss *)
| UnknownAuthInfo                  (* codes.Unauthenticated, here and below *)
| WrongCertCount (got : nat)
| NotEd25519
| WrongEdtlsKey.

Inductive mix_error :=
| RoundNotFound (round : Z)
| AuthError (e : auth_error)
| UnknownService (service : string)
| GenerateKeyError
| BadServerConfig (e : settings_error)
| NotInChain
| InvalidRoundSettings (e : settings_error)
| WrongKeyCount (want got : nat)
| UnexpectedKey (pos : nat)
| BadMetadata (field : string)
| MultipleNumIncoming (got want : Z)
| OverflowingOnions (offset : Z) (onions : nat) (numIncoming : Z)
| NotBidirectional (service : string)
| InvalidOffsetCount (offset count : Z) (replies : nat)
| RunRoundError (from : nat)
| ServiceError (code : nat).

(** ** The service interface *)

(** [coins] is what the randomised and the parallel methods of a service draw. *)
Record MixService (coins : Type) := mkMixService {
  Bidirectional : bool;
  SizeIncomingMessage : nat;
  SizeReplyMessage : nat;
  ParseServiceData : option bytes → outcome mix_error interface;
  GenerateNoise : coins → RoundSettings → nat → outcome mix_error (option (list bytes));
  HandleMessages : coins → RoundSettings → list bytes → outcome mix_error interface
}.

Arguments Bidirectional {coins}.
Arguments SizeIncomingMessage {coins}.
Arguments SizeReplyMessage {coins}.
Arguments ParseServiceData {coins}.
Arguments GenerateNoise {coins}.
Arguments HandleMessages {coins}.

(** ** The state of a round *)

Record roundState := mkRoundState {
  mu : bool;                          (* held across atomic parts: by CloseRound *)
  settings : RoundSettings;
  settingsSignature : option bytes;
  numIncoming : Z;
  incoming : list (option bytes);     (* None is a nil element *)
  sharedKeys : list bytes;
  incomingIndex : list Z;
  replies : list bytes;
  acceptingOnions : bool;
  decryptWg : nat;                    (* the wait group's counter *)
  encryptDone : bool;                 (* the channel is closed *)
  closed : bool;
  closeResult : string;
  err : option mix_error;
  chain : list PublicServerConfig;
  myPos : nat;
  bidirectional : bool;
  incomingOnionSize : nat;
  onionPrivateKey : bytes;
  onionPublicKey : bytes;
  noise : option (list bytes);
  noiseDone : option bool             (* None is the nil channel; Some b: closed or not *)
}.

Definition eta_roundState (st : roundState) : roundState :=
  mkRoundState (mu st) (settings st) (settingsSignature st) (numIncoming st) (incoming st)
    (sharedKeys st) (incomingIndex st) (replies st) (acceptingOnions st) (decryptWg st)
    (encryptDone st) (closed st) (closeResult st) (err st) (chain st) (myPos st)
    (bidirectional st) (incomingOnionSize st) (onionPrivateKey st) (onionPublicKey st)
    (noise st) (noiseDone st).

Definition set_mu (v : bool) (st : roundState) : roundState := ltac:(set_field eta_roundState mu v st).
Definition set_settings v (st : roundState) : roundState := ltac:(set_field eta_roundState settings v st).
Definition set_settingsSignature v (st : roundState) : roundState :=
  ltac:(set_field eta_roundState settingsSignature v st).
Definition set_numIncoming v (st : roundState) : roundState := ltac:(set_field eta_roundState numIncoming v st).
Definition set_incoming v (st : roundState) : roundState := ltac:(set_field eta_roundState incoming v st).
Definition set_sharedKeys v (st : roundState) : roundState := ltac:(set_field eta_roundState sharedKeys v st).
Definition set_incomingIndex v (st : roundState) : roundState := ltac:(set_field eta_roundState incomingIndex v st).
Definition set_replies v (st : roundState) : roundState := ltac:(set_field eta_roundState replies v st).
Definition set_acceptingOnions v (st : roundState) : roundState :=
  ltac:(set_field eta_roundState acceptingOnions v st).
Definition set_decryptWg v (st : roundState) : roundState := ltac:(set_field eta_roundState decryptWg v st).
Definition set_encryptDone v (st : roundState) : roundState := ltac:(set_field eta_roundState encryptDone v st).
Definition set_closed v (st : roundState) : roundState := ltac:(set_field eta_roundState closed v st).
Definition set_closeResult v (st : roundState) : roundState := ltac:(set_field eta_roundState closeResult v st).
Definition set_err v (st : roundState) : roundState := ltac:(set_field eta_roundState err v st).
Definition set_noise v (st : roundState) : roundState := ltac:(set_field eta_roundState noise v st).
Definition set_noiseDone v (st : roundState) : roundState := ltac:(set_field eta_roundState noiseDone v st).

(** The state [NewRound] allocates: the named fields, zero values elsewhere. *)
Definition new_roundState (chain : list PublicServerConfig) (myPos : nat) (bidir : bool)
    (onionSize : nat) (private public : bytes) : roundState :=
  mkRoundState false zero_settings None 0 [] [] [] [] false 0 false false "" None
    chain myPos bidir onionSize private public None None.

(** ** The server *)

Definition serviceRound : Type := string * Z.
Definition loc : Type := nat.

(** A job for the decryption workers; the goroutine that makes the noise of a round;
    the one that encrypts its replies. *)
Record decryptionJob := mkDecryptionJob {
  job_st : loc; job_round : Z; job_req : pb.AddOnionsRequest
}.
Record noiseJob := mkNoiseJob { noise_st : loc; noise_settings : RoundSettings }.
Record encryptJob := mkEncryptJob {
  encrypt_st : loc; encrypt_service : string; encrypt_round : Z; encrypt_replies : list bytes
}.

Record Server := mkServer {
  rounds : gmap serviceRound loc;
  store : gmap loc roundState;
  decryptionJobs : list decryptionJob;
  noiseJobs : list noiseJob;
  encryptJobs : list encryptJob
}.

Definition init_server : Server := mkServer ∅ ∅ [] [] [].

Definition set_rounds v (srv : Server) : Server :=
  mkServer v (store srv) (decryptionJobs srv) (noiseJobs srv) (encryptJobs srv).
Definition set_store v (srv : Server) : Server :=
  mkServer (rounds srv) v (decryptionJobs srv) (noiseJobs srv) (encryptJobs srv).
Definition set_decryptionJobs v (srv : Server) : Server :=
  mkServer (rounds srv) (store srv) v (noiseJobs srv) (encryptJobs srv).
Definition set_noiseJobs v (srv : Server) : Server :=
  mkServer (rounds srv) (store srv) (decryptionJobs srv) v (encryptJobs srv).
Definition set_encryptJobs v (srv : Server) : Server :=
  mkServer (rounds srv) (store srv) (decryptionJobs srv) (noiseJobs srv) v.

Abbreviation handler := (go Server mix_error).

(** Reading and writing through a pointer. A pointer a handler holds is never dangling. *)
Definition deref (p : loc) : handler roundState :=
  srv ← get;
  match store srv !! p with Some st => mret st | None => panic end.

Definition update (p : loc) (f : roundState → roundState) : handler unit :=
  modify (λ srv, set_store (alter f p (store srv)) srv).

(** [st.mu.Lock()] for a critical section that is one atomic part: it waits while the
    mutex is held. *)
Definition lock (p : loc) : handler roundState :=
  st ← deref p;
  if mu st then block else mret st.

(** ** Authentication *)

(** What gRPC knows of the caller: no peer, a peer without credentials, whose [AuthInfo] is nil,
    credentials that are not TLS, or the certificates of the TLS peer; a certificate's key is
    [None] if it is not ed25519. *)
Inductive context :=
| NoPeer
| NilAuthInfo
| NotTLS
| PeerCertificates (certs : list (option bytes)).

Definition auth (ctx : context) (expectedKey : bytes) : outcome mix_error unit :=
  match ctx with
  | NoPeer => Err (AuthError FailedToGetPeer)
  | NilAuthInfo => Panic                      (* the error message calls [AuthType] on it *)
  | NotTLS => Err (AuthError UnknownAuthInfo)
  | PeerCertificates certs =>
      match certs with
      | [None] => Err (AuthError NotEd25519)
      | [Some peerKey] =>
          if decide (expectedKey = peerKey) then Ret () else Err (AuthError WrongEdtlsKey)
      | _ => Err (AuthError (WrongCertCount (length certs)))
      end
  end.

Section server.
Context {coins : Type} `{NaCl} `{Onionbox} `{Signature}.
Context (SigningKey CoordinatorKey : bytes) (Services : gmap string (MixService coins)).

Definition getRound (service : string) (round : Z) : handler loc :=
  srv ← get;
  match rounds srv !! (service, round) with
  | Some p => mret p
  | None => throw (RoundNotFound round)
  end.

Definition authPrev (ctx : context) (st : roundState) : outcome mix_error unit :=
  expectedKey ←
    (if decide (myPos st = 0)%nat then Ret CoordinatorKey
     else or_panic (Key <$> chain st !! (myPos st - 1)%nat));
  auth ctx expectedKey.

(** ** NewRound *)

(** The loop over the chain: it converts every server and keeps the last position that
    holds the server's own key. *)
Fixpoint parse_chain (myPub : bytes) (i : nat) (confs : list pb.PublicServerConfig) (pos : option nat)
    : outcome mix_error (list PublicServerConfig * option nat) :=
  match confs with
  | [] => Ret ([], pos)
  | conf :: confs =>
      match PublicServerConfig_FromProto conf (mkPublicServerConfig [] "") with
      | (c, Ret _) =>
          let pos := if decide (pb.Key conf = myPub) then Some i else pos in
          '(cs, pos) ← parse_chain myPub (S i) confs pos;
          Ret (c :: cs, pos)
      | (_, Err e) => Err (BadServerConfig e)
      | (_, Panic) => Panic
      | (_, Block) => Block
      end
  end.

(** Up to the release of [roundsMu]: [Some] is the response for a round that exists. *)
Definition NewRound_lookup (ctx : context) (req : pb.NewRoundRequest)
    : handler (option pb.NewRoundResponse) :=
  lift (auth ctx CoordinatorKey);;
  match Services !! pb.NewRound_Service req with
  | None => throw (UnknownService (pb.NewRound_Service req))
  | Some _ =>
      srv ← get;
      match rounds srv !! (pb.NewRound_Service req, pb.NewRound_Round req) with
      | Some p => st ← deref p; mret (Some (pb.mkNewRoundResponse (onionPublicKey st)))
      | None => mret None
      end
  end.

(** The rest, for a round that did not exist: [key] is the private key that
    [box.GenerateKey] drew, or [None] where it failed. *)
Definition NewRound_create (key : option bytes) (req : pb.NewRoundRequest)
    : handler pb.NewRoundResponse :=
  match key with
  | None => throw GenerateKeyError
  | Some private =>
      let public := box_Public private in
      '(chain, pos) ← lift (parse_chain (sig_Public SigningKey) 0 (pb.NewRound_Chain req) None);
      match pos, Services !! pb.NewRound_Service req with
      | None, _ => throw NotInChain
      | Some myPos, Some service =>
          let size := ((length chain - myPos) * onion_Overhead + SizeIncomingMessage service)%nat in
          let st := new_roundState chain myPos (Bidirectional service) size private public in
          modify (λ srv,
            let p := fresh (dom (store srv)) in
            set_rounds (<[(pb.NewRound_Service req, pb.NewRound_Round req) := p]> (rounds srv))
              (set_store (<[p := st]> (store srv)) srv));;
          mret (pb.mkNewRoundResponse public)
      | Some _, None => throw (UnknownService (pb.NewRound_Service req))
      end
  end.

Definition NewRound (ctx : context) (key : option bytes) (req : pb.NewRoundRequest)
    : handler pb.NewRoundResponse :=
  found ← NewRound_lookup ctx req;
  match found with
  | Some resp => mret resp
  | None => NewRound_create key req
  end.

(** ** SetRoundSettings *)

Definition SetRoundSettings (ctx : context) (req : pb.SetRoundSettingsRequest)
    : handler pb.RoundSettingsSignature :=
  lift (auth ctx CoordinatorKey);;
  pbs ← lift (or_panic (pb.Settings req));
  match FromProto pbs zero_settings with
  | (new, Ret _) =>
      p ← getRound (Service new) (Round new);
      service ← lift (or_panic (Services !! Service new));
      serviceData ← lift (ParseServiceData service (RawServiceData new));
      let new := mkRoundSettings (Service new) (Round new) (OnionKeys new) (RawServiceData new)
                                 serviceData in
      st ← lock p;
      match settingsSignature st with
      | Some sig => mret (pb.mkRoundSettingsSignature sig)
      | None =>
          if decide (length (OnionKeys new) ≠ length (chain st))
          then throw (WrongKeyCount (length (chain st)) (length (OnionKeys new)))
          else
            key ← lift (or_panic (mjoin (OnionKeys new !! myPos st)));
            if decide (key ≠ onionPublicKey st) then throw (UnexpectedKey (myPos st))
            else
              let sig := sig_Sign SigningKey (SigningMessage new) in
              update p (set_settings new);;
              update p (set_settingsSignature (Some sig));;
              update p (set_noiseDone (Some false));;
              modify (λ srv, set_noiseJobs (noiseJobs srv ++ [mkNoiseJob p new]) srv);;
              mret (pb.mkRoundSettingsSignature sig)
      end
  | (_, Err e) => throw (InvalidRoundSettings e)
  | (_, Panic) => panic
  | (_, Block) => block
  end.

(** The goroutine: [close] panics on a channel that is closed already. *)
Definition run_noise_job (c : coins) (job : noiseJob) : handler unit :=
  let p := noise_st job in
  service ← lift (or_panic (Services !! Service (noise_settings job)));
  st ← deref p;
  made ← lift (GenerateNoise service c (noise_settings job) (myPos st));
  update p (set_noise made);;
  match noiseDone st with
  | Some false => update p (set_noiseDone (Some true))
  | Some true | None => panic
  end.

(** ** DeleteRound *)

Definition DeleteRound (ctx : context) (req : pb.DeleteRoundRequest) : handler unit :=
  p ← getRound (pb.DeleteRound_Service req) (pb.DeleteRound_Round req);
  st ← deref p;
  lift (authPrev ctx st);;
  modify (λ srv,
    set_rounds (delete (pb.DeleteRound_Service req, pb.DeleteRound_Round req) (rounds srv)) srv).

End server.

(** ** Running handlers

    [put_round p st srv] is [srv] with [st] at [p]. The lemmas of the rewrite database
    [handlers] run a handler on a state of this form; the tactic [run] does so as far
    as the guards are decided. *)

Definition put_round (p : loc) (st : roundState) (srv : Server) : Server :=
  set_store (<[p := st]> (store srv)) srv.

Lemma put_round_id p st srv : store srv !! p = Some st → put_round p st srv = srv.
Proof. intros E. unfold put_round. rewrite insert_id by done. by destruct srv. Qed.

Lemma put_round_twice p st st' srv : put_round p st' (put_round p st srv) = put_round p st' srv.
Proof. unfold put_round, set_store. cbn. by rewrite insert_insert_eq. Qed.

Lemma lookup_put_round p st srv : store (put_round p st srv) !! p = Some st.
Proof. apply lookup_insert_eq. Qed.

Lemma lookup_put_round_ne p q st srv : p ≠ q → store (put_round p st srv) !! q = store srv !! q.
Proof. apply lookup_insert_ne. Qed.

Lemma deref_put p st srv : deref p (put_round p st srv) = (put_round p st srv, Ret st).
Proof. unfold deref. rewrite go_bind_unfold. cbn [get]. by rewrite lookup_put_round. Qed.

Lemma deref_run p st srv : store srv !! p = Some st → deref p srv = (srv, Ret st).
Proof. intros Hp. unfold deref. rewrite go_bind_unfold. cbn [get]. by rewrite Hp. Qed.

Lemma update_put p st f srv : update p f (put_round p st srv) = (put_round p (f st) srv, Ret ()).
Proof.
  unfold update, put_round, set_store. cbn. do 2 f_equal.
  by rewrite alter_insert_eq.
Qed.

Lemma lock_put p st srv :
  lock p (put_round p st srv) = (put_round p st srv, if mu st then Block else Ret st).
Proof. unfold lock. rewrite go_bind_unfold, deref_put. by destruct (mu st). Qed.

Lemma mret_run {S E A} (a : A) (s : S) : (mret a : go S E A) s = (s, Ret a).
Proof. done. Qed.

Lemma throw_run {S E A} (e : E) (s : S) : (throw e : go S E A) s = (s, Err e).
Proof. done. Qed.

Lemma lift_run {S E A} (o : outcome E A) (s : S) : lift o s = (s, o).
Proof. done. Qed.

Lemma modify_run {S E} (f : S → S) (s : S) : modify (E:=E) f s = (f s, Ret ()).
Proof. done. Qed.

Lemma or_panic_Some {E A} (a : A) : or_panic (E:=E) (Some a) = Ret a.
Proof. done. Qed.

Create Rewrite HintDb handlers.
#[export] Hint Rewrite @go_bind_unfold deref_put update_put lock_put @mret_run @throw_run @lift_run
  @modify_run @or_panic_Some put_round_twice : handlers.

Ltac run := repeat ((progress (autorewrite with handlers)) || (progress (cbn beta iota zeta))).

(** The rounds map does not see what is stored. *)
Lemma rounds_put p st srv : rounds (put_round p st srv) = rounds srv.
Proof. done. Qed.

Lemma getRound_run service round p srv :
  rounds srv !! (service, round) = Some p → getRound service round srv = (srv, Ret p).
Proof. intros E. unfold getRound. rewrite go_bind_unfold. cbn. by rewrite E. Qed.

Lemma getRound_missing service round srv :
  rounds srv !! (service, round) = None →
  getRound service round srv = (srv, Err (RoundNotFound round)).
Proof. intros E. unfold getRound. rewrite go_bind_unfold. cbn. by rewrite E. Qed.

(** ** Authentication *)

(** The caller presents exactly one certificate, for the ed25519 key [k]. *)
Definition authenticated (ctx : context) (k : bytes) : Prop := ctx = PeerCertificates [Some k].

Lemma auth_ok ctx k : authenticated ctx k → auth ctx k = Ret ().
Proof. intros ->. cbn. by rewrite decide_True. Qed.

(** How a caller is turned away: with an authentication error, or by a panic if its [AuthInfo] is nil. *)
Definition refused {A} (ctx : context) (o : outcome mix_error A) : Prop :=
  match ctx with NilAuthInfo => o = Panic | _ => ∃ e, o = Err (AuthError e) end.

Definition refuses {A} (ctx : context) (call : handler A) (srv : Server) : Prop :=
  ∃ o, call srv = (srv, o) ∧ refused ctx o.

Lemma auth_refuses {A} ctx k (f : unit → handler A) srv :
  ¬ authenticated ctx k → refuses ctx (lift (auth ctx k) ≫= f) srv.
Proof.
  unfold authenticated, refuses. intros H.
  assert (Ha : auth ctx k ≠ Ret () ∧ auth ctx k ≠ Block ∧ refused ctx (auth ctx k)).
  { destruct ctx as [| | |[|[key|] [|? ?]]]; cbn; try (by eauto). case_decide; [by subst|eauto]. }
  destruct Ha as (H1 & H2 & H3). rewrite go_bind_unfold. cbn [lift].
  destruct (auth ctx k) as [[]|e| |]; [done| | |done]; eexists; (split; [done|]); destruct ctx; naive_solver.
Qed.

Lemma refuses_bind {A B} ctx (m : handler A) (f : A → handler B) srv :
  refuses ctx m srv → refuses ctx (m ≫= f) srv.
Proof.
  intros (o & E & Ho). unfold refuses. rewrite go_bind_unfold, E. destruct o as [a|e| |].
  - exfalso. destruct ctx; naive_solver.
  - eexists. split; [done|]. destruct ctx; naive_solver.
  - eexists. split; [done|]. destruct ctx; naive_solver.
  - exfalso. destruct ctx; naive_solver.
Qed.

Lemma auth_inv ctx k : auth ctx k = Ret () → authenticated ctx k.
Proof.
  unfold authenticated. destruct ctx as [| | |[|[key|] [|? ?]]]; cbn; try done.
  case_decide; [by subst|done].
Qed.

Section lemmas.
Context {coins : Type} `{NaCl} `{Onionbox} `{Signature}.
Context (SigningKey CoordinatorKey : bytes) (Services : gmap string (MixService coins)).

(** Whose calls a server takes for a round. *)
Definition prev_key (st : roundState) : option bytes :=
  if decide (myPos st = 0)%nat then Some CoordinatorKey else Key <$> chain st !! (myPos st - 1)%nat.

Lemma authPrev_eq ctx st k : prev_key st = Some k → authPrev CoordinatorKey ctx st = auth ctx k.
Proof.
  unfold prev_key, authPrev. case_decide; [by intros [= ->]|].
  intros ->. done.
Qed.

Lemma NewRound_lookup_existing ctx req svc p st srv :
  authenticated ctx CoordinatorKey → Services !! pb.NewRound_Service req = Some svc →
  rounds srv !! (pb.NewRound_Service req, pb.NewRound_Round req) = Some p → store srv !! p = Some st →
  NewRound_lookup CoordinatorKey Services ctx req srv =
    (srv, Ret (Some (pb.mkNewRoundResponse (onionPublicKey st)))).
Proof.
  intros Ha Hs Hr Hp. unfold NewRound_lookup. rewrite go_bind_unfold, lift_run, (auth_ok _ _ Ha), Hs.
  rewrite go_bind_unfold. cbn [get]. rewrite Hr, go_bind_unfold.
  rewrite <- (put_round_id p st srv) at 1 by done. rewrite deref_put. by rewrite put_round_id.
Qed.

Lemma NewRound_lookup_missing ctx req svc srv :
  authenticated ctx CoordinatorKey → Services !! pb.NewRound_Service req = Some svc →
  rounds srv !! (pb.NewRound_Service req, pb.NewRound_Round req) = None →
  NewRound_lookup CoordinatorKey Services ctx req srv = (srv, Ret None).
Proof.
  intros Ha Hs Hr. unfold NewRound_lookup. rewrite go_bind_unfold, lift_run, (auth_ok _ _ Ha), Hs.
  rewrite go_bind_unfold. cbn [get]. by rewrite Hr.
Qed.

(** The chain a request names, when every key has its size. *)
Definition conf_of (c : pb.PublicServerConfig) : PublicServerConfig :=
  mkPublicServerConfig (pb.Key c) (pb.Address c).

Lemma parse_chain_ok myPub i confs pos :
  Forall (λ c, length (pb.Key c) = PublicKeySize) confs →
  ∃ pos', parse_chain myPub i confs pos = Ret (conf_of <$> confs, pos') ∧
    match pos' with
    | Some j => (pos = Some j ∧ ∀ c, c ∈ confs → pb.Key c ≠ myPub) ∨
                ∃ k c, j = (i + k)%nat ∧ confs !! k = Some c ∧ pb.Key c = myPub ∧
                  ∀ k' c', (k < k')%nat → confs !! k' = Some c' → pb.Key c' ≠ myPub
    | None => pos = None ∧ ∀ c, c ∈ confs → pb.Key c ≠ myPub
    end.
Proof.
  revert i pos. induction confs as [|c confs IH]; intros i pos Hk; cbn [parse_chain].
  - exists pos. split; [done|]. destruct pos; [left|]; (split; [done|]); intros ? []%elem_of_nil.
  - apply Forall_cons in Hk as [Hc Hk]. unfold PublicServerConfig_FromProto.
    rewrite decide_False by auto. cbn [put].
    destruct (IH (S i) (if decide (pb.Key c = myPub) then Some i else pos) Hk) as (pos' & E & Hpos).
    rewrite E. cbn. exists pos'. split; [done|].
    assert (Hc0 : pb.Key c = myPub → (∀ c', c' ∈ confs → pb.Key c' ≠ myPub) →
      ∃ k c0, i = (i + k)%nat ∧ (c :: confs) !! k = Some c0 ∧ pb.Key c0 = myPub ∧
        ∀ k' c', (k < k')%nat → (c :: confs) !! k' = Some c' → pb.Key c' ≠ myPub).
    { intros Ec Hn. exists 0%nat, c. split; [lia|]. split; [done|]. split; [done|].
      intros [|k'] c' Hk' Hc'; [lia|]. by eapply Hn, list_elem_of_lookup_2. }
    destruct pos' as [j|].
    + destruct Hpos as [[Hp Hn]|(k & c0 & -> & Hc1 & Hc2 & Hlast)].
      * case_decide as Ec; [injection Hp as ->; right; by apply Hc0|].
        left. split; [done|]. intros c' [->|Hc']%elem_of_cons; auto.
      * right. exists (S k), c0. split; [lia|]. split; [done|]. split; [done|].
        intros [|k'] c' Hk' Hc'; [lia|]. eapply Hlast; [|done]. lia.
    + destruct Hpos as [Hp Hn]. case_decide; [done|]. split; [done|].
      intros c' [->|Hc']%elem_of_cons; auto.
Qed.

(** What [NewRound] stores for a request and the private key it drew. *)
Definition created (svc : MixService coins) (private : bytes) (req : pb.NewRoundRequest) (pos : nat)
    : roundState :=
  new_roundState (conf_of <$> pb.NewRound_Chain req) pos (Bidirectional svc)
    ((length (pb.NewRound_Chain req) - pos) * onion_Overhead + SizeIncomingMessage svc)
    private (box_Public private).

Definition add_round (sr : serviceRound) (st : roundState) (srv : Server) : Server :=
  let p := fresh (dom (store srv)) in
  set_rounds (<[sr := p]> (rounds srv)) (put_round p st srv).

(** The last position of the server's key in the chain. *)
Definition own_position (req : pb.NewRoundRequest) (pos : nat) : Prop :=
  ∃ c, pb.NewRound_Chain req !! pos = Some c ∧ pb.Key c = sig_Public SigningKey ∧
    ∀ k c', (pos < k)%nat → pb.NewRound_Chain req !! k = Some c' → pb.Key c' ≠ sig_Public SigningKey.

Lemma NewRound_create_ok private req svc srv :
  Services !! pb.NewRound_Service req = Some svc →
  Forall (λ c, length (pb.Key c) = PublicKeySize) (pb.NewRound_Chain req) →
  (∃ c, c ∈ pb.NewRound_Chain req ∧ pb.Key c = sig_Public SigningKey) →
  ∃ pos, own_position req pos ∧
    NewRound_create SigningKey Services (Some private) req srv =
      (add_round (pb.NewRound_Service req, pb.NewRound_Round req) (created svc private req pos) srv,
       Ret (pb.mkNewRoundResponse (box_Public private))).
Proof.
  intros Hs Hk (c & Hc & Ec).
  destruct (parse_chain_ok (sig_Public SigningKey) 0 (pb.NewRound_Chain req) None Hk)
    as ([j|] & E & Hj).
  - destruct Hj as [[? _]|(k & c' & -> & Hk1 & Hk2 & Hk3)]; [done|]. exists k.
    split; [by exists c'|]. unfold NewRound_create. rewrite go_bind_unfold, lift_run, E, Hs.
    rewrite length_fmap. done.
  - destruct Hj as [_ Hn]. exfalso. by eapply Hn.
Qed.

(** The settings a request carries, with the service's reading of the raw data. *)
Definition requested (pbs : pb.RoundSettings) (data : interface) : RoundSettings :=
  mkRoundSettings (pb.Service pbs) (pb.Round pbs) (Some <$> pb.OnionKeys pbs) (pb.ServiceData pbs) data.

Lemma FromProto_requested pbs :
  Forall (λ k, length k = 32%nat) (pb.OnionKeys pbs) →
  FromProto pbs zero_settings = (requested pbs inil, Ret ()).
Proof.
  intros Hk. unfold FromProto. rewrite !go_bind_unfold. cbn [modify]. rewrite go_bind_unfold.
  rewrite FromProto_keys_ok; [|eapply Forall_impl; [exact Hk|cbn; lia]|cbn; len].
  cbn. unfold requested. do 3 f_equal. apply list_fmap_ext. intros i k Hi. cbn. f_equal.
  apply take_ge. rewrite Forall_forall in Hk. rewrite (Hk k); [lia|by eapply list_elem_of_lookup_2].
Qed.

(** The state after the settings are accepted, and the goroutine that was started. *)
Definition with_settings (new : RoundSettings) (st : roundState) : roundState :=
  set_noiseDone (Some false)
    (set_settingsSignature (Some (sig_Sign SigningKey (SigningMessage new))) (set_settings new st)).

Definition add_noise_job (job : noiseJob) (srv : Server) : Server :=
  set_noiseJobs (noiseJobs srv ++ [job]) srv.

(** Up to the lock, a request whose round is found and whose data parses. *)
Lemma SetRoundSettings_locked ctx pbs p st svc data srv :
  authenticated ctx CoordinatorKey → Forall (λ k, length k = 32%nat) (pb.OnionKeys pbs) →
  rounds srv !! (pb.Service pbs, pb.Round pbs) = Some p → mu st = false →
  Services !! pb.Service pbs = Some svc → ParseServiceData svc (pb.ServiceData pbs) = Ret data →
  let new := requested pbs data in
  SetRoundSettings SigningKey CoordinatorKey Services ctx (pb.mkSetRoundSettingsRequest (Some pbs))
      (put_round p st srv) =
    match settingsSignature st with
    | Some sig => (put_round p st srv, Ret (pb.mkRoundSettingsSignature sig))
    | None =>
        if decide (length (pb.OnionKeys pbs) ≠ length (chain st))
        then (put_round p st srv, Err (WrongKeyCount (length (chain st)) (length (pb.OnionKeys pbs))))
        else
          match pb.OnionKeys pbs !! myPos st with
          | None => (put_round p st srv, Panic)
          | Some key =>
              if decide (key ≠ onionPublicKey st)
              then (put_round p st srv, Err (UnexpectedKey (myPos st)))
              else (add_noise_job (mkNoiseJob p new) (put_round p (with_settings new st) srv),
                    Ret (pb.mkRoundSettingsSignature (sig_Sign SigningKey (SigningMessage new))))
          end
    end.
Proof.
  intros Ha Hk Hr Hmu Hs Hd new. unfold SetRoundSettings. cbn [pb.Settings or_panic].
  run. rewrite (auth_ok _ _ Ha). run. rewrite FromProto_requested by done.
  run. rewrite (getRound_run _ _ p) by exact Hr. run. cbn [Service Round requested]. rewrite Hs. run.
  cbn [or_panic RawServiceData requested]. rewrite Hd. run. rewrite Hmu.
  destruct (settingsSignature st) as [sig|]; [done|].
  cbn [OnionKeys requested]. rewrite length_fmap. case_decide; [done|].
  run. rewrite list_lookup_fmap. destruct (pb.OnionKeys pbs !! myPos st) as [key|]; [|done].
  change (mjoin (Some <$> Some key)) with (Some key). cbn [or_panic].
  case_decide; [done|]. run. reflexivity.
Qed.

(** The first key of a wrong size stops the loop. *)
Lemma parse_chain_bad myPub i pre c post pos :
  Forall (λ c, length (pb.Key c) = PublicKeySize) pre → length (pb.Key c) ≠ PublicKeySize →
  parse_chain myPub i (pre ++ c :: post) pos = Err (BadServerConfig (InvalidServerKey (pb.Key c))).
Proof.
  intros Hpre Hc. revert i pos. induction Hpre as [|c0 pre Hc0 _ IH]; intros i pos;
    cbn [parse_chain app]; unfold PublicServerConfig_FromProto.
  - by rewrite decide_True.
  - rewrite decide_False by auto. cbn [put]. by rewrite IH.
Qed.

End lemmas.

(** ** Properties of the set-up *)

Section properties.
Context {coins : Type} `{NaCl} `{Onionbox} `{Signature}.
Context (SigningKey CoordinatorKey : bytes) (Services : gmap string (MixService coins)).

(** [NewRound] on a round the server does not have: for an authenticated request whose
    chain holds well-sized keys, the server's own among them, it stores a fresh round
    under the service and round number, with the chain, the server's (last) position in
    it, the size of the onions that will arrive there and the new key pair, and returns
    the public key. No other round and no stored state is touched. From then on every
    authenticated request for that round, whatever chain it names and whatever key
    would be drawn, gets the same key and changes nothing. *)
Theorem NewRound_creates_once (ctx ctx' : context) private key' req req' svc srv :
  authenticated ctx CoordinatorKey → authenticated ctx' CoordinatorKey →
  Services !! pb.NewRound_Service req = Some svc →
  rounds srv !! (pb.NewRound_Service req, pb.NewRound_Round req) = None →
  Forall (λ c, length (pb.Key c) = PublicKeySize) (pb.NewRound_Chain req) →
  (∃ c, c ∈ pb.NewRound_Chain req ∧ pb.Key c = sig_Public SigningKey) →
  pb.NewRound_Service req' = pb.NewRound_Service req → pb.NewRound_Round req' = pb.NewRound_Round req →
  ∃ srv' p st pos,
    NewRound SigningKey CoordinatorKey Services ctx (Some private) req srv =
      (srv', Ret (pb.mkNewRoundResponse (box_Public private))) ∧
    own_position SigningKey req pos ∧ st = created svc private req pos ∧
    store srv !! p = None ∧ store srv' = <[p := st]> (store srv) ∧
    rounds srv' = <[(pb.NewRound_Service req, pb.NewRound_Round req) := p]> (rounds srv) ∧
    NewRound SigningKey CoordinatorKey Services ctx' key' req' srv' =
      (srv', Ret (pb.mkNewRoundResponse (box_Public private))).
Proof.
  intros Ha Ha' Hs Hr Hk Hown Es Er.
  destruct (NewRound_create_ok SigningKey Services private req svc srv Hs Hk Hown) as (pos & Hpos & E).
  set (srv' := add_round _ _ srv) in E. set (p := fresh (dom (store srv))).
  assert (Hp : store srv !! p = None) by (apply not_elem_of_dom, is_fresh).
  exists srv', p, (created svc private req pos), pos. split.
  { unfold NewRound. rewrite go_bind_unfold, (NewRound_lookup_missing _ _ _ _ svc) by done. exact E. }
  do 5 (split; [done|]).
  unfold NewRound. rewrite go_bind_unfold.
  rewrite (NewRound_lookup_existing _ _ _ _ svc p (created svc private req pos)); [done|done| | |].
  - by rewrite Es.
  - rewrite Es, Er. apply lookup_insert_eq.
  - apply lookup_insert_eq.
Qed.

(** Why a request for a new round is refused, in the order of the checks; a refused
    request changes nothing. *)
Theorem NewRound_refuses (ctx : context) key req srv :
  (¬ authenticated ctx CoordinatorKey →
     refuses ctx (NewRound SigningKey CoordinatorKey Services ctx key req) srv) ∧
  (authenticated ctx CoordinatorKey → Services !! pb.NewRound_Service req = None →
     NewRound SigningKey CoordinatorKey Services ctx key req srv =
       (srv, Err (UnknownService (pb.NewRound_Service req)))) ∧
  (authenticated ctx CoordinatorKey → is_Some (Services !! pb.NewRound_Service req) →
   rounds srv !! (pb.NewRound_Service req, pb.NewRound_Round req) = None →
     (key = None → NewRound SigningKey CoordinatorKey Services ctx key req srv =
        (srv, Err GenerateKeyError)) ∧
     (is_Some key → Forall (λ c, length (pb.Key c) = PublicKeySize) (pb.NewRound_Chain req) →
      (∀ c, c ∈ pb.NewRound_Chain req → pb.Key c ≠ sig_Public SigningKey) →
      NewRound SigningKey CoordinatorKey Services ctx key req srv = (srv, Err NotInChain)) ∧
     (∀ pre c post, is_Some key → pb.NewRound_Chain req = pre ++ c :: post →
      Forall (λ c, length (pb.Key c) = PublicKeySize) pre → length (pb.Key c) ≠ PublicKeySize →
      NewRound SigningKey CoordinatorKey Services ctx key req srv =
        (srv, Err (BadServerConfig (InvalidServerKey (pb.Key c)))))).
Proof.
  split; [|split].
  - intros Ha. by apply refuses_bind, auth_refuses.
  - intros Ha Hs. unfold NewRound, NewRound_lookup.
    by rewrite !go_bind_unfold, lift_run, (auth_ok _ _ Ha), Hs.
  - intros Ha [svc Hs] Hr. unfold NewRound. rewrite go_bind_unfold.
    rewrite (NewRound_lookup_missing _ _ _ _ svc) by done. split; [by intros ->|split].
    + intros [private ->] Hk Hn.
      destruct (parse_chain_ok (sig_Public SigningKey) 0 (pb.NewRound_Chain req) None Hk)
        as ([j|] & E & Hj).
      * destruct Hj as [[? _]|(k & c & _ & Hc%list_elem_of_lookup_2 & Ec & _)]; [done|].
        exfalso. by eapply Hn.
      * unfold NewRound_create. by rewrite go_bind_unfold, lift_run, E.
    + intros pre c post [private ->] E Hpre Hc. unfold NewRound_create.
      rewrite go_bind_unfold, lift_run, E, parse_chain_bad by done. done.
Qed.

(** The look-up and the insertion of [NewRound] are two critical sections. When two
    calls for one round interleave so that both look it up before either stores it,
    they return two different keys, and only the key of the second is the one of the
    round that the server keeps: the first caller holds a key that nobody will use. *)
Theorem NewRound_race (ctx : context) private1 private2 req svc srv :
  authenticated ctx CoordinatorKey → Services !! pb.NewRound_Service req = Some svc →
  rounds srv !! (pb.NewRound_Service req, pb.NewRound_Round req) = None →
  Forall (λ c, length (pb.Key c) = PublicKeySize) (pb.NewRound_Chain req) →
  (∃ c, c ∈ pb.NewRound_Chain req ∧ pb.Key c = sig_Public SigningKey) →
  ∃ srv1 srv2 p st,
    NewRound_lookup CoordinatorKey Services ctx req srv = (srv, Ret None) ∧
    NewRound_create SigningKey Services (Some private1) req srv =
      (srv1, Ret (pb.mkNewRoundResponse (box_Public private1))) ∧
    NewRound_create SigningKey Services (Some private2) req srv1 =
      (srv2, Ret (pb.mkNewRoundResponse (box_Public private2))) ∧
    rounds srv2 !! (pb.NewRound_Service req, pb.NewRound_Round req) = Some p ∧
    store srv2 !! p = Some st ∧ onionPublicKey st = box_Public private2.
Proof.
  intros Ha Hs Hr Hk Hown.
  destruct (NewRound_create_ok SigningKey Services private1 req svc srv Hs Hk Hown) as (pos & _ & E1).
  set (srv1 := add_round _ _ srv) in E1.
  destruct (NewRound_create_ok SigningKey Services private2 req svc srv1 Hs Hk Hown) as (pos' & _ & E2).
  do 4 eexists. split; [by apply (NewRound_lookup_missing _ _ _ _ svc)|].
  split; [exact E1|]. split; [exact E2|]. unfold add_round. cbn [rounds store set_rounds].
  split; [apply lookup_insert_eq|]. split; [apply lookup_put_round|done].
Qed.

(** C10. [SetRoundSettings] binds a round to one settings message. The first request that
    names as many keys as the chain has servers, and the server's own key at its
    position, is stored, signed and starts the noise; the response is the signature of
    exactly these settings. A request with other keys is refused and changes nothing.
    Once settings are stored, every request, whatever settings it names, gets their
    signature again and changes nothing, so that a server never signs two different
    settings for one round. *)
Theorem SetRoundSettings_binds (ctx : context) pbs p st svc data srv :
  authenticated ctx CoordinatorKey → Forall (λ k, length k = 32%nat) (pb.OnionKeys pbs) →
  rounds srv !! (pb.Service pbs, pb.Round pbs) = Some p → store srv !! p = Some st → mu st = false →
  Services !! pb.Service pbs = Some svc → ParseServiceData svc (pb.ServiceData pbs) = Ret data →
  (myPos st < length (chain st))%nat →
  let req := pb.mkSetRoundSettingsRequest (Some pbs) in
  let new := requested pbs data in
  let call := SetRoundSettings SigningKey CoordinatorKey Services ctx req in
  (∀ sig, settingsSignature st = Some sig → call srv = (srv, Ret (pb.mkRoundSettingsSignature sig))) ∧
  (settingsSignature st = None → length (pb.OnionKeys pbs) ≠ length (chain st) →
   call srv = (srv, Err (WrongKeyCount (length (chain st)) (length (pb.OnionKeys pbs))))) ∧
  (settingsSignature st = None → length (pb.OnionKeys pbs) = length (chain st) →
   pb.OnionKeys pbs !! myPos st ≠ Some (onionPublicKey st) →
   call srv = (srv, Err (UnexpectedKey (myPos st)))) ∧
  (settingsSignature st = None → length (pb.OnionKeys pbs) = length (chain st) →
   pb.OnionKeys pbs !! myPos st = Some (onionPublicKey st) →
   let sig := sig_Sign SigningKey (SigningMessage new) in
   let srv' := add_noise_job (mkNoiseJob p new) (put_round p (with_settings SigningKey new st) srv) in
   call srv = (srv', Ret (pb.mkRoundSettingsSignature sig)) ∧
   ∀ ctx' pbs' data', authenticated ctx' CoordinatorKey →
     Forall (λ k, length k = 32%nat) (pb.OnionKeys pbs') →
     pb.Service pbs' = pb.Service pbs → pb.Round pbs' = pb.Round pbs →
     ParseServiceData svc (pb.ServiceData pbs') = Ret data' →
     SetRoundSettings SigningKey CoordinatorKey Services ctx' (pb.mkSetRoundSettingsRequest (Some pbs')) srv' =
       (srv', Ret (pb.mkRoundSettingsSignature sig))).
Proof.
  intros Ha Hk Hr Hp Hmu Hs Hd Hpos req new call.
  pose proof (SetRoundSettings_locked SigningKey CoordinatorKey Services ctx pbs p st svc data srv
                Ha Hk Hr Hmu Hs Hd) as E. cbv zeta in E. rewrite put_round_id in E by done.
  fold req new call in E. split; [|split; [|split]].
  - intros sig Hsig. by rewrite E, Hsig.
  - intros Hsig Hl. by rewrite E, Hsig, decide_True.
  - intros Hsig Hl Hkey. rewrite E, Hsig, decide_False by auto.
    destruct (lookup_lt_is_Some_1 (pb.OnionKeys pbs) (myPos st)) as [key Ek]; [lia|].
    rewrite Ek in *. by rewrite decide_True by congruence.
  - intros Hsig Hl Hkey sig srv'.
    split; [by rewrite E, Hsig, decide_False, Hkey, decide_False by auto|].
    intros ctx' pbs' data' Ha' Hk' Es Er Hd'.
    change srv' with (put_round p (with_settings SigningKey new st)
                        (add_noise_job (mkNoiseJob p new) srv)).
    rewrite (SetRoundSettings_locked _ _ _ _ _ _ _ svc data'); try done; rewrite Es, ?Er; done.
Qed.

End properties.
