(* ===== verification/SettingsWire.v ===== *)
(** * The settings of a round over the wire

    What the client of the mixnet sends with [SetRoundSettings] (mixnet.go, [Client.NewRound]), and
    what the server has of it after the generated code and [FromProto]. *)

From Stdlib Require Import ZArith Lia.
From stdpp Require Import base numbers strings gmap list.
From S2P Require Import Prelude Json External Pb ProtoWire ProtoMessages ProtoFacts ProtoLaws Settings Mixnet.

(** The request for some settings. *)
Definition settings_request (s : RoundSettings) : outcome wire_error pb.SetRoundSettingsRequest :=
  pbs ← Proto s;
  Ret (pb.mkSetRoundSettingsRequest (Some pbs)).

(** What the server has after the call came in. *)
Definition received_settings (dAtA : bytes) : outcome wire_error (option RoundSettings) :=
  req ← Unmarshal dAtA (new_message : pb.SetRoundSettingsRequest);
  pbs ← or_panic (pb.Settings req);
  Ret (match FromProto pbs zero_settings with (s, Ret _) => Some s | _ => None end).

(** An empty service data does not come through. *)
Definition wire_data (data : option bytes) : option bytes :=
  d ← data; if decide (0 < len d) then Some d else None.

Lemma wire_data_same data : data ≠ Some [] → wire_data data = data.
Proof.
  intros Hd. destruct data as [[|b d]|]; [done| |done]. cbn -[len]. by rewrite decide_True by (unfold len; cbn; lia).
Qed.

(** C22. The settings of a round come over the wire, with the same signing message: what the server signs is what the
    sender will check the signature of. Except where the sender has an empty service data that is not nil: the server
    gets a nil one, and signs another message. *)
Theorem settings_over_the_wire (s : RoundSettings) req :
  wf_keys (OnionKeys s) → is_u32 (Round s) → settings_request s = Ret req → Size req < memory →
  ∃ bs s', Marshal req = Ret bs ∧ received_settings bs = Ret (Some s') ∧
    Service s' = Service s ∧ Round s' = Round s ∧ OnionKeys s' = OnionKeys s ∧
    (SigningMessage s' = SigningMessage s ↔ RawServiceData s ≠ Some []).
Proof.
  intros Hk Hr Hreq Hsize.
  destruct (Proto_wf (E := wire_error) s Hk) as (keys & Ekeys & Hlen & HP). unfold settings_request in Hreq.
  rewrite HP in Hreq. injection Hreq as <-.
  set (pbs := pb.mkRoundSettings (Service s) (Round s) keys (RawServiceData s)) in *.
  set (req := pb.mkSetRoundSettingsRequest (Some pbs)) in *.
  assert (Hin : in_range req) by exact Hr.
  rewrite (size_ok req Hin) in Hsize.
  set (s' := mkRoundSettings (Service s) (Round s) (OnionKeys s) (wire_data (RawServiceData s)) inil).
  exists (text (items req)), s'. split; [by apply Marshal_text|]. split_and!; [|done..|].
  - unfold received_settings. rewrite (Unmarshal_items req Hin Hsize). cbn [mbind outcome_bind].
    change (pb.Settings (normal req)) with (Some (normal pbs)). cbn [or_panic mbind outcome_bind].
    assert (Hwf : wf_keys (OnionKeys s')) by exact Hk.
    destruct (RoundSettings_roundtrip s' zero_settings Hwf) as (pbs' & HP' & HF).
    assert (Epbs : normal pbs = pbs').
    { unfold Proto in HP'. cbn [OnionKeys s'] in HP'. rewrite Ekeys, mapM_id_Some in HP'. cbn in HP'. by injection HP' as <-. }
    rewrite Epbs, HF. done.
  - split.
    + intros E Hd. unfold SigningMessage in E. cbn [Service Round OnionKeys RawServiceData s'] in E. rewrite Hd in E.
      do 3 apply app_inv_head in E. do 9 apply app_inv_head in E. discriminate.
    + intros Hd. unfold s'. rewrite wire_data_same by done. done.
Qed.

Definition some_settings : RoundSettings :=
  mkRoundSettings "Convo" 7 [Some (replicate 32 x01); Some (replicate 32 x02)] (Some []) inil.

Definition some_request : pb.SetRoundSettingsRequest :=
  pb.mkSetRoundSettingsRequest
    (Some (pb.mkRoundSettings "Convo" 7 [replicate 32 x01; replicate 32 x02] (Some []))).

Lemma settings_over_the_wire_witness :
  ∃ bs s', settings_request some_settings = Ret some_request ∧ Marshal some_request = Ret bs ∧
    received_settings bs = Ret (Some s') ∧ Round s' = 7 ∧ SigningMessage s' ≠ SigningMessage some_settings.
Proof.
  assert (Hk : wf_keys (OnionKeys some_settings)) by (repeat constructor; eauto).
  assert (Hr : is_u32 (Round some_settings)) by (split; [discriminate|reflexivity]).
  destruct (settings_over_the_wire some_settings some_request Hk Hr eq_refl eq_refl) as (bs & s' & E1 & E2 & _ & E3 & _ & E4).
  exists bs, s'. split; [reflexivity|]. split; [exact E1|]. split; [exact E2|]. split; [exact E3|].
  intros E. exact (proj1 E4 E eq_refl).
Defined.

(** A request of no bytes has no settings, and the handler reads the fields of the nil pointer for its log entry. *)
Theorem SetRoundSettings_without_settings `{Signature} (coins : Type) SigningKey CoordinatorKey
    (Services : gmap string (MixService coins)) ctx srv :
  auth ctx CoordinatorKey = Ret () →
  ∃ req, Unmarshal [] (new_message : pb.SetRoundSettingsRequest) = Ret req ∧
    SetRoundSettings SigningKey CoordinatorKey Services ctx req srv = (srv, Panic).
Proof.
  intros Ha. exists (pb.mkSetRoundSettingsRequest None). split; [done|]. unfold SetRoundSettings.
  rewrite go_bind_unfold. unfold lift. by rewrite Ha.
Qed.
