(* ===== verification/MixOnions.v ===== *)
(** * The mixer: the onions of a round (mixnet/mixnet.go)

    [AddOnions] and the decryption workers, [filterIncoming], [CloseRound] with the
    goroutine that encrypts the replies, [GetOnions].

    A stream is the sequence of its requests: [AddOnions_begin] is the handler up to
    its loop, [AddOnions_recv] one turn of the loop. [CloseRound] is cut where it
    waits: for the decryption jobs and for the noise. A handler whose wait is not over
    gives [Block]; the state it returns then is the one it waits in. *)

From Stdlib Require Import ZArith Lia.
From stdpp Require Import base numbers strings gmap fin_maps list.
From S2P Require Import Prelude GoStd Json External Concurrency Pb Settings Mixnet.

(** ** Metadata *)

Record streamMetadata := mkStreamMetadata { md_service : string; md_round : Z; md_numIncoming : Z }.

(** [metadata.FromIncomingContext]: the values of each key; [None] where there is none.
    gRPC keeps no key without a value. *)
Definition parseMetadata (md : option (gmap string (list string)))
    : outcome mix_error streamMetadata :=
  match md with
  | None => Err (BadMetadata "metadata")
  | Some md =>
      match md !! "service" with
      | None => Err (BadMetadata "service")
      | Some services =>
          service ← or_panic (services !! 0%nat);
          match md !! "round" with
          | None => Err (BadMetadata "round")
          | Some rs =>
              r ← or_panic (rs !! 0%nat);
              match Decimal.parse_uint32 r with
              | None => Err (BadMetadata "round")
              | Some r =>
                  match md !! "numincoming" with
                  | None => Err (BadMetadata "numincoming")
                  | Some nis =>
                      ni ← or_panic (nis !! 0%nat);
                      match Decimal.parse_uint32 ni with
                      | None => Err (BadMetadata "numincoming")
                      | Some ni => Ret (mkStreamMetadata service r ni)
                      end
                  end
              end
          end
      end
  end.

(** ** filterIncoming *)

(** The loop: [index] in order, [valid] in order, and the keys seen. A message with
    fewer than 8 bytes makes the slice bound negative. *)
Fixpoint filter_loop (msgs : list (option bytes)) (index : list Z) (valid : list bytes)
    (seen : gset Z) : outcome mix_error (list Z * list bytes) :=
  match msgs with
  | [] => Ret (index, valid)
  | None :: msgs => filter_loop msgs (index ++ [-1]) valid seen
  | Some msg :: msgs =>
      if decide (length msg < 8)%nat then Panic
      else
        let msgkey := BigEndian.get64 (drop (length msg - 8) msg) in
        if decide (msgkey ∈ seen) then filter_loop msgs (index ++ [-1]) valid seen
        else filter_loop msgs (index ++ [Z.of_nat (length valid)]) (valid ++ [msg])
                         ({[msgkey]} ∪ seen)
  end.

Definition filterIncoming (p : loc) : handler unit :=
  st ← deref p;
  '(index, valid) ← lift (filter_loop (incoming st) [] [] ∅);
  update p (set_incoming (Some <$> valid));;
  update p (set_incomingIndex index).

Section server.
Context {coins : Type} `{NaCl} `{Onionbox} `{Signature} `{Shuffle} `{Spans}.
Context (CoordinatorKey : bytes) (Services : gmap string (MixService coins)).

(** ** AddOnions *)

(** A stream: the round state it found, the round, and the number of onions it saw. *)
Record addStream := mkAddStream { add_st : loc; add_round : Z; add_numIncoming : Z }.

Definition AddOnions_begin (ctx : context) (md : option (gmap string (list string)))
    : handler addStream :=
  md ← lift (parseMetadata md);
  let round := md_round md in
  p ← getRound (md_service md) round;
  st ← deref p;
  lift (authPrev CoordinatorKey ctx st);;
  st ← lock p;
  (if decide (numIncoming st = 0)
   then
     update p (set_acceptingOnions true);;
     update p (set_numIncoming (md_numIncoming md));;
     update p (set_incoming (replicate (Z.to_nat (md_numIncoming md)) None));;
     if bidirectional st
     then update p (set_sharedKeys (replicate (Z.to_nat (md_numIncoming md)) (replicate 32 x00)))
     else mret ()
   else if decide (numIncoming st ≠ md_numIncoming md)
   then throw (MultipleNumIncoming (md_numIncoming md) (numIncoming st))
   else mret ());;
  st ← deref p;
  mret (mkAddStream p round (numIncoming st)).

Definition AddOnions_recv (stream : addStream) (req : pb.AddOnionsRequest) : handler unit :=
  let p := add_st stream in
  let n := length (pb.AddOnions_Onions req) in
  if decide (add_numIncoming stream < u32 (pb.AddOnions_Offset req + u32 (Z.of_nat n)))
  then
    st ← deref p;
    throw (OverflowingOnions (pb.AddOnions_Offset req) n (numIncoming st))
  else
    st ← lock p;
    if acceptingOnions st
    then
      update p (set_decryptWg (S (decryptWg st)));;
      modify (λ srv, set_decryptionJobs
        (decryptionJobs srv ++ [mkDecryptionJob p (add_round stream) req]) srv)
    else mret ().

Fixpoint AddOnions_loop (stream : addStream) (reqs : list pb.AddOnionsRequest) : handler unit :=
  match reqs with
  | [] => mret ()
  | req :: reqs => AddOnions_recv stream req;; AddOnions_loop stream reqs
  end.

Definition AddOnions (ctx : context) (md : option (gmap string (list string)))
    (reqs : list pb.AddOnionsRequest) : handler unit :=
  stream ← AddOnions_begin ctx md;
  AddOnions_loop stream reqs.

(** ** The decryption workers *)

(** One onion: [k] is [offset+i]. The worker's [theirPublic] is overwritten whole. *)
Definition decrypt_onion (nonce : bytes) (theirPublic : bytes) (k : nat) (onion : bytes)
    (st : roundState) : outcome mix_error (bytes * roundState) :=
  if decide (length onion ≠ incomingOnionSize st) then Ret (theirPublic, st)
  else
    head ← or_panic (slice 0 32 onion);
    let theirPublic := go_copy theirPublic head in
    '(msg, st) ←
      (if bidirectional st
       then
         let shared := Precompute theirPublic (onionPrivateKey st) in
         keys ← or_panic (assign k shared (sharedKeys st));
         Ret (OpenAfterPrecomputation (drop 32 onion) nonce shared, set_sharedKeys keys st)
       else Ret (box_Open (drop 32 onion) nonce theirPublic (onionPrivateKey st), st));
    msgs ← or_panic (assign k msg (incoming st));
    Ret (theirPublic, set_incoming msgs st).

Fixpoint decrypt_onions (nonce : bytes) (theirPublic : bytes) (k : nat) (onions : list bytes)
    (st : roundState) : outcome mix_error (bytes * roundState) :=
  match onions with
  | [] => Ret (theirPublic, st)
  | onion :: onions =>
      '(theirPublic, st) ← decrypt_onion nonce theirPublic k onion st;
      decrypt_onions nonce theirPublic (S k) onions st
  end.

(** A worker takes the next job of the channel and runs it; it keeps [theirPublic]. *)
Definition decryptionWorker (theirPublic : bytes) : handler bytes :=
  srv ← get;
  match decryptionJobs srv with
  | [] => block
  | job :: jobs =>
      modify (set_decryptionJobs jobs);;
      let p := job_st job in
      st ← deref p;
      '(theirPublic, st) ←
        lift (decrypt_onions (ForwardNonce (job_round job)) theirPublic
                (Z.to_nat (pb.AddOnions_Offset (job_req job)))
                (pb.AddOnions_Onions (job_req job)) st);
      update p (λ _, set_decryptWg (decryptWg st - 1)%nat st);;
      mret theirPublic
  end.

(** ** CloseRound *)

(** Up to the wait: [Some] is what a round that is closed returns. *)
Definition CloseRound_begin (ctx : context) (req : pb.CloseRoundRequest)
    : handler (loc * option pb.CloseRoundResponse) :=
  p ← getRound (pb.CloseRound_Service req) (pb.CloseRound_Round req);
  st ← deref p;
  lift (authPrev CoordinatorKey ctx st);;
  st ← lock p;
  if closed st
  then
    match err st with
    | Some e => throw e
    | None => mret (p, Some (pb.mkCloseRoundResponse (closeResult st)))
    end
  else update p (set_acceptingOnions false);; mret (p, None).

(** [st.decryptWg.Wait()], then, with the mutex, up to [<-st.noiseDone]. *)
Definition CloseRound_filter (p : loc) : handler unit :=
  st ← deref p;
  if decide (decryptWg st ≠ 0)%nat then block
  else
    st ← lock p;
    update p (set_mu true);;
    update p (set_closed true);;
    filterIncoming p.

(** [encryptReplies]: the slice is made at once, the goroutine fills it. *)
Definition encryptReplies (p : loc) (req : pb.CloseRoundRequest) (replies : list bytes)
    : handler unit :=
  st ← deref p;
  update p (set_replies (replicate (length (incomingIndex st)) []));;
  modify (λ srv, set_encryptJobs
    (encryptJobs srv ++ [mkEncryptJob p (pb.CloseRound_Service req) (pb.CloseRound_Round req) replies]) srv).

(** The batch that leaves the server: what it received, then its noise. An element that is nil
    is an empty onion on the wire. *)
Definition batch_out (st : roundState) : list bytes :=
  (default [] <$> incoming st) ++ default [] (noise st).

(** What the calls of [mixClient] on the next server return. *)
Record nextCalls := mkNextCalls {
  next_RunRoundBidirectional : PublicServerConfig → string → Z → list bytes → outcome mix_error (list bytes);
  next_RunRoundUnidirectional : PublicServerConfig → string → Z → list bytes → outcome mix_error string
}.

(** [st.err = ...; return st.err], and [st.mu.Unlock()] as deferred. *)
Definition fail_round {A} (p : loc) (e : mix_error) : handler A :=
  update p (set_err (Some e));; update p (set_mu false);; throw e.

(** From [<-st.noiseDone] on, for a server that is not the last. *)
Definition CloseRound_forward (next : nextCalls) (shuffle_coins : bytes) (p : loc)
    (req : pb.CloseRoundRequest) (numNonNoise : nat) (outgoing : list bytes)
    : handler pb.CloseRoundResponse :=
  st ← deref p;
  let service := pb.CloseRound_Service req in
  let round := pb.CloseRound_Round req in
  let shuffler := shuffle_New shuffle_coins (length outgoing) in
  let outgoing := do_shuffle shuffler outgoing in
  server ← lift (or_panic (chain st !! S (myPos st)));
  if bidirectional st
  then
    match next_RunRoundBidirectional next server service round outgoing with
    | Ret replies =>
        let replies := do_unshuffle shuffler replies in
        replies ← lift (or_panic (slice 0 numNonNoise replies));
        encryptReplies p req replies;;
        update p (set_mu false);;
        mret (pb.mkCloseRoundResponse "")
    | Err e => fail_round p (RunRoundError (myPos st))
    | Panic => panic
    | Block => block
    end
  else
    match next_RunRoundUnidirectional next server service round outgoing with
    | Ret result =>
        update p (set_closeResult result);;
        update p (set_mu false);;
        mret (pb.mkCloseRoundResponse result)
    | Err e => fail_round p (RunRoundError (myPos st))
    | Panic => panic
    | Block => block
    end.

(** The last server. A type assertion that fails panics. *)
Definition CloseRound_last (c : coins) (p : loc) (req : pb.CloseRoundRequest)
    (outgoing : list bytes) : handler pb.CloseRoundResponse :=
  st ← deref p;
  service ← lift (or_panic (Services !! pb.CloseRound_Service req));
  match HandleMessages service c (settings st) outgoing with
  | Ret result =>
      update p (set_incoming []);;
      if bidirectional st
      then
        match result with
        | ibytess replies =>
            encryptReplies p req replies;;
            update p (set_mu false);;
            mret (pb.mkCloseRoundResponse "")
        | _ => panic
        end
      else
        match result with
        | istring result =>
            update p (set_closeResult result);;
            update p (set_mu false);;
            mret (pb.mkCloseRoundResponse result)
        | _ => panic
        end
  | Err e => fail_round p e
  | Panic => panic
  | Block => block
  end.

Definition CloseRound_mix (next : nextCalls) (c : coins) (shuffle_coins : bytes) (p : loc)
    (req : pb.CloseRoundRequest) : handler pb.CloseRoundResponse :=
  st ← deref p;
  match noiseDone st with
  | Some true =>
      let numNonNoise := length (incoming st) in
      let outgoing := batch_out st in
      update p (set_noise None);;
      update p (set_incoming []);;
      if decide (S (myPos st) < length (chain st))%nat
      then CloseRound_forward next shuffle_coins p req numNonNoise outgoing
      else CloseRound_last c p req outgoing
  | Some false | None => block
  end.

Definition CloseRound (next : nextCalls) (c : coins) (shuffle_coins : bytes) (ctx : context)
    (req : pb.CloseRoundRequest) : handler pb.CloseRoundResponse :=
  '(p, resp) ← CloseRound_begin ctx req;
  match resp with
  | Some resp => mret resp
  | None => CloseRound_filter p;; CloseRound_mix next c shuffle_coins p req
  end.

(** ** The replies *)

(** One iteration of the loop of [encryptReplies], with the worker's local [key]
    ([None] is nil) and what [rand.Read] draws in iteration [i]. *)
Definition encrypt_iter (st : roundState) (replyMsgSize : nat) (round : Z) (replies : list bytes)
    (freshKeys : nat → bytes) (key : option bytes) (i : nat)
    : outcome mix_error (option bytes * list (nat * bytes)) :=
  v ← or_panic (incomingIndex st !! i);
  '(msg, key) ←
    (if decide (-1 < v)
     then
       msg ← or_panic (replies !! Z.to_nat v);
       key ← or_panic (sharedKeys st !! i);
       Ret (msg, Some key)
     else Ret ([], key));
  let emptyMsg := replicate replyMsgSize x00 in
  let '(msg, key) :=
    if decide (length msg ≠ replyMsgSize) then (emptyMsg, Some (freshKeys i)) else (msg, key) in
  k ← or_panic key;
  Ret (key, [(i, SealAfterPrecomputation msg (BackwardNonce round) k)]).

(** The goroutine of [encryptReplies]. *)
Definition run_encrypt_job (freshKeys : nat → bytes) (sch : list (nat * nat)) (job : encryptJob)
    : handler unit :=
  let p := encrypt_st job in
  st ← deref p;
  service ← lift (or_panic (Services !! encrypt_service job));
  let replyMsgSize := ((length (chain st) - myPos st - 1) * box_Overhead + SizeReplyMessage service)%nat in
  sealed ← lift (ParallelFor None
    (encrypt_iter st replyMsgSize (encrypt_round job) (encrypt_replies job) freshKeys) sch (replies st));
  update p (set_replies sealed);;
  if encryptDone st then panic else update p (set_encryptDone true).

(** ** GetOnions *)

(** The messages the stream sends. *)
Definition GetOnions (ctx : context) (req : pb.GetOnionsRequest)
    : handler (list pb.GetOnionsResponse) :=
  p ← getRound (pb.GetOnions_Service req) (pb.GetOnions_Round req);
  st ← deref p;
  if negb (bidirectional st) then throw (NotBidirectional (pb.GetOnions_Service req))
  else
    lift (authPrev CoordinatorKey ctx st);;
    if negb (encryptDone st) then block
    else
      let offset := pb.GetOnions_Offset req in
      let count := pb.GetOnions_Count req in
      if decide (u32 (Z.of_nat (length (replies st))) < u32 (offset + count))
      then throw (InvalidOffsetCount offset count (length (replies st)))
      else
        replies ← lift (or_panic (slice (Z.to_nat offset) (Z.to_nat (u32 (offset + count))) (replies st)));
        responses ← lift (mapM (λ span,
          onions ← or_panic (slice (Start span) (Start span + Count span) replies);
          Ret (pb.mkGetOnionsResponse (u32 (offset + u32 (Z.of_nat (Start span)))) onions))
          (spans (length replies) 16));
        mret responses.

End server.

(** ** filterIncoming keeps the first message of every key *)

Definition msgkey (msg : bytes) : Z := BigEndian.get64 (drop (length msg - 8) msg).

(** The specification, as a list function: for every element what its index is, and
    the messages kept. *)
Definition first_of_key (msgs : list (option bytes)) (i : nat) : Prop :=
  ∃ msg, msgs !! i = Some (Some msg) ∧
    ∀ j msg', (j < i)%nat → msgs !! j = Some (Some msg') → msgkey msg' ≠ msgkey msg.

Definition long_enough (msgs : list (option bytes)) : Prop :=
  Forall (λ m, match m with Some msg => 8 ≤ length msg | None => True end)%nat msgs.

(** What the loop has built from the messages [done_]. *)
Record filtered (done_ : list (option bytes)) (index : list Z) (valid : list bytes) (seen : gset Z)
    : Prop := {
  filtered_length : length index = length done_;
  filtered_seen k : k ∈ seen ↔ ∃ msg, Some msg ∈ done_ ∧ msgkey msg = k;
  filtered_keys k : k ∈ seen ↔ k ∈ msgkey <$> valid;
  filtered_nodup : NoDup (msgkey <$> valid);
  filtered_kept i : first_of_key done_ i →
    ∃ v msg, index !! i = Some (Z.of_nat v) ∧ done_ !! i = Some (Some msg) ∧ valid !! v = Some msg;
  filtered_dropped i : (i < length done_)%nat → ¬ first_of_key done_ i → index !! i = Some (-1);
  filtered_origin v : (v < length valid)%nat →
    ∃ i, index !! i = Some (Z.of_nat v) ∧ first_of_key done_ i
}.

Lemma first_of_key_lt msgs i : first_of_key msgs i → (i < length msgs)%nat.
Proof. intros (msg & Hm & _). by eapply lookup_lt_Some. Qed.

Lemma first_of_key_snoc done_ m i :
  (i < length done_)%nat → first_of_key (done_ ++ [m]) i ↔ first_of_key done_ i.
Proof.
  intros Hi. unfold first_of_key. rewrite lookup_app_l by done.
  split; intros (msg & Hm & Hf); exists msg; (split; [done|]); intros j msg' Hj Hm'; eapply Hf; try done.
  - by rewrite lookup_app_l by lia.
  - by rewrite lookup_app_l in Hm' by lia.
Qed.

Lemma first_of_key_last done_ m :
  first_of_key (done_ ++ [m]) (length done_) ↔
  ∃ msg, m = Some msg ∧ ∀ msg', Some msg' ∈ done_ → msgkey msg' ≠ msgkey msg.
Proof.
  unfold first_of_key. rewrite lookup_app_r, Nat.sub_diag by lia. cbn. split.
  - intros (msg & [= ->] & Hf). exists msg. split; [done|]. intros msg' [j Hj]%list_elem_of_lookup.
    eapply Hf; [by eapply lookup_lt_Some|]. rewrite lookup_app_l by (by eapply lookup_lt_Some). done.
  - intros (msg & -> & Hf). exists msg. split; [done|]. intros j msg' Hj Hm.
    rewrite lookup_app_l in Hm by done. eapply Hf. by eapply list_elem_of_lookup_2.
Qed.

(** Whether an onion is the first of its key, decided. *)
Definition first_of_key_b (msgs : list (option bytes)) (i : nat) : bool :=
  match msgs !! i with
  | Some (Some msg) =>
      forallb (λ m, match m with Some msg' => negb (msgkey msg' =? msgkey msg) | None => true end)
              (take i msgs)
  | _ => false
  end.

Lemma first_of_key_b_true msgs i : first_of_key_b msgs i = true ↔ first_of_key msgs i.
Proof.
  unfold first_of_key_b, first_of_key. destruct (msgs !! i) as [[msg|]|] eqn:E.
  - rewrite forallb_forall. split.
    + intros H. exists msg. split; [done|]. intros j msg' Hj Hm.
      specialize (H (Some msg')). cbn in H. apply Z.eqb_neq, negb_true_iff, H.
      apply list_elem_of_In, list_elem_of_lookup. exists j. by rewrite lookup_take_lt.
    + intros (msg0 & [= <-] & H) m (j & Hj)%list_elem_of_In%list_elem_of_lookup.
      pose proof (lookup_lt_Some _ _ _ Hj) as Hlt. rewrite length_take in Hlt.
      rewrite lookup_take_lt in Hj by lia. destruct m as [msg'|]; [|done].
      apply negb_true_iff, Z.eqb_neq. eapply H; [|done]. lia.
  - split; [done|]. by intros (msg & ? & _).
  - split; [done|]. by intros (msg & ? & _).
Qed.

(** Two onions with one message cannot both be the first. *)
Lemma first_of_key_unique msgs i j msg :
  first_of_key msgs i → first_of_key msgs j →
  msgs !! i = Some (Some msg) → msgs !! j = Some (Some msg) → j = i.
Proof.
  intros (m1 & E1 & H1) (m2 & E2 & H2) Ei Ej.
  rewrite Ei in E1. rewrite Ej in E2. injection E1 as <-. injection E2 as <-.
  destruct (decide (i < j)%nat) as [Hlt|]; [by destruct (H2 i msg Hlt Ei)|].
  destruct (decide (j < i)%nat) as [Hlt|]; [by destruct (H1 j msg Hlt Ej)|]. lia.
Qed.

Lemma filtered_nil : filtered [] [] [] ∅.
Proof.
  constructor.
  - done.
  - intros k. split; [set_solver|]. by intros (msg & ?%elem_of_nil & _).
  - intros k. cbn. set_solver.
  - constructor.
  - by intros i (msg & Hm & _).
  - intros i Hi. cbn in Hi. lia.
  - intros v Hv. cbn in Hv. lia.
Qed.

(** A nil message, or one whose key was seen. *)
Lemma filtered_skip done_ index valid seen m :
  filtered done_ index valid seen →
  (∀ msg, m = Some msg → msgkey msg ∈ seen) →
  filtered (done_ ++ [m]) (index ++ [-1]) valid seen.
Proof.
  intros [Hl Hs Hk Hnd Hkept Hdrop Horig] Hm.
  assert (Hlast : ¬ first_of_key (done_ ++ [m]) (length done_)).
  { rewrite first_of_key_last. intros (msg & -> & Hf).
    destruct (proj1 (Hs _) (Hm msg eq_refl)) as (msg' & Hin & E). by eapply Hf. }
  assert (Hi : ∀ i, first_of_key (done_ ++ [m]) i → (i < length done_)%nat).
  { intros i Hfi. pose proof (first_of_key_lt _ _ Hfi) as Hlt.
    rewrite length_app in Hlt. simpl in Hlt.
    destruct (decide (i = length done_)) as [->|]; [done|lia]. }
  constructor.
  - len.
  - intros k. rewrite Hs. setoid_rewrite elem_of_app. split.
    + intros (msg & ? & ?). eauto.
    + intros (msg & [?|E%list_elem_of_singleton] & <-); [eauto|]. by apply Hs, Hm.
  - done.
  - done.
  - intros i Hf. pose proof (Hi i Hf) as Hlt. rewrite first_of_key_snoc in Hf by done.
    destruct (Hkept i Hf) as (v & msg & E & Ed & Ev). exists v, msg.
    rewrite !lookup_app_l by (try done; by rewrite Hl). done.
  - intros i Hlt Hn. rewrite length_app in Hlt. simpl in Hlt.
    destruct (decide (i = length done_)) as [->|Hne].
    + rewrite lookup_app_r by lia. by rewrite Hl, Nat.sub_diag.
    + rewrite first_of_key_snoc in Hn by lia. rewrite lookup_app_l by lia. apply Hdrop; [lia|done].
  - intros v Hv. destruct (Horig v Hv) as (i & E & Hf). exists i.
    pose proof (lookup_lt_Some _ _ _ E) as Hlt. rewrite lookup_app_l by done.
    split; [done|]. apply first_of_key_snoc; [lia|done].
Qed.

(** A message with a new key. *)
Lemma filtered_keep done_ index valid seen msg :
  filtered done_ index valid seen → msgkey msg ∉ seen →
  filtered (done_ ++ [Some msg]) (index ++ [Z.of_nat (length valid)]) (valid ++ [msg])
           ({[msgkey msg]} ∪ seen).
Proof.
  intros [Hl Hs Hk Hnd Hkept Hdrop Horig] Hm.
  assert (Hlast : first_of_key (done_ ++ [Some msg]) (length done_)).
  { rewrite first_of_key_last. exists msg. split; [done|]. intros msg' Hin E. apply Hm, Hs. eauto. }
  constructor.
  - len.
  - intros k. rewrite elem_of_union, elem_of_singleton, Hs. setoid_rewrite elem_of_app.
    setoid_rewrite list_elem_of_singleton. split.
    + intros [->|(m & ? & ?)]; [exists msg|exists m]; auto.
    + intros (m & [?|[= ->]] & <-); [right; eauto|by left].
  - intros k. rewrite fmap_app, elem_of_union, elem_of_app, Hk. cbn. set_solver.
  - rewrite fmap_app. apply NoDup_app. split; [done|]. split; [|apply NoDup_singleton].
    intros k Hk' ->%list_elem_of_singleton. apply Hm. by apply Hk.
  - intros i Hf. pose proof (first_of_key_lt _ _ Hf) as Hlt. rewrite length_app in Hlt. simpl in Hlt.
    destruct (decide (i = length done_)) as [->|Hne].
    + exists (length valid), msg. rewrite !lookup_app_r by lia.
      by rewrite Hl, !Nat.sub_diag.
    + rewrite first_of_key_snoc in Hf by lia. destruct (Hkept i Hf) as (v & m & E & Ed & Ev).
      exists v, m. rewrite !lookup_app_l by (try lia; by eapply lookup_lt_Some). done.
  - intros i Hlt Hn. rewrite length_app in Hlt. simpl in Hlt.
    destruct (decide (i = length done_)) as [->|Hne]; [done|].
    rewrite first_of_key_snoc in Hn by lia. rewrite lookup_app_l by lia. apply Hdrop; [lia|done].
  - intros v Hv. rewrite length_app in Hv. simpl in Hv.
    destruct (decide (v = length valid)) as [->|Hne].
    + exists (length done_). split; [|done]. rewrite lookup_app_r by lia. by rewrite Hl, Nat.sub_diag.
    + destruct (Horig v) as (i & E & Hf); [lia|]. exists i.
      pose proof (lookup_lt_Some _ _ _ E) as Hlt. rewrite lookup_app_l by done.
      split; [done|]. apply first_of_key_snoc; [lia|done].
Qed.

Lemma filter_loop_filtered done_ rest index valid seen :
  long_enough rest → filtered done_ index valid seen →
  ∃ index' valid' seen', filter_loop rest index valid seen = Ret (index', valid') ∧
    filtered (done_ ++ rest) index' valid' seen'.
Proof.
  revert done_ index valid seen. induction rest as [|m rest IH]; intros done_ index valid seen Hlong Hf.
  - exists index, valid, seen. by rewrite app_nil_r.
  - apply Forall_cons in Hlong as [Hm Hlong].
    replace (done_ ++ m :: rest) with ((done_ ++ [m]) ++ rest) by by rewrite <- app_assoc.
    destruct m as [msg|]; cbn [filter_loop].
    + rewrite decide_False by lia. cbv zeta. fold (msgkey msg). case_decide as Hseen.
      * apply IH; [done|]. apply filtered_skip; [done|]. by intros ? [= <-].
      * apply IH; [done|]. by apply filtered_keep.
    + apply IH; [done|]. by apply filtered_skip.
Qed.

Lemma filter_loop_all msgs :
  long_enough msgs →
  ∃ index valid seen, filter_loop msgs [] [] ∅ = Ret (index, valid) ∧ filtered msgs index valid seen.
Proof. intros H. by apply (filter_loop_filtered [] msgs [] [] ∅ H filtered_nil). Qed.

(** A message that is too short, before any other. *)
Lemma filter_loop_short pre msg post index valid seen :
  long_enough pre → (length msg < 8)%nat →
  filter_loop (pre ++ Some msg :: post) index valid seen = Panic.
Proof.
  intros Hpre Hm. revert index valid seen.
  induction Hpre as [|m pre Hlong _ IH]; intros index valid seen; cbn [filter_loop app].
  - by rewrite decide_True.
  - destruct m as [m|]; [|apply IH]. rewrite decide_False by lia. by case_decide; apply IH.
Qed.

Lemma filtered_index_range msgs index valid seen i v :
  filtered msgs index valid seen → index !! i = Some v → v = -1 ∨ 0 <= v < Z.of_nat (length valid).
Proof.
  intros F Ev. pose proof (lookup_lt_Some _ _ _ Ev) as Hlt. rewrite (filtered_length _ _ _ _ F) in Hlt.
  destruct (decide (first_of_key_b msgs i = true)) as [Hd|Hd].
  - apply first_of_key_b_true in Hd. right.
    destruct (filtered_kept _ _ _ _ F i Hd) as (v' & msg & E & _ & Hv%lookup_lt_Some).
    rewrite Ev in E. injection E as ->. lia.
  - left. rewrite (filtered_dropped _ _ _ _ F i Hlt) in Ev; [congruence|].
    by rewrite <- first_of_key_b_true.
Qed.

Definition with_filtered (index : list Z) (valid : list bytes) (st : roundState) : roundState :=
  set_incomingIndex index (set_incoming (Some <$> valid) st).

Lemma filterIncoming_run p st srv index valid :
  filter_loop (incoming st) [] [] ∅ = Ret (index, valid) →
  filterIncoming p (put_round p st srv) = (put_round p (with_filtered index valid st) srv, Ret ()).
Proof. intros E. unfold filterIncoming. run. rewrite E. run. done. Qed.

(** [filterIncoming] removes the onions that did not open and the duplicates: of the
    messages that agree in their last eight bytes it keeps the first. The kept messages,
    in order, become the batch; [incomingIndex] holds for each onion
    received the place of its message in the batch, or -1, so that every kept message belongs to exactly one onion. *)
Theorem filterIncoming_keeps_first p st srv :
  long_enough (incoming st) → store srv !! p = Some st →
  ∃ index valid,
    filterIncoming p srv = (put_round p (with_filtered index valid st) srv, Ret ()) ∧
    length index = length (incoming st) ∧ NoDup (msgkey <$> valid) ∧
    (∀ i, first_of_key (incoming st) i → ∃ v msg, index !! i = Some (Z.of_nat v) ∧
       incoming st !! i = Some (Some msg) ∧ valid !! v = Some msg) ∧
    (∀ i, (i < length (incoming st))%nat → ¬ first_of_key (incoming st) i → index !! i = Some (-1)) ∧
    (∀ v, (v < length valid)%nat →
       ∃ i, index !! i = Some (Z.of_nat v) ∧ ∀ j, index !! j = Some (Z.of_nat v) → j = i).
Proof.
  intros Hlong Hp. destruct (filter_loop_all _ Hlong) as (index & valid & seen & E & F).
  exists index, valid. split.
  { rewrite <- (filterIncoming_run p st srv index valid E). by rewrite put_round_id. }
  split; [apply F|]. split; [apply F|]. split; [apply F|]. split; [apply F|].
  intros v Hv. destruct (filtered_origin _ _ _ _ F v Hv) as (i & Ei & Hi). exists i.
  split; [done|]. intros j Ej.
  assert (Hj : first_of_key (incoming st) j).
  { pose proof (lookup_lt_Some _ _ _ Ej) as Hlt. rewrite (filtered_length _ _ _ _ F) in Hlt.
    destruct (decide (first_of_key_b (incoming st) j = true)) as [Hd|Hd].
    - by apply first_of_key_b_true.
    - rewrite (filtered_dropped _ _ _ _ F j Hlt) in Ej; [injection Ej; lia|].
      by rewrite <- first_of_key_b_true. }
  destruct (filtered_kept _ _ _ _ F i Hi) as (v1 & m1 & E1 & M1 & V1).
  destruct (filtered_kept _ _ _ _ F j Hj) as (v2 & m2 & E2 & M2 & V2).
  assert (v1 = v) as -> by (rewrite Ei in E1; injection E1; lia).
  assert (v2 = v) as -> by (rewrite Ej in E2; injection E2; lia).
  rewrite V1 in V2. injection V2 as <-.
  by eapply first_of_key_unique.
Qed.

(** ** The replies *)

Section replies.
Context {coins : Type} `{NaCl}.
Context (Services : gmap string (MixService coins)).

(** The reply to onion [i]: its message's reply under its key when there is one of the right
    size, otherwise zeros under a fresh key. *)
Definition reply_msg (st : roundState) (replies : list bytes) (i : nat) : bytes :=
  match incomingIndex st !! i with
  | Some v => if decide (-1 < v) then default [] (replies !! Z.to_nat v) else []
  | None => []
  end.

Definition reply_to (st : roundState) (size : nat) (round : Z) (replies : list bytes)
    (freshKeys : nat → bytes) (i : nat) : bytes :=
  let msg := reply_msg st replies i in
  if decide (length msg = size)
  then SealAfterPrecomputation msg (BackwardNonce round) (sharedKeys st !!! i)
  else SealAfterPrecomputation (replicate size x00) (BackwardNonce round) (freshKeys i).

(** A round whose replies are being encrypted. *)
Record encrypting (st : roundState) (replies : list bytes) : Prop := {
  encrypting_keys : (length (incomingIndex st) ≤ length (sharedKeys st))%nat;
  encrypting_index i v : incomingIndex st !! i = Some v → v = -1 ∨ 0 <= v < Z.of_nat (length replies)
}.

Lemma encrypt_iter_ok st size round replies freshKeys key i :
  encrypting st replies → (0 < size)%nat → (i < length (incomingIndex st))%nat →
  ∃ key', encrypt_iter st size round replies freshKeys key i =
            Ret (key', [(i, reply_to st size round replies freshKeys i)]).
Proof.
  intros [Hk Hv] Hsize Hi. destruct (lookup_lt_is_Some_1 _ _ Hi) as [v Ev].
  unfold encrypt_iter, reply_to, reply_msg. rewrite Ev. cbn [or_panic mbind outcome_bind].
  destruct (Hv _ _ Ev) as [->|Hlt].
  - rewrite !(decide_False (P := -1 < -1)) by lia. cbn.
    rewrite decide_True, decide_False by lia. cbn. eauto.
  - rewrite !(decide_True (P := -1 < v)) by lia.
    destruct (lookup_lt_is_Some_1 replies (Z.to_nat v)) as [msg Em]; [lia|].
    destruct (lookup_lt_is_Some_1 (sharedKeys st) i) as [k Ek]; [lia|].
    rewrite Em, Ek, (list_lookup_total_correct _ _ _ Ek). cbn.
    destruct (decide (length msg = size)) as [Hl|Hl].
    + rewrite decide_False by auto. cbn. eauto.
    + rewrite decide_True by auto. cbn. eauto.
Qed.

Lemma run_encrypt_job_ok freshKeys sch job st svc srv :
  let size := ((length (chain st) - myPos st - 1) * box_Overhead + SizeReplyMessage svc)%nat in
  Services !! encrypt_service job = Some svc → encrypting st (encrypt_replies job) →
  (0 < size)%nat → length (replies st) = length (incomingIndex st) → encryptDone st = false →
  valid_schedule (length (incomingIndex st)) sch →
  run_encrypt_job Services freshKeys sch job (put_round (encrypt_st job) st srv) =
    (put_round (encrypt_st job) (set_encryptDone true (set_replies
       (reply_to st size (encrypt_round job) (encrypt_replies job) freshKeys
          <$> seq 0 (length (incomingIndex st))) st)) srv, Ret ()).
Proof.
  intros size Hs He Hsize Hl Hd Hsch. unfold run_encrypt_job. run. rewrite Hs. run.
  cbv zeta. run. fold size. rewrite (ParallelFor_imap _ _ (length (incomingIndex st)) (λ _, True)
    (reply_to st size (encrypt_round job) (encrypt_replies job) freshKeys)); [|done| |done|done].
  - run. rewrite Hd. run. done.
  - intros key i Hi _. destruct (encrypt_iter_ok st size (encrypt_round job)
      (encrypt_replies job) freshKeys key i He Hsize Hi) as (key' & ->). eauto.
Qed.

(** C13. The replies that leave a server, under every schedule of the parallel loop: the
    sender of a message that was kept gets its reply sealed with the key it shares
    with this server; who sent an onion that did not open, a duplicate, or a message
    whose reply has a wrong size gets zeros under a fresh key. All replies have the
    same size and are sealed with the backward nonce of the round. *)
Theorem encryptReplies_sealed `{!NaClLaws} freshKeys sch job st svc srv :
  let size := ((length (chain st) - myPos st - 1) * box_Overhead + SizeReplyMessage svc)%nat in
  let p := encrypt_st job in
  Services !! encrypt_service job = Some svc → encrypting st (encrypt_replies job) →
  (0 < size)%nat → length (replies st) = length (incomingIndex st) → encryptDone st = false →
  valid_schedule (length (incomingIndex st)) sch → store srv !! p = Some st →
  ∃ sealed,
    run_encrypt_job Services freshKeys sch job srv =
      (put_round p (set_encryptDone true (set_replies sealed st)) srv, Ret ()) ∧
    length sealed = length (incomingIndex st) ∧
    Forall (λ reply, length reply = size + box_Overhead)%nat sealed ∧
    ∀ i v reply, incomingIndex st !! i = Some v → sealed !! i = Some reply →
      (∀ msg, encrypt_replies job !! Z.to_nat v = Some msg → 0 <= v → length msg = size →
         OpenAfterPrecomputation reply (BackwardNonce (encrypt_round job)) (sharedKeys st !!! i) = Some msg) ∧
      (v = -1 → reply = SealAfterPrecomputation (replicate size x00)
                          (BackwardNonce (encrypt_round job)) (freshKeys i)).
Proof.
  intros size p Hs He Hsize Hl Hd Hsch Hp.
  pose proof (run_encrypt_job_ok freshKeys sch job st svc srv Hs He Hsize Hl Hd Hsch) as E.
  cbv zeta in E. fold p in E. rewrite put_round_id in E by done. fold size in E.
  eexists. split; [exact E|]. split; [len|]. split.
  - apply Forall_fmap, Forall_true. intros i. cbn. unfold reply_to.
    case_decide as Hm; rewrite length_Seal; [lia|]. rewrite length_replicate. lia.
  - intros i v reply Ev Er. rewrite list_lookup_fmap, lookup_seq_lt in Er
      by (by eapply lookup_lt_Some). injection Er as <-. unfold reply_to, reply_msg. rewrite Ev. split.
    + intros msg Em Hv Hm. rewrite (decide_True (P := -1 < v)), Em by lia. cbn.
      rewrite decide_True by done. apply Open_Seal.
    + intros ->. rewrite (decide_False (P := -1 < -1)) by lia. cbn. by rewrite decide_False by lia.
Qed.

End replies.

(** ** Decryption *)

(** [l] with [f onion] stored from index [k] on, for the onions that have the size. *)
Fixpoint store_from {A} (f : bytes → A) (size k : nat) (onions : list bytes) (l : list A) : list A :=
  match onions with
  | [] => l
  | onion :: onions =>
      store_from f size (S k) onions (if decide (length onion = size) then <[k := f onion]> l else l)
  end.

Lemma length_store_from {A} (f : bytes → A) size k onions l :
  length (store_from f size k onions l) = length l.
Proof.
  revert k l. induction onions as [|o onions IH]; intros k l; [done|].
  cbn [store_from]. rewrite IH. case_decide; [apply length_insert|done].
Qed.

Lemma store_from_lookup {A} (f : bytes → A) size k onions l i o :
  (k + length onions ≤ length l)%nat → onions !! i = Some o → length o = size →
  store_from f size k onions l !! (k + i)%nat = Some (f o).
Proof.
  revert k l i. induction onions as [|o0 onions IH]; intros k l i Hl Hi Ho; [done|].
  cbn [store_from length] in *. destruct i as [|i].
  - injection Hi as ->. rewrite decide_True by done.
    assert (Hother : ∀ k' l', (k < k')%nat → store_from f size k' onions l' !! k = l' !! k).
    { clear. induction onions as [|o onions IH]; intros k' l' Hk; [done|]. cbn [store_from].
      rewrite IH by lia. case_decide; [|done]. apply list_lookup_insert_ne. lia. }
    rewrite Nat.add_0_r, Hother by lia. apply list_lookup_insert_eq. lia.
  - replace (k + S i)%nat with (S k + i)%nat by lia. apply IH; [|done|done].
    case_decide; len.
Qed.

Lemma store_from_other {A} (f : bytes → A) size k onions l j :
  (j < k ∨ k + length onions ≤ j)%nat → store_from f size k onions l !! j = l !! j.
Proof.
  revert k l. induction onions as [|o onions IH]; intros k l Hj; [done|].
  cbn [store_from length] in *. rewrite IH by lia. case_decide; [|done].
  apply list_lookup_insert_ne. lia.
Qed.

(** All onions from 0 on, of the right size: the whole list. *)
Lemma store_from_all {A} (f : bytes → A) size onions l :
  length l = length onions → Forall (λ o, length o = size) onions →
  store_from f size 0 onions l = f <$> onions.
Proof.
  intros Hl Hs. apply list_eq_lookup_len; [rewrite length_store_from; len|].
  intros i x y Hx Hy. rewrite list_lookup_fmap in Hy.
  destruct (onions !! i) as [o|] eqn:Eo; [|done]. injection Hy as <-.
  pose proof (store_from_lookup f size 0 onions l i o ltac:(lia) Eo
                (Forall_lookup_1 _ _ _ _ Hs Eo)) as E.
  rewrite Nat.add_0_l in E. congruence.
Qed.

Section decryption.
Context `{NaCl}.

(** What an onion of the right size opens to, and the key shared with its sender. *)
Definition shared_with (st : roundState) (onion : bytes) : bytes :=
  Precompute (take 32 onion) (onionPrivateKey st).

Definition opened (st : roundState) (nonce onion : bytes) : option bytes :=
  if bidirectional st
  then OpenAfterPrecomputation (drop 32 onion) nonce (shared_with st onion)
  else box_Open (drop 32 onion) nonce (take 32 onion) (onionPrivateKey st).

Definition with_decrypted (nonce : bytes) (k : nat) (onions : list bytes) (st : roundState) : roundState :=
  let size := incomingOnionSize st in
  let st' := set_incoming (store_from (opened st nonce) size k onions (incoming st)) st in
  if bidirectional st
  then set_sharedKeys (store_from (shared_with st) size k onions (sharedKeys st)) st'
  else st'.

(** The slices a round decrypts into. *)
Definition allocated (st : roundState) : Prop :=
  (32 ≤ incomingOnionSize st)%nat ∧
  (bidirectional st = true → length (sharedKeys st) = length (incoming st)).

Lemma with_decrypted_nil nonce k st : with_decrypted nonce k [] st = st.
Proof. unfold with_decrypted. destruct (bidirectional st) eqn:E; destruct st; simpl in *; by subst. Qed.

Lemma decrypt_onion_ok nonce theirPublic k onion st :
  allocated st → (k < length (incoming st))%nat → length theirPublic = 32%nat →
  ∃ theirPublic', length theirPublic' = 32%nat ∧
    decrypt_onion nonce theirPublic k onion st = Ret (theirPublic', with_decrypted nonce k [onion] st).
Proof.
  intros [H32 Hshared] Hk Ht. unfold decrypt_onion, with_decrypted. cbn [store_from].
  destruct (decide (length onion = incomingOnionSize st)) as [Hsize|Hsize].
  - rewrite decide_False by auto. rewrite (slice_is_Some 0 32), drop_0 by lia. cbn [or_panic mbind outcome_bind].
    change (32 - 0)%nat with 32%nat.
    rewrite go_copy_exact by (rewrite length_take; lia). exists (take 32 onion).
    split; [rewrite length_take; lia|]. unfold opened, shared_with, assign.
    destruct (bidirectional st) eqn:Eb.
    + rewrite decide_True by (rewrite Hshared by done; lia). cbn [or_panic mbind outcome_bind].
      cbn [incoming set_sharedKeys]. rewrite decide_True by lia. done.
    + cbn [or_panic mbind outcome_bind]. rewrite decide_True by lia. done.
  - rewrite decide_True by auto. exists theirPublic. split; [done|].
    destruct (bidirectional st) eqn:E; destruct st; simpl in *; by subst.
Qed.

Lemma with_decrypted_cons nonce k o onions st :
  with_decrypted nonce (S k) onions (with_decrypted nonce k [o] st) = with_decrypted nonce k (o :: onions) st.
Proof. unfold with_decrypted. by destruct (bidirectional st) eqn:E; cbn; rewrite E. Qed.

Lemma with_decrypted_allocated nonce k onions st :
  allocated st → allocated (with_decrypted nonce k onions st).
Proof.
  intros [H1 H2]. unfold with_decrypted, allocated. destruct (bidirectional st) eqn:E; cbn.
  - rewrite !length_store_from. auto.
  - rewrite E. done.
Qed.

Lemma length_with_decrypted nonce k onions st :
  length (incoming (with_decrypted nonce k onions st)) = length (incoming st).
Proof. unfold with_decrypted. destruct (bidirectional st); cbn; apply length_store_from. Qed.

Lemma decrypt_onions_ok nonce theirPublic k onions st :
  allocated st → (k + length onions ≤ length (incoming st))%nat → length theirPublic = 32%nat →
  ∃ theirPublic', length theirPublic' = 32%nat ∧
    decrypt_onions nonce theirPublic k onions st = Ret (theirPublic', with_decrypted nonce k onions st).
Proof.
  revert k theirPublic st. induction onions as [|o onions IH]; intros k theirPublic st Ha Hk Ht.
  - exists theirPublic. by rewrite with_decrypted_nil.
  - cbn [decrypt_onions length] in *.
    destruct (decrypt_onion_ok nonce theirPublic k o st Ha ltac:(lia) Ht) as (tp & Htp & ->).
    cbn [mbind outcome_bind].
    destruct (IH (S k) tp (with_decrypted nonce k [o] st)) as (tp' & Htp' & ->).
    + by apply with_decrypted_allocated.
    + rewrite length_with_decrypted. lia.
    + done.
    + exists tp'. by rewrite with_decrypted_cons.
Qed.

(** An onion of the right size behind the end of the slices. *)
Lemma decrypt_onion_overflow nonce theirPublic k onion st :
  allocated st → (length (incoming st) ≤ k)%nat → length onion = incomingOnionSize st →
  decrypt_onion nonce theirPublic k onion st = Panic.
Proof.
  intros [H32 Hshared] Hk Hsize. unfold decrypt_onion. rewrite decide_False by auto.
  rewrite (slice_is_Some 0 32) by lia. cbn [or_panic mbind outcome_bind]. unfold assign.
  destruct (bidirectional st) eqn:Eb.
  - rewrite decide_False by (rewrite Hshared by done; lia). done.
  - cbn [or_panic mbind outcome_bind]. by rewrite decide_False by lia.
Qed.

End decryption.

(** ** Admission *)

Section admission.
Context {coins : Type} `{NaCl}.

Definition add_job (job : decryptionJob) (srv : Server) : Server :=
  set_decryptionJobs (decryptionJobs srv ++ [job]) srv.

Definition job_of (stream : addStream) (req : pb.AddOnionsRequest) : decryptionJob :=
  mkDecryptionJob (add_st stream) (add_round stream) req.

(** The sum the guard of [AddOnions] computes. *)
Definition guard_sum (req : pb.AddOnionsRequest) : Z :=
  u32 (pb.AddOnions_Offset req + u32 (Z.of_nat (length (pb.AddOnions_Onions req)))).

Lemma AddOnions_recv_run stream req st srv :
  AddOnions_recv stream req (put_round (add_st stream) st srv) =
    if decide (add_numIncoming stream < guard_sum req)
    then (put_round (add_st stream) st srv,
          Err (OverflowingOnions (pb.AddOnions_Offset req) (length (pb.AddOnions_Onions req)) (numIncoming st)))
    else if mu st then (put_round (add_st stream) st srv, Block)
    else if acceptingOnions st
    then (add_job (job_of stream req)
            (put_round (add_st stream) (set_decryptWg (S (decryptWg st)) st) srv), Ret ())
    else (put_round (add_st stream) st srv, Ret ()).
Proof.
  unfold AddOnions_recv. fold (guard_sum req). cbv zeta. case_decide; run; [done|].
  destruct (mu st); [done|]. destruct (acceptingOnions st); run; done.
Qed.

(** A job within the slices of its round. *)
Definition in_bounds (job : decryptionJob) (st : roundState) : Prop :=
  (Z.to_nat (pb.AddOnions_Offset (job_req job)) + length (pb.AddOnions_Onions (job_req job))
     ≤ length (incoming st))%nat.

Definition after_job (job : decryptionJob) (st : roundState) : roundState :=
  let st' := with_decrypted (ForwardNonce (job_round job))
               (Z.to_nat (pb.AddOnions_Offset (job_req job))) (pb.AddOnions_Onions (job_req job)) st in
  set_decryptWg (decryptWg st' - 1)%nat st'.

Lemma decryptionWorker_run theirPublic job jobs st srv :
  allocated st → in_bounds job st → length theirPublic = 32%nat →
  decryptionJobs srv = job :: jobs →
  ∃ theirPublic', length theirPublic' = 32%nat ∧
    decryptionWorker theirPublic (put_round (job_st job) st srv) =
      (put_round (job_st job) (after_job job st) (set_decryptionJobs jobs srv), Ret theirPublic').
Proof.
  intros Ha Hb Ht Hj.
  destruct (decrypt_onions_ok (ForwardNonce (job_round job)) theirPublic
              (Z.to_nat (pb.AddOnions_Offset (job_req job))) (pb.AddOnions_Onions (job_req job)) st
              Ha Hb Ht) as (tp & Htp & E).
  exists tp. split; [done|]. unfold decryptionWorker. run. cbn [get].
  change (decryptionJobs (put_round _ _ _)) with (decryptionJobs srv). rewrite Hj. run.
  change (set_decryptionJobs jobs (put_round (job_st job) st srv))
    with (put_round (job_st job) st (set_decryptionJobs jobs srv)).
  run. rewrite E. run. done.
Qed.

(** What a decryption worker does with a job within the slices of its round: it never
    panics, and for every onion of the right size it stores what the onion opens to
    (nil where it does not open) and, in a bidirectional round, the key shared with its
    sender, at the onion's own place; onions of another size leave their place as it
    was, and so does everything else. *)
Theorem decryptionWorker_opens theirPublic job jobs st srv :
  allocated st → in_bounds job st → length theirPublic = 32%nat →
  decryptionJobs srv = job :: jobs → store srv !! job_st job = Some st →
  ∃ theirPublic' st',
    decryptionWorker theirPublic srv =
      (put_round (job_st job) st' (set_decryptionJobs jobs srv), Ret theirPublic') ∧
    length (incoming st') = length (incoming st) ∧ decryptWg st' = (decryptWg st - 1)%nat ∧
    let offset := Z.to_nat (pb.AddOnions_Offset (job_req job)) in
    let onions := pb.AddOnions_Onions (job_req job) in
    (∀ i onion, onions !! i = Some onion → length onion = incomingOnionSize st →
       incoming st' !! (offset + i)%nat = Some (opened st (ForwardNonce (job_round job)) onion) ∧
       (bidirectional st = true → sharedKeys st' !! (offset + i)%nat = Some (shared_with st onion))) ∧
    (∀ j, (j < offset ∨ offset + length onions ≤ j)%nat →
       incoming st' !! j = incoming st !! j ∧ sharedKeys st' !! j = sharedKeys st !! j).
Proof.
  intros Ha Hb Ht Hj Hp.
  destruct (decryptionWorker_run theirPublic job jobs st srv Ha Hb Ht Hj) as (tp & _ & E).
  rewrite put_round_id in E by done. exists tp, (after_job job st). split; [done|].
  unfold after_job. cbn [incoming decryptWg set_decryptWg sharedKeys].
  split; [apply length_with_decrypted|]. destruct Ha as [_ Hs]. unfold in_bounds in Hb.
  unfold with_decrypted. split; [by destruct (bidirectional st)|]. split.
  - intros i onion Hi Hsize. split.
    + destruct (bidirectional st); cbn; by apply store_from_lookup.
    + intros Eb. rewrite Eb. cbn. apply store_from_lookup; [by rewrite Hs|done..].
  - intros j Hj'. split.
    + destruct (bidirectional st); cbn; by apply store_from_other.
    + destruct (bidirectional st); cbn; [by apply store_from_other|done].
Qed.

(** What [AddOnions] does with a request. A request that reaches beyond the announced
    number of onions (in uint32 arithmetic) is an error; while the round accepts onions
    it becomes a job, and [CloseRound] will wait for it; afterwards it is dropped
    silently. Where the offset and the number of onions do not wrap, an admitted
    job is within the slices, so no worker panics on it. *)
Theorem AddOnions_admits stream req st srv :
  store srv !! add_st stream = Some st → mu st = false →
  (add_numIncoming stream < guard_sum req → AddOnions_recv stream req srv =
     (srv, Err (OverflowingOnions (pb.AddOnions_Offset req) (length (pb.AddOnions_Onions req)) (numIncoming st)))) ∧
  (guard_sum req <= add_numIncoming stream → acceptingOnions st = false →
   AddOnions_recv stream req srv = (srv, Ret ())) ∧
  (guard_sum req <= add_numIncoming stream → acceptingOnions st = true →
   AddOnions_recv stream req srv =
     (add_job (job_of stream req) (put_round (add_st stream) (set_decryptWg (S (decryptWg st)) st) srv),
      Ret ()) ∧
   (is_u32 (pb.AddOnions_Offset req) → length (incoming st) = Z.to_nat (add_numIncoming stream) →
    pb.AddOnions_Offset req + Z.of_nat (length (pb.AddOnions_Onions req)) < 2 ^ 32 →
    in_bounds (job_of stream req) st)).
Proof.
  intros Hp Hmu. pose proof (AddOnions_recv_run stream req st srv) as E.
  rewrite put_round_id in E by done. rewrite Hmu in E. split; [|split].
  - intros Hlt. by rewrite E, decide_True.
  - intros Hle Ha. rewrite E, decide_False by lia. by rewrite Ha.
  - intros Hle Ha. split; [rewrite E, decide_False by lia; by rewrite Ha|].
    intros Ho Hl Hw. unfold in_bounds, guard_sum, is_u32 in *. cbn. rewrite Hl.
    rewrite (u32_id (Z.of_nat _)), u32_id in Hle by (unfold is_u32; lia). lia.
Qed.

(** C18. The guard of [AddOnions] adds in uint32: a request whose offset and number of onions
    wrap around passes it, and the worker that takes the job indexes behind the end of
    the round's slices: the mixer panics. One authenticated request is enough. *)
Theorem AddOnions_wraparound_panics stream offset onion onions st srv theirPublic :
  store srv !! add_st stream = Some st → mu st = false → acceptingOnions st = true →
  allocated st → length (incoming st) = Z.to_nat (add_numIncoming stream) →
  decryptionJobs srv = [] →
  let n := Z.of_nat (length (onion :: onions)) in
  is_u32 offset → is_u32 n → 2 ^ 32 <= offset + n → offset + n - 2 ^ 32 <= add_numIncoming stream <= offset →
  length onion = incomingOnionSize st →
  let req := pb.mkAddOnionsRequest offset (onion :: onions) in
  ∃ srv', AddOnions_recv stream req srv = (srv', Ret ()) ∧
    (decryptionWorker theirPublic srv').2 = Panic.
Proof.
  intros Hp Hmu Ha Halloc Hl Hj n Ho Hn Hwrap Hle Hsize req.
  pose proof (AddOnions_recv_run stream req st srv) as E.
  rewrite put_round_id in E by done. rewrite Hmu, Ha, decide_False in E.
  - eexists. split; [exact E|]. unfold decryptionWorker. rewrite go_bind_unfold. cbn [get].
    change (decryptionJobs (add_job _ _)) with (decryptionJobs srv ++ [job_of stream req]).
    rewrite Hj. cbn [app]. run.
    change (set_decryptionJobs [] _) with
      (put_round (add_st stream) (set_decryptWg (S (decryptWg st)) st) (set_decryptionJobs [] srv)).
    cbn [job_st job_of]. run. change (pb.AddOnions_Onions (job_req (job_of stream req))) with (onion :: onions).
    cbn [decrypt_onions].
    rewrite decrypt_onion_overflow; [done| | |].
    + exact Halloc.
    + cbn. rewrite Hl. lia.
    + exact Hsize.
  - unfold guard_sum. cbn [pb.AddOnions_Offset pb.AddOnions_Onions req]. fold n.
    rewrite (u32_id n) by done. rewrite u32_add_wrap by done. lia.
Qed.

End admission.

(** ** Closing a round *)

Section closing.
Context {coins : Type} `{NaCl} `{Onionbox} `{Signature} `{Shuffle}.
Context (CoordinatorKey : bytes) (Services : gmap string (MixService coins)).

Lemma CloseRound_begin_run ctx req p st k srv :
  rounds srv !! (pb.CloseRound_Service req, pb.CloseRound_Round req) = Some p →
  prev_key CoordinatorKey st = Some k → authenticated ctx k → mu st = false →
  CloseRound_begin CoordinatorKey ctx req (put_round p st srv) =
    if closed st
    then (put_round p st srv,
          match err st with
          | Some e => Err e
          | None => Ret (p, Some (pb.mkCloseRoundResponse (closeResult st)))
          end)
    else (put_round p (set_acceptingOnions false st) srv, Ret (p, None)).
Proof.
  intros Hr Hk Ha Hmu. unfold CloseRound_begin. rewrite go_bind_unfold, (getRound_run _ _ p) by done.
  run. rewrite (authPrev_eq _ _ _ k) by done. rewrite (auth_ok _ _ Ha). run. rewrite Hmu.
  destruct (closed st); [destruct (err st); done|]. run. done.
Qed.

(** The state in which [CloseRound] waits for the noise. *)
Definition closing (index : list Z) (valid : list bytes) (st : roundState) : roundState :=
  with_filtered index valid (set_closed true (set_mu true (set_acceptingOnions false st))).

Lemma CloseRound_filter_run p st srv index valid :
  decryptWg st = 0%nat → mu st = false → filter_loop (incoming st) [] [] ∅ = Ret (index, valid) →
  CloseRound_filter p (put_round p (set_acceptingOnions false st) srv) =
    (put_round p (closing index valid st) srv, Ret ()).
Proof.
  intros Hw Hmu Hf. unfold CloseRound_filter. run. cbn [decryptWg set_acceptingOnions].
  rewrite decide_False by auto. run. cbn [mu set_acceptingOnions]. rewrite Hmu. run.
  by rewrite (filterIncoming_run _ _ _ index valid).
Qed.

(** The whole call, up to the mix. *)
Lemma CloseRound_run next c shuffle_coins ctx req p st k index valid srv :
  rounds srv !! (pb.CloseRound_Service req, pb.CloseRound_Round req) = Some p →
  prev_key CoordinatorKey st = Some k → authenticated ctx k → mu st = false → closed st = false →
  decryptWg st = 0%nat → filter_loop (incoming st) [] [] ∅ = Ret (index, valid) →
  CloseRound CoordinatorKey Services next c shuffle_coins ctx req (put_round p st srv) =
    CloseRound_mix Services next c shuffle_coins p req (put_round p (closing index valid st) srv).
Proof.
  intros Hr Hk Ha Hmu Hc Hw Hf. unfold CloseRound. rewrite go_bind_unfold.
  rewrite (CloseRound_begin_run ctx req p st k) by done. rewrite Hc. cbn beta iota.
  rewrite go_bind_unfold. by rewrite (CloseRound_filter_run p st srv index valid).
Qed.

Definition add_encrypt_job (job : encryptJob) (srv : Server) : Server :=
  set_encryptJobs (encryptJobs srv ++ [job]) srv.

(** The state after the batch was taken and the goroutine that encrypts the replies was
    started. *)
Definition mixed (st : roundState) : roundState :=
  set_mu false (set_replies (replicate (length (incomingIndex st)) [])
    (set_incoming [] (set_noise None st))).

Lemma CloseRound_forward_bidirectional next c shuffle_coins p req st server replies srv :
  noiseDone st = Some true → bidirectional st = true →
  chain st !! S (myPos st) = Some server →
  let out := batch_out st in
  let s := shuffle_New shuffle_coins (length out) in
  next_RunRoundBidirectional next server (pb.CloseRound_Service req) (pb.CloseRound_Round req)
    (do_shuffle s out) = Ret replies →
  (length (incoming st) ≤ length (do_unshuffle s replies))%nat →
  CloseRound_mix Services next c shuffle_coins p req (put_round p st srv) =
    (add_encrypt_job (mkEncryptJob p (pb.CloseRound_Service req) (pb.CloseRound_Round req)
                        (take (length (incoming st)) (do_unshuffle s replies)))
       (put_round p (mixed st) srv), Ret (pb.mkCloseRoundResponse "")).
Proof.
  intros Hn Hb Hs out s Hnext Hl. pose proof (lookup_lt_Some _ _ _ Hs) as Hlt.
  unfold CloseRound_mix. run. rewrite Hn. run. rewrite decide_True by lia.
  unfold CloseRound_forward. run. cbn [chain myPos bidirectional set_incoming set_noise].
  rewrite Hs. run. rewrite Hb. fold out. fold s. rewrite Hnext. run.
  rewrite (slice_is_Some 0 _ (do_unshuffle s replies)), drop_0, Nat.sub_0_r by lia. run.
  unfold encryptReplies. run. unfold add_encrypt_job.
  change (set_encryptJobs ?j (put_round p ?st srv)) with (put_round p st (set_encryptJobs j srv)).
  run. done.
Qed.

Lemma CloseRound_last_bidirectional next c shuffle_coins p req st svc replies srv :
  noiseDone st = Some true → bidirectional st = true → (length (chain st) ≤ S (myPos st))%nat →
  Services !! pb.CloseRound_Service req = Some svc →
  HandleMessages svc c (settings st) (batch_out st) = Ret (ibytess replies) →
  CloseRound_mix Services next c shuffle_coins p req (put_round p st srv) =
    (add_encrypt_job (mkEncryptJob p (pb.CloseRound_Service req) (pb.CloseRound_Round req) replies)
       (put_round p (mixed st) srv), Ret (pb.mkCloseRoundResponse "")).
Proof.
  intros Hn Hb Hlt Hs Hh. unfold CloseRound_mix. run. rewrite Hn. run. rewrite decide_False by lia.
  unfold CloseRound_last. run. rewrite Hs. run.
  cbn [settings bidirectional set_incoming set_noise]. rewrite Hh. run. rewrite Hb.
  unfold encryptReplies. run. unfold add_encrypt_job.
  change (set_encryptJobs ?j (put_round p ?st srv)) with (put_round p st (set_encryptJobs j srv)).
  run. done.
Qed.

End closing.

(** Who gets which reply when the batch comes back: undoing the shuffle gives every
    element the reply to the place it was sent at. *)
Lemma unshuffle_routes `{ShuffleLaws} s (xs replies : list bytes) i x :
  length xs = shuffle_len s → length replies = length xs → xs !! i = Some x →
  ∃ j, do_shuffle s xs !! j = Some x ∧ do_unshuffle s replies !! i = replies !! j ∧
       shuffle_perm s !! j = Some i.
Proof.
  intros Hl Hr Hi.
  assert (Hin : i ∈ shuffle_perm s).
  { rewrite shuffle_perm_perm. apply elem_of_seq. rewrite <- Hl.
    split; [lia|]. by eapply lookup_lt_Some. }
  apply list_elem_of_lookup in Hin as [j Hj]. exists j.
  rewrite (do_shuffle_lookup s xs i j), (do_unshuffle_lookup s replies i j) by (done || lia). done.
Qed.

(** A shuffle is a permutation. *)
Lemma shuffle_Permutation `{ShuffleLaws} s (xs : list bytes) :
  length xs = shuffle_len s → do_shuffle s xs ≡ₚ xs.
Proof.
  intros Hl. assert (E : do_shuffle s xs = (λ i, xs !!! i) <$> shuffle_perm s).
  { apply list_eq_lookup_len.
    - rewrite length_do_shuffle, length_fmap, shuffle_perm_perm, length_seq. done.
    - intros j x y Hx Hy. rewrite list_lookup_fmap in Hy.
      destruct (shuffle_perm s !! j) as [i|] eqn:Ei; [|done]. injection Hy as <-.
      rewrite (do_shuffle_lookup s xs i j) in Hx by done.
      symmetry. by apply list_lookup_total_correct. }
  rewrite E, shuffle_perm_perm, <- Hl. clear.
  assert (Hid : (λ i, xs !!! i) <$> seq 0 (length xs) = xs); [|by rewrite Hid].
  apply list_eq_lookup_len; [len|]. intros i x y Hx Hy. rewrite list_lookup_fmap in Hx.
  rewrite lookup_seq_lt in Hx by (by eapply lookup_lt_Some). injection Hx as <-.
  by apply list_lookup_total_correct.
Qed.

Section closing_properties.
Context {coins : Type} `{NaCl} `{Onionbox} `{Signature} `{ShuffleLaws}.
Context (CoordinatorKey : bytes) (Services : gmap string (MixService coins)).

(** C12. The mix of a server that is not the last. The batch it sends on is a permutation of
    the messages it kept and its noise; when the next server returns one reply for each
    onion sent, the goroutine that encrypts gets, for every kept message, the reply
    to the place that message was sent at, and the replies to the noise are dropped. The
    round is then closed, its mutex free, and its plaintext batch and noise gone. *)
Theorem CloseRound_mixes next c shuffle_coins ctx req p st k index valid server replies srv :
  rounds srv !! (pb.CloseRound_Service req, pb.CloseRound_Round req) = Some p →
  store srv !! p = Some st → prev_key CoordinatorKey st = Some k → authenticated ctx k →
  mu st = false → closed st = false → decryptWg st = 0%nat → noiseDone st = Some true →
  bidirectional st = true → chain st !! S (myPos st) = Some server →
  filter_loop (incoming st) [] [] ∅ = Ret (index, valid) →
  let batch := valid ++ default [] (noise st) in
  let sent := do_shuffle (shuffle_New shuffle_coins (length batch)) batch in
  next_RunRoundBidirectional next server (pb.CloseRound_Service req) (pb.CloseRound_Round req) sent
    = Ret replies → length replies = length sent →
  sent ≡ₚ batch ∧
  ∃ job st', CloseRound CoordinatorKey Services next c shuffle_coins ctx req srv =
      (add_encrypt_job job (put_round p st' srv), Ret (pb.mkCloseRoundResponse "")) ∧
    closed st' = true ∧ mu st' = false ∧ incoming st' = [] ∧ noise st' = None ∧
    incomingIndex st' = index ∧ sharedKeys st' = sharedKeys st ∧
    encrypt_st job = p ∧ length (encrypt_replies job) = length valid ∧
    ∀ v msg, valid !! v = Some msg →
      ∃ j, sent !! j = Some msg ∧ encrypt_replies job !! v = replies !! j.
Proof.
  intros Hr Hp Hk Ha Hmu Hc Hw Hn Hb Hs Hf batch sent Hnext Hlen.
  assert (Hl : shuffle_len (shuffle_New shuffle_coins (length batch)) = length batch)
    by apply shuffle_len_New.
  assert (Hsl : length sent = length batch) by apply length_do_shuffle.
  assert (Hout : batch_out (closing index valid st) = batch).
  { unfold batch_out, batch. cbn. rewrite <- list_fmap_compose. by rewrite list_fmap_id. }
  split; [by apply shuffle_Permutation|].
  assert (Hrun : CloseRound CoordinatorKey Services next c shuffle_coins ctx req srv =
    CloseRound_mix Services next c shuffle_coins p req (put_round p (closing index valid st) srv)).
  { rewrite <- (CloseRound_run CoordinatorKey Services next c shuffle_coins ctx req p st k) by done.
    by rewrite put_round_id. }
  rewrite Hrun, (CloseRound_forward_bidirectional Services next c shuffle_coins p req
    (closing index valid st) server replies); try done; rewrite ?Hout; [|exact Hnext|].
  - do 2 eexists. split; [reflexivity|]. do 7 (split; [done|]). cbn [encrypt_replies].
    assert (Hv : length (incoming (closing index valid st)) = length valid) by (cbn; len).
    rewrite Hv. split.
    + rewrite length_take, length_do_unshuffle, Hlen, Hsl. unfold batch. len.
    + intros v msg Hv'. pose proof (lookup_lt_Some _ _ _ Hv') as Hlt.
      destruct (unshuffle_routes (shuffle_New shuffle_coins (length batch)) batch replies v msg)
        as (j & Hj & Hu & _); [done|lia|by apply lookup_app_l_Some|].
      exists j. split; [done|]. by rewrite lookup_take_lt.
  - cbn. rewrite length_do_unshuffle. rewrite Hlen, Hsl. unfold batch. len.
Qed.

(** C19. What happens to a round whose next server fails: the caller gets the error, the round
    stays closed with the mutex free, and every later [CloseRound] of the round by an
    authenticated caller returns the same error and changes nothing. *)
Theorem CloseRound_error_sticks next next' c shuffle_coins ctx req p st k index valid server e srv :
  rounds srv !! (pb.CloseRound_Service req, pb.CloseRound_Round req) = Some p →
  store srv !! p = Some st → prev_key CoordinatorKey st = Some k → authenticated ctx k →
  mu st = false → closed st = false → decryptWg st = 0%nat → noiseDone st = Some true →
  bidirectional st = true → chain st !! S (myPos st) = Some server →
  filter_loop (incoming st) [] [] ∅ = Ret (index, valid) →
  (∀ onions, next_RunRoundBidirectional next server (pb.CloseRound_Service req)
               (pb.CloseRound_Round req) onions = Err e) →
  ∃ srv', CloseRound CoordinatorKey Services next c shuffle_coins ctx req srv =
            (srv', Err (RunRoundError (myPos st))) ∧
    ∀ c' coins' ctx', authenticated ctx' k →
      CloseRound CoordinatorKey Services next' c' coins' ctx' req srv' =
        (srv', Err (RunRoundError (myPos st))).
Proof.
  intros Hr Hp Hk Ha Hmu Hc Hw Hn Hb Hs Hf Hnext.
  pose proof (lookup_lt_Some _ _ _ Hs) as Hlt.
  set (st' := set_mu false (set_err (Some (RunRoundError (myPos st)))
               (set_incoming [] (set_noise None (closing index valid st))))).
  exists (put_round p st' srv). split.
  - pose proof (CloseRound_run CoordinatorKey Services next c shuffle_coins ctx req p st k
      index valid srv Hr Hk Ha Hmu Hc Hw Hf) as E.
    rewrite put_round_id in E by done. rewrite E.
    unfold CloseRound_mix. run. cbn [noiseDone closing with_filtered set_incomingIndex set_incoming
      set_closed set_mu set_acceptingOnions]. rewrite Hn. run.
    rewrite decide_True by (cbn; lia). unfold CloseRound_forward. run.
    change (chain _ !! S (myPos _)) with (chain st !! S (myPos st)). rewrite Hs. run.
    change (bidirectional _) with (bidirectional st). rewrite Hb, Hnext.
    unfold fail_round. run. done.
  - intros c' coins' ctx' Ha'. unfold CloseRound. rewrite go_bind_unfold.
    by rewrite (CloseRound_begin_run CoordinatorKey ctx' req p st' k).
Qed.

(** A round is closed once: on a closed round [CloseRound] returns the stored result and
    changes nothing, and no onion is accepted any more. *)
Theorem CloseRound_once next c shuffle_coins ctx req p st k srv :
  rounds srv !! (pb.CloseRound_Service req, pb.CloseRound_Round req) = Some p →
  store srv !! p = Some st → prev_key CoordinatorKey st = Some k → authenticated ctx k →
  mu st = false → closed st = true →
  CloseRound CoordinatorKey Services next c shuffle_coins ctx req srv =
    (srv, match err st with
          | Some e => Err e
          | None => Ret (pb.mkCloseRoundResponse (closeResult st))
          end).
Proof.
  intros Hr Hp Hk Ha Hmu Hc. unfold CloseRound. rewrite go_bind_unfold.
  pose proof (CloseRound_begin_run CoordinatorKey ctx req p st k srv Hr Hk Ha Hmu) as E.
  rewrite put_round_id in E by done. rewrite E, Hc. by destruct (err st).
Qed.

(** [CloseRound] on a round without settings waits on the nil [noiseDone] for ever, and it
    waits with the mutex of the round: from then on [SetRoundSettings], which would make
    the channel, [AddOnions] and [CloseRound] block as well, so the round is stuck. *)
Theorem CloseRound_before_settings_deadlocks SigningKey next c shuffle_coins ctx req p st k index valid srv :
  rounds srv !! (pb.CloseRound_Service req, pb.CloseRound_Round req) = Some p →
  store srv !! p = Some st → prev_key CoordinatorKey st = Some k → authenticated ctx k →
  mu st = false → closed st = false → decryptWg st = 0%nat → noiseDone st = None →
  filter_loop (incoming st) [] [] ∅ = Ret (index, valid) →
  ∃ srv', CloseRound CoordinatorKey Services next c shuffle_coins ctx req srv = (srv', Block) ∧
    (CloseRound CoordinatorKey Services next c shuffle_coins ctx req srv').2 = Block ∧
    (∀ ctx' md, authenticated ctx' k → md_service md = pb.CloseRound_Service req →
       md_round md = pb.CloseRound_Round req → ∀ md', parseMetadata md' = Ret md →
       (AddOnions_begin CoordinatorKey ctx' md' srv').2 = Block) ∧
    (∀ ctx' pbs svc data, authenticated ctx' CoordinatorKey →
       Forall (λ k, length k = 32%nat) (pb.OnionKeys pbs) →
       pb.Service pbs = pb.CloseRound_Service req → pb.Round pbs = pb.CloseRound_Round req →
       Services !! pb.Service pbs = Some svc → ParseServiceData svc (pb.ServiceData pbs) = Ret data →
       (SetRoundSettings SigningKey CoordinatorKey Services ctx'
          (pb.mkSetRoundSettingsRequest (Some pbs)) srv').2 = Block).
Proof.
  intros Hr Hp Hk Ha Hmu Hc Hw Hn Hf.
  exists (put_round p (closing index valid st) srv). split; [|split; [|split]].
  - pose proof (CloseRound_run CoordinatorKey Services next c shuffle_coins ctx req p st k
      index valid srv Hr Hk Ha Hmu Hc Hw Hf) as E. rewrite put_round_id in E by done.
    rewrite E. unfold CloseRound_mix. run. cbn. by rewrite Hn.
  - unfold CloseRound, CloseRound_begin. rewrite !go_bind_unfold, (getRound_run _ _ p) by done.
    run. rewrite (authPrev_eq _ _ _ k) by done. by rewrite (auth_ok _ _ Ha).
  - intros ctx' md Ha' Es Er md' E. unfold AddOnions_begin. run. rewrite E. run.
    rewrite (getRound_run _ _ p) by (by rewrite Es, Er). run.
    rewrite (authPrev_eq _ _ _ k) by done. by rewrite (auth_ok _ _ Ha').
  - intros ctx' pbs svc data Ha' Hkeys Es Er Hs Hd. unfold SetRoundSettings. cbn [pb.Settings or_panic].
    run. rewrite (auth_ok _ _ Ha'). run. rewrite FromProto_requested by done.
    run. rewrite (getRound_run _ _ p) by (cbn; by rewrite Es, Er). run.
    cbn [Service requested]. rewrite Hs. run. cbn [RawServiceData requested]. rewrite Hd. run. done.
Qed.

End closing_properties.

(** ** Serving the replies *)

Section serving.
Context {coins : Type} `{NaCl} `{Onionbox} `{Signature} `{Shuffle} `{SpansLaws}.
Context (CoordinatorKey : bytes) (Services : gmap string (MixService coins)).

Lemma GetOnions_run ctx req p st k srv :
  rounds srv !! (pb.GetOnions_Service req, pb.GetOnions_Round req) = Some p →
  prev_key CoordinatorKey st = Some k → authenticated ctx k →
  bidirectional st = true → encryptDone st = true →
  let offset := pb.GetOnions_Offset req in
  let count := pb.GetOnions_Count req in
  GetOnions CoordinatorKey ctx req (put_round p st srv) =
    if decide (u32 (Z.of_nat (length (replies st))) < u32 (offset + count))
    then (put_round p st srv, Err (InvalidOffsetCount offset count (length (replies st))))
    else
      match slice (Z.to_nat offset) (Z.to_nat (u32 (offset + count))) (replies st) with
      | None => (put_round p st srv, Panic)
      | Some part =>
          (put_round p st srv,
           Ret ((λ s, pb.mkGetOnionsResponse (u32 (offset + u32 (Z.of_nat (Start s)))) (span_elems part s))
                  <$> spans (length part) 16))
      end.
Proof.
  intros Hr Hk Ha Hb Hd offset count. unfold GetOnions. rewrite go_bind_unfold, (getRound_run _ _ p) by done.
  run. rewrite Hb. cbn [negb]. run. rewrite (authPrev_eq _ _ _ k) by done. rewrite (auth_ok _ _ Ha). run.
  rewrite Hd. cbn [negb]. fold offset count. case_decide; [done|]. run.
  destruct (slice _ _ (replies st)) as [part|]; [|done]. run.
  assert (E : ∀ l, (∀ s, s ∈ l → slice (Start s) (Start s + Count s) part = Some (span_elems part s)) →
    mapM (M := outcome mix_error) (λ span,
      onions ← or_panic (slice (Start span) (Start span + Count span) part);
      Ret (pb.mkGetOnionsResponse (u32 (offset + u32 (Z.of_nat (Start span)))) onions)) l =
    Ret ((λ s, pb.mkGetOnionsResponse (u32 (offset + u32 (Z.of_nat (Start s)))) (span_elems part s)) <$> l)).
  { induction l as [|s l IH]; intros Hl; [done|]. cbn [mapM].
    rewrite Hl by by left. cbn [or_panic mbind outcome_bind]. rewrite IH by (intros; apply Hl; by right).
    done. }
  rewrite E by (intros s Hs; by eapply slice_span). done.
Qed.

(** [GetOnions] streams the replies asked for: for a range inside the replies, the messages
    put together are exactly that range, in order, each with the index of its first reply. It answers only after the replies are
    encrypted, only in a bidirectional round and only to the previous server, and a
    range that ends behind the replies is an error. *)
Theorem GetOnions_serves_range ctx req p st k srv :
  rounds srv !! (pb.GetOnions_Service req, pb.GetOnions_Round req) = Some p →
  store srv !! p = Some st → prev_key CoordinatorKey st = Some k → authenticated ctx k →
  bidirectional st = true → Z.of_nat (length (replies st)) < 2 ^ 32 →
  is_u32 (pb.GetOnions_Offset req) → is_u32 (pb.GetOnions_Count req) →
  let offset := Z.to_nat (pb.GetOnions_Offset req) in
  let count := Z.to_nat (pb.GetOnions_Count req) in
  (encryptDone st = false → GetOnions CoordinatorKey ctx req srv = (srv, Block)) ∧
  (encryptDone st = true → (offset + count ≤ length (replies st))%nat →
   ∃ responses, GetOnions CoordinatorKey ctx req srv = (srv, Ret responses) ∧
     mjoin (pb.GetOnions_resp_Onions <$> responses) = take count (drop offset (replies st)) ∧
     ∀ r, r ∈ responses → ∃ s, s ∈ spans count 16 ∧
       pb.GetOnions_resp_Offset r = pb.GetOnions_Offset req + Z.of_nat (Start s) ∧
       pb.GetOnions_resp_Onions r = span_elems (take count (drop offset (replies st))) s) ∧
  (encryptDone st = true → (length (replies st) < offset + count)%nat →
   Z.of_nat (offset + count) < 2 ^ 32 →
   GetOnions CoordinatorKey ctx req srv =
     (srv, Err (InvalidOffsetCount (pb.GetOnions_Offset req) (pb.GetOnions_Count req) (length (replies st))))).
Proof.
  intros Hr Hp Hk Ha Hb Hlen Ho Hc offset count. split; [|split].
  - intros Hd. unfold GetOnions. rewrite go_bind_unfold, (getRound_run _ _ p) by done.
    rewrite go_bind_unfold, (deref_run p st) by done. rewrite Hb. cbn [negb]. run.
    rewrite (authPrev_eq _ _ _ k) by done. rewrite (auth_ok _ _ Ha). by rewrite Hd.
  - intros Hd Hle. pose proof (GetOnions_run ctx req p st k srv Hr Hk Ha Hb Hd) as E.
    cbv zeta in E. rewrite put_round_id in E by done. unfold is_u32 in *.
    rewrite !u32_id in E by (unfold is_u32; lia). rewrite decide_False in E by lia.
    rewrite Z2Nat.inj_add in E by lia. fold offset count in E. rewrite slice_is_Some in E by lia.
    rewrite Nat.add_comm, Nat.add_sub in E. set (part := take count _) in *.
    assert (Hpart : length part = count) by (unfold part; len). rewrite Hpart in E.
    eexists. split; [exact E|]. split.
    + rewrite <- list_fmap_compose.
      change (pb.GetOnions_resp_Onions ∘ _) with (span_elems part).
      rewrite <- Hpart. apply spans_elems. lia.
    + intros r (s & -> & Hs)%list_elem_of_fmap. exists s. split; [done|]. cbn. split; [|done].
      apply spans_bound in Hs. rewrite (u32_id (Z.of_nat _)), u32_id by (unfold is_u32; lia). done.
  - intros Hd Hlt Hw. pose proof (GetOnions_run ctx req p st k srv Hr Hk Ha Hb Hd) as E.
    cbv zeta in E. rewrite put_round_id in E by done. unfold is_u32 in *.
    rewrite !u32_id in E by (unfold is_u32; lia). by rewrite decide_True in E by lia.
Qed.

(** The range check of [GetOnions] adds in uint32 too: a range whose end wraps around to
    before its start passes it, and slicing the replies panics. *)
Theorem GetOnions_wraparound_panics ctx req p st k srv :
  rounds srv !! (pb.GetOnions_Service req, pb.GetOnions_Round req) = Some p →
  store srv !! p = Some st → prev_key CoordinatorKey st = Some k → authenticated ctx k →
  bidirectional st = true → encryptDone st = true → Z.of_nat (length (replies st)) < 2 ^ 32 →
  is_u32 (pb.GetOnions_Offset req) → is_u32 (pb.GetOnions_Count req) →
  2 ^ 32 <= pb.GetOnions_Offset req + pb.GetOnions_Count req →
  pb.GetOnions_Offset req + pb.GetOnions_Count req - 2 ^ 32 <= Z.of_nat (length (replies st)) →
  GetOnions CoordinatorKey ctx req srv = (srv, Panic).
Proof.
  intros Hr Hp Hk Ha Hb Hd Hlen Ho Hc Hw Hle.
  pose proof (GetOnions_run ctx req p st k srv Hr Hk Ha Hb Hd) as E.
  cbv zeta in E. rewrite put_round_id in E by done.
  rewrite u32_add_wrap, (u32_id (Z.of_nat _)) in E by (unfold is_u32 in *; lia).
  rewrite decide_False in E by lia. rewrite (proj2 (slice_None _ _ _)) in E; [done|].
  left. unfold is_u32 in *. lia.
Qed.

End serving.

Section authentication.
Context {coins : Type} `{NaCl} `{Onionbox} `{Signature} `{Shuffle} `{Spans}.
Context (SigningKey CoordinatorKey : bytes) (Services : gmap string (MixService coins)).

Lemma parseMetadata_ends md : parseMetadata md ≠ Block.
Proof.
  unfold parseMetadata. repeat (case_match; try done);
    match goal with |- (or_panic ?o ≫= _) ≠ _ => destruct o; cbn; try done end;
    repeat (case_match; try done);
    match goal with |- (or_panic ?o ≫= _) ≠ _ => destruct o; cbn; try done end;
    repeat (case_match; try done);
    match goal with |- (or_panic ?o ≫= _) ≠ _ => destruct o; cbn; try done end; by repeat case_match.
Qed.

Lemma refuses_step {A B} ctx (m : handler A) a (f : A → handler B) srv :
  m srv = (srv, Ret a) → refuses ctx (f a) srv → refuses ctx (m ≫= f) srv.
Proof. intros E. unfold refuses. by rewrite go_bind_unfold, E. Qed.

(** How the calls of a round begin. *)
Lemma round_call_refuses {A} ctx service round p st k (f : loc → roundState → unit → handler A) srv :
  rounds srv !! (service, round) = Some p → store srv !! p = Some st →
  prev_key CoordinatorKey st = Some k → ¬ authenticated ctx k →
  refuses ctx (p ← getRound service round; st ← deref p; lift (authPrev CoordinatorKey ctx st) ≫= f p st) srv.
Proof.
  intros Hr Hp Hk Ha. apply (refuses_step _ _ p); [by apply getRound_run|].
  apply (refuses_step _ _ st); [by apply deref_run|]. rewrite (authPrev_eq _ ctx st k Hk). by apply auth_refuses.
Qed.

Lemma no_round {A} service round (f : loc → handler A) srv :
  rounds srv !! (service, round) = None → (getRound service round ≫= f) srv = (srv, Err (RoundNotFound round)).
Proof. intros Hr. rewrite go_bind_unfold. unfold getRound. rewrite go_bind_unfold. cbn [get]. by rewrite Hr. Qed.

(** C14. Who may call. [NewRound] and [SetRoundSettings] are for the coordinator, the other
    four calls for the previous server of the round's chain, which is the coordinator
    for the first server. A caller that does not present exactly that key in one
    ed25519 certificate is turned away by each of them and changes nothing: with an
    authentication error, or by a panic where the peer has no [AuthInfo]. Three answers
    come before the check of the key, and change nothing either: [AddOnions] refuses metadata
    that it cannot parse, all four refuse a round that is not there, and [GetOnions] refuses a
    round that is not bidirectional. *)
Theorem rpcs_authenticated ctx srv :
  (¬ authenticated ctx CoordinatorKey →
     (∀ key req, refuses ctx (NewRound SigningKey CoordinatorKey Services ctx key req) srv) ∧
     (∀ req, refuses ctx (SetRoundSettings SigningKey CoordinatorKey Services ctx req) srv)) ∧
  (∀ md reqs, match parseMetadata md with
     | Ret _ => True
     | Err e => AddOnions CoordinatorKey ctx md reqs srv = (srv, Err e)
     | Panic => AddOnions CoordinatorKey ctx md reqs srv = (srv, Panic)
     | Block => False
     end) ∧
  (∀ service round md md' reqs next c shuffle_coins offset count,
     parseMetadata md = Ret md' → md_service md' = service → md_round md' = round →
     let addOnions := AddOnions CoordinatorKey ctx md reqs in
     let closeRound := CloseRound CoordinatorKey Services next c shuffle_coins ctx (pb.mkCloseRoundRequest service round) in
     let getOnions := GetOnions CoordinatorKey ctx (pb.mkGetOnionsRequest service round offset count) in
     let deleteRound := DeleteRound CoordinatorKey ctx (pb.mkDeleteRoundRequest service round) in
     match rounds srv !! (service, round) with
     | None =>
         addOnions srv = (srv, Err (RoundNotFound round)) ∧ closeRound srv = (srv, Err (RoundNotFound round)) ∧
         getOnions srv = (srv, Err (RoundNotFound round)) ∧ deleteRound srv = (srv, Err (RoundNotFound round))
     | Some p => ∀ st k,
         store srv !! p = Some st → prev_key CoordinatorKey st = Some k → ¬ authenticated ctx k →
         refuses ctx addOnions srv ∧ refuses ctx closeRound srv ∧ refuses ctx deleteRound srv ∧
         if bidirectional st then refuses ctx getOnions srv
         else getOnions srv = (srv, Err (NotBidirectional service))
     end).
Proof.
  split; [|split].
  - intros Ha. split; intros; [by apply refuses_bind, auth_refuses|by apply auth_refuses].
  - intros md reqs. unfold AddOnions, AddOnions_begin. rewrite !go_bind_unfold, lift_run.
    pose proof (parseMetadata_ends md) as He. by destruct (parseMetadata md).
  - intros service round md md' reqs next c shuffle_coins offset count Emd <- <-. cbv zeta.
    destruct (rounds srv !! _) as [p|] eqn:Hr; [intros st k Hp Hk Ha|].
    + split_and!.
      * apply refuses_bind, (refuses_step _ _ md'); [by rewrite lift_run, Emd|].
        by eapply (round_call_refuses ctx _ _ p st k).
      * apply refuses_bind. unfold CloseRound_begin. by eapply (round_call_refuses ctx _ _ p st k).
      * by eapply (round_call_refuses ctx _ _ p st k).
      * unfold GetOnions. destruct (bidirectional st) eqn:Eb; cbn [pb.GetOnions_Service pb.GetOnions_Round].
        -- apply (refuses_step _ _ p); [by apply getRound_run|]. apply (refuses_step _ _ st); [by apply deref_run|].
           rewrite Eb, (authPrev_eq _ ctx st k Hk). by apply auth_refuses.
        -- rewrite go_bind_unfold, (getRound_run _ _ p) by done. by rewrite go_bind_unfold, (deref_run p st), Eb.
    + split_and!.
      * unfold AddOnions, AddOnions_begin. rewrite !go_bind_unfold, lift_run, Emd. by rewrite no_round.
      * unfold CloseRound. rewrite go_bind_unfold. unfold CloseRound_begin. by rewrite no_round.
      * unfold GetOnions. by rewrite no_round.
      * unfold DeleteRound. by rewrite no_round.
Qed.

End authentication.
