(* ===== verification/ConvoMix.v ===== *)
(** * The conversation service as a mix service (convo/mixer.go)

    [ConvoService] implements the [MixService] interface of the mixer: its methods, with
    the draws and schedules of a call gathered in [convo_coins]. The access counts that
    [HandleMessages] offers on a channel are not seen by the mixer. *)

From Stdlib Require Import ZArith Lia.
From stdpp Require Import base numbers strings gmap list.
From S2P Require Import Prelude GoStd External Concurrency Settings Convo Mixnet.

Record convo_coins := mkConvoCoins {
  noise_coins : noise_draws;
  singles_schedule : list (nat * nat);
  doubles_schedule : list (nat * nat);
  handle_schedule : list (nat * nat)
}.

(** An error of package convo, as the mixer sees it. *)
Definition as_mix_error {A} (o : outcome convo_error A) : outcome mix_error A :=
  match o with
  | Ret a => Ret a
  | Err (WrongSize got _) => Err (ServiceError got)
  | Panic => Panic
  | Block => Block
  end.

Section service.
Context `{NaCl} `{Onionbox}.

Definition Convo_Bidirectional : bool := true.
Definition Convo_SizeIncomingMessage : nat := sizeDeadDropMessage.
Definition Convo_SizeReplyMessage : nat := SizeEncryptedMessageBody.
Definition Convo_ParseServiceData (data : option bytes) : outcome mix_error interface := Ret inil.

Definition convo_service (s : ConvoService) : MixService convo_coins := {|
  Bidirectional := Convo_Bidirectional;
  SizeIncomingMessage := Convo_SizeIncomingMessage;
  SizeReplyMessage := Convo_SizeReplyMessage;
  ParseServiceData := Convo_ParseServiceData;
  Mixnet.GenerateNoise c settings myPos :=
    as_mix_error (Convo.GenerateNoise (noise_coins c) (singles_schedule c) (doubles_schedule c)
                    settings myPos);
  Mixnet.HandleMessages c settings incoming :=
    as_mix_error (replies ← (Convo.HandleMessages (handle_schedule c) incoming s).2;
                  Ret (ibytess replies))
|}.

(** What a [mixnet.Server] is configured with. *)
Record mixer := mkMixer {
  SigningKey : bytes;
  CoordinatorKey : bytes;
  Services : gmap string (MixService convo_coins)
}.

Lemma convo_HandleMessages s c st msgs :
  wf_batch msgs → valid_schedule (length msgs) (handle_schedule c) →
  Mixnet.HandleMessages (convo_service s) c st msgs = Ret (ibytess (exchange msgs)).
Proof.
  intros Hwf Hs. cbn. by rewrite HandleMessages_spec.
Qed.

End service.
