(* ===== verification/MixClient.v ===== *)
(** * The mixnet client (mixnet/mixnet.go, type Client)

    What the coordinator does with the whole chain ([NewRound]) and every mixer with the
    next server ([addOnions], [RunRoundBidirectional], [RunRoundUnidirectional]). The
    calls go through the interface [MixRemote]; a goroutine per span or server is a
    call whose place in the order of completion is arbitrary.

    [BatchServer] is the contract a server has with the client: it takes the onions of
    a batch in streams, in any order, and then serves the replies. The theorems about
    the client are proved against it; [MixServe] shows that the handlers of the mixer
    satisfy it. *)

From Stdlib Require Import ZArith Lia.
From stdpp Require Import base numbers strings gmap list.
From S2P Require Import Prelude GoStd External Pb Settings Mixnet.

(** ** The remote calls *)

Class MixRemote (W : Type) := {
  call_NewRound : PublicServerConfig → pb.NewRoundRequest → go W mix_error pb.NewRoundResponse;
  call_SetRoundSettings :
    PublicServerConfig → pb.SetRoundSettingsRequest → go W mix_error pb.RoundSettingsSignature;
  call_AddOnions :
    PublicServerConfig → gmap string (list string) → list pb.AddOnionsRequest → go W mix_error unit;
  call_CloseRound :
    PublicServerConfig → pb.CloseRoundRequest → go W mix_error pb.CloseRoundResponse;
  call_GetOnions :
    PublicServerConfig → pb.GetOnionsRequest → go W mix_error (list pb.GetOnionsResponse);
  call_DeleteRound : PublicServerConfig → pb.DeleteRoundRequest → go W mix_error unit
}.

Section client.
Context {W : Type} `{MixRemote W} `{Spans}.

(** ** Goroutines that each report an error or nil *)

(** The calls in the order they complete; the first error received is kept, and all
    calls are waited for. *)
Fixpoint gather {A} (call : A → go W mix_error unit) (order : list A) (first : option mix_error)
    : go W mix_error (option mix_error) :=
  match order with
  | [] => mret first
  | a :: order =>
      r ← catch (call a);
      gather call order
        (match first, r with
         | Some e, _ => Some e
         | None, inl e => Some e
         | None, inr _ => None
         end)
  end.

(** ** Adding onions *)

Definition spanSize (numOnions : nat) : nat :=
  let size := (numOnions / 5)%nat in
  if decide (size = 0)%nat then 1%nat else size.

(** The requests of a stream. *)
Definition stream_requests (offset : nat) (onions : list bytes) : outcome mix_error (list pb.AddOnionsRequest) :=
  mapM (λ span,
    part ← or_panic (slice (Start span) (Start span + Count span) onions);
    Ret (pb.mkAddOnionsRequest (u32 (Z.of_nat (offset + Start span))) part))
    (spans (length onions) 16).

Definition streamAddOnions (server : PublicServerConfig) (md : gmap string (list string))
    (offset : nat) (onions : list bytes) : go W mix_error unit :=
  reqs ← lift (stream_requests offset onions);
  call_AddOnions server md reqs.

(** [metadata.Pairs]: the keys are lower-cased. *)
Definition addOnions_metadata (service : string) (round : Z) (n : nat) : gmap string (list string) :=
  {[ "service" := [service];
     "round" := [Decimal.sprint round];
     "numincoming" := [Decimal.sprint (Z.of_nat n)] ]}.

(** [order] is the order in which the streams complete, a permutation of the spans. *)
Definition addOnions (order : list Span) (server : PublicServerConfig) (service : string) (round : Z)
    (onions : list bytes) : go W mix_error pb.CloseRoundResponse :=
  let md := addOnions_metadata service round (length onions) in
  addErr ← gather (λ span,
    part ← lift (or_panic (slice (Start span) (Start span + Count span) onions));
    streamAddOnions server md (Start span) part) order None;
  match addErr with
  | Some e => throw e
  | None => call_CloseRound server (pb.mkCloseRoundRequest service round)
  end.

Definition addOnions_spans (onions : list bytes) : list Span :=
  spans (length onions) (spanSize (length onions)).

(** ** Running a round *)

(** [copy(replies[resp.Offset:], resp.Onions)] *)
Definition copy_response (replies : list bytes) (resp : pb.GetOnionsResponse) : option (list bytes) :=
  let offset := Z.to_nat (pb.GetOnions_resp_Offset resp) in
  if decide (offset ≤ length replies)%nat
  then Some (copy_into offset (length replies) replies (pb.GetOnions_resp_Onions resp))
  else None.

Fixpoint copy_responses (replies : list bytes) (resps : list pb.GetOnionsResponse) : option (list bytes) :=
  match resps with
  | [] => Some replies
  | resp :: resps => replies ← copy_response replies resp; copy_responses replies resps
  end.

(** The goroutines of the second half: they copy into the shared slice. *)
Fixpoint getOnions (server : PublicServerConfig) (service : string) (round : Z) (order : list Span)
    (replies : list bytes) (first : option mix_error) : go W mix_error (list bytes * option mix_error) :=
  match order with
  | [] => mret (replies, first)
  | span :: order =>
      r ← catch (call_GetOnions server (pb.mkGetOnionsRequest service round
                   (u32 (Z.of_nat (Start span))) (u32 (Z.of_nat (Count span)))));
      match r with
      | inl e => getOnions server service round order replies (Some (default e first))
      | inr resps =>
          replies ← lift (or_panic (copy_responses replies resps));
          getOnions server service round order replies first
      end
  end.

(** [DeleteRound] runs in a goroutine of its own whose error is only logged; [deleted] says
    whether it has run when the function returns. *)
Definition delete_async (deleted : bool) (server : PublicServerConfig) (service : string) (round : Z)
    : go W mix_error unit :=
  if deleted
  then _ ← catch (call_DeleteRound server (pb.mkDeleteRoundRequest service round)); mret ()
  else mret ().

Definition RunRoundBidirectional (add_order get_order : list Span) (deleted : bool)
    (server : PublicServerConfig) (service : string) (round : Z) (onions : list bytes)
    : go W mix_error (list bytes) :=
  _ ← addOnions add_order server service round onions;
  '(replies, getErr) ← getOnions server service round get_order (replicate (length onions) []) None;
  match getErr with
  | Some e => throw e
  | None => delete_async deleted server service round;; mret replies
  end.

Definition RunRoundUnidirectional (add_order : list Span) (deleted : bool)
    (server : PublicServerConfig) (service : string) (round : Z) (onions : list bytes)
    : go W mix_error string :=
  r ← catch (addOnions add_order server service round onions);
  delete_async deleted server service round;;
  match r with
  | inl e => throw e
  | inr resp => mret (pb.Result resp)
  end.

(** ** Setting a round up *)

(** The goroutines of the first phase: server [i]'s key goes to [OnionKeys[i]]. *)
Fixpoint collect_keys (req : pb.NewRoundRequest) (order : list (nat * PublicServerConfig))
    (keys : list (option bytes)) (first : option mix_error)
    : go W mix_error (list (option bytes) * option mix_error) :=
  match order with
  | [] => mret (keys, first)
  | (i, server) :: order =>
      r ← catch (call_NewRound server req);
      match r with
      | inl e => collect_keys req order keys (Some (default e first))
      | inr resp =>
          let key := go_copy (replicate 32 x00) (pb.OnionKey resp) in
          keys ← lift (or_panic (assign i (Some key) keys));
          collect_keys req order keys first
      end
  end.

Fixpoint collect_signatures (req : pb.SetRoundSettingsRequest) (order : list (nat * PublicServerConfig))
    (signatures : list bytes) (first : option mix_error)
    : go W mix_error (list bytes * option mix_error) :=
  match order with
  | [] => mret (signatures, first)
  | (i, server) :: order =>
      r ← catch (call_SetRoundSettings server req);
      match r with
      | inl e => collect_signatures req order signatures (Some (default e first))
      | inr resp =>
          signatures ← lift (or_panic (assign i (pb.Signature resp) signatures));
          collect_signatures req order signatures first
      end
  end.

(** The settings are the caller's: it sees them with the onion keys filled in, also where
    the call fails. *)
Definition Client_NewRound (key_order sig_order : list (nat * PublicServerConfig))
    (servers : list PublicServerConfig) (settings : RoundSettings)
    : go W mix_error (RoundSettings * outcome mix_error (list bytes)) :=
  let chain := PublicServerConfig_Proto <$> servers in
  let newRoundReq := pb.mkNewRoundRequest (Service settings) (Round settings) chain in
  '(keys, newRoundErr) ← collect_keys newRoundReq key_order (replicate (length servers) None) None;
  let settings := mkRoundSettings (Service settings) (Round settings) keys
                                  (RawServiceData settings) (ServiceData settings) in
  match newRoundErr with
  | Some e => mret (settings, Err e)
  | None =>
      pbs ← lift (Proto settings);
      '(signatures, setErr) ←
        collect_signatures (pb.mkSetRoundSettingsRequest (Some pbs)) sig_order
          (replicate (length servers) []) None;
      match setErr with
      | Some e => mret (settings, Err e)
      | None => mret (settings, Ret signatures)
      end
  end.

End client.

Lemma spanSize_pos n : (0 < spanSize n)%nat.
Proof. unfold spanSize. cbv zeta. case_decide; lia. Qed.

(** ** The contract of a server with the client *)

(** The answer to a request for a range of the replies. *)
Definition range_responses `{Spans} (replies : list bytes) (offset count : nat) : list pb.GetOnionsResponse :=
  (λ s, pb.mkGetOnionsResponse (Z.of_nat (offset + Start s))
          (span_elems (take count (drop offset replies)) s)) <$> spans count 16.

(** From the world [w0] on, [server] takes the batch [onions] of the round and then serves
    [replies]: [receiving got w] says that the streams of the spans [got] have been
    taken, [serving w] that the round is closed and the replies can be fetched. *)
Record BatchServer {W} `{MixRemote W} `{Spans} (server : PublicServerConfig) (service : string)
    (round : Z) (onions replies : list bytes) (w0 : W) := mkBatchServer {
  receiving : list Span → W → Prop;
  serving : W → Prop;
  batch_length : length replies = length onions;
  batch_start : receiving [] w0;
  batch_add got s reqs w :
    receiving got w → s ∈ addOnions_spans onions → (0 < length onions)%nat →
    stream_requests (Start s) (span_elems onions s) = Ret reqs →
    ∃ w', call_AddOnions server (addOnions_metadata service round (length onions)) reqs w = (w', Ret ()) ∧
      receiving (s :: got) w';
  batch_close got w :
    receiving got w → (∀ s, s ∈ addOnions_spans onions → s ∈ got) →
    ∃ w' r, call_CloseRound server (pb.mkCloseRoundRequest service round) w = (w', Ret r) ∧ serving w';
  batch_get offset count w :
    serving w → (offset + count ≤ length onions)%nat → 
    ∃ w', call_GetOnions server
        (pb.mkGetOnionsRequest service round (Z.of_nat offset) (Z.of_nat count)) w =
        (w', Ret (range_responses replies offset count)) ∧ serving w';
  batch_delete w :
    serving w → ∃ w' r, catch (call_DeleteRound server (pb.mkDeleteRoundRequest service round)) w = (w', Ret r)
}.

Section client_lemmas.
Context {W : Type} `{MixRemote W} `{SpansLaws}.
Context (server : PublicServerConfig) (service : string) (round : Z) (onions replies : list bytes) (w0 : W).
Context (B : BatchServer server service round onions replies w0).
Context (few : Z.of_nat (length onions) < 2 ^ 32).

(** [buf] holds the replies at the indices [C]. *)
Definition filled (C : nat → Prop) (buf : list bytes) : Prop :=
  length buf = length replies ∧ ∀ j, C j → buf !! j = replies !! j.

Definition in_span (s : Span) (j : nat) : Prop := (Start s ≤ j < Start s + Count s)%nat.

Lemma copy_response_filled C offset part buf :
  filled C buf → (offset + length part ≤ length replies)%nat →
  part = take (length part) (drop offset replies) →
  ∃ buf', copy_response buf (pb.mkGetOnionsResponse (Z.of_nat offset) part) = Some buf' ∧
    filled (λ j, C j ∨ (offset ≤ j < offset + length part)%nat) buf'.
Proof.
  intros [Hl HC] Hb Hpart. unfold copy_response. cbn [pb.GetOnions_resp_Offset pb.GetOnions_resp_Onions].
  rewrite Nat2Z.id, decide_True by lia. eexists. split; [reflexivity|].
  assert (E : copy_into offset (length buf) buf part =
              take offset buf ++ part ++ drop (offset + length part) buf).
  { unfold copy_into. rewrite (drop_ge buf (length buf)) by lia. rewrite app_nil_r, (take_ge (drop offset buf)) by len.
    rewrite go_copy_short by len. by rewrite drop_drop. }
  rewrite E. split; [len|].
  assert (Hin : ∀ j, (offset ≤ j < offset + length part)%nat →
    (take offset buf ++ part ++ drop (offset + length part) buf) !! j = replies !! j).
  { intros j Hj. rewrite lookup_app_r by len. rewrite length_take, Nat.min_l by lia.
    rewrite lookup_app_l by lia. rewrite Hpart, lookup_take_lt by lia. rewrite lookup_drop.
    f_equal. lia. }
  intros j [Hj|Hj]; [|by apply Hin].
  destruct (decide (offset ≤ j < offset + length part)%nat) as [Hr|Hr]; [by apply Hin|].
  destruct (decide (j < offset)%nat).
  - rewrite lookup_app_l by len. rewrite lookup_take_lt by lia. by apply HC.
  - rewrite lookup_app_r by len. rewrite length_take, Nat.min_l by lia.
    rewrite lookup_app_r by lia. rewrite lookup_drop. rewrite <- HC by done. f_equal. lia.
Qed.

Lemma range_part offset count s :
  s ∈ spans count 16 → (offset + count ≤ length replies)%nat →
  let part := span_elems (take count (drop offset replies)) s in
  length part = Count s ∧ (Start s + Count s ≤ count)%nat ∧
  part = take (length part) (drop (offset + Start s) replies).
Proof.
  intros Hs Hb part. apply spans_bound in Hs. unfold part, span_elems.
  assert (Hl : length (take (Count s) (drop (Start s) (take count (drop offset replies)))) = Count s) by len.
  split; [done|]. split; [done|]. rewrite Hl.
  rewrite skipn_firstn_comm, drop_drop, take_take. f_equal. lia.
Qed.

Lemma copy_range C offset count l buf :
  filled C buf → (offset + count ≤ length replies)%nat → (∀ s, s ∈ l → s ∈ spans count 16) →
  ∃ buf', copy_responses buf ((λ s, pb.mkGetOnionsResponse (Z.of_nat (offset + Start s))
             (span_elems (take count (drop offset replies)) s)) <$> l) = Some buf' ∧
    filled (λ j, C j ∨ ∃ s, s ∈ l ∧ (offset + Start s ≤ j < offset + Start s + Count s)%nat) buf'.
Proof.
  revert C buf. induction l as [|s l IH]; intros C buf HC Hb Hl.
  - exists buf. split; [done|]. destruct HC as [Hlen HC]. split; [done|].
    intros j [Hj|(s & ?%elem_of_nil & _)]; [by apply HC|done].
  - destruct (range_part offset count s (Hl s ltac:(by left)) Hb) as (Hc & Hle & Hpart).
    set (part := span_elems _ s) in *.
    destruct (copy_response_filled C (offset + Start s) part buf HC ltac:(lia) Hpart)
      as (buf1 & E1 & HC1).
    destruct (IH _ buf1 HC1 Hb ltac:(intros; apply Hl; by right)) as (buf2 & E2 & [Hl2 HC2]).
    exists buf2. split; [|split; [done|]].
    + cbn [fmap list_fmap copy_responses]. fold part. rewrite E1. cbn [mbind option_bind]. exact E2.
    + intros j [Hj|(s' & [->|Hs']%elem_of_cons & Hj)].
      * apply HC2. left. by left.
      * apply HC2. left. right. rewrite Hc. lia.
      * apply HC2. right. eauto.
Qed.

(** A span of the replies, covered by its responses. *)
Lemma copy_range_responses C s buf :
  filled C buf → (Start s + Count s ≤ length replies)%nat →
  ∃ buf', copy_responses buf (range_responses replies (Start s) (Count s)) = Some buf' ∧
    filled (λ j, C j ∨ in_span s j) buf'.
Proof.
  intros HC Hb. destruct (copy_range C (Start s) (Count s) (spans (Count s) 16) buf HC Hb ltac:(done))
    as (buf' & E & [Hl HC']).
  exists buf'. split; [exact E|]. split; [done|]. intros j [Hj|Hj]; apply HC'; [by left|right].
  assert (Hin : (j - Start s)%nat ∈ mjoin (span_indices <$> spans (Count s) 16)).
  { rewrite spans_cover by lia. apply elem_of_seq. unfold in_span in Hj. lia. }
  apply list_elem_of_join in Hin as (idx & Hj' & (s' & -> & Hs')%list_elem_of_fmap).
  unfold span_indices in Hj'. apply elem_of_seq in Hj'. exists s'. split; [done|].
  unfold in_span in Hj. lia.
Qed.

Lemma getOnions_run C order buf w :
  serving _ _ _ _ _ _ B w → filled C buf →
  (∀ s, s ∈ order → (Start s + Count s ≤ length onions)%nat) →
  ∃ buf' w', getOnions server service round order buf None w = (w', Ret (buf', None)) ∧
    serving _ _ _ _ _ _ B w' ∧ filled (λ j, C j ∨ ∃ s, s ∈ order ∧ in_span s j) buf'.
Proof.
  revert C buf w. induction order as [|s order IH]; intros C buf w Hw HC Hb.
  - exists buf, w. split; [done|]. split; [done|]. destruct HC as [Hl HC]. split; [done|].
    intros j [Hj|(s & ?%elem_of_nil & _)]; [by apply HC|done].
  - pose proof (Hb s ltac:(by left)) as Hs.
    destruct (batch_get _ _ _ _ _ _ B (Start s) (Count s) w Hw Hs) as (w1 & E1 & Hw1).
    destruct (copy_range_responses C s buf HC) as (buf1 & E2 & HC1);
      [by rewrite (batch_length _ _ _ _ _ _ B)|].
    destruct (IH _ buf1 w1 Hw1 HC1 ltac:(intros; apply Hb; by right)) as (buf2 & w2 & E3 & Hw2 & [Hl HC2]).
    exists buf2, w2. split.
    + cbn [getOnions]. rewrite go_bind_unfold. unfold catch.
      rewrite !u32_id by (unfold is_u32; lia). rewrite E1. cbn beta iota.
      rewrite go_bind_unfold. unfold lift. rewrite E2. exact E3.
    + split; [done|]. split; [done|]. intros j [Hj|(s' & [->|Hs']%elem_of_cons & Hj)]; apply HC2.
      * left. by left.
      * left. by right.
      * right. eauto.
Qed.

Lemma stream_requests_ok offset xs :
  stream_requests offset xs =
    Ret ((λ s, pb.mkAddOnionsRequest (u32 (Z.of_nat (offset + Start s))) (span_elems xs s))
           <$> spans (length xs) 16).
Proof.
  unfold stream_requests.
  assert (E : ∀ l, (∀ s, s ∈ l → s ∈ spans (length xs) 16) →
    mapM (M := outcome mix_error) (λ span,
      part ← or_panic (slice (Start span) (Start span + Count span) xs);
      Ret (pb.mkAddOnionsRequest (u32 (Z.of_nat (offset + Start span))) part)) l =
    Ret ((λ s, pb.mkAddOnionsRequest (u32 (Z.of_nat (offset + Start s))) (span_elems xs s)) <$> l)).
  { induction l as [|s l IH]; intros Hl; [done|]. cbn [mapM].
    rewrite (slice_span xs 16) by (apply Hl; by left). cbn [or_panic mbind outcome_bind].
    rewrite IH by (intros; apply Hl; by right). done. }
  by apply E.
Qed.

Lemma gather_adds got order w :
  receiving _ _ _ _ _ _ B got w → (∀ s, s ∈ order → s ∈ addOnions_spans onions) →
  (0 < length onions)%nat →
  ∃ w' got', gather (λ span,
      part ← lift (or_panic (slice (Start span) (Start span + Count span) onions));
      streamAddOnions server (addOnions_metadata service round (length onions)) (Start span) part)
      order None w = (w', Ret None) ∧
    receiving _ _ _ _ _ _ B got' w' ∧ (∀ s, s ∈ order ∨ s ∈ got → s ∈ got').
Proof.
  revert got w. induction order as [|s order IH]; intros got w Hw Ho Hn.
  - exists w, got. split; [done|]. split; [done|]. intros s [?%elem_of_nil|?]; done.
  - pose proof (Ho s ltac:(by left)) as Hs.
    destruct (batch_add _ _ _ _ _ _ B got s _ w Hw Hs Hn (stream_requests_ok _ _)) as (w1 & E1 & Hw1).
    destruct (IH (s :: got) w1 Hw1 ltac:(intros; apply Ho; by right) Hn) as (w2 & got' & E2 & Hw2 & Hgot).
    exists w2, got'. split; [|split; [done|]].
    + cbn [gather]. rewrite go_bind_unfold. unfold catch.
      rewrite go_bind_unfold. unfold lift at 1. rewrite (slice_span onions (spanSize (length onions))) by done.
      cbn [or_panic]. unfold streamAddOnions. rewrite go_bind_unfold. unfold lift at 1.
      rewrite stream_requests_ok. rewrite E1. exact E2.
    + intros s' [[->|Hs']%elem_of_cons|Hs']; apply Hgot; [right; by left|by left|right; by right].
Qed.

Lemma addOnions_run order :
  order ≡ₚ addOnions_spans onions →
  ∃ w r, addOnions order server service round onions w0 = (w, Ret r) ∧ serving _ _ _ _ _ _ B w.
Proof.
  intros Ho. unfold addOnions. rewrite go_bind_unfold.
  assert (Hclose : ∀ got w, receiving _ _ _ _ _ _ B got w →
    (∀ s, s ∈ order → s ∈ got) → ∃ w' r,
    call_CloseRound server (pb.mkCloseRoundRequest service round) w = (w', Ret r) ∧
    serving _ _ _ _ _ _ B w').
  { intros got w Hw Hgot. apply (batch_close _ _ _ _ _ _ B got w Hw).
    intros s Hs. apply Hgot. by rewrite Ho. }
  destruct (decide (length onions = 0)%nat) as [Hz|Hn].
  - assert (order = []) as ->.
    { apply Permutation_nil_r. rewrite Ho. unfold addOnions_spans. by rewrite Hz, spans_none. }
    cbn [gather]. apply (Hclose [] w0 (batch_start _ _ _ _ _ _ B)). by intros s ?%elem_of_nil.
  - destruct (gather_adds [] order w0 (batch_start _ _ _ _ _ _ B)) as (w & got & E & Hw & Hgot);
      [intros s; by rewrite Ho|lia|].
    rewrite E. cbn beta iota. apply (Hclose got w Hw). intros s Hs. apply Hgot. by left.
Qed.

Lemma RunRoundBidirectional_run add_order get_order deleted :
  add_order ≡ₚ addOnions_spans onions → get_order ≡ₚ addOnions_spans onions →
  (RunRoundBidirectional add_order get_order deleted server service round onions w0).2 = Ret replies.
Proof.
  intros Ha Hg. unfold RunRoundBidirectional. rewrite go_bind_unfold.
  destruct (addOnions_run add_order Ha) as (w & r & -> & Hw). cbn beta iota. rewrite go_bind_unfold.
  assert (Hempty : filled (λ _, False) (replicate (length onions) [])).
  { split; [rewrite length_replicate; symmetry; apply (batch_length _ _ _ _ _ _ B)|done]. }
  destruct (getOnions_run _ get_order _ w Hw Hempty) as (buf & w' & -> & Hw' & [Hl HC]).
  { intros s Hs. rewrite Hg in Hs. by apply spans_bound in Hs. }
  assert (buf = replies) as ->.
  { apply list_eq_same_length with (n := length replies); [done..|].
    intros i x y Hi Hx Hy.
    assert (Hin : i ∈ mjoin (span_indices <$> addOnions_spans onions)).
    { unfold addOnions_spans. rewrite spans_cover by apply spanSize_pos. apply elem_of_seq.
      rewrite <- (batch_length _ _ _ _ _ _ B). lia. }
    apply list_elem_of_join in Hin as (idx & Hi' & (s & -> & Hs)%list_elem_of_fmap).
    unfold span_indices in Hi'. apply elem_of_seq in Hi'.
    rewrite HC in Hx; [congruence|]. right. exists s. rewrite Hg. by split. }
  unfold delete_async. destruct deleted; [|done]. rewrite !go_bind_unfold.
  destruct (batch_delete _ _ _ _ _ _ B w' Hw') as (w2 & r2 & ->). done.
Qed.

End client_lemmas.

Section client_properties.
Context {W : Type} `{MixRemote W} `{SpansLaws}.

(** C16. The client gets the batch through. Against any server that honours the contract
    [BatchServer], in whatever order the streams of the two phases complete, whatever
    becomes of the asynchronous [DeleteRound], [RunRoundBidirectional] returns, and
    returns exactly the server's replies, in the order of the onions. *)
Theorem RunRoundBidirectional_returns (server : PublicServerConfig) service round
    (onions replies : list bytes) w0 add_order get_order deleted :
  BatchServer server service round onions replies w0 → Z.of_nat (length onions) < 2 ^ 32 →
  add_order ≡ₚ addOnions_spans onions → get_order ≡ₚ addOnions_spans onions →
  (RunRoundBidirectional add_order get_order deleted server service round onions w0).2 = Ret replies.
Proof. intros B few. by apply (RunRoundBidirectional_run _ _ _ _ _ _ B few). Qed.

End client_properties.
