(* ===== verification/MixServe.v ===== *)
(** * The mixer honours the client's contract (mixnet/mixnet.go)

    The handlers of [Mixnet] and [MixOnions] as the remote calls of [MixClient], with the
    goroutines of the server run to completion between the calls, and the proof that
    a round that is ready satisfies [BatchServer]: it takes the streams of a batch in
    any order and then serves one reply for each onion. *)

From Stdlib Require Import ZArith Lia.
From stdpp Require Import base numbers strings gmap fin_maps list.
From S2P Require Import Prelude GoStd Json External Concurrency Pb Settings Mixnet MixOnions MixClient.

(** ** A server behind the RPC layer *)

Section remote.
Context {coins : Type} `{NaCl} `{Onionbox} `{Signature} `{Shuffle} `{Spans}.
Context (SigningKey CoordinatorKey : bytes) (Services : gmap string (MixService coins)).
(** The caller, what the next server answers, and what the server draws. *)
Context (ctx : context) (next : nextCalls) (c : coins) (shuffle_coins private : bytes)
        (freshKeys : nat → bytes) (schedule : nat → list (nat * nat)).

(** The workers run until the channel is empty. *)
Fixpoint drain_jobs (n : nat) (theirPublic : bytes) : handler unit :=
  match n with
  | O => mret ()
  | S n => theirPublic ← decryptionWorker theirPublic; drain_jobs n theirPublic
  end.

Definition drain : handler unit :=
  srv ← get;
  drain_jobs (length (decryptionJobs srv)) (replicate 32 x00).

Definition run_encryption : handler unit :=
  srv ← get;
  match encryptJobs srv with
  | [] => mret ()
  | job :: jobs =>
      modify (set_encryptJobs jobs);;
      st ← deref (encrypt_st job);
      run_encrypt_job Services freshKeys (schedule (length (incomingIndex st))) job
  end.

Definition run_noise : handler unit :=
  srv ← get;
  match noiseJobs srv with
  | [] => mret ()
  | job :: jobs => modify (set_noiseJobs jobs);; run_noise_job Services c job
  end.

Definition remote : MixRemote Server := {|
  call_NewRound _ req := NewRound SigningKey CoordinatorKey Services ctx (Some private) req;
  call_SetRoundSettings _ req :=
    sig ← SetRoundSettings SigningKey CoordinatorKey Services ctx req; run_noise;; mret sig;
  call_AddOnions _ md reqs := AddOnions CoordinatorKey ctx (Some md) reqs;; drain;
  call_CloseRound _ req :=
    r ← CloseRound CoordinatorKey Services next c shuffle_coins ctx req; run_encryption;; mret r;
  call_GetOnions _ req := GetOnions CoordinatorKey ctx req;
  call_DeleteRound _ req := DeleteRound CoordinatorKey ctx req
|}.

End remote.

(** ** The metadata of a stream *)

Lemma parse_addOnions_metadata service round n :
  is_u32 round → is_u32 (Z.of_nat n) →
  parseMetadata (Some (addOnions_metadata service round n)) =
    Ret (mkStreamMetadata service round (Z.of_nat n)).
Proof.
  intros Hr Hn. unfold parseMetadata, addOnions_metadata.
  rewrite lookup_insert_eq. cbn [or_panic mbind outcome_bind].
  change ([service] !! 0%nat) with (Some service). cbn [or_panic mbind outcome_bind].
  rewrite lookup_insert_ne, lookup_insert_eq by done.
  change ([Decimal.sprint round] !! 0%nat) with (Some (Decimal.sprint round)).
  cbn [or_panic mbind outcome_bind]. rewrite Decimal.parse_uint32_sprint by done.
  rewrite !lookup_insert_ne, lookup_singleton_eq by done.
  change ([Decimal.sprint (Z.of_nat n)] !! 0%nat) with (Some (Decimal.sprint (Z.of_nat n))).
  cbn [or_panic mbind outcome_bind]. by rewrite Decimal.parse_uint32_sprint.
Qed.

(** ** Chunks of a batch *)

Section chunks.
Context `{NaCl} `{SpansLaws}.

Lemma with_decrypted_app nonce k xs ys st :
  with_decrypted nonce (k + length xs) ys (with_decrypted nonce k xs st) =
  with_decrypted nonce k (xs ++ ys) st.
Proof.
  revert k st. induction xs as [|x xs IH]; intros k st; cbn [app length].
  - by rewrite with_decrypted_nil, Nat.add_0_r.
  - rewrite <- with_decrypted_cons, <- (with_decrypted_cons nonce k x (xs ++ ys)).
    rewrite <- Nat.add_succ_comm. apply IH.
Qed.

Lemma with_decrypted_chunks nonce k part l a m st :
  mjoin (span_indices <$> l) = seq a m → (a + m ≤ length part)%nat →
  foldl (λ st s, with_decrypted nonce (k + Start s) (span_elems part s) st) st l =
  with_decrypted nonce (k + a) (take m (drop a part)) st.
Proof.
  revert a m st. induction l as [|s l IH]; intros a m st Hl Hm; cbn [foldl].
  - destruct m; [|done]. by rewrite with_decrypted_nil.
  - change (mjoin (span_indices <$> s :: l)) with (seq (Start s) (Count s) ++ mjoin (span_indices <$> l)) in Hl.
    destruct (Count s) as [|count] eqn:Ec.
    + unfold span_elems at 2. rewrite Ec. rewrite with_decrypted_nil. by apply IH.
    + assert (Hcount : (S count ≤ m)%nat).
      { apply (f_equal length) in Hl. rewrite length_app, !length_seq in Hl. lia. }
      assert (Hstart : Start s = a).
      { destruct m; [lia|]. cbn in Hl. congruence. }
      rewrite Hstart in *. replace m with (S count + (m - S count))%nat in Hl by lia.
      rewrite seq_app in Hl. apply app_inj_1 in Hl as [_ Hl]; [|by rewrite !length_seq].
      rewrite (IH (a + S count)%nat (m - S count)%nat) by (done || lia).
      unfold span_elems. rewrite Ec, Hstart.
      replace (k + (a + S count))%nat with (k + a + length (take (S count) (drop a part)))%nat by len.
      rewrite with_decrypted_app. f_equal.
      rewrite <- drop_drop. rewrite <- (take_drop (S count) (take m (drop a part))). f_equal.
      * rewrite take_take. f_equal. lia.
      * rewrite skipn_firstn_comm. by replace (S count + (m - S count))%nat with m by lia.
Qed.

End chunks.

(** ** One stream *)

Section streams.
Context {coins : Type} `{NaCl} `{Onionbox} `{Signature} `{Shuffle} `{SpansLaws}.

Lemma AddOnions_loop_run stream reqs st srv :
  mu st = false → acceptingOnions st = true →
  Forall (λ req, guard_sum req <= add_numIncoming stream) reqs →
  AddOnions_loop stream reqs (put_round (add_st stream) st srv) =
    (put_round (add_st stream) (set_decryptWg (decryptWg st + length reqs)%nat st)
       (set_decryptionJobs (decryptionJobs srv ++ (job_of stream <$> reqs)) srv), Ret ()).
Proof.
  revert st srv. induction reqs as [|req reqs IH]; intros st srv Hmu Ha Hreqs; cbn [AddOnions_loop].
  - rewrite Nat.add_0_r, app_nil_r. by destruct st, srv.
  - apply Forall_cons in Hreqs as [Hreq Hreqs]. rewrite go_bind_unfold, AddOnions_recv_run.
    rewrite decide_False, Hmu, Ha by lia. cbn beta iota.
    change (add_job ?j (put_round ?p ?st srv)) with (put_round p st (add_job j srv)).
    rewrite IH by done. unfold add_job. cbn [decryptionJobs set_decryptionJobs decryptWg set_decryptWg].
    rewrite <- app_assoc. cbn [length fmap list_fmap]. by rewrite <- Nat.add_succ_comm.
Qed.

Definition after_req (stream : addStream) (st : roundState) (req : pb.AddOnionsRequest) : roundState :=
  with_decrypted (ForwardNonce (add_round stream)) (Z.to_nat (pb.AddOnions_Offset req))
    (pb.AddOnions_Onions req) st.

Lemma drain_jobs_run stream reqs n theirPublic st srv :
  allocated st → length theirPublic = 32%nat → n = length reqs →
  Forall (λ req, (Z.to_nat (pb.AddOnions_Offset req) + length (pb.AddOnions_Onions req)
                    ≤ length (incoming st))%nat) reqs →
  drain_jobs n theirPublic
      (put_round (add_st stream) (set_decryptWg (length reqs) st)
         (set_decryptionJobs (job_of stream <$> reqs) srv)) =
    (put_round (add_st stream) (set_decryptWg 0 (foldl (after_req stream) st reqs))
       (set_decryptionJobs [] srv), Ret ()).
Proof.
  revert n theirPublic st. induction reqs as [|req reqs IH]; intros n theirPublic st Ha Ht -> Hreqs;
    cbn [length drain_jobs foldl].
  - done.
  - apply Forall_cons in Hreqs as [Hreq Hreqs].
    destruct (decryptionWorker_run theirPublic (job_of stream req) (job_of stream <$> reqs)
      (set_decryptWg (S (length reqs)) st) (set_decryptionJobs (job_of stream <$> req :: reqs) srv))
      as (tp & Htp & E); [exact Ha|exact Hreq|done|done|].
    rewrite go_bind_unfold. cbn [job_st job_of] in E. rewrite E. cbn beta iota.
    assert (Eafter : after_job (job_of stream req) (set_decryptWg (S (length reqs)) st) =
                     set_decryptWg (length reqs) (after_req stream st req)).
    { unfold after_job, after_req, with_decrypted. cbn [job_of job_req job_round bidirectional set_decryptWg].
      destruct (bidirectional st); cbn; by rewrite ?Nat.sub_0_r. }
    rewrite Eafter.
    change (set_decryptionJobs ?l (set_decryptionJobs _ srv)) with (set_decryptionJobs l srv).
    apply IH; [by apply with_decrypted_allocated|done|done|].
    unfold after_req. by rewrite length_with_decrypted.
Qed.

(** The requests of a span of the batch: within the bounds, so the guard sees no wrap. *)
Lemma span_requests_bounds (onions : list bytes) s reqs :
  Z.of_nat (length onions) < 2 ^ 32 → (Start s + Count s ≤ length onions)%nat →
  stream_requests (Start s) (span_elems onions s) = Ret reqs →
  reqs = (λ s', pb.mkAddOnionsRequest (Z.of_nat (Start s + Start s')) (span_elems (span_elems onions s) s'))
           <$> spans (Count s) 16 ∧
  Forall (λ req, guard_sum req <= Z.of_nat (length onions)) reqs ∧
  Forall (λ req, (Z.to_nat (pb.AddOnions_Offset req) + length (pb.AddOnions_Onions req)
                    ≤ length onions)%nat) reqs.
Proof.
  intros Hn Hs E. rewrite stream_requests_ok in E. injection E as <-.
  assert (Hpart : length (span_elems onions s) = Count s) by (unfold span_elems; len).
  rewrite Hpart.
  assert (Heq : (λ s', pb.mkAddOnionsRequest (u32 (Z.of_nat (Start s + Start s')))
      (span_elems (span_elems onions s) s')) <$> spans (Count s) 16 =
    (λ s', pb.mkAddOnionsRequest (Z.of_nat (Start s + Start s'))
      (span_elems (span_elems onions s) s')) <$> spans (Count s) 16).
  { apply list_fmap_ext. intros i s' Hi%list_elem_of_lookup_2%spans_bound.
    rewrite u32_id; [done|unfold is_u32; lia]. }
  rewrite Heq. split; [done|].
  assert (Hb : ∀ s', s' ∈ spans (Count s) 16 →
    length (span_elems (span_elems onions s) s') = Count s' ∧ (Start s' + Count s' ≤ Count s)%nat).
  { intros s' Hs'%spans_bound. split; [|done]. unfold span_elems at 1. len. }
  split; apply Forall_fmap, Forall_forall; intros s' Hs'; destruct (Hb s' Hs') as [Hl Hle]; cbn.
  - unfold guard_sum. cbn [pb.AddOnions_Offset pb.AddOnions_Onions]. rewrite Hl.
    rewrite (u32_id (Z.of_nat (Count s'))), u32_id by (unfold is_u32; lia). lia.
  - rewrite Nat2Z.id, Hl. lia.
Qed.

(** All requests of a span decrypted: the span decrypted. *)
Lemma fold_span stream (onions : list bytes) s st :
  (Start s + Count s ≤ length onions)%nat →
  foldl (after_req stream) st
    ((λ s', pb.mkAddOnionsRequest (Z.of_nat (Start s + Start s')) (span_elems (span_elems onions s) s'))
       <$> spans (Count s) 16) =
  with_decrypted (ForwardNonce (add_round stream)) (Start s) (span_elems onions s) st.
Proof.
  intros Hs.
  assert (Hpart : length (span_elems onions s) = Count s) by (unfold span_elems; len).
  rewrite foldl_fmap. unfold after_req. cbn [pb.AddOnions_Offset pb.AddOnions_Onions].
  transitivity (foldl (λ st s', with_decrypted (ForwardNonce (add_round stream))
    (Start s + Start s') (span_elems (span_elems onions s) s') st) st (spans (Count s) 16)).
  - clear. generalize (spans (Count s) 16) as l. intros l. revert st.
    induction l as [|s' l IH]; intros st; [done|]. cbn [foldl]. by rewrite Nat2Z.id, IH.
  - rewrite (with_decrypted_chunks _ _ _ _ 0 (Count s)); [|apply spans_cover; lia|lia].
    rewrite drop_0, Nat.add_0_r. rewrite take_ge by lia. done.
Qed.

End streams.

(** ** A round that is ready takes a batch *)

(** A bidirectional round with its settings set and its noise made, before any onion. *)
Record ready (st : roundState) : Prop := {
  ready_mu : mu st = false;
  ready_closed : closed st = false;
  ready_wg : decryptWg st = 0%nat;
  ready_num : numIncoming st = 0;
  ready_incoming : incoming st = [];
  ready_bidirectional : bidirectional st = true;
  ready_noise : noiseDone st = Some true;
  ready_encrypt : encryptDone st = false;
  ready_size : (32 ≤ incomingOnionSize st)%nat
}.

Section taking.
Context {coins : Type} `{NaCl} `{Onionbox} `{Signature} `{Shuffle} `{SpansLaws}.
Context (CoordinatorKey : bytes) (ctx : context) (p : loc) (st0 : roundState) (srv0 : Server)
        (service : string) (round : Z) (onions : list bytes) (k : bytes).
Context (Hready : ready st0).
Context (Hround : rounds srv0 !! (service, round) = Some p).
Context (Hjobs : decryptionJobs srv0 = []).
Context (Hprev : prev_key CoordinatorKey st0 = Some k) (Hauth : authenticated ctx k).
Context (Hu32 : is_u32 round) (Hfew : Z.of_nat (length onions) < 2 ^ 32).
Context (Hsizes : Forall (λ o, length o = incomingOnionSize st0) onions).

(** The round with [n] places for onions, holding [inc] and [keys]. *)
Definition holding (inc : list (option bytes)) (keys : list bytes) : roundState :=
  set_sharedKeys keys (set_incoming inc
    (set_numIncoming (Z.of_nat (length onions)) (set_acceptingOnions true st0))).

(** After the streams of [got]. *)
Definition loaded (got : list Span) (inc : list (option bytes)) (keys : list bytes) : Prop :=
  length inc = length onions ∧ length keys = length onions ∧
  ∀ s i o, s ∈ got → (Start s ≤ i < Start s + Count s)%nat → onions !! i = Some o →
    inc !! i = Some (opened st0 (ForwardNonce round) o) ∧ keys !! i = Some (shared_with st0 o).

Definition taking (got : list Span) (srv : Server) : Prop :=
  (got = [] ∧ srv = put_round p st0 srv0) ∨
  (∃ inc keys, srv = put_round p (holding inc keys) srv0 ∧ loaded got inc keys).

Lemma AddOnions_begin_run got srv :
  taking got srv → (0 < length onions)%nat →
  ∃ inc keys, AddOnions_begin CoordinatorKey ctx
      (Some (addOnions_metadata service round (length onions))) srv =
    (put_round p (holding inc keys) srv0, Ret (mkAddStream p round (Z.of_nat (length onions)))) ∧
    loaded got inc keys.
Proof.
  intros Ht Hn. unfold AddOnions_begin. rewrite go_bind_unfold, lift_run.
  rewrite parse_addOnions_metadata by (unfold is_u32 in *; done || lia). cbn beta iota zeta.
  cbn [md_round md_service md_numIncoming]. destruct Ht as [[-> ->]|(inc & keys & -> & Hl)].
  - rewrite go_bind_unfold, (getRound_run _ _ p) by exact Hround. run.
    rewrite (authPrev_eq _ _ _ k) by done. rewrite (auth_ok _ _ Hauth). run.
    rewrite (ready_mu _ Hready), (ready_num _ Hready). run. rewrite decide_True by done. run.
    cbn [bidirectional set_incoming set_numIncoming set_acceptingOnions].
    rewrite (ready_bidirectional _ Hready). run.
    do 2 eexists. split; [reflexivity|].
    rewrite Nat2Z.id. split; [len|]. split; [len|]. by intros s i o ?%elem_of_nil.
  - rewrite go_bind_unfold, (getRound_run _ _ p) by exact Hround. run.
    rewrite (authPrev_eq _ _ _ k) by exact Hprev. rewrite (auth_ok _ _ Hauth). run.
    change (mu (holding inc keys)) with (mu st0).
    rewrite (ready_mu _ Hready). run. change (numIncoming (holding inc keys)) with (Z.of_nat (length onions)).
    rewrite decide_False by lia. rewrite decide_False by auto. run.
    by exists inc, keys.
Qed.

Lemma loaded_span got inc keys s :
  loaded got inc keys → (Start s + Count s ≤ length onions)%nat →
  ∃ inc' keys', with_decrypted (ForwardNonce round) (Start s) (span_elems onions s) (holding inc keys) =
      holding inc' keys' ∧ loaded (s :: got) inc' keys'.
Proof.
  intros (Hi & Hk & Hl) Hs. set (n := incomingOnionSize st0).
  exists (store_from (opened st0 (ForwardNonce round)) n (Start s) (span_elems onions s) inc),
         (store_from (shared_with st0) n (Start s) (span_elems onions s) keys).
  split.
  { unfold with_decrypted. cbn [bidirectional holding set_sharedKeys set_incoming set_numIncoming
      set_acceptingOnions]. by rewrite (ready_bidirectional _ Hready). }
  split; [by rewrite length_store_from|]. split; [by rewrite length_store_from|].
  assert (Hpart : length (span_elems onions s) = Count s) by (unfold span_elems; len).
  assert (Hnew : ∀ i o, (Start s ≤ i < Start s + Count s)%nat → onions !! i = Some o →
    span_elems onions s !! (i - Start s)%nat = Some o ∧ length o = n).
  { intros i o Hin Ho. split; [|by eapply (Forall_lookup_1 _ _ _ _ Hsizes)].
    unfold span_elems. rewrite lookup_take_lt by lia. rewrite lookup_drop, <- Ho. f_equal. lia. }
  intros s' i o Hs' Hin Ho.
  destruct (decide (Start s ≤ i < Start s + Count s)%nat) as [Hc|Hc].
  - destruct (Hnew i o Hc Ho) as [Ho' Hsz]. replace i with (Start s + (i - Start s))%nat by lia.
    split; apply store_from_lookup; done || lia.
  - rewrite !store_from_other by (rewrite Hpart; lia).
    apply elem_of_cons in Hs' as [->|Hs']; [done|]. by eapply Hl.
Qed.

(** A stream is taken. *)
Lemma take_stream got s reqs srv :
  taking got srv → s ∈ addOnions_spans onions → (0 < length onions)%nat →
  stream_requests (Start s) (span_elems onions s) = Ret reqs →
  ∃ srv', (AddOnions CoordinatorKey ctx (Some (addOnions_metadata service round (length onions))) reqs;;
           drain) srv = (srv', Ret ()) ∧ taking (s :: got) srv'.
Proof.
  intros Ht Hs Hn Er. apply spans_bound in Hs.
  destruct (AddOnions_begin_run got srv Ht Hn) as (inc & keys & E1 & Hl).
  destruct (span_requests_bounds onions s reqs Hfew Hs Er) as (-> & Hguard & Hbounds).
  set (reqs' := _ <$> spans (Count s) 16) in *.
  set (stream := mkAddStream p round (Z.of_nat (length onions))).
  unfold AddOnions. rewrite !go_bind_unfold, E1. cbn beta iota.
  change p with (add_st stream) at 1. rewrite AddOnions_loop_run; [|apply Hready|done|done].
  cbn beta iota. unfold drain. rewrite go_bind_unfold. cbn [get].
  cbn [decryptionJobs put_round set_store set_decryptionJobs]. rewrite Hjobs. cbn [app].
  destruct Hl as (Hi & Hk & Hl).
  replace (decryptWg (holding inc keys) + length reqs')%nat with (length reqs')
    by (cbn [decryptWg holding set_sharedKeys set_incoming set_numIncoming set_acceptingOnions];
        by rewrite (ready_wg _ Hready)).
  rewrite drain_jobs_run; [| | len | by rewrite length_fmap|].
  - unfold reqs'. rewrite fold_span by done.
    destruct (loaded_span got inc keys s) as (inc' & keys' & E & Hl'); [done|done|].
    cbn [add_round stream]. rewrite E. eexists. split; [reflexivity|]. right. exists inc', keys'.
    split; [|done]. cbn [add_st stream]. f_equal.
    + unfold holding. cbn. rewrite <- (ready_wg _ Hready). by destruct st0.
    + rewrite <- Hjobs. by destruct srv0.
  - split; [apply Hready|]. intros _. cbn. by rewrite Hi, Hk.
  - cbn [incoming holding set_sharedKeys set_incoming]. by rewrite Hi.
Qed.

(** All streams taken: the round holds what the onions opened to. *)
Lemma taken_all got srv :
  taking got srv → (∀ s, s ∈ addOnions_spans onions → s ∈ got) →
  ∃ st, srv = put_round p st srv0 ∧
    incoming st = opened st0 (ForwardNonce round) <$> onions ∧
    (length onions ≠ 0%nat → sharedKeys st = shared_with st0 <$> onions) ∧
    mu st = false ∧ closed st = false ∧ decryptWg st = 0%nat ∧ noiseDone st = Some true ∧
    bidirectional st = true ∧ encryptDone st = false ∧ chain st = chain st0 ∧ myPos st = myPos st0 ∧
    noise st = noise st0 ∧ settings st = settings st0.
Proof.
  intros [[-> ->]|(inc & keys & -> & Hi & Hk & Hl)] Hall.
  - exists st0. split; [done|].
    assert (Hz : onions = []).
    { destruct onions as [|o os] eqn:E; [done|]. exfalso.
      assert (Hin : 0%nat ∈ mjoin (span_indices <$> addOnions_spans (o :: os))).
      { unfold addOnions_spans. rewrite spans_cover by apply spanSize_pos. apply elem_of_seq. cbn. lia. }
      apply list_elem_of_join in Hin as (idx & _ & (s & _ & Hs)%list_elem_of_fmap).
      apply Hall in Hs. by apply elem_of_nil in Hs. }
    rewrite Hz. destruct Hready. by repeat split.
  - exists (holding inc keys). split; [done|].
    assert (Hcov : ∀ i o, onions !! i = Some o →
      inc !! i = Some (opened st0 (ForwardNonce round) o) ∧ keys !! i = Some (shared_with st0 o)).
    { intros i o Ho. pose proof (lookup_lt_Some _ _ _ Ho) as Hlt.
      assert (Hin : i ∈ mjoin (span_indices <$> addOnions_spans onions)).
      { unfold addOnions_spans. rewrite spans_cover by apply spanSize_pos. apply elem_of_seq. lia. }
      apply list_elem_of_join in Hin as (idx & Hi' & (s & -> & Hs)%list_elem_of_fmap).
      unfold span_indices in Hi'. apply elem_of_seq in Hi'. apply (Hl s); [by apply Hall|lia|done]. }
    split; [|split; [|destruct Hready; by repeat split]].
    + apply list_eq_lookup_len; [len|]. intros i x y Hx Hy. rewrite list_lookup_fmap in Hy.
      destruct (onions !! i) as [o|] eqn:Eo; [|done]. injection Hy as <-.
      destruct (Hcov i o Eo) as [Ho _]. cbn in Hx. congruence.
    + intros _. apply list_eq_lookup_len; [len|]. intros i x y Hx Hy. rewrite list_lookup_fmap in Hy.
      destruct (onions !! i) as [o|] eqn:Eo; [|done]. injection Hy as <-.
      destruct (Hcov i o Eo) as [_ Ho]. cbn in Hx. congruence.
Qed.

End taking.

(** ** ... and serves its replies *)

Section serving.
Context {coins : Type} `{NaClLaws} `{!Onionbox} `{!Signature} `{!Shuffle} `{SpansLaws}.
Context (SigningKey CoordinatorKey : bytes) (Services : gmap string (MixService coins)).
Context (ctx : context) (next : nextCalls) (c : coins) (shuffle_coins private : bytes)
        (freshKeys : nat → bytes) (schedule : nat → list (nat * nat)).
Context (p : loc) (st0 : roundState) (srv0 : Server) (service : string) (round : Z)
        (onions : list bytes) (k : bytes) (svc : MixService coins).
Context (Hready : ready st0).
Context (Hround : rounds srv0 !! (service, round) = Some p).
Context (Hjobs : decryptionJobs srv0 = []) (Hejobs : encryptJobs srv0 = []).
Context (Hprev : prev_key CoordinatorKey st0 = Some k) (Hauth : authenticated ctx k).
Context (Hu32 : is_u32 round) (Hfew : Z.of_nat (length onions) < 2 ^ 32).
Context (Hsizes : Forall (λ o, length o = incomingOnionSize st0) onions).
Context (Hschedule : ∀ n, valid_schedule n (schedule n)).
Context (Hsvc : Services !! service = Some svc).

Definition opened_all : list (option bytes) := opened st0 (ForwardNonce round) <$> onions.

(** The bytes of a reply before this server seals it. *)
Definition reply_size : nat :=
  ((length (chain st0) - myPos st0 - 1) * box_Overhead + SizeReplyMessage svc)%nat.

Context (index : list Z) (valid rs : list bytes).
Context (Hlong : long_enough opened_all).
Context (Hfilter : filter_loop opened_all [] [] ∅ = Ret (index, valid)).
Context (Hrs : length rs = length valid) (Hsize : (0 < reply_size)%nat).

(** The state the replies are computed from. *)
Definition sealing : roundState :=
  set_incomingIndex index (set_sharedKeys (shared_with st0 <$> onions) st0).

Definition served : list bytes :=
  reply_to sealing reply_size round rs freshKeys <$> seq 0 (length onions).

(** What the rest of the chain does with the batch: the mix ends with the replies [rs]. *)
Context (Hmix : ∀ st, chain st = chain st0 → myPos st = myPos st0 → noise st = noise st0 →
  settings st = settings st0 → bidirectional st = true → noiseDone st = Some true →
  incoming st = Some <$> valid → ∃ r,
  CloseRound_mix Services next c shuffle_coins p (pb.mkCloseRoundRequest service round) (put_round p st srv0) =
    (add_encrypt_job (mkEncryptJob p service round rs) (put_round p (mixed st) srv0), Ret r)).

#[local] Instance server_remote : MixRemote Server :=
  remote SigningKey CoordinatorKey Services ctx next c shuffle_coins private freshKeys schedule.

Definition serves (srv : Server) : Prop :=
  ∃ st, srv = put_round p st srv0 ∧ replies st = served ∧ encryptDone st = true ∧
    bidirectional st = true ∧ prev_key CoordinatorKey st = Some k.

Lemma filtered_index_length : length index = length onions.
Proof.
  destruct (filter_loop_all _ Hlong) as (index' & valid' & seen & E & F).
  rewrite Hfilter in E. injection E as <- <-. rewrite (filtered_length _ _ _ _ F).
  unfold opened_all. len.
Qed.

Lemma close_batch got srv :
  taking p st0 srv0 round onions got srv → (∀ s, s ∈ addOnions_spans onions → s ∈ got) →
  ∃ srv' r, (r ← CloseRound CoordinatorKey Services next c shuffle_coins ctx
                   (pb.mkCloseRoundRequest service round);
             run_encryption Services freshKeys schedule;; mret r) srv = (srv', Ret r) ∧ serves srv'.
Proof.
  intros Ht Hall. pose proof filtered_index_length as Hil.
  destruct (taken_all p st0 srv0 round onions Hready Hfew Hsizes got srv Ht Hall)
    as (st & -> & Hinc & Hkeys & Hmu & Hclosed & Hwg & Hnd & Hbi & Henc & Hchain & Hpos & Hnoise & Hset).
  assert (Hprev' : prev_key CoordinatorKey st = Some k) by (unfold prev_key in *; by rewrite Hpos, Hchain).
  rewrite go_bind_unfold.
  rewrite (CloseRound_run CoordinatorKey Services next c shuffle_coins ctx
             (pb.mkCloseRoundRequest service round) p st k index valid); try done;
    [|unfold opened_all in Hfilter; by rewrite Hinc].
  destruct (Hmix (closing index valid st)) as [r ->]; [done..|]. cbn beta iota.
  set (job := mkEncryptJob p service round rs). set (stm := mixed (closing index valid st)).
  assert (Hkeep : length onions ≠ 0%nat → sharedKeys stm = shared_with st0 <$> onions) by apply Hkeys.
  assert (Hsh : (length (incomingIndex stm) ≤ length (sharedKeys stm))%nat).
  { change (incomingIndex stm) with index. rewrite Hil.
    destruct (decide (length onions = 0)%nat) as [->|Hn]; [lia|]. rewrite Hkeep by done. len. }
  assert (Henc' : encrypting stm rs).
  { split; [done|]. intros i v Hv. rewrite Hrs.
    destruct (filter_loop_all _ Hlong) as (index' & valid' & seen & E & F).
    rewrite Hfilter in E. injection E as <- <-. by eapply filtered_index_range. }
  unfold run_encryption. rewrite !go_bind_unfold. cbn [get].
  cbn [encryptJobs add_encrypt_job set_encryptJobs put_round set_store]. rewrite Hejobs. cbn [app].
  rewrite go_bind_unfold, modify_run.
  change (set_encryptJobs [] _) with (put_round p stm (set_encryptJobs [] srv0)).
  rewrite go_bind_unfold. change (encrypt_st job) with p. rewrite deref_put. cbn beta iota.
  change (incomingIndex stm) with index. rewrite Hil.
  pose proof (run_encrypt_job_ok Services freshKeys (schedule (length onions)) job stm svc
    (set_encryptJobs [] srv0)) as E. cbv zeta in E.
  change (encrypt_st job) with p in E. change (chain stm) with (chain st) in E.
  change (myPos stm) with (myPos st) in E. rewrite Hchain, Hpos in E. fold reply_size in E.
  rewrite E; [|done|done|done| |done|].
  - cbn beta iota. eexists _, r. split; [reflexivity|]. eexists.
    split; [by f_equal; rewrite <- Hejobs; destruct srv0|].
    split; [|split; [done|split; [exact Hbi|exact Hprev']]].
    cbn [replies set_encryptDone set_replies]. change (incomingIndex stm) with index. rewrite Hil.
    unfold served. apply list_fmap_ext. intros i x Hi%lookup_seq.
    unfold reply_to. change (encrypt_round job) with round.
    assert (Hn : length onions ≠ 0%nat) by lia. by rewrite (Hkeep Hn).
  - cbn [replies stm mixed set_mu set_replies]. by rewrite length_replicate.
  - change (incomingIndex stm) with index. rewrite Hil. apply Hschedule.
Qed.

(** The mixer honours the client's contract. *)
Definition mixer_batch_server (server : PublicServerConfig) :
  BatchServer server service round onions served (put_round p st0 srv0).
Proof using All.
  refine (mkBatchServer Server _ _ server service round onions served (put_round p st0 srv0)
            (taking p st0 srv0 round onions) serves _ _ _ _ _ _).
  - unfold served. len.
  - by left.
  - intros got s reqs srv Ht Hs Hn Er.
    by apply (take_stream CoordinatorKey ctx p st0 srv0 service round onions k
                Hready Hround Hjobs Hprev Hauth Hu32 Hfew Hsizes got s reqs srv).
  - intros got srv Ht Hall. by apply (close_batch got).
  - intros offset count srv (st & -> & Hreps & Hd & Hbi & Hk) Hle.
    exists (put_round p st srv0). split; [|by exists st]. cbn [call_GetOnions server_remote remote].
    assert (Hlen : length (replies st) = length onions) by (rewrite Hreps; unfold served; len).
    rewrite (GetOnions_run CoordinatorKey ctx _ p st k); [|done..].
    cbn [pb.GetOnions_Offset pb.GetOnions_Count]. rewrite Hlen.
    rewrite !u32_id by (unfold is_u32; lia). rewrite decide_False by lia.
    rewrite <- Nat2Z.inj_add, !Nat2Z.id. rewrite slice_is_Some by lia.
    rewrite Nat.add_comm, Nat.add_sub, Hreps. unfold range_responses.
    assert (Hcount : length (take count (drop offset served)) = count) by (unfold served; len).
    rewrite Hcount. do 2 f_equal. apply list_fmap_ext. intros i s Hi%list_elem_of_lookup_2%spans_bound.
    rewrite (u32_id (Z.of_nat (Start s))), u32_id by (unfold is_u32; lia). f_equal. lia.
  - intros srv (st & -> & Hreps & Hd & Hbi & Hk).
    do 2 eexists. unfold catch. cbn [call_DeleteRound server_remote remote]. unfold DeleteRound.
    rewrite go_bind_unfold, (getRound_run _ _ p) by exact Hround. run.
    rewrite (authPrev_eq _ _ _ k) by done. rewrite (auth_ok _ _ Hauth). run. reflexivity.
Defined.

(** A batch through client and server. *)
Lemma mixer_round_trip server add_order get_order deleted :
  add_order ≡ₚ addOnions_spans onions → get_order ≡ₚ addOnions_spans onions →
  (RunRoundBidirectional add_order get_order deleted server service round onions
     (put_round p st0 srv0)).2 = Ret served.
Proof using All.
  intros Ha Hg. by apply (RunRoundBidirectional_run _ _ _ _ _ _ (mixer_batch_server server) Hfew).
Qed.

End serving.
