(* ===== verification/MixInterleave.v ===== *)
(** * The goroutines of a mixer while it takes a batch (mixnet/mixnet.go)

    The streams of [AddOnions] run in goroutines of the RPC server, the jobs they make go
    through a channel to the decryption workers, and [CloseRound] waits for the workers.
    [MixServe] runs all this in one order. Here every goroutine is a thread whose parts
    (the critical sections of [st.mu], one onion of a worker) interleave in any order:
    [sys_step]. The theorems say that no interleaving fails or gets stuck, that all of
    them end, and that they all leave the state that the one order leaves.

    The channel has as many places as there are workers. A stream that waits for a place
    holds [st.mu]; here it holds nothing while it waits, which allows more interleavings. *)

From Stdlib Require Import ZArith Lia Wellfounded.
From stdpp Require Import base numbers strings gmap fin_maps relations list.
From S2P Require Import Prelude GoStd Json External Concurrency Pb Settings Mixnet MixOnions MixClient MixServe.

(** ** The parts of a decryption worker *)

Section parts.
Context {coins : Type} `{NaCl}.

(** [for job := range in] *)
Definition worker_take : handler decryptionJob :=
  srv ← get;
  match decryptionJobs srv with
  | [] => block
  | job :: jobs => modify (set_decryptionJobs jobs);; mret job
  end.

(** One turn of the loop over the onions. *)
Definition worker_onion (theirPublic : bytes) (job : decryptionJob) (i : nat) : handler bytes :=
  st ← deref (job_st job);
  onion ← lift (or_panic (pb.AddOnions_Onions (job_req job) !! i));
  '(theirPublic, st) ←
    lift (decrypt_onion (ForwardNonce (job_round job)) theirPublic
            (Z.to_nat (pb.AddOnions_Offset (job_req job)) + i) onion st);
  update (job_st job) (λ _, st);;
  mret theirPublic.

(** [st.decryptWg.Done()] *)
Definition worker_done (job : decryptionJob) : handler unit :=
  st ← deref (job_st job);
  update (job_st job) (set_decryptWg (decryptWg st - 1)%nat).

End parts.

(** ** The system *)

Inductive worker :=
| Idle (theirPublic : bytes)
| Busy (theirPublic : bytes) (job : decryptionJob) (i : nat).

Record system := mkSystem {
  sys_srv : Server;
  sys_waiting : list (list pb.AddOnionsRequest);              (* streams not begun *)
  sys_open : list (addStream * list pb.AddOnionsRequest);     (* streams in their loop *)
  sys_workers : list worker;
  sys_closing : bool                                          (* [CloseRound] waits *)
}.

Section steps.
Context {coins : Type} `{NaCl} `{Onionbox} `{Signature} `{Shuffle}.
Context (CoordinatorKey : bytes) (ctx : context) (service : string) (round : Z) (n : nat).

Definition begin_stream : handler addStream :=
  AddOnions_begin CoordinatorKey ctx (Some (addOnions_metadata service round n)).

Definition begin_close : handler (loc * option pb.CloseRoundResponse) :=
  CloseRound_begin CoordinatorKey ctx (pb.mkCloseRoundRequest service round).

(** The caller closes the round when all its streams have ended. *)
Inductive sys_step : system → system → Prop :=
| step_begin srv srv' pre reqs post stream opened ws :
    begin_stream srv = (srv', Ret stream) →
    sys_step (mkSystem srv (pre ++ reqs :: post) opened ws false)
             (mkSystem srv' (pre ++ post) (opened ++ [(stream, reqs)]) ws false)
| step_recv srv srv' waiting pre stream req reqs post ws :
    (length (decryptionJobs srv) < length ws)%nat →
    AddOnions_recv stream req srv = (srv', Ret ()) →
    sys_step (mkSystem srv waiting (pre ++ (stream, req :: reqs) :: post) ws false)
             (mkSystem srv' waiting (pre ++ (stream, reqs) :: post) ws false)
| step_end srv waiting pre stream post ws :
    sys_step (mkSystem srv waiting (pre ++ (stream, []) :: post) ws false)
             (mkSystem srv waiting (pre ++ post) ws false)
| step_take srv srv' waiting opened pre theirPublic post job closing :
    worker_take srv = (srv', Ret job) →
    sys_step (mkSystem srv waiting opened (pre ++ Idle theirPublic :: post) closing)
             (mkSystem srv' waiting opened (pre ++ Busy theirPublic job 0 :: post) closing)
| step_onion srv srv' waiting opened pre theirPublic job i post theirPublic' closing :
    (i < length (pb.AddOnions_Onions (job_req job)))%nat →
    worker_onion theirPublic job i srv = (srv', Ret theirPublic') →
    sys_step (mkSystem srv waiting opened (pre ++ Busy theirPublic job i :: post) closing)
             (mkSystem srv' waiting opened (pre ++ Busy theirPublic' job (S i) :: post) closing)
| step_done srv srv' waiting opened pre theirPublic job post closing :
    worker_done job srv = (srv', Ret ()) →
    sys_step (mkSystem srv waiting opened
                (pre ++ Busy theirPublic job (length (pb.AddOnions_Onions (job_req job))) :: post) closing)
             (mkSystem srv' waiting opened (pre ++ Idle theirPublic :: post) closing)
| step_close srv srv' ws p :
    begin_close srv = (srv', Ret (p, None)) →
    sys_step (mkSystem srv [] [] ws false) (mkSystem srv' [] [] ws true).

(** A thread whose next part, when its turn comes, does not return: an error for the caller,
    a panic, or a lock that is never free. *)
Inductive sys_fails : system → Prop :=
| fail_begin s reqs :
    reqs ∈ sys_waiting s → ¬ is_ret (begin_stream (sys_srv s)).2 → sys_fails s
| fail_recv s stream req reqs :
    (stream, req :: reqs) ∈ sys_open s → ¬ is_ret (AddOnions_recv stream req (sys_srv s)).2 → sys_fails s
| fail_onion s theirPublic job i :
    Busy theirPublic job i ∈ sys_workers s → (i < length (pb.AddOnions_Onions (job_req job)))%nat →
    ¬ is_ret (worker_onion theirPublic job i (sys_srv s)).2 → sys_fails s
| fail_done s theirPublic job :
    Busy theirPublic job (length (pb.AddOnions_Onions (job_req job))) ∈ sys_workers s →
    ¬ is_ret (worker_done job (sys_srv s)).2 → sys_fails s
| fail_close s :
    sys_waiting s = [] → sys_open s = [] → sys_closing s = false →
    ¬ is_ret (begin_close (sys_srv s)).2 → sys_fails s.

(** Every thread has ended, apart from [CloseRound]. *)
Definition sys_final (s : system) : Prop :=
  sys_waiting s = [] ∧ sys_open s = [] ∧ sys_closing s = true ∧ decryptionJobs (sys_srv s) = [] ∧
  Forall (λ w, match w with Idle _ => True | Busy _ _ _ => False end) (sys_workers s).

End steps.

(** ** Every execution ends

    Every step takes away from the work that is left: a request costs its onions and a
    step each for the stream, the channel and the worker's last. *)

Definition request_work (req : pb.AddOnionsRequest) : nat := (length (pb.AddOnions_Onions req) + 3)%nat.

Definition sum_of {A} (f : A → nat) (l : list A) : nat := sum_list (f <$> l).

Arguments sum_of : simpl never.

Lemma sum_of_app {A} (f : A → nat) l1 l2 : sum_of f (l1 ++ l2) = (sum_of f l1 + sum_of f l2)%nat.
Proof. unfold sum_of. by rewrite fmap_app, sum_list_with_app. Qed.

Lemma sum_of_cons {A} (f : A → nat) x l : sum_of f (x :: l) = (f x + sum_of f l)%nat.
Proof. done. Qed.

Lemma sum_of_nil {A} (f : A → nat) : sum_of f [] = 0%nat.
Proof. done. Qed.

Lemma sum_of_middle {A} (f : A → nat) pre w post :
  sum_of f (pre ++ w :: post) = (f w + sum_of f (pre ++ post))%nat.
Proof. rewrite !sum_of_app, sum_of_cons. lia. Qed.

Lemma Forall_middle {A} (P : A → Prop) pre x post :
  Forall P (pre ++ x :: post) ↔ P x ∧ Forall P (pre ++ post).
Proof. rewrite !Forall_app, Forall_cons. tauto. Qed.

Definition worker_work (w : worker) : nat :=
  match w with
  | Idle _ => 0
  | Busy _ job i => length (pb.AddOnions_Onions (job_req job)) - i + 1
  end%nat.

Definition work (s : system) : nat :=
  (sum_of (λ reqs, 2 + sum_of request_work reqs) (sys_waiting s) +
   sum_of (λ x, 1 + sum_of request_work x.2) (sys_open s) +
   sum_of (λ job, length (pb.AddOnions_Onions (job_req job)) + 2) (decryptionJobs (sys_srv s)) +
   sum_of worker_work (sys_workers s) + (if sys_closing s then 0 else 1))%nat.

(** Compares the work before and after a step. *)
Ltac less_work :=
  rewrite ?sum_of_app, ?sum_of_cons, ?sum_of_nil; unfold request_work; cbn [length worker_work snd job_req];
  rewrite ?sum_of_app, ?sum_of_cons, ?sum_of_nil; lia.

Definition busy (w : worker) : nat := match w with Idle _ => 0 | Busy _ _ _ => 1 end%nat.

Lemma elem_middle {A} (x a : A) pre post : x ∈ pre ++ a :: post ↔ x = a ∨ x ∈ pre ++ post.
Proof. rewrite !elem_of_app, elem_of_cons. tauto. Qed.

(** The requests no worker has taken yet, and a piece of the batch on its way: the onions of
    a request from [k] on. *)
Definition untaken (s : system) : list pb.AddOnionsRequest :=
  mjoin (sys_waiting s) ++ mjoin (snd <$> sys_open s) ++ (job_req <$> decryptionJobs (sys_srv s)).

Definition worker_piece (w : worker) : list (pb.AddOnionsRequest * nat) :=
  match w with Idle _ => [] | Busy _ job i => [(job_req job, i)] end.

Definition piece (s : system) (req : pb.AddOnionsRequest) (k : nat) : Prop :=
  (k = 0%nat ∧ req ∈ untaken s) ∨ (req, k) ∈ mjoin (worker_piece <$> sys_workers s).

Lemma join_middle {A} (pre post : list (list A)) l :
  mjoin (pre ++ l :: post) = mjoin pre ++ l ++ mjoin post.
Proof. by rewrite join_app. Qed.

Ltac pieces :=
  unfold piece, untaken;
  cbn [sys_srv sys_waiting sys_open sys_workers decryptionJobs put_round set_store set_decryptionJobs];
  rewrite ?fmap_app, ?fmap_cons, ?join_middle, ?join_app; cbn [fmap list_fmap snd worker_piece mjoin list_join app];
  repeat rewrite ?elem_of_app, ?elem_of_cons, ?elem_of_nil; cbn [job_req]; naive_solver.

Definition covers (req : pb.AddOnionsRequest) (k i : nat) : Prop :=
  (Z.to_nat (pb.AddOnions_Offset req) + k ≤ i <
   Z.to_nat (pb.AddOnions_Offset req) + length (pb.AddOnions_Onions req))%nat.

(** ** The invariant *)

Section invariant.
Context {coins : Type} `{NaCl} `{Onionbox} `{Signature} `{Shuffle} `{SpansLaws}.
Context (CoordinatorKey : bytes) (ctx : context) (p : loc) (st0 : roundState) (srv0 : Server)
        (service : string) (round : Z) (onions : list bytes) (key : bytes).
Context (Hready : ready st0).
Context (Hround : rounds srv0 !! (service, round) = Some p).
Context (Hjobs : decryptionJobs srv0 = []).
Context (Hprev : prev_key CoordinatorKey st0 = Some key) (Hauth : authenticated ctx key).
Context (Hu32 : is_u32 round) (Hfew : Z.of_nat (length onions) < 2 ^ 32).
Context (Hsizes : Forall (λ o, length o = incomingOnionSize st0) onions).
Context (Hsome : (0 < length onions)%nat).

(** A request that carries a part of the batch, at its place. *)
Definition req_ok (req : pb.AddOnionsRequest) : Prop :=
  0 <= pb.AddOnions_Offset req ∧
  pb.AddOnions_Offset req + Z.of_nat (length (pb.AddOnions_Onions req)) <= Z.of_nat (length onions) ∧
  ∀ j o, pb.AddOnions_Onions req !! j = Some o →
    onions !! (Z.to_nat (pb.AddOnions_Offset req) + j)%nat = Some o.

Definition the_stream : addStream := mkAddStream p round (Z.of_nat (length onions)).

Definition job_ok (job : decryptionJob) : Prop := job_st job = p ∧ job_round job = round.

Definition worker_ok (w : worker) : Prop :=
  match w with
  | Idle theirPublic => length theirPublic = 32%nat
  | Busy theirPublic job i =>
      length theirPublic = 32%nat ∧ job_ok job ∧ (i ≤ length (pb.AddOnions_Onions (job_req job)))%nat
  end.

(** The round while the batch comes in: [w] jobs are outstanding. *)
Definition running (w : nat) (accepting : bool) (inc : list (option bytes)) (keys : list bytes)
    : roundState :=
  set_decryptWg w (set_acceptingOnions accepting (holding st0 onions inc keys)).

(** Onion [i] is decrypted, or a piece that holds it is on its way. *)
Definition progressing (s : system) (inc : list (option bytes)) (keys : list bytes) : Prop :=
  ∀ i o, onions !! i = Some o →
    (inc !! i = Some (opened st0 (ForwardNonce round) o) ∧ keys !! i = Some (shared_with st0 o)) ∨
    ∃ req k, piece s req k ∧ covers req k i.

Definition outstanding (s : system) : nat :=
  (length (decryptionJobs (sys_srv s)) + sum_of busy (sys_workers s))%nat.

Definition round_ok (s : system) (st : roundState) : Prop :=
  (st = st0 ∧ sys_open s = [] ∧ outstanding s = 0%nat ∧ sys_closing s = false ∧
   ∀ inc keys, progressing s inc keys) ∨
  (∃ inc keys, st = running (outstanding s) (negb (sys_closing s)) inc keys ∧
     length inc = length onions ∧ length keys = length onions ∧ progressing s inc keys).

Record sys_ok (s : system) : Prop := {
  ok_srv : ∃ st, sys_srv s =
    put_round p st (set_decryptionJobs (decryptionJobs (sys_srv s)) srv0) ∧ round_ok s st;
  ok_closing : sys_closing s = true → sys_waiting s = [] ∧ sys_open s = [];
  ok_streams : Forall (λ x, x.1 = the_stream) (sys_open s);
  ok_jobs : Forall job_ok (decryptionJobs (sys_srv s));
  ok_workers : Forall worker_ok (sys_workers s);
  ok_pieces : ∀ req k, piece s req k → req_ok req
}.

(** *** The parts of the threads on such a state *)

Lemma begin_first srv1 :
  rounds srv1 !! (service, round) = Some p →
  ∃ inc keys, begin_stream CoordinatorKey ctx service round (length onions) (put_round p st0 srv1) =
      (put_round p (running 0 true inc keys) srv1, Ret the_stream) ∧
    length inc = length onions ∧ length keys = length onions.
Proof.
  intros Hr.
  destruct (AddOnions_begin_run CoordinatorKey ctx p st0 srv1 service round onions key Hready Hr Hprev
              Hauth Hu32 Hfew [] (put_round p st0 srv1)) as (inc & keys & E & Hi & Hk & _); [by left|done|].
  exists inc, keys. split; [|done]. unfold begin_stream. rewrite E. f_equal. f_equal.
  unfold running, holding. cbn. rewrite <- (ready_wg _ Hready). by destruct st0.
Qed.

Lemma begin_again w inc keys srv1 :
  rounds srv1 !! (service, round) = Some p →
  begin_stream CoordinatorKey ctx service round (length onions) (put_round p (running w true inc keys) srv1) =
    (put_round p (running w true inc keys) srv1, Ret the_stream).
Proof.
  intros Hr. unfold begin_stream, AddOnions_begin. rewrite go_bind_unfold, lift_run.
  rewrite parse_addOnions_metadata by (unfold is_u32 in *; done || lia). cbn beta iota zeta.
  cbn [md_round md_service md_numIncoming].
  rewrite go_bind_unfold, (getRound_run _ _ p) by exact Hr. run.
  rewrite (authPrev_eq _ _ _ key) by exact Hprev. rewrite (auth_ok _ _ Hauth). run.
  change (mu (running w true inc keys)) with (mu st0). rewrite (ready_mu _ Hready). run.
  change (numIncoming (running w true inc keys)) with (Z.of_nat (length onions)).
  rewrite decide_False by lia. rewrite decide_False by auto. by run.
Qed.

Lemma recv_run w inc keys req jobs :
  req_ok req →
  AddOnions_recv the_stream req (put_round p (running w true inc keys) (set_decryptionJobs jobs srv0)) =
    (put_round p (running (S w) true inc keys)
       (set_decryptionJobs (jobs ++ [mkDecryptionJob p round req]) srv0), Ret ()).
Proof.
  intros (Ho & Hb & _). change p with (add_st the_stream) at 1. rewrite AddOnions_recv_run.
  rewrite decide_False.
  - change (mu (running w true inc keys)) with (mu st0). by rewrite (ready_mu _ Hready).
  - unfold guard_sum. cbn. rewrite (u32_id (Z.of_nat _)), u32_id by (unfold is_u32; lia). lia.
Qed.

Lemma close_run w inc keys srv1 :
  rounds srv1 !! (service, round) = Some p →
  begin_close CoordinatorKey ctx service round (put_round p (running w true inc keys) srv1) =
    (put_round p (running w false inc keys) srv1, Ret (p, None)).
Proof.
  intros Hr. unfold begin_close.
  rewrite (CloseRound_begin_run CoordinatorKey ctx _ p _ key) by (done || apply Hready).
  change (closed (running w true inc keys)) with (closed st0). by rewrite (ready_closed _ Hready).
Qed.

Lemma done_run w acc inc keys job srv1 :
  job_ok job →
  worker_done job (put_round p (running w acc inc keys) srv1) =
    (put_round p (running (w - 1) acc inc keys) srv1, Ret ()).
Proof. intros [Hp _]. unfold worker_done. rewrite Hp. by run. Qed.

(** What the worker stores for an onion of the batch. *)
Lemma onion_run w acc inc keys theirPublic job i srv1 :
  job_ok job → req_ok (job_req job) → length theirPublic = 32%nat →
  length inc = length onions → length keys = length onions →
  (i < length (pb.AddOnions_Onions (job_req job)))%nat →
  let at_ := (Z.to_nat (pb.AddOnions_Offset (job_req job)) + i)%nat in
  ∃ o theirPublic', onions !! at_ = Some o ∧ length theirPublic' = 32%nat ∧
    worker_onion theirPublic job i (put_round p (running w acc inc keys) srv1) =
      (put_round p (running w acc (<[at_ := opened st0 (ForwardNonce round) o]> inc)
                                  (<[at_ := shared_with st0 o]> keys)) srv1, Ret theirPublic').
Proof.
  intros [Hp Hr] (Ho & Hb & Hplace) Ht Hi Hk Hlt at_.
  destruct (lookup_lt_is_Some_1 _ _ Hlt) as [o Eo]. pose proof (Hplace _ _ Eo) as Eo'.
  assert (Hsize : length o = incomingOnionSize st0) by (by eapply (Forall_lookup_1 _ _ _ _ Hsizes)).
  assert (Ha : allocated (running w acc inc keys)).
  { split; [apply Hready|]. intros _. cbn. congruence. }
  destruct (decrypt_onion_ok (ForwardNonce round) theirPublic at_ o (running w acc inc keys) Ha)
    as (tp & Htp & E); [cbn; unfold at_; lia|done|].
  exists o, tp. split; [done|]. split; [done|]. unfold worker_onion. rewrite Hp, Hr. run.
  rewrite Eo. run. fold at_. rewrite E. run. do 2 f_equal.
  unfold with_decrypted. cbn [store_from].
  change (bidirectional (running w acc inc keys)) with (bidirectional st0).
  change (incomingOnionSize (running w acc inc keys)) with (incomingOnionSize st0).
  rewrite (ready_bidirectional _ Hready), !decide_True by done.
  unfold opened, shared_with. change (bidirectional (running w acc inc keys)) with (bidirectional st0).
  by rewrite (ready_bidirectional _ Hready).
Qed.

(** *** Every step keeps the invariant and uses up work *)

(** The server with the jobs of the channel written out. *)
Definition server_with (st : roundState) (jobs : list decryptionJob) : Server :=
  put_round p st (set_decryptionJobs jobs srv0).

(** A system whose round runs. *)
Definition running_system jobs waiting opened ws closing inc keys : system :=
  mkSystem (server_with (running (length jobs + sum_of busy ws) (negb closing) inc keys) jobs)
    waiting opened ws closing.

Record runs jobs waiting opened ws closing inc keys : Prop := {
  runs_inc : length inc = length onions;
  runs_keys : length keys = length onions;
  runs_progress : progressing (running_system jobs waiting opened ws closing inc keys) inc keys;
  runs_closing : closing = true → waiting = [] ∧ opened = [];
  runs_streams : Forall (λ x : addStream * list pb.AddOnionsRequest, x.1 = the_stream) opened;
  runs_jobs : Forall job_ok jobs;
  runs_workers : Forall worker_ok ws;
  runs_pieces req k : piece (running_system jobs waiting opened ws closing inc keys) req k → req_ok req
}.

Lemma runs_ok jobs waiting opened ws closing inc keys :
  runs jobs waiting opened ws closing inc keys →
  sys_ok (running_system jobs waiting opened ws closing inc keys).
Proof.
  intros [Hi Hk Hp Hc Hs Hj Hw Hpc]. constructor; try done.
  eexists. split; [reflexivity|]. right. by exists inc, keys.
Qed.

Lemma ok_runs srv waiting opened ws closing :
  sys_ok (mkSystem srv waiting opened ws closing) →
  opened ≠ [] ∨ (length (decryptionJobs srv) + sum_of busy ws)%nat ≠ 0%nat ∨ closing = true →
  ∃ jobs inc keys, srv = sys_srv (running_system jobs waiting opened ws closing inc keys) ∧
    runs jobs waiting opened ws closing inc keys.
Proof.
  intros [(st & E & Hst) Hc Hs Hj Hw Hpc] Hb. cbn in *.
  destruct Hst as [(_ & Ho & Hout & Hcl & _)|(inc & keys & -> & Hi & Hk & Hp)].
  - exfalso. unfold outstanding in Hout. cbn in *. rewrite Hcl in Hb. naive_solver.
  - exists (decryptionJobs srv), inc, keys. split; [exact E|]. unfold outstanding in *. cbn in *.
    set (jobs := decryptionJobs srv) in *. clearbody jobs. subst srv. by constructor.
Qed.

Lemma progressing_mono s s' inc keys :
  (∀ req k, piece s req k → piece s' req k) → progressing s inc keys → progressing s' inc keys.
Proof.
  intros Hsub Hp i o Ho. destruct (Hp i o Ho) as [Hdone|(req & k & Hpc & Hc)]; [by left|right].
  exists req, k. auto.
Qed.

(** A system with the same pieces. *)
Lemma runs_same jobs waiting opened ws closing jobs' waiting' opened' ws' closing' inc keys :
  runs jobs waiting opened ws closing inc keys →
  (∀ req k, piece (running_system jobs' waiting' opened' ws' closing' inc keys) req k ↔
            piece (running_system jobs waiting opened ws closing inc keys) req k) →
  (closing' = true → waiting' = [] ∧ opened' = []) →
  Forall (λ x : addStream * list pb.AddOnionsRequest, x.1 = the_stream) opened' →
  Forall job_ok jobs' → Forall worker_ok ws' →
  runs jobs' waiting' opened' ws' closing' inc keys.
Proof.
  intros [Hi Hk Hp _ _ _ _ Hpc] Hiff Hc Hs Hj Hw. constructor; try done.
  - eapply progressing_mono; [|exact Hp]. intros req k. apply Hiff.
  - intros req k Hpiece%Hiff. eauto.
Qed.

Abbreviation step := (sys_step CoordinatorKey ctx service round (length onions)).
Abbreviation stream_begins := (begin_stream CoordinatorKey ctx service round (length onions)).

Lemma ok_begin srv pre reqs post opened ws closing :
  sys_ok (mkSystem srv (pre ++ reqs :: post) opened ws closing) →
  closing = false ∧ ∃ jobs inc keys,
    stream_begins srv =
      (sys_srv (running_system jobs (pre ++ post) (opened ++ [(the_stream, reqs)]) ws false inc keys),
       Ret the_stream) ∧
    decryptionJobs srv = jobs ∧
    runs jobs (pre ++ post) (opened ++ [(the_stream, reqs)]) ws false inc keys.
Proof.
  intros [(st & E & Hst) Hc Hs Hj Hw Hpc]. cbn in *.
  assert (closing = false) as -> by (destruct closing; [destruct Hc as [? _]; [done|by destruct pre]|done]).
  split; [done|]. unfold round_ok, outstanding in Hst. cbn in Hst.
  set (jobs := decryptionJobs srv) in *. clearbody jobs. exists jobs.
  assert (Hrun : ∃ inc keys, stream_begins srv =
      (server_with (running (length jobs + sum_of busy ws) true inc keys) jobs, Ret the_stream) ∧
      length inc = length onions ∧ length keys = length onions ∧
      progressing (mkSystem srv (pre ++ reqs :: post) opened ws false) inc keys).
  { subst srv. destruct Hst as [(-> & _ & Hout & _ & Hp)|(inc & keys & -> & Hi & Hk & Hp)].
    - destruct (begin_first (set_decryptionJobs jobs srv0) Hround) as (inc & keys & Eb & Hi & Hk).
      exists inc, keys. split; [|auto]. rewrite Hout. exact Eb.
    - exists inc, keys. split; [|auto]. by apply begin_again. }
  destruct Hrun as (inc & keys & Eb & Hi & Hk & Hp). exists inc, keys.
  split; [exact Eb|]. split; [done|].
  assert (Hpieces : ∀ req k,
    piece (running_system jobs (pre ++ post) (opened ++ [(the_stream, reqs)]) ws false inc keys) req k ↔
    piece (mkSystem srv (pre ++ reqs :: post) opened ws false) req k).
  { intros req k. rewrite E. unfold running_system, server_with. pieces. }
  constructor; try done.
  - eapply progressing_mono; [|exact Hp]. intros req k. apply Hpieces.
  - apply Forall_app_2; [done|]. by constructor.
  - intros req k Hpiece%Hpieces. eauto.
Qed.

Lemma ok_recv srv waiting pre stream req reqs post ws :
  sys_ok (mkSystem srv waiting (pre ++ (stream, req :: reqs) :: post) ws false) →
  ∃ jobs inc keys, decryptionJobs srv = jobs ∧
    AddOnions_recv stream req srv =
      (sys_srv (running_system (jobs ++ [mkDecryptionJob p round req]) waiting
                  (pre ++ (stream, reqs) :: post) ws false inc keys), Ret ()) ∧
    runs (jobs ++ [mkDecryptionJob p round req]) waiting (pre ++ (stream, reqs) :: post) ws false inc keys.
Proof.
  intros Hok. apply ok_runs in Hok as (jobs & inc & keys & -> & Hr); [|left; by destruct pre].
  pose proof Hr as [_ _ _ _ Hs Hj Hw Hpc]. apply Forall_middle in Hs as [Hstream Hs]. cbn in Hstream. subst stream.
  exists jobs, inc, keys. split; [done|]. split.
  - cbn [sys_srv running_system negb]. unfold server_with. rewrite recv_run.
    + do 3 f_equal. len.
    + apply (Hpc req 0%nat). unfold running_system, server_with. pieces.
  - eapply runs_same; [exact Hr| |done|by apply Forall_middle| |done].
    + intros req0 k. unfold running_system, server_with. pieces.
    + apply Forall_app_2; [done|]. by constructor.
Qed.

Lemma ok_end srv waiting pre stream post ws :
  sys_ok (mkSystem srv waiting (pre ++ (stream, []) :: post) ws false) →
  sys_ok (mkSystem srv waiting (pre ++ post) ws false).
Proof.
  intros Hok. apply ok_runs in Hok as (jobs & inc & keys & -> & Hr); [|left; by destruct pre].
  pose proof Hr as [_ _ _ _ Hs Hj Hw Hpc]. apply Forall_middle in Hs as [_ Hs].
  apply (runs_ok jobs waiting (pre ++ post) ws false inc keys). eapply runs_same; [exact Hr| |done..].
  intros req k. unfold running_system, server_with. pieces.
Qed.

Lemma ok_take srv srv' waiting opened pre theirPublic post job closing :
  sys_ok (mkSystem srv waiting opened (pre ++ Idle theirPublic :: post) closing) →
  worker_take srv = (srv', Ret job) →
  decryptionJobs srv = job :: decryptionJobs srv' ∧
  sys_ok (mkSystem srv' waiting opened (pre ++ Busy theirPublic job 0 :: post) closing).
Proof.
  intros Hok Ht.
  assert (Htake : decryptionJobs srv = job :: decryptionJobs srv' ∧ srv' = set_decryptionJobs (decryptionJobs srv') srv).
  { unfold worker_take in Ht. rewrite go_bind_unfold in Ht. cbn [get] in Ht.
    destruct (decryptionJobs srv) as [|job' jobs] eqn:Ej; [done|].
    injection Ht as <- <-. done. }
  destruct Htake as [Ej Esrv]. split; [done|].
  apply ok_runs in Hok as (jobs0 & inc & keys & -> & Hr); [|right; left; rewrite Ej; cbn; lia].
  pose proof Hr as [_ _ _ Hc Hs Hj Hw Hpc]. apply Forall_middle in Hw as [Ht32 Hw].
  set (jobs := decryptionJobs srv') in *. clearbody jobs. cbn in Ej, Esrv. subst jobs0 srv'.
  apply Forall_cons in Hj as [Hj0 Hj].
  assert (Hr' : runs jobs waiting opened (pre ++ Busy theirPublic job 0 :: post) closing inc keys).
  { eapply runs_same; [exact Hr| |done|done|done|].
    - intros req k. unfold running_system, server_with. pieces.
    - apply Forall_middle. split; [|done]. split; [done|]. split; [done|lia]. }
  apply runs_ok in Hr'. unfold running_system, server_with in Hr'. rewrite sum_of_middle in Hr'.
  cbn [busy] in Hr'. unfold server_with. cbn [length]. rewrite sum_of_middle. cbn [busy].
  replace (S (length jobs) + (0 + sum_of busy (pre ++ post)))%nat
    with (length jobs + (1 + sum_of busy (pre ++ post)))%nat by lia. exact Hr'.
Qed.

(** A worker stores an onion and goes on to the next. *)
Lemma progressing_onion jobs waiting live pre tp tp' job i post closing inc keys o :
  let at_ := (Z.to_nat (pb.AddOnions_Offset (job_req job)) + i)%nat in
  let inc' := <[at_ := opened st0 (ForwardNonce round) o]> inc in
  let keys' := <[at_ := shared_with st0 o]> keys in
  length inc = length onions → length keys = length onions → onions !! at_ = Some o →
  progressing (running_system jobs waiting live (pre ++ Busy tp job i :: post) closing inc keys) inc keys →
  progressing (running_system jobs waiting live (pre ++ Busy tp' job (S i) :: post) closing inc' keys')
    inc' keys'.
Proof.
  intros at_ inc' keys' Hi Hk Ho Hp i0 o0 Ho0. pose proof (lookup_lt_Some _ _ _ Ho) as Hlt.
  destruct (decide (i0 = at_)) as [->|Hne].
  { left. rewrite Ho in Ho0. injection Ho0 as <-. unfold inc', keys'.
    by rewrite !list_lookup_insert_eq by lia. }
  unfold inc', keys'. rewrite !list_lookup_insert_ne by done.
  destruct (Hp i0 o0 Ho0) as [Hdone|(req & k & Hpc & Hc)]; [by left|right].
  assert (Hcase : (req = job_req job ∧ k = i) ∨
    piece (running_system jobs waiting live (pre ++ Busy tp' job (S i) :: post) closing inc' keys') req k).
  { revert Hpc. unfold running_system, server_with. pieces. }
  destruct Hcase as [[-> ->]|Hpc']; [|by exists req, k].
  exists (job_req job), (S i). split.
  - unfold running_system, server_with. pieces.
  - unfold covers, at_ in *. lia.
Qed.

Lemma ok_onion srv waiting opened pre theirPublic job i post closing :
  sys_ok (mkSystem srv waiting opened (pre ++ Busy theirPublic job i :: post) closing) →
  (i < length (pb.AddOnions_Onions (job_req job)))%nat →
  ∃ srv' theirPublic', worker_onion theirPublic job i srv = (srv', Ret theirPublic') ∧
    decryptionJobs srv' = decryptionJobs srv ∧
    sys_ok (mkSystem srv' waiting opened (pre ++ Busy theirPublic' job (S i) :: post) closing).
Proof.
  intros Hok Hlt.
  apply ok_runs in Hok as (jobs & inc & keys & -> & Hr); [|right; left; rewrite sum_of_middle; cbn; lia].
  destruct Hr as [Hi Hk Hp Hc Hs Hj Hw Hpc]. apply Forall_middle in Hw as [(Ht & Hjob & _) Hw].
  assert (Hreq : req_ok (job_req job)).
  { apply (Hpc _ i). unfold running_system, server_with. pieces. }
  cbn [sys_srv running_system]. unfold server_with.
  edestruct onion_run as (o & tp & Eo & Htp & E); [exact Hjob|exact Hreq|exact Ht|exact Hi|exact Hk|exact Hlt|].
  do 2 eexists. split; [exact E|]. split; [done|].
  assert (Hbusy : sum_of busy (pre ++ Busy theirPublic job i :: post) =
                  sum_of busy (pre ++ Busy tp job (S i) :: post)) by (by rewrite !sum_of_middle).
  rewrite Hbusy. apply runs_ok. constructor; [by len..| |done|done|done| |].
  - by eapply progressing_onion.
  - apply Forall_middle. split; [|done]. split; [done|]. split; [done|lia].
  - intros req k Hpiece.
    assert (Hcase : req = job_req job ∨
      piece (running_system jobs waiting opened (pre ++ Busy theirPublic job i :: post) closing inc keys) req k).
    { revert Hpiece. unfold running_system, server_with. pieces. }
    destruct Hcase as [->|Hpiece']; [done|by eapply Hpc].
Qed.

Lemma ok_done srv waiting opened pre theirPublic job post closing :
  let i := length (pb.AddOnions_Onions (job_req job)) in
  sys_ok (mkSystem srv waiting opened (pre ++ Busy theirPublic job i :: post) closing) →
  ∃ srv', worker_done job srv = (srv', Ret ()) ∧ decryptionJobs srv' = decryptionJobs srv ∧
    sys_ok (mkSystem srv' waiting opened (pre ++ Idle theirPublic :: post) closing).
Proof.
  intros i Hok.
  apply ok_runs in Hok as (jobs & inc & keys & -> & Hr); [|right; left; rewrite sum_of_middle; cbn; lia].
  destruct Hr as [Hi Hk Hp Hc Hs Hj Hw Hpc]. apply Forall_middle in Hw as [(Ht & Hjob & _) Hw].
  cbn [sys_srv running_system]. unfold server_with. eexists. split; [by apply done_run|]. split; [done|].
  assert (Hbusy : (length jobs + sum_of busy (pre ++ Busy theirPublic job i :: post) - 1)%nat =
                  (length jobs + sum_of busy (pre ++ Idle theirPublic :: post))%nat)
    by (rewrite !sum_of_middle; cbn; lia).
  rewrite Hbusy. apply runs_ok. constructor; [done..| |done|done|done| |].
  - intros i0 o0 Ho0. destruct (Hp i0 o0 Ho0) as [Hdone|(req & k & Hpc' & Hcov)]; [by left|right].
    exists req, k. split; [|done].
    assert (Hcase : (req = job_req job ∧ k = i) ∨
      piece (running_system jobs waiting opened (pre ++ Idle theirPublic :: post) closing inc keys) req k).
    { revert Hpc'. unfold running_system, server_with. pieces. }
    destruct Hcase as [[-> ->]|]; [unfold covers, i in Hcov; lia|done].
  - apply Forall_middle. split; [exact Ht|done].
  - intros req k Hpiece. apply (Hpc req k). revert Hpiece. unfold running_system, server_with. pieces.
Qed.

Lemma no_piece st ws closing :
  sum_of busy ws = 0%nat → ∀ req k, ¬ piece (mkSystem (server_with st []) [] [] ws closing) req k.
Proof.
  intros Hb req k [[_ Hin]|Hin]; [by apply elem_of_nil in Hin|].
  cbn [sys_workers] in Hin. induction ws as [|[tp|tp job i] ws IH]; [by apply elem_of_nil in Hin|by apply IH|done].
Qed.

(** When all streams have ended they have begun, so the round runs. *)
Lemma all_begun srv ws :
  sys_ok (mkSystem srv [] [] ws false) →
  ∃ jobs inc keys, srv = sys_srv (running_system jobs [] [] ws false inc keys) ∧
    runs jobs [] [] ws false inc keys.
Proof.
  intros Hok. pose proof Hok as [(st & E & Hst) _ _ _ _ _]. cbn in E.
  destruct (decide ((length (decryptionJobs srv) + sum_of busy ws)%nat = 0%nat)) as [Hz|Hz];
    [|apply ok_runs; auto].
  destruct Hst as [(-> & _ & _ & _ & Hp)|(inc & keys & -> & Hi & Hk & Hp)].
  - exfalso. destruct (lookup_lt_is_Some_1 onions 0) as [o Ho]; [done|].
    destruct (Hp [] [] 0%nat o Ho) as [[? _]|(req & k & Hpc & _)]; [done|].
    destruct (decryptionJobs srv) as [|job jobs] eqn:Ej; [|cbn in Hz; lia]. rewrite E in Hpc.
    eapply no_piece; [|exact Hpc]. cbn in Hz. lia.
  - destruct Hok as [_ Hc Hs Hj Hw Hpc]. unfold outstanding in *. cbn in *.
    exists (decryptionJobs srv), inc, keys. split; [exact E|].
    set (jobs := decryptionJobs srv) in *. clearbody jobs. subst srv. by constructor.
Qed.

Lemma ok_close srv ws :
  sys_ok (mkSystem srv [] [] ws false) →
  ∃ srv', begin_close CoordinatorKey ctx service round srv = (srv', Ret (p, None)) ∧
    decryptionJobs srv' = decryptionJobs srv ∧ sys_ok (mkSystem srv' [] [] ws true).
Proof.
  intros Hok. apply all_begun in Hok as (jobs & inc & keys & -> & Hr).
  pose proof Hr as [_ _ _ _ Hs Hj Hw _]. cbn [sys_srv running_system]. unfold server_with.
  eexists. split; [by apply close_run|]. split; [done|].
  apply (runs_ok jobs [] [] ws true inc keys). eapply runs_same; [exact Hr| |done..].
  intros req k. unfold running_system, server_with. pieces.
Qed.

(** Every step keeps the invariant and uses up work. *)
Lemma step_ok s s' : step s s' → sys_ok s → sys_ok s' ∧ (work s' < work s)%nat.
Proof.
  destruct 1 as [srv srv' pre reqs post stream live ws Hrun|srv srv' waiting pre stream req reqs post ws _ Hrun|
    srv waiting pre stream post ws|srv srv' waiting live pre tp post job closing Hrun|
    srv srv' waiting live pre tp job i post tp' closing Hlt Hrun|
    srv srv' waiting live pre tp job post closing Hrun|srv srv' ws q Hrun]; intros Hok; unfold work;
    cbn [sys_waiting sys_open sys_srv sys_workers sys_closing].
  - destruct (ok_begin _ _ _ _ _ _ _ Hok) as (_ & jobs & inc & keys & E & Ej & Hr).
    rewrite Hrun in E. injection E as -> ->. split; [exact (runs_ok _ _ _ _ _ _ _ Hr)|]. rewrite Ej. cbn [sys_srv running_system].
    change (decryptionJobs (server_with _ jobs)) with jobs. less_work.
  - destruct (ok_recv _ _ _ _ _ _ _ _ Hok) as (jobs & inc & keys & Ej & E & Hr).
    rewrite Hrun in E. injection E as ->. split; [exact (runs_ok _ _ _ _ _ _ _ Hr)|]. rewrite Ej. cbn [sys_srv running_system].
    change (decryptionJobs (server_with _ (jobs ++ ?l))) with (jobs ++ l). less_work.
  - split; [by eapply ok_end|]. less_work.
  - destruct (ok_take _ _ _ _ _ _ _ _ _ Hok Hrun) as [Ej Hok']. split; [done|].
    rewrite Ej. less_work.
  - destruct (ok_onion _ _ _ _ _ _ _ _ _ Hok Hlt) as (srv1 & tp1 & E & Ej & Hok').
    rewrite Hrun in E. injection E as <- <-. split; [done|]. rewrite Ej. less_work.
  - destruct (ok_done _ _ _ _ _ _ _ _ Hok) as (srv1 & E & Ej & Hok').
    rewrite Hrun in E. injection E as <-. split; [done|]. rewrite Ej. less_work.
  - destruct (ok_close _ _ Hok) as (srv1 & E & Ej & Hok').
    rewrite Hrun in E. injection E as <- <-. split; [done|]. rewrite Ej. lia.
Qed.

(** *** No thread fails, and some thread can go on *)

Lemma split_elem {A} (x : A) l : x ∈ l → ∃ pre post, l = pre ++ x :: post.
Proof. intros (pre & post & ->)%list_elem_of_split. eauto. Qed.

Lemma ok_no_failure s : sys_ok s → ¬ sys_fails CoordinatorKey ctx service round (length onions) s.
Proof.
  intros Hok Hf. destruct Hf as [[srv waiting live ws closing] reqs Hin Hn|
    [srv waiting live ws closing] stream req reqs Hin Hn|[srv waiting live ws closing] tp job i Hin Hlt Hn|
    [srv waiting live ws closing] tp job Hin Hn|[srv waiting live ws closing] Hw Ho Hc Hn]; cbn in *; apply Hn.
  - apply split_elem in Hin as (pre & post & ->).
    by destruct (ok_begin _ _ _ _ _ _ _ Hok) as (_ & jobs & inc & keys & -> & _).
  - assert (closing = false) as ->.
    { destruct closing; [|done]. destruct (ok_closing _ Hok eq_refl) as [_ E]. cbn in E. subst. by apply elem_of_nil in Hin. }
    apply split_elem in Hin as (pre & post & ->).
    by destruct (ok_recv _ _ _ _ _ _ _ _ Hok) as (jobs & inc & keys & _ & -> & _).
  - apply split_elem in Hin as (pre & post & ->).
    by destruct (ok_onion _ _ _ _ _ _ _ _ _ Hok Hlt) as (srv1 & tp1 & -> & _).
  - apply split_elem in Hin as (pre & post & ->).
    by destruct (ok_done _ _ _ _ _ _ _ _ Hok) as (srv1 & -> & _).
  - subst. by destruct (ok_close _ _ Hok) as (srv1 & -> & _).
Qed.

Lemma busy_worker ws : sum_of busy ws ≠ 0%nat → ∃ tp job i, Busy tp job i ∈ ws.
Proof.
  induction ws as [|[tp|tp job i] ws IH]; [done| |].
  - intros Hb. destruct IH as (tp' & job & i & Hin); [done|]. exists tp', job, i. by right.
  - intros _. exists tp, job, i. by left.
Qed.

(** A worker goes on while there are jobs. *)
Lemma worker_steps s :
  sys_ok s → sys_workers s ≠ [] → outstanding s ≠ 0%nat → ∃ s', step s s'.
Proof.
  destruct s as [srv waiting live ws closing]. unfold outstanding. cbn. intros Hok Hne Hout.
  destruct (decide (sum_of busy ws = 0%nat)) as [Hz|Hz].
  - destruct ws as [|[tp|tp job i] ws]; [done| |by rewrite sum_of_cons in Hz].
    destruct (decryptionJobs srv) as [|job jobs] eqn:Ej; [cbn in *; lia|].
    eexists. apply (step_take _ _ _ _ _ srv (set_decryptionJobs jobs srv) waiting live [] tp ws job).
    unfold worker_take. rewrite go_bind_unfold. cbn [get]. by rewrite Ej.
  - destruct (busy_worker ws Hz) as (tp & job & i & Hin). apply split_elem in Hin as (pre & post & ->).
    pose proof (ok_workers _ Hok) as Hw. cbn in Hw. apply Forall_middle in Hw as [(_ & _ & Hle) _].
    destruct (decide (i = length (pb.AddOnions_Onions (job_req job)))) as [->|Hne'].
    + destruct (ok_done _ _ _ _ _ _ _ _ Hok) as (srv' & E & _). eexists. by eapply step_done.
    + assert (Hlt : (i < length (pb.AddOnions_Onions (job_req job)))%nat) by lia.
      destruct (ok_onion _ _ _ _ _ _ _ _ _ Hok Hlt) as (srv' & tp' & E & _). eexists. by eapply step_onion.
Qed.

Lemma idle_workers ws :
  sum_of busy ws = 0%nat → Forall (λ w, match w with Idle _ => True | Busy _ _ _ => False end) ws.
Proof. induction ws as [|[tp|tp job i] ws IH]; [constructor|constructor; auto|done]. Qed.

Lemma ok_progress s : sys_ok s → sys_workers s ≠ [] → sys_final s ∨ ∃ s', step s s'.
Proof.
  intros Hok Hne. destruct (decide (outstanding s = 0%nat)) as [Hz|Hz]; [|right; by apply worker_steps].
  destruct s as [srv waiting live ws closing]. cbn in Hne.
  destruct waiting as [|reqs waiting].
  - destruct live as [|[stream [|req reqs]] live].
    + destruct closing.
      * left. unfold outstanding in Hz. cbn in Hz. unfold sys_final. cbn.
        destruct (decryptionJobs srv); [|cbn in Hz; lia]. split_and!; try done. by apply idle_workers.
      * right. destruct (ok_close _ _ Hok) as (srv' & E & _). eexists. by eapply step_close.
    + right. assert (closing = false) as ->.
      { destruct closing; [|done]. by destruct (ok_closing _ Hok eq_refl). }
      eexists. by apply (step_end _ _ _ _ _ srv [] [] stream live ws).
    + right. assert (closing = false) as ->.
      { destruct closing; [|done]. by destruct (ok_closing _ Hok eq_refl). }
      destruct (ok_recv srv [] [] stream req reqs live ws Hok) as (jobs & inc & keys & Ej & E & _).
      eexists. eapply (step_recv _ _ _ _ _ srv _ [] [] stream req reqs live ws); [|exact E].
      unfold outstanding in Hz. cbn in Hz. destruct ws; [done|]. cbn. lia.
  - right. destruct (ok_begin srv [] reqs waiting live ws closing Hok) as (-> & jobs & inc & keys & E & _).
    eexists. eapply (step_begin _ _ _ _ _ srv _ [] reqs waiting the_stream live ws). exact E.
Qed.

(** *** What the threads leave *)

(** The round that holds the whole batch and waits to be mixed. *)
Definition batch_taken : roundState :=
  running 0 false (opened st0 (ForwardNonce round) <$> onions) (shared_with st0 <$> onions).

(** When [CloseRound] stops waiting, the batch is complete. *)
Lemma ok_wait_over s st :
  sys_ok s → sys_closing s = true → store (sys_srv s) !! p = Some st → decryptWg st = 0%nat →
  sys_srv s = put_round p batch_taken srv0.
Proof.
  destruct s as [srv waiting live ws closing]. cbn. intros Hok -> Hst Hwg.
  destruct (ok_closing _ Hok eq_refl) as [Ew El]. cbn in Ew, El. subst waiting live.
  apply ok_runs in Hok as (jobs & inc & keys & -> & Hr); [|by right; right].
  destruct Hr as [Hi Hk Hp _ _ _ _ _]. cbn [sys_srv running_system] in Hst. unfold server_with in Hst.
  rewrite lookup_put_round in Hst. injection Hst as <-. cbn in Hwg.
  assert (jobs = []) as -> by (destruct jobs; [done|cbn in Hwg; lia]).
  assert (Hb : sum_of busy ws = 0%nat) by exact Hwg.
  assert (Hdone : ∀ i o, onions !! i = Some o →
    inc !! i = Some (opened st0 (ForwardNonce round) o) ∧ keys !! i = Some (shared_with st0 o)).
  { intros i o Ho. destruct (Hp i o Ho) as [|(req & k & Hpc & _)]; [done|].
    exfalso. by eapply no_piece; [|exact Hpc]. }
  cbn [sys_srv running_system length Nat.add negb]. unfold server_with, batch_taken. rewrite Hb.
  replace (set_decryptionJobs [] srv0) with srv0 by (rewrite <- Hjobs; by destruct srv0).
  do 2 f_equal; (apply list_eq_lookup_len; [len|]); intros i x y Hx Hy; rewrite list_lookup_fmap in Hy;
    (destruct (onions !! i) as [o|] eqn:Eo; [|done]); injection Hy as <-;
    destruct (Hdone i o Eo) as [H1' H2']; [cbn in Hx|cbn in Hx]; congruence.
Qed.

Lemma final_wait s : sys_ok s → sys_final s →
  ∃ st, store (sys_srv s) !! p = Some st ∧ decryptWg st = 0%nat.
Proof.
  intros Hok (_ & _ & Hc & Hj & Hi). destruct s as [srv waiting live ws closing]. cbn in *.
  apply ok_runs in Hok as (jobs & inc & keys & -> & _); [|by right; right].
  cbn in Hj. subst jobs. cbn [sys_srv running_system length Nat.add]. unfold server_with.
  rewrite lookup_put_round. eexists. split; [done|]. cbn.
  induction Hi as [|[tp|tp job i] ws Hw _ IH]; done.
Qed.

(** [CloseRound] goes on as if the streams had run one after the other. *)
Lemma close_resumes Services (next : nextCalls) (c : coins) (shuffle_coins : bytes) :
  let req := pb.mkCloseRoundRequest service round in
  (CloseRound_filter p;; CloseRound_mix Services next c shuffle_coins p req) (put_round p batch_taken srv0) =
  CloseRound CoordinatorKey Services next c shuffle_coins ctx req
    (put_round p (holding st0 onions (opened st0 (ForwardNonce round) <$> onions) (shared_with st0 <$> onions)) srv0).
Proof.
  intros req. unfold CloseRound at 1. rewrite (go_bind_unfold (CloseRound_begin _ _ _)).
  set (st := holding _ _ _ _).
  rewrite (CloseRound_begin_run CoordinatorKey ctx req p st key) by (done || apply Hready).
  change (closed st) with (closed st0). rewrite (ready_closed _ Hready). cbn beta iota.
  assert (Hst : batch_taken = set_acceptingOnions false st).
  { unfold batch_taken, st, running. rewrite <- (ready_wg _ Hready). by destruct st0. }
  by rewrite Hst.
Qed.

Lemma step_workers s s' : step s s' → length (sys_workers s') = length (sys_workers s).
Proof. destruct 1; cbn; rewrite ?length_app; done. Qed.

Lemma reachable_ok s s' : rtc step s s' → sys_ok s → sys_ok s' ∧ length (sys_workers s') = length (sys_workers s).
Proof.
  induction 1 as [|s1 s2 s3 Hs _ IH]; [done|]. intros Hok.
  destruct (step_ok _ _ Hs Hok) as [Hok2 _]. rewrite <- (step_workers _ _ Hs). auto.
Qed.

Lemma steps_end s : sys_ok s → Acc (flip step) s.
Proof.
  remember (work s) as n eqn:En. revert s En. induction n as [n IH] using lt_wf_ind. intros s -> Hok.
  constructor. intros s' Hs. destruct (step_ok _ _ Hs Hok) as [Hok' Hlt]. by eapply IH.
Qed.

(** The streams of a caller that sends the batch in parts, in any way. *)
Definition carries (streams : list (list pb.AddOnionsRequest)) : Prop :=
  (∀ reqs req, reqs ∈ streams → req ∈ reqs → req_ok req) ∧
  (∀ i, (i < length onions)%nat → ∃ reqs req, reqs ∈ streams ∧ req ∈ reqs ∧ covers req 0 i).

Definition idle (w : worker) : Prop := ∃ theirPublic, w = Idle theirPublic ∧ length theirPublic = 32%nat.

Definition start (streams : list (list pb.AddOnionsRequest)) (ws : list worker) : system :=
  mkSystem (put_round p st0 srv0) streams [] ws false.

Lemma idle_busy ws : Forall idle ws → sum_of busy ws = 0%nat ∧ mjoin (worker_piece <$> ws) = [].
Proof. induction 1 as [|w ws (tp & -> & _) _ IH]; done. Qed.

Lemma start_ok streams ws : carries streams → Forall idle ws → sys_ok (start streams ws).
Proof.
  intros [Hreq Hcov] Hidle. destruct (idle_busy ws Hidle) as [Hb Hp].
  constructor; cbn; rewrite ?Hjobs; try done.
  - exists st0. split; [f_equal; rewrite <- Hjobs; by destruct srv0|]. left.
    split_and!; [done|done|unfold outstanding; cbn; rewrite Hjobs, Hb; done|done|].
    intros inc keys i o Ho. right. destruct (Hcov i (lookup_lt_Some _ _ _ Ho)) as (reqs & req & H1' & H2' & Hc).
    exists req, 0%nat. split; [|done]. left. split; [done|]. unfold untaken. apply elem_of_app. left.
    apply list_elem_of_join. eauto.
  - eapply Forall_impl; [exact Hidle|]. intros w (tp & -> & Ht). exact Ht.
  - intros req k [[_ Hin]|Hin].
    + unfold untaken in Hin. cbn in Hin. rewrite Hjobs in Hin. cbn in Hin. rewrite app_nil_r in Hin.
      apply list_elem_of_join in Hin as (reqs & H1' & H2'). eauto.
    + cbn in Hin. rewrite Hp in Hin. by apply elem_of_nil in Hin.
Qed.

End invariant.

(** The worker of [MixOnions] is these parts without interruption. *)
Section whole_worker.
Context {coins : Type} `{NaCl}.

Fixpoint worker_loop (n : nat) (theirPublic : bytes) (job : decryptionJob) (i : nat) : handler bytes :=
  match n with
  | O => mret theirPublic
  | S n => theirPublic ← worker_onion theirPublic job i; worker_loop n theirPublic job (S i)
  end.

Lemma worker_loop_run n theirPublic job i st srv theirPublic' st' :
  (i + n)%nat = length (pb.AddOnions_Onions (job_req job)) →
  decrypt_onions (ForwardNonce (job_round job)) theirPublic (Z.to_nat (pb.AddOnions_Offset (job_req job)) + i)
    (drop i (pb.AddOnions_Onions (job_req job))) st = Ret (theirPublic', st') →
  worker_loop n theirPublic job i (put_round (job_st job) st srv) =
    (put_round (job_st job) st' srv, Ret theirPublic').
Proof.
  revert theirPublic i st. induction n as [|n IH]; intros theirPublic i st Hn E; cbn [worker_loop].
  - rewrite drop_ge in E by lia. by injection E as -> ->.
  - destruct (lookup_lt_is_Some_1 (pb.AddOnions_Onions (job_req job)) i) as [o Eo]; [lia|].
    rewrite (drop_S _ _ _ Eo) in E. cbn [decrypt_onions] in E.
    apply bind_Ret_inv in E as ([tp1 st1] & E1 & E2). rewrite <- Nat.add_succ_r in E2.
    rewrite go_bind_unfold. unfold worker_onion at 1. run. rewrite Eo. run. rewrite E1. run.
    by apply IH; [lia|].
Qed.

Lemma decryptionWorker_parts theirPublic job jobs st srv :
  allocated st → in_bounds job st → length theirPublic = 32%nat →
  decryptionJobs srv = job :: jobs →
  decryptionWorker theirPublic (put_round (job_st job) st srv) =
    (job ← worker_take;
     theirPublic ← worker_loop (length (pb.AddOnions_Onions (job_req job))) theirPublic job 0;
     worker_done job;; mret theirPublic) (put_round (job_st job) st srv).
Proof.
  intros Ha Hb Ht Hj.
  destruct (decrypt_onions_ok (ForwardNonce (job_round job)) theirPublic
              (Z.to_nat (pb.AddOnions_Offset (job_req job))) (pb.AddOnions_Onions (job_req job)) st Ha Hb Ht)
    as (tp & _ & E).
  unfold decryptionWorker, worker_take. rewrite !go_bind_unfold. cbn [get].
  change (decryptionJobs (put_round _ _ _)) with (decryptionJobs srv). rewrite Hj. run.
  change (set_decryptionJobs jobs (put_round (job_st job) st srv))
    with (put_round (job_st job) st (set_decryptionJobs jobs srv)).
  run. rewrite E. run.
  rewrite (worker_loop_run _ theirPublic job 0 st _ tp
    (with_decrypted (ForwardNonce (job_round job)) (Z.to_nat (pb.AddOnions_Offset (job_req job)))
       (pb.AddOnions_Onions (job_req job)) st)); [|done|by rewrite Nat.add_0_r].
  unfold worker_done. by run.
Qed.

End whole_worker.

(** ** The client's streams carry the batch *)

Section client.
Context `{SpansLaws}.

Definition span_requests (onions : list bytes) (s : Span) : list pb.AddOnionsRequest :=
  (λ s', pb.mkAddOnionsRequest (Z.of_nat (Start s + Start s')) (span_elems (span_elems onions s) s'))
    <$> spans (Count s) 16.

Definition client_streams (onions : list bytes) : list (list pb.AddOnionsRequest) :=
  span_requests onions <$> addOnions_spans onions.

(** These are the requests the client makes. *)
Lemma client_streams_requests onions s reqs :
  Z.of_nat (length onions) < 2 ^ 32 → s ∈ addOnions_spans onions →
  stream_requests (Start s) (span_elems onions s) = Ret reqs → reqs = span_requests onions s.
Proof.
  intros Hfew Hs%spans_bound E. by destruct (span_requests_bounds onions s reqs Hfew Hs E) as [-> _].
Qed.

Lemma lookup_span_elems {A} (xs : list A) s j x :
  span_elems xs s !! j = Some x → xs !! (Start s + j)%nat = Some x ∧ (j < Count s)%nat.
Proof. unfold span_elems. intros [E Hj]%lookup_take_Some. by rewrite lookup_drop in E. Qed.

Lemma length_span_elems {A} (xs : list A) s :
  (Start s + Count s ≤ length xs)%nat → length (span_elems xs s) = Count s.
Proof. intros. unfold span_elems. len. Qed.

Lemma in_span n k i : (0 < k)%nat → (i < n)%nat → ∃ s, s ∈ spans n k ∧ (Start s ≤ i < Start s + Count s)%nat.
Proof.
  intros Hk Hi. assert (Hin : i ∈ mjoin (span_indices <$> spans n k)) by (rewrite spans_cover by done; apply elem_of_seq; lia).
  apply list_elem_of_join in Hin as (idx & Hi' & (s & -> & Hs)%list_elem_of_fmap).
  apply elem_of_seq in Hi'. exists s. split; [done|lia].
Qed.

Lemma client_streams_carry onions : carries onions (client_streams onions).
Proof.
  split.
  - intros reqs req (s & -> & Hs%spans_bound)%list_elem_of_fmap (s' & -> & Hs'%spans_bound)%list_elem_of_fmap.
    unfold req_ok. cbn [pb.AddOnions_Offset pb.AddOnions_Onions].
    rewrite (length_span_elems (span_elems onions s)) by (by rewrite length_span_elems).
    split; [lia|]. split; [lia|]. intros j o [[Ho _]%lookup_span_elems _]%lookup_span_elems.
    rewrite Nat2Z.id, <- Ho. f_equal. lia.
  - intros i Hi. destruct (in_span (length onions) (spanSize (length onions)) i) as (s & Hs & Hsi);
      [apply spanSize_pos|done|].
    destruct (in_span (Count s) 16 (i - Start s)) as (s' & Hs' & Hsi'); [lia|lia|].
    pose proof (spans_bound _ _ _ Hs). pose proof (spans_bound _ _ _ Hs').
    eexists _, _. split; [by apply list_elem_of_fmap_2|]. split; [by apply list_elem_of_fmap_2|].
    unfold covers. cbn [pb.AddOnions_Offset pb.AddOnions_Onions].
    rewrite (length_span_elems (span_elems onions s)) by (by rewrite length_span_elems). lia.
Qed.

End client.

(** ** All interleavings agree *)

(** C4. A mixer takes a batch under every interleaving. Let the streams of the previous server
    carry a batch of onions in requests of any size, let there be any number of decryption
    workers, and let [CloseRound] come when the streams have ended. Then no interleaving of
    the streams, the workers and [CloseRound] runs for ever; in every state on the way no
    thread fails or waits for ever, and one of them can go on until all work is done; and
    whenever [CloseRound] may stop waiting, the server is in one and the same state: every
    onion is decrypted at its own place with its own key, and [CloseRound] does from there
    what it does when the streams run one after the other. *)
Theorem interleavings_agree {coins : Type} `{NaCl} `{Shuffle}
    CoordinatorKey ctx p st0 srv0 service round onions key streams ws :
  ready st0 → rounds srv0 !! (service, round) = Some p → decryptionJobs srv0 = [] →
  prev_key CoordinatorKey st0 = Some key → authenticated ctx key → is_u32 round →
  Z.of_nat (length onions) < 2 ^ 32 → Forall (λ o, length o = incomingOnionSize st0) onions →
  (0 < length onions)%nat → carries onions streams → Forall idle ws → ws ≠ [] →
  let step := sys_step CoordinatorKey ctx service round (length onions) in
  let s0 := start p st0 srv0 streams ws in
  let taken := put_round p (batch_taken st0 round onions) srv0 in
  Acc (flip step) s0 ∧
  ∀ s, rtc step s0 s →
    ¬ sys_fails CoordinatorKey ctx service round (length onions) s ∧
    (sys_final s ∨ ∃ s', step s s') ∧
    (sys_final s → sys_srv s = taken) ∧
    (∀ st, sys_closing s = true → store (sys_srv s) !! p = Some st → decryptWg st = 0%nat →
       sys_srv s = taken ∧
       ∀ (Services : gmap string (MixService coins)) next c shuffle_coins,
         let req := pb.mkCloseRoundRequest service round in
         (CloseRound_filter p;; CloseRound_mix Services next c shuffle_coins p req) (sys_srv s) =
         CloseRound CoordinatorKey Services next c shuffle_coins ctx req
           (put_round p (holding st0 onions (opened st0 (ForwardNonce round) <$> onions)
                           (shared_with st0 <$> onions)) srv0)).
Proof.
  intros Hready Hround Hjobs Hprev Hauth Hu32 Hfew Hsizes Hsome Hcarries Hidle Hne step s0 taken.
  assert (Hok0 : sys_ok p st0 srv0 round onions s0) by (by apply (start_ok p st0 srv0 service)).
  split; [by apply (steps_end CoordinatorKey ctx p st0 srv0 service round onions key)|]. intros s Hsteps.
  destruct (reachable_ok CoordinatorKey ctx p st0 srv0 service round onions key Hready Hround Hprev
              Hauth Hu32 Hfew Hsizes Hsome s0 s Hsteps Hok0) as [Hok Hlen].
  assert (Hne' : sys_workers s ≠ []) by (intros E; rewrite E in Hlen; by destruct ws).
  split; [by apply (ok_no_failure CoordinatorKey ctx p st0 srv0 service round onions key)|].
  split; [by apply (ok_progress CoordinatorKey ctx p st0 srv0 service round onions key)|].
  split.
  - intros Hf. destruct (final_wait p st0 srv0 round onions s Hok Hf) as (st & Hst & Hwg).
    apply (ok_wait_over p st0 srv0 service round onions Hround Hjobs Hsome s st Hok); [apply Hf|done..].
  - intros st Hc Hst Hwg.
    assert (E : sys_srv s = taken) by (by apply (ok_wait_over p st0 srv0 service round onions Hround Hjobs Hsome s st)).
    split; [done|]. intros Services next c shuffle_coins req. rewrite E.
    by apply (close_resumes CoordinatorKey ctx p st0 srv0 service round onions key).
Qed.
