(* ===== verification/MixChain.v ===== *)
(** * A round through the whole chain

    The mixers composed: the [mixClient] of a server runs the round on the next one, so
    that [CloseRound] of the first server mixes through the chain. A [hop] is a server
    with a round that is ready, together with everything its run draws; [run_chain] is
    what the coordinator's call of [RunRoundBidirectional] on the first server does.

    Main result: an onion that peels through the chain, and that no server takes for a
    duplicate, gets the reply that the dead-drop exchange of the last server gives its
    message, sealed once by every server, so that its sender can open it. *)

From Stdlib Require Import ZArith Lia.
From stdpp Require Import base numbers strings gmap fin_maps list.
From S2P Require Import Prelude GoStd External Concurrency Pb Settings Convo Mixnet MixOnions ConvoMix MixClient MixServe.

Record hop := mkHop {
  hop_signing : bytes;
  hop_ctx : context;                       (* the caller, and the key it must have *)
  hop_caller : bytes;
  hop_coins : convo_coins;
  hop_shuffle : bytes;
  hop_private : bytes;
  hop_fresh : nat → bytes;
  hop_schedule : nat → list (nat * nat);
  hop_ptr : loc;
  hop_state : roundState;
  hop_server : Server;
  hop_add : list bytes → list Span;        (* the order in which the streams complete *)
  hop_get : list bytes → list Span;
  hop_deleted : bool;
  hop_config : PublicServerConfig
}.

Section chain.
Context `{NaCl} `{Onionbox} `{Signature} `{Shuffle} `{Spans}.
Context (CoordinatorKey : bytes) (Services : gmap string (MixService convo_coins)).
Context (service : string) (round : Z).

(** A server whose next calls run the rest of the chain. *)
Fixpoint run_chain (hops : list hop) (onions : list bytes) : outcome mix_error (list bytes) :=
  match hops with
  | [] => Err (RoundNotFound round)
  | h :: rest =>
      let next := mkNextCalls (λ _ _ _ out, run_chain rest out) (λ _ _ _ _, Err (RoundNotFound round)) in
      (@RunRoundBidirectional Server
         (remote (hop_signing h) CoordinatorKey Services (hop_ctx h) next (hop_coins h) (hop_shuffle h)
                 (hop_private h) (hop_fresh h) (hop_schedule h)) _
         (hop_add h onions) (hop_get h onions) (hop_deleted h) (hop_config h) service round onions
         (put_round (hop_ptr h) (hop_state h) (hop_server h))).2
  end.

(** ** What a hop makes of a batch *)

Definition hop_opened (h : hop) (onions : list bytes) : list (option bytes) :=
  opened (hop_state h) (ForwardNonce round) <$> onions.

Definition hop_filtered (h : hop) (onions : list bytes) : list Z * list bytes :=
  match filter_loop (hop_opened h onions) [] [] ∅ with Ret r => r | _ => ([], []) end.

Definition hop_batch (h : hop) (onions : list bytes) : list bytes :=
  (hop_filtered h onions).2 ++ default [] (noise (hop_state h)).

(** What it sends on. *)
Definition hop_sent (h : hop) (onions : list bytes) : list bytes :=
  do_shuffle (shuffle_New (hop_shuffle h) (length (hop_batch h onions))) (hop_batch h onions).

(** The batch of the last server. *)
Fixpoint final_batch (hops : list hop) (onions : list bytes) : list bytes :=
  match hops with
  | [] => onions
  | [h] => hop_batch h onions
  | h :: rest => final_batch rest (hop_sent h onions)
  end.

(** ** A chain that can run *)

Definition onion_size (n i : nat) : nat := ((n - i) * onion_Overhead + sizeDeadDropMessage)%nat.

(** Server [i] of [n]. *)
Record hop_ok (n i : nat) (h : hop) : Prop := {
  hop_ready : ready (hop_state h);
  hop_rounds : rounds (hop_server h) !! (service, round) = Some (hop_ptr h);
  hop_jobs : decryptionJobs (hop_server h) = [] ∧ encryptJobs (hop_server h) = [];
  hop_prev : prev_key CoordinatorKey (hop_state h) = Some (hop_caller h);
  hop_auth : authenticated (hop_ctx h) (hop_caller h);
  hop_pos : myPos (hop_state h) = i;
  hop_chain : length (chain (hop_state h)) = n;
  hop_size : incomingOnionSize (hop_state h) = onion_size n i;
  hop_noise : Forall (λ o, length o = onion_size n (S i)) (default [] (noise (hop_state h)));
  hop_schedules k : valid_schedule k (hop_schedule h k);
  hop_orders onions : hop_add h onions ≡ₚ addOnions_spans onions ∧ hop_get h onions ≡ₚ addOnions_spans onions
}.

Definition few (onions : list bytes) : Prop := Z.of_nat (length onions) < 2 ^ 32.

(** The hops from position [i] on, for the batch they get. The last server makes no noise;
    its schedule covers the batch. *)
Fixpoint chain_ok (n i : nat) (hops : list hop) (onions : list bytes) : Prop :=
  match hops with
  | [] => False
  | [h] => hop_ok n i h ∧ S i = n ∧ few onions ∧ default [] (noise (hop_state h)) = [] ∧
           valid_schedule (length (hop_batch h onions)) (handle_schedule (hop_coins h))
  | h :: rest => hop_ok n i h ∧ (S i < n)%nat ∧ few onions ∧ chain_ok n (S i) rest (hop_sent h onions)
  end.

(** No server of the chain takes the onion at [i] for a duplicate. *)
Fixpoint kept (hops : list hop) (onions : list bytes) (i : nat) : Prop :=
  match hops with
  | [] => True
  | h :: rest =>
      first_of_key (hop_opened h onions) i ∧
      ∀ i' msg, hop_opened h onions !! i = Some (Some msg) → hop_sent h onions !! i' = Some msg →
        match rest with [] => True | _ => kept rest (hop_sent h onions) i' end
  end.

(** The private keys the onions of the round are peeled with. *)
Definition hop_sks (hops : list hop) : list bytes := (λ h, onionPrivateKey (hop_state h)) <$> hops.

End chain.

(** ** Sizes along the chain *)

Section chain_lemmas.
Context `{NaClLaws} `{!Onionbox} `{!OnionboxLaws} `{!Signature} `{ShuffleLaws} `{SpansLaws}.
Context (CoordinatorKey : bytes) (Services : gmap string (MixService convo_coins)).
Context (service : string) (round : Z) (cs : ConvoService).
Context (Hservice : Services !! service = Some (convo_service cs)) (Hround : is_u32 round).

Lemma onion_size_S n i : (i < n)%nat → onion_size n i = (32 + box_Overhead + onion_size n (S i))%nat.
Proof.
  intros Hi. unfold onion_size. replace (n - i)%nat with (S (n - S i)) by lia.
  rewrite Nat.mul_succ_l, onion_Overhead_eq. lia.
Qed.

Lemma onion_size_min n i : (sizeDeadDropMessage ≤ onion_size n i)%nat.
Proof. apply Nat.le_add_l. Qed.

Lemma sizeDeadDropMessage_min : (16 ≤ sizeDeadDropMessage)%nat.
Proof. unfold sizeDeadDropMessage. lia. Qed.

Section hop.
Context (n i : nat) (h : hop) (onions : list bytes).
Context (Hok : hop_ok CoordinatorKey service round n i h) (Hin : (i < n)%nat).
Context (Hsizes : Forall (λ o, length o = onion_size n i) onions).

Lemma opened_size o msg :
  o ∈ onions → opened (hop_state h) (ForwardNonce round) o = Some msg → length msg = onion_size n (S i).
Proof using All.
  intros Ho. unfold opened. rewrite (ready_bidirectional _ (hop_ready _ _ _ _ _ _ Hok)).
  intros E%length_Open. rewrite Forall_forall in Hsizes. specialize (Hsizes o Ho).
  rewrite length_drop, Hsizes, (onion_size_S n i) in E by done. lia.
Qed.

Lemma hop_long_enough : long_enough (hop_opened round h onions).
Proof using All.
  unfold long_enough, hop_opened. apply Forall_fmap, Forall_forall. intros o Ho. cbn.
  destruct (opened _ _ o) as [msg|] eqn:E; [|done]. rewrite (opened_size o msg Ho E).
  pose proof (onion_size_min n (S i)). pose proof sizeDeadDropMessage_min. lia.
Qed.

(** The messages the hop keeps, and where they come from. *)
Lemma hop_filtered_spec :
  ∃ index valid seen, hop_filtered round h onions = (index, valid) ∧
    filter_loop (hop_opened round h onions) [] [] ∅ = Ret (index, valid) ∧
    filtered (hop_opened round h onions) index valid seen ∧
    Forall (λ m, length m = onion_size n (S i)) valid.
Proof using All.
  destruct (filter_loop_all _ hop_long_enough) as (index & valid & seen & E & F).
  exists index, valid, seen. unfold hop_filtered. rewrite E. split; [done|]. split; [done|].
  split; [done|]. apply Forall_forall. intros x (v & Hv)%list_elem_of_lookup.
  destruct (filtered_origin _ _ _ _ F v) as (j & Ej & Hj); [by eapply lookup_lt_Some|].
  destruct (filtered_kept _ _ _ _ F j Hj) as (v' & msg & Ej' & Em & Ev).
  rewrite Ej in Ej'. injection Ej' as Hvv. assert (v' = v) as -> by lia. rewrite Hv in Ev. injection Ev as <-.
  unfold hop_opened in Em. rewrite list_lookup_fmap in Em.
  destruct (onions !! j) as [o|] eqn:Eo; [|done]. injection Em as Em.
  apply (opened_size o); [by eapply list_elem_of_lookup_2|done].
Qed.

Lemma hop_sent_sizes : Forall (λ m, length m = onion_size n (S i)) (hop_sent round h onions).
Proof using All.
  destruct hop_filtered_spec as (index & valid & seen & E & _ & _ & Hv).
  unfold hop_sent. rewrite shuffle_Permutation by (symmetry; apply shuffle_len_New).
  unfold hop_batch. rewrite E. apply Forall_app. split; [done|apply Hok].
Qed.

Lemma length_hop_sent : length (hop_sent round h onions) = length (hop_batch round h onions).
Proof. apply length_do_shuffle. Qed.

(** Peeling one layer. *)
Lemma peels_hop m o ks sks :
  peels (ForwardNonce round) (onionPrivateKey (hop_state h) :: sks) m o ks →
  ∃ o' ks', ks = shared_with (hop_state h) o :: ks' ∧ peels (ForwardNonce round) sks m o' ks' ∧
    opened (hop_state h) (ForwardNonce round) o = Some o'.
Proof using All.
  intros Hp. inversion Hp as [|sk sks' m' o'' o' eph ks' Heph Hrest Eo]; subst.
  exists o', ks'. unfold opened, shared_with.
  rewrite (ready_bidirectional _ (hop_ready _ _ _ _ _ _ Hok)).
  rewrite take_app_length', drop_app_length' by done. by rewrite Open_Seal.
Qed.

End hop.

(** The size of the replies a server at position [i] returns. *)
Definition reply_bytes (n i : nat) : nat := ((n - i) * box_Overhead + SizeEncryptedMessageBody)%nat.

Lemma served_sizes st (svc : MixService convo_coins) onions index rs freshKeys :
  Forall (λ r, length r = reply_size st svc + box_Overhead)%nat
    (served freshKeys st round onions svc index rs).
Proof.
  unfold served. apply Forall_fmap, Forall_true. intros j. cbn. unfold reply_to.
  case_decide as Hm; rewrite length_Seal; [lia|]. rewrite length_replicate. lia.
Qed.

(** A kept onion gets its message's reply, sealed. *)
Lemma served_kept st (svc : MixService convo_coins) onions index rs freshKeys j o v r :
  onions !! j = Some o → index !! j = Some (Z.of_nat v) → rs !! v = Some r → length r = reply_size st svc →
  served freshKeys st round onions svc index rs !! j =
    Some (SealAfterPrecomputation r (BackwardNonce round) (shared_with st o)).
Proof.
  intros Ho Hj Hr Hl. unfold served. rewrite list_lookup_fmap, lookup_seq_lt by (by eapply lookup_lt_Some).
  cbn. f_equal. unfold reply_to, reply_msg, sealing. cbn [incomingIndex set_incomingIndex].
  rewrite Hj, (decide_True (P := -1 < Z.of_nat v)), Nat2Z.id, Hr by lia. cbn [default]. rewrite decide_True by done.
  f_equal. cbn [sharedKeys set_incomingIndex set_sharedKeys].
  apply list_lookup_total_correct. by rewrite list_lookup_fmap, Ho.
Qed.

(** ** A hop, given what the rest of the chain returns *)

Section run_hop.
Context (n i : nat) (h : hop) (rest : list hop) (onions : list bytes).
Context (Hok : hop_ok CoordinatorKey service round n i h) (Hin : (i < n)%nat) (Hfew : few onions).
Context (Hsizes : Forall (λ o, length o = onion_size n i) onions).

(** The replies of the hop, from the replies [rs] to the messages it kept. *)
Definition hop_served (rs : list bytes) : list bytes :=
  served (hop_fresh h) (hop_state h) round onions (convo_service cs) (hop_filtered round h onions).1 rs.

Lemma hop_reply_size : reply_size (hop_state h) (convo_service cs) = reply_bytes n (S i).
Proof using Hok Hin.
  unfold reply_size, reply_bytes. rewrite (hop_chain _ _ _ _ _ _ Hok), (hop_pos _ _ _ _ _ _ Hok).
  do 2 f_equal. lia.
Qed.

Lemma run_hop rs :
  length rs = length (hop_filtered round h onions).2 →
  (∀ st, chain st = chain (hop_state h) → myPos st = myPos (hop_state h) →
     noise st = noise (hop_state h) → settings st = settings (hop_state h) →
     bidirectional st = true → noiseDone st = Some true →
     incoming st = Some <$> (hop_filtered round h onions).2 → ∃ r,
     CloseRound_mix Services
       (mkNextCalls (λ _ _ _ out, run_chain CoordinatorKey Services service round rest out)
                    (λ _ _ _ _, Err (RoundNotFound round)))
       (hop_coins h) (hop_shuffle h) (hop_ptr h)
       (pb.mkCloseRoundRequest service round) (put_round (hop_ptr h) st (hop_server h)) =
     (add_encrypt_job (mkEncryptJob (hop_ptr h) service round rs)
        (put_round (hop_ptr h) (mixed st) (hop_server h)), Ret r)) →
  run_chain CoordinatorKey Services service round (h :: rest) onions = Ret (hop_served rs).
Proof using All.
  intros Hrs Hmix.
  destruct (hop_filtered_spec n i h onions Hok Hin Hsizes) as (index & valid & seen & E & Ef & F & Hv).
  cbn [run_chain]. unfold hop_served. rewrite E in *. cbn [fst snd] in *.
  apply (mixer_round_trip (hop_signing h) CoordinatorKey Services (hop_ctx h) _ (hop_coins h)
           (hop_shuffle h) (hop_private h) (hop_fresh h) (hop_schedule h) (hop_ptr h) (hop_state h)
           (hop_server h) service round onions (hop_caller h) (convo_service cs))
    with (valid := valid); try apply Hok; try done.
  - eapply Forall_impl; [exact Hsizes|]. cbn. intros o ->. symmetry. apply Hok.
  - by apply (hop_long_enough n i h onions Hok Hin Hsizes).
  - rewrite hop_reply_size. unfold reply_bytes, SizeEncryptedMessageBody, SizeMessageBody. apply Nat.add_pos_r. lia.
Qed.

Lemma hop_served_sizes rs :
  Forall (λ r, length r = reply_bytes n i) (hop_served rs) ∧ length (hop_served rs) = length onions.
Proof using All.
  split; [|unfold hop_served, served; len].
  eapply Forall_impl; [apply served_sizes|]. intros r Hr. cbn in Hr. rewrite Hr, hop_reply_size.
  unfold reply_bytes. replace (n - i)%nat with (S (n - S i)) by lia. lia.
Qed.

(** What the hop serves for an onion that opens and is kept: it has a place in the batch,
    and gets the reply for that place, sealed. *)
Lemma hop_served_kept rs j o o' :
  length rs = length (hop_filtered round h onions).2 →
  Forall (λ r, length r = reply_bytes n (S i)) rs →
  onions !! j = Some o → opened (hop_state h) (ForwardNonce round) o = Some o' →
  first_of_key (hop_opened round h onions) j →
  ∃ v r, (hop_filtered round h onions).2 !! v = Some o' ∧ rs !! v = Some r ∧
    hop_served rs !! j = Some (SealAfterPrecomputation r (BackwardNonce round) (shared_with (hop_state h) o)).
Proof using All.
  intros Hrs Hlen Ho Hop Hfirst.
  destruct (hop_filtered_spec n i h onions Hok Hin Hsizes) as (index & valid & seen & E & Ef & F & Hv).
  unfold hop_served. rewrite E in *. cbn [fst snd] in *.
  destruct (filtered_kept _ _ _ _ F j Hfirst) as (v & msg & Ej & Em & Ev).
  assert (msg = o') as ->.
  { unfold hop_opened in Em. rewrite list_lookup_fmap, Ho in Em. cbn in Em. congruence. }
  destruct (lookup_lt_is_Some_1 rs v) as [r Er]; [rewrite Hrs; by eapply lookup_lt_Some|].
  exists v, r. split; [done|]. split; [done|]. apply (served_kept _ _ _ _ _ _ _ _ v); [done..|].
  rewrite hop_reply_size. by eapply (Forall_lookup_1 _ _ _ _ Hlen).
Qed.

End run_hop.

(** ** The chain *)

(** What the theorem says of one batch: it comes back with as many replies, all of one size,
    and the onions that arrive are answered by the exchange. *)
Definition answered (n i : nat) (hops : list hop) (onions replies : list bytes) : Prop :=
  length replies = length onions ∧ Forall (λ r, length r = reply_bytes n i) replies ∧
  ∀ j o m ks, onions !! j = Some o → peels (ForwardNonce round) (hop_sks hops) m o ks →
    kept round hops onions j →
    ∃ j', final_batch round hops onions !! j' = Some m ∧
      exchange (final_batch round hops onions) !! j' =
        Some (body (final_batch round hops onions !!! partner (final_batch round hops onions) j')) ∧
      replies !! j = Some (reply_onion (BackwardNonce round) ks
        (body (final_batch round hops onions !!! partner (final_batch round hops onions) j'))).

Lemma batch_out_valid h onions st :
  noise st = noise (hop_state h) → incoming st = Some <$> (hop_filtered round h onions).2 →
  batch_out st = hop_batch round h onions.
Proof.
  intros Hn Hi. unfold batch_out, hop_batch. rewrite Hn, Hi, <- list_fmap_compose.
  by rewrite list_fmap_id.
Qed.

(** The last server. *)
Lemma run_last n i h onions :
  chain_ok CoordinatorKey service round n i [h] onions →
  Forall (λ o, length o = onion_size n i) onions →
  ∃ replies, run_chain CoordinatorKey Services service round [h] onions = Ret replies ∧
    answered n i [h] onions replies.
Proof using All.
  intros (Hok & <- & Hfew & Hnoise & Hsch) Hsizes. set (n := S i) in *.
  assert (Hin : (i < n)%nat) by (unfold n; lia).
  destruct (hop_filtered_spec n i h onions Hok Hin Hsizes) as (index & valid & seen & E & Ef & F & Hv).
  assert (HB : hop_batch round h onions = valid).
  { unfold hop_batch. by rewrite Hnoise, E, app_nil_r. }
  assert (Hwf : wf_batch valid).
  { eapply Forall_impl; [exact Hv|]. cbn. intros m ->. unfold onion_size, n. by rewrite Nat.sub_diag. }
  assert (Hex : length (exchange valid) = length (hop_filtered round h onions).2).
  { rewrite E. unfold exchange. len. }
  exists (hop_served h onions (exchange valid)).
  destruct (hop_served_sizes n i h [] onions Hok Hin Hfew Hsizes (exchange valid)) as [Hsz Hl]. split.
  - apply (run_hop n i h [] onions Hok Hin Hfew Hsizes); [done|].
    intros st Hchain Hpos Hno Hset Hbi Hnd Hinc. eexists.
    eapply (CloseRound_last_bidirectional Services _ (hop_coins h) (hop_shuffle h) (hop_ptr h)
              (pb.mkCloseRoundRequest service round) st (convo_service cs)); try done.
    + rewrite Hchain, Hpos, (hop_chain _ _ _ _ _ _ Hok), (hop_pos _ _ _ _ _ _ Hok). unfold n. lia.
    + rewrite (batch_out_valid h onions st Hno Hinc), HB. rewrite HB in Hsch.
      by apply convo_HandleMessages.
  - split; [done|]. split; [done|]. intros j o m ks Ho Hp [Hfirst _].
    destruct (peels_hop n i h onions Hok Hin Hsizes m o ks [] Hp) as (o' & ks' & -> & Hp' & Hop).
    assert (o' = m ∧ ks' = []) as [-> ->] by (by inversion Hp').
    destruct (hop_served_kept n i h [] onions Hok Hin Hfew Hsizes (exchange valid) j o m Hex)
      as (v & r & Hv' & Hr & Hj); [|done..|].
    { apply Forall_forall. intros r (v & -> & Hvs%elem_of_seq)%list_elem_of_fmap.
      unfold body, reply_bytes, n. rewrite Nat.sub_diag, Nat.mul_0_l, Nat.add_0_l.
      destruct (lookup_lt_is_Some_1 valid (partner valid v)) as [x Hx]; [apply partner_lt; lia|].
      rewrite (list_lookup_total_correct _ _ _ Hx), length_take, length_drop.
      rewrite (wf_batch_lookup _ _ _ Hwf Hx). unfold sizeDeadDropMessage. lia. }
    rewrite E in Hv'. cbn [snd] in Hv'. exists v. cbn [final_batch]. rewrite HB.
    rewrite (exchange_lookup valid v) by (by eapply lookup_lt_Some).
    rewrite (exchange_lookup valid v) in Hr by (by eapply lookup_lt_Some).
    injection Hr as <-. done.
Qed.

(** A server with servers after it. *)
Lemma run_forward n i h h' rest onions replies' :
  hop_ok CoordinatorKey service round n i h → (S i < n)%nat → few onions →
  Forall (λ o, length o = onion_size n i) onions →
  run_chain CoordinatorKey Services service round (h' :: rest) (hop_sent round h onions) = Ret replies' →
  answered n (S i) (h' :: rest) (hop_sent round h onions) replies' →
  ∃ replies, run_chain CoordinatorKey Services service round (h :: h' :: rest) onions = Ret replies ∧
    answered n i (h :: h' :: rest) onions replies.
Proof using All.
  intros Hok Hlt Hfew Hsizes Hrun (Hl' & Hsz' & Hans).
  assert (Hin : (i < n)%nat) by lia.
  set (s := shuffle_New (hop_shuffle h) (length (hop_batch round h onions))).
  assert (Hsl : length (hop_batch round h onions) = shuffle_len s) by (symmetry; apply shuffle_len_New).
  assert (Hrl : length replies' = length (hop_batch round h onions)).
  { rewrite Hl'. apply length_do_shuffle. }
  set (valid := (hop_filtered round h onions).2) in *.
  assert (Hvb : (length valid ≤ length (hop_batch round h onions))%nat).
  { unfold hop_batch, valid. len. }
  set (rs := take (length valid) (do_unshuffle s replies')).
  assert (Hrs : length rs = length valid).
  { unfold rs. rewrite length_take, length_do_unshuffle. lia. }
  (* a message of the batch and the reply to the place it was sent at *)
  assert (Hroute : ∀ v msg, valid !! v = Some msg →
    ∃ j, hop_sent round h onions !! j = Some msg ∧ rs !! v = replies' !! j).
  { intros v msg Hv. pose proof (lookup_lt_Some _ _ _ Hv) as Hvl.
    destruct (unshuffle_routes s (hop_batch round h onions) replies' v msg) as (j & Hj & Hu & _);
      [done|done|by apply lookup_app_l_Some|].
    exists j. split; [done|]. unfold rs. by rewrite lookup_take_lt. }
  assert (Hrsz : Forall (λ r, length r = reply_bytes n (S i)) rs).
  { apply Forall_forall. intros r (v & Hr)%list_elem_of_lookup.
    destruct (lookup_lt_is_Some_1 valid v) as [msg Hv]; [rewrite <- Hrs; by eapply lookup_lt_Some|].
    destruct (Hroute v msg Hv) as (j & _ & Er). rewrite Er in Hr.
    by eapply (Forall_lookup_1 _ _ _ _ Hsz'). }
  exists (hop_served h onions rs).
  destruct (hop_served_sizes n i h (h' :: rest) onions Hok Hin Hfew Hsizes rs) as [Hsz Hl]. split.
  - apply (run_hop n i h (h' :: rest) onions Hok Hin Hfew Hsizes); [done|].
    intros st Hchain Hpos Hno Hset Hbi Hnd Hinc. eexists.
    pose proof (batch_out_valid h onions st Hno Hinc) as Hout.
    destruct (lookup_lt_is_Some_1 (chain st) (S (myPos st))) as [server Hserver].
    { rewrite Hchain, Hpos, (hop_chain _ _ _ _ _ _ Hok), (hop_pos _ _ _ _ _ _ Hok). done. }
    assert (Hil : length (incoming st) = length valid) by (by rewrite Hinc, length_fmap).
    rewrite (CloseRound_forward_bidirectional Services _ (hop_coins h) (hop_shuffle h) (hop_ptr h)
      (pb.mkCloseRoundRequest service round) st server replies'); try done; rewrite ?Hout.
    + by rewrite Hil.
    + exact Hrun.
    + rewrite Hil, length_do_unshuffle. lia.
  - split; [done|]. split; [done|]. intros j o m ks Ho Hp [Hfirst Hkept].
    destruct (peels_hop n i h onions Hok Hin Hsizes m o ks _ Hp) as (o' & ks' & -> & Hp' & Hop).
    destruct (hop_served_kept n i h (h' :: rest) onions Hok Hin Hfew Hsizes rs j o o' Hrs Hrsz Ho Hop Hfirst)
      as (v & r & Hv & Hr & Hj).
    destruct (Hroute v o' Hv) as (pos & Hpos & Er).
    assert (Hopen : hop_opened round h onions !! j = Some (Some o')).
    { unfold hop_opened. rewrite list_lookup_fmap, Ho. cbn. by rewrite Hop. }
    destruct (Hans pos o' m ks' Hpos Hp') as (j' & Hj' & Hex & Hr').
    { by apply (Hkept pos o' Hopen Hpos). }
    exists j'. split; [exact Hj'|]. split; [exact Hex|]. rewrite Hj.
    rewrite Er, Hr' in Hr. by injection Hr as <-.
Qed.

Lemma run_chain_answers n i hops onions :
  chain_ok CoordinatorKey service round n i hops onions →
  Forall (λ o, length o = onion_size n i) onions →
  ∃ replies, run_chain CoordinatorKey Services service round hops onions = Ret replies ∧
    answered n i hops onions replies.
Proof using All.
  revert i onions. induction hops as [|h [|h' rest] IH]; intros i onions Hc Hsizes; [done| |].
  - by apply run_last.
  - destruct Hc as (Hok & Hlt & Hfew & Hc).
    destruct (IH (S i) (hop_sent round h onions) Hc) as (replies' & Hrun & Hans).
    + apply (hop_sent_sizes n i h onions Hok ltac:(lia) Hsizes).
    + by eapply run_forward.
Qed.

(** The last server keeps one message per key, so its batch has no duplicates. *)
Lemma final_batch_NoDup n i hops onions :
  chain_ok CoordinatorKey service round n i hops onions →
  Forall (λ o, length o = onion_size n i) onions → NoDup (final_batch round hops onions).
Proof using All.
  revert i onions. induction hops as [|h [|h' rest] IH]; intros i onions Hc Hsizes; [done| |].
  - destruct Hc as (Hok & <- & Hfew & Hnoise & Hsch).
    destruct (hop_filtered_spec (S i) i h onions Hok ltac:(lia) Hsizes) as (index & valid & seen & E & _ & F & _).
    cbn [final_batch]. unfold hop_batch. rewrite Hnoise, E, app_nil_r. cbn [snd].
    eapply NoDup_fmap_1, (filtered_nodup _ _ _ _ F).
  - destruct Hc as (Hok & Hlt & Hfew & Hc). apply (IH (S i) (hop_sent round h onions) Hc).
    apply (hop_sent_sizes n i h onions Hok ltac:(lia) Hsizes).
Qed.

End chain_lemmas.

(** Two messages alone at their dead drop are each other's partners. *)
Lemma partners_alone (B : list bytes) ja jb ma mb :
  NoDup B → ma ≠ mb → B !! ja = Some ma → B !! jb = Some mb → take 16 ma = take 16 mb →
  (∀ m, m ∈ B → take 16 m = take 16 ma → m = ma ∨ m = mb) →
  partner B ja = jb ∧ partner B jb = ja.
Proof.
  intros Hnd Hne Ha Hb Hd Halone.
  assert (Hja : dests B !! ja = Some (take 16 ma)) by (unfold dests; by rewrite list_lookup_fmap, Ha).
  assert (Hjb : dests B !! jb = Some (take 16 ma)) by (unfold dests; by rewrite list_lookup_fmap, Hb, Hd).
  assert (Hneq : ja ≠ jb) by (intros ->; congruence).
  assert (Hk : ∀ k, dests B !! k = Some (take 16 ma) → k = ja ∨ k = jb).
  { intros k Hk. unfold dests in Hk. rewrite list_lookup_fmap in Hk.
    destruct (B !! k) as [m|] eqn:Em; [|done]. injection Hk as Hk.
    destruct (Halone m) as [->| ->]; [by eapply list_elem_of_lookup_2|done| |].
    - left. by eapply NoDup_lookup.
    - right. by eapply NoDup_lookup. }
  unfold partner. rewrite Hja, Hjb.
  destruct (positions_pair (take 16 ma) (dests B) ja jb Hneq Hja Hjb Hk) as [-> | ->].
  - by rewrite decide_True, decide_False by auto.
  - by rewrite decide_False, decide_True by auto.
Qed.

(** ** Properties *)

Section properties.
Context `{NaClLaws} `{!Onionbox} `{!OnionboxLaws} `{!Signature} `{ShuffleLaws} `{SpansLaws}.
Context (CoordinatorKey : bytes) (Services : gmap string (MixService convo_coins)).

(** C3. A round through a chain of any length. Every server is ready for the round and runs
    the conversation service; the batch holds onions of the size the first server
    expects, whether they open or not. Then the round returns, with one reply for each
    onion, all of one size; and the sender of every onion that peels through the chain
    and is nowhere taken for a duplicate finds, opening the reply with the keys of the
    onion, exactly the body that the dead-drop exchange of the last server's batch
    gives to the message. Shuffles, noise, schedules, stream orders and fresh keys are
    arbitrary. *)
Theorem round_answers_exchange service round cs n hops (onions : list bytes) :
  Services !! service = Some (convo_service cs) → is_u32 round →
  chain_ok CoordinatorKey service round n 0 hops onions →
  Forall (λ o, length o = onion_size n 0) onions →
  ∃ replies, run_chain CoordinatorKey Services service round hops onions = Ret replies ∧
    length replies = length onions ∧
    Forall (λ r, length r = n * box_Overhead + SizeEncryptedMessageBody)%nat replies ∧
    ∀ j o m ks, onions !! j = Some o → peels (ForwardNonce round) (hop_sks hops) m o ks →
      kept round hops onions j →
      ∃ j' reply, final_batch round hops onions !! j' = Some m ∧ replies !! j = Some reply ∧
        onion_Open reply (BackwardNonce round) ks =
          exchange (final_batch round hops onions) !! j'.
Proof.
  intros Hs Hr Hc Hsizes.
  destruct (run_chain_answers CoordinatorKey Services service round cs Hs Hr n 0 hops onions Hc Hsizes)
    as (replies & Hrun & Hl & Hsz & Hans).
  exists replies. split; [done|]. split; [done|]. split.
  { eapply Forall_impl; [exact Hsz|]. unfold reply_bytes. intros r ->. by rewrite Nat.sub_0_r. }
  intros j o m ks Ho Hp Hk. destruct (Hans j o m ks Ho Hp Hk) as (j' & Hj' & Hex & Hreply).
  do 2 eexists. split; [done|]. split; [exact Hreply|]. by rewrite onion_Open_reply, Hex.
Qed.

(** Two friends talk. When the messages of two senders name the same dead drop, and no
    third message of the last server's batch does, each of them opens the encrypted
    message of the other, whatever else the batch holds and wherever it was shuffled. *)
Theorem friends_swap_messages service round cs n hops (onions : list bytes) a b oa ob ma mb ka kb :
  Services !! service = Some (convo_service cs) → is_u32 round →
  chain_ok CoordinatorKey service round n 0 hops onions →
  Forall (λ o, length o = onion_size n 0) onions →
  onions !! a = Some oa → peels (ForwardNonce round) (hop_sks hops) ma oa ka → kept round hops onions a →
  onions !! b = Some ob → peels (ForwardNonce round) (hop_sks hops) mb ob kb → kept round hops onions b →
  ma ≠ mb → take 16 ma = take 16 mb →
  (∀ m, m ∈ final_batch round hops onions → take 16 m = take 16 ma → m = ma ∨ m = mb) →
  ∃ replies ra rb, run_chain CoordinatorKey Services service round hops onions = Ret replies ∧
    replies !! a = Some ra ∧ replies !! b = Some rb ∧
    onion_Open ra (BackwardNonce round) ka = Some (body mb) ∧
    onion_Open rb (BackwardNonce round) kb = Some (body ma).
Proof.
  intros Hs Hr Hc Hsizes Ha Hpa Hka Hb Hpb Hkb Hne Hd Halone.
  destruct (run_chain_answers CoordinatorKey Services service round cs Hs Hr n 0 hops onions Hc Hsizes)
    as (replies & Hrun & _ & _ & Hans).
  pose proof (final_batch_NoDup CoordinatorKey Services service round cs Hs Hr n 0 hops onions Hc Hsizes) as Hnd.
  destruct (Hans a oa ma ka Ha Hpa Hka) as (ja & Hja & _ & Hra).
  destruct (Hans b ob mb kb Hb Hpb Hkb) as (jb & Hjb & _ & Hrb).
  destruct (partners_alone _ ja jb ma mb Hnd Hne Hja Hjb Hd Halone) as [Epa Epb].
  rewrite Epa, (list_lookup_total_correct _ _ _ Hjb) in Hra.
  rewrite Epb, (list_lookup_total_correct _ _ _ Hja) in Hrb.
  exists replies. do 2 eexists. split; [done|]. split; [exact Hra|]. split; [exact Hrb|].
  by rewrite !onion_Open_reply.
Qed.

End properties.
