(* ===== verification/MixExamples.v ===== *)
(** * A concrete chain

    Two mixers with the executable instances of [External.Toy], set up by their own
    handlers, and the witnesses of the theorems of the mixer and the chain: each applies
    its theorem to this chain. *)

From Stdlib Require Import ZArith Lia.
From stdpp Require Import base numbers strings gmap fin_maps relations list.
From S2P Require Import Prelude GoStd Json External Concurrency Pb Settings Convo Mixnet MixOnions ConvoMix MixClient MixServe MixInterleave MixChain.

Local Existing Instance Toy.nacl.
Local Existing Instance Toy.onionbox.
Local Existing Instance Toy.shuffle.
Local Existing Instance Toy.spans_inst.
Local Existing Instance Toy.signature.
Local Existing Instance Toy.nacl_laws.
Local Existing Instance Toy.onionbox_laws.
Local Existing Instance Toy.shuffle_laws.
Local Existing Instance Toy.spans_laws.

(** ** Set-up *)

Definition coordinator : bytes := replicate 32 xcc.
Definition signing (i : nat) : bytes := match i with O => replicate 32 xa0 | _ => replicate 32 xa1 end.
Definition onion_key (i : nat) : bytes := match i with O => replicate 32 xb0 | _ => replicate 32 xb1 end.

(** Nobody listens to the access counts. *)
Definition quiet : ConvoService := {| AccessCounts := None |}.

Definition services : gmap string (MixService convo_coins) :=
  {[ "Convo" := convo_service quiet ]}.

Definition servers : list pb.PublicServerConfig :=
  [pb.mkPublicServerConfig (sig_Public (signing 0)) "mix0"; pb.mkPublicServerConfig (sig_Public (signing 1)) "mix1"].

Definition new_round : pb.NewRoundRequest := pb.mkNewRoundRequest "Convo" 7 servers.
Definition round_settings : pb.RoundSettings :=
  pb.mkRoundSettings "Convo" 7 [box_Public (onion_key 0); box_Public (onion_key 1)] None.

Definition caller (i : nat) : bytes := match i with O => coordinator | _ => sig_Public (signing 0) end.
Definition from (k : bytes) : context := PeerCertificates [Some k].

(** One noise message of the first server. *)
Definition noise_draw : noise_draws :=
  mkNoiseDraws 1 0
    (mkDraws (λ _, Examples.message x77 x78) (λ _, replicate 256 x79) (λ _, [x01]) (λ _, [x02]))
    (mkDraws (λ _, Examples.message x77 x78) (λ _, replicate 256 x79) (λ _, [x01]) (λ _, [x02])).

Definition in_order (n : nat) : list (nat * nat) := (λ i, (0%nat, i)) <$> seq 0 n.

Definition coins (i : nat) : convo_coins := mkConvoCoins noise_draw (in_order 1) (in_order 0) (in_order 3).

Definition nothing : nextCalls := mkNextCalls (λ _ _ _ _, Ret []) (λ _ _ _ _, Ret "").

(** The server after [NewRound]. *)
Definition created_server (i : nat) : Server :=
  (NewRound (signing i) coordinator services (from coordinator) (Some (onion_key i)) new_round init_server).1.

(** ... after [SetRoundSettings], and after the noise was made. *)
Definition settled_server (i : nat) : Server :=
  (SetRoundSettings (signing i) coordinator services (from coordinator)
     (pb.mkSetRoundSettingsRequest (Some round_settings)) (created_server i)).1.

Definition ready_server (i : nat) : Server := (run_noise services (coins i) (settled_server i)).1.

Definition state_of (srv : Server) : roundState :=
  default (new_roundState [] 0 false 0 [] []) (store srv !! 0%nat).

Example set_up : (run_noise services (coins 0) (settled_server 0)).2 = Ret () ∧
  noiseDone (state_of (ready_server 0)) = Some true ∧ length (default [] (noise (state_of (ready_server 0)))) = 1%nat.
Proof. vm_compute. done. Qed.

(** ** The chain and its batch *)

Definition hop_at (i : nat) : hop :=
  mkHop (signing i) (from (caller i)) (caller i) (coins i) [] (onion_key i) (λ j, replicate 32 xee) in_order
        0%nat (state_of (ready_server i)) (ready_server i) addOnions_spans addOnions_spans true
        (mkPublicServerConfig [] "").

Definition hops : list hop := [hop_at 0; hop_at 1].

(** Two friends at dead drop 1, a third sender at dead drop 2. *)
Definition ma : bytes := replicate 16 x01 ++ replicate 256 x0a.
Definition mb : bytes := replicate 16 x01 ++ replicate 256 x0b.
Definition seal (r : Byte.byte) (m : bytes) : bytes * list bytes :=
  onion_Seal [r] m (ForwardNonce 7) (box_Public <$> hop_sks hops).
Definition batch : list bytes := [(seal x11 ma).1; (seal x12 mb).1].

Example chain_runs :
  match run_chain coordinator services "Convo" 7 hops batch with
  | Ret [ra; rb] => onion_Open ra (BackwardNonce 7) (seal x11 ma).2 = Some (body mb) ∧
                    onion_Open rb (BackwardNonce 7) (seal x12 mb).2 = Some (body ma)
  | _ => False
  end.
Proof. vm_compute. done. Qed.

(** ** The hypotheses hold *)

Lemma in_order_valid n : valid_schedule n (in_order n).
Proof.
  unfold valid_schedule, in_order. rewrite <- list_fmap_compose.
  change (snd ∘ λ i, (0%nat, i)) with (id : nat → nat). by rewrite list_fmap_id.
Qed.

Lemma hop_at_ok i : (i < 2)%nat → hop_ok coordinator "Convo" 7 2 i (hop_at i).
Proof.
  intros Hi. assert (i = 0%nat ∨ i = 1%nat) as [-> | ->] by lia; constructor;
    try (vm_compute; done); try (intros; apply in_order_valid); try (intros; split; reflexivity);
    try (constructor; vm_compute; try done; lia); try (vm_compute; by repeat constructor).
Qed.

Lemma hops_ok : chain_ok coordinator "Convo" 7 2 0 hops batch.
Proof.
  assert (H0 : hop_ok coordinator "Convo" 7 2 0 (hop_at 0)) by (apply hop_at_ok; lia).
  assert (H1 : hop_ok coordinator "Convo" 7 2 1 (hop_at 1)) by (apply hop_at_ok; lia).
  split; [exact H0|]. split; [lia|]. split; [vm_compute; done|].
  split; [exact H1|]. split; [done|]. split; [vm_compute; done|]. split; [vm_compute; done|].
  apply (in_order_valid 3).
Qed.

Lemma batch_sizes : Forall (λ o, length o = onion_size 2 0) batch.
Proof. repeat constructor; vm_compute; done. Qed.

(** Every message of the batch is somewhere else. *)
Lemma sent_distinct : NoDup (hop_sent 7 (hop_at 0) batch).
Proof. apply (bool_decide_unpack _). vm_compute. exact I. Qed.

Lemma batch_kept i : (i < 2)%nat → kept 7 hops batch i.
Proof.
  intros Hi. assert (Hpos : ∃ pos msg, hop_opened 7 (hop_at 0) batch !! i = Some (Some msg) ∧
    hop_sent 7 (hop_at 0) batch !! pos = Some msg ∧
    first_of_key_b (hop_opened 7 (hop_at 1) (hop_sent 7 (hop_at 0) batch)) pos = true ∧
    first_of_key_b (hop_opened 7 (hop_at 0) batch) i = true).
  { assert (i = 0%nat ∨ i = 1%nat) as [-> | ->] by lia.
    - exists 2%nat. eexists. split; [vm_compute; reflexivity|]. split; [vm_compute; reflexivity|].
      split; vm_compute; reflexivity.
    - exists 1%nat. eexists. split; [vm_compute; reflexivity|]. split; [vm_compute; reflexivity|].
      split; vm_compute; reflexivity. }
  destruct Hpos as (pos & msg & Eo & Es & Hl & Hf). split; [by apply first_of_key_b_true|].
  intros i' msg' Eo' Es'. rewrite Eo in Eo'. injection Eo' as <-.
  assert (i' = pos) as -> by (eapply NoDup_lookup; [apply sent_distinct|done..]).
  split; [by apply first_of_key_b_true|done].
Qed.

Lemma seal_peels r m : peels (ForwardNonce 7) (hop_sks hops) m (seal r m).1 (seal r m).2.
Proof. apply onion_Seal_peels. Qed.

Lemma services_convo : services !! "Convo" = Some (convo_service quiet).
Proof. reflexivity. Qed.

Lemma round_7 : is_u32 7.
Proof. unfold is_u32. lia. Qed.

(** ** Witnesses: the chain *)

Lemma round_answers_exchange_witness :
  ∃ replies, run_chain coordinator services "Convo" 7 hops batch = Ret replies ∧ length replies = 2%nat.
Proof.
  destruct (round_answers_exchange coordinator services "Convo" 7 quiet 2 hops batch
              services_convo round_7 hops_ok batch_sizes) as (replies & E & Hl & _).
  exists replies. split; [exact E|]. rewrite Hl. reflexivity.
Defined.

Lemma friends_swap_messages_witness :
  ∃ replies ra rb, run_chain coordinator services "Convo" 7 hops batch = Ret replies ∧
    replies !! 0%nat = Some ra ∧ replies !! 1%nat = Some rb ∧
    onion_Open ra (BackwardNonce 7) (seal x11 ma).2 = Some (body mb) ∧
    onion_Open rb (BackwardNonce 7) (seal x12 mb).2 = Some (body ma).
Proof.
  apply (friends_swap_messages coordinator services "Convo" 7 quiet 2 hops batch 0 1
           (seal x11 ma).1 (seal x12 mb).1 ma mb).
  - exact services_convo.
  - exact round_7.
  - exact hops_ok.
  - exact batch_sizes.
  - reflexivity.
  - apply seal_peels.
  - apply batch_kept. lia.
  - reflexivity.
  - apply seal_peels.
  - apply batch_kept. lia.
  - vm_compute. congruence.
  - vm_compute. reflexivity.
  - assert (H : Forall (λ m, take 16 m = take 16 ma → m = ma ∨ m = mb) (final_batch 7 hops batch)).
    { apply (bool_decide_unpack _). vm_compute. exact I. }
    rewrite Forall_forall in H. exact H.
Defined.

(** ** Witnesses: setting a round up *)

Lemma at_coordinator : authenticated (from coordinator) coordinator.
Proof. reflexivity. Qed.

Lemma servers_sizes : Forall (λ c, length (pb.Key c) = PublicKeySize) servers.
Proof. repeat constructor. Qed.

Lemma own_key_in_chain : ∃ c, c ∈ servers ∧ pb.Key c = sig_Public (signing 1).
Proof.
  exists (pb.mkPublicServerConfig (sig_Public (signing 1)) "mix1"). split; [|reflexivity].
  right. left.
Qed.

Lemma NewRound_creates_once_witness :
  ∃ srv', NewRound (signing 1) coordinator services (from coordinator) (Some (onion_key 1)) new_round init_server
            = (srv', Ret (pb.mkNewRoundResponse (box_Public (onion_key 1)))) ∧
          NewRound (signing 1) coordinator services (from coordinator) None new_round srv'
            = (srv', Ret (pb.mkNewRoundResponse (box_Public (onion_key 1)))).
Proof.
  destruct (NewRound_creates_once (signing 1) coordinator services (from coordinator) (from coordinator)
              (onion_key 1) None new_round new_round (convo_service quiet) init_server
              at_coordinator at_coordinator services_convo eq_refl servers_sizes own_key_in_chain
              eq_refl eq_refl) as (srv' & p & st & pos & E & _ & _ & _ & _ & _ & E').
  exists srv'. split; [exact E|exact E'].
Defined.

Lemma NewRound_race_witness :
  ∃ srv1 srv2 p st,
    NewRound_create (signing 1) services (Some [x01]) new_round init_server =
      (srv1, Ret (pb.mkNewRoundResponse (box_Public [x01]))) ∧
    NewRound_create (signing 1) services (Some [x02]) new_round srv1 =
      (srv2, Ret (pb.mkNewRoundResponse (box_Public [x02]))) ∧
    store srv2 !! p = Some st ∧ onionPublicKey st = box_Public [x02] ∧ box_Public [x01] ≠ box_Public [x02].
Proof.
  destruct (NewRound_race (signing 1) coordinator services (from coordinator) [x01] [x02] new_round
              (convo_service quiet) init_server at_coordinator services_convo eq_refl servers_sizes
              own_key_in_chain) as (srv1 & srv2 & p & st & _ & E1 & E2 & _ & Ep & Ek).
  exists srv1, srv2, p, st. split; [exact E1|]. split; [exact E2|]. split; [exact Ep|].
  split; [exact Ek|]. vm_compute. congruence.
Defined.

Lemma SetRoundSettings_binds_witness :
  ∃ srv' sig, SetRoundSettings (signing 0) coordinator services (from coordinator)
      (pb.mkSetRoundSettingsRequest (Some round_settings)) (created_server 0) = (srv', Ret sig) ∧
    SetRoundSettings (signing 0) coordinator services (from coordinator)
      (pb.mkSetRoundSettingsRequest (Some (pb.mkRoundSettings "Convo" 7 [] None))) srv' = (srv', Ret sig).
Proof.
  assert (Hk : Forall (λ k, length k = 32%nat) (pb.OnionKeys round_settings)) by (repeat constructor).
  assert (Hk' : Forall (λ k, length k = 32%nat) (pb.OnionKeys (pb.mkRoundSettings "Convo" 7 [] None)))
    by constructor.
  destruct (SetRoundSettings_binds (signing 0) coordinator services (from coordinator) round_settings
    0%nat (state_of (created_server 0)) (convo_service quiet) inil (created_server 0)
    at_coordinator Hk eq_refl eq_refl eq_refl services_convo eq_refl ltac:(vm_compute; lia))
    as (_ & _ & _ & Hset).
  destruct (Hset ltac:(reflexivity) ltac:(reflexivity) ltac:(reflexivity)) as [E E'].
  do 2 eexists. split; [exact E|].
  exact (E' (from coordinator) (pb.mkRoundSettings "Convo" 7 [] None) inil at_coordinator Hk' eq_refl
           eq_refl eq_refl).
Defined.

(** Somebody with a certificate of another key, at the first server of round 7. *)
Definition stranger : context := from [x63].

Lemma rpcs_authenticated_witness :
  let srv := ready_server 0 in
  refuses stranger (NewRound (signing 0) coordinator services stranger None new_round) srv ∧
  refuses stranger (AddOnions coordinator stranger (Some (addOnions_metadata "Convo" 7 2)) []) srv ∧
  refuses stranger (GetOnions coordinator stranger (pb.mkGetOnionsRequest "Convo" 7 0 1)) srv ∧
  refuses stranger (DeleteRound coordinator stranger (pb.mkDeleteRoundRequest "Convo" 7)) srv ∧
  DeleteRound coordinator stranger (pb.mkDeleteRoundRequest "Convo" 8) srv = (srv, Err (RoundNotFound 8)).
Proof.
  cbv zeta. destruct (rpcs_authenticated (signing 0) coordinator services stranger (ready_server 0)) as (Hc & _ & Hr).
  assert (Hs : ¬ authenticated stranger coordinator) by (vm_compute; discriminate).
  destruct (Hr "Convo" 7 (Some (addOnions_metadata "Convo" 7 2)) (mkStreamMetadata "Convo" 7 2) [] nothing (coins 0) [] 0 1
    ltac:(vm_compute; reflexivity) eq_refl eq_refl (state_of (ready_server 0)) coordinator) as (Ha & _ & Hd & Hg).
  - vm_compute. reflexivity.
  - vm_compute. reflexivity.
  - exact Hs.
  - destruct (Hr "Convo" 8 (Some (addOnions_metadata "Convo" 8 2)) (mkStreamMetadata "Convo" 8 2) [] nothing (coins 0) [] 0 1
      ltac:(vm_compute; reflexivity) eq_refl eq_refl) as (_ & _ & _ & Hd8).
    split; [exact (proj1 (Hc Hs) None new_round)|]. split; [exact Ha|]. split; [exact Hg|]. split; [exact Hd|exact Hd8].
Defined.

(** ** Witnesses: the onions of a round *)

(** The first server with room for [n] onions, and the stream that announced them. *)
Definition begun (n : nat) : Server * outcome mix_error addStream :=
  AddOnions_begin coordinator (from coordinator) (Some (addOnions_metadata "Convo" 7 n)) (ready_server 0).

Definition stream (n : nat) : addStream := mkAddStream 0%nat 7 (Z.of_nat n).

Example begun_ok : (begun 2).2 = Ret (stream 2).
Proof. vm_compute. reflexivity. Qed.

Definition with_job (n : nat) (req : pb.AddOnionsRequest) : Server :=
  (AddOnions_recv (stream n) req (begun n).1).1.

Definition full_request : pb.AddOnionsRequest := pb.mkAddOnionsRequest 0 batch.

Lemma allocated_begun n : (n < 3)%nat → allocated (state_of (begun n).1).
Proof. intros Hn. destruct n as [|[|[|]]]; [..|lia]; split; vm_compute; try done; lia. Qed.

Lemma AddOnions_admits_witness :
  AddOnions_recv (stream 2) (pb.mkAddOnionsRequest 1 batch) (begun 2).1 =
    ((begun 2).1, Err (OverflowingOnions 1 2 2)).
Proof.
  apply (AddOnions_admits (stream 2) (pb.mkAddOnionsRequest 1 batch) (state_of (begun 2).1) (begun 2).1);
    vm_compute; reflexivity.
Defined.

Lemma AddOnions_wraparound_panics_witness :
  ∃ srv', AddOnions_recv (stream 1) (pb.mkAddOnionsRequest (2 ^ 32 - 1) batch) (begun 1).1 = (srv', Ret ()) ∧
    (decryptionWorker (replicate 32 x00) srv').2 = Panic.
Proof.
  apply (AddOnions_wraparound_panics (stream 1) (2 ^ 32 - 1) (seal x11 ma).1 [(seal x12 mb).1]
           (state_of (begun 1).1) (begun 1).1).
  - vm_compute. reflexivity.
  - vm_compute. reflexivity.
  - vm_compute. reflexivity.
  - apply allocated_begun. lia.
  - vm_compute. reflexivity.
  - vm_compute. reflexivity.
  - unfold is_u32. lia.
  - unfold is_u32. cbn. lia.
  - cbn. lia.
  - cbn. lia.
  - vm_compute. reflexivity.
Defined.

Lemma decryptionWorker_opens_witness :
  ∃ theirPublic' st' srv',
    decryptionWorker (replicate 32 x00) (with_job 2 full_request) = (put_round 0%nat st' srv', Ret theirPublic') ∧
    length (incoming st') = 2%nat ∧ decryptWg st' = 0%nat.
Proof.
  destruct (decryptionWorker_opens (replicate 32 x00) (mkDecryptionJob 0%nat 7 full_request) []
              (state_of (with_job 2 full_request)) (with_job 2 full_request))
    as (tp & st' & E & Hl & Hw & _).
  - split; vm_compute; [lia|done].
  - vm_compute. lia.
  - reflexivity.
  - vm_compute. reflexivity.
  - vm_compute. reflexivity.
  - exists tp, st', (set_decryptionJobs [] (with_job 2 full_request)). split; [exact E|].
    split; [rewrite Hl; vm_compute; reflexivity|rewrite Hw; vm_compute; reflexivity].
Defined.

(** The first server with both onions decrypted. *)
Definition loaded_server : Server :=
  (decryptionWorker (replicate 32 x00) (with_job 2 full_request)).1.

Lemma loaded_long : long_enough (incoming (state_of loaded_server)).
Proof.
  assert (E : ∃ m1 m2, incoming (state_of loaded_server) = [Some m1; Some m2] ∧
    (8 <=? length m1)%nat = true ∧ (8 <=? length m2)%nat = true).
  { do 2 eexists. split; [vm_compute; reflexivity|]. split; reflexivity. }
  destruct E as (m1 & m2 & -> & H1%Nat.leb_le & H2%Nat.leb_le). by repeat constructor.
Qed.

Lemma filterIncoming_keeps_first_witness :
  ∃ index valid, filterIncoming 0%nat loaded_server =
      (put_round 0%nat (with_filtered index valid (state_of loaded_server)) loaded_server, Ret ()) ∧
    length index = 2%nat.
Proof.
  destruct (filterIncoming_keeps_first 0%nat (state_of loaded_server) loaded_server) as (index & valid & E & Hl & _).
  - exact loaded_long.
  - vm_compute. reflexivity.
  - exists index, valid. split; [exact E|]. rewrite Hl. vm_compute. reflexivity.
Defined.

(** ** Witnesses: closing and serving *)

Definition close_request : pb.CloseRoundRequest := pb.mkCloseRoundRequest "Convo" 7.

(** A next server that answers every onion with its first 320 bytes, and one that fails. *)
Definition echo : nextCalls := mkNextCalls (λ _ _ _ onions, Ret (take 272 <$> onions)) (λ _ _ _ _, Ret "").
Definition failing : nextCalls :=
  mkNextCalls (λ _ _ _ _, Err GenerateKeyError) (λ _ _ _ _, Err GenerateKeyError).

Definition filtered_loaded : list Z * list bytes :=
  match filter_loop (incoming (state_of loaded_server)) [] [] ∅ with Ret r => r | _ => ([], []) end.

Lemma filter_loaded :
  filter_loop (incoming (state_of loaded_server)) [] [] ∅ = Ret (filtered_loaded.1, filtered_loaded.2).
Proof. vm_compute. reflexivity. Qed.

Definition second_server : PublicServerConfig := conf_of (pb.mkPublicServerConfig (sig_Public (signing 1)) "mix1").

Lemma CloseRound_mixes_witness :
  ∃ job st', CloseRound coordinator services echo (coins 0) [] (from coordinator) close_request loaded_server =
      (add_encrypt_job job (put_round 0%nat st' loaded_server), Ret (pb.mkCloseRoundResponse "")) ∧
    closed st' = true ∧ length (encrypt_replies job) = 2%nat.
Proof.
  destruct (CloseRound_mixes coordinator services echo (coins 0) [] (from coordinator) close_request 0%nat
    (state_of loaded_server) coordinator filtered_loaded.1 filtered_loaded.2 second_server
    (take 272 <$> do_shuffle (shuffle_New [] 3) (filtered_loaded.2 ++ default [] (noise (state_of loaded_server))))
    loaded_server) as (_ & job & st' & E & Hc & _ & _ & _ & _ & _ & _ & Hl & _).
  - vm_compute. reflexivity.
  - vm_compute. reflexivity.
  - vm_compute. reflexivity.
  - reflexivity.
  - vm_compute. reflexivity.
  - vm_compute. reflexivity.
  - vm_compute. reflexivity.
  - vm_compute. reflexivity.
  - vm_compute. reflexivity.
  - vm_compute. reflexivity.
  - exact filter_loaded.
  - vm_compute. reflexivity.
  - by rewrite length_fmap.
  - exists job, st'. split; [exact E|]. split; [exact Hc|]. rewrite Hl. vm_compute. reflexivity.
Defined.

Lemma CloseRound_error_sticks_witness :
  ∃ srv', CloseRound coordinator services failing (coins 0) [] (from coordinator) close_request loaded_server =
      (srv', Err (RunRoundError 0)) ∧
    CloseRound coordinator services echo (coins 0) [] (from coordinator) close_request srv' =
      (srv', Err (RunRoundError 0)).
Proof.
  destruct (CloseRound_error_sticks coordinator services failing echo (coins 0) [] (from coordinator)
    close_request 0%nat (state_of loaded_server) coordinator filtered_loaded.1 filtered_loaded.2
    second_server GenerateKeyError loaded_server) as (srv' & E & Es).
  - vm_compute. reflexivity.
  - vm_compute. reflexivity.
  - vm_compute. reflexivity.
  - reflexivity.
  - vm_compute. reflexivity.
  - vm_compute. reflexivity.
  - vm_compute. reflexivity.
  - vm_compute. reflexivity.
  - vm_compute. reflexivity.
  - vm_compute. reflexivity.
  - exact filter_loaded.
  - reflexivity.
  - exists srv'. split; [exact E|]. exact (Es (coins 0) [] (from coordinator) at_coordinator).
Defined.

(** The first server with the round closed, and with its replies encrypted. *)
Definition closed_server : Server :=
  (CloseRound coordinator services echo (coins 0) [] (from coordinator) close_request loaded_server).1.

Definition replied_server : Server :=
  (run_encryption services (λ _, replicate 32 xee) in_order closed_server).1.

Lemma CloseRound_once_witness :
  CloseRound coordinator services failing (coins 0) [] (from coordinator) close_request closed_server =
    (closed_server, Ret (pb.mkCloseRoundResponse "")).
Proof.
  assert (Ha : authenticated (from coordinator) coordinator) by reflexivity.
  rewrite (CloseRound_once coordinator services failing (coins 0) [] (from coordinator) close_request 0%nat
             (state_of closed_server) coordinator closed_server);
    [vm_compute; reflexivity..|exact Ha| |]; vm_compute; reflexivity.
Defined.

Lemma CloseRound_before_settings_deadlocks_witness :
  ∃ srv', CloseRound coordinator services echo (coins 0) [] (from coordinator) close_request (created_server 0) =
      (srv', Block) ∧
    (SetRoundSettings (signing 0) coordinator services (from coordinator)
       (pb.mkSetRoundSettingsRequest (Some round_settings)) srv').2 = Block.
Proof.
  destruct (CloseRound_before_settings_deadlocks coordinator services (signing 0) echo (coins 0) []
    (from coordinator) close_request 0%nat (state_of (created_server 0)) coordinator [] []
    (created_server 0)) as (srv' & E & _ & _ & Hs).
  - vm_compute. reflexivity.
  - vm_compute. reflexivity.
  - vm_compute. reflexivity.
  - reflexivity.
  - vm_compute. reflexivity.
  - vm_compute. reflexivity.
  - vm_compute. reflexivity.
  - vm_compute. reflexivity.
  - vm_compute. reflexivity.
  - exists srv'. split; [exact E|].
    exact (Hs (from coordinator) round_settings (convo_service quiet) inil at_coordinator
             ltac:(repeat constructor) eq_refl eq_refl services_convo eq_refl).
Defined.

Definition encrypting_job : encryptJob := default (mkEncryptJob 0%nat "" 0 []) (head (encryptJobs closed_server)).

Lemma encryptReplies_sealed_witness :
  ∃ sealed st', run_encrypt_job services (λ _, replicate 32 xee) (in_order 2) encrypting_job closed_server =
      (put_round 0%nat st' closed_server, Ret ()) ∧ replies st' = sealed ∧
    Forall (λ reply, length reply = 288)%nat sealed.
Proof.
  destruct (encryptReplies_sealed services (λ _, replicate 32 xee) (in_order 2) encrypting_job
    (state_of closed_server) (convo_service quiet) closed_server) as (sealed & E & _ & Hl & _).
  - replace (encrypt_service encrypting_job) with "Convo" by (vm_compute; reflexivity). exact services_convo.
  - split; [vm_compute; lia|]. intros [|[|i]] v Hv; vm_compute in Hv; [| |done];
      injection Hv as <-; right; vm_compute; split; congruence.
  - vm_compute. lia.
  - vm_compute. reflexivity.
  - vm_compute. reflexivity.
  - exact (in_order_valid 2).
  - vm_compute. reflexivity.
  - exists sealed. eexists. split; [exact E|]. split; [reflexivity|].
    eapply Forall_impl; [exact Hl|]. intros reply Hr. cbv beta in Hr. rewrite Hr. vm_compute. reflexivity.
Defined.

Definition get_request (offset count : Z) : pb.GetOnionsRequest := pb.mkGetOnionsRequest "Convo" 7 offset count.

Lemma GetOnions_serves_range_witness :
  ∃ responses, GetOnions coordinator (from coordinator) (get_request 1 1) replied_server =
      (replied_server, Ret responses) ∧
    mjoin (pb.GetOnions_resp_Onions <$> responses) = drop 1 (replies (state_of replied_server)).
Proof.
  destruct (GetOnions_serves_range coordinator (from coordinator) (get_request 1 1) 0%nat
    (state_of replied_server) coordinator replied_server) as (_ & Hok & _).
  - vm_compute. reflexivity.
  - vm_compute. reflexivity.
  - vm_compute. reflexivity.
  - reflexivity.
  - vm_compute. reflexivity.
  - vm_compute. reflexivity.
  - unfold is_u32. cbn. lia.
  - unfold is_u32. cbn. lia.
  - destruct (Hok ltac:(vm_compute; reflexivity) ltac:(vm_compute; lia)) as (responses & E & Hr & _).
    exists responses. split; [exact E|]. rewrite Hr. vm_compute. reflexivity.
Defined.

Lemma GetOnions_wraparound_panics_witness :
  GetOnions coordinator (from coordinator) (get_request (2 ^ 32 - 1) 2) replied_server = (replied_server, Panic).
Proof.
  apply (GetOnions_wraparound_panics coordinator (from coordinator) (get_request (2 ^ 32 - 1) 2) 0%nat
    (state_of replied_server) coordinator replied_server).
  - vm_compute. reflexivity.
  - vm_compute. reflexivity.
  - vm_compute. reflexivity.
  - reflexivity.
  - vm_compute. reflexivity.
  - vm_compute. reflexivity.
  - vm_compute. reflexivity.
  - unfold is_u32. cbn. lia.
  - unfold is_u32. cbn. lia.
  - cbn. lia.
  - vm_compute. congruence.
Defined.

(** ** Witness: the client *)

(** A server that takes everything and serves fixed replies. *)
Definition fixed_remote (fixed : list bytes) : MixRemote unit := {|
  call_NewRound _ _ := mret (pb.mkNewRoundResponse []);
  call_SetRoundSettings _ _ := mret (pb.mkRoundSettingsSignature []);
  call_AddOnions _ _ _ := mret ();
  call_CloseRound _ _ := mret (pb.mkCloseRoundResponse "");
  call_GetOnions _ req := mret (range_responses fixed (Z.to_nat (pb.GetOnions_Offset req))
                                                      (Z.to_nat (pb.GetOnions_Count req)));
  call_DeleteRound _ _ := throw GenerateKeyError
|}.

Definition fixed_batch_server server service round (onions fixed : list bytes) :
  length fixed = length onions →
  @BatchServer unit (fixed_remote fixed) _ server service round onions fixed ().
Proof.
  intros Hl. refine (@mkBatchServer unit (fixed_remote fixed) _ server service round onions fixed ()
                       (λ _ _, True) (λ _, True) Hl I _ _ _ _).
  - intros. eexists. split; [reflexivity|done].
  - intros. do 2 eexists. split; [reflexivity|done].
  - intros offset count w _ _. exists w. split; [|done]. cbn. by rewrite !Nat2Z.id.
  - intros. do 2 eexists. reflexivity.
Defined.

Definition six : list bytes := [[x01]; [x02]; [x03]; [x04]; [x05]; [x06]].

Lemma RunRoundBidirectional_returns_witness :
  (@RunRoundBidirectional unit (fixed_remote (reverse six)) _ (reverse (addOnions_spans six))
     (addOnions_spans six) true second_server "Convo" 7 six ()).2 = Ret (reverse six).
Proof.
  apply (@RunRoundBidirectional_returns unit (fixed_remote (reverse six)) _ _).
  - apply fixed_batch_server. reflexivity.
  - cbn. lia.
  - apply reverse_Permutation.
  - reflexivity.
Defined.

(** ** Interleavings *)

(** Two streams with one onion each and two workers, at the first server. *)
Definition two_streams : list (list pb.AddOnionsRequest) :=
  [[pb.mkAddOnionsRequest 0 [(seal x11 ma).1]]; [pb.mkAddOnionsRequest 1 [(seal x12 mb).1]]].

Definition two_workers : list worker := [Idle (replicate 32 x00); Idle (replicate 32 x00)].

Definition taking_system : system :=
  start 0%nat (state_of (ready_server 0)) (ready_server 0) two_streams two_workers.

Lemma two_streams_carry : carries batch two_streams.
Proof.
  split.
  - intros reqs req Hr Hq. unfold two_streams in Hr. rewrite !elem_of_cons, elem_of_nil in Hr.
    destruct Hr as [->|[->|[]]]; apply list_elem_of_singleton in Hq as ->.
    + split; [cbn; lia|]. split; [cbn; lia|]. intros [|j] o Ho; [exact Ho|by destruct j].
    + split; [cbn; lia|]. split; [cbn; lia|]. intros [|j] o Ho; [exact Ho|by destruct j].
  - intros [|[|i]] Hi; [| |cbn in Hi; lia].
    + eexists _, _. split; [by left|]. split; [by left|]. unfold covers. cbn. lia.
    + eexists _, _. split; [right; by left|]. split; [by left|]. unfold covers. cbn. lia.
Qed.

(** Nothing runs for ever, and however it ends both onions have been opened. *)
Lemma interleavings_agree_witness :
  let step := sys_step coordinator (from (caller 0)) "Convo" 7 2 in
  Acc (flip step) taking_system ∧
  (∀ s, rtc step taking_system s → sys_final s ∨ ∃ s', step s s') ∧
  ∀ s, rtc step taking_system s → sys_final s →
    incoming (state_of (sys_srv s)) = opened (state_of (ready_server 0)) (ForwardNonce 7) <$> batch ∧
    Forall is_Some (incoming (state_of (sys_srv s))).
Proof.
  intros step. pose proof (hop_at_ok 0 ltac:(lia)) as [Hready Hround [Hjobs _] Hprev Hauth _ _ Hsize _ _ _].
  destruct (@interleavings_agree convo_coins Toy.nacl Toy.shuffle coordinator (from (caller 0)) 0%nat
    (state_of (ready_server 0)) (ready_server 0) "Convo" 7 batch (caller 0) two_streams two_workers)
    as [Hend Hall].
  - exact Hready.
  - exact Hround.
  - exact Hjobs.
  - exact Hprev.
  - exact Hauth.
  - unfold is_u32. lia.
  - cbn. lia.
  - eapply Forall_impl; [exact batch_sizes|]. intros o ->. symmetry. exact Hsize.
  - cbn. lia.
  - apply two_streams_carry.
  - repeat constructor; by eexists.
  - done.
  - split; [exact Hend|]. split; [intros s Hs; by apply Hall|]. intros s Hs Hf.
    destruct (Hall s Hs) as (_ & _ & Hfin & _). rewrite (Hfin Hf).
    unfold state_of at 1 3, put_round, set_store. cbn [store]. rewrite lookup_insert_eq. cbn [default from_option id].
    split; [reflexivity|]. repeat constructor; vm_compute; eauto.
Defined.

(** Two calls of [CloseRound] for one round that both pass the check of [closed] before either
    closes it: the second starts the encryption of the replies again, which closes the
    channel [encryptDone] a second time. *)
Definition close_begin : handler (loc * option pb.CloseRoundResponse) :=
  CloseRound_begin coordinator (from (caller 0)) (pb.mkCloseRoundRequest "Convo" 7).

Definition close_rest (p : loc) : handler unit :=
  CloseRound_filter p;;
  CloseRound_mix services nothing (coins 0) [] p (pb.mkCloseRoundRequest "Convo" 7);;
  run_encryption services (λ _, replicate 32 xee) in_order.

Example one_close : ((r ← close_begin; close_rest r.1) (ready_server 0)).2 = Ret ().
Proof. vm_compute. reflexivity. Qed.

Example two_closes_panic :
  ((r1 ← close_begin; r2 ← close_begin; close_rest r1.1;; close_rest r2.1) (ready_server 0)).2 = Panic.
Proof. vm_compute. reflexivity. Qed.

(** A round closed without onions still has [numIncoming] zero, so that a stream that begins
    afterwards makes it accept onions again. *)
Example closed_round_accepts :
  let srv := ((r ← close_begin; close_rest r.1) (ready_server 0)).1 in
  let '(srv', r) := AddOnions coordinator (from (caller 0)) (Some (addOnions_metadata "Convo" 7 2))
                      [pb.mkAddOnionsRequest 0 batch] srv in
  r = Ret () ∧ closed (state_of srv') = true ∧ acceptingOnions (state_of srv') = true ∧
  length (decryptionJobs srv') = 1%nat.
Proof. vm_compute. done. Qed.
