(* ===== verification/ConvoConfig.v ===== *)
(** * The configuration of the conversation protocol (convo/config.go)

    [ConvoConfig], its first wire version and its validation, and the interface of the
    signed configurations (neverlur/config) that carry one. *)

From Stdlib Require Import ZArith Lia.
From stdpp Require Import base numbers strings list.
From S2P Require Import Prelude Pb Settings.

Definition ConvoConfigVersion : Z := 1.

Record CoordinatorConfig := mkCoordinatorConfig { coord_Key : bytes; coord_Address : string }.

Record ConvoConfig := mkConvoConfig {
  Version : Z;
  Coordinator : CoordinatorConfig;
  MixServers : list PublicServerConfig
}.

Definition UseLatestVersion (c : ConvoConfig) : ConvoConfig :=
  mkConvoConfig ConvoConfigVersion (Coordinator c) (MixServers c).

(** ** Version 1 *)

Record keyAddr := mkKeyAddr { ka_Key : bytes; ka_Address : string }.

Record convoV1 := mkConvoV1 {
  v1_Version : Z;
  v1_Coordinator : keyAddr;
  v1_MixServers : option (list keyAddr)     (* [None] is nil *)
}.

Definition v1 (c : ConvoConfig) : convoV1 :=
  mkConvoV1 1 (mkKeyAddr (coord_Key (Coordinator c)) (coord_Address (Coordinator c)))
    (Some ((λ srv, mkKeyAddr (Key srv) (Address srv)) <$> MixServers c)).

Definition fromV1 (c1 : convoV1) : ConvoConfig :=
  mkConvoConfig 1 (mkCoordinatorConfig (ka_Key (v1_Coordinator c1)) (ka_Address (v1_Coordinator c1)))
    ((λ srv, mkPublicServerConfig (ka_Key srv) (ka_Address srv)) <$> default [] (v1_MixServers c1)).

Lemma fromV1_v1 c : fromV1 (v1 c) = UseLatestVersion c.
Proof.
  unfold fromV1, v1, UseLatestVersion. cbn. destruct c as [ver [k a] servers]. cbn. f_equal.
  rewrite <- list_fmap_compose. rewrite <- (list_fmap_id servers) at 2.
  apply list_fmap_ext. by intros i [].
Qed.

(** ** Validation *)

Inductive config_error :=
| InvalidCoordinatorKey (key : bytes)
| EmptyCoordinatorAddress
| NoMixServers
| InvalidMixerKey (i : nat) (key : bytes)
| EmptyMixerAddress (i : nat).

Fixpoint validate_servers (i : nat) (servers : list PublicServerConfig) : outcome config_error unit :=
  match servers with
  | [] => Ret ()
  | mix :: servers =>
      if decide (length (Key mix) ≠ PublicKeySize) then Err (InvalidMixerKey i (Key mix))
      else if decide (Address mix = "") then Err (EmptyMixerAddress i)
      else validate_servers (S i) servers
  end.

Definition Validate (c : ConvoConfig) : outcome config_error unit :=
  if decide (length (coord_Key (Coordinator c)) ≠ PublicKeySize)
  then Err (InvalidCoordinatorKey (coord_Key (Coordinator c)))
  else if decide (coord_Address (Coordinator c) = "") then Err EmptyCoordinatorAddress
  else if decide (length (MixServers c) = 0)%nat then Err NoMixServers
  else validate_servers 0 (MixServers c).

Lemma validate_servers_ok i servers :
  validate_servers i servers = Ret () ↔
  Forall (λ m, length (Key m) = PublicKeySize ∧ Address m ≠ "") servers.
Proof.
  revert i. induction servers as [|m servers IH]; intros i; cbn [validate_servers].
  - split; [constructor|done].
  - rewrite Forall_cons. destruct (decide (length (Key m) ≠ PublicKeySize)) as [|Hk]; [split; [done|tauto]|].
    destruct (decide (Address m = "")); [split; [done|tauto]|]. rewrite IH.
    apply dec_stable in Hk. tauto.
Qed.

(** A configuration that passes has a coordinator and mixers with keys of the right size and
    addresses, and at least one mixer. *)
Lemma Validate_ok c :
  Validate c = Ret () ↔
  length (coord_Key (Coordinator c)) = PublicKeySize ∧ coord_Address (Coordinator c) ≠ "" ∧
  MixServers c ≠ [] ∧
  Forall (λ m, length (Key m) = PublicKeySize ∧ Address m ≠ "") (MixServers c).
Proof.
  unfold Validate.
  destruct (decide (length (coord_Key (Coordinator c)) ≠ PublicKeySize)); [split; [done|tauto]|].
  destruct (decide (coord_Address (Coordinator c) = "")); [split; [done|tauto]|].
  destruct (decide (length (MixServers c) = 0)%nat) as [E|E].
  - apply nil_length_inv in E. split; [done|tauto].
  - rewrite validate_servers_ok. assert (MixServers c ≠ []) by (intros E'; by rewrite E' in E).
    split; [|tauto]. intros HF. split; [by apply dec_stable|done].
Qed.

(** ** Signed configurations *)

(** The dynamic type of the [Inner] field. *)
Inductive config_inner :=
| InnerConvo (c : ConvoConfig)
| InnerOther.

(** neverlur/config: [Hash] identifies a signed configuration, [Guardians] lists the keys
    of those who may sign. *)
Class SignedConfigs := {
  SignedConfig : Type;
  config_Hash : SignedConfig → string;
  config_Inner : SignedConfig → config_inner;
  config_Guardians : SignedConfig → list bytes
}.

(** The type assertion that [Inner] holds a [ConvoConfig]. *)
Definition as_ConvoConfig (i : config_inner) : option ConvoConfig :=
  match i with InnerConvo c => Some c | InnerOther => None end.
