(* ===== verification/ConfigJson.v ===== *)
(** * The JSON of the configuration

    convo/config.go ([MarshalJSON], [UnmarshalJSON], [getVersionFromJSON]) and the encoders
    and decoders that easyjson generated (convo/convo_easyjson.go,
    mixnet/mixnet_easyjson.go). The packages jlexer and jwriter of easyjson are the classes
    [Jlexer] and [Jwriter], with laws that say which tokens they read and write; code that
    reads from a lexer has the lexer as its state. [value_convoV1] and its like say what the
    decoders do on a parsed value; that they do it is proved in [ConfigDecode]. *)

From Stdlib Require Import ZArith Lia.
From stdpp Require Import base numbers strings sets list.
From S2P Require Import Prelude GoStd Json GoStrings JsonText JsonFacts Pb Settings ConvoConfig Wp.

(** ** easyjson *)

(** What the methods of a [jwriter.Writer] append to its buffer; [RawByte] and [RawString]
    append their argument. *)
Class Jwriter := {
  jw_String : string → bytes;
  jw_Base32Bytes : bytes → bytes;
  jw_Int : Z → bytes
}.

(** A [jlexer.Lexer] and its methods; [base32_decode] is the encoding [BytesReadable]
    reads, [lex_Error] tells whether [Error] returns an error. *)
Class Jlexer := {
  lexer : Type;
  NewLexer : bytes → lexer;
  IsStart : lexer → bool;
  IsNull : lexer → lexer * bool;
  IsDelim : delim → lexer → lexer * bool;
  Consumed : lexer → lexer;
  Skip : lexer → lexer;
  SkipRecursive : lexer → lexer;
  Delim : delim → lexer → lexer;
  WantColon : lexer → lexer;
  WantComma : lexer → lexer;
  UnsafeString : lexer → lexer * bytes;
  lex_String : lexer → lexer * bytes;
  BytesReadable : lexer → lexer * bytes;
  lex_Int : lexer → lexer * Z;
  lex_Error : lexer → bool;
  base32_decode : bytes → option bytes
}.

(** ** Records of a key and an address

    [keyAddr], [CoordinatorConfig] and [PublicServerConfig] have the same generated code. *)

Class KeyAddressed (R : Type) := {
  make : bytes → string → R;
  key_of : R → bytes;
  address_of : R → string;
  key_of_make k a : key_of (make k a) = k;
  make_of x : make (key_of x) (address_of x) = x
}.

#[export] Program Instance keyAddr_record : KeyAddressed keyAddr :=
  {| make := mkKeyAddr; key_of := ka_Key; address_of := ka_Address |}.
Solve All Obligations with done || by intros [].
#[export] Program Instance CoordinatorConfig_record : KeyAddressed CoordinatorConfig :=
  {| make := mkCoordinatorConfig; key_of := coord_Key; address_of := coord_Address |}.
Solve All Obligations with done || by intros [].
#[export] Program Instance PublicServerConfig_record : KeyAddressed PublicServerConfig :=
  {| make := mkPublicServerConfig; key_of := Key; address_of := Address |}.
Solve All Obligations with done || by intros [].

(** ** Encoding *)

Section encoding.
Context `{Jwriter}.

(** A comma, unless it is the first field, and the name. *)
Definition field_name (first : bool) (name : string) : bytes :=
  (if first then [] else [x2c]) ++ [x22] ++ str name ++ [x22; x3a].

Definition encode_record `{KeyAddressed R} (v : R) : bytes :=
  [x7b] ++ field_name true "Key" ++ jw_Base32Bytes (key_of v) ++
  field_name false "Address" ++ jw_String (address_of v) ++ [x7d].

Definition easyjsonEncodeKeyAddr : keyAddr → bytes := encode_record.
Definition easyjsonEncodeCoordinatorConfig : CoordinatorConfig → bytes := encode_record.
Definition easyjsonEncodePublicServerConfig : PublicServerConfig → bytes := encode_record.

(** The elements of a slice from the [i]-th. *)
Fixpoint encode_servers (i : nat) (servers : list keyAddr) : bytes :=
  match servers with
  | [] => []
  | v :: servers =>
      (if decide (0 < i)%nat then [x2c] else []) ++ easyjsonEncodeKeyAddr v ++
      encode_servers (S i) servers
  end.

Definition easyjsonEncodeConvoV1 (v : convoV1) : bytes :=
  [x7b] ++ field_name true "Version" ++ jw_Int (v1_Version v) ++
  field_name false "Coordinator" ++ easyjsonEncodeKeyAddr (v1_Coordinator v) ++
  field_name false "MixServers" ++
  match v1_MixServers v with
  | None => str "null"
  | Some servers => [x5b] ++ encode_servers 0 servers ++ [x5d]
  end ++ [x7d].

(** The [MarshalJSON] methods: the writer has no error. *)
Definition keyAddr_MarshalJSON (v : keyAddr) : bytes := easyjsonEncodeKeyAddr v.
Definition CoordinatorConfig_MarshalJSON (v : CoordinatorConfig) : bytes := easyjsonEncodeCoordinatorConfig v.
Definition PublicServerConfig_MarshalJSON (v : PublicServerConfig) : bytes := easyjsonEncodePublicServerConfig v.
Definition convoV1_MarshalJSON (v : convoV1) : bytes := easyjsonEncodeConvoV1 v.
End encoding.

(** ** Decoding *)

(** Code that reads from a lexer. *)
Abbreviation reader := (go lexer unit).

Section decoding.
Context `{Jlexer}.

(** A method that returns something, and one that does not. *)
Definition ask {A} (f : lexer → lexer * A) : reader A := λ l, ((f l).1, Ret (f l).2).
Definition tell (f : lexer → lexer) : reader unit := modify f.

(** The loop over the members of an object; [field] stores the value of a key. [fuel]
    bounds the turns. *)
Fixpoint decode_members {R} (fuel : nat) (field : bytes → R → reader R) (out : R) : reader R :=
  match fuel with
  | O => block
  | S fuel =>
      done ← ask (IsDelim RBrace);
      if done : bool then mret out
      else
        key ← ask UnsafeString;
        tell WantColon;;
        null ← ask IsNull;
        out ← (if null : bool then tell Skip;; mret out else field key out);
        tell WantComma;;
        decode_members fuel field out
  end.

(** A generated decoder around its loop. *)
Definition decode_struct {R} (fuel : nat) (field : bytes → R → reader R) (out : R) : reader R :=
  l ← get;
  let isTopLevel := IsStart l in
  null ← ask IsNull;
  if null : bool then
    (if isTopLevel then tell Consumed else mret ());;
    tell Skip;;
    mret out
  else
    tell (Delim LBrace);;
    out ← decode_members fuel field out;
    tell (Delim RBrace);;
    (if isTopLevel then tell Consumed else mret ());;
    mret out.

Definition record_field `{KeyAddressed R} (key : bytes) (out : R) : reader R :=
  if decide (key = str "Key") then
    null ← ask IsNull;
    if null : bool then tell Skip;; mret (make [] (address_of out))
    else k ← ask BytesReadable; mret (make k (address_of out))
  else if decide (key = str "Address") then
    a ← ask lex_String;
    mret (make (key_of out) (to_string a))
  else tell SkipRecursive;; mret out.

Definition decode_record `{KeyAddressed R} (fuel : nat) (out : R) : reader R :=
  decode_struct fuel record_field out.

Definition easyjsonDecodeKeyAddr : nat → keyAddr → reader keyAddr := decode_record.
Definition easyjsonDecodeCoordinatorConfig : nat → CoordinatorConfig → reader CoordinatorConfig :=
  decode_record.
Definition easyjsonDecodePublicServerConfig : nat → PublicServerConfig → reader PublicServerConfig :=
  decode_record.

(** The loop over the elements of [MixServers], with those decoded so far. *)
Fixpoint decode_servers (fuel : nat) (servers : list keyAddr) : reader (list keyAddr) :=
  match fuel with
  | O => block
  | S n =>
      done ← ask (IsDelim RBracket);
      if done : bool then mret servers
      else
        v ← easyjsonDecodeKeyAddr fuel (mkKeyAddr [] "");
        tell WantComma;;
        decode_servers n (servers ++ [v])
  end.

Definition convoV1_field (fuel : nat) (key : bytes) (out : convoV1) : reader convoV1 :=
  if decide (key = str "Version") then
    n ← ask lex_Int;
    mret (mkConvoV1 n (v1_Coordinator out) (v1_MixServers out))
  else if decide (key = str "Coordinator") then
    c ← easyjsonDecodeKeyAddr fuel (v1_Coordinator out);
    mret (mkConvoV1 (v1_Version out) c (v1_MixServers out))
  else if decide (key = str "MixServers") then
    null ← ask IsNull;
    if null : bool then tell Skip;; mret (mkConvoV1 (v1_Version out) (v1_Coordinator out) None)
    else
      tell (Delim LBracket);;
      match v1_MixServers out with
      | None => _ ← ask (IsDelim RBracket); mret ()
      | Some _ => mret ()
      end;;
      servers ← decode_servers fuel [];
      tell (Delim RBracket);;
      mret (mkConvoV1 (v1_Version out) (v1_Coordinator out) (Some servers))
  else tell SkipRecursive;; mret out.

Definition easyjsonDecodeConvoV1 (fuel : nat) (out : convoV1) : reader convoV1 :=
  decode_struct fuel (convoV1_field fuel) out.

(** The [UnmarshalJSON] methods: an error if the lexer has one. Every turn of a loop reads a
    token at least, and a token has a byte at least. *)
Definition lexer_UnmarshalJSON {R} (decode : nat → R → reader R) (data : bytes) (out : R)
    : outcome unit R :=
  let '(l, r) := decode (S (length data)) out (NewLexer data) in
  out ← r;
  if lex_Error l then Err () else Ret out.

Definition keyAddr_UnmarshalJSON := lexer_UnmarshalJSON easyjsonDecodeKeyAddr.
Definition CoordinatorConfig_UnmarshalJSON := lexer_UnmarshalJSON easyjsonDecodeCoordinatorConfig.
Definition PublicServerConfig_UnmarshalJSON := lexer_UnmarshalJSON easyjsonDecodePublicServerConfig.
Definition convoV1_UnmarshalJSON := lexer_UnmarshalJSON easyjsonDecodeConvoV1.

End decoding.

(** ** convo/config.go *)

Inductive json_error :=
| SyntaxError
| UnmarshalTypeError                 (* a version that is no integer *)
| LexerError
| MarshalerError
| UnknownVersion (version : Z).

(** [json.Unmarshal] and [json.Marshal] with a type that has [UnmarshalJSON] or [MarshalJSON]. *)
Definition json_Unmarshal {R} (unmarshal : bytes → R → outcome unit R) (data : bytes) (out : R)
    : outcome json_error R :=
  match parse_json data with
  | None => Err SyntaxError
  | Some _ =>
      match unmarshal (value_text data) out with
      | Ret out => Ret out
      | Err _ => Err LexerError
      | Panic => Panic
      | Block => Block
      end
  end.

Definition json_Marshal {R} (marshal : R → bytes) (v : R) : outcome json_error bytes :=
  match compact (marshal v) with
  | Some data => Ret data
  | None => Err MarshalerError
  end.

Definition getVersionFromJSON (data : bytes) : outcome json_error Z :=
  match parse_json data with
  | None => Err SyntaxError
  | Some _ =>
      match unmarshal_int "Version" data with
      | Some version => Ret version
      | None => Err UnmarshalTypeError
      end
  end.

Definition MarshalJSON `{Jwriter} (c : ConvoConfig) : outcome json_error bytes :=
  if decide (Version c = 1) then json_Marshal convoV1_MarshalJSON (v1 c)
  else Err (UnknownVersion (Version c)).

(** The error names the version of [c], which is still what it was before. *)
Definition UnmarshalJSON `{Jlexer} (data : bytes) (c : ConvoConfig) : outcome json_error ConvoConfig :=
  version ← getVersionFromJSON data;
  if decide (version = 1) then
    c1 ← json_Unmarshal convoV1_UnmarshalJSON data (mkConvoV1 0 (mkKeyAddr [] "") None);
    Ret (fromV1 c1)
  else Err (UnknownVersion (Version c)).

(** ** What easyjson promises *)

(** The writers write JSON: a string whose text is UTF-8, bytes that [BytesReadable] reads
    back, a number in decimal. *)
Class JwriterLaws `{Jwriter} `{Jlexer} : Prop := {
  jw_String_reads s rest : valid_utf8 (str s) = true →
    lex_token true (jw_String s ++ rest) = Some (TString (str s), rest);
  jw_Base32Bytes_reads k : ∃ t, base32_decode t = Some k ∧
    ∀ rest, lex_token true (jw_Base32Bytes k ++ rest) = Some (TString t, rest);
  jw_Int_eq n : 0 <= n → jw_Int n = json_number n
}.

(** A lexer reads the tokens of a well encoded text: [starts l ts] is a new lexer before the
    tokens [ts], [reads l ts] one that has read something, [failed l] one that met something
    else than what was asked for; then every loop ends and [Error] tells. Colons are read by
    [WantColon]; [WantComma] reads a comma or sees that a bracket follows. *)
Class JlexerLaws `{Jlexer} := {
  starts : lexer → list token → Prop;
  reads : lexer → list token → Prop;
  failed : lexer → Prop;
  NewLexer_starts data ts : lexes data ts → starts (NewLexer data) ts;
  starts_IsStart l ts : starts l ts → IsStart l = true;
  starts_IsNull l t ts : starts l (t :: ts) →
    reads (IsNull l).1 (t :: ts) ∧ (IsNull l).2 = bool_decide (t = TNull);
  reads_IsStart l ts : reads l ts → IsStart l = false;
  reads_IsNull l t ts : reads l (t :: ts) →
    reads (IsNull l).1 (t :: ts) ∧ (IsNull l).2 = bool_decide (t = TNull);
  reads_IsDelim d l t ts : reads l (t :: ts) →
    reads (IsDelim d l).1 (t :: ts) ∧ (IsDelim d l).2 = bool_decide (t = TDelim d);
  reads_Delim d l t ts : reads l (t :: ts) →
    if decide (t = TDelim d) then reads (Delim d l) ts else failed (Delim d l);
  reads_Skip l t ts : reads l (t :: ts) → reads (Skip l) ts;
  reads_SkipRecursive l n d ts v r :
    reads l ts → parse_value n d ts = Some (v, r) → reads (SkipRecursive l) r;
  reads_WantColon l ts : reads l (TColon :: ts) → reads (WantColon l) ts;
  reads_WantComma l ts : reads l (TComma :: ts) → reads (WantComma l) ts;
  reads_WantComma_end l d ts : reads l (TDelim d :: ts) → reads (WantComma l) (TDelim d :: ts);
  reads_UnsafeString l s ts : reads l (TString s :: ts) →
    reads (UnsafeString l).1 ts ∧ (UnsafeString l).2 = s;
  reads_String l t ts : reads l (t :: ts) →
    match t with
    | TString s => reads (lex_String l).1 ts ∧ (lex_String l).2 = s
    | _ => failed (lex_String l).1
    end;
  reads_BytesReadable l t ts : reads l (t :: ts) →
    match t with
    | TString s => match base32_decode s with
                   | Some k => reads (BytesReadable l).1 ts ∧ (BytesReadable l).2 = k
                   | None => failed (BytesReadable l).1
                   end
    | _ => failed (BytesReadable l).1
    end;
  reads_Int l t ts : reads l (t :: ts) →
    match t with
    | TNumber lit => match ParseInt (to_string lit) with
                     | Some n => reads (lex_Int l).1 ts ∧ (lex_Int l).2 = n
                     | None => failed (lex_Int l).1
                     end
    | _ => failed (lex_Int l).1
    end;
  reads_Consumed l : reads l [] → reads (Consumed l) [];
  null_Consumed l : starts l [TNull] → reads (Consumed (IsNull l).1) [TNull];
  reads_Error l ts : reads l ts → lex_Error l = false;
  failed_Error l : failed l → lex_Error l = true;
  failed_IsStart l : failed l → IsStart l = false;
  failed_IsDelim d l : failed l → failed (IsDelim d l).1 ∧ (IsDelim d l).2 = true;
  failed_IsNull l : failed l → failed (IsNull l).1;
  failed_ask l : failed l →
    failed (UnsafeString l).1 ∧ failed (lex_String l).1 ∧ failed (BytesReadable l).1 ∧ failed (lex_Int l).1;
  failed_tell l : failed l →
    failed (Consumed l) ∧ failed (Skip l) ∧ failed (SkipRecursive l) ∧ failed (WantColon l) ∧
    failed (WantComma l) ∧ ∀ d, failed (Delim d l)
}.

(** ** The decoders on values

    What the decoders do, said on a parsed value: [None] is an error. A null leaves the
    value as it is, unknown members are ignored, a member that comes twice counts twice. *)

Section values.
Context `{Jlexer}.

Fixpoint value_members {R} (field : bytes → jvalue → R → option R) (kvs : list (bytes * jvalue)) (out : R)
    : option R :=
  match kvs with
  | [] => Some out
  | (k, v) :: kvs =>
      out ← (match v with JNull => Some out | _ => field k v out end);
      value_members field kvs out
  end.

Definition value_struct {R} (field : bytes → jvalue → R → option R) (v : jvalue) (out : R) : option R :=
  match v with
  | JNull => Some out
  | JObject kvs => value_members field kvs out
  | _ => None
  end.

Definition value_record_field `{KeyAddressed R} (k : bytes) (v : jvalue) (out : R) : option R :=
  if decide (k = str "Key") then
    match v with JString s => (λ k, make k (address_of out)) <$> base32_decode s | _ => None end
  else if decide (k = str "Address") then
    match v with JString s => Some (make (key_of out) (to_string s)) | _ => None end
  else Some out.

Definition value_record `{KeyAddressed R} : jvalue → R → option R := value_struct value_record_field.

Definition value_convoV1_field (k : bytes) (v : jvalue) (out : convoV1) : option convoV1 :=
  if decide (k = str "Version") then
    match v with
    | JNumber lit => (λ n, mkConvoV1 n (v1_Coordinator out) (v1_MixServers out)) <$> ParseInt (to_string lit)
    | _ => None
    end
  else if decide (k = str "Coordinator") then
    (λ c, mkConvoV1 (v1_Version out) c (v1_MixServers out)) <$> value_record v (v1_Coordinator out)
  else if decide (k = str "MixServers") then
    match v with
    | JArray vs =>
        (λ servers, mkConvoV1 (v1_Version out) (v1_Coordinator out) (Some servers)) <$>
        mapM (λ v, value_record v (mkKeyAddr [] "")) vs
    | _ => None
    end
  else Some out.

Definition value_convoV1 : jvalue → convoV1 → option convoV1 := value_struct value_convoV1_field.

(** What [UnmarshalJSON] does with a text of value [v]. *)
Definition config_of_value (v : jvalue) (c : ConvoConfig) : outcome json_error ConvoConfig :=
  match int_field "Version" v with
  | None => Err UnmarshalTypeError
  | Some version =>
      if decide (version = 1) then
        match value_convoV1 v (mkConvoV1 0 (mkKeyAddr [] "") None) with
        | Some c1 => Ret (fromV1 c1)
        | None => Err LexerError
        end
      else Err (UnknownVersion (Version c))
  end.
End values.
