(* ===== verification/ConfigDecode.v ===== *)
(** * The decoders of the configuration read what its JSON says

    A generated decoder reads the tokens of any well encoded text as the value of the text
    says ([decode_struct_agrees], by induction on what the parser accepts): it ends, it
    fails exactly where the value does not fit, and duplicates, nulls and unknown members
    come out as in [ConfigJson.value_convoV1]. With the tokens that the encoders write this
    gives the round trip of a configuration. *)

From Stdlib Require Import ZArith Lia.
From stdpp Require Import base numbers strings sets list.
From S2P Require Import Prelude GoStd Json GoStrings JsonText JsonFacts Pb Settings ConvoConfig Wp ConfigJson.

(** ** The decoders read what the value says *)

Section agreement.
Context `{JlexerLaws}.

(** [m] returns from [l], in a lexer that failed. *)
Definition fails {A} (m : reader A) (l : lexer) : Prop := ∃ l' a, m l = (l', Ret a) ∧ failed l'.

(** [m] returns what [o] says and leaves the tokens [r], or fails where [o] is an error. *)
Definition agrees {A} (m : reader A) (l : lexer) (o : option A) (r : list token) : Prop :=
  match o with
  | Some a => ∃ l', m l = (l', Ret a) ∧ reads l' r
  | None => fails m l
  end.

Lemma fails_bind {A B} (m : reader A) (f : A → reader B) l :
  fails m l → (∀ a l', failed l' → fails (f a) l') → fails (m ≫= f) l.
Proof.
  intros (l' & a & E & Hl) Hf. destruct (Hf a l' Hl) as (l2 & b & E2 & Hl2). exists l2, b.
  split; [|done]. by rewrite go_bind_unfold, E.
Qed.

Lemma agrees_bind {A B} (m : reader A) (f : A → reader B) l o g r r' :
  agrees m l o r → (∀ a l', reads l' r → agrees (f a) l' (g a) r') →
  (∀ a l', failed l' → fails (f a) l') → agrees (m ≫= f) l (o ≫= g) r'.
Proof.
  intros Hm Hf Hn. destruct o as [a|]; cbn in *.
  - destruct Hm as (l' & E & Hl). specialize (Hf a l' Hl). destruct (g a) as [b|]; cbn in *.
    + destruct Hf as (l2 & E2 & Hl2). exists l2. split; [|done]. by rewrite go_bind_unfold, E.
    + destruct Hf as (l2 & b & E2 & Hl2). exists l2, b. split; [|done]. by rewrite go_bind_unfold, E.
  - by apply fails_bind.
Qed.

Lemma fails_ret {A} (a : A) l : failed l → fails (mret a) l.
Proof. intros Hl. by exists l, a. Qed.

Lemma fails_tell f l : failed (f l) → fails (tell f) l.
Proof. intros Hl. by exists (f l), (). Qed.

Lemma fails_ask {A} (f : lexer → lexer * A) l : failed (f l).1 → fails (ask f) l.
Proof. intros Hl. by exists (f l).1, (f l).2. Qed.

(** Whatever follows a failure fails. *)
Ltac failed_now :=
  match goal with
  | Hl : failed ?l |- _ =>
      first [ exact Hl | exact (failed_IsNull _ Hl) | exact (proj1 (failed_IsDelim _ _ Hl))
            | destruct (failed_ask _ Hl) as (? & ? & ? & ?); assumption
            | destruct (failed_tell _ Hl) as (? & ? & ? & ? & ? & ?); by auto ]
  end.

Ltac keep_failing :=
  repeat match goal with
  | |- fails (mret _) _ => apply fails_ret; failed_now
  | |- fails (_ ≫= _) _ => apply fails_bind; [|intros ? ? ?]
  | |- fails (tell _) _ => apply fails_tell; failed_now
  | |- fails (ask _) _ => apply fails_ask; failed_now
  | |- fails (match _ with _ => _ end) _ => case_match
  end.

Lemma decode_members_fails {R} fuel field (out : R) l :
  failed l → fails (decode_members (S fuel) field out) l.
Proof.
  intros Hl. cbn [decode_members]. apply (failed_IsDelim RBrace) in Hl as [Hl Hd].
  exists (IsDelim RBrace l).1, out. split; [|done]. rewrite go_bind_unfold. cbn. by rewrite Hd.
Qed.

Lemma decode_struct_fails {R} fuel field (out : R) l :
  failed l → fails (decode_struct (S fuel) field out) l.
Proof.
  intros Hl. unfold decode_struct. apply (fails_bind get); [by exists l, l|]. clear l Hl. intros l0 l Hl.
  keep_failing. by apply decode_members_fails.
Qed.

Lemma record_field_fails `{KeyAddressed R} k (out : R) l : failed l → fails (record_field k out) l.
Proof. intros Hl. unfold record_field. keep_failing. Qed.

Lemma decode_servers_fails fuel servers l : failed l → fails (decode_servers (S fuel) servers) l.
Proof.
  intros Hl. cbn [decode_servers]. apply (failed_IsDelim RBracket) in Hl as [Hl Hd].
  exists (IsDelim RBracket l).1, servers. split; [|done]. rewrite go_bind_unfold. cbn. by rewrite Hd.
Qed.

Lemma convoV1_field_fails fuel k out l : failed l → fails (convoV1_field (S fuel) k out) l.
Proof.
  intros Hl. unfold convoV1_field. keep_failing; first [by apply decode_struct_fails|by apply decode_servers_fails].
Qed.

(** Reading, step by step. *)
Lemma agrees_ask {A B} (f : lexer → lexer * A) (k : A → reader B) l o r :
  agrees (k (f l).2) (f l).1 o r → agrees (ask f ≫= k) l o r.
Proof. done. Qed.

Lemma agrees_get {B} (k : lexer → reader B) l o r : agrees (k l) l o r → agrees (get ≫= k) l o r.
Proof. done. Qed.

Lemma agrees_tell {B} f (k : unit → reader B) l o r :
  agrees (k ()) (f l) o r → agrees (tell f ≫= k) l o r.
Proof. done. Qed.

Lemma agrees_ret {A} (a : A) l r : reads l r → agrees (mret a) l (Some a) r.
Proof. intros Hl. by exists l. Qed.

Lemma agrees_fails {A} (m : reader A) l r : fails m l → agrees m l None r.
Proof. done. Qed.

(** A method that reads one token. *)
Lemma agrees_read {A B} (f : lexer → lexer * A) (g : A → B) l (o : option A) r :
  match o with Some a => reads (f l).1 r ∧ (f l).2 = a | None => failed (f l).1 end →
  agrees (x ← ask f; mret (g x)) l (g <$> o) r.
Proof.
  destruct o as [a|]; cbn.
  - intros [Hl <-]. by exists (f l).1.
  - intros Hl. by exists (f l).1, (g (f l).2).
Qed.

(** What a decoder of members relies on: it stores every value that is not null as [vfield]
    says. [bound] bounds the tokens. *)
Definition stores {R} (bound : nat) (field : bytes → R → reader R)
    (vfield : bytes → jvalue → R → option R) : Prop :=
  (∀ k v out n d ts r l, v ≠ JNull → parse_value n d ts = Some (v, r) → (length ts < bound)%nat →
     reads l ts → agrees (field k out) l (vfield k v out) r) ∧
  ∀ k out l, failed l → fails (field k out) l.

Definition is_null (v : jvalue) : bool := match v with JNull => true | _ => false end.

Lemma head_null n d ts v r :
  parse_value n d ts = Some (v, r) → ∃ t ts', ts = t :: ts' ∧ bool_decide (t = TNull) = is_null v.
Proof.
  intros E%parse_value_inv. destruct v; try (destruct E as (ts' & -> & _)); try subst ts;
    eexists _, _; by split.
Qed.

Lemma decode_members_agrees {R} bound (field : bytes → R → reader R) vfield n :
  stores bound field vfield → ∀ d ts kvs r l fuel out,
  parse_members n d ts = Some (kvs, r) → (length ts < fuel)%nat → (length ts < bound)%nat → reads l ts →
  agrees (decode_members fuel field out) l (value_members vfield kvs out) (TDelim RBrace :: r).
Proof.
  intros [Hst Hfl]. induction n as [|n IH]; intros d ts kvs r l fuel out E Hf Hb Hl; [done|].
  destruct fuel as [|fuel]; [lia|]. cbn [parse_members] in E.
  destruct ts as [|[[]| | |key| | |] [|[[]| | | | | |] ts]]; try done. cbn [length] in *.
  destruct (parse_value n d ts) as [[v k]|] eqn:Ev; [|done]. cbn [mbind option_bind] in E.
  pose proof (proj1 (proj1 (parse_fuel n) _ _ _ _ Ev)) as Hk.
  cbn [decode_members]. apply agrees_ask.
  apply (reads_IsDelim RBrace) in Hl as [Hl ->]. rewrite bool_decide_eq_false_2 by done.
  apply agrees_ask. apply reads_UnsafeString in Hl as [Hl ->]. apply agrees_tell.
  apply reads_WantColon in Hl. apply agrees_ask.
  destruct (head_null _ _ _ _ _ Ev) as (t & ts' & -> & Ht).
  apply reads_IsNull in Hl as [Hl ->]. rewrite Ht. clear Ht.
  assert (Hnext : ∀ out l, reads l k → agrees (tell WantComma;; decode_members fuel field out) l
    (match k with TComma :: _ => value_members vfield (tail kvs) out | _ => Some out end)
    (TDelim RBrace :: r)).
  { intros out' l' Hl'. apply agrees_tell. destruct k as [|[[]| | | | | |] k]; try done.
    - injection E as <- <-. apply reads_WantComma_end in Hl'. destruct fuel as [|fuel]; [cbn in *; lia|].
      cbn [decode_members]. apply agrees_ask. apply (reads_IsDelim RBrace) in Hl' as [Hl' ->].
      rewrite bool_decide_eq_true_2 by done. by apply agrees_ret.
    - destruct (parse_members n d k) as [[kvs' k']|] eqn:Em; [|done]. injection E as <- <-.
      apply reads_WantComma in Hl'. cbn in *. eapply IH; [done|lia..|done]. }
  assert (Ekvs : ∃ kvs', kvs = (key, v) :: kvs' ∧
    ∀ out, match k with TComma :: _ => value_members vfield (tail kvs) out | _ => Some out end =
           value_members vfield kvs' out).
  { destruct k as [|[[]| | | | | |] k]; try done; [injection E as <- <-; by exists []|].
    destruct (parse_members n d k) as [[kvs' k']|]; [|done]. injection E as <- <-. by exists kvs'. }
  destruct Ekvs as (kvs' & -> & Ekvs). cbn [value_members].
  eapply agrees_bind; [|intros out' l' Hl'; rewrite <- Ekvs; by apply Hnext|].
  - destruct (is_null v) eqn:Hv.
    + destruct v; try done. apply parse_value_inv in Ev. injection Ev as -> ->. apply agrees_tell, agrees_ret.
      by eapply reads_Skip.
    + assert (Em : (match v with JNull => Some out | _ => vfield key v out end) = vfield key v out)
        by (by destruct v).
      rewrite Em. eapply Hst; [by intros ->|exact Ev|cbn in *; lia|done].
  - intros out' l' Hl'. apply fails_bind; [apply fails_tell; failed_now|]. intros _ l2 Hl2.
    destruct fuel; [cbn in *; lia|]. by apply decode_members_fails.
Qed.

(** Before a value: inside a text, or at its start when nothing follows. *)
Definition at_value (l : lexer) (ts r : list token) : Prop := reads l ts ∨ (starts l ts ∧ r = []).

Lemma at_value_inv l t ts r :
  at_value l (t :: ts) r →
  reads (IsNull l).1 (t :: ts) ∧ (IsNull l).2 = bool_decide (t = TNull) ∧
  (IsStart l = true → r = [] ∧ (t :: ts = [TNull] → reads (Consumed (IsNull l).1) [TNull])).
Proof.
  intros [Hl|[Hl ->]].
  - pose proof (reads_IsStart _ _ Hl) as Hs. apply reads_IsNull in Hl as [??].
    split; [done|]. split; [done|]. by rewrite Hs.
  - pose proof (null_Consumed l) as Hn. apply starts_IsNull in Hl as Hl'. destruct Hl' as [??].
    split; [done|]. split; [done|]. intros _. split; [done|]. intros E. apply Hn. by rewrite <- E.
Qed.

Lemma value_struct_other {R} (vfield : bytes → jvalue → R → option R) v out :
  is_null v = false → (∀ kvs, v ≠ JObject kvs) → value_struct vfield v out = None.
Proof. destruct v; naive_solver. Qed.

Lemma close_struct {R} (out : R) (top : bool) l r :
  reads l (TDelim RBrace :: r) → (top = true → r = []) →
  agrees (tell (Delim RBrace);; (if top then tell Consumed else mret ());; mret out) l (Some out) r.
Proof.
  intros Hl Ht. apply (reads_Delim RBrace) in Hl. rewrite decide_True in Hl by done. apply agrees_tell.
  destruct top.
  - rewrite Ht in * by done. apply agrees_tell, agrees_ret. by apply reads_Consumed.
  - by apply agrees_ret.
Qed.

Lemma decode_struct_agrees {R} bound fuel (field : bytes → R → reader R) vfield n d ts v r l out :
  stores bound field vfield →
  parse_value n d ts = Some (v, r) → (length ts < fuel)%nat → (length ts ≤ bound)%nat → at_value l ts r →
  agrees (decode_struct fuel field out) l (value_struct vfield v out) r.
Proof.
  intros Hst E Hf Hb Hl. destruct fuel as [|fuel]; [lia|].
  destruct (head_null _ _ _ _ _ E) as (t & ts' & -> & Ht).
  apply at_value_inv in Hl as (Hl & Hn & Hs). rewrite Ht in Hn.
  unfold decode_struct. apply agrees_get, agrees_ask. rewrite Hn. destruct (is_null v) eqn:Ev.
  { destruct v; try done. apply parse_value_inv in E. injection E as -> ->. cbn [value_struct].
    destruct (IsStart l).
    - destruct (Hs eq_refl) as [-> Hc]. apply agrees_tell, agrees_tell, agrees_ret. by eapply reads_Skip, Hc.
    - apply agrees_tell, agrees_ret. by eapply reads_Skip. }
  apply agrees_tell. apply (reads_Delim LBrace) in Hl. case_decide as Hd.
  - subst t. apply parse_value_inv in E. destruct v as [| | | |vs|kvs]; try done; [by destruct E as (? & ? & _)|].
    destruct E as (ts2 & E & Hm). injection E as <-. cbn [value_struct length] in *.
    rewrite <- (right_id_L None (∪) (value_members vfield kvs out)).
    replace (value_members vfield kvs out ∪ None) with (value_members vfield kvs out ≫= Some) by
      by destruct (value_members vfield kvs out).
    eapply agrees_bind; [|intros out' l' Hl'; apply (close_struct out' (IsStart l)); [exact Hl'|tauto]|].
    + destruct Hm as [[-> ->]|[_ [m Em]]].
      * cbn [decode_members value_members]. apply agrees_ask. apply (reads_IsDelim RBrace) in Hl as [Hl ->].
        rewrite bool_decide_eq_true_2 by done. by apply agrees_ret.
      * eapply decode_members_agrees; [done..|lia|lia|done].
    + intros out' l' Hl'. keep_failing.
  - rewrite value_struct_other; [|done|].
    2: { intros kvs ->. apply parse_value_inv in E as (ts2 & E & _). by injection E as -> _. }
    apply agrees_fails. apply fails_bind; [by apply decode_members_fails|]. intros out' l' Hl'. keep_failing.
Qed.

Lemma record_field_stores `{KeyAddressed R} bound : stores bound (record_field (R:=R)) value_record_field.
Proof.
  split; [|intros; by apply record_field_fails].
  intros k v out n d ts r l Hv E _ Hl. unfold record_field, value_record_field.
  destruct (head_null _ _ _ _ _ E) as (t & ts' & -> & Ht).
  assert (Hnull : bool_decide (t = TNull) = false) by (rewrite Ht; by destruct v).
  apply parse_value_inv in E as Ep.
  destruct (decide (k = str "Key")); [|destruct (decide (k = str "Address"))].
  - apply agrees_ask. apply reads_IsNull in Hl as [Hl ->]. rewrite Hnull.
    apply reads_BytesReadable in Hl.
    destruct v; try (destruct Ep as (? & Ep & _)); simplify_eq; try done; try (by apply (agrees_read _ _ _ None)).
    apply agrees_read. by destruct (base32_decode s).
  - apply reads_String in Hl.
    destruct v; try (destruct Ep as (? & Ep & _)); simplify_eq; try done; try (by apply (agrees_read _ _ _ None)).
    by apply (agrees_read _ (λ a, make (key_of out) (to_string a)) _ (Some s)).
  - apply agrees_tell, agrees_ret. by eapply reads_SkipRecursive.
Qed.

Lemma decode_record_agrees `{KeyAddressed R} fuel n d ts v r l (out : R) :
  parse_value n d ts = Some (v, r) → (length ts < fuel)%nat → at_value l ts r →
  agrees (decode_record fuel out) l (value_record v out) r.
Proof. intros E Hf Hl. eapply decode_struct_agrees; [apply (record_field_stores (length ts))|done..]. Qed.

Definition no_server : keyAddr := mkKeyAddr [] "".

Lemma decode_servers_agrees fuel n : ∀ d ts vs r l servers k,
  parse_elems n d ts = Some (vs, r) → (length ts < k)%nat → reads l ts → k = fuel →
  agrees (decode_servers fuel servers) l
    ((servers ++.) <$> mapM (λ v, value_record v no_server) vs) (TDelim RBracket :: r).
Proof.
  revert fuel. induction n as [|n IH]; intros fuel d ts vs r l servers k E Hf Hl ->; [done|].
  destruct fuel as [|fuel]; [lia|]. cbn [parse_elems] in E.
  destruct (parse_value n d ts) as [[v ts2]|] eqn:Ev; [|done]. cbn [mbind option_bind] in E.
  pose proof (proj1 (proj1 (parse_fuel n) _ _ _ _ Ev)) as Hlen.
  assert (Hd : ∀ t ts', ts = t :: ts' → bool_decide (t = TDelim RBracket) = false).
  { intros t ts' ->. apply parse_value_inv in Ev. apply bool_decide_eq_false_2. intros ->.
    destruct v; try destruct Ev as (? & Ev & _); done. }
  cbn [decode_servers]. apply agrees_ask. destruct ts as [|t ts]; [cbn in Hlen; lia|].
  apply (reads_IsDelim RBracket) in Hl as [Hl ->]. rewrite (Hd _ _ eq_refl).
  assert (Evs : ∃ vs', vs = v :: vs' ∧ ∀ out l, reads l ts2 → agrees (tell WantComma;; decode_servers fuel out) l
    ((out ++.) <$> mapM (λ v, value_record v no_server) vs') (TDelim RBracket :: r)).
  { destruct ts2 as [|[[]| | | | | |] ts2]; try done.
    - injection E as <- <-. exists []. split; [done|]. intros out l' Hl'.
      replace (_ <$> _) with (Some out) by (cbn; by rewrite app_nil_r).
      apply agrees_tell. apply reads_WantComma_end in Hl'. destruct fuel as [|fuel]; [cbn in *; lia|].
      cbn [decode_servers]. apply agrees_ask. apply (reads_IsDelim RBracket) in Hl' as [Hl' ->].
      rewrite bool_decide_eq_true_2 by done. by apply agrees_ret.
    - destruct (parse_elems n d ts2) as [[vs' r']|] eqn:Ee; [|done]. injection E as <- <-.
      exists vs'. split; [done|]. intros out l' Hl'. apply agrees_tell. apply reads_WantComma in Hl'.
      eapply IH; [exact Ee| |done|done]. cbn in *. lia. }
  destruct Evs as (vs' & -> & Hnext).
  replace (_ <$> mapM _ (v :: vs')) with (value_record v no_server ≫= λ x,
    ((servers ++ [x]) ++.) <$> mapM (λ v, value_record v no_server) vs').
  2: { cbn. destruct (value_record v no_server) as [x|]; [|done]. cbn.
       destruct (mapM _ vs'); [|done]. cbn. by rewrite <- app_assoc. }
  eapply agrees_bind.
  - eapply decode_record_agrees; [exact Ev|lia|by left].
  - intros x l' Hl'. by apply Hnext.
  - intros x l' Hl'. apply fails_bind; [apply fails_tell; failed_now|]. intros _ l2 Hl2.
    destruct fuel; [cbn in *; destruct ts2; cbn in *; try done; lia|]. by apply decode_servers_fails.
Qed.

Lemma fmap_as_bind {A B} (f : A → B) (o : option A) : f <$> o = o ≫= λ a, Some (f a).
Proof. by destruct o. Qed.

(** What [MixServers] does after its bracket. *)
Definition read_servers (fuel : nat) (out : convoV1) : reader convoV1 :=
  match v1_MixServers out with
  | None => _ ← ask (IsDelim RBracket); mret ()
  | Some _ => mret ()
  end;;
  servers ← decode_servers fuel [];
  tell (Delim RBracket);;
  mret (mkConvoV1 (v1_Version out) (v1_Coordinator out) (Some servers)).

Lemma read_servers_fails fuel out l : failed l → fails (read_servers (S fuel) out) l.
Proof. intros Hl. unfold read_servers. keep_failing. by apply decode_servers_fails. Qed.

Lemma read_servers_agrees fuel d ts vs r l out :
  (ts = TDelim RBracket :: r ∧ vs = []) ∨ (∃ n, parse_elems n d ts = Some (vs, r)) →
  (length ts < S fuel)%nat → reads l ts →
  agrees (read_servers (S fuel) out) l
    ((λ servers, mkConvoV1 (v1_Version out) (v1_Coordinator out) (Some servers)) <$>
     mapM (λ v, value_record v no_server) vs) r.
Proof.
  intros Hp Hf Hl. unfold read_servers.
  assert (Hskip : ∀ l', reads l' ts → agrees (servers ← decode_servers (S fuel) []; tell (Delim RBracket);;
      mret (mkConvoV1 (v1_Version out) (v1_Coordinator out) (Some servers))) l'
    ((λ servers, mkConvoV1 (v1_Version out) (v1_Coordinator out) (Some servers)) <$>
      mapM (λ v, value_record v no_server) vs) r).
  { clear l Hl. intros l Hl. rewrite fmap_as_bind. eapply (agrees_bind _ _ _ _ _ (TDelim RBracket :: r)).
    - destruct Hp as [[-> ->]|[n E]].
      + cbn [decode_servers]. apply agrees_ask. apply (reads_IsDelim RBracket) in Hl as [Hl ->].
        rewrite bool_decide_eq_true_2 by done. by apply agrees_ret.
      + rewrite <- (option_fmap_id (mapM _ vs)). by eapply (decode_servers_agrees _ _ _ _ _ _ _ []).
    - intros servers l' Hl'. apply agrees_tell. apply (reads_Delim RBracket) in Hl'.
      rewrite decide_True in Hl' by done. by apply agrees_ret.
    - intros servers l' Hl'. keep_failing. }
  destruct (v1_MixServers out); [by apply Hskip|].
  assert (Hne : ∃ t ts', ts = t :: ts').
  { destruct Hp as [[-> _]|[n E]]; [eauto|]. destruct ts; [|eauto].
    apply parse_fuel in E as [E _]. cbn in E. lia. }
  destruct Hne as (t & ts' & ->). apply (Hskip (IsDelim RBracket l).1). by apply reads_IsDelim.
Qed.

Lemma convoV1_field_stores fuel : stores (S fuel) (convoV1_field (S fuel)) value_convoV1_field.
Proof.
  split; [|intros; by apply convoV1_field_fails].
  intros k v out n d ts r l Hv E Hb Hl. unfold convoV1_field, value_convoV1_field.
  destruct (head_null _ _ _ _ _ E) as (t & ts' & -> & Ht).
  assert (Hnull : bool_decide (t = TNull) = false) by (rewrite Ht; by destruct v).
  apply parse_value_inv in E as Ep.
  destruct (decide (k = str "Version")); [|destruct (decide (k = str "Coordinator"));
    [|destruct (decide (k = str "MixServers"))]].
  - apply reads_Int in Hl.
    destruct v; try (destruct Ep as (? & Ep & _)); simplify_eq; try done; try (by apply (agrees_read _ _ _ None)).
    apply agrees_read. by destruct (ParseInt (to_string lit)).
  - rewrite fmap_as_bind. eapply agrees_bind; [eapply decode_record_agrees; [exact E|done|by left]| |].
    + intros c l' Hl'. by apply agrees_ret.
    + intros c l' Hl'. keep_failing.
  - apply agrees_ask. apply reads_IsNull in Hl as [Hl ->]. rewrite Hnull.
    apply (reads_Delim LBracket) in Hl. apply agrees_tell. case_decide as Hd.
    + subst t. destruct v as [| | | |vs|kvs]; try done; [|by destruct Ep as (? & ? & _)].
      destruct Ep as (ts2 & Et & Hm). injection Et as <-.
      apply (read_servers_agrees fuel (d + 1) ts'); [naive_solver|cbn in Hb; lia|done].
    + assert (Hnone : match v with
        | JArray vs => (λ servers, mkConvoV1 (v1_Version out) (v1_Coordinator out) (Some servers)) <$>
            mapM (λ v, value_record v (mkKeyAddr [] "")) vs
        | _ => None
        end = None).
      { destruct v; try done. destruct Ep as (? & Ep & _). by injection Ep as -> _. }
      rewrite Hnone. by apply read_servers_fails.
  - apply agrees_tell, agrees_ret. by eapply reads_SkipRecursive.
Qed.

(** ** Decoding a text *)

Lemma lexer_UnmarshalJSON_value {R} (decode : nat → R → reader R) (vdecode : jvalue → R → option R) :
  (∀ fuel n d ts v r l out, parse_value n d ts = Some (v, r) → (length ts < S fuel)%nat → at_value l ts r →
     agrees (decode (S fuel) out) l (vdecode v out) r) →
  ∀ data ts v out, lexes data ts → parse_tokens ts = Some v →
  lexer_UnmarshalJSON decode data out = match vdecode v out with Some o => Ret o | None => Err () end.
Proof.
  intros Hd data ts v out Hl Hp. apply parse_tokens_inv in Hp as [n E]. unfold lexer_UnmarshalJSON.
  pose proof (length_lexes _ _ Hl) as Hlen.
  pose proof (Hd (length data) n _ ts v [] (NewLexer data) out E) as Ha.
  specialize (Ha ltac:(lia)). destruct (vdecode v out) as [o|]; cbn in Ha.
  - destruct Ha as (l' & -> & Hr); [right; split; [by apply NewLexer_starts|done]|].
    cbn. by rewrite (reads_Error _ _ Hr).
  - destruct Ha as (l' & o & -> & Hr); [right; split; [by apply NewLexer_starts|done]|].
    cbn. by rewrite (failed_Error _ Hr).
Qed.

Lemma convoV1_UnmarshalJSON_value data ts v out :
  lexes data ts → parse_tokens ts = Some v →
  convoV1_UnmarshalJSON data out = match value_convoV1 v out with Some o => Ret o | None => Err () end.
Proof.
  apply lexer_UnmarshalJSON_value. intros fuel n d ts' v' r l out' E Hf Hl.
  eapply decode_struct_agrees; [apply convoV1_field_stores|done..|lia|done].
Qed.
End agreement.

(** C35. [UnmarshalJSON] of any well encoded text returns, without a panic, and does what the
    value of the text says: the version decides, members of other names are ignored, a null
    changes nothing, a repeated member counts last, and what does not fit is an error. *)
Theorem UnmarshalJSON_reads_value `{JlexerLaws} data ts c :
  lexes data ts →
  UnmarshalJSON data c =
    match parse_json data with
    | None => Err SyntaxError
    | Some v => config_of_value v c
    end.
Proof.
  intros Hl. unfold UnmarshalJSON, getVersionFromJSON, json_Unmarshal, unmarshal_int, unmarshal_number, config_of_value, int_field.
  destruct (parse_json data) as [v|] eqn:Ep; [|done]. cbn [mbind option_bind].
  destruct (number_field ParseInt "Version" v) as [version|]; [|done]. cbn [mbind outcome_bind].
  case_decide; [|done].
  assert (Ht : parse_tokens ts = Some v).
  { unfold parse_json in Ep. by rewrite (lexes_lax _ _ Hl) in Ep. }
  rewrite (convoV1_UnmarshalJSON_value _ _ _ _ (lexes_value_text _ _ Hl) Ht).
  by destruct (value_convoV1 v _).
Qed.

(** ** What is encoded *)

(** Parsing with enough fuel, whatever it is. *)
Definition parses (d : N) (ts : list token) (v : jvalue) (r : list token) : Prop :=
  ∀ m, (2 * length ts ≤ m)%nat → parse_value m d ts = Some (v, r).
Definition parses_elems (d : N) (ts : list token) (vs : list jvalue) (r : list token) : Prop :=
  ∀ m, (2 * length ts < m)%nat → parse_elems m d ts = Some (vs, r).
Definition parses_members (d : N) (ts : list token) (kvs : list (bytes * jvalue)) (r : list token) : Prop :=
  ∀ m, (2 * length ts < m)%nat → parse_members m d ts = Some (kvs, r).

Lemma parses_shorter d ts v r : parses d ts v r → (length r < length ts)%nat.
Proof. intros E. specialize (E _ (le_n _)). by apply parse_fuel in E as [? _]. Qed.

Lemma parses_token d t v r : parse_value 1 d (t :: r) = Some (v, r) → parses d (t :: r) v r.
Proof. intros E. apply parse_fuel in E as [_ E]. exact E. Qed.

Lemma parses_elems_last d ts v r : parses d ts v (TDelim RBracket :: r) → parses_elems d ts [v] r.
Proof. intros E [|m] Hm; [lia|]. cbn [parse_elems]. by rewrite E by lia. Qed.

Lemma parses_elems_cons d ts v ts2 vs r :
  parses d ts v (TComma :: ts2) → parses_elems d ts2 vs r → parses_elems d ts (v :: vs) r.
Proof.
  intros E E2 [|m] Hm; [lia|]. pose proof (parses_shorter _ _ _ _ E) as Hl. cbn in Hl.
  cbn [parse_elems]. rewrite E by lia. cbn [mbind option_bind]. by rewrite E2 by lia.
Qed.

Lemma parses_members_last d k ts v r :
  parses d ts v (TDelim RBrace :: r) → parses_members d (TString k :: TColon :: ts) [(k, v)] r.
Proof. intros E [|m] Hm; [lia|]. cbn in Hm. cbn [parse_members]. by rewrite E by lia. Qed.

Lemma parses_members_cons d k ts v ts2 kvs r :
  parses d ts v (TComma :: ts2) → parses_members d ts2 kvs r →
  parses_members d (TString k :: TColon :: ts) ((k, v) :: kvs) r.
Proof.
  intros E E2 [|m] Hm; [lia|]. pose proof (parses_shorter _ _ _ _ E) as Hl. cbn in Hl, Hm.
  cbn [parse_members]. rewrite E by lia. cbn [mbind option_bind]. by rewrite E2 by lia.
Qed.

Lemma parses_object d ts kvs r :
  (d < maxNestingDepth)%N → head ts ≠ Some (TDelim RBrace) → parses_members (d + 1) ts kvs r →
  parses d (TDelim LBrace :: ts) (JObject kvs) r.
Proof.
  intros Hd Hh E [|m] Hm; cbn in Hm; [lia|]. cbn [parse_value].
  rewrite decide_True, parse_object_case, decide_False by done. by rewrite E by lia.
Qed.

Lemma parses_array d ts vs r :
  (d < maxNestingDepth)%N → head ts ≠ Some (TDelim RBracket) → parses_elems (d + 1) ts vs r →
  parses d (TDelim LBracket :: ts) (JArray vs) r.
Proof.
  intros Hd Hh E [|m] Hm; cbn in Hm; [lia|]. cbn [parse_value].
  rewrite decide_True, parse_array_case, decide_False by done. by rewrite E by lia.
Qed.

Lemma parses_empty_array d r :
  (d < maxNestingDepth)%N → parses d (TDelim LBracket :: TDelim RBracket :: r) (JArray []) r.
Proof.
  intros Hd [|m] Hm; cbn in Hm; [lia|]. cbn [parse_value]. by rewrite decide_True by done.
Qed.

Section written.
Context `{JlexerLaws} `{!Jwriter} `{!JwriterLaws}.

Definition writable (s : string) : Prop := valid_utf8 (str s) = true.

Lemma writes_address s : writable s → writes (jw_String s) [TString (str s)].
Proof. intros Hs. apply writes_string. intros rest. by apply jw_String_reads. Qed.

Lemma writes_name (first : bool) name :
  json_string (str name) = [x22] ++ str name ++ [x22] → valid_utf8 (str name) = true →
  writes (field_name first name) ((if first then [] else [TComma]) ++ [TString (str name); TColon]).
Proof.
  intros Hn Hv. unfold field_name. apply writes_app.
  - destruct first; [apply writes_nil|apply writes_comma].
  - replace ([x22] ++ str name ++ [x22; x3a]) with (json_string (str name) ++ [x3a])
      by (rewrite Hn; cbn; by rewrite <- app_assoc).
    apply (writes_app _ _ [_] [_]); [|apply writes_colon].
    apply writes_string. intros rest. by apply lex_json_string.
Qed.

(** The tokens of an encoded record with the key [t]. *)
Definition record_tokens (t : bytes) (address : string) : list token :=
  [TDelim LBrace; TString (str "Key"); TColon; TString t; TComma; TString (str "Address"); TColon;
   TString (str address); TDelim RBrace].

Definition record_value (t : bytes) (address : string) : jvalue :=
  JObject [(str "Key", JString t); (str "Address", JString (str address))].

Lemma encode_record_writes `{KeyAddressed R} (x : R) :
  writable (address_of x) →
  ∃ t, base32_decode t = Some (key_of x) ∧ writes (encode_record x) (record_tokens t (address_of x)).
Proof.
  intros Hx. destruct (jw_Base32Bytes_reads (key_of x)) as (t & Ht & Hr). exists t. split; [done|].
  unfold encode_record. apply (writes_app _ _ [_]); [by apply writes_delim|].
  apply (writes_app _ _ [_; _]); [by apply (writes_name true)|].
  apply (writes_app _ _ [_]); [by apply writes_string|].
  apply (writes_app _ _ [_; _; _]); [by apply (writes_name false)|].
  apply (writes_app _ _ [_]); [by apply writes_address|]. by apply writes_delim.
Qed.

Lemma record_parses d t address r :
  (d < maxNestingDepth)%N → parses d (record_tokens t address ++ r) (record_value t address) r.
Proof.
  intros Hd. apply parses_object; [done..|]. cbn [app].
  eapply parses_members_cons; [by apply parses_token|].
  apply parses_members_last. by apply parses_token.
Qed.

Lemma value_record_make `{KeyAddressed R} t (x out : R) :
  base32_decode t = Some (key_of x) → value_record (record_value t (address_of x)) out = Some x.
Proof.
  intros Ht. change (value_record _ out) with
    (y ← (λ k, make k (address_of out)) <$> base32_decode t;
     Some (make (key_of y) (to_string (str (address_of x))))).
  rewrite Ht. cbn. by rewrite key_of_make, to_string_str, make_of.
Qed.

(** A record alone, as the methods of its type write and read it. *)
Lemma record_roundtrip `{KeyAddressed R} (x out : R) : writable (address_of x) →
  lexer_UnmarshalJSON decode_record (encode_record x) out = Ret x.
Proof.
  intros Hx. destruct (encode_record_writes x Hx) as (t & Ht & Hw). apply writes_text in Hw as [Hl _].
  assert (Hp : parse_tokens (record_tokens t (address_of x)) = Some (record_value t (address_of x))) by done.
  rewrite (lexer_UnmarshalJSON_value _ value_record) with (ts := record_tokens t (address_of x))
    (v := record_value t (address_of x)); [by rewrite value_record_make| |done..].
  intros. by eapply decode_record_agrees.
Qed.

Lemma PublicServerConfig_roundtrip x out : writable (Address x) →
  PublicServerConfig_UnmarshalJSON (PublicServerConfig_MarshalJSON x) out = Ret x.
Proof. apply (record_roundtrip (R:=PublicServerConfig) (H3:=PublicServerConfig_record)). Qed.

(** The elements from the [i]-th, behind the bracket that opens them. *)
Lemma encode_servers_writes servers : ∀ i, Forall (λ s, writable (ka_Address s)) servers →
  ∃ ts, writes (encode_servers i servers) ts ∧
    (servers ≠ [] → ∃ ts' vs, ts = (if decide (0 < i)%nat then [TComma] else []) ++ ts' ∧
       (∀ d r, (d < maxNestingDepth)%N →
          head (ts' ++ TDelim RBracket :: r) ≠ Some (TDelim RBracket) ∧
          parses_elems d (ts' ++ TDelim RBracket :: r) vs r) ∧
       mapM (λ v, value_record v no_server) vs = Some servers) ∧
    (servers = [] → ts = []).
Proof.
  induction servers as [|x servers IH]; intros i Hw.
  { exists []. split; [apply writes_nil|done]. }
  apply Forall_cons in Hw as [Hx Hw]. destruct (encode_record_writes x) as (t & Ht & Hr); [done|].
  destruct (IH (S i) Hw) as (ts & Hts & Hne & He).
  exists ((if decide (0 < i)%nat then [TComma] else []) ++ record_tokens t (ka_Address x) ++ ts).
  split; [|split; [|done]].
  { cbn [encode_servers]. apply writes_app; [destruct (decide (0 < i)%nat); [apply writes_comma|apply writes_nil]|].
    by apply writes_app. }
  intros _. pose proof (value_record_make t x no_server) as Hv; specialize (Hv Ht).
  destruct (decide (servers = [])) as [->|Hn].
  - rewrite (He eq_refl). exists (record_tokens t (ka_Address x)), [record_value t (ka_Address x)].
    rewrite app_nil_r. split; [done|]. split.
    + intros d r Hd. split; [done|]. by apply parses_elems_last, record_parses.
    + cbn [mapM]. by setoid_rewrite Hv.
  - destruct (Hne Hn) as (ts' & vs & -> & Hp & Hvs).
    exists (record_tokens t (ka_Address x) ++ TComma :: ts'), (record_value t (ka_Address x) :: vs).
    rewrite (decide_True (P:=(0 < S i)%nat)) by lia. split; [done|]. split.
    + intros d r Hd. split; [done|]. rewrite <- app_assoc. cbn [app].
      eapply parses_elems_cons; [by apply record_parses|]. by apply Hp.
    + cbn [mapM]. setoid_rewrite Hv. cbn. by rewrite Hvs.
Qed.
(** Every address of the configuration can be written. *)
Definition writable_config (c : ConvoConfig) : Prop :=
  writable (coord_Address (Coordinator c)) ∧ Forall (λ s, writable (Address s)) (MixServers c).

(** The tokens and the value of a configuration whose coordinator and servers have the tokens
    [ct] and [ss], the values [cv] and [vs]. *)
Definition config_tokens (ct ss : list token) : list token :=
  [TDelim LBrace; TString (str "Version"); TColon; TNumber (str "1"); TComma;
   TString (str "Coordinator"); TColon] ++ ct ++
  [TComma; TString (str "MixServers"); TColon; TDelim LBracket] ++ ss ++
  [TDelim RBracket; TDelim RBrace].

Definition config_value (cv : jvalue) (vs : list jvalue) : jvalue :=
  JObject [(str "Version", JNumber (str "1")); (str "Coordinator", cv); (str "MixServers", JArray vs)].

Lemma config_writes coord servers ct ss :
  writes (easyjsonEncodeKeyAddr coord) ct → writes (encode_servers 0 servers) ss →
  writes (easyjsonEncodeConvoV1 (mkConvoV1 1 coord (Some servers))) (config_tokens ct ss).
Proof.
  intros Hc Hs. unfold easyjsonEncodeConvoV1. cbn [v1_Version v1_Coordinator v1_MixServers].
  rewrite jw_Int_eq by done. change (json_number 1) with (str "1").
  replace (str "1" ++ field_name false "Coordinator" ++ _) with ((str "1" ++ [x2c]) ++
    field_name true "Coordinator" ++ easyjsonEncodeKeyAddr coord ++ field_name false "MixServers" ++
    [x5b] ++ encode_servers 0 servers ++ [x5d] ++ [x7d]) by (by rewrite <- !app_assoc).
  unfold config_tokens.
  apply (writes_app _ _ [_]); [by apply writes_delim|].
  apply (writes_app _ _ [_; _]); [by apply (writes_name true)|].
  apply (writes_app _ _ [_; _]).
  { apply writes_number; [repeat constructor; done| |done]. intros rest. reflexivity. }
  apply (writes_app _ _ [_; _]); [by apply (writes_name true)|].
  apply writes_app; [done|].
  apply (writes_app _ _ [_; _; _]); [by apply (writes_name false)|].
  apply (writes_app _ _ [_]); [by apply writes_delim|].
  apply writes_app; [done|].
  apply (writes_app _ _ [_]); by apply writes_delim.
Qed.

Lemma config_parses ct ss cv vs :
  (∀ r, parses 1 (ct ++ r) cv r) →
  (∀ r, parses 1 (TDelim LBracket :: ss ++ TDelim RBracket :: r) (JArray vs) r) →
  parse_tokens (config_tokens ct ss) = Some (config_value cv vs).
Proof.
  intros Hc Hs. apply (parse_tokens_intro (2 * length (config_tokens ct ss))).
  assert (Hp : parses 0 (config_tokens ct ss) (config_value cv vs) []); [|by apply Hp].
  unfold config_tokens. apply parses_object; [done..|]. cbn [app].
  eapply parses_members_cons; [by apply parses_token|].
  eapply parses_members_cons; [apply Hc|]. by apply parses_members_last.
Qed.

Lemma value_config cv vs coord servers out :
  cv ≠ JNull → (∀ out, value_record cv out = Some coord) →
  mapM (λ v, value_record v no_server) vs = Some servers →
  value_convoV1 (config_value cv vs) out = Some (mkConvoV1 1 coord (Some servers)).
Proof.
  intros Hn Hc Hs.
  change (value_convoV1 (config_value cv vs) out) with
    (o ← Some (mkConvoV1 1 (v1_Coordinator out) (v1_MixServers out));
     o ← (match cv with JNull => Some o | _ =>
       (λ c, mkConvoV1 (v1_Version o) c (v1_MixServers o)) <$> value_record cv (v1_Coordinator o) end);
     o ← (λ servers, mkConvoV1 (v1_Version o) (v1_Coordinator o) (Some servers)) <$>
       mapM (λ v, value_record v no_server) vs;
     Some o).
  cbn [mbind option_bind]. rewrite Hc, Hs. by destruct cv.
Qed.

Lemma UseLatestVersion_id c : Version c = 1 → UseLatestVersion c = c.
Proof. destruct c. cbn. by intros ->. Qed.

(** The text of a configuration, its tokens and its value. *)
Lemma encode_config c : writable_config c →
  ∃ ts v, writes (convoV1_MarshalJSON (v1 c)) ts ∧ parse_tokens ts = Some v ∧
    int_field "Version" v = Some 1 ∧ ∀ out, value_convoV1 v out = Some (v1 c).
Proof.
  intros [Hc Hs]. set (servers := (λ srv, mkKeyAddr (Key srv) (Address srv)) <$> MixServers c).
  set (coord := mkKeyAddr (coord_Key (Coordinator c)) (coord_Address (Coordinator c))).
  assert (Hs' : Forall (λ s, writable (ka_Address s)) servers) by (by apply Forall_fmap).
  destruct (encode_record_writes coord) as (t & Ht & Hr); [done|].
  destruct (encode_servers_writes servers 0 Hs') as (ss & Hss & Hne & He).
  pose proof (value_record_make t coord) as Hv. specialize (λ out, Hv out Ht).
  assert (Harr : ∃ vs, mapM (λ v, value_record v no_server) vs = Some servers ∧
    ∀ r, parses 1 (TDelim LBracket :: ss ++ TDelim RBracket :: r) (JArray vs) r).
  { destruct (decide (servers = [])) as [E|E].
    - rewrite (He E), E. exists []. split; [done|]. intros r. by apply parses_empty_array.
    - destruct (Hne E) as (ts' & vs & -> & Hp & Hvs). exists vs. split; [done|]. intros r.
      destruct (Hp 2%N r ltac:(done)) as [Hh Hpe]. by apply parses_array. }
  destruct Harr as (vs & Hvs & Harr).
  exists (config_tokens (record_tokens t (ka_Address coord)) ss),
    (config_value (record_value t (ka_Address coord)) vs).
  split_and!.
  - by apply (config_writes coord servers).
  - apply config_parses; [|done]. intros r. by apply record_parses.
  - reflexivity.
  - intros out. by apply (value_config _ _ coord servers).
Qed.

(** C34. What [MarshalJSON] writes for a configuration of version 1, [UnmarshalJSON] reads back
    as the same configuration, whatever it is read into. *)
Theorem ConvoConfig_roundtrip c c0 :
  Version c = 1 → writable_config c →
  ∃ data, MarshalJSON c = Ret data ∧ UnmarshalJSON data c0 = Ret c.
Proof.
  intros Hver Hw. destruct (encode_config c Hw) as (ts & v & Hwr & Hp & Hi & Hv).
  apply writes_text in Hwr as [Hl Hlc].
  assert (Hj : ∀ data, lexes data ts → parse_json data = Some v).
  { intros data Hd. unfold parse_json. by rewrite (lexes_lax _ _ Hd). }
  exists (compact_go Outside (convoV1_MarshalJSON (v1 c))). split.
  - unfold MarshalJSON, json_Marshal, compact. by rewrite decide_True, (Hj _ Hl) by done.
  - unfold UnmarshalJSON, getVersionFromJSON, unmarshal_int, unmarshal_number, json_Unmarshal. rewrite (Hj _ Hlc).
    cbn [mbind option_bind]. unfold int_field in Hi. rewrite Hi. cbn [mbind outcome_bind]. rewrite decide_True by done.
    rewrite (convoV1_UnmarshalJSON_value _ _ _ _ (lexes_value_text _ _ Hlc) Hp), Hv.
    cbn [mbind outcome_bind]. by rewrite fromV1_v1, UseLatestVersion_id.
Qed.
End written.
