(* ===== verification/ConfigExamples.v ===== *)
(** * A lexer and a writer, and the configuration at concrete inputs

    [Toy] instantiates easyjson: a lexer that holds the tokens it has not read, a writer
    whose base 32 is hexadecimal. The theorems of [ConfigDecode] are applied to it. *)

From Stdlib Require Import ZArith Lia.
From stdpp Require Import base numbers strings sets list.
From S2P Require Import Prelude GoStd Json GoStrings JsonText JsonFacts Pb Settings ConvoConfig Wp ConfigJson ConfigDecode.

Module Toy.

(** [None] is a lexer that failed; the flag tells whether nothing has been read. *)
Definition toy_lexer : Type := option (bool * list token).

Definition peek (f : token → bool) (l : toy_lexer) : toy_lexer * bool :=
  match l with
  | Some (_, t :: ts) => (Some (false, t :: ts), f t)
  | _ => (None, true)
  end.

Definition advance (f : token → bool) (l : toy_lexer) : toy_lexer :=
  match l with
  | Some (_, t :: ts) => if f t then Some (false, ts) else None
  | _ => None
  end.

Definition take_token {A} (zero : A) (f : token → option A) (l : toy_lexer) : toy_lexer * A :=
  match l with
  | Some (_, t :: ts) => match f t with Some a => (Some (false, ts), a) | None => (None, zero) end
  | _ => (None, zero)
  end.

Definition string_of_token (t : token) : option bytes := match t with TString s => Some s | _ => None end.
Definition int_of_token (t : token) : option Z :=
  match t with TNumber lit => ParseInt (to_string lit) | _ => None end.

Definition want_comma (l : toy_lexer) : toy_lexer :=
  match l with
  | Some (_, TComma :: ts) => Some (false, ts)
  | Some (_, TDelim d :: ts) => Some (false, TDelim d :: ts)
  | _ => None
  end.

Definition skip_value (l : toy_lexer) : toy_lexer :=
  match l with
  | Some (_, ts) =>
      match parse_value (2 * length ts) 0 ts with Some (_, r) => Some (false, r) | None => None end
  | None => None
  end.

Definition consumed (l : toy_lexer) : toy_lexer :=
  match l with Some (_, ([] | [TNull])) => l | _ => None end.

Fixpoint to_hex (k : bytes) : bytes :=
  match k with
  | [] => []
  | b :: k => hex_digit (Z_of_byte b / 16) :: hex_digit (Z_of_byte b mod 16) :: to_hex k
  end.

Fixpoint of_hex (t : bytes) : option bytes :=
  match t with
  | [] => Some []
  | a :: b :: t =>
      x ← hex_digit_val a; y ← hex_digit_val b; k ← of_hex t; Some (byte_of_Z (x * 16 + y) :: k)
  | _ => None
  end.

#[export] Instance toy_jlexer : Jlexer := {|
  lexer := toy_lexer;
  NewLexer := λ data, (λ ts, (true, ts)) <$> tokens true data;
  IsStart := λ l, match l with Some (b, _) => b | None => false end;
  IsNull := peek (λ t, bool_decide (t = TNull));
  IsDelim := λ d, peek (λ t, bool_decide (t = TDelim d));
  Consumed := consumed;
  Skip := advance (λ _, true);
  SkipRecursive := skip_value;
  Delim := λ d, advance (λ t, bool_decide (t = TDelim d));
  WantColon := advance (λ t, bool_decide (t = TColon));
  WantComma := want_comma;
  UnsafeString := take_token [] string_of_token;
  lex_String := take_token [] string_of_token;
  BytesReadable := take_token [] (λ t, string_of_token t ≫= of_hex);
  lex_Int := take_token 0 int_of_token;
  lex_Error := λ l, bool_decide (l = None);
  base32_decode := of_hex
|}.

#[export] Instance toy_jwriter : Jwriter := {|
  jw_String := λ s, json_string (str s);
  jw_Base32Bytes := λ k, json_string (to_hex k);
  jw_Int := json_number
|}.

Lemma of_to_hex k : of_hex (to_hex k) = Some k.
Proof.
  induction k as [|b k IH]; [done|]. cbn [to_hex of_hex]. rewrite IH. by destruct b.
Qed.

Lemma valid_to_hex k : valid_utf8 (to_hex k) = true.
Proof.
  assert (Ha : ∀ b rest, Z_of_byte b < 0x80 → ∀ fuel,
    valid_utf8_go (S fuel) (b :: rest) = valid_utf8_go fuel rest).
  { intros b rest Hb fuel. cbn [valid_utf8_go]. by rewrite decode_rune_ascii. }
  unfold valid_utf8. induction k as [|b k IH]; [done|]. cbn [to_hex length].
  rewrite !Ha; [done|by destruct b..].
Qed.

#[export] Instance toy_jwriter_laws : JwriterLaws.
Proof.
  split.
  - intros s rest Hs. by apply lex_json_string.
  - intros k. exists (to_hex k). split; [apply of_to_hex|]. intros rest.
    apply lex_json_string, valid_to_hex.
  - done.
Qed.

#[export] Instance toy_jlexer_laws : JlexerLaws.
Proof.
  apply (Build_JlexerLaws toy_jlexer (λ (l : toy_lexer) ts, l = Some (true, ts))
    (λ (l : toy_lexer) ts, l = Some (false, ts)) (λ l : toy_lexer, l = None)).
  - intros data ts Hl. cbn. by rewrite Hl.
  - by intros l ts ->.
  - by intros l t ts ->.
  - by intros l ts ->.
  - by intros l t ts ->.
  - by intros d l t ts ->.
  - intros d l t ts ->. cbn. by case_decide; case_bool_decide.
  - by intros l t ts ->.
  - intros l n d ts v r -> E. cbn. apply (proj1 (parse_depth n) _ 0%N) in E; [|lia].
    apply parse_fuel in E as [_ E]. by rewrite E by lia.
  - by intros l ts ->.
  - by intros l ts ->.
  - by intros l d ts ->.
  - by intros l s ts ->.
  - intros l t ts ->. by destruct t.
  - intros l t ts ->. destruct t; try done. cbn. by destruct (of_hex s).
  - intros l t ts ->. destruct t; try done. cbn. by destruct (ParseInt _).
  - by intros l ->.
  - by intros l ->.
  - by intros l ts ->.
  - by intros l ->.
  - by intros l ->.
  - by intros d l ->.
  - by intros l ->.
  - by intros l ->.
  - by intros l ->.
Defined.
End Toy.
Import Toy.

Definition small_config : ConvoConfig :=
  mkConvoConfig 1 (mkCoordinatorConfig [x01; xff] "a:1") [mkPublicServerConfig [x02] "b<"].

Lemma ConvoConfig_roundtrip_witness :
  Version small_config = 1 ∧ writable_config small_config ∧
  ∃ data, MarshalJSON small_config = Ret data ∧ UnmarshalJSON data small_config = Ret small_config.
Proof.
  assert (Hw : writable_config small_config) by (split; repeat constructor).
  split; [reflexivity|]. split; [exact Hw|].
  exact (ConvoConfig_roundtrip small_config small_config eq_refl Hw).
Defined.

Definition quoted (s : string) : bytes := [x22] ++ str s ++ [x22].

(** A text with an unknown member, a null, and a coordinator that comes twice. *)
Definition odd_text : bytes :=
  str "{ " ++ quoted "Version" ++ str ": 1, " ++ quoted "x" ++ str ": [{}], " ++
  quoted "MixServers" ++ str ":null," ++
  quoted "Coordinator" ++ str ":{" ++ quoted "Address" ++ str ":" ++ quoted "a" ++ str "}," ++
  quoted "Coordinator" ++ str ":{" ++ quoted "Key" ++ str ":" ++ quoted "0a" ++ str "}}".

Definition odd_tokens : list token := default [] (tokens true odd_text).

Lemma UnmarshalJSON_reads_value_witness :
  lexes odd_text odd_tokens ∧
  UnmarshalJSON odd_text small_config =
    match parse_json odd_text with
    | None => Err SyntaxError
    | Some v => config_of_value v small_config
    end.
Proof.
  assert (Hl : lexes odd_text odd_tokens) by (vm_compute; reflexivity).
  split; [exact Hl|]. exact (UnmarshalJSON_reads_value odd_text odd_tokens small_config Hl).
Defined.

(** What it is read as: the second coordinator adds its key to the first. *)
Example odd_text_read :
  UnmarshalJSON odd_text small_config = Ret (mkConvoConfig 1 (mkCoordinatorConfig [x0a] "a") []).
Proof. vm_compute. reflexivity. Qed.

(** The name of the version is read without regard to case by [getVersionFromJSON], and the
    error for another version names the version of the value that was to be filled. *)
Example unknown_version :
  UnmarshalJSON (str "{" ++ quoted "version" ++ str ":7}") small_config = Err (UnknownVersion 1).
Proof. vm_compute. reflexivity. Qed.

Example not_a_config :
  UnmarshalJSON (str "{" ++ quoted "Version" ++ str ":1," ++ quoted "Coordinator" ++ str ":[]}") small_config =
    Err LexerError ∧
  UnmarshalJSON (str "null") small_config = Err (UnknownVersion 1) ∧
  UnmarshalJSON (str "{,}") small_config = Err SyntaxError.
Proof. vm_compute. done. Qed.

Example small_config_text :
  MarshalJSON small_config = Ret (str "{" ++ quoted "Version" ++ str ":1," ++ quoted "Coordinator" ++
    str ":{" ++ quoted "Key" ++ str ":" ++ quoted "01ff" ++ str "," ++ quoted "Address" ++ str ":" ++
    quoted "a:1" ++ str "}," ++ quoted "MixServers" ++ str ":[{" ++ quoted "Key" ++ str ":" ++
    quoted "02" ++ str "," ++ quoted "Address" ++ str ":" ++ quoted "b\u003c" ++ str "}]}").
Proof. vm_compute. reflexivity. Qed.
