(* ===== verification/Coordinator.v ===== *)
(** * The coordinator (coordinator/server.go)

    The entry server: it opens rounds, takes the clients' onions, runs the batch through
    the mixnet and hands the replies back. What it sends to clients is recorded in order.
    [runRound] is cut where it waits: [runRound_begin] up to the announcement,
    [runRound_deadline] after the sleep, [mixOnions], and [runRound_end], the deferred
    deletion. The calls of the mixnet client are the record [mixnetCalls], as the calls
    of a mixer on the next one are [nextCalls]. Instants are nanoseconds. *)

From Stdlib Require Import ZArith Lia.
From stdpp Require Import base numbers strings gmap fin_maps list.
From S2P Require Import Prelude GoStd Settings Mixnet ConvoConfig.

(** ** Messages *)

Record OnionMsg := mkOnionMsg { om_Round : Z; om_Onions : list bytes }.

Record NewRound := mkNewRound {
  nr_Round : Z;
  nr_ConfigHash : string;
  nr_MixSettings : RoundSettings;
  nr_MixSignatures : list bytes;
  nr_EndTime : Z
}.

Record RoundError := mkRoundError { re_Round : Z; re_Err : string }.

Record GlobalAnnouncement := mkGlobalAnnouncement { ga_Message : string }.

Inductive outmsg :=
| MsgNewRound (v : NewRound)
| MsgReply (v : OnionMsg)
| MsgError (v : RoundError)
| MsgAnnouncement (v : GlobalAnnouncement).

(** Connections are told apart by numbers. *)
Definition conn : Type := nat.

Inductive sent :=
| SendTo (c : conn) (m : outmsg)
| Broadcast (m : outmsg).

(** ** State *)

Record onionBundle := mkOnionBundle { sender : conn; bundle_onions : list bytes }.

Record roundState := mkRoundState {
  roundInfo : NewRound;
  open_ : bool;
  onions : list onionBundle
}.

Inductive coordinator_error :=
| NoPersistPath
| ErrServerClosed
| SendFailed (c : conn).

Section coordinator.
Context `{SignedConfigs}.

Record Server := mkServer {
  round : Z;
  rounds : gmap Z loc;
  store : gmap loc roundState;
  closed : bool;
  shutdown : bool;                     (* the channel is closed *)
  freshConfig : bool;
  latestConfig : option SignedConfig;
  sends : list sent
}.

Definition eta_Server (s : Server) : Server :=
  mkServer (round s) (rounds s) (store s) (closed s) (shutdown s) (freshConfig s) (latestConfig s) (sends s).

Definition set_round v (s : Server) : Server := ltac:(set_field eta_Server round v s).
Definition set_rounds v (s : Server) : Server := ltac:(set_field eta_Server rounds v s).
Definition set_store v (s : Server) : Server := ltac:(set_field eta_Server store v s).
Definition set_closed v (s : Server) : Server := ltac:(set_field eta_Server closed v s).
Definition set_shutdown v (s : Server) : Server := ltac:(set_field eta_Server shutdown v s).
Definition set_freshConfig v (s : Server) : Server := ltac:(set_field eta_Server freshConfig v s).
Definition set_latestConfig v (s : Server) : Server := ltac:(set_field eta_Server latestConfig v s).
Definition set_sends v (s : Server) : Server := ltac:(set_field eta_Server sends v s).

Abbreviation handler := (go Server coordinator_error).

Definition send (x : sent) : handler unit := modify (λ s, set_sends (sends s ++ [x]) s).

(** ** Start and stop *)

(** [Run], up to the goroutines it starts. *)
Definition Run (PersistPath : string) : handler unit :=
  if decide (PersistPath = "") then throw NoPersistPath
  else
    modify (set_rounds ∅);;
    modify (set_closed false);;
    modify (set_shutdown false).

Definition Close : handler unit :=
  s ← get;
  if negb (closed s)
  then modify (set_shutdown true);; modify (set_closed true)
  else throw ErrServerClosed.

(** A turn of [updateConfigLoop] with what [CurrentConfig] returns. *)
Definition updateConfig (fetched : option SignedConfig) : handler unit :=
  match fetched with
  | None => modify (set_freshConfig false)
  | Some conf => modify (set_freshConfig true);; modify (set_latestConfig (Some conf))
  end.

(** ** Clients *)

Definition millisecond : Z := 1000000.

(** The announcements for a client that connects: [order] is the order in which the map is
    ranged over, [now] reads the clock for each round and [fails] tells which send fails. *)
Fixpoint announce_rounds (c : conn) (now : nat → Z) (fails : nat → bool) (i : nat) (sts : list roundState)
    : handler unit :=
  match sts with
  | [] => mret ()
  | st :: sts =>
      if decide (nr_EndTime (roundInfo st) - now i < 100 * millisecond)
      then announce_rounds c now fails (S i) sts
      else
        send (SendTo c (MsgNewRound (roundInfo st)));;
        if fails i then throw (SendFailed c) else announce_rounds c now fails (S i) sts
  end.

Definition onConnect (c : conn) (order : list Z) (now : nat → Z) (fails : nat → bool) : handler unit :=
  s ← get;
  sts ← lift (or_panic (mapM (λ r, p ← rounds s !! r; store s !! p) order));
  announce_rounds c now fails 0 sts.

Definition incomingOnion (now : Z) (c : conn) (o : OnionMsg) : handler unit :=
  s ← get;
  match rounds s !! om_Round o with
  | None => send (SendTo c (MsgError (mkRoundError (om_Round o) "round not found")))
  | Some p =>
      st ← lift (or_panic (store s !! p));
      if open_ st
      then
        modify (λ s, set_store
          (<[p := mkRoundState (roundInfo st) true (onions st ++ [mkOnionBundle c (om_Onions o)])]> (store s)) s)
      else
        let ago := Duration.String (now - nr_EndTime (roundInfo st)) in
        send (SendTo c (MsgError (mkRoundError (om_Round o)
          ("round is closed: deadline was " ++ ago ++ " ago")%string)))
  end.

(** [sendAnnouncementHandler]: the keys of the peer's certificates ([None] where one is not
    ed25519), the decoded body ([None] where it is not JSON) and whether the broadcast
    fails. The answer is a status with its text. *)
Definition sendAnnouncement (peers : list (option bytes)) (body : option GlobalAnnouncement)
    (broadcastErr : option string) : handler (Z * string) :=
  match peers with
  | [] => mret (400, "no peer certificate")
  | None :: _ => mret (400, "invalid peer key")
  | Some peerKey :: _ =>
      s ← get;
      match latestConfig s with
      | None => mret (400, "no convo config")
      | Some conf =>
          if decide (peerKey ∉ config_Guardians conf) then mret (400, "not a guardian")
          else
            match body with
            | None => mret (400, "error decoding json")
            | Some args =>
                send (Broadcast (MsgAnnouncement args));;
                match broadcastErr with
                | Some err => mret (500, ("failed to broadcast message: " ++ err)%string)
                | None => mret (200, "OK")
                end
            end
      end
  end.

(** [ServeHTTP]: [upgraded] is what the hub answers. *)
Definition ServeHTTP (path : string) (upgraded : handler (Z * string)) (peers : list (option bytes))
    (body : option GlobalAnnouncement) (broadcastErr : option string) : handler (Z * string) :=
  if String.prefix "/ws" path then upgraded
  else if String.prefix "/sendannouncement" path then sendAnnouncement peers body broadcastErr
  else mret (404, "not found").

(** ** The loop that starts rounds *)

Record loopState := mkLoopState {
  loop_round : Z;
  lastDeadline : Z;
  flights : nat;                       (* tokens in the channel *)
  persists : list Z                    (* the rounds at which [Persist] is started *)
}.

Definition numInFlight : nat := 5.

Definition loop_start (now : Z) (r : Z) : loopState := mkLoopState (u32 (r + 100)) now numInFlight [].

(** A turn that takes a token: the round it starts and its deadline. [None] while no token
    is left. *)
Definition loop_turn (RoundDelay now1 now2 : Z) (l : loopState) : option (loopState * (Z * Z)) :=
  match flights l with
  | O => None
  | S flights =>
      let r := u32 (loop_round l + 1) in
      let persists := if decide (r mod 20 = 0) then persists l ++ [r] else persists l in
      let last := if decide (lastDeadline l < now1) then now2 else lastDeadline l in
      let deadline := last + RoundDelay in
      Some (mkLoopState r deadline flights persists, (r, deadline))
  end.

(** The end of a round's goroutine: a token goes back unless the channel is full. *)
Definition loop_refill (l : loopState) : loopState :=
  mkLoopState (loop_round l) (lastDeadline l)
    (if decide (flights l < numInFlight)%nat then S (flights l) else flights l) (persists l).

(** ** A round *)

Record mixnetCalls := mkMixnetCalls {
  mix_NewRound : list PublicServerConfig → RoundSettings → RoundSettings * outcome mix_error (list bytes);
  mix_RunRoundBidirectional : PublicServerConfig → string → Z → list bytes → outcome mix_error (list bytes)
}.

Section round.
Context (Service : string) (calls : mixnetCalls).

(** Up to the sleep: [Some] is the state of the round and the mixers. *)
Definition runRound_begin (r deadline : Z) : handler (option (loc * list PublicServerConfig)) :=
  s ← get;
  if negb (freshConfig s) then mret None
  else
    conf ← lift (or_panic (latestConfig s));
    inner ← lift (or_panic (as_ConvoConfig (config_Inner conf)));
    let mixServers := MixServers inner in
    match mix_NewRound calls mixServers (mkRoundSettings "Convo" r [] None inil) with
    | (_, Err _) => mret None
    | (_, Panic) => panic
    | (_, Block) => block
    | (mixSettings, Ret mixSigs) =>
        let info := mkNewRound r (config_Hash conf) mixSettings mixSigs deadline in
        let st := mkRoundState info true [] in
        s ← get;
        let p := fresh (dom (store s)) in
        modify (λ s, set_rounds (<[r := p]> (rounds s)) (set_store (<[p := st]> (store s)) s));;
        send (Broadcast (MsgNewRound info));;
        mret (Some (p, mixServers))
    end.

(** After the sleep: the round is closed; the result is its batch. *)
Definition runRound_deadline (p : loc) : handler (list onionBundle) :=
  s ← get;
  st ← lift (or_panic (store s !! p));
  modify (λ s, set_store (<[p := mkRoundState (roundInfo st) false (onions st)]> (store s)) s);;
  mret (onions st).

Record senderRange := mkSenderRange { range_sender : conn; range_start : nat; range_end : nat }.

(** The loop that puts the bundles together: the onions so far grow, the ranges follow. *)
Fixpoint gather_bundles (acc : list bytes) (out : list onionBundle) : list bytes * list senderRange :=
  match out with
  | [] => (acc, [])
  | o :: out =>
      let range := mkSenderRange (sender o) (length acc) (length acc + length (bundle_onions o)) in
      let '(all, ranges) := gather_bundles (acc ++ bundle_onions o) out in
      (all, range :: ranges)
  end.

(** The parallel loop over the senders, in the order in which the iterations send. *)
Fixpoint send_replies (r : Z) (replies : list bytes) (senders : list senderRange) (order : list nat)
    : handler unit :=
  match order with
  | [] => mret ()
  | i :: order =>
      sr ← lift (or_panic (senders !! i));
      part ← lift (or_panic (slice (range_start sr) (range_end sr) replies));
      send (SendTo (range_sender sr) (MsgReply (mkOnionMsg r part)));;
      send_replies r replies senders order
  end.

Definition mixOnions (order : list nat) (firstServer : PublicServerConfig) (r : Z)
    (out : list onionBundle) : handler unit :=
  let '(all, senders) := gather_bundles [] out in
  match mix_RunRoundBidirectional calls firstServer Service r all with
  | Err _ => send (Broadcast (MsgError (mkRoundError r "server error")))
  | Panic => panic
  | Block => block
  | Ret replies => send_replies r replies senders order
  end.

(** The deferred function. *)
Definition runRound_end (r : Z) : handler unit :=
  modify (λ s, set_rounds (delete r (rounds s)) s).

(** [sleep] until the timer fires at [wakes]: false if the server is closed first, at
    [closed_at]; [timer_first] is the choice of [select] where both are ready. *)
Definition sleep (wakes : Z) (closed_at : option Z) (timer_first : bool) : bool :=
  match closed_at with
  | None => true
  | Some t => if decide (t < wakes) then false else if decide (t = wakes) then timer_first else true
  end.

(** The part between the sleep and the end: nothing is mixed after a shutdown. *)
Definition runRound_finish (order : list nat) (slept : bool) (r : Z) (p : loc)
    (mixServers : list PublicServerConfig) : handler unit :=
  (if slept
   then
     batch ← runRound_deadline p;
     firstServer ← lift (or_panic (mixServers !! 0%nat));
     mixOnions order firstServer r batch
   else mret ());;
  runRound_end r.

End round.

End coordinator.

(** ** Routing the replies *)

Section routing.
Context `{SignedConfigs}.

(** All onions of a batch, and where the bundle at [i] starts. *)
Definition batch_onions (out : list onionBundle) : list bytes := mjoin (bundle_onions <$> out).
Definition bundle_start (out : list onionBundle) (i : nat) : nat := length (batch_onions (take i out)).

(** The replies of the bundle [o] at [i]. *)
Definition bundle_replies (out : list onionBundle) (replies : list bytes) (i : nat) (o : onionBundle)
    : list bytes :=
  take (length (bundle_onions o)) (drop (bundle_start out i) replies).

Definition reply_message (r : Z) (out : list onionBundle) (replies : list bytes) (i : nat) (o : onionBundle)
    : sent := SendTo (sender o) (MsgReply (mkOnionMsg r (bundle_replies out replies i o))).

Lemma bundle_start_cons b out i :
  bundle_start (b :: out) (S i) = (length (bundle_onions b) + bundle_start out i)%nat.
Proof. apply (length_app (bundle_onions b)). Qed.

Lemma gather_bundles_spec acc out :
  ∃ ranges, gather_bundles acc out = (acc ++ batch_onions out, ranges) ∧
    ∀ i o, out !! i = Some o →
      ranges !! i = Some (mkSenderRange (sender o) (length acc + bundle_start out i)
                            (length acc + bundle_start out i + length (bundle_onions o))).
Proof.
  revert acc. induction out as [|b out IH]; intros acc.
  - exists []. cbn. rewrite app_nil_r. done.
  - cbn [gather_bundles]. destruct (IH (acc ++ bundle_onions b)) as (ranges & -> & Hr).
    eexists. split; [by rewrite <- app_assoc|]. intros [|i] o Hi.
    + injection Hi as ->. cbn. f_equal. f_equal; unfold bundle_start; cbn; lia.
    + transitivity (ranges !! i); [done|]. rewrite (Hr i o Hi), bundle_start_cons, length_app.
      f_equal. f_equal; lia.
Qed.

Lemma batch_onions_split out i o :
  out !! i = Some o →
  batch_onions out = batch_onions (take i out) ++ bundle_onions o ++ batch_onions (drop (S i) out).
Proof.
  intros Hi. rewrite <- (take_drop_middle out i o Hi) at 1.
  unfold batch_onions. by rewrite fmap_app, join_app.
Qed.

Lemma bundle_end out i o :
  out !! i = Some o → (bundle_start out i + length (bundle_onions o) ≤ length (batch_onions out))%nat.
Proof.
  intros Hi. rewrite (batch_onions_split out i o Hi), !length_app. unfold bundle_start. lia.
Qed.

(** An onion of a bundle in the batch, its reply in the bundle's replies. *)
Lemma batch_onions_lookup out i o j :
  out !! i = Some o → (j < length (bundle_onions o))%nat →
  batch_onions out !! (bundle_start out i + j)%nat = bundle_onions o !! j.
Proof.
  intros Hi Hj. rewrite (batch_onions_split out i o Hi). unfold bundle_start.
  rewrite lookup_app_r by lia. rewrite Nat.add_comm, Nat.add_sub. by apply lookup_app_l.
Qed.

Lemma bundle_replies_lookup out replies i o j :
  (j < length (bundle_onions o))%nat →
  bundle_replies out replies i o !! j = replies !! (bundle_start out i + j)%nat.
Proof. intros Hj. unfold bundle_replies. by rewrite lookup_take_lt, lookup_drop by done. Qed.

Lemma send_replies_run r out replies ranges order (s : Server) :
  length replies = length (batch_onions out) →
  (∀ i o, out !! i = Some o →
     ranges !! i = Some (mkSenderRange (sender o) (bundle_start out i)
                           (bundle_start out i + length (bundle_onions o)))) →
  (∀ i, i ∈ order → (i < length out)%nat) →
  send_replies r replies ranges order s =
    (set_sends (sends s ++ omap (λ i, reply_message r out replies i <$> out !! i) order) s, Ret ()).
Proof.
  intros Hlen Hr. revert s. induction order as [|i order IH]; intros s Ho.
  - cbn. rewrite app_nil_r. by destruct s.
  - destruct (lookup_lt_is_Some_1 out i) as [o Hi]; [apply Ho; by left|].
    pose proof (bundle_end out i o Hi) as Hend.
    cbn [send_replies]. rewrite go_bind_unfold, (Hr i o Hi). cbn [or_panic lift].
    rewrite go_bind_unfold. cbn [range_start range_end range_sender].
    rewrite slice_is_Some by lia. cbn [or_panic lift]. rewrite go_bind_unfold. cbn [send modify].
    rewrite IH by (intros; apply Ho; by right). cbn [omap list_omap]. rewrite Hi. cbn.
    rewrite <- app_assoc. cbn. unfold reply_message, bundle_replies.
    by rewrite Nat.add_comm, Nat.add_sub.
Qed.

Lemma omap_seq {A B} (f : nat → A → B) (l : list A) :
  omap (λ i, f i <$> l !! i) (seq 0 (length l)) = imap f l.
Proof.
  induction l as [|x l IH] using rev_ind; [done|].
  rewrite length_app, Nat.add_1_r, seq_S, omap_app, imap_app. cbn [length imap].
  f_equal.
  - rewrite <- IH. apply list_omap_ext. apply Forall2_same_length_lookup. split; [done|].
    intros i x1 x2 H1 H2. rewrite H1 in H2. injection H2 as <-.
    apply lookup_seq in H1 as [-> Hi]. by rewrite lookup_app_l by done.
  - cbn. rewrite Nat.add_0_r. rewrite lookup_app_r, Nat.sub_diag by lia. done.
Qed.

(** C25. Every client gets the replies to its own onions. When the batch runs through the
    mixnet and comes back with a reply for each onion, the coordinator sends, in an
    arbitrary order, one message to the sender of each bundle, with the replies that
    stand in the places of the bundle's onions, and does not panic; when the run fails
    every client is told so and no reply is sent. *)
Theorem mixOnions_routes Service calls order firstServer r out (s : Server) :
  order ≡ₚ seq 0 (length out) →
  (∀ replies, mix_RunRoundBidirectional calls firstServer Service r (batch_onions out) = Ret replies →
    length replies = length (batch_onions out) →
    ∃ msgs, mixOnions Service calls order firstServer r out s = (set_sends (sends s ++ msgs) s, Ret ()) ∧
      msgs ≡ₚ imap (reply_message r out replies) out ∧
      ∀ i o j, out !! i = Some o → (j < length (bundle_onions o))%nat →
        bundle_onions o !! j = batch_onions out !! (bundle_start out i + j)%nat ∧
        bundle_replies out replies i o !! j = replies !! (bundle_start out i + j)%nat) ∧
  (∀ e, mix_RunRoundBidirectional calls firstServer Service r (batch_onions out) = Err e →
    mixOnions Service calls order firstServer r out s =
      (set_sends (sends s ++ [Broadcast (MsgError (mkRoundError r "server error"))]) s, Ret ())).
Proof.
  intros Ho. unfold mixOnions.
  destruct (gather_bundles_spec [] out) as (ranges & -> & Hr). rewrite app_nil_l. split.
  - intros replies -> Hlen. eexists. split.
    { apply (send_replies_run r out replies ranges order s Hlen Hr).
      intros i Hi. rewrite Ho in Hi. apply elem_of_seq in Hi. lia. }
    split; [by rewrite Ho, omap_seq|]. intros i o j Hi Hj.
    by rewrite (batch_onions_lookup out i o j Hi Hj), bundle_replies_lookup.
  - intros e ->. done.
Qed.

End routing.

(** ** The rounds of the loop *)

Section loop.
Context (RoundDelay : Z).

Inductive loop_event :=
| Turn (now1 now2 : Z)       (* the two readings of the clock *)
| Refill.

(** The states of a run and the rounds it starts with their deadlines. *)
Fixpoint loop_exec (evs : list loop_event) (l : loopState) : option (loopState * list (Z * Z)) :=
  match evs with
  | [] => Some (l, [])
  | Turn now1 now2 :: evs =>
      '(l, started) ← loop_turn RoundDelay now1 now2 l;
      '(l, rest) ← loop_exec evs l;
      Some (l, started :: rest)
  | Refill :: evs => loop_exec evs (loop_refill l)
  end.

Fixpoint refills (evs : list loop_event) : nat :=
  match evs with
  | [] => 0
  | Turn _ _ :: evs => refills evs
  | Refill :: evs => S (refills evs)
  end.

(** Two readings of the clock in a turn are in order. *)
Definition in_time (evs : list loop_event) : Prop :=
  Forall (λ e, match e with Turn now1 now2 => now1 <= now2 | Refill => True end) evs.

(** Each deadline is at least a [RoundDelay] after the one before, the first one after [d]. *)
Fixpoint spaced (d : Z) (started : list (Z * Z)) : Prop :=
  match started with
  | [] => True
  | (_, d') :: started => d + RoundDelay <= d' ∧ spaced d' started
  end.

Lemma loop_turn_run now1 now2 l l' r d :
  now1 <= now2 → 0 <= loop_round l < 2 ^ 32 - 1 → loop_turn RoundDelay now1 now2 l = Some (l', (r, d)) →
  r = loop_round l + 1 ∧ loop_round l' = r ∧ lastDeadline l' = d ∧ lastDeadline l + RoundDelay <= d ∧
  flights l = S (flights l') ∧
  persists l' = if decide (r mod 20 = 0) then persists l ++ [r] else persists l.
Proof.
  intros Ht Hr. unfold loop_turn. destruct (flights l) as [|f] eqn:Ef; [done|]. cbv zeta.
  rewrite u32_id by (unfold is_u32; lia). intros [= <- <- <-]. cbn.
  destruct (decide (lastDeadline l < now1)); repeat split; lia || done.
Qed.

Lemma loop_exec_run evs l l' started :
  in_time evs → 0 <= loop_round l → loop_round l + Z.of_nat (length started) < 2 ^ 32 →
  loop_exec evs l = Some (l', started) →
  loop_round l' = loop_round l + Z.of_nat (length started) ∧
  started.*1 = seqZ (loop_round l + 1) (Z.of_nat (length started)) ∧
  spaced (lastDeadline l) started ∧
  (length started + flights l' ≤ flights l + refills evs)%nat ∧
  persists l' = persists l ++ filter (λ r, r mod 20 = 0) (started.*1).
Proof.
  revert l started. induction evs as [|e evs IH]; intros l started Ht Hr Hb.
  - intros [= <- <-]. cbn. rewrite app_nil_r. repeat split; lia.
  - apply Forall_cons in Ht as [Hte Ht]. destruct e as [now1 now2|]; cbn [loop_exec refills].
    + destruct (loop_turn RoundDelay now1 now2 l) as [[l1 [r d]]|] eqn:E1; [|done]. cbn.
      destruct (loop_exec evs l1) as [[l2 rest]|] eqn:E2; [|done]. cbn. intros [= <- <-].
      cbn [length] in Hb.
      destruct (loop_turn_run now1 now2 l l1 r d Hte ltac:(lia) E1) as (-> & Er & Ed & Hd & Hf & Hp).
      destruct (IH l1 rest Ht ltac:(lia) ltac:(lia) E2) as (IHr & IHs & IHd & IHf & IHp).
      rewrite Er in IHr, IHs. cbn [length].
      split; [lia|]. split; [|split; [|split; [lia|]]].
      * rewrite Nat2Z.inj_succ, seqZ_cons by lia. cbn. rewrite IHs.
        f_equal. f_equal; lia.
      * cbn. rewrite <- Ed at 2. split; [done|]. exact IHd.
      * rewrite IHp, Hp. cbn [fmap list_fmap fst]. rewrite filter_cons.
        destruct (decide ((loop_round l + 1) mod 20 = 0)); [by rewrite <- app_assoc|done].
    + intros E. destruct (IH (loop_refill l) started Ht Hr Hb E) as (? & ? & ? & Hf & ?).
      split; [done|]. split; [done|]. split; [done|]. split; [|done].
      unfold loop_refill in Hf. cbn [flights] in Hf. destruct (decide (flights l < numInFlight)%nat); lia.
Qed.

(** The last multiple of 20 in a run of rounds is less than 20 before its end. *)
Lemma last_multiple a n q :
  last (filter (λ r, r mod 20 = 0) (seqZ a (Z.of_nat n))) = Some q →
  q mod 20 = 0 ∧ a <= q < a + Z.of_nat n ∧ a + Z.of_nat n <= q + 20.
Proof.
  induction n as [|n IH]; [done|].
  rewrite seqZ_S, filter_app, filter_cons, filter_nil.
  destruct (decide ((a + Z.of_nat n) mod 20 = 0)) as [Hm|Hm].
  - rewrite last_snoc. intros [= <-]. split; [done|]. lia.
  - rewrite app_nil_r. intros Hq. destruct (IH Hq) as (Hq0 & Hr & Hle). split; [done|].
    split; [lia|]. assert (a + Z.of_nat n ≠ q + 20); [|lia]. intros E. apply Hm. rewrite E.
    rewrite <- Zplus_mod_idemp_l, Hq0. done.
Qed.

End loop.

(** C26. The rounds a coordinator starts. Loaded with round [r] it starts the rounds from
    [r+101] on, one after the other, each deadline at least a round delay after the one
    before, never more rounds than it has tokens and finished rounds. Restarted from what
    the last [Persist] wrote, a round [v] not before the one that started it, it begins with
    a round later than all it started before; but restarted before it persisted any, it
    starts the same rounds again. *)
Theorem loop_rounds RoundDelay now r evs l started now' :
  0 <= r → r + 100 + Z.of_nat (length started) < 2 ^ 32 → in_time evs →
  loop_exec RoundDelay evs (loop_start now r) = Some (l, started) →
  started.*1 = seqZ (r + 101) (Z.of_nat (length started)) ∧
  spaced RoundDelay now started ∧
  (length started ≤ numInFlight + refills evs)%nat ∧
  (∀ q v, last (persists l) = Some q → q <= v → v + 101 < 2 ^ 32 →
     ∀ r' l1 r1 d1, r' ∈ started.*1 →
       loop_turn RoundDelay now' now' (loop_start now' v) = Some (l1, (r1, d1)) → r' < r1) ∧
  (persists l = [] → ∀ r0, head (started.*1) = Some r0 →
     ∃ l1 d1, loop_turn RoundDelay now' now' (loop_start now' r) = Some (l1, (r0, d1))).
Proof.
  intros Hr Hb Ht E.
  assert (Hs : loop_round (loop_start now r) = r + 100) by (apply u32_id; unfold is_u32; lia).
  destruct (loop_exec_run RoundDelay evs (loop_start now r) l started Ht ltac:(lia) ltac:(lia) E) as (El & Es & Hd & Hf & Hp).
  rewrite Hs in El, Es. replace (r + 100 + 1) with (r + 101) in Es by lia. cbn [persists loop_start app] in Hp.
  split; [done|]. split; [done|]. split; [cbn in Hf; unfold numInFlight; lia|]. split.
  - intros q v Hq Hqv Hqb r' l1 r1 d1 Hr' Hturn. rewrite Hp, Es in Hq. apply last_multiple in Hq as (_ & Hq & Hle).
    rewrite Es in Hr'. apply elem_of_seqZ in Hr'.
    assert (Eq : loop_round (loop_start now' v) = v + 100) by (apply u32_id; unfold is_u32; lia).
    apply loop_turn_run in Hturn as (-> & _); [rewrite Eq; lia|done|rewrite Eq; lia].
  - intros _ r0 Hr0. rewrite Es in Hr0.
    destruct (decide (0 < Z.of_nat (length started))) as [Hpos|Hz]; [|by rewrite seqZ_nil in Hr0 by lia].
    rewrite seqZ_cons in Hr0 by done. injection Hr0 as <-. unfold loop_turn.
    cbn [flights loop_start numInFlight loop_round]. rewrite (u32_id (r + 100)) by (unfold is_u32; lia).
    rewrite u32_id by (unfold is_u32; lia). replace (r + 100 + 1) with (r + 101) by lia. eauto.
Qed.
