(* ===== verification/Client.v ===== *)
(** * The client library (client.go)

    What a client does with the rounds the coordinator announces: it checks the mixers'
    signatures on the settings of a round, seals its messages into onions, and opens the
    replies. Calls of the handler and messages to the coordinator are events in the order
    they happen. Instants are nanoseconds; each reading of the clock is an argument.

    [runRound] is a goroutine: [newConvoRound] adds it to [client_jobs]. The client keeps
    round states behind pointers, since the goroutine holds one after the round is gone. *)

From Stdlib Require Import ZArith Lia.
From stdpp Require Import base numbers strings gmap fin_maps list.
From S2P Require Import Prelude GoStd Json External Settings Convo ConvoConfig Coordinator.

(** ** State and events *)

Inductive client_error :=
| NoHandler
| DialFailed
| NotConnected
| DifferentConfigs (round : Z)
| FetchingConfig
| BadMixSignature (round : Z) (key : bytes)
| SkippingRound (round : Z)
| AbandoningRound (round : Z)
| RoundNotConfigured (round : Z)
| NoOnionKeys (round : Z)
| WrongOnionCount (round : Z) (want got : nat)
| MalformedOnion (round : Z) (got want : nat)
| DecryptOnionFailed (round : Z)
| CoordinatorError (round : Z) (err : string).

(** Calls of the [ConvoHandler], and what is sent on the connection. *)
Inductive event `{SignedConfigs} :=
| CallOutgoing (round : Z)
| CallReplies (round : Z) (messages : list bytes)
| CallNewConfig (chain : list SignedConfig)
| CallError (e : client_error)
| CallDebugError (e : client_error)
| CallGlobalAnnouncement (message : string)
| SendOnions (msg : OnionMsg).

Section client.
Context `{NaCl} `{Onionbox} `{Signature} `{SignedConfigs}.

Definition loc : Type := nat.

(** [OnionKeys] holds the shared keys of each onion, [None] the nil slice. *)
Record roundState := mkRoundState {
  Config : ConvoConfig;
  ConfigParent : SignedConfig;
  OnionKeys : option (list (list bytes))
}.

Record runJob := mkRunJob { job_state : loc; job_round : NewRound }.

(** [client_conn] tells the connections apart by a number. *)
Record Client := mkClient {
  client_rounds : gmap Z loc;
  client_store : gmap loc roundState;
  client_conn : option nat;
  latestRound : Z;
  convoConfig : option SignedConfig;
  convoConfigHash : string;
  client_jobs : list runJob;
  client_events : list event
}.

Definition eta_Client (c : Client) : Client :=
  mkClient (client_rounds c) (client_store c) (client_conn c) (latestRound c) (convoConfig c)
    (convoConfigHash c) (client_jobs c) (client_events c).

Definition set_client_rounds v (c : Client) : Client := ltac:(set_field eta_Client client_rounds v c).
Definition set_client_store v (c : Client) : Client := ltac:(set_field eta_Client client_store v c).
Definition set_client_conn v (c : Client) : Client := ltac:(set_field eta_Client client_conn v c).
Definition set_latestRound v (c : Client) : Client := ltac:(set_field eta_Client latestRound v c).
Definition set_convoConfig v (c : Client) : Client := ltac:(set_field eta_Client convoConfig v c).
Definition set_convoConfigHash v (c : Client) : Client :=
  ltac:(set_field eta_Client convoConfigHash v c).
Definition set_client_jobs v (c : Client) : Client := ltac:(set_field eta_Client client_jobs v c).
Definition set_client_events v (c : Client) : Client := ltac:(set_field eta_Client client_events v c).

Abbreviation handler := (go Client client_error).

Definition emit (e : event) : handler unit := modify (λ c, set_client_events (client_events c ++ [e]) c).

(** ** Small operations *)

Definition LatestRound : handler Z :=
  c ← get;
  match client_conn c with Some _ => mret (latestRound c) | None => throw NotConnected end.

Definition setLatestRound (round : Z) : handler unit :=
  modify (λ c, if decide (latestRound c < round) then set_latestRound round c else c).

Definition globalAnnouncement (v : GlobalAnnouncement) : handler unit :=
  emit (CallGlobalAnnouncement (ga_Message v)).

(** [strings.Contains(s, sub)] *)
Fixpoint contains (sub s : string) : bool :=
  String.prefix sub s ||
  match s with
  | String.EmptyString => false
  | String.String _ s => contains sub s
  end.

Definition convoRoundError (v : RoundError) : handler unit :=
  if contains "round is closed:" (re_Err v) || contains "round not found" (re_Err v)
  then emit (CallDebugError (CoordinatorError (re_Round v) (re_Err v)))
  else emit (CallError (CoordinatorError (re_Round v) (re_Err v))).

(** ** newConvoRound *)

(** [fetched] is what [FetchAndVerifyChain] returns, [None] an error; [persisted] tells
    whether writing the state to disk succeeds. *)
Definition newConvoRound (now : Z) (fetched : option (list SignedConfig)) (persisted : bool)
    (v : NewRound) : handler unit :=
  setLatestRound (nr_Round v);;
  if decide (nr_EndTime v - now < 20 * millisecond)
  then emit (CallDebugError (SkippingRound (nr_Round v)))
  else
    c ← get;
    match client_rounds c !! nr_Round v with
    | Some p =>
        st ← lift (or_panic (client_store c !! p));
        if decide (config_Hash (ConfigParent st) ≠ nr_ConfigHash v)
        then emit (CallError (DifferentConfigs (nr_Round v)))
        else mret ()
    | None =>
        conf ←
          (if decide (nr_ConfigHash v = convoConfigHash c)
           then mret (Some (convoConfig c))
           else
             match fetched with
             | None => emit (CallError FetchingConfig);; mret None
             | Some configs =>
                 emit (CallNewConfig configs);;
                 newConfig ← lift (or_panic (configs !! 0%nat));
                 modify (set_convoConfig (Some newConfig));;
                 modify (set_convoConfigHash (nr_ConfigHash v));;
                 if persisted then mret (Some (Some newConfig)) else panic
             end);
        match conf with
        | None => mret ()
        | Some conf =>
            conf ← lift (or_panic conf);
            inner ← lift (or_panic (as_ConvoConfig (config_Inner conf)));
            modify (λ c,
              let p := fresh (dom (client_store c)) in
              let st := mkRoundState inner conf None in
              set_client_jobs (client_jobs c ++ [mkRunJob p v])
                (set_client_rounds (<[nr_Round v := p]> (client_rounds c))
                   (set_client_store (<[p := st]> (client_store c)) c)))
        end
    end.

(** ** runRound *)

(** The loop over the mixers: [Some key] is the first whose signature does not verify. A
    mixer without a signature makes the index panic. *)
Fixpoint verify_mixers (settingsMsg : bytes) (mixers : list PublicServerConfig) (sigs : list bytes)
    : outcome client_error (option bytes) :=
  match mixers with
  | [] => Ret None
  | mixer :: mixers =>
      match sigs with
      | [] => Panic
      | sig :: sigs =>
          if sig_Verify (Key mixer) settingsMsg sig then verify_mixers settingsMsg mixers sigs
          else Ret (Some (Key mixer))
      end
  end.

(** One message: the onion and its shared keys. A nil key makes the sealing panic. *)
Definition seal_message (coins : bytes) (round : Z) (keys : list (option bytes)) (m : DeadDropMessage)
    : outcome client_error (bytes * list bytes) :=
  keys ← or_panic (mapM id keys);
  Ret (onion_Seal coins (Convo.Marshal m) (ForwardNonce round) keys).

Fixpoint seal_messages (coins : nat → bytes) (i : nat) (round : Z) (keys : list (option bytes))
    (outgoing : list DeadDropMessage) : outcome client_error (list (bytes * list bytes)) :=
  match outgoing with
  | [] => Ret []
  | m :: outgoing =>
      sealed ← seal_message (coins i) round keys m;
      rest ← seal_messages coins (S i) round keys outgoing;
      Ret (sealed :: rest)
  end.

(** [now1] and [now2] are the clock before and after the sleep, [outgoing] is what the
    handler returns and [coins] the randomness of the onions. *)
Definition runRound (now1 now2 latency : Z) (outgoing : list DeadDropMessage) (coins : nat → bytes)
    (job : runJob) : handler unit :=
  let p := job_state job in
  let v := job_round job in
  c ← get;
  st ← lift (or_panic (client_store c !! p));
  let settingsMsg := SigningMessage (nr_MixSettings v) in
  bad ← lift (verify_mixers settingsMsg (MixServers (Config st)) (nr_MixSignatures v));
  match bad with
  | Some key => emit (CallError (BadMixSignature (nr_Round v) key))
  | None =>
      if decide (nr_EndTime v - now1 < latency)
      then emit (CallDebugError (SkippingRound (nr_Round v)))
      else
        emit (CallOutgoing (nr_Round v));;
        sealed ← lift (seal_messages coins 0 (nr_Round v) (Settings.OnionKeys (nr_MixSettings v)) outgoing);
        modify (λ c, set_client_store
          (alter (λ st, mkRoundState (Config st) (ConfigParent st) (Some (sealed.*2))) p
             (client_store c)) c);;
        if decide (nr_EndTime v - now2 < 10 * millisecond)
        then emit (CallDebugError (AbandoningRound (nr_Round v)))
        else emit (SendOnions (mkOnionMsg (nr_Round v) (sealed.*1)))
  end.

(** ** openReplyOnion *)

(** The loop: the messages, a nil one where the onion does not open, and the errors. *)
Fixpoint open_onions (round : Z) (expectedOnionSize : nat) (onions : list bytes)
    (keys : list (list bytes)) : outcome client_error (list bytes * list client_error) :=
  match onions with
  | [] => Ret ([], [])
  | onion :: onions =>
      if decide (length onion ≠ expectedOnionSize)
      then
        '(msgs, errs) ← open_onions round expectedOnionSize onions (tail keys);
        Ret ([] :: msgs, MalformedOnion round (length onion) expectedOnionSize :: errs)
      else
        ks ← or_panic (head keys);
        '(msgs, errs) ← open_onions round expectedOnionSize onions (tail keys);
        match onion_Open onion (BackwardNonce round) ks with
        | Some msg => Ret (msg :: msgs, errs)
        | None => Ret ([] :: msgs, DecryptOnionFailed round :: errs)
        end
  end.

Fixpoint emit_errors (errs : list client_error) : handler unit :=
  match errs with
  | [] => mret ()
  | e :: errs => emit (CallError e);; emit_errors errs
  end.

Definition openReplyOnion (v : OnionMsg) : handler unit :=
  let round := om_Round v in
  c ← get;
  match client_rounds c !! round with
  | None => emit (CallError (RoundNotConfigured round))
  | Some p =>
      st ← lift (or_panic (client_store c !! p));
      match OnionKeys st with
      | None => emit (CallError (NoOnionKeys round))
      | Some keys =>
          if decide (length keys ≠ length (om_Onions v))
          then emit (CallError (WrongOnionCount round (length keys) (length (om_Onions v))))
          else
            let size := (SizeEncryptedMessageBody + length (MixServers (Config st)) * box_Overhead)%nat in
            '(msgs, errs) ← lift (open_onions round size (om_Onions v) keys);
            emit_errors errs;;
            emit (CallReplies round msgs);;
            modify (λ c, set_client_rounds (delete round (client_rounds c)) c)
      end
  end.

End client.

(** ** Signatures of the mixers *)

Section client_properties.
Context `{NaClLaws} `{Onionbox} `{Signature} `{SignedConfigs}.

(** Every mixer has a signature that verifies, at its own place. *)
Definition all_signed (msg : bytes) (mixers : list PublicServerConfig) (sigs : list bytes) : Prop :=
  ∀ i mixer, mixers !! i = Some mixer →
    ∃ sig, sigs !! i = Some sig ∧ sig_Verify (Key mixer) msg sig = true.

Lemma verify_mixers_ok msg mixers sigs :
  verify_mixers msg mixers sigs = Ret None ↔ all_signed msg mixers sigs.
Proof.
  revert sigs. induction mixers as [|m mixers IH]; intros sigs; cbn [verify_mixers].
  - split; [intros _ i mixer Hm; by rewrite lookup_nil in Hm|done].
  - destruct sigs as [|sig sigs].
    + split; [done|]. intros Hall. destruct (Hall 0%nat m eq_refl) as (sig & Hs & _). done.
    + destruct (sig_Verify (Key m) msg sig) eqn:Ev.
      * rewrite IH. split.
        -- intros Hall [|i] mixer Hm; [injection Hm as <-; by exists sig|]. apply (Hall i mixer Hm).
        -- intros Hall i mixer Hm. apply (Hall (S i) mixer Hm).
      * split; [done|]. intros Hall. destruct (Hall 0%nat m eq_refl) as (sig' & [= <-] & Hv). congruence.
Qed.

(** The first mixer whose signature does not verify. *)
Lemma verify_mixers_bad msg mixers sigs key :
  verify_mixers msg mixers sigs = Ret (Some key) →
  ∃ i mixer sig, mixers !! i = Some mixer ∧ Key mixer = key ∧ sigs !! i = Some sig ∧
    sig_Verify key msg sig = false ∧ all_signed msg (take i mixers) sigs.
Proof.
  revert sigs. induction mixers as [|m mixers IH]; intros sigs; cbn [verify_mixers]; [done|].
  destruct sigs as [|sig sigs]; [done|].
  destruct (sig_Verify (Key m) msg sig) eqn:Ev.
  - intros Hv. destruct (IH sigs Hv) as (i & mixer & sig' & ? & ? & ? & ? & Hall).
    exists (S i), mixer, sig'. repeat split; try done.
    intros [|j] m' Hm'; [injection Hm' as <-; by exists sig|]. apply (Hall j m' Hm').
  - intros [= <-]. exists 0%nat, m, sig. repeat split; done.
Qed.

Lemma verify_mixers_total msg mixers sigs :
  (length mixers ≤ length sigs)%nat → ∃ r, verify_mixers msg mixers sigs = Ret r.
Proof.
  revert sigs. induction mixers as [|m mixers IH]; intros sigs Hl; cbn [verify_mixers]; [eauto|].
  destruct sigs as [|sig sigs]; [simpl in Hl; lia|].
  destruct (sig_Verify (Key m) msg sig); [apply IH; simpl in Hl; lia|eauto].
Qed.

(** ** Sealing *)

(** The onions of the messages, with their keys. *)
Definition sealed_messages (coins : nat → bytes) (round : Z) (keys : list bytes)
    (outgoing : list DeadDropMessage) : list (bytes * list bytes) :=
  imap (λ i m, onion_Seal (coins i) (Convo.Marshal m) (ForwardNonce round) keys) outgoing.

Lemma seal_messages_ok coins i round keys outgoing :
  seal_messages coins i round (Some <$> keys) outgoing =
    Ret (sealed_messages (λ j, coins (i + j)%nat) round keys outgoing).
Proof.
  revert i. induction outgoing as [|m outgoing IH]; intros i; [done|].
  cbn [seal_messages]. unfold seal_message. rewrite mapM_id_Some. cbn [or_panic mbind outcome_bind].
  rewrite (IH (S i)). cbn. unfold sealed_messages. cbn. rewrite Nat.add_0_r. do 2 f_equal.
  apply imap_ext. intros j m' _. cbn. by rewrite Nat.add_succ_r.
Qed.

(** [alter] of the round state at [p]. *)
Definition with_keys (p : loc) (keys : list (list bytes)) (c : Client) : Client :=
  set_client_store (alter (λ st, mkRoundState (Config st) (ConfigParent st) (Some keys)) p (client_store c)) c.

Definition add_events (es : list event) (c : Client) : Client :=
  set_client_events (client_events c ++ es) c.

Lemma add_events_app es es' c : add_events es' (add_events es c) = add_events (es ++ es') c.
Proof. unfold add_events. cbn. by rewrite <- app_assoc. Qed.

Lemma emit_run e c : emit e c = (add_events [e] c, Ret ()).
Proof. done. Qed.

(** What [runRound] does once the settings are verified. *)
Lemma runRound_verified now1 now2 latency outgoing coins p v c st :
  client_store c !! p = Some st →
  all_signed (SigningMessage (nr_MixSettings v)) (MixServers (Config st)) (nr_MixSignatures v) →
  runRound now1 now2 latency outgoing coins (mkRunJob p v) c =
    if decide (nr_EndTime v - now1 < latency)
    then (add_events [CallDebugError (SkippingRound (nr_Round v))] c, Ret ())
    else
      match seal_messages coins 0 (nr_Round v) (Settings.OnionKeys (nr_MixSettings v)) outgoing with
      | Ret sealed =>
          (add_events [CallOutgoing (nr_Round v);
             if decide (nr_EndTime v - now2 < 10 * millisecond)
             then CallDebugError (AbandoningRound (nr_Round v))
             else SendOnions (mkOnionMsg (nr_Round v) (sealed.*1))] (with_keys p (sealed.*2) c), Ret ())
      | Err e => (add_events [CallOutgoing (nr_Round v)] c, Err e)
      | Panic => (add_events [CallOutgoing (nr_Round v)] c, Panic)
      | Block => (add_events [CallOutgoing (nr_Round v)] c, Block)
      end.
Proof.
  intros Hp Hv%verify_mixers_ok. unfold runRound. rewrite go_bind_unfold. cbn [get job_state job_round].
  rewrite Hp. rewrite go_bind_unfold. cbn [or_panic lift]. rewrite go_bind_unfold. cbn [lift].
  rewrite Hv. destruct (decide (nr_EndTime v - now1 < latency)); [done|].
  rewrite go_bind_unfold, emit_run. rewrite go_bind_unfold. cbn [lift].
  destruct (seal_messages _ _ _ _ _) as [sealed| | |]; [|done..].
  rewrite go_bind_unfold. cbn [modify].
  destruct (decide (nr_EndTime v - now2 < 10 * millisecond)); rewrite emit_run;
    unfold with_keys, add_events; cbn; by rewrite <- app_assoc.
Qed.

(** C23. Onions only for settings that every mixer signed. Whatever the coordinator announces
    and whatever the clock reads, [runRound] asks for messages and sends onions only
    when each mixer of the round's configuration has signed the settings; then, in
    time, it sends for each message an onion sealed with the round's keys and keeps the
    shared keys. A signature that does not verify is reported and nothing else is
    done; with fewer signatures than mixers the client panics. *)
Theorem runRound_sends_when_signed now1 now2 latency outgoing coins p v c st :
  client_store c !! p = Some st →
  let msg := SigningMessage (nr_MixSettings v) in
  let mixers := MixServers (Config st) in
  let run := runRound now1 now2 latency outgoing coins (mkRunJob p v) c in
  (¬ all_signed msg mixers (nr_MixSignatures v) →
     (run.2 = Panic ∧ run.1 = c ∧ (length (nr_MixSignatures v) < length mixers)%nat) ∨
     ∃ i mixer sig, mixers !! i = Some mixer ∧ nr_MixSignatures v !! i = Some sig ∧
       sig_Verify (Key mixer) msg sig = false ∧
       run = (add_events [CallError (BadMixSignature (nr_Round v) (Key mixer))] c, Ret ())) ∧
  (all_signed msg mixers (nr_MixSignatures v) → ∀ keys,
     Settings.OnionKeys (nr_MixSettings v) = Some <$> keys →
     latency <= nr_EndTime v - now1 → 10 * millisecond <= nr_EndTime v - now2 →
     let sealed := sealed_messages coins (nr_Round v) keys outgoing in
     run = (add_events [CallOutgoing (nr_Round v); SendOnions (mkOnionMsg (nr_Round v) (sealed.*1))]
              (with_keys p (sealed.*2) c), Ret ())).
Proof.
  intros Hp msg mixers run. split.
  - intros Hn. unfold run, runRound. rewrite go_bind_unfold. cbn [get job_state job_round].
    rewrite Hp. rewrite go_bind_unfold. cbn [or_panic lift]. rewrite go_bind_unfold. cbn [lift].
    fold msg mixers. destruct (verify_mixers msg mixers (nr_MixSignatures v)) as [[key|]|e| |] eqn:E.
    + right. destruct (verify_mixers_bad _ _ _ _ E) as (i & mixer & sig & Hm & <- & Hs & Hv & _).
      exists i, mixer, sig. rewrite emit_run. done.
    + by apply verify_mixers_ok in E.
    + exfalso. clear -E. revert E. generalize (nr_MixSignatures v). clearbody mixers.
      induction mixers as [|m mixers IH]; intros [|s sigs]; cbn; try done.
      destruct (sig_Verify _ _ _); [apply IH|done].
    + left. split; [done|]. split; [done|]. apply Nat.nle_gt. intros Hle.
      destruct (verify_mixers_total msg mixers _ Hle) as [r Er]. congruence.
    + exfalso. clear -E. revert E. generalize (nr_MixSignatures v). clearbody mixers.
      induction mixers as [|m mixers IH]; intros [|s sigs]; cbn; try done.
      destruct (sig_Verify _ _ _); [apply IH|done].
  - intros Hv keys Hk Ht1 Ht2 sealed. unfold run. rewrite (runRound_verified _ _ _ _ _ _ _ _ st) by done.
    rewrite decide_False by lia. rewrite Hk, seal_messages_ok. rewrite decide_False by lia. done.
Qed.

(** ** Opening the replies *)

(** The message a reply stands for: nil where it has the wrong size or does not open. *)
Definition opened_reply (round : Z) (size : nat) (onion : bytes) (ks : list bytes) : bytes :=
  if decide (length onion ≠ size) then []
  else default [] (onion_Open onion (BackwardNonce round) ks).

Definition opens (round : Z) (size : nat) (onion : bytes) (ks : list bytes) : Prop :=
  length onion = size ∧ is_Some (onion_Open onion (BackwardNonce round) ks).

Lemma open_onions_run round size onions keys :
  length keys = length onions →
  ∃ errs, open_onions round size onions keys = Ret (zip_with (opened_reply round size) onions keys, errs) ∧
    (Forall2 (opens round size) onions keys → errs = []).
Proof.
  revert keys. induction onions as [|o onions IH]; intros [|ks keys] Hl; try done; [by exists []|].
  destruct (IH keys) as (errs & E & Hok); [simpl in Hl; lia|].
  cbn [open_onions tail head zip_with].
  destruct (decide (length o ≠ size)) as [Hs|Hs].
  - assert (Eo : opened_reply round size o ks = []) by (unfold opened_reply; by rewrite decide_True).
    rewrite E, Eo. eexists. split; [done|]. by intros [[? _] _]%Forall2_cons_1.
  - assert (Eo : opened_reply round size o ks = default [] (onion_Open o (BackwardNonce round) ks))
      by (unfold opened_reply; by rewrite decide_False).
    rewrite E, Eo. cbn [or_panic mbind outcome_bind].
    destruct (onion_Open o (BackwardNonce round) ks) as [m|] eqn:Em; eexists; (split; [done|]);
      intros [[_ Ho] Hrest]%Forall2_cons_1; [by apply Hok|].
    rewrite Em in Ho. by destruct Ho.
Qed.

Lemma emit_errors_run errs c : emit_errors errs c = (add_events (CallError <$> errs) c, Ret ()).
Proof.
  revert c. induction errs as [|e errs IH]; intros c.
  - unfold add_events. cbn. rewrite app_nil_r. by destruct c.
  - cbn [emit_errors]. rewrite go_bind_unfold, emit_run, IH, add_events_app. done.
Qed.

(** A message with as many replies as the client keeps keys. *)
Lemma openReplyOnion_run v c p st keys :
  client_rounds c !! om_Round v = Some p → client_store c !! p = Some st → OnionKeys st = Some keys →
  length keys = length (om_Onions v) →
  let size := (SizeEncryptedMessageBody + length (MixServers (Config st)) * box_Overhead)%nat in
  ∃ errs, openReplyOnion v c =
    (set_client_rounds (delete (om_Round v) (client_rounds c))
       (add_events ((CallError <$> errs) ++
          [CallReplies (om_Round v) (zip_with (opened_reply (om_Round v) size) (om_Onions v) keys)]) c), Ret ()) ∧
    (Forall2 (opens (om_Round v) size) (om_Onions v) keys → errs = []).
Proof.
  intros Hp Hst Hk El size. unfold openReplyOnion. rewrite go_bind_unfold. cbn [get].
  rewrite Hp. rewrite go_bind_unfold, Hst. cbn [or_panic lift]. rewrite Hk, decide_False by auto.
  destruct (open_onions_run (om_Round v) size (om_Onions v) keys El) as (errs & E & Hok).
  rewrite go_bind_unfold. cbn [lift]. fold size. rewrite E. rewrite go_bind_unfold, emit_errors_run.
  rewrite go_bind_unfold, emit_run, add_events_app. cbn [modify]. exists errs. by split.
Qed.

(** Every case of [openReplyOnion], for messages of every kind. *)
Lemma openReplyOnion_cases v c :
  let round := om_Round v in
  match client_rounds c !! round with
  | None => openReplyOnion v c = (add_events [CallError (RoundNotConfigured round)] c, Ret ())
  | Some p => ∀ st, client_store c !! p = Some st →
      match OnionKeys st with
      | None => openReplyOnion v c = (add_events [CallError (NoOnionKeys round)] c, Ret ())
      | Some keys =>
          let n := length (om_Onions v) in
          let size := (SizeEncryptedMessageBody + length (MixServers (Config st)) * box_Overhead)%nat in
          (length keys ≠ n →
             openReplyOnion v c = (add_events [CallError (WrongOnionCount round (length keys) n)] c, Ret ())) ∧
          (length keys = n → ∃ errs,
             openReplyOnion v c =
               (set_client_rounds (delete round (client_rounds c))
                  (add_events ((CallError <$> errs) ++
                     [CallReplies round (zip_with (opened_reply round size) (om_Onions v) keys)]) c), Ret ()) ∧
             (Forall2 (opens round size) (om_Onions v) keys → errs = []))
      end
  end.
Proof.
  intros round. destruct (client_rounds c !! round) as [p|] eqn:Ep.
  - intros st Hst. destruct (OnionKeys st) as [keys|] eqn:Ek.
    + split; [|by apply openReplyOnion_run with p].
      intros Hne. unfold openReplyOnion. rewrite go_bind_unfold. cbn [get]. fold round. rewrite Ep.
      rewrite go_bind_unfold, Hst. cbn [or_panic lift]. by rewrite Ek, decide_True.
    + unfold openReplyOnion. rewrite go_bind_unfold. cbn [get]. fold round. rewrite Ep.
      rewrite go_bind_unfold, Hst. cbn [or_panic lift]. by rewrite Ek.
  - unfold openReplyOnion. rewrite go_bind_unfold. cbn [get]. fold round. by rewrite Ep.
Qed.

(** C24. The replies reach the handler. A message with the replies of a round for which the client
    keeps as many keys ends the round with one call of the handler, which gets for every
    onion what it opens to, and nil, after an error report, where it does not open; with
    any other number of replies, for an unknown round or before onions were sealed, there
    is one error report and the round stays. *)
Theorem openReplyOnion_answers v c :
  let round := om_Round v in
  match client_rounds c !! round with
  | None => openReplyOnion v c = (add_events [CallError (RoundNotConfigured round)] c, Ret ())
  | Some p => ∀ st, client_store c !! p = Some st →
      match OnionKeys st with
      | None => openReplyOnion v c = (add_events [CallError (NoOnionKeys round)] c, Ret ())
      | Some keys =>
          let n := length (om_Onions v) in
          let size := (SizeEncryptedMessageBody + length (MixServers (Config st)) * box_Overhead)%nat in
          (length keys ≠ n →
             openReplyOnion v c = (add_events [CallError (WrongOnionCount round (length keys) n)] c, Ret ())) ∧
          (length keys = n → ∃ errs,
             openReplyOnion v c =
               (set_client_rounds (delete round (client_rounds c))
                  (add_events ((CallError <$> errs) ++
                     [CallReplies round (zip_with (opened_reply round size) (om_Onions v) keys)]) c), Ret ()) ∧
             (Forall2 (opens round size) (om_Onions v) keys → errs = []))
      end
  end.
Proof. apply openReplyOnion_cases. Qed.

End client_properties.
