(* ===== verification/ClientConn.v ===== *)
(** * The connection of the client library (client.go)

    [ConnectConvo] dials the coordinator, makes the configuration it fetched the client's own
    and leaves a goroutine that serves the connection: it runs the handler of each message in
    turn and, when the connection is over, tells the caller and clears [conn]. Messages,
    rounds, new connections and the ends of old ones interleave; [session_step] is one of
    these, and the theorems hold in every session that such steps reach. *)

From Stdlib Require Import ZArith Lia.
From stdpp Require Import base numbers strings gmap fin_maps list.
From S2P Require Import Prelude GoStd Json External Settings Convo ConvoConfig Coordinator Client Wp.

Section connection.
Context `{NaCl} `{Onionbox} `{Signature} `{SignedConfigs}.

Abbreviation handler := (go Client client_error).

(** ** Operations *)

(** [fetched] is what [CurrentConfig] returns, [None] an error; [dial] is [typesocket.Dial]: a
    connection to an address whose server has a key, [None] an error. *)
Definition ConnectConvo (has_handler : bool) (fetched : option SignedConfig)
    (dial : string → bytes → option nat) : handler nat :=
  if has_handler then
    match fetched with
    | None => throw FetchingConfig
    | Some conf =>
        inner ← lift (or_panic (as_ConvoConfig (config_Inner conf)));
        let wsAddr := ("wss://" ++ coord_Address (Coordinator inner) ++ "/convo/ws")%string in
        match dial wsAddr (coord_Key (Coordinator inner)) with
        | None => throw DialFailed
        | Some conn =>
            modify (set_client_conn (Some conn));;
            modify (set_convoConfig (Some conf));;
            modify (set_convoConfigHash (config_Hash conf));;
            mret conn
        end
    end
  else throw NoHandler.

(** The connection that is closed. *)
Definition CloseConvo : handler (option nat) :=
  c ← get;
  match client_conn c with
  | Some conn => modify (set_client_conn None);; mret (Some conn)
  | None => mret None
  end.

(** A message of the coordinator, with the arguments of its handler. *)
Inductive coordinator_message :=
| Announcement (v : GlobalAnnouncement)
| NewRoundMessage (now : Z) (fetched : option (list SignedConfig)) (persisted : bool) (v : NewRound)
| Reply (v : OnionMsg)
| ErrorMessage (v : RoundError).

Definition convoMux (m : coordinator_message) : handler unit :=
  match m with
  | Announcement v => globalAnnouncement v
  | NewRoundMessage now fetched persisted v => newConvoRound now fetched persisted v
  | Reply v => openReplyOnion v
  | ErrorMessage v => convoRoundError v
  end.

(** ** Sessions *)

(** The goroutine of a connection serves it, or has told that it is over and will clear
    [conn]. *)
Inductive serve_phase := Serving | Leaving.

Record session := mkSession {
  client : Client;
  goroutines : list (nat * serve_phase);
  dialed : gset nat
}.

(** The goroutine starts when [ConnectConvo] returns a connection. *)
Definition connect (has_handler : bool) (fetched : option SignedConfig)
    (dial : string → bytes → option nat) (s : session) : session * outcome client_error unit :=
  match ConnectConvo has_handler fetched dial (client s) with
  | (c, Ret conn) =>
      (mkSession c (goroutines s ++ [(conn, Serving)]) ({[conn]} ∪ dialed s), Ret ())
  | (c, Err e) => (mkSession c (goroutines s) (dialed s), Err e)
  | (c, Panic) => (mkSession c (goroutines s) (dialed s), Panic)
  | (c, Block) => (mkSession c (goroutines s) (dialed s), Block)
  end.

Definition in_client {A} (m : handler A) (s : session) : session * outcome client_error unit :=
  match m (client s) with
  | (c, Ret _) => (mkSession c (goroutines s) (dialed s), Ret ())
  | (c, Err e) => (mkSession c (goroutines s) (dialed s), Err e)
  | (c, Panic) => (mkSession c (goroutines s) (dialed s), Panic)
  | (c, Block) => (mkSession c (goroutines s) (dialed s), Block)
  end.

(** ** Steps *)

(** A configuration of the conversation protocol. *)
Definition convo_config (conf : SignedConfig) : Prop := is_Some (as_ConvoConfig (config_Inner conf)).

(** An announced round has a signature for each mixer and every onion key. *)
Definition complete_round (st : roundState) (v : NewRound) : Prop :=
  (length (MixServers (Config st)) ≤ length (nr_MixSignatures v))%nat ∧
  Forall is_Some (Settings.OnionKeys (nr_MixSettings v)).

(** What can happen next, with what comes from outside. A dial gives a connection that is new. *)
Inductive action :=
| DoConnect (has_handler : bool) (fetched : option SignedConfig) (dial : string → bytes → option nat)
| DoClose
| DoMessage (conn : nat) (m : coordinator_message)
| DoRound (now1 now2 latency : Z) (outgoing : list DeadDropMessage) (coins : nat → bytes)
    (before : list runJob) (job : runJob) (after : list runJob)
| DoDisconnect (before : list (nat * serve_phase)) (conn : nat) (after : list (nat * serve_phase))
| DoLeave (before : list (nat * serve_phase)) (conn : nat) (after : list (nat * serve_phase)).

Inductive session_step : session → action → session * outcome client_error unit → Prop :=
| step_connect has_handler fetched dial s :
    (∀ addr key conn, dial addr key = Some conn → conn ∉ dialed s) →
    session_step s (DoConnect has_handler fetched dial) (connect has_handler fetched dial s)
| step_close s :
    session_step s DoClose (in_client CloseConvo s)
| step_message conn m s :
    (conn, Serving) ∈ goroutines s →
    session_step s (DoMessage conn m) (in_client (convoMux m) s)
| step_round now1 now2 latency outgoing coins before job after s :
    client_jobs (client s) = before ++ job :: after →
    session_step s (DoRound now1 now2 latency outgoing coins before job after) (in_client
      (modify (set_client_jobs (before ++ after));;
       runRound now1 now2 latency outgoing coins job) s)
| step_disconnect before conn after s :
    goroutines s = before ++ (conn, Serving) :: after →
    session_step s (DoDisconnect before conn after)
      (mkSession (client s) (before ++ (conn, Leaving) :: after) (dialed s), Ret ())
| step_leave before conn after s :
    goroutines s = before ++ (conn, Leaving) :: after →
    session_step s (DoLeave before conn after)
      (mkSession (set_client_conn None (client s)) (before ++ after) (dialed s), Ret ()).

(** ** What makes the program panic

    A configuration of another service; a chain of configurations that is empty, or a new
    configuration that cannot be written to disk. *)
Definition new_round_crashes (c : Client) (now : Z) (fetched : option (list SignedConfig)) (persisted : bool)
    (v : NewRound) : Prop :=
  ¬ (nr_EndTime v - now < 20 * millisecond) ∧ client_rounds c !! nr_Round v = None ∧
  nr_ConfigHash v ≠ convoConfigHash c ∧
  match fetched with
  | None => False
  | Some [] => True
  | Some (conf :: _) => persisted = false ∨ ¬ convo_config conf
  end.

Definition crashes (s : session) (a : action) : Prop :=
  match a with
  | DoConnect true (Some conf) _ => ¬ convo_config conf
  | DoMessage _ (NewRoundMessage now fetched persisted v) => new_round_crashes (client s) now fetched persisted v
  | DoRound _ _ _ _ _ _ job _ =>
      ∃ st, client_store (client s) !! job_state job = Some st ∧ ¬ complete_round st (job_round job)
  | _ => False
  end.

(** An incomplete round need not get as far as what it lacks. *)
Definition is_round (a : action) : bool := match a with DoRound _ _ _ _ _ _ _ _ => true | _ => false end.

(** A step that returned or failed: no panic, nothing that blocks for ever. *)
Definition completes (o : outcome client_error unit) : Prop :=
  match o with Ret _ | Err _ => True | _ => False end.

#[export] Instance new_round_crashes_decision c now fetched persisted v :
  Decision (new_round_crashes c now fetched persisted v).
Proof.
  unfold new_round_crashes. repeat apply and_dec; try apply _.
  destruct fetched as [[|conf rest]|]; [apply _|unfold convo_config; apply _|apply _].
Defined.

(** A client that was loaded or bootstrapped, not connected yet. *)
Definition fresh_client (c : Client) : Prop :=
  client_conn c = None ∧ client_rounds c = ∅ ∧ client_jobs c = [].

(** A panic ends the program, so that no step follows it. *)
Inductive reachable (c0 : Client) : session → Prop :=
| reachable_start : reachable c0 (mkSession c0 [] ∅)
| reachable_step s a s' o : reachable c0 s → session_step s a (s', o) → completes o → reachable c0 s'.

(** ** The invariant *)

Record good_client (c : Client) : Prop := {
  good_rounds : map_Forall (λ _ p, is_Some (client_store c !! p)) (client_rounds c);
  good_jobs : Forall (λ j, is_Some (client_store c !! job_state j)) (client_jobs c)
}.

Record good_session (s : session) : Prop := {
  good_state : good_client (client s);
  (** from the first connection on there is a configuration, and only then are there rounds *)
  good_config : dialed s ≠ ∅ → ∃ conf, convoConfig (client s) = Some conf ∧ convo_config conf;
  good_started : client_jobs (client s) ≠ [] → dialed s ≠ ∅;
  (** the connection the client uses has its goroutine *)
  good_conn : ∀ conn, client_conn (client s) = Some conn → conn ∈ (goroutines s).*1;
  good_dialed : Forall (λ g, g.1 ∈ dialed s) (goroutines s);
  good_once : NoDup (goroutines s).*1
}.

(** What an operation that neither panics nor blocks keeps of the client. *)
Definition configured (c : Client) : Prop := ∃ conf, convoConfig c = Some conf ∧ convo_config conf.

Definition same_conn (c c' : Client) : Prop :=
  good_client c' ∧ client_conn c' = client_conn c ∧ configured c'.

Definition keeps {A} (m : handler A) : Prop := ∀ c,
  good_client c → configured c → wp m (λ _, same_conn c) (λ _, same_conn c) c.

Lemma keeps_from {A} (m : handler A) c c1 :
  keeps m → same_conn c c1 → wp m (λ _, same_conn c) (λ _, same_conn c) c1.
Proof.
  intros Hm (Hg & E & Hc). eapply wp_mono; [by apply Hm|cbn..].
  all: intros _ c2 (Hg2 & E2 & Hc2); split_and!; [done|congruence|done].
Qed.

Lemma keeps_emit e : keeps (emit e).
Proof. intros c [Hr Hj] Hc. unfold emit. wp_steps. split_and!; [by split|done|done]. Qed.

Lemma keeps_conn_ret {A} (a : A) : keeps (mret a).
Proof. intros c Hg Hc. wp_steps. by split_and!. Qed.

Lemma keeps_conn_bind {A B} (m : handler A) (f : A → handler B) :
  keeps m → (∀ a, keeps (f a)) → keeps (m ≫= f).
Proof.
  intros Hm Hf c Hg Hc. apply wp_bind. eapply wp_mono; [by apply Hm| |done].
  intros a c1 Hs. by apply keeps_from.
Qed.

Lemma keeps_emit_errors errs : keeps (emit_errors errs).
Proof.
  induction errs as [|e errs IH]; [apply keeps_conn_ret|]. cbn. apply keeps_conn_bind; [apply keeps_emit|done].
Qed.

Lemma keeps_setLatestRound round : keeps (setLatestRound round).
Proof.
  intros c [Hr Hj] Hc. unfold setLatestRound. wp_steps.
  destruct (decide (latestRound c < round)); (split_and!; [by split|done|done]).
Qed.

(** A round that is new to the client. *)
Definition add_round (inner : ConvoConfig) (conf : SignedConfig) (v : NewRound) : handler unit :=
  modify (λ c,
    let p := fresh (dom (client_store c)) in
    let st := mkRoundState inner conf None in
    set_client_jobs (client_jobs c ++ [mkRunJob p v])
      (set_client_rounds (<[nr_Round v := p]> (client_rounds c))
         (set_client_store (<[p := st]> (client_store c)) c))).

Lemma keeps_add_round inner conf v : keeps (add_round inner conf v).
Proof.
  intros c [Hr Hj] Hc. unfold add_round. wp_steps.
  assert (Hmore : ∀ p q st, is_Some (client_store c !! p) → is_Some (<[q := st]> (client_store c) !! p)).
  { intros p q st Hp. apply lookup_insert_is_Some'. by right. }
  split_and!; [split|done|done]; cbn.
  - apply map_Forall_insert_2; [by rewrite lookup_insert_eq|].
    intros r p Hp. by apply Hmore, (Hr r).
  - apply Forall_app. split.
    + eapply Forall_impl; [exact Hj|]. intros j Hjob. by apply Hmore.
    + constructor; [by rewrite lookup_insert_eq|constructor].
Qed.

(** Steps through the reads that do not panic. *)
Ltac wp_reads := repeat (progress (wp_steps; cbn [or_panic])).

(** An operation that panics exactly where [P] holds. *)
Definition panics_if {A} (P : Prop) (m : handler A) (c : Client) : Prop :=
  (P ∧ (m c).2 = Panic) ∨ (¬ P ∧ wp m (λ _, same_conn c) (λ _, same_conn c) c).

Lemma never_panics {A} (m : handler A) c :
  keeps m → good_client c → configured c → panics_if False m c.
Proof. intros Hm Hg Hc. right. split; [by intros []|by apply Hm]. Qed.

(** The client after it noted the number of a round. *)
Definition noted (round : Z) (c : Client) : Client :=
  if decide (latestRound c < round) then set_latestRound round c else c.

Lemma noted_same round c :
  client_rounds (noted round c) = client_rounds c ∧ client_store (noted round c) = client_store c ∧
  convoConfig (noted round c) = convoConfig c ∧ convoConfigHash (noted round c) = convoConfigHash c ∧
  client_conn (noted round c) = client_conn c ∧ client_jobs (noted round c) = client_jobs c.
Proof. unfold noted. by case_decide. Qed.

Lemma noted_same_conn round c : good_client c → configured c → same_conn c (noted round c).
Proof.
  intros [Hr Hj] Hc. destruct (noted_same round c) as (E1 & E2 & E3 & E4 & E5 & E6).
  split_and!; [split; by rewrite ?E1, ?E2, ?E6|done|]. unfold configured. by rewrite E3.
Qed.

Lemma newConvoRound_panic now fetched persisted v c :
  new_round_crashes c now fetched persisted v → (newConvoRound now fetched persisted v c).2 = Panic.
Proof.
  intros (Hlt & Hr & Hh & Hf). destruct (noted_same (nr_Round v) c) as (E1 & _ & _ & E4 & _).
  unfold newConvoRound, setLatestRound. rewrite go_bind_unfold. cbn [modify]. fold (noted (nr_Round v) c).
  rewrite decide_False by done. rewrite go_bind_unfold. cbn [get]. rewrite E1, Hr, E4, decide_False by done.
  destruct fetched as [[|conf rest]|]; [done| |done]. unfold emit. rewrite !go_bind_unfold. cbn -[config_Inner].
  destruct persisted; [|done]. cbn -[config_Inner]. destruct Hf as [|Hf]; [done|]. unfold convo_config in Hf.
  destruct (as_ConvoConfig (config_Inner conf)) eqn:Ei; [by destruct Hf|].
  repeat (rewrite go_bind_unfold; cbn -[config_Inner as_ConvoConfig]). by rewrite Ei.
Qed.

Lemma newConvoRound_keeps now fetched persisted v c :
  good_client c → configured c → ¬ new_round_crashes c now fetched persisted v →
  wp (newConvoRound now fetched persisted v) (λ _, same_conn c) (λ _, same_conn c) c.
Proof.
  intros Hg0 Hc0 Hno. assert (Hsame := noted_same_conn (nr_Round v) c Hg0 Hc0).
  destruct (noted_same (nr_Round v) c) as (E1 & _ & _ & E4 & _). unfold newConvoRound, setLatestRound. apply wp_bind.
  apply wp_modify. fold (noted (nr_Round v) c). unfold new_round_crashes in Hno. rewrite <- E1, <- E4 in Hno.
  clear E1 E4. set (c1 := noted (nr_Round v) c) in *. clearbody c1.
  destruct (decide (nr_EndTime v - now < 20 * millisecond)); [apply (keeps_from (emit _) c c1); [apply keeps_emit|done]|].
  destruct Hsame as (Hg & En & Hc). assert (Hc' := Hc). destruct Hc' as (conf0 & Econf & Hconf0). wp_reads.
  destruct (client_rounds c1 !! nr_Round v) as [p|] eqn:Ep.
  { destruct (good_rounds c1 Hg _ _ Ep) as [st Est]. rewrite Est. wp_reads.
    case_decide; [by apply (keeps_from (emit _) c c1); [apply keeps_emit|]|by wp_reads]. }
  destruct (decide (nr_ConfigHash v = convoConfigHash c1)) as [Eh|Eh].
  - wp_reads. rewrite Econf. destruct Hconf0 as [inner Ei]. wp_reads. rewrite Ei. wp_reads.
    by apply (keeps_from (add_round inner conf0 v) c c1); [apply keeps_add_round|].
  - destruct Hg as [Hr Hj]. destruct fetched as [configs|]; unfold emit; wp_reads; [|by split_and!; [split|..]].
    destruct configs as [|conf rest]; [by destruct Hno|].
    destruct persisted; [|destruct Hno; tauto]. assert (Hconf : convo_config conf).
    { apply dec_stable. intros Hn. destruct Hno. tauto. }
    assert (Hconf' := Hconf). destruct Hconf' as [inner Ei].
    change ((conf :: rest) !! 0%nat) with (Some conf). wp_reads. rewrite Ei. wp_reads.
    apply (keeps_from (add_round inner conf v) c); [apply keeps_add_round|].
    split_and!; [by split|done|by exists conf].
Qed.

Lemma open_onions_total round size onions keys :
  (length onions ≤ length keys)%nat → ∃ r, open_onions round size onions keys = Ret r.
Proof.
  revert keys. induction onions as [|onion onions IH]; intros keys Hl; cbn [open_onions]; [eauto|].
  destruct keys as [|ks keys]; [cbn in Hl; lia|]. cbn in Hl.
  destruct (IH keys ltac:(lia)) as [[msgs errs] E]. cbn [tail head]. rewrite E.
  case_decide; cbn; [eauto|]. destruct (onion_Open onion (BackwardNonce round) ks); eauto.
Qed.

Lemma keeps_openReplyOnion v : keeps (openReplyOnion v).
Proof.
  intros c Hg Hc. unfold openReplyOnion. wp_reads.
  destruct (client_rounds c !! om_Round v) as [p|] eqn:Ep; [|by apply keeps_emit].
  destruct (good_rounds c Hg _ _ Ep) as [st Est]. rewrite Est. wp_reads.
  destruct (OnionKeys st) as [keys|]; [|by apply keeps_emit].
  destruct (decide (length keys ≠ length (om_Onions v))) as [|El]; [by apply keeps_emit|].
  apply dec_stable in El.
  destruct (open_onions_total (om_Round v)
    (SizeEncryptedMessageBody + length (MixServers (Config st)) * box_Overhead) (om_Onions v) keys
    ltac:(lia)) as [[msgs errs] E].
  rewrite E. wp_reads. eapply wp_mono; [by apply keeps_emit_errors| |done].
  intros _ c1 (Hg1 & E1 & Hc1). unfold emit. wp_reads. destruct Hg1 as [Hr Hj].
  split_and!; [split|done|done]; cbn; [|done]. by apply map_Forall_delete.
Qed.

Lemma convoMux_panics conn m s :
  good_client (client s) → configured (client s) → panics_if (crashes s (DoMessage conn m)) (convoMux m) (client s).
Proof.
  intros Hg Hc. destruct m as [v|now fetched persisted v|v|v]; cbn [convoMux crashes].
  - apply never_panics; [apply keeps_emit|done..].
  - destruct (decide (new_round_crashes (client s) now fetched persisted v)) as [Hy|Hn].
    + left. split; [done|by apply newConvoRound_panic].
    + right. split; [done|by apply newConvoRound_keeps].
  - apply never_panics; [apply keeps_openReplyOnion|done..].
  - apply never_panics; [unfold convoRoundError; intros c'; case_match; apply keeps_emit|done..].
Qed.

Lemma seal_messages_ends coins i round keys outgoing :
  (∃ sealed, seal_messages coins i round keys outgoing = Ret sealed) ∨
  (seal_messages coins i round keys outgoing = Panic ∧ ¬ Forall is_Some keys).
Proof.
  revert i. induction outgoing as [|m outgoing IH]; intros i; cbn [seal_messages]; [left; eauto|].
  unfold seal_message. destruct (mapM id keys) as [ks|] eqn:Ek; cbn.
  - destruct (IH (S i)) as [[rest ->]|[-> Hn]]; [left; cbn; eauto|by right].
  - right. split; [done|]. intros HF. apply mapM_None in Ek. apply Exists_exists in Ek as (o & Hin & Ho).
    rewrite Forall_forall in HF. destruct (HF o Hin) as [k ->]. done.
Qed.

Lemma verify_mixers_ends msg mixers sigs :
  (∃ bad, verify_mixers msg mixers sigs = Ret bad) ∨
  (verify_mixers msg mixers sigs = Panic ∧ (length sigs < length mixers)%nat).
Proof.
  revert sigs. induction mixers as [|m mixers IH]; intros sigs; cbn [verify_mixers]; [left; eauto|].
  destruct sigs as [|sig sigs]; [right; split; [done|cbn; lia]|].
  destruct (sig_Verify (Key m) msg sig); [|left; eauto]. destruct (IH sigs) as [Hr|[-> Hl]]; [by left|].
  right. split; [done|]. cbn. lia.
Qed.

(** A round panics only where it is incomplete. *)
Lemma runRound_cases now1 now2 latency outgoing coins job c st :
  good_client c → configured c → client_store c !! job_state job = Some st →
  ((runRound now1 now2 latency outgoing coins job c).2 = Panic ∧ ¬ complete_round st (job_round job)) ∨
  wp (runRound now1 now2 latency outgoing coins job) (λ _, same_conn c) (λ _, same_conn c) c.
Proof.
  intros Hg Hc Est. unfold complete_round.
  destruct (verify_mixers_ends (SigningMessage (nr_MixSettings (job_round job)))
    (MixServers (Config st)) (nr_MixSignatures (job_round job))) as [[bad Ev]|[Ev Hl]]; cycle 1.
  { left. split; [|intros [? _]; lia]. unfold runRound. rewrite go_bind_unfold. cbn [get].
    rewrite go_bind_unfold. cbn [lift]. rewrite Est. cbn [or_panic]. by rewrite go_bind_unfold, Ev. }
  destruct (seal_messages_ends coins 0 (nr_Round (job_round job))
    (Settings.OnionKeys (nr_MixSettings (job_round job))) outgoing) as [[sealed E]|[E Hk]]; cycle 1.
  - destruct bad as [key|].
    + right. unfold runRound. wp_reads. rewrite Est. wp_reads. rewrite Ev. wp_reads. by apply keeps_emit.
    + destruct (decide (nr_EndTime (job_round job) - now1 < latency)) as [Hd|Hd].
      * right. unfold runRound. wp_reads. rewrite Est. wp_reads. rewrite Ev. wp_reads.
        rewrite decide_True by done. by apply keeps_emit.
      * left. split; [|tauto]. unfold runRound. rewrite go_bind_unfold. cbn [get]. rewrite go_bind_unfold.
        cbn [lift]. rewrite Est. cbn [or_panic]. rewrite go_bind_unfold, Ev. cbn [lift].
        rewrite decide_False by done. unfold emit. rewrite go_bind_unfold. cbn [modify].
        by rewrite go_bind_unfold, E.
  - right. unfold runRound. wp_reads. rewrite Est. wp_reads. rewrite Ev. wp_reads.
    destruct bad as [key|]; [by apply keeps_emit|]. case_decide; [by apply keeps_emit|].
    unfold emit. wp_reads. rewrite E. wp_reads. destruct Hg as [Hr Hj].
    assert (Hmore : ∀ p f, is_Some (client_store c !! p) → is_Some (alter f (job_state job) (client_store c) !! p)).
    { intros p f Hp. by rewrite lookup_alter_is_Some. }
    case_decide; wp_reads; (split_and!; [split|done|done]); cbn.
    1,3: intros r p Hp; by apply Hmore, (Hr r).
    all: eapply Forall_impl; [exact Hj|]; intros j Hjob; by apply Hmore.
Qed.

(** ** Every step keeps the invariant *)

Lemma in_client_panic {A} (m : handler A) s : (m (client s)).2 = Panic → (in_client m s).2 = Panic.
Proof. unfold in_client. destruct (m (client s)) as [c [| | |]]; cbn; intros; congruence. Qed.

(** An operation on a client that has a configuration. *)
Lemma in_client_good {A} (m : handler A) s s' o :
  good_session s → dialed s ≠ ∅ →
  wp m (λ _, same_conn (client s)) (λ _, same_conn (client s)) (client s) →
  in_client m s = (s', o) → good_session s' ∧ completes o.
Proof.
  intros Hs Hd Hm E. unfold in_client in E. unfold wp in Hm.
  destruct (m (client s)) as [c [a|e| |]]; [| |done|done]; destruct Hm as (Hg & En & Hc);
    injection E as <- <-; (split; [|done]); destruct Hs as [_ _ _ Hn Hdl Hnd];
    (split; cbn; [done|done|done|by rewrite En|done|done]).
Qed.

Lemma connect_good has_handler fetched dial s s' o :
  good_session s → ¬ crashes s (DoConnect has_handler fetched dial) →
  (∀ addr key conn, dial addr key = Some conn → conn ∉ dialed s) →
  connect has_handler fetched dial s = (s', o) → good_session s' ∧ completes o.
Proof.
  intros Hs Hf Hd. unfold connect, ConnectConvo.
  assert (Hsame : good_session (mkSession (client s) (goroutines s) (dialed s))) by (by destruct s).
  destruct has_handler; [|by intros [= <- <-]].
  destruct fetched as [conf|]; [|by intros [= <- <-]].
  destruct (decide (convo_config conf)) as [[inner Ei]|]; [|done]. rewrite go_bind_unfold. cbn [lift]. rewrite Ei. cbn [or_panic].
  destruct (dial ("wss://" ++ coord_Address (Coordinator inner) ++ "/convo/ws")%string
    (coord_Key (Coordinator inner))) as [conn|] eqn:Edial; cbn; [|by intros [= <- <-]].
  intros [= <- <-]. split; [|done]. destruct Hs as [[Hr Hj] Hconf Hst Hn Hdl Hnd].
  assert (Hnew : conn ∉ (goroutines s).*1).
  { intros (g & -> & Hg)%list_elem_of_fmap. rewrite Forall_forall in Hdl.
    eapply Hd; [done|]. by apply Hdl. }
  split; cbn.
  - by split.
  - intros _. exists conf. split; [done|by exists inner].
  - intros _. set_solver.
  - intros conn' [= <-]. rewrite fmap_app. apply elem_of_app. right. by apply list_elem_of_singleton.
  - apply Forall_app. split.
    + eapply Forall_impl; [exact Hdl|]. cbn. set_solver.
    + constructor; [cbn; set_solver|constructor].
  - rewrite fmap_app. apply NoDup_app. split_and!; [done| |apply NoDup_singleton].
    intros x Hx ->%list_elem_of_singleton. done.
Qed.

(** The goroutines of a session whose [conn] moves on or ends. *)
Lemma goroutine_dialed s g : good_session s → g ∈ goroutines s → dialed s ≠ ∅.
Proof.
  intros Hs Hg. assert (HF := good_dialed s Hs). rewrite Forall_forall in HF.
  specialize (HF g Hg). set_solver.
Qed.

Lemma connect_panic has_handler fetched dial s :
  crashes s (DoConnect has_handler fetched dial) → (connect has_handler fetched dial s).2 = Panic.
Proof.
  cbn. destruct has_handler; [|done]. destruct fetched as [conf|]; [|done]. intros Hn.
  unfold connect, ConnectConvo. rewrite go_bind_unfold. cbn [lift]. unfold convo_config in Hn.
  destruct (as_ConvoConfig (config_Inner conf)) eqn:E; [by destruct Hn|done].
Qed.

#[export] Instance crashes_connect_decision s has_handler fetched dial :
  Decision (crashes s (DoConnect has_handler fetched dial)).
Proof. cbn. unfold convo_config. destruct has_handler, fetched; apply _. Defined.

(** A step either panics, for one of the reasons named, or completes and keeps the invariant. *)
Lemma session_step_cases s a s' o :
  good_session s → session_step s a (s', o) →
  (crashes s a ∧ o = Panic) ∨ (good_session s' ∧ completes o ∧ (is_round a = false → ¬ crashes s a)).
Proof.
  intros Hs Hstep. remember (s', o) as r eqn:E.
  destruct Hstep as [hh fetched dial s Hd|s|conn m s Hin
    |now1 now2 latency outgoing coins before job after s Ej
    |before conn after s Eg|before conn after s Eg].
  - destruct (decide (crashes s (DoConnect hh fetched dial))) as [Hy|Hn].
    + left. split; [done|]. by rewrite <- (connect_panic _ _ _ _ Hy), E.
    + right. destruct (connect_good _ _ _ _ _ _ Hs Hn Hd E). by split_and!.
  - right. unfold in_client, CloseConvo in E. rewrite go_bind_unfold in E. cbn in E.
    destruct Hs as [[Hr Hj] Hconf Hst Hn Hdl Hnd].
    destruct (client_conn (client s)) as [conn|] eqn:En; cbn in E; injection E as <- <-;
      (split_and!; [|done|by intros _ []]); (split; cbn; [by split|done|done| |done|done]); [done|].
    by rewrite En.
  - assert (Hd := goroutine_dialed _ _ Hs Hin).
    destruct (convoMux_panics conn m s (good_state s Hs) (good_config s Hs Hd)) as [[Hy Hp]|[Hn Hk]].
    + left. split; [done|]. by rewrite <- (in_client_panic _ _ Hp), E.
    + right. destruct (in_client_good _ _ _ _ Hs Hd Hk E). by split_and!.
  - assert (Hd : dialed s ≠ ∅) by (apply (good_started s Hs); rewrite Ej; by destruct before).
    assert (Hjobs := good_jobs _ (good_state s Hs)). rewrite Ej in Hjobs.
    apply Forall_app in Hjobs as [Hb [[st Est] Ha]%Forall_cons].
    set (c := set_client_jobs (before ++ after) (client s)).
    assert (Hg : good_client c) by (split; [apply (good_state s Hs)|by apply Forall_app]).
    destruct (runRound_cases now1 now2 latency outgoing coins job c st Hg (good_config s Hs Hd) Est) as [[Hp Hn]|Hk].
    + left. split; [by exists st|].
      rewrite <- (in_client_panic (modify (set_client_jobs (before ++ after));; runRound now1 now2 latency outgoing coins job) s);
        [by rewrite E|]. by rewrite go_bind_unfold.
    + right. cut (good_session s' ∧ completes o); [by intros []; split_and!|].
      eapply in_client_good; [done..| |done]. wp_reads. exact Hk.
  - right. injection E as <- <-. split_and!; [|done|by intros _ []]. destruct Hs as [[Hr Hj] Hconf Hst Hn Hdl Hnd].
    rewrite Eg in *. rewrite fmap_app, fmap_cons in *. split; cbn; rewrite ?fmap_app; try done.
    by rewrite Forall_app, Forall_cons in Hdl |- *.
  - right. injection E as <- <-. split_and!; [|done|by intros _ []]. destruct Hs as [[Hr Hj] Hconf Hst Hn Hdl Hnd].
    rewrite Eg in *. rewrite fmap_app, fmap_cons in *. split; cbn; rewrite ?fmap_app; try done.
    + rewrite Forall_app, Forall_cons in Hdl. rewrite Forall_app. tauto.
    + apply NoDup_app in Hnd as (H1' & H2' & H3'). apply NoDup_cons in H3' as [_ H3'].
      apply NoDup_app. split_and!; [done| |done]. intros x Hx Hx'. apply (H2' x Hx). by right.
Qed.

Lemma reachable_good c0 s : fresh_client c0 → reachable c0 s → good_session s.
Proof.
  intros (E1 & E2 & E3) Hr. induction Hr as [|s a s' o _ IH Hstep Ho].
  - split; cbn.
    + split; [rewrite E2; apply map_Forall_empty|rewrite E3; constructor].
    + done.
    + by rewrite E3.
    + by rewrite E1.
    + constructor.
    + constructor.
  - by destruct (session_step_cases s a s' o IH Hstep) as [[_ ->]|(? & _)].
Qed.


End connection.
