(* ===== verification/Conversation.v ===== *)
(** * Conversations of the client (cmd/gjallarhorn-client/conversation.go)

    A conversation with one peer: the wire form of a message, the key that rolls
    forward with the rounds, the agreement on the round a key starts from, the dead
    drop of a round, and the state machine that sends, acknowledges and shows text
    messages. What the user interface does with a conversation is its output: the
    texts it shows and the [unread] flag. *)

From Stdlib Require Import ZArith Lia.
From stdpp Require Import base numbers strings gmap fin_maps list.
From S2P Require Import Prelude GoStd Json Sha2 External Convo.

(** ** Messages of a conversation *)

Record ConvoMessage := mkConvoMessage {
  Seq : Z;
  Ack : Z;
  Lowest : bool;
  UserText : bytes
}.

Definition SizeUserText : nat := (SizeMessageBody - 4 - 4 - 1)%nat.

Inductive conversation_error := BadMessageLength (want got : nat).

Definition ConvoMessage_Marshal (cm : ConvoMessage) : bytes :=
  let msg := replicate SizeMessageBody x00 in
  let msg := copy_into 0 4 msg (BigEndian.put32 (Seq cm)) in
  let msg := copy_into 4 8 msg (BigEndian.put32 (Ack cm)) in
  let msg := <[8%nat := if Lowest cm then x01 else x00]> msg in
  copy_into 9 SizeMessageBody msg (UserText cm).

Definition ConvoMessage_Unmarshal (msg : bytes) : go ConvoMessage conversation_error unit :=
  if decide (length msg ≠ SizeMessageBody)
  then throw (BadMessageLength SizeMessageBody (length msg))
  else
    seq ← lift (or_panic (slice 0 4 msg));
    ack ← lift (or_panic (slice 4 8 msg));
    flag ← lift (or_panic (msg !! 8%nat));
    text ← lift (or_panic (slice 9 (length msg) msg));
    put (mkConvoMessage (BigEndian.get32 seq) (BigEndian.get32 ack)
           (if decide (flag = x00) then false else true) text).

(** ** The rolling key *)

(** [n] turns of the loop of [rollKey], from round [r] on. *)
Fixpoint roll (n : nat) (r : Z) (key : bytes) : bytes :=
  match n with
  | O => key
  | S n => roll n (u32 (r + 1)) (Sum512_256 (BigEndian.put32 r ++ key))
  end.

(** Keys are pointers to arrays of 32 bytes, [None] the nil pointer. *)
Definition rollKey {E} (currentKey : option bytes) (keyRound targetRound : Z)
    : outcome E (option bytes) :=
  if decide (targetRound < keyRound) then Ret None
  else
    currentKey ← or_panic currentKey;
    let newKey := go_copy (replicate 32 x00) currentKey in
    Ret (Some (roll (Z.to_nat (targetRound - keyRound)) keyRound newKey)).

(** ** The round a key starts from *)

Record roundSyncer := mkRoundSyncer { roundingIncrement : Z }.

Definition stdRoundSyncer : roundSyncer := mkRoundSyncer 10000.

(** Division by zero panics. *)
Definition epochStart {E} (rs : roundSyncer) (round : Z) : outcome E (Z * Z) :=
  let c := roundingIncrement rs in
  if decide (c = 0) then Panic
  else
    let intent := (round / c) mod 2 in
    Ret (u32 (round / c * c), intent).

Definition outgoingCallConvoRound {E} (rs : roundSyncer) (latestRound : Z) : outcome E (Z * Z) :=
  epochStart rs latestRound.

Definition incomingCallConvoRound {E} (rs : roundSyncer) (latestRound intent : Z) : outcome E Z :=
  '(start, currIntent) ← epochStart rs latestRound;
  if decide (currIntent = intent) then Ret start
  else Ret (u32 (start - roundingIncrement rs)).

(** ** The state of a conversation *)

Record convoRound := mkConvoRound {
  sentMessage : bytes;
  roundKey : bytes;
  created : Z
}.

Record seqMsg := mkSeqMsg { RelativeSeq : Z; Msg : bytes }.

Record keywheelStart := mkKeywheelStart { wheel_sessionKey : option bytes; convoRound_ : Z }.

(** Instants and durations are numbers of nanoseconds. *)
Record Conversation := mkConversation {
  peerUsername : string;
  myUsername : string;
  rounds : gmap Z convoRound;
  pendingCall : option keywheelStart;
  outQueue : list seqMsg;
  lastOut : Z;
  inQueue : gmap Z bytes;
  relativeSeq : Z;
  seqBase : Z;
  ack : Z;
  sessionKey : option bytes;
  sessionKeyRound : Z;
  lastPeerResponding : bool;
  lastLatency : Z;
  lastRound : Z;
  unread : bool;
  focused : bool
}.

Definition eta_Conversation (c : Conversation) : Conversation :=
  mkConversation (peerUsername c) (myUsername c) (rounds c) (pendingCall c) (outQueue c)
    (lastOut c) (inQueue c) (relativeSeq c) (seqBase c) (ack c) (sessionKey c)
    (sessionKeyRound c) (lastPeerResponding c) (lastLatency c) (lastRound c) (unread c)
    (focused c).

Definition set_rounds v (c : Conversation) : Conversation := ltac:(set_field eta_Conversation rounds v c).
Definition set_pendingCall v (c : Conversation) : Conversation :=
  ltac:(set_field eta_Conversation pendingCall v c).
Definition set_outQueue v (c : Conversation) : Conversation :=
  ltac:(set_field eta_Conversation outQueue v c).
Definition set_lastOut v (c : Conversation) : Conversation :=
  ltac:(set_field eta_Conversation lastOut v c).
Definition set_inQueue v (c : Conversation) : Conversation :=
  ltac:(set_field eta_Conversation inQueue v c).
Definition set_relativeSeq v (c : Conversation) : Conversation :=
  ltac:(set_field eta_Conversation relativeSeq v c).
Definition set_seqBase v (c : Conversation) : Conversation :=
  ltac:(set_field eta_Conversation seqBase v c).
Definition set_ack v (c : Conversation) : Conversation := ltac:(set_field eta_Conversation ack v c).
Definition set_sessionKey v (c : Conversation) : Conversation :=
  ltac:(set_field eta_Conversation sessionKey v c).
Definition set_sessionKeyRound v (c : Conversation) : Conversation :=
  ltac:(set_field eta_Conversation sessionKeyRound v c).
Definition set_lastPeerResponding v (c : Conversation) : Conversation :=
  ltac:(set_field eta_Conversation lastPeerResponding v c).
Definition set_lastLatency v (c : Conversation) : Conversation :=
  ltac:(set_field eta_Conversation lastLatency v c).
Definition set_lastRound v (c : Conversation) : Conversation :=
  ltac:(set_field eta_Conversation lastRound v c).
Definition set_unread v (c : Conversation) : Conversation := ltac:(set_field eta_Conversation unread v c).
Definition set_focused v (c : Conversation) : Conversation :=
  ltac:(set_field eta_Conversation focused v c).

(** [getOrCreateConvo] makes a [Conversation] with two names, zero values elsewhere, and
    calls [Init] on it. *)
Definition zero_Conversation (peer my : string) : Conversation :=
  mkConversation peer my ∅ None [] 0 ∅ 0 0 0 None 0 false 0 0 false false.

Definition Init (c : Conversation) : Conversation :=
  set_inQueue ∅ (set_rounds ∅ (set_lastPeerResponding false (set_seqBase 0 (set_relativeSeq 0 c)))).

Abbreviation handler := (go Conversation conversation_error).

(** What a print into the view of the conversation does to its state. [Printf] returns
    early where the view does not exist. *)
Definition mark_unread (c : Conversation) : Conversation :=
  if focused c then c else set_unread true c.

Definition Printf (view : bool) (c : Conversation) : Conversation :=
  if view then mark_unread c else c.

Definition PrintfSync (c : Conversation) : Conversation := mark_unread c.

Definition QueueTextMessage (view : bool) (msg : bytes) (c : Conversation) : Conversation :=
  let c := set_outQueue (outQueue c ++ [mkSeqMsg (relativeSeq c) msg]) c in
  let c := set_relativeSeq (u32 (relativeSeq c + 1)) c in
  Printf view c.

Definition Solo (c : Conversation) : bool := bool_decide (peerUsername c = myUsername c).

(** ** Encryption *)

Section conversation.
Context `{NaCl}.

Definition convo_nonce (round : Z) (username : string) : bytes :=
  let nonce := replicate 24 x00 in
  let nonce := copy_into 0 4 nonce (BigEndian.put32 round) in
  let nameHash := Sum256 (str username) in
  copy_into 4 24 nonce (take 16 nameHash).

Definition Seal (c : Conversation) (message : bytes) (round : Z) (key : bytes) : bytes :=
  secretbox_Seal message (convo_nonce round (peerUsername c)) key.

Definition Open (c : Conversation) (ctxt : bytes) (round : Z) (key : bytes) : option bytes :=
  secretbox_Open ctxt (convo_nonce round (myUsername c)) key.

Definition deadDrop (round : Z) (key : bytes) : bytes :=
  go_copy (replicate 16 x00) (hmac_sha256 key (str "DeadDrop" ++ BigEndian.put32 round)).

Definition rollAndReplaceKey (targetRound : Z) : handler (option bytes) :=
  c ← get;
  newKey ← lift (rollKey (sessionKey c) (sessionKeyRound c) targetRound);
  match newKey with
  | None => mret None
  | Some newKey =>
      modify (set_sessionKey (Some newKey));;
      modify (set_sessionKeyRound targetRound);;
      mret (Some newKey)
  end.

(** ** NextMessage *)

(** Its second critical section: the message of the round. *)
Definition compose (round : Z) : handler ConvoMessage :=
  c ← get;
  match outQueue c with
  | [] => mret (mkConvoMessage 0 (ack c) false (replicate SizeUserText x00))
  | _ :: _ =>
      (if decide (seqBase c = 0) then modify (set_seqBase (u32 (round + 1))) else mret ());;
      lowest ←
        (if decide (lastOut c ≠ -1 ∧ lastOut c + 1 < Z.of_nat (length (outQueue c)))
         then modify (set_lastOut (lastOut c + 1));; mret false
         else modify (set_lastOut 0);; mret true);
      c ← get;
      out ← lift (or_panic (index (lastOut c) (outQueue c)));
      mret (mkConvoMessage (u32 (RelativeSeq out + seqBase c)) (ack c) lowest (Msg out))
  end.

(** [dummy] is the message of random bytes for a round the key has rolled past. *)
Definition NextMessage (now : Z) (dummy : DeadDropMessage) (round : Z) : handler DeadDropMessage :=
  modify (set_lastRound round);;
  msg ← compose round;
  let msgdata := ConvoMessage_Marshal msg in
  key ← rollAndReplaceKey round;
  match key with
  | None => mret dummy
  | Some key =>
      c ← get;
      let ctxt := Seal c msgdata round key in
      let encmsg := go_copy (replicate SizeEncryptedMessageBody x00) ctxt in
      modify (λ c, set_rounds (<[round := mkConvoRound encmsg key now]> (rounds c)) c);;
      mret (mkDeadDropMessage (deadDrop round key) encmsg)
  end.

(** ** Reply *)

(** Its first critical section: the round is taken out, and old rounds are deleted. *)
Definition take_round (round : Z) : handler (option convoRound) :=
  c ← get;
  let st := rounds c !! round in
  let left := delete round (rounds c) in
  put (set_rounds (filter (λ p, ¬ p.1 < u32 (round - 10)) left) c);;
  mret st.

(** The loop over the queue: the messages that are not acknowledged yet and [lastOut]. *)
Fixpoint drop_acked (base acked : Z) (queue : list seqMsg) (last : Z) : list seqMsg * Z :=
  match queue with
  | [] => ([], last)
  | out :: queue =>
      if decide (0 < base ∧ u32 (RelativeSeq out + base) <= acked)
      then drop_acked base acked queue (if decide (0 < last) then last - 1 else last)
      else let '(queue, last) := drop_acked base acked queue last in (out :: queue, last)
  end.

(** The loop that takes the messages from [i] on out of [inQueue]; [fuel] bounds the number
    of turns, each of which shrinks the map. *)
Fixpoint drain (fuel : nat) (i : Z) (queue : gmap Z bytes) (acked : Z) : list bytes * gmap Z bytes * Z :=
  match fuel with
  | O => ([], queue, acked)
  | S fuel =>
      match queue !! i with
      | None => ([], queue, acked)
      | Some text =>
          let '(texts, queue, acked) := drain fuel (u32 (i + 1)) (delete i queue) i in
          (text :: texts, queue, acked)
      end
  end.

(** Its second critical section: what the peer acknowledges leaves the queue; what is new
    is queued and acknowledged as far as it is consecutive. The result is [displayMsgs]. *)
Definition receive (latency : Z) (msg : ConvoMessage) (c : Conversation) : Conversation * list bytes :=
  let c := set_lastLatency latency c in
  let '(queue, last) := drop_acked (seqBase c) (Ack msg) (outQueue c) (lastOut c) in
  let c := set_lastOut last (set_outQueue queue c) in
  if decide (ack c < Seq msg)
  then
    let c := set_inQueue (<[Seq msg := UserText msg]> (inQueue c)) c in
    let c := if Lowest msg then set_ack (u32 (Seq msg - 1)) c else c in
    let '(texts, queue, acked) :=
      drain (S (size (inQueue c))) (u32 (ack c + 1)) (inQueue c) (ack c) in
    (set_ack acked (set_inQueue queue c), texts)
  else (c, []).

(** What a reply leads to: the errors are logged, the texts are shown. *)
Inductive reply_result :=
| ReplyRoundNotFound
| OwnMessage
| DecryptFailed
| UnmarshalFailed
| Shown (texts : list bytes).

Definition Reply (now : Z) (round : Z) (encmsg : bytes) : handler reply_result :=
  st ← take_round round;
  match st with
  | None => modify (set_lastPeerResponding false);; mret ReplyRoundNotFound
  | Some st =>
      c ← get;
      if decide (encmsg = sentMessage st ∧ Solo c = false)
      then modify (set_lastPeerResponding false);; mret OwnMessage
      else
        match Open c encmsg round (roundKey st) with
        | None => modify (set_lastPeerResponding false);; mret DecryptFailed
        | Some msgdata =>
            match ConvoMessage_Unmarshal msgdata (mkConvoMessage 0 0 false []) with
            | (_, Err _) => modify (set_lastPeerResponding false);; mret UnmarshalFailed
            | (_, Panic) => panic
            | (_, Block) => block
            | (msg, Ret _) =>
                c ← get;
                let '(c, displayMsgs) := receive (now - created st) msg c in
                put c;;
                let texts := trim_right_nul <$> displayMsgs in
                modify (λ c, foldl (λ c _, PrintfSync c) c texts);;
                modify (set_lastPeerResponding true);;
                mret (Shown texts)
            end
        end
  end.

End conversation.

(** ** The wire form *)

(** The text a message carries: cut or padded with NULs to [SizeUserText] bytes. *)
Definition fit_text (text : bytes) : bytes := take SizeUserText (text ++ replicate SizeUserText x00).

Lemma fit_text_go_copy text : go_copy (replicate SizeUserText x00) text = fit_text text.
Proof.
  unfold go_copy, fit_text. rewrite length_replicate, drop_replicate, take_app, take_replicate.
  do 2 f_equal. lia.
Qed.

Lemma length_fit_text text : length (fit_text text) = SizeUserText.
Proof. unfold fit_text. len. Qed.

(** What the peer shows of it. *)
Lemma trim_fit_text text : trim_right_nul (fit_text text) = trim_right_nul (take SizeUserText text).
Proof. unfold fit_text. rewrite take_app, take_replicate. apply trim_right_nul_pad. Qed.

Lemma Marshal_layout cm :
  ConvoMessage_Marshal cm =
  BigEndian.put32 (Seq cm) ++ BigEndian.put32 (Ack cm) ++ [if Lowest cm then x01 else x00] ++
  fit_text (UserText cm).
Proof.
  unfold ConvoMessage_Marshal.
  pose proof (BigEndian.length_put32 (Seq cm)) as Hs. pose proof (BigEndian.length_put32 (Ack cm)) as Ha.
  generalize dependent (BigEndian.put32 (Seq cm)). generalize dependent (BigEndian.put32 (Ack cm)).
  intros a Ha s Hs. destruct s as [|s0 [|s1 [|s2 [|s3 [|]]]]]; try discriminate Hs.
  destruct a as [|a0 [|a1 [|a2 [|a3 [|]]]]]; try discriminate Ha.
  rewrite <- fit_text_go_copy, <- (app_nil_r (go_copy _ (UserText cm))). reflexivity.
Qed.

Lemma length_ConvoMessage_Marshal cm : length (ConvoMessage_Marshal cm) = SizeMessageBody.
Proof. rewrite Marshal_layout. autorewrite with len. by rewrite length_fit_text. Qed.

(** What is left of a message after the wire. *)
Definition wire (cm : ConvoMessage) : ConvoMessage :=
  mkConvoMessage (Seq cm) (Ack cm) (Lowest cm) (fit_text (UserText cm)).

Lemma Unmarshal_Marshal cm cm0 :
  is_u32 (Seq cm) → is_u32 (Ack cm) →
  ConvoMessage_Unmarshal (ConvoMessage_Marshal cm) cm0 = (wire cm, Ret ()).
Proof.
  intros Hs Ha. unfold ConvoMessage_Unmarshal.
  rewrite decide_False by (rewrite length_ConvoMessage_Marshal; tauto).
  rewrite length_ConvoMessage_Marshal, Marshal_layout.
  pose proof (BigEndian.length_put32 (Seq cm)) as Ls. pose proof (BigEndian.length_put32 (Ack cm)) as La.
  pose proof (length_fit_text (UserText cm)) as Lt.
  pose proof (BigEndian.get32_put32 (Seq cm) [] Hs) as Es.
  pose proof (BigEndian.get32_put32 (Ack cm) [] Ha) as Ea. rewrite app_nil_r in Es, Ea.
  unfold wire. rewrite <- Es at 2. rewrite <- Ea at 2. clear Es Ea Hs Ha.
  generalize dependent (BigEndian.put32 (Seq cm)). generalize dependent (BigEndian.put32 (Ack cm)).
  generalize dependent (fit_text (UserText cm)).
  intros t Lt a La s Ls. destruct s as [|s0 [|s1 [|s2 [|s3 [|]]]]]; try discriminate Ls.
  destruct a as [|a0 [|a1 [|a2 [|a3 [|]]]]]; try discriminate La.
  rewrite !slice_is_Some by (simpl; rewrite ?Lt; unfold SizeUserText, SizeMessageBody; lia).
  simpl app. rewrite !go_bind_unfold.
  cbn [lift or_panic take drop Nat.sub lookup list_lookup SizeMessageBody].
  change (drop 0 t) with t. rewrite (take_ge t) by (rewrite Lt; reflexivity). by destruct (Lowest cm).
Qed.

(** ** The rolling key *)

Lemma length_roll n r key : length key = 32%nat → length (roll n r key) = 32%nat.
Proof.
  revert r key. induction n as [|n IH]; intros r key Hk; [done|].
  cbn [roll]. apply IH. by rewrite length_Sum512_256.
Qed.

Lemma roll_add n m r key :
  0 <= r → r + Z.of_nat n < 2 ^ 32 →
  roll (n + m) r key = roll m (r + Z.of_nat n) (roll n r key).
Proof.
  revert r key. induction n as [|n IH]; intros r key Hr Hn.
  - cbn. by rewrite Z.add_0_r.
  - cbn [Nat.add roll]. rewrite (u32_id (r + 1)) by (unfold is_u32; lia).
    rewrite IH by lia. f_equal. lia.
Qed.

Lemma rollKey_Some {E} key r t :
  length key = 32%nat → r <= t → rollKey (E:=E) (Some key) r t = Ret (Some (roll (Z.to_nat (t - r)) r key)).
Proof.
  intros Hk Ht. unfold rollKey. rewrite decide_False by lia. cbn -[roll].
  by rewrite go_copy_exact by (by rewrite Hk).
Qed.

Lemma rollKey_past {E} key r t : t < r → rollKey (E:=E) key r t = Ret None.
Proof. intros. unfold rollKey. by rewrite decide_True. Qed.

Lemma rollAndReplaceKey_run t c :
  rollAndReplaceKey t c =
    match rollKey (sessionKey c) (sessionKeyRound c) t with
    | Ret None => (c, Ret None)
    | Ret (Some key) => (set_sessionKeyRound t (set_sessionKey (Some key) c), Ret (Some key))
    | Err e => (c, Err e)
    | Panic => (c, Panic)
    | Block => (c, Block)
    end.
Proof.
  unfold rollAndReplaceKey. rewrite go_bind_unfold. cbn [get]. rewrite go_bind_unfold. cbn [lift].
  by destruct (rollKey _ _ _) as [[]| | |].
Qed.

(** [c] holds the key that starts as [key] in round [start], rolled to some later round. *)
Definition keyed (key : bytes) (start : Z) (c : Conversation) : Prop :=
  0 <= start <= sessionKeyRound c ∧ is_u32 (sessionKeyRound c) ∧
  sessionKey c = Some (roll (Z.to_nat (sessionKeyRound c - start)) start key).

(** The key of a round, counted from the start. *)
Definition key_of (key : bytes) (start round : Z) : bytes := roll (Z.to_nat (round - start)) start key.

Lemma rollKey_keyed {E} key start c round :
  length key = 32%nat → keyed key start c → sessionKeyRound c <= round → is_u32 round →
  rollKey (E:=E) (sessionKey c) (sessionKeyRound c) round = Ret (Some (key_of key start round)).
Proof.
  unfold is_u32. intros Hk (Hs & Hr & ->) Hle Hround. unfold is_u32 in Hr.
  rewrite rollKey_Some by (done || by apply length_roll). do 2 f_equal. unfold key_of.
  replace (Z.to_nat (round - start)) with
    (Z.to_nat (sessionKeyRound c - start) + Z.to_nat (round - sessionKeyRound c))%nat by lia.
  rewrite roll_add by lia. f_equal. lia.
Qed.

(** The ratchet of a conversation. From a key that started in some round, every round
    not before the key's is given the key that as many hashes make of the start, whatever
    rounds were visited in between, and the state moves to that round; for an earlier round
    there is no key and the state is left alone. *)
Theorem rollAndReplaceKey_ratchet key start c round :
  length key = 32%nat → keyed key start c → is_u32 round →
  if decide (round < sessionKeyRound c) then rollAndReplaceKey round c = (c, Ret None)
  else ∃ c', rollAndReplaceKey round c = (c', Ret (Some (key_of key start round))) ∧
         keyed key start c' ∧ sessionKeyRound c' = round ∧
         ∀ round', is_u32 round' → round' < round → (rollAndReplaceKey round' c').2 = Ret None.
Proof.
  intros Hk Hc Hr. rewrite rollAndReplaceKey_run. case_decide.
  - by rewrite rollKey_past.
  - rewrite (rollKey_keyed key start) by (done || lia). eexists. split; [done|].
    destruct Hc as (? & ? & ?). split; [|split].
    + split; [cbn; lia|]. done.
    + done.
    + intros round' _ Hlt. rewrite rollAndReplaceKey_run. by rewrite rollKey_past.
Qed.

(** ** The round a key starts from *)

Lemma start_round_agrees {E} rs r x :
  0 < roundingIncrement rs → 0 <= r → 0 <= x <= roundingIncrement rs → is_u32 (r + x) →
  ∃ round intent,
    outgoingCallConvoRound (E:=E) rs r = Ret (round, intent) ∧
    incomingCallConvoRound (E:=E) rs (r + x) intent = Ret round ∧
    round <= r < round + roundingIncrement rs.
Proof.
  unfold is_u32, outgoingCallConvoRound, incomingCallConvoRound, epochStart.
  destruct rs as [c]. cbn [roundingIncrement]. intros Hc Hr Hx Hrx.
  rewrite decide_False by lia. exists (r / c * c), ((r / c) mod 2).
  pose proof (Z.div_mod r c ltac:(lia)) as Dr. pose proof (Z.mod_pos_bound r c ltac:(lia)).
  pose proof (Z.div_mod (r + x) c ltac:(lia)) as Dx. pose proof (Z.mod_pos_bound (r + x) c ltac:(lia)).
  pose proof (Z.div_pos r c ltac:(lia) ltac:(lia)).
  assert (Hq : (r + x) / c = r / c ∨ (r + x) / c = r / c + 1).
  { assert (r / c <= (r + x) / c) by (apply Z.div_le_mono; lia).
    assert ((r + x) / c <= (r + 1 * c) / c) as Hle by (apply Z.div_le_mono; lia).
    rewrite Z.div_add in Hle by lia. lia. }
  rewrite (u32_id (r / c * c)) by (unfold is_u32; nia). split; [done|].
  split; [|nia]. rewrite (decide_False (P := c = 0)) by lia. unfold mbind, outcome_bind.
  destruct Hq as [->| Hq].
  - rewrite decide_True by done. by rewrite u32_id by (unfold is_u32; nia).
  - rewrite Hq in *. rewrite (u32_id ((r / c + 1) * c)) by (unfold is_u32; nia).
    rewrite decide_False.
    + f_equal. rewrite u32_id by (unfold is_u32; nia). nia.
    + rewrite <- Zplus_mod_idemp_l.
      destruct (Z.mod_pos_bound (r / c) 2 ltac:(lia)).
      assert ((r / c) mod 2 = 0 ∨ (r / c) mod 2 = 1) as [->| ->] by lia; done.
Qed.

(** The agreement on the round of a call. For every round [r] of the caller and every
    round of the callee from [r] to [r] plus the rounding increment, the callee finds the
    round the caller chose, which is at most [r] and less than an increment before it. *)
Theorem roundSyncer_agrees {E} rs r x :
  0 < roundingIncrement rs → 0 <= r → 0 <= x <= roundingIncrement rs → is_u32 (r + x) →
  ∃ round intent,
    outgoingCallConvoRound (E:=E) rs r = Ret (round, intent) ∧
    incomingCallConvoRound (E:=E) rs (r + x) intent = Ret round ∧
    round <= r < round + roundingIncrement rs.
Proof. apply start_round_agrees. Qed.

(** ** The state machine *)

(** What every operation keeps. *)
Record wf_conversation (c : Conversation) : Prop := {
  wf_lastOut : -1 <= lastOut c;
  wf_ack : is_u32 (ack c);
  wf_seqBase : is_u32 (seqBase c);
  wf_relativeSeq : is_u32 (relativeSeq c);
  wf_queue : Forall (λ m, is_u32 (RelativeSeq m)) (outQueue c)
}.

(** Where [compose] takes its message from and how it numbers it. *)
Definition next_out (c : Conversation) : Z :=
  if decide (lastOut c ≠ -1 ∧ lastOut c + 1 < Z.of_nat (length (outQueue c)))
  then lastOut c + 1 else 0.

Definition next_base (round : Z) (c : Conversation) : Z :=
  if decide (seqBase c = 0) then u32 (round + 1) else seqBase c.

Definition cover (c : Conversation) : ConvoMessage :=
  mkConvoMessage 0 (ack c) false (replicate SizeUserText x00).

Lemma compose_empty round c : outQueue c = [] → compose round c = (c, Ret (cover c)).
Proof. intros E. unfold compose. rewrite go_bind_unfold. cbn [get]. by rewrite E. Qed.

Lemma next_out_range c :
  -1 <= lastOut c → outQueue c ≠ [] → 0 <= next_out c < Z.of_nat (length (outQueue c)).
Proof.
  intros Hl Hq. unfold next_out. case_decide; [lia|]. destruct (outQueue c); [done|simpl; lia].
Qed.

Lemma compose_queue round c out :
  -1 <= lastOut c → outQueue c !! Z.to_nat (next_out c) = Some out →
  compose round c =
    (set_lastOut (next_out c) (set_seqBase (next_base round c) c),
     Ret (mkConvoMessage (u32 (RelativeSeq out + next_base round c)) (ack c)
            (bool_decide (next_out c = 0)) (Msg out))).
Proof.
  intros Hl Hout. unfold compose. rewrite go_bind_unfold. cbn [get].
  destruct (outQueue c) as [|m q] eqn:Eq; [by rewrite lookup_nil in Hout|]. rewrite <- Eq in *. clear Eq.
  rewrite go_bind_unfold.
  assert (Eb : (if decide (seqBase c = 0) then modify (set_seqBase (u32 (round + 1))) else mret ()) c
               = (set_seqBase (next_base round c) c, Ret (E:=conversation_error) ())).
  { unfold next_base. case_decide; [done|]. cbn. by destruct c. }
  rewrite Eb. rewrite go_bind_unfold.
  assert (Eo : (if decide (lastOut c ≠ -1 ∧ lastOut c + 1 < Z.of_nat (length (outQueue c)))
                then modify (set_lastOut (lastOut c + 1));; mret false
                else modify (set_lastOut 0);; mret true) (set_seqBase (next_base round c) c)
               = (set_lastOut (next_out c) (set_seqBase (next_base round c) c),
                  Ret (E:=conversation_error) (bool_decide (next_out c = 0)))).
  { unfold next_out.
    destruct (decide (lastOut c ≠ -1 ∧ lastOut c + 1 < Z.of_nat (length (outQueue c)))) as [Hd|Hd]; [|done].
    cbn. by rewrite bool_decide_eq_false_2 by lia. }
  rewrite Eo. rewrite go_bind_unfold. cbn [get]. rewrite go_bind_unfold. cbn.
  unfold index. rewrite decide_False by (unfold next_out; case_decide; lia). by rewrite Hout.
Qed.

Lemma next_message_exists c :
  -1 <= lastOut c → outQueue c ≠ [] → is_Some (outQueue c !! Z.to_nat (next_out c)).
Proof.
  intros Hl Hq. apply lookup_lt_is_Some_2. pose proof (next_out_range c Hl Hq). lia.
Qed.

Lemma compose_set_lastRound round v c :
  -1 <= lastOut c → (compose round (set_lastRound v c)).2 = (compose round c).2.
Proof.
  intros Hl. destruct (decide (outQueue c = [])) as [E|E].
  - by rewrite !compose_empty.
  - destruct (next_message_exists c Hl E) as [out Hout].
    by rewrite (compose_queue round (set_lastRound v c) out), (compose_queue round c out).
Qed.

(** Only [seqBase] and [lastOut] change, and a message comes out. *)
Lemma compose_total round c :
  wf_conversation c →
  ∃ base last msg, compose round c = (set_lastOut last (set_seqBase base c), Ret msg) ∧
    Ack msg = ack c ∧ is_u32 (Seq msg) ∧ is_u32 base ∧ -1 <= last.
Proof.
  intros [Hl Ha Hb _ _]. destruct (outQueue c) as [|m q] eqn:Eq.
  - exists (seqBase c), (lastOut c), (cover c). rewrite compose_empty by done.
    split; [by destruct c|]. unfold is_u32 in *. cbn. lia.
  - destruct (next_message_exists c Hl) as [out Hout]; [by rewrite Eq|].
    exists (next_base round c), (next_out c). eexists. rewrite (compose_queue round c out) by done.
    split; [done|]. split; [done|]. split; [apply u32_range|]. split.
    + unfold next_base. case_decide; [apply u32_range|done].
    + unfold next_out. case_decide; lia.
Qed.

(** *** Receiving *)

Lemma receive_set_rounds l msg v c :
  receive l msg (set_rounds v c) = (set_rounds v (receive l msg c).1, (receive l msg c).2).
Proof.
  unfold receive. cbv zeta.
  change (outQueue (set_lastLatency l (set_rounds v c))) with (outQueue (set_lastLatency l c)).
  cbn -[drain]. destruct (drop_acked _ _ _ _) as [q o]. cbn -[drain].
  destruct (decide (ack c < Seq msg)); [|done]. destruct (Lowest msg); cbn -[drain]; destruct (drain _ _ _ _) as [[t q'] a]; done.
Qed.

Lemma rounds_receive l msg c : rounds (receive l msg c).1 = rounds c.
Proof.
  unfold receive. cbn -[drain]. destruct (drop_acked _ _ _ _) as [q o]. cbn -[drain].
  destruct (decide (ack c < Seq msg)); [|done]. destruct (Lowest msg); cbn -[drain]; destruct (drain _ _ _ _) as [[t q'] a]; done.
Qed.

Lemma PrintfSync_all c (texts : list bytes) :
  ∃ u, foldl (λ c _, PrintfSync c) c texts = set_unread u c.
Proof.
  revert c. induction texts as [|t texts IH]; intros c; [exists (unread c); by destruct c|].
  cbn. destruct (IH (PrintfSync c)) as [u ->]. exists u.
  unfold PrintfSync, mark_unread. by destruct (focused c).
Qed.

Section conversation.
Context `{NaCl}.

(** What is left of the rounds after a reply for [round]. *)
Definition rounds_left (round : Z) (c : Conversation) : gmap Z convoRound :=
  filter (λ p, ¬ p.1 < u32 (round - 10)) (delete round (rounds c)).

Lemma lookup_rounds_left round c r :
  rounds_left round c !! r =
    if decide (r = round ∨ r < u32 (round - 10)) then None else rounds c !! r.
Proof.
  unfold rounds_left. apply option_eq. intros st. rewrite map_lookup_filter_Some. cbn.
  case_decide as Hd.
  - split; [|done]. intros [Hl Hn]. destruct Hd as [->|]; [by rewrite lookup_delete_eq in Hl|lia].
  - rewrite lookup_delete_ne by (intros ->; tauto). split; [by intros [? _]|]. intros Hl. split; [done|].
    intros Hlt. apply Hd. by right.
Qed.

Lemma take_round_run round c :
  take_round round c = (set_rounds (rounds_left round c) c, Ret (rounds c !! round)).
Proof. done. Qed.

Lemma ConvoMessage_Unmarshal_ret msg cm0 :
  length msg = SizeMessageBody → ∃ cm, ConvoMessage_Unmarshal msg cm0 = (cm, Ret ()).
Proof.
  intros Hl. unfold ConvoMessage_Unmarshal. rewrite decide_False by (rewrite Hl; tauto).
  rewrite (slice_is_Some 0 4), (slice_is_Some 4 8), (slice_is_Some 9)
    by (rewrite ?Hl; unfold SizeMessageBody; lia).
  destruct (lookup_lt_is_Some_1 msg 8) as [x ->]; [rewrite Hl; unfold SizeMessageBody; lia|].
  eexists. reflexivity.
Qed.

(** The result of [Reply] in every case, and what it makes of the state besides the
    rounds and the flags: only a message that opens and has the right size reaches the
    queues. *)
Definition reply_outcome (now round : Z) (e : bytes) (c : Conversation) : Conversation * reply_result :=
  match rounds c !! round with
  | None => (c, ReplyRoundNotFound)
  | Some st =>
      if decide (e = sentMessage st ∧ Solo c = false) then (c, OwnMessage)
      else match Open c e round (roundKey st) with
           | None => (c, DecryptFailed)
           | Some data =>
               match ConvoMessage_Unmarshal data (mkConvoMessage 0 0 false []) with
               | (msg, Ret _) =>
                   let r := receive (now - created st) msg c in
                   (r.1, Shown (trim_right_nul <$> r.2))
               | _ => (c, UnmarshalFailed)
               end
           end
  end.

Definition is_shown (r : reply_result) : bool := match r with Shown _ => true | _ => false end.

Lemma Reply_run now round e c :
  let '(c1, r) := reply_outcome now round e c in
  ∃ u, Reply now round e c =
    (set_lastPeerResponding (is_shown r) (set_unread u (set_rounds (rounds_left round c) c1)), Ret r).
Proof.
  assert (Hid : ∀ p, set_lastPeerResponding p (set_rounds (rounds_left round c) c) =
            set_lastPeerResponding p (set_unread (unread c) (set_rounds (rounds_left round c) c)))
    by (by destruct c).
  unfold Reply, reply_outcome. rewrite go_bind_unfold, take_round_run.
  destruct (rounds c !! round) as [st|]; [|exists (unread c); by rewrite <- Hid].
  rewrite go_bind_unfold. cbn [get].
  change (Solo (set_rounds _ c)) with (Solo c).
  destruct (decide (e = sentMessage st ∧ Solo c = false)); [exists (unread c); by rewrite <- Hid|].
  change (Open (set_rounds _ c)) with (Open c).
  destruct (Open c e round (roundKey st)) as [data|]; [|exists (unread c); by rewrite <- Hid].
  destruct (decide (length data = SizeMessageBody)) as [Hl|Hl].
  - destruct (ConvoMessage_Unmarshal_ret data (mkConvoMessage 0 0 false []) Hl) as [msg ->].
    rewrite go_bind_unfold. cbn [get]. rewrite receive_set_rounds.
    destruct (receive (now - created st) msg c) as [c1 texts]. cbn beta iota zeta delta [fst snd].
    generalize (trim_right_nul <$> texts) as shown. intros shown.
    destruct (PrintfSync_all (set_rounds (rounds_left round c) c1) shown) as [u Eu].
    exists u. rewrite go_bind_unfold. cbn [put]. rewrite go_bind_unfold. cbn [modify]. by rewrite Eu.
  - unfold ConvoMessage_Unmarshal. rewrite decide_True by done. exists (unread c). by rewrite <- Hid.
Qed.

Lemma rounds_reply_outcome now round e c : rounds (reply_outcome now round e c).1 = rounds c.
Proof.
  unfold reply_outcome. destruct (rounds c !! round); [|done].
  destruct (decide (e = sentMessage c0 ∧ Solo c = false)); [done|].
  destruct (Open _ _ _ _); [|done].
  destruct (ConvoMessage_Unmarshal _ _) as [msg [| | |]]; try done. apply rounds_receive.
Qed.

End conversation.

(** ** Properties *)

(** The wire form of a conversation's message. It always has [SizeMessageBody] bytes; read
    back it gives the numbers, the flag and the text cut or padded to [SizeUserText] bytes,
    of which the peer shows the text up to its size without trailing NULs; data of any other
    length is refused and changes nothing. *)
Theorem ConvoMessage_roundtrip cm cm0 :
  is_u32 (Seq cm) → is_u32 (Ack cm) →
  length (ConvoMessage_Marshal cm) = SizeMessageBody ∧
  ConvoMessage_Unmarshal (ConvoMessage_Marshal cm) cm0 =
    (mkConvoMessage (Seq cm) (Ack cm) (Lowest cm) (fit_text (UserText cm)), Ret ()) ∧
  trim_right_nul (fit_text (UserText cm)) = trim_right_nul (take SizeUserText (UserText cm)) ∧
  (∀ data, length data ≠ SizeMessageBody →
    ConvoMessage_Unmarshal data cm0 = (cm0, Err (BadMessageLength SizeMessageBody (length data)))).
Proof.
  intros Hs Ha. split; [apply length_ConvoMessage_Marshal|].
  split; [by apply Unmarshal_Marshal|]. split; [apply trim_fit_text|].
  intros data Hl. unfold ConvoMessage_Unmarshal. by rewrite decide_True.
Qed.

(** *** The loop over [inQueue] *)

Lemma drain_unfold fuel i queue acked :
  drain (S fuel) i queue acked =
    match queue !! i with
    | None => ([], queue, acked)
    | Some text =>
        let '(texts, queue, acked) := drain fuel (u32 (i + 1)) (delete i queue) i in
        (text :: texts, queue, acked)
    end.
Proof. done. Qed.

(** The loop that takes consecutive messages out of [inQueue] ends, although its counter
    wraps around: every turn deletes an entry. [drain] has turns to spare, since more of
    them change nothing; what it returns and what it leaves are the entries it found, and
    it stops where the map has no entry. *)
Theorem drain_terminates i queue acked fuel :
  is_u32 i → (size queue < fuel)%nat →
  let '(texts, rest, _) := drain (S (size queue)) i queue acked in
  drain fuel i queue acked = drain (S (size queue)) i queue acked ∧
  (length texts + size rest = size queue)%nat ∧
  rest !! u32 (i + Z.of_nat (length texts)) = None.
Proof.
  remember (size queue) as n eqn:En. revert i queue acked fuel En.
  induction n as [|n IH]; intros i queue acked fuel En Hi Hf; (destruct fuel as [|fuel]; [lia|]);
    rewrite !(drain_unfold _ i); destruct (queue !! i) as [text|] eqn:El.
  - apply eq_sym, map_size_empty_inv in En. by rewrite En, lookup_empty in El.
  - cbn. by rewrite Z.add_0_r, u32_id.
  - assert (Ed : n = size (delete i queue)) by (rewrite map_size_delete_Some by eauto; lia).
    specialize (IH (u32 (i + 1)) (delete i queue) i fuel Ed (u32_range _) ltac:(lia)).
    destruct (drain (S n) (u32 (i + 1)) (delete i queue) i) as [[texts rest] a] eqn:Er.
    destruct IH as (-> & Hs & Hl). split; [done|]. cbn [length].
    split; [lia|]. rewrite <- Hl. f_equal. unfold u32. rewrite Zplus_mod_idemp_l. f_equal. lia.
  - cbn. by rewrite Z.add_0_r, u32_id.
Qed.

Section peers.
Context `{NaClLaws}.

(** What [Reply] forgets. A reply for a round takes the round out whatever comes of it, and
    never panics. From round 10 on the keys of the rounds more than ten before it are deleted and
    those of the other rounds stay; below round 10 the bound [round-10] wraps around, so
    that every round below it, later rounds in flight among them, is deleted too, and the
    reply for such a round is reported as not found. *)
Theorem Reply_forgets now round e c :
  is_u32 round →
  is_ret (Reply now round e c).2 ∧
  let c' := (Reply now round e c).1 in
  rounds c' !! round = None ∧
  (10 <= round → ∀ r, r ≠ round →
    rounds c' !! r = if decide (r < round - 10) then None else rounds c !! r) ∧
  (round < 10 → ∀ r, 0 <= r < round + 2 ^ 32 - 10 →
    rounds c' !! r = None ∧ ∀ now' e', (Reply now' r e' c').2 = Ret ReplyRoundNotFound).
Proof.
  intros Hr. pose proof (Reply_run now round e c) as Hrun.
  destruct (reply_outcome now round e c) as [c1 r0]. destruct Hrun as [u ->].
  split; [done|]. cbn [fst rounds set_rounds set_lastPeerResponding set_unread].
  unfold is_u32 in Hr. split; [|split].
  - rewrite lookup_rounds_left. rewrite decide_True; [done|by left].
  - intros Hge r Hne. rewrite lookup_rounds_left, u32_id by (unfold is_u32; lia).
    destruct (decide (r < round - 10)); [rewrite decide_True by auto|rewrite decide_False by tauto]; done.
  - intros Hlt r Hr'.
    assert (E : rounds_left round c !! r = None).
    { rewrite lookup_rounds_left. rewrite decide_True; [done|]. right. unfold u32.
      rewrite <- (Z.mod_unique (round - 10) (2 ^ 32) (-1) (round - 10 + 2 ^ 32)); lia. }
    split; [done|]. intros now' e'. set (c' := set_lastPeerResponding _ _).
    pose proof (Reply_run now' r e' c') as Hrun. unfold reply_outcome in Hrun.
    change (rounds c') with (rounds_left round c) in Hrun. rewrite E in Hrun.
    by destruct Hrun as [u' ->].
Qed.

(** *** Two peers *)

Lemma length_convo_nonce round name : length (convo_nonce round name) = 24%nat.
Proof. unfold convo_nonce. rewrite !length_copy_into by (rewrite ?length_copy_into; len). len. Qed.

Lemma length_deadDrop round key : length (deadDrop round key) = 16%nat.
Proof. unfold deadDrop. len. Qed.

Lemma NextMessage_run now dummy round c key start base last msg :
  length key = 32%nat → keyed key start c → sessionKeyRound c <= round → is_u32 round →
  compose round (set_lastRound round c) =
    (set_lastOut last (set_seqBase base (set_lastRound round c)), Ret msg) →
  let K := key_of key start round in
  let enc := secretbox_Seal (ConvoMessage_Marshal msg) (convo_nonce round (peerUsername c)) K in
  NextMessage now dummy round c =
    (set_rounds (<[round := mkConvoRound enc K now]> (rounds c))
       (set_sessionKeyRound round (set_sessionKey (Some K)
          (set_lastOut last (set_seqBase base (set_lastRound round c))))),
     Ret (mkDeadDropMessage (deadDrop round K) enc)).
Proof.
  intros Hk Hc Hle Hr Hcomp K enc. unfold NextMessage. rewrite go_bind_unfold. cbn [modify].
  rewrite go_bind_unfold, Hcomp. rewrite go_bind_unfold, rollAndReplaceKey_run.
  assert (Hc' : keyed key start (set_lastOut last (set_seqBase base (set_lastRound round c)))) by exact Hc.
  rewrite (rollKey_keyed key start) by done.
  rewrite go_bind_unfold. cbn [get]. unfold Seal. fold K. cbn [peerUsername].
  assert (El : length enc = SizeEncryptedMessageBody).
  { unfold enc. by rewrite length_secretbox_Seal, length_ConvoMessage_Marshal. }
  change (secretbox_Seal (ConvoMessage_Marshal msg) (convo_nonce round (peerUsername _)) K) with enc.
  rewrite (go_copy_exact _ enc) by (by rewrite length_replicate, El). done.
Qed.

(** The round of two peers, see [peers_exchange]. *)
Lemma peers_exchange_run nowa nowb da db round a b key start :
  length key = 32%nat → keyed key start a → keyed key start b →
  sessionKeyRound a <= round → sessionKeyRound b <= round → is_u32 round →
  wf_conversation a → wf_conversation b →
  peerUsername a = myUsername b → myUsername a = peerUsername b →
  ∃ a' ma b' mb msg,
    NextMessage nowa da round a = (a', Ret ma) ∧ NextMessage nowb db round b = (b', Ret mb) ∧
    (compose round a).2 = Ret msg ∧
    myUsername b' = myUsername b ∧ peerUsername b' = peerUsername b ∧
    wf_message ma ∧ wf_message mb ∧ DeadDrop ma = DeadDrop mb ∧
    ∀ now b'', myUsername b'' = myUsername b → peerUsername b'' = peerUsername b →
      rounds b'' !! round = rounds b' !! round →
      EncryptedMessage ma ≠ EncryptedMessage mb ∨ Solo b = true →
      let r := receive (now - nowb) (wire msg) b'' in
      ∃ u, Reply now round (EncryptedMessage ma) b'' =
        (set_lastPeerResponding true (set_unread u (set_rounds (rounds_left round b'') r.1)),
         Ret (Shown (trim_right_nul <$> r.2))).
Proof.
  intros Hk Ha Hb Hla Hlb Hr Wa Wb Hp Hm.
  assert (Hfr : ∀ c, wf_conversation c → wf_conversation (set_lastRound round c)) by (by intros c []).
  destruct (compose_total round (set_lastRound round a)) as (ba & la & msga & Ea & Aa & Sa & _); [auto|].
  destruct (compose_total round (set_lastRound round b)) as (bb & lb & msgb & Eb & _); [auto|].
  pose proof (NextMessage_run nowa da round a key start _ _ _ Hk Ha Hla Hr Ea) as Na.
  pose proof (NextMessage_run nowb db round b key start _ _ _ Hk Hb Hlb Hr Eb) as Nb.
  cbv zeta in Na, Nb. do 4 eexists. exists msga.
  split; [exact Na|]. split; [exact Nb|].
  split; [rewrite <- (compose_set_lastRound round round), Ea by (by destruct Wa); done|].
  split; [done|]. split; [done|]. split; [|split; [|split]].
  - split; cbn; [apply length_deadDrop|]. by rewrite length_secretbox_Seal, length_ConvoMessage_Marshal.
  - split; cbn; [apply length_deadDrop|]. by rewrite length_secretbox_Seal, length_ConvoMessage_Marshal.
  - done.
  - intros now b'' Emy Epeer Er Hne. cbn [EncryptedMessage] in *. cbn zeta.
    pose proof (Reply_run now round
      (secretbox_Seal (ConvoMessage_Marshal msga) (convo_nonce round (peerUsername a)) (key_of key start round))
      b'') as Hrun.
    unfold reply_outcome in Hrun. rewrite Er in Hrun. cbn [rounds set_rounds] in Hrun.
    rewrite lookup_insert_eq in Hrun. cbn [sentMessage roundKey created] in Hrun.
    rewrite decide_False in Hrun.
    2: { intros [Eq HS]. destruct Hne as [Hne|HS']; [by apply Hne|].
         unfold Solo in *. by rewrite Emy, Epeer, HS' in HS. }
    unfold Open in Hrun. rewrite Emy, <- Hp, secretbox_Open_Seal in Hrun.
    rewrite Unmarshal_Marshal in Hrun; [exact Hrun|done|]. rewrite Aa. by destruct Wa.
Qed.

(** A round of two peers. When both hold the key that started from one agreement,
    [NextMessage] gives each of them a full-sized message, both for one dead drop, and
    [Reply], given the message of the other in any later state that still knows the round,
    opens it to the very message the other composed: its texts are shown, its
    acknowledgement is processed and the peer counts as responding. *)
Theorem peers_exchange nowa nowb da db round a b key start :
  length key = 32%nat → keyed key start a → keyed key start b →
  sessionKeyRound a <= round → sessionKeyRound b <= round → is_u32 round →
  wf_conversation a → wf_conversation b →
  peerUsername a = myUsername b → myUsername a = peerUsername b →
  ∃ a' ma b' mb msg,
    NextMessage nowa da round a = (a', Ret ma) ∧ NextMessage nowb db round b = (b', Ret mb) ∧
    (compose round a).2 = Ret msg ∧
    wf_message ma ∧ wf_message mb ∧ DeadDrop ma = DeadDrop mb ∧
    ∀ now b'', myUsername b'' = myUsername b → peerUsername b'' = peerUsername b →
      rounds b'' !! round = rounds b' !! round →
      EncryptedMessage ma ≠ EncryptedMessage mb ∨ Solo b = true →
      let r := receive (now - nowb) (wire msg) b'' in
      ∃ u, Reply now round (EncryptedMessage ma) b'' =
        (set_lastPeerResponding true (set_unread u (set_rounds (rounds_left round b'') r.1)),
         Ret (Shown (trim_right_nul <$> r.2))).
Proof.
  intros Hk Ha Hb Hla Hlb Hr Wa Wb Hp Hm.
  destruct (peers_exchange_run nowa nowb da db round a b key start Hk Ha Hb Hla Hlb Hr Wa Wb Hp Hm)
    as (a' & ma & b' & mb & msg & Ea & Eb & Em & _ & _ & Hrest).
  by exists a', ma, b', mb, msg.
Qed.

End peers.
