(* ===== verification/Delivery.v ===== *)
(** * Delivery of text messages (cmd/gjallarhorn-client/conversation.go)

    Two conversations that talk to each other over rounds that may lose, repeat and
    reorder messages. The steps are the critical sections of [Conversation] that touch the
    queues, so the theorems hold for every interleaving of the client's goroutines. The
    two ends are symmetric; an end is named by a [bool]. *)

From Stdlib Require Import ZArith Lia.
From stdpp Require Import base numbers strings gmap functions fin_maps relations list.
From S2P Require Import Prelude GoStd Json Sha2 External Convo Conversation.

(** ** The two roles of [receive]

    It changes the queue of the end as a sender, by what the message acknowledges, and what
    was received, by the message itself. *)

Definition accept (msg : ConvoMessage) (queue : gmap Z bytes) (acked : Z)
    : list bytes * gmap Z bytes * Z :=
  if decide (acked < Seq msg)
  then
    let queue := <[Seq msg := UserText msg]> queue in
    let acked := if Lowest msg then u32 (Seq msg - 1) else acked in
    drain (S (size queue)) (u32 (acked + 1)) queue acked
  else ([], queue, acked).

Lemma receive_accept l msg c :
  inQueue (receive l msg c).1 = (accept msg (inQueue c) (ack c)).1.2 ∧
  ack (receive l msg c).1 = (accept msg (inQueue c) (ack c)).2 ∧
  (receive l msg c).2 = (accept msg (inQueue c) (ack c)).1.1.
Proof.
  unfold receive, accept. cbv zeta. cbn -[drain].
  destruct (drop_acked _ _ _ _) as [q o]. cbn -[drain].
  destruct (decide (ack c < Seq msg)); [|done].
  destruct (Lowest msg); cbn -[drain]; destruct (drain _ _ _ _) as [[t q'] a]; done.
Qed.

Lemma receive_sender l msg c :
  let r := drop_acked (seqBase c) (Ack msg) (outQueue c) (lastOut c) in
  outQueue (receive l msg c).1 = r.1 ∧ lastOut (receive l msg c).1 = r.2 ∧
  seqBase (receive l msg c).1 = seqBase c ∧ relativeSeq (receive l msg c).1 = relativeSeq c.
Proof.
  unfold receive. cbv zeta. cbn -[drain].
  destruct (drop_acked _ _ _ _) as [q o]. cbn -[drain].
  destruct (decide (ack c < Seq msg)); [|done].
  destruct (Lowest msg); cbn -[drain]; destruct (drain _ _ _ _) as [[t q'] a]; done.
Qed.

(** ** Acknowledged messages leave the queue from its front *)

(** The queue holds consecutive relative numbers from [k] on. *)
Definition consecutive (k : Z) (queue : list seqMsg) : Prop :=
  ∀ j m, queue !! j = Some m → RelativeSeq m = k + Z.of_nat j.

Lemma consecutive_cons k m queue :
  consecutive k (m :: queue) → RelativeSeq m = k ∧ consecutive (k + 1) queue.
Proof.
  intros H. split.
  - rewrite (H 0%nat m eq_refl). lia.
  - intros j m' Hj. rewrite (H (S j) m' Hj). lia.
Qed.

Lemma drop_acked_none base acked k queue last :
  0 <= k → 0 <= base → base + k + Z.of_nat (length queue) <= 2 ^ 32 →
  consecutive k queue → (base = 0 ∨ acked < base + k) →
  drop_acked base acked queue last = (queue, last).
Proof.
  revert k. induction queue as [|m queue IH]; intros k Hk Hb Hlen Hc Ha; [done|].
  apply consecutive_cons in Hc as [Em Hc]. simpl length in Hlen. cbn [drop_acked].
  rewrite decide_False.
  - rewrite (IH (k + 1)) by (done || lia). done.
  - rewrite Em, u32_id by (unfold is_u32; lia). lia.
Qed.

Lemma drop_acked_prefix base acked k queue last :
  0 <= k → 0 <= base → base + k + Z.of_nat (length queue) <= 2 ^ 32 → -1 <= last →
  consecutive k queue →
  ∃ n last', (n ≤ length queue)%nat ∧ drop_acked base acked queue last = (drop n queue, last') ∧
    -1 <= last' ∧
    (0 < base → Z.of_nat n = Z.max 0 (Z.min (Z.of_nat (length queue)) (acked - base - k + 1))) ∧
    (base = 0 → n = 0%nat).
Proof.
  revert k last. induction queue as [|m queue IH]; intros k last Hk Hb Hlen Hl Hc.
  - exists 0%nat, last. cbn. repeat split; try done; lia.
  - destruct (decide (base = 0 ∨ acked < base + k)) as [Ha|Ha].
    + exists 0%nat, last. split; [lia|]. split; [exact (drop_acked_none base acked k _ last Hk Hb Hlen Hc Ha)|]. lia.
    + apply consecutive_cons in Hc as [Em Hc]. simpl length in *. cbn [drop_acked].
      rewrite decide_True by (rewrite Em, u32_id by (unfold is_u32; lia); lia).
      destruct (IH (k + 1) (if decide (0 < last) then last - 1 else last))
        as (n & last' & Hn & E & Hl' & Hmax & _); [lia|lia|lia|case_decide; lia|done|].
      exists (S n), last'. split; [lia|]. split; [done|]. lia.
Qed.

(** ** What [drain] takes *)

(** Every queued text is the one of its number. *)
Definition in_order (base : Z) (Q : list bytes) (queue : gmap Z bytes) : Prop :=
  ∀ q t, queue !! q = Some t →
    0 < base ∧ ∃ i u, Q !! i = Some u ∧ q = base + Z.of_nat i ∧ t = fit_text u.

Lemma in_order_delete base Q queue q : in_order base Q queue → in_order base Q (delete q queue).
Proof. intros H q' t [_ Hq]%lookup_delete_Some. by apply H. Qed.

Lemma drain_in_order base Q fuel n queue acked :
  in_order base Q queue → base + Z.of_nat (length Q) < 2 ^ 32 → (n ≤ length Q)%nat →
  ∃ k queue',
    drain fuel (base + Z.of_nat n) queue acked =
      (fit_text <$> take k (drop n Q), queue',
       if decide (k = 0)%nat then acked else base + Z.of_nat (n + k) - 1) ∧
    (n + k ≤ length Q)%nat ∧ in_order base Q queue' ∧
    (is_Some (queue !! (base + Z.of_nat n)) → (0 < fuel)%nat → (0 < k)%nat).
Proof.
  revert n queue acked. induction fuel as [|fuel IH]; intros n queue acked Ho Hb Hn.
  { exists 0%nat, queue. cbn. split; [done|]. split; [lia|]. split; [done|]. lia. }
  cbn [drain]. destruct (queue !! (base + Z.of_nat n)) as [t|] eqn:Et.
  2: { exists 0%nat, queue. cbn. split; [done|]. split; [lia|]. split; [done|]. by intros []. }
  destruct (Ho _ _ Et) as (Hpos & i & u & Hi & Ei & ->).
  assert (i = n) as -> by lia. pose proof (lookup_lt_Some _ _ _ Hi) as Hlt.
  rewrite u32_id by (unfold is_u32; lia).
  replace (base + Z.of_nat n + 1) with (base + Z.of_nat (S n)) by lia.
  destruct (IH (S n) (delete (base + Z.of_nat n) queue) (base + Z.of_nat n))
    as (k & queue' & -> & Hk & Ho' & _); [by apply in_order_delete|done|lia|].
  exists (S k), queue'. rewrite (drop_S _ _ _ Hi). cbn [take]. rewrite fmap_cons.
  split; [|split; [lia|split; [done|lia]]]. do 2 f_equal.
  rewrite (decide_False (P := S k = 0%nat)) by lia. case_decide; subst; lia.
Qed.

(** What the receiver acknowledges after [D] texts. *)
Definition acked_after (base : Z) (D : nat) : Z :=
  if decide (D = 0)%nat then 0 else base + Z.of_nat D - 1.

Lemma accept_in_order base Q D queue msg i t :
  0 < base → base + Z.of_nat (length Q) < 2 ^ 32 → (D ≤ length Q)%nat → in_order base Q queue →
  Q !! i = Some t → Seq msg = base + Z.of_nat i → UserText msg = fit_text t →
  (Lowest msg = true → (i ≤ D)%nat) → acked_after base D < Seq msg →
  ∃ k queue', accept msg queue (acked_after base D) =
      (fit_text <$> take k (drop D Q), queue', acked_after base (D + k)) ∧
    (D + k ≤ length Q)%nat ∧ in_order base Q queue' ∧
    (Lowest msg = true → (i < D + k)%nat).
Proof.
  intros Hpos Hb HD Ho Hi Eseq Etext Hlow Hlt. unfold accept. rewrite decide_True by done.
  pose proof (lookup_lt_Some _ _ _ Hi) as HiQ.
  set (queue1 := <[Seq msg := UserText msg]> queue).
  assert (Ho1 : in_order base Q queue1).
  { intros q u [[<- <-]|[_ Hq]]%lookup_insert_Some; [|by apply Ho].
    split; [done|]. exists i, t. done. }
  (* the position from which the queue is drained *)
  assert (Hfrom : ∀ acked, acked = base + Z.of_nat D - 1 → (D = 0%nat → acked ≠ 0 → Lowest msg = true) →
    ∃ k queue', drain (S (size queue1)) (u32 (acked + 1)) queue1 acked =
      (fit_text <$> take k (drop D Q), queue', acked_after base (D + k)) ∧
    (D + k ≤ length Q)%nat ∧ in_order base Q queue' ∧
    (Lowest msg = true → (i < D + k)%nat)).
  { intros acked -> Hz. replace (base + Z.of_nat D - 1 + 1) with (base + Z.of_nat D) by lia.
    rewrite u32_id by (unfold is_u32; lia).
    destruct (drain_in_order base Q (S (size queue1)) D queue1 (base + Z.of_nat D - 1))
      as (k & queue' & -> & Hk & Ho' & Hmore); [done..|].
    assert (Hlowk : Lowest msg = true → (i < D + k)%nat).
    { intros Hl. specialize (Hlow Hl). destruct (decide (i = D)) as [->|]; [|lia].
      specialize (Hmore ltac:(unfold queue1; rewrite <- Eseq, lookup_insert_eq; eauto) ltac:(lia)). lia. }
    exists k, queue'. split; [|done]. f_equal. unfold acked_after.
    destruct (decide (k = 0)%nat) as [->|]; [|by rewrite decide_False by lia].
    rewrite Nat.add_0_r. destruct (decide (D = 0)%nat) as [->|]; [|done].
    destruct (decide (base + Z.of_nat 0 - 1 = 0)) as [|Hne]; [done|].
    specialize (Hlowk (Hz eq_refl Hne)). lia. }
  unfold acked_after in Hlt. destruct (Lowest msg) eqn:Hl.
  - apply Hfrom; [|done]. specialize (Hlow eq_refl). rewrite u32_id by (unfold is_u32; lia).
    destruct (decide (D = 0)%nat); lia.
  - unfold acked_after at 1 2 3. destruct (decide (D = 0)%nat) as [->|Hne]; [|by apply Hfrom].
    destruct (decide (base = 1)) as [->|Hb1]; [by apply Hfrom|].
    exists 0%nat, queue1. cbn [drain]. change (u32 (0 + 1)) with 1.
    destruct (queue1 !! 1) as [u|] eqn:E1.
    { destruct (Ho1 _ _ E1) as (_ & j & u' & _ & Ej & _). lia. }
    split; [done|]. split; [lia|]. done.
Qed.

(** ** The system *)

(** An end: its conversation, the texts its user queued and the texts it was given to
    show, oldest first. *)
Record endpoint := mkEndpoint {
  conv : Conversation;
  queued : list bytes;
  shown : list bytes
}.

(** [wires s] holds every message end [s] sent, as it arrives. *)
Record net := mkNet {
  ends : bool → endpoint;
  wires : bool → list ConvoMessage
}.

Definition at_end (s : bool) (e : endpoint) (n : net) : net := mkNet (<[s := e]> (ends n)) (wires n).

(** The fields the queues do not depend on may change; activation resets [lastOut]. *)
Definition same_queues (c c' : Conversation) : Prop :=
  outQueue c' = outQueue c ∧ inQueue c' = inQueue c ∧ relativeSeq c' = relativeSeq c ∧
  seqBase c' = seqBase c ∧ ack c' = ack c ∧ (lastOut c' = lastOut c ∨ lastOut c' = -1).

Section system.
(** No sequence number reaches 2^32: rounds are at most [last_round], and an end queues at
    most [max_msgs] texts. *)
Context (last_round : Z) (max_msgs : nat).

(** [Reply] lets go of its lock before it prints the texts that have become due; both are one step
    here. A connection handles one message after the other, so the next [Reply] of the conversation
    starts when these texts are shown. *)
Inductive step : net → net → Prop :=
| step_queue n s view text :
    let e := ends n s in
    (length (queued e) < max_msgs)%nat →
    step n (at_end s (mkEndpoint (QueueTextMessage view text (conv e)) (queued e ++ [text]) (shown e)) n)
| step_send n s round c' msg :
    let e := ends n s in
    0 <= round <= last_round →
    compose round (conv e) = (c', Ret msg) →
    step n (mkNet (<[s := mkEndpoint c' (queued e) (shown e)]> (ends n))
                  (<[s := wire msg :: wires n s]> (wires n)))
| step_receive n s latency msg :
    let e := ends n s in
    msg ∈ wires n (negb s) →
    let r := receive latency msg (conv e) in
    step n (at_end s (mkEndpoint r.1 (queued e) (shown e ++ r.2)) n)
| step_other n s c' :
    let e := ends n s in
    same_queues (conv e) c' →
    step n (at_end s (mkEndpoint c' (queued e) (shown e)) n).

(** Both clients start with fresh conversations. *)
Definition initial (a b : string) : net :=
  mkNet (λ s, mkEndpoint (Init (if s then zero_Conversation a b else zero_Conversation b a)) [] [])
        (λ _, []).

Definition reachable (a b : string) (n : net) : Prop := rtc step (initial a b) n.

(** ** The invariant of one direction

    [c] sent the texts [Q] with the messages [W]; [d] showed [S] and acknowledged with the
    messages [W']. *)
Definition number (Q : list bytes) : list seqMsg := imap (λ i t, mkSeqMsg (Z.of_nat i) t) Q.

Record direction (c : Conversation) (Q : list bytes) (W : list ConvoMessage)
    (d : Conversation) (S : list bytes) (W' : list ConvoMessage) : Prop := {
  dir_count : (length Q ≤ max_msgs)%nat ∧ relativeSeq c = Z.of_nat (length Q);
  dir_queue : ∃ k, (k ≤ length S)%nat ∧ outQueue c = drop k (number Q);
  dir_last : -1 <= lastOut c;
  dir_base : 0 <= seqBase c <= last_round + 1;
  dir_wire m : m ∈ W → Seq m = 0 ∨
    (0 < seqBase c ∧ ∃ i t, Q !! i = Some t ∧ Seq m = seqBase c + Z.of_nat i ∧
       UserText m = fit_text t ∧ (Lowest m = true → (i ≤ length S)%nat));
  dir_shown : S = fit_text <$> take (length S) Q;
  dir_ack : ack d = acked_after (seqBase c) (length S) ∧ ((0 < length S)%nat → 0 < seqBase c);
  dir_inQueue : in_order (seqBase c) Q (inQueue d);
  dir_acks m : m ∈ W' → Ack m <= ack d
}.

Definition invariant (n : net) : Prop :=
  ∀ s, direction (conv (ends n s)) (queued (ends n s)) (wires n s)
         (conv (ends n (negb s))) (shown (ends n (negb s))) (wires n (negb s)).

Lemma lookup_number Q i : number Q !! i = (λ t, mkSeqMsg (Z.of_nat i) t) <$> Q !! i.
Proof. unfold number. by rewrite list_lookup_imap. Qed.

Lemma length_number Q : length (number Q) = length Q.
Proof. apply length_imap. Qed.

Lemma number_snoc Q t : number (Q ++ [t]) = number Q ++ [mkSeqMsg (Z.of_nat (length Q)) t].
Proof. unfold number. rewrite imap_app. cbn. by rewrite Nat.add_0_r. Qed.

Lemma consecutive_number k Q : consecutive (Z.of_nat k) (drop k (number Q)).
Proof.
  intros j m. rewrite lookup_drop, lookup_number. destruct (Q !! (k + j)%nat); [|done].
  intros [= <-]. cbn. lia.
Qed.

Lemma in_order_snoc base Q t queue : in_order base Q queue → in_order base (Q ++ [t]) queue.
Proof.
  intros H q t' Hq. destruct (H q t' Hq) as (Hb & i & u & Hi & ? & ?). split; [done|]. exists i, u.
  split; [|done]. by apply lookup_app_l_Some.
Qed.

Lemma length_shown c Q W d S W' : direction c Q W d S W' → (length S ≤ length Q)%nat.
Proof.
  intros Hd. pose proof (dir_shown _ _ _ _ _ _ Hd) as E. apply (f_equal length) in E.
  rewrite length_fmap, length_take in E. lia.
Qed.

Lemma initial_invariant a b : 0 <= last_round → invariant (initial a b).
Proof.
  intros Hr s. unfold initial, Init.
  destruct s; constructor; cbn; try lia; try (by intros ? ?%elem_of_nil); try done;
    first [by exists 0%nat|split; [done|lia]].
Qed.

(** *** As the receiver of the direction *)

(** What the receiver's queues depend on. *)
Lemma direction_receiver c Q W d S W' d' :
  direction c Q W d S W' → inQueue d' = inQueue d → ack d' = ack d → direction c Q W d' S W'.
Proof. intros [] Ei Ea. constructor; rewrite ?Ei, ?Ea; done. Qed.

Lemma direction_receiver_sends c Q W d S W' m :
  direction c Q W d S W' → Ack m <= ack d → direction c Q W d S (m :: W').
Proof. intros [] Ha. constructor; try done. intros m' [->|?]%elem_of_cons; auto. Qed.

(** *** As its sender *)

Lemma direction_queue c Q W d S W' view text :
  last_round + 1 + Z.of_nat max_msgs < 2 ^ 32 → 0 <= last_round →
  direction c Q W d S W' → (length Q < max_msgs)%nat →
  direction (QueueTextMessage view text c) (Q ++ [text]) W d S W'.
Proof.
  intros Hbound Hr Hd Hlt. pose proof (length_shown _ _ _ _ _ _ Hd) as HS.
  destruct Hd as [[Hc Hrel] (k & Hk & Hq) Hl Hb Hw Hs Ha Hi Hacks].
  assert (Eq : outQueue (QueueTextMessage view text c) = outQueue c ++ [mkSeqMsg (relativeSeq c) text] ∧
    relativeSeq (QueueTextMessage view text c) = u32 (relativeSeq c + 1) ∧
    lastOut (QueueTextMessage view text c) = lastOut c ∧
    seqBase (QueueTextMessage view text c) = seqBase c).
  { destruct c as [? ? ? ? ? ? ? ? ? ? ? ? ? ? ? ? []], view; done. }
  destruct Eq as (Eo & Er & El & Eb).
  constructor; rewrite ?Eo, ?Er, ?El, ?Eb; try done.
  - rewrite length_app. cbn. split; [lia|]. rewrite Hrel, u32_id by (unfold is_u32; lia). lia.
  - exists k. split; [done|]. rewrite Hq, Hrel, number_snoc, drop_app_le by (rewrite length_number; lia). done.
  - intros m Hm. destruct (Hw m Hm) as [|(? & i & t & Hti & ?)]; [by left|right]. split; [done|].
    exists i, t. split; [|done]. by apply lookup_app_l_Some.
  - by rewrite take_app_le by lia.
  - by apply in_order_snoc.
Qed.

Lemma direction_other c Q W d S W' c' :
  direction c Q W d S W' → same_queues c c' → direction c' Q W d S W'.
Proof.
  intros [] (Eo & _ & Er & Eb & _ & El).
  constructor; rewrite ?Eo, ?Er, ?Eb; try done. destruct El as [->| ->]; [done|lia].
Qed.

Lemma direction_send c Q W d S W' round c' msg :
  last_round + 1 + Z.of_nat max_msgs < 2 ^ 32 →
  direction c Q W d S W' → 0 <= round <= last_round → compose round c = (c', Ret msg) →
  direction c' Q (wire msg :: W) d S W' ∧ ack c' = ack c ∧ inQueue c' = inQueue c ∧ Ack msg = ack c.
Proof.
  intros Hbound Hd Hr Hc. pose proof (length_shown _ _ _ _ _ _ Hd) as HS.
  destruct Hd as [[Hn Hrel] (k & Hk & Hq) Hl Hb Hw Hs Ha Hi Hacks].
  destruct (decide (outQueue c = [])) as [He|He].
  { rewrite compose_empty in Hc by done. injection Hc as <- <-.
    split; [|done]. constructor; try done; [by exists k|].
    intros m [->|Hm]%elem_of_cons; [by left|auto]. }
  destruct (next_message_exists c Hl He) as [out Hout].
  rewrite (compose_queue round c out) in Hc by done. injection Hc as <- <-.
  rewrite Hq, lookup_drop, lookup_number in Hout.
  destruct (Q !! (k + Z.to_nat (next_out c))%nat) as [t|] eqn:Et; [|done]. injection Hout as <-.
  pose proof (lookup_lt_Some _ _ _ Et) as Hlt.
  assert (Hbase : 0 < next_base round c <= last_round + 1 ∧ (0 < seqBase c → next_base round c = seqBase c)).
  { unfold next_base. destruct (decide (seqBase c = 0)); [|lia]. rewrite u32_id by (unfold is_u32; lia). lia. }
  destruct Hbase as [Hpos Hsame].
  assert (Hzero : seqBase c = 0 → S = []).
  { intros Ez. apply nil_length_inv. lia. }
  split; [|done]. constructor; cbn [relativeSeq outQueue lastOut seqBase set_lastOut set_seqBase]; try done.
  - by exists k.
  - pose proof (next_out_range c Hl He). lia.
  - lia.
  - intros m [->|Hm]%elem_of_cons.
    + right. split; [lia|]. exists (k + Z.to_nat (next_out c))%nat, t. cbn. split; [done|].
      rewrite u32_id by (unfold is_u32; lia). split; [lia|]. split; [done|].
      intros Hlow%bool_decide_eq_true. rewrite Hlow. cbn. lia.
    + destruct (Hw m Hm) as [|(Hb0 & i & t' & ?)]; [by left|right]. split; [lia|].
      exists i, t'. by rewrite Hsame.
  - destruct Ha as [Ha Hpos']. split; [|by intros _; apply Hpos]. unfold acked_after in *.
    destruct (decide (length S = 0)%nat); [done|]. rewrite Hsame by lia. lia.
  - intros q t' Hqt. destruct (Hi q t' Hqt) as (Hb0 & ?). by rewrite Hsame.
Qed.

Lemma direction_acked c Q W d S W' latency msg :
  last_round + 1 + Z.of_nat max_msgs < 2 ^ 32 →
  direction c Q W d S W' → msg ∈ W' → direction (receive latency msg c).1 Q W d S W'.
Proof.
  intros Hbound Hd Hm. pose proof (length_shown _ _ _ _ _ _ Hd) as HS.
  destruct Hd as [[Hn Hrel] (k & Hk & Hq) Hl Hb Hw Hs Ha Hi Hacks].
  destruct (receive_sender latency msg c) as (Eo & El & Eb & Er).
  destruct (drop_acked_prefix (seqBase c) (Ack msg) (Z.of_nat k) (outQueue c) (lastOut c))
    as (n & last' & Hnl & E & Hl' & Hpos & Hzero); [lia|lia| |done|rewrite Hq; apply consecutive_number|].
  { rewrite Hq, length_drop, length_number. lia. }
  rewrite E in Eo, El. cbn in Eo, El.
  constructor; rewrite ?Eo, ?El, ?Eb, ?Er; try done.
  exists (k + n)%nat. rewrite Hq, drop_drop. split; [|done].
  specialize (Hacks msg Hm). destruct (decide (seqBase c = 0)) as [Ez|]; [rewrite Hzero by done; lia|].
  specialize (Hpos ltac:(lia)). destruct Ha as [Ha _]. unfold acked_after in Ha.
  destruct (decide (length S = 0)%nat); lia.
Qed.

(** *** What it receives *)

Lemma direction_receive c Q W d S W' latency msg :
  last_round + 1 + Z.of_nat max_msgs < 2 ^ 32 →
  direction c Q W d S W' → msg ∈ W →
  let r := receive latency msg d in
  direction c Q W r.1 (S ++ r.2) W' ∧
  (∀ i, Lowest msg = true → Seq msg = seqBase c + Z.of_nat i → 0 < seqBase c →
     (i < length (S ++ r.2))%nat).
Proof.
  intros Hbound Hd Hm r. pose proof (length_shown _ _ _ _ _ _ Hd) as HS.
  destruct (receive_accept latency msg d) as (Ei & Ea & Et). fold r in Ei, Ea, Et.
  destruct Hd as [[Hn Hrel] (k0 & Hk & Hq) Hl Hb Hw Hs [Ha Hpos] Hi Hacks].
  destruct (decide (ack d < Seq msg)) as [Hlt|Hge].
  - destruct (Hw msg Hm) as [Hz|(Hb0 & i & t & Hit & Eseq & Etext & Hlow)].
    { unfold acked_after in Ha. destruct (decide (length S = 0)%nat); lia. }
    destruct (accept_in_order (seqBase c) Q (length S) (inQueue d) msg i t)
      as (k & queue' & E & Hk' & Ho' & Hlow'); [done|lia|done|done|done|done|done|done|by rewrite <- Ha|].
    rewrite Ha, E in Ei, Ea, Et. cbn in Ei, Ea, Et.
    assert (ES : S ++ r.2 = fit_text <$> take (length S + k) Q).
    { rewrite Et, Hs at 1. by rewrite <- fmap_app, take_take_drop. }
    assert (El : length (S ++ r.2) = (length S + k)%nat).
    { rewrite ES, length_fmap, length_take. lia. }
    split.
    + constructor; rewrite ?El, ?Ea, ?Ei; try done.
      * exists k0. split; [lia|done].
      * intros m Hm'. destruct (Hw m Hm') as [|(? & i' & t' & ? & ? & ? & Hlow2)]; [by left|right].
        split; [done|]. exists i', t'. repeat split; try done. intros Hl2. specialize (Hlow2 Hl2). lia.
      * intros m Hm'. specialize (Hacks m Hm'). rewrite Ha in Hlt, Hacks. unfold acked_after in *.
        destruct (decide (length S = 0)%nat), (decide (length S + k = 0)%nat); lia.
    + intros i' Hl' Eseq' _. rewrite El. assert (i' = i) as -> by lia. by apply Hlow'.
  - unfold accept in Ei, Ea, Et. rewrite decide_False in Ei, Ea, Et by done. cbn in Ei, Ea, Et.
    rewrite Et, app_nil_r. split.
    + by apply direction_receiver with d; [constructor; eauto|..].
    + intros i Hl' Eseq Hb0. rewrite Ha in Hge. unfold acked_after in Hge.
      destruct (decide (length S = 0)%nat); lia.
Qed.

(** ** The invariant of the system *)

Lemma invariant_intro n s :
  direction (conv (ends n s)) (queued (ends n s)) (wires n s)
    (conv (ends n (negb s))) (shown (ends n (negb s))) (wires n (negb s)) →
  direction (conv (ends n (negb s))) (queued (ends n (negb s))) (wires n (negb s))
    (conv (ends n s)) (shown (ends n s)) (wires n s) →
  invariant n.
Proof. intros Hs Hr s'. by destruct s, s'. Qed.

Lemma upd_eq {A} (s : bool) (a : A) f : (<[s := a]> f : bool → A) s = a.
Proof. apply fn_lookup_insert. Qed.

Lemma upd_neg {A} (s : bool) (a : A) f : (<[s := a]> f : bool → A) (negb s) = f (negb s).
Proof. apply fn_lookup_insert_ne. by destruct s. Qed.

Ltac upd := cbn [ends wires at_end]; rewrite ?upd_eq, ?upd_neg; cbn [conv queued shown].

Hypothesis last_round_nonneg : 0 <= last_round.
Hypothesis in_bounds : last_round + 1 + Z.of_nat max_msgs < 2 ^ 32.

Lemma step_invariant n n' : step n n' → invariant n → invariant n'.
Proof.
  intros Hstep Hinv.
  assert (Hboth : ∀ s, direction (conv (ends n (negb s))) (queued (ends n (negb s))) (wires n (negb s))
    (conv (ends n s)) (shown (ends n s)) (wires n s)).
  { intros s. specialize (Hinv (negb s)). by rewrite negb_involutive in Hinv. }
  destruct Hstep as [n s view text e Hlt|n s round c' msg e Hr Hc|n s latency msg e Hm r|n s c' e Hsame];
    pose proof (Hinv s) as Hs; pose proof (Hboth s) as Hb; apply (invariant_intro _ s); upd; fold e in Hs, Hb.
  - by apply direction_queue.
  - apply direction_receiver with (conv e); [done|..];
      destruct (conv e) as [? ? ? ? ? ? ? ? ? ? ? ? ? ? ? ? []], view; done.
  - by eapply direction_send.
  - destruct (direction_send _ _ _ _ _ _ _ _ _ in_bounds Hs Hr Hc) as (_ & Ea & Ei & Em).
    apply direction_receiver_sends; [by apply direction_receiver with (conv e)|]. cbn. by rewrite Em, Ea.
  - by eapply direction_acked.
  - destruct (direction_receive _ _ _ _ _ _ latency msg in_bounds Hb Hm) as [Hd _]. exact Hd.
  - by eapply direction_other.
  - destruct Hsame as (_ & Ei & _ & _ & Ea & _). by apply direction_receiver with (conv e).
Qed.

Lemma reachable_invariant a b n : reachable a b n → invariant n.
Proof.
  unfold reachable. intros Hr. pose proof (initial_invariant a b last_round_nonneg) as H0.
  induction Hr as [n|n1 n2 n3 Hs _ IH]; [done|]. apply IH. by eapply step_invariant.
Qed.

Lemma reachable_steps n n' : rtc step n n' → invariant n → invariant n'.
Proof. induction 1; [done|]. intros. eauto using step_invariant. Qed.

End system.

(** C27. Delivery in order, exactly once. Whatever the rounds lose, repeat or reorder, and however
    the goroutines of both clients interleave, the texts an end has shown are, each cut or
    padded to [SizeUserText] bytes, the first texts the other end queued, in their order,
    none twice; and what has left the sender's queue has been shown. *)
Theorem delivery_in_order last_round max_msgs a b n s :
  0 <= last_round → last_round + 1 + Z.of_nat max_msgs < 2 ^ 32 →
  reachable last_round max_msgs a b n →
  let Q := queued (ends n s) in
  let S := shown (ends n (negb s)) in
  (length S ≤ length Q)%nat ∧ S = fit_text <$> take (length S) Q ∧
  ∃ k, (k ≤ length S)%nat ∧ outQueue (conv (ends n s)) = drop k (number Q).
Proof.
  intros Hr Hb Hn Q S. pose proof (reachable_invariant _ _ Hr Hb _ _ _ Hn s) as Hd.
  split; [by eapply length_shown|]. split; [apply Hd|apply Hd].
Qed.

(** ** Progress *)

Section progress.
Context (last_round : Z) (max_msgs : nat).
Hypothesis last_round_nonneg : 0 <= last_round.
Hypothesis in_bounds : last_round + 1 + Z.of_nat max_msgs < 2 ^ 32.

Abbreviation step := (step last_round max_msgs).
Abbreviation invariant := (invariant last_round max_msgs).

(** Steps that queue nothing. *)
Definition same_texts (n n' : net) : Prop := ∀ s, queued (ends n' s) = queued (ends n s).

Lemma same_texts_trans n1 n2 n3 : same_texts n1 n2 → same_texts n2 n3 → same_texts n1 n3.
Proof. intros H12 H23 s. by rewrite H23. Qed.

Lemma same_texts_at n s e : queued e = queued (ends n s) → same_texts n (at_end s e n).
Proof.
  intros He s'. cbn. destruct (decide (s = s')) as [<-|Hne]; [by rewrite fn_lookup_insert|].
  by rewrite fn_lookup_insert_ne.
Qed.

Lemma next_out_case c :
  -1 <= lastOut c → next_out c = 0 ∨
  (next_out c = lastOut c + 1 ∧ 0 <= lastOut c ∧ lastOut c + 1 < Z.of_nat (length (outQueue c))).
Proof.
  intros Hl. unfold next_out.
  destruct (decide (lastOut c ≠ -1 ∧ lastOut c + 1 < Z.of_nat (length (outQueue c)))); [right; lia|by left].
Qed.

(** A sender with a queue sends its lowest message after at most as many rounds as the
    queue has messages. *)
Lemma sends_lowest n s k out :
  invariant n → outQueue (conv (ends n s)) !! 0%nat = Some out →
  outQueue (conv (ends n s)) = drop k (number (queued (ends n s))) →
  ∃ n' msg, rtc step n n' ∧ same_texts n n' ∧ ends n' (negb s) = ends n (negb s) ∧
    wires n' (negb s) = wires n (negb s) ∧
    outQueue (conv (ends n' s)) = outQueue (conv (ends n s)) ∧
    msg ∈ wires n' s ∧ Lowest msg = true ∧ 0 < seqBase (conv (ends n' s)) ∧
    Seq msg = seqBase (conv (ends n' s)) + Z.of_nat k.
Proof.
  intros Hinv Hout Hk.
  remember (Z.to_nat (Z.of_nat (length (outQueue (conv (ends n s)))) - lastOut (conv (ends n s)))) as m eqn:Em.
  revert n Hinv Hout Hk Em. induction m as [m IH] using lt_wf_ind. intros n Hinv Hout Hk Em.
  pose proof (Hinv s) as Hd. pose proof (dir_last _ _ _ _ _ _ _ _ Hd) as Hl.
  assert (Hne : outQueue (conv (ends n s)) ≠ []) by (by intros E; rewrite E in Hout).
  destruct (next_message_exists _ Hl Hne) as [o Ho].
  pose proof (compose_queue 0 _ o Hl Ho) as Hc.
  pose proof (step_send last_round max_msgs n s 0 _ _ ltac:(lia) Hc) as Hstep. cbn zeta in Hstep.
  set (n1 := mkNet _ _) in Hstep.
  pose proof (step_invariant _ _ last_round_nonneg in_bounds _ _ Hstep Hinv) as Hinv1.
  assert (Hend : ends n1 s = mkEndpoint (set_lastOut (next_out (conv (ends n s)))
            (set_seqBase (next_base 0 (conv (ends n s))) (conv (ends n s))))
            (queued (ends n s)) (shown (ends n s))) by apply upd_eq.
  assert (Hother : ends n1 (negb s) = ends n (negb s)) by apply upd_neg.
  assert (Hwo : wires n1 (negb s) = wires n (negb s)) by apply upd_neg.
  assert (Hw : wires n1 s = wire (mkConvoMessage (u32 (RelativeSeq o + next_base 0 (conv (ends n s))))
            (ack (conv (ends n s))) (bool_decide (next_out (conv (ends n s)) = 0)) (Msg o)) :: wires n s)
    by apply upd_eq.
  assert (Hsame : same_texts n n1) by (by apply same_texts_at).
  clearbody n1. destruct (next_out_case _ Hl) as [Hz|(Hnext & Hl0 & Hlt)].
  - rewrite Hz in *. change (Z.to_nat 0) with 0%nat in Ho. rewrite Hout in Ho. injection Ho as <-.
    rewrite Hk, lookup_drop, lookup_number in Hout.
    destruct (queued (ends n s) !! (k + 0)%nat) as [t|] eqn:Et; [|done]. injection Hout as <-.
    pose proof (lookup_lt_Some _ _ _ Et) as Hkl.
    pose proof (dir_base _ _ _ _ _ _ _ _ Hd) as Hb. pose proof (dir_count _ _ _ _ _ _ _ _ Hd) as [Hcount _].
    eexists n1, _. split; [by apply rtc_once|]. split; [done|]. split; [done|]. split; [done|].
    rewrite Hend. split; [done|]. split; [rewrite Hw; by left|]. split; [done|].
    cbn [conv seqBase set_lastOut set_seqBase wire Seq RelativeSeq].
    assert (Hnb : 0 < next_base 0 (conv (ends n s)) <= last_round + 1).
    { unfold next_base. destruct (decide (seqBase (conv (ends n s)) = 0)); [change (u32 (0 + 1)) with 1|]; lia. }
    split; [lia|]. rewrite u32_id by (unfold is_u32; lia). lia.
  - destruct (IH (Z.to_nat (Z.of_nat (length (outQueue (conv (ends n1 s)))) - lastOut (conv (ends n1 s)))))
      with (n := n1) as (n' & msg & Hr & Hst & He & Hwn & Hq & Hrest);
      [rewrite Hend; cbn; lia|done|by rewrite Hend|by rewrite Hend|done|].
    exists n', msg. split; [by eapply rtc_l|]. split; [by eapply same_texts_trans|].
    rewrite He, Hwn, Hq. split; [done|]. split; [done|]. split; [by rewrite Hend|done].
Qed.

(** The other end has shown the first message of the queue. *)
Lemma shows_lowest n s k :
  invariant n → outQueue (conv (ends n s)) = drop k (number (queued (ends n s))) →
  (k < length (queued (ends n s)))%nat →
  ∃ n', rtc step n n' ∧ same_texts n n' ∧
    outQueue (conv (ends n' s)) = outQueue (conv (ends n s)) ∧
    (k < length (shown (ends n' (negb s))))%nat.
Proof.
  intros Hinv Hk Hlt.
  destruct (lookup_lt_is_Some_1 (outQueue (conv (ends n s))) 0) as [out Hout].
  { rewrite Hk, length_drop, length_number. lia. }
  destruct (sends_lowest n s k out Hinv Hout Hk)
    as (n1 & msg & Hr1 & Hs1 & Ho1 & Hw1 & Hq1 & Hm & Hlow & Hb1 & Hseq).
  pose proof (reachable_steps _ _ last_round_nonneg in_bounds _ _ Hr1 Hinv) as Hinv1.
  destruct (direction_receive _ _ _ _ _ _ _ _ 0 msg in_bounds (Hinv1 s) Hm) as [_ Hshown].
  specialize (Hshown k Hlow Hseq Hb1).
  rewrite <- (negb_involutive s) in Hm.
  pose proof (step_receive last_round max_msgs n1 (negb s) 0 msg Hm) as Hstep. cbn zeta in Hstep.
  set (n2 := at_end _ _ n1) in Hstep. exists n2.
  split; [by eapply rtc_r|]. split; [eapply same_texts_trans; [done|by apply same_texts_at]|].
  unfold n2. cbn [ends at_end]. rewrite fn_lookup_insert, fn_lookup_insert_ne by (by destruct s). done.
Qed.

(** What the other end has shown, its next message acknowledges. *)
Lemma acks_shown n s k :
  invariant n → outQueue (conv (ends n s)) = drop k (number (queued (ends n s))) →
  (k < length (shown (ends n (negb s))))%nat →
  ∃ n', rtc step n n' ∧ same_texts n n' ∧
    outQueue (conv (ends n' s)) = drop (length (shown (ends n (negb s)))) (number (queued (ends n s))).
Proof.
  intros Hinv Hk Hlt.
  assert (Hwf : ∃ c' m', compose 0 (conv (ends n (negb s))) = (c', Ret m')).
  { pose proof (dir_last _ _ _ _ _ _ _ _ (Hinv (negb s))) as Hl.
    destruct (decide (outQueue (conv (ends n (negb s))) = [])) as [E|E].
    - rewrite compose_empty by done. eauto.
    - destruct (next_message_exists _ Hl E) as [o Ho]. rewrite (compose_queue _ _ o) by done. eauto. }
  destruct Hwf as (c' & m & Hc).
  assert (H0 : 0 <= 0 <= last_round) by lia.
  pose proof (step_send last_round max_msgs n (negb s) 0 _ _ H0 Hc) as Hstep1. cbn zeta in Hstep1.
  destruct (direction_send _ _ _ _ _ _ _ _ _ _ _ in_bounds (Hinv (negb s)) H0 Hc) as (_ & _ & _ & Em).
  set (n1 := mkNet _ _) in Hstep1.
  assert (Hs1 : ends n1 s = ends n s) by (apply fn_lookup_insert_ne; by destruct s).
  assert (Hm1 : wire m ∈ wires n1 (negb s)) by (cbn [wires n1]; rewrite fn_lookup_insert; by left).
  assert (Hst1 : same_texts n n1) by (by apply same_texts_at).
  clearbody n1.
  pose proof (step_receive last_round max_msgs n1 s 0 (wire m) Hm1) as Hstep2. cbn zeta in Hstep2.
  rewrite Hs1 in Hstep2. set (n2 := at_end _ _ n1) in Hstep2.
  exists n2. split; [eapply rtc_l; [done|by apply rtc_once]|].
  split; [eapply same_texts_trans; [done|apply same_texts_at; by rewrite Hs1]|].
  unfold n2. cbn [ends at_end]. rewrite fn_lookup_insert. cbn [conv].
  destruct (receive_sender 0 (wire m) (conv (ends n s))) as (-> & _).
  pose proof (Hinv s) as Hd. pose proof (length_shown _ _ _ _ _ _ _ _ Hd) as HS.
  destruct Hd as [[Hn _] _ Hl Hb _ _ [Ha Hpos] _ _].
  destruct (drop_acked_prefix (seqBase (conv (ends n s))) (Ack (wire m)) (Z.of_nat k)
    (outQueue (conv (ends n s))) (lastOut (conv (ends n s)))) as (j & last' & _ & -> & _ & Hj & _);
    [lia|lia| |done|rewrite Hk; apply consecutive_number|].
  { rewrite Hk, length_drop, length_number. lia. }
  cbn [fst]. rewrite Hk, drop_drop. f_equal. cbn [wire Ack] in Hj.
  rewrite Em, Ha, Hk, length_drop, length_number in Hj. unfold acked_after in Hj.
  rewrite decide_False in Hj by lia. specialize (Hj ltac:(apply Hpos; lia)). lia.
Qed.

Lemma delivers_all n s k :
  invariant n → outQueue (conv (ends n s)) = drop k (number (queued (ends n s))) →
  ∃ n', rtc step n n' ∧ same_texts n n' ∧ outQueue (conv (ends n' s)) = [].
Proof.
  remember (length (queued (ends n s)) - k)%nat as m eqn:Em.
  revert n k Em. induction m as [m IH] using lt_wf_ind. intros n k Em Hinv Hk.
  destruct (decide (length (queued (ends n s)) ≤ k)%nat) as [Hle|Hgt].
  - exists n. split; [done|]. split; [done|]. rewrite Hk. apply drop_ge. by rewrite length_number.
  - destruct (shows_lowest n s k Hinv Hk) as (n1 & Hr1 & Hs1 & Hq1 & Hk1); [lia|].
    pose proof (reachable_steps _ _ last_round_nonneg in_bounds _ _ Hr1 Hinv) as Hinv1.
    destruct (acks_shown n1 s k) as (n2 & Hr2 & Hs2 & Hq2); [done|by rewrite Hq1, Hk, Hs1|done|].
    pose proof (reachable_steps _ _ last_round_nonneg in_bounds _ _ Hr2 Hinv1) as Hinv2.
    assert (Hq : queued (ends n2 s) = queued (ends n s)) by (by rewrite Hs2, Hs1).
    rewrite <- Hs2 in Hq2.
    destruct (IH (length (queued (ends n2 s)) - length (shown (ends n1 (negb s))))%nat)
      with (n := n2) (k := length (shown (ends n1 (negb s)))) as (n' & Hr' & Hs' & Hq');
      [rewrite Hq; lia|done|done|done|].
    exists n'. split; [by do 2 (etrans; [done|])|].
    split; [by do 2 (eapply same_texts_trans; [done|])|done].
Qed.

End progress.

(** C28. Delivery never gets stuck. From every reachable state some rounds, in which nothing more
    is queued, empty the sender's queue, and then the other end has shown every text that
    was ever queued. *)
Theorem delivery_completes last_round max_msgs a b n s :
  0 <= last_round → last_round + 1 + Z.of_nat max_msgs < 2 ^ 32 →
  reachable last_round max_msgs a b n →
  ∃ n', rtc (step last_round max_msgs) n n' ∧ same_texts n n' ∧
    outQueue (conv (ends n' s)) = [] ∧
    shown (ends n' (negb s)) = fit_text <$> queued (ends n s).
Proof.
  intros Hr Hb Hn. pose proof (reachable_invariant _ _ Hr Hb _ _ _ Hn) as Hinv.
  destruct (dir_queue _ _ _ _ _ _ _ _ (Hinv s)) as (k & _ & Hk).
  destruct (delivers_all _ _ Hr Hb n s k Hinv Hk) as (n' & Hr' & Hs' & Hq').
  exists n'. split; [done|]. split; [done|]. split; [done|].
  pose proof (reachable_steps _ _ Hr Hb _ _ Hr' Hinv s) as Hd.
  destruct (dir_queue _ _ _ _ _ _ _ _ Hd) as (k' & Hk' & Eq). rewrite Hq' in Eq.
  assert (Hlen : (length (queued (ends n' s)) ≤ k')%nat).
  { apply (f_equal length) in Eq. rewrite length_drop, length_number in Eq. cbn in Eq. lia. }
  rewrite (dir_shown _ _ _ _ _ _ _ _ Hd), take_ge by lia. by rewrite Hs'.
Qed.
