(* ===== verification/ClientExamples.v ===== *)
(** * Concrete conversations

    The theorems of [Conversation] and [Delivery] applied to concrete clients, alice and
    bob, with the cryptography of [Toy]. *)

From Stdlib Require Import ZArith Lia.
From stdpp Require Import base numbers strings gmap functions fin_maps relations list.
From S2P Require Import Prelude GoStd Json Sha2 External Convo Conversation Delivery.

(** ** One conversation *)

Definition key0 : bytes := replicate 32 x00.

(** The key that started in round 0 as zeros. *)
Definition with_key (c : Conversation) : Conversation := set_sessionKey (Some key0) c.

Definition alice : Conversation :=
  QueueTextMessage true (str "hello") (with_key (Init (zero_Conversation "bob" "alice"))).
Definition bob : Conversation := with_key (Init (zero_Conversation "alice" "bob")).

Lemma keyed_alice : keyed key0 0 alice.
Proof. split; [vm_compute; done|]. split; [vm_compute; done|]. vm_compute. reflexivity. Defined.

Lemma keyed_bob : keyed key0 0 bob.
Proof. split; [vm_compute; done|]. split; [vm_compute; done|]. vm_compute. reflexivity. Defined.

Lemma wf_alice : wf_conversation alice.
Proof.
  constructor.
  - change (lastOut alice) with 0. lia.
  - change (ack alice) with 0. unfold is_u32. lia.
  - change (seqBase alice) with 0. unfold is_u32. lia.
  - change (relativeSeq alice) with (u32 (0 + 1)). apply u32_range.
  - change (outQueue alice) with [mkSeqMsg 0 (str "hello")].
    constructor; [cbn [RelativeSeq]; unfold is_u32; lia|constructor].
Qed.

Lemma wf_bob : wf_conversation bob.
Proof.
  constructor.
  - change (lastOut bob) with 0. lia.
  - change (ack bob) with 0. unfold is_u32. lia.
  - change (seqBase bob) with 0. unfold is_u32. lia.
  - change (relativeSeq bob) with 0. unfold is_u32. lia.
  - constructor.
Qed.

Lemma ConvoMessage_roundtrip_witness :
  ConvoMessage_Unmarshal (ConvoMessage_Marshal (mkConvoMessage 55555 22222 true (str "hello world")))
      (mkConvoMessage 0 0 false []) =
    (mkConvoMessage 55555 22222 true (fit_text (str "hello world")), Ret ()) ∧
  trim_right_nul (fit_text (str "hello world")) = str "hello world".
Proof.
  destruct (ConvoMessage_roundtrip (mkConvoMessage 55555 22222 true (str "hello world"))
              (mkConvoMessage 0 0 false [])) as (_ & H & T & _); [done|done|].
  split; [exact H|]. etransitivity; [exact T|]. reflexivity.
Defined.

(** The key of round 2 is the one the repository's own test expects. *)
Lemma rollAndReplaceKey_ratchet_witness :
  ∃ c', rollAndReplaceKey 2 alice = (c', Ret (Some (key_of key0 0 2))) ∧ sessionKeyRound c' = 2 ∧
  BigEndian.val (key_of key0 0 2) = 0x4664d81ba351e0740923696a4383c2053d78c8e21aec0320e619f2dd21309e2e.
Proof.
  pose proof (rollAndReplaceKey_ratchet key0 0 alice 2 eq_refl keyed_alice ltac:(done)) as H.
  rewrite decide_False in H by (vm_compute; discriminate).
  destruct H as (c' & E & _ & Er & _). exists c'. split; [exact E|]. split; [exact Er|].
  vm_compute. reflexivity.
Defined.

Lemma roundSyncer_agrees_witness :
  ∃ round intent,
    outgoingCallConvoRound (E:=unit) stdRoundSyncer 19990 = Ret (round, intent) ∧
    incomingCallConvoRound (E:=unit) stdRoundSyncer 20010 intent = Ret round ∧ round = 10000.
Proof.
  destruct (roundSyncer_agrees (E:=unit) stdRoundSyncer 19990 20) as (r & i & Eo & Ei & Hr);
    [done|done|done|done|].
  exists r, i. split; [exact Eo|]. split; [exact Ei|].
  assert (Ec : outgoingCallConvoRound (E:=unit) stdRoundSyncer 19990 = Ret (10000, 1)) by reflexivity.
  congruence.
Defined.

(** Two entries at the end of the number range, one after the wrap and one beyond a gap: the
    loop takes three and leaves the last. *)
Lemma drain_terminates_witness :
  let queue : gmap Z bytes := {[ 2 ^ 32 - 2 := str "a"; 2 ^ 32 - 1 := str "b"; 0 := str "c"; 5 := str "e" ]} in
  drain 100 (2 ^ 32 - 2) queue 7 = ([str "a"; str "b"; str "c"], {[ 5 := str "e" ]}, 0).
Proof.
  intros queue. pose proof (drain_terminates (2 ^ 32 - 2) queue 7 100) as H.
  specialize (H ltac:(unfold is_u32; lia) ltac:(vm_compute; lia)).
  destruct (drain (S (size queue)) (2 ^ 32 - 2) queue 7) as [[texts rest] acked] eqn:E.
  destruct H as [-> _]. rewrite <- E. vm_compute. reflexivity.
Defined.

(** A reply for round 5 makes the client forget round 7, which is in flight. *)
Lemma Reply_forgets_witness :
  let st := mkConvoRound [] key0 0 in
  let c := set_rounds {[ 5 := st; 7 := st ]} bob in
  rounds c !! 7 = Some st ∧
  rounds (@Reply Toy.nacl 0 5 [] c).1 !! 7 = None ∧
  (@Reply Toy.nacl 0 7 [] (@Reply Toy.nacl 0 5 [] c).1).2 = Ret ReplyRoundNotFound.
Proof.
  intros st c. split; [reflexivity|].
  destruct (@Reply_forgets Toy.nacl 0 5 [] c) as (_ & _ & _ & H); [done|].
  destruct (H ltac:(done) 7 ltac:(lia)) as [E R]. split; [exact E|]. apply R.
Defined.

Definition zero_message : DeadDropMessage := mkDeadDropMessage (replicate 16 x00) (replicate 256 x00).

Lemma peers_exchange_witness :
  ∃ a' ma b' mb msg,
    @NextMessage Toy.nacl 0 zero_message 5 alice = (a', Ret ma) ∧
    @NextMessage Toy.nacl 0 zero_message 5 bob = (b', Ret mb) ∧
    (compose 5 alice).2 = Ret msg ∧ UserText msg = str "hello" ∧
    DeadDrop ma = DeadDrop mb ∧
    (EncryptedMessage ma ≠ EncryptedMessage mb →
     (@Reply Toy.nacl 1 5 (EncryptedMessage ma) b').2 = Ret (Shown [str "hello"])).
Proof.
  destruct (@peers_exchange Toy.nacl Toy.nacl_laws 0 0 zero_message zero_message 5 alice bob key0 0)
    as (a' & ma & b' & mb & msg & Ea & Eb & Em & _ & _ & Ed & HR);
    [done|apply keyed_alice|apply keyed_bob|done|done|done|apply wf_alice|apply wf_bob|done|done|].
  exists a', ma, b', mb, msg. split; [exact Ea|]. split; [exact Eb|]. split; [exact Em|].
  assert (Emsg : msg = mkConvoMessage 6 0 true (str "hello")).
  { assert (Ec : (compose 5 alice).2 = Ret (mkConvoMessage 6 0 true (str "hello"))) by reflexivity.
    congruence. }
  split; [by rewrite Emsg|]. split; [exact Ed|]. intros Hne.
  assert (Hb : myUsername b' = "bob" ∧ peerUsername b' = "alice" ∧ ack b' = 0 ∧ inQueue b' = ∅).
  { assert (E : (@NextMessage Toy.nacl 0 zero_message 5 bob).1 = b') by (by rewrite Eb).
    rewrite <- E. vm_compute. done. }
  destruct Hb as (Hmy & Hpeer & Hack & Hin).
  destruct (HR 1 b' ltac:(by rewrite Hmy) ltac:(by rewrite Hpeer) eq_refl (or_introl Hne)) as [u ->].
  destruct (receive_accept (1 - 0) (wire msg) b') as (_ & _ & Et). cbn [snd]. rewrite Et, Hack, Hin, Emsg.
  vm_compute. reflexivity.
Defined.

(** ** Two ends *)

(** alice queues a text, sends it in round 5, and bob receives it. *)
Definition net0 : net := initial "bob" "alice".
Definition net1 : net :=
  let e := ends net0 true in
  at_end true (mkEndpoint (QueueTextMessage true (str "hello") (conv e))
                 (queued e ++ [str "hello"]) (shown e)) net0.
Definition sent1 : ConvoMessage := mkConvoMessage 6 0 true (str "hello").
Definition net2 : net :=
  let e := ends net1 true in
  mkNet (<[true := mkEndpoint (compose 5 (conv e)).1 (queued e) (shown e)]> (ends net1))
        (<[true := wire sent1 :: wires net1 true]> (wires net1)).
Definition net3 : net :=
  let e := ends net2 false in
  let r := receive 0 (wire sent1) (conv e) in
  at_end false (mkEndpoint r.1 (queued e) (shown e ++ r.2)) net2.

Lemma net3_reachable : reachable 10 2 "bob" "alice" net3.
Proof.
  eapply rtc_l; [apply (step_queue 10 2 net0 true true (str "hello")); simpl; lia|].
  eapply rtc_l.
  { apply (step_send 10 2 net1 true 5 (compose 5 (conv (ends net1 true))).1 sent1); [lia|]. vm_compute. reflexivity. }
  eapply rtc_l; [|apply rtc_refl].
  apply (step_receive 10 2 net2 false 0 (wire sent1)). by left.
Defined.

Lemma delivery_in_order_witness :
  shown (ends net3 false) = [fit_text (str "hello")] ∧
  shown (ends net3 false) =
    fit_text <$> take (length (shown (ends net3 false))) (queued (ends net3 true)).
Proof.
  destruct (delivery_in_order 10 2 "bob" "alice" net3 true) as (_ & E & _);
    [lia|simpl; lia|apply net3_reachable|].
  split; [vm_compute; reflexivity|exact E].
Defined.

Lemma delivery_completes_witness :
  outQueue (conv (ends net3 true)) ≠ [] ∧
  ∃ n', rtc (step 10 2) net3 n' ∧ outQueue (conv (ends n' true)) = [] ∧
    shown (ends n' false) = [fit_text (str "hello")].
Proof.
  split; [vm_compute; discriminate|].
  destruct (delivery_completes 10 2 "bob" "alice" net3 true) as (n' & Hr & _ & Hq & Hs);
    [lia|simpl; lia|apply net3_reachable|].
  exists n'. split; [exact Hr|]. split; [exact Hq|exact Hs].
Defined.
