(* ===== verification/Harness.v ===== *)
(** * The client of the test harness (internal/testharness)

    [TestClient] drives one conversation over the client library without the terminal:
    [harnessConvoState] (convostate.go) is its conversation, [testClientConvoHandler]
    (convohandler.go) what the client library calls in a round, [testClientHandler]
    (client.go) what the alpenhorn client calls. The harness derives the key of every
    round from the seed, where [Conversation] replaces its key; the theorems say that both
    are one protocol, and what a message of the harness becomes at its peer.

    Channels are lists with a capacity. The diagnostics of [Logf] are left out. *)

From Stdlib Require Import ZArith Lia.
From stdpp Require Import base numbers strings gmap fin_maps list.
From S2P Require Import Prelude GoStd Json Sha2 External Convo Conversation.

(** ** convostate.go *)

Inductive harness_error :=
| errEmptyMessage
| errInvalidUTF8
| errUnexpectedSigningKey
| errMessageTooLarge
| errNoConvoState
| neverlurError (text : string).

Record harnessConvoState := mkHarnessConvoState {
  state_peerUsername : string;
  state_myUsername : string;
  state_sessionKey : bytes;
  state_sessionKeyRound : Z
}.

(** [copy(dst[:], src[:])] for two pointers to keys: a nil source panics. *)
Definition copy_key {E} (key : option bytes) : outcome E bytes :=
  key ← or_panic key;
  Ret (go_copy (replicate 32 x00) key).

Definition newHarnessConvoState {E} (seedKey : option bytes) (seedRound : Z) (my peer : string)
    : outcome E harnessConvoState :=
  keyCopy ← copy_key seedKey;
  Ret (mkHarnessConvoState peer my keyCopy seedRound).

Definition SessionKey (c : harnessConvoState) : bytes := go_copy (replicate 32 x00) (state_sessionKey c).
Definition Round (c : harnessConvoState) : Z := state_sessionKeyRound c.
Definition PeerUsername (c : harnessConvoState) : string := state_peerUsername c.

(** The loop [for r := seedRound; r < target; r++]; a loop that has not ended after [fuel]
    turns blocks. *)
Fixpoint roll_loop {E} (fuel : nat) (r target : Z) (key : bytes) : outcome E bytes :=
  if decide (r < target)
  then match fuel with
       | O => Block
       | S fuel => roll_loop fuel (u32 (r + 1)) target (Sum512_256 (BigEndian.put32 r ++ key))
       end
  else Ret key.

Definition rollKeyTo {E} (fuel : nat) (c : harnessConvoState) (targetRound : Z)
    : outcome E (option bytes) :=
  if decide (targetRound < state_sessionKeyRound c) then Ret None
  else
    let newKey := go_copy (replicate 32 x00) (state_sessionKey c) in
    newKey ← roll_loop fuel (state_sessionKeyRound c) targetRound newKey;
    Ret (Some (go_copy (replicate 32 x00) newKey)).

(** Turns that are enough for [targetRound]. *)
Definition turns (c : harnessConvoState) (targetRound : Z) : nat :=
  Z.to_nat (targetRound - state_sessionKeyRound c).

Section harness.
Context `{NaCl}.

(** The nonce of a round for the messages of the user [to]. *)
Definition harness_nonce (round : Z) (to : string) : bytes :=
  let nonce := replicate 24 x00 in
  let nonce := copy_into 0 4 nonce (BigEndian.put32 round) in
  copy_into 4 24 nonce (take 16 (Sum256 (str to))).

Definition Seal {E} (c : harnessConvoState) (plaintext : bytes) (round : Z)
    : outcome E (option bytes) :=
  key ← rollKeyTo (turns c round) c round;
  match key with
  | None => Ret None
  | Some key => Ret (Some (secretbox_Seal plaintext (harness_nonce round (state_peerUsername c)) key))
  end.

Definition Open {E} (c : harnessConvoState) (ciphertext : bytes) (round : Z)
    : outcome E (option bytes) :=
  key ← rollKeyTo (turns c round) c round;
  match key with
  | None => Ret None
  | Some key => Ret (secretbox_Open ciphertext (harness_nonce round (state_myUsername c)) key)
  end.

Definition DeadDrop {E} (c : harnessConvoState) (round : Z) : outcome E (option bytes) :=
  key ← rollKeyTo (turns c round) c round;
  match key with
  | None => Ret None
  | Some key =>
      let h := hmac_sha256 key (str "DeadDrop" ++ BigEndian.put32 round) in
      Ret (Some (go_copy (replicate 16 x00) h))
  end.

(** ** TestClient *)

Record IncomingMessage := mkIncomingMessage {
  FromPeer : string;
  Body : bytes;
  msg_Round : Z
}.

(** The send of a [select] with a [default]: into a full channel nothing is put. *)
Definition try_send {A} (x : A) (ch : list A) : list A :=
  if decide (length ch < 16)%nat then ch ++ [x] else ch.

(** The types of neverlur: a friend and the two kinds of friend requests. *)
Context {Friend IncomingRequest OutgoingRequest : Type}.

Record TestClient := mkTestClient {
  tc_Username : string;
  tc_ConvoState : option harnessConvoState;
  tc_outQueue : list bytes;
  tc_recvCh : list IncomingMessage;
  tc_friendReqCh : list IncomingRequest;
  tc_sentReqCh : list OutgoingRequest;
  tc_confirmedCh : list Friend;
  tc_errCh : list harness_error
}.

Definition eta_TestClient (t : TestClient) : TestClient :=
  mkTestClient (tc_Username t) (tc_ConvoState t) (tc_outQueue t) (tc_recvCh t) (tc_friendReqCh t)
    (tc_sentReqCh t) (tc_confirmedCh t) (tc_errCh t).

Definition set_tc_ConvoState v (t : TestClient) : TestClient :=
  ltac:(set_field eta_TestClient tc_ConvoState v t).
Definition set_tc_outQueue v (t : TestClient) : TestClient :=
  ltac:(set_field eta_TestClient tc_outQueue v t).
Definition set_tc_recvCh v (t : TestClient) : TestClient :=
  ltac:(set_field eta_TestClient tc_recvCh v t).
Definition set_tc_friendReqCh v (t : TestClient) : TestClient :=
  ltac:(set_field eta_TestClient tc_friendReqCh v t).
Definition set_tc_sentReqCh v (t : TestClient) : TestClient :=
  ltac:(set_field eta_TestClient tc_sentReqCh v t).
Definition set_tc_confirmedCh v (t : TestClient) : TestClient :=
  ltac:(set_field eta_TestClient tc_confirmedCh v t).
Definition set_tc_errCh v (t : TestClient) : TestClient :=
  ltac:(set_field eta_TestClient tc_errCh v t).

Abbreviation handler := (go TestClient harness_error).

(** What [ClientFor] makes of the client before it is connected. *)
Definition new_TestClient (username : string) : TestClient :=
  mkTestClient username None [] [] [] [] [] [].

Definition SendMessage (body : bytes) : handler unit :=
  if decide (length body = 0%nat) then throw errEmptyMessage
  else if negb (valid_utf8 body) then throw errInvalidUTF8
  else if decide (SizeMessageBody < length body)%nat then throw errMessageTooLarge
  else
    t ← get;
    match tc_ConvoState t with
    | None => throw errNoConvoState
    | Some _ => put (set_tc_outQueue (tc_outQueue t ++ [body]) t)
    end.

(** [friends] are the names of [GetFriends]. *)
Fixpoint HasFriend (peer : string) (friends : list string) : bool :=
  match friends with
  | [] => false
  | f :: friends => if decide (f = peer) then true else HasFriend peer friends
  end.

(** *** Calls of the alpenhorn client *)

Definition alpenhorn_Error (err : harness_error) : handler unit :=
  modify (λ t, set_tc_errCh (try_send err (tc_errCh t)) t).

Definition ConfirmedFriend (f : Friend) : handler unit :=
  modify (λ t, set_tc_confirmedCh (try_send f (tc_confirmedCh t)) t).

Definition SentFriendRequest (r : OutgoingRequest) : handler unit :=
  modify (λ t, set_tc_sentReqCh (try_send r (tc_sentReqCh t)) t).

Definition ReceivedFriendRequest (r : IncomingRequest) : handler unit :=
  modify (λ t, set_tc_friendReqCh (try_send r (tc_friendReqCh t)) t).

Definition UnexpectedSigningKey : handler unit :=
  modify (λ t, set_tc_errCh (try_send errUnexpectedSigningKey (tc_errCh t)) t).

(** Both calls of a conversation: its peer, the key and the round of the call. *)
Definition start_convo (peer : string) (seedKey : option bytes) (seedRound : Z) : handler unit :=
  if decide (seedKey = None ∨ seedRound = 0) then mret ()
  else
    t ← get;
    state ← lift (newHarnessConvoState seedKey seedRound (tc_Username t) peer);
    modify (set_tc_ConvoState (Some state)).

Definition SendingCall := start_convo.
Definition ReceivedCall := start_convo.

(** *** Calls of the client library: convohandler.go *)

(** The two arguments are the random bytes. *)
Definition coverDeadDrop (drop msg : bytes) : DeadDropMessage :=
  mkDeadDropMessage (go_copy (replicate 16 x00) drop)
    (go_copy (replicate SizeEncryptedMessageBody x00) msg).

(** Its critical section: the conversation and the message to send. *)
Definition next_body : handler (option harnessConvoState * option bytes) :=
  t ← get;
  match tc_ConvoState t, tc_outQueue t with
  | Some state, body :: queue => put (set_tc_outQueue queue t);; mret (Some state, Some body)
  | state, _ => mret (state, None)
  end.

Definition Outgoing (noise : DeadDropMessage) (round : Z) : handler (list DeadDropMessage) :=
  '(state, body) ← next_body;
  match state with
  | None => mret [noise]
  | Some state =>
      let body := default (replicate SizeMessageBody x00) body in
      let padded := go_copy (replicate SizeMessageBody x00) body in
      ctxt ← lift (Seal state padded round);
      match ctxt with
      | None => mret [noise]
      | Some ctxt =>
          dd ← lift (DeadDrop state round);
          match dd with
          | None => mret [noise]
          | Some dd =>
              mret [mkDeadDropMessage dd (go_copy (replicate SizeEncryptedMessageBody x00) ctxt)]
          end
      end
  end.

(** The loop that cuts a text at its first NUL. *)
Fixpoint cut_nul (pt : bytes) : bytes :=
  match pt with
  | [] => []
  | b :: pt => if decide (b = x00) then [] else b :: cut_nul pt
  end.

Fixpoint first_open (state : harnessConvoState) (round : Z) (messages : list bytes)
    : handler unit :=
  match messages with
  | [] => mret ()
  | ct :: messages =>
      pt ← lift (Open state ct round);
      match pt with
      | None => first_open state round messages
      | Some pt =>
          let msg := mkIncomingMessage (PeerUsername state) (cut_nul pt) round in
          modify (λ t, set_tc_recvCh (try_send msg (tc_recvCh t)) t)
      end
  end.

Definition Replies (round : Z) (messages : list bytes) : handler unit :=
  t ← get;
  match tc_ConvoState t with
  | None => mret ()
  | Some state => first_open state round messages
  end.

Definition convo_Error (err : harness_error) : handler unit :=
  modify (λ t, set_tc_errCh (try_send err (tc_errCh t)) t).

(** A test that reads the next message of [RecvCh], [None] where it would wait. *)
Definition recv : handler (option IncomingMessage) :=
  t ← get;
  match tc_recvCh t with
  | [] => mret None
  | m :: ch => put (set_tc_recvCh ch t);; mret (Some m)
  end.

End harness.

Arguments TestClient : clear implicits.

(** ** rounds.go *)

Definition AdvanceRound (service : string) : outcome string unit :=
  if decide (service = "AddFriend" ∨ service = "Dialing" ∨ service = "Convo") then Ret ()
  else Err service.

(** Why [WaitForConvoRound] gave up; [WaitTimeoutErr] after an error of [LatestRound]. *)
Inductive wait_error := WaitNotInitialized | WaitTimeout (target last : Z) | WaitTimeoutErr (last : Z).

(** The polls of the loop: what [LatestRound] returns ([None] an error) and the clock after
    it. While no poll ends the loop, it goes on ([Block]). *)
Fixpoint wait_loop {E} (target deadline : Z) (last : Z) (polls : list (option Z * Z))
    : outcome E (Z * option wait_error) :=
  match polls with
  | [] => Block
  | (got, now) :: polls =>
      let last := default last got in
      if decide (is_Some got ∧ target <= last) then Ret (last, None)
      else if decide (deadline < now)
      then Ret (last, Some match got with None => WaitTimeoutErr last | Some _ => WaitTimeout target last end)
      else wait_loop target deadline last polls
  end.

Definition WaitForConvoRound {E} (client : bool) (target timeout now : Z) (polls : list (option Z * Z))
    : outcome E (Z * option wait_error) :=
  if client then wait_loop target (now + timeout) 0 polls
  else Ret (0, Some WaitNotInitialized).

(** ** The rolling key of the harness *)

(** The loop ends within the turns between the rounds, with the key of the client's loop. *)
Lemma roll_loop_roll {E} fuel r target key :
  0 <= r → is_u32 target → (Z.to_nat (target - r) ≤ fuel)%nat →
  roll_loop (E:=E) fuel r target key = Ret (roll (Z.to_nat (target - r)) r key).
Proof.
  unfold is_u32. revert r key. induction fuel as [|fuel IH]; intros r key Hr Ht Hf; cbn [roll_loop].
  - rewrite decide_False by lia. by replace (Z.to_nat (target - r)) with 0%nat by lia.
  - case_decide as Hlt; [|by replace (Z.to_nat (target - r)) with 0%nat by lia].
    rewrite (u32_id (r + 1)) by (unfold is_u32; lia). rewrite IH by lia.
    replace (Z.to_nat (target - r)) with (S (Z.to_nat (target - (r + 1)))) by lia.
    cbn [roll]. by rewrite (u32_id (r + 1)) by (unfold is_u32; lia).
Qed.

(** What [newHarnessConvoState] makes, and nothing changes it afterwards. *)
Definition wf_harness (h : harnessConvoState) : Prop :=
  length (state_sessionKey h) = 32%nat ∧ is_u32 (state_sessionKeyRound h).

Lemma newHarnessConvoState_wf {E} key round my peer :
  is_u32 round →
  ∃ h, newHarnessConvoState (E:=E) (Some key) round my peer = Ret h ∧ wf_harness h.
Proof. intros Hr. eexists. split; [done|]. split; [cbn; len|done]. Qed.

Definition harness_key (h : harnessConvoState) (round : Z) : bytes :=
  key_of (state_sessionKey h) (state_sessionKeyRound h) round.

Lemma rollKeyTo_key {E} fuel h round :
  wf_harness h → is_u32 round → (turns h round ≤ fuel)%nat →
  rollKeyTo (E:=E) fuel h round =
    Ret (if decide (round < state_sessionKeyRound h) then None else Some (harness_key h round)).
Proof.
  intros [Hk Hs] Hr Hf. unfold is_u32 in Hs. unfold rollKeyTo. case_decide; [done|].
  rewrite (go_copy_exact _ (state_sessionKey h)) by (by rewrite Hk).
  rewrite roll_loop_roll by (done || lia). cbn. unfold harness_key, key_of.
  by rewrite go_copy_exact by (by rewrite length_roll).
Qed.

Section operations.
Context `{NaCl}.

Lemma harness_nonce_convo round to : harness_nonce round to = convo_nonce round to.
Proof. done. Qed.

Lemma rollKeyTo_turns {E} h round :
  wf_harness h → is_u32 round →
  rollKeyTo (E:=E) (turns h round) h round =
    Ret (if decide (round < state_sessionKeyRound h) then None else Some (harness_key h round)).
Proof. intros. by apply rollKeyTo_key. Qed.

Lemma Seal_run {E} h m round :
  wf_harness h → is_u32 round → state_sessionKeyRound h <= round →
  Seal (E:=E) h m round =
    Ret (Some (secretbox_Seal m (convo_nonce round (state_peerUsername h)) (harness_key h round))).
Proof. intros. unfold Seal. rewrite rollKeyTo_turns by done. by rewrite decide_False by lia. Qed.

Lemma Open_run {E} h e round :
  wf_harness h → is_u32 round → state_sessionKeyRound h <= round →
  Open (E:=E) h e round =
    Ret (secretbox_Open e (convo_nonce round (state_myUsername h)) (harness_key h round)).
Proof. intros. unfold Open. rewrite rollKeyTo_turns by done. by rewrite decide_False by lia. Qed.

Lemma DeadDrop_run {E} h round :
  wf_harness h → is_u32 round → state_sessionKeyRound h <= round →
  DeadDrop (E:=E) h round = Ret (Some (deadDrop round (harness_key h round))).
Proof. intros. unfold DeadDrop. rewrite rollKeyTo_turns by done. by rewrite decide_False by lia. Qed.

Lemma past_run {E} h round :
  wf_harness h → is_u32 round → round < state_sessionKeyRound h →
  (∀ m, Seal (E:=E) h m round = Ret None) ∧ (∀ e, Open (E:=E) h e round = Ret None) ∧
  DeadDrop (E:=E) h round = Ret None.
Proof.
  intros. unfold Seal, Open, DeadDrop. rewrite rollKeyTo_turns by done.
  by rewrite decide_True by lia.
Qed.

(** ** The harness and the client *)

(** A conversation of the harness and one of the client that started from one key. *)
Record mirrors (h : harnessConvoState) (c : Conversation) : Prop := {
  mirrors_peer : state_peerUsername h = peerUsername c;
  mirrors_my : state_myUsername h = myUsername c;
  mirrors_wf : wf_harness h;
  mirrors_keyed : keyed (state_sessionKey h) (state_sessionKeyRound h) c;
  mirrors_rounds : ∀ r st, rounds c !! r = Some st →
    state_sessionKeyRound h <= r ∧ is_u32 r ∧ roundKey st = harness_key h r
}.

Lemma mirrors_same h c c' :
  mirrors h c → peerUsername c' = peerUsername c → myUsername c' = myUsername c →
  sessionKey c' = sessionKey c → sessionKeyRound c' = sessionKeyRound c →
  (∀ r st, rounds c' !! r = Some st → rounds c !! r = Some st) → mirrors h c'.
Proof.
  intros [Hp Hm Hw Hk Hr] Ep Em Ek Er Hsub. constructor; [congruence..|done| |by eauto].
  unfold keyed in *. by rewrite Ek, Er.
Qed.

Lemma receive_fields l msg c :
  let c' := (receive l msg c).1 in
  peerUsername c' = peerUsername c ∧ myUsername c' = myUsername c ∧
  sessionKey c' = sessionKey c ∧ sessionKeyRound c' = sessionKeyRound c.
Proof.
  unfold receive. cbn -[drain]. destruct (drop_acked _ _ _ _) as [q o]. cbn -[drain].
  destruct (decide (ack c < Seq msg)); [|done].
  destruct (Lowest msg); cbn -[drain]; by destruct (drain _ _ _ _) as [[t q'] a].
Qed.

(** The state after a message that has been sent. *)
Lemma mirrors_sent h c base last round enc now :
  mirrors h c → sessionKeyRound c <= round → is_u32 round →
  mirrors h (set_rounds (<[round := mkConvoRound enc (harness_key h round) now]> (rounds c))
    (set_sessionKeyRound round (set_sessionKey (Some (harness_key h round))
      (set_lastOut last (set_seqBase base (set_lastRound round c)))))).
Proof.
  intros [Hp Hm Hw Hk Hr] Hle Hround. destruct Hk as (Hs & Hu & Hkey).
  constructor; [done..| |].
  - split; [cbn; lia|]. done.
  - intros r st. cbn [rounds set_rounds]. intros [[<- <-]|[_ Hl]]%lookup_insert_Some; [|by apply Hr].
    split; [lia|done].
Qed.

Lemma NextMessage_past now dummy round c :
  wf_conversation c → round < sessionKeyRound c →
  ∃ base last, NextMessage now dummy round c =
    (set_lastOut last (set_seqBase base (set_lastRound round c)), Ret dummy).
Proof.
  intros Hwf Hlt.
  destruct (compose_total round (set_lastRound round c)) as (base & last & msg & Hcomp & _);
    [by destruct Hwf|].
  exists base, last. unfold NextMessage. rewrite go_bind_unfold. cbn [modify].
  rewrite go_bind_unfold, Hcomp, go_bind_unfold, rollAndReplaceKey_run.
  by rewrite rollKey_past by exact Hlt.
Qed.

Lemma sent_by_harness `{!NaClLaws} now dummy round h c :
  mirrors h c → wf_conversation c → is_u32 round → sessionKeyRound c <= round →
  ∃ c' msg d e, NextMessage now dummy round c = (c', Ret (mkDeadDropMessage d e)) ∧ mirrors h c' ∧
    (compose round c).2 = Ret msg ∧ DeadDrop (E:=harness_error) h round = Ret (Some d) ∧
    Seal (E:=harness_error) h (ConvoMessage_Marshal msg) round = Ret (Some e).
Proof.
  intros Hm Hwf Hr Hle. pose proof Hm as [Hp _ Hw Hk _].
  destruct (compose_total round (set_lastRound round c)) as (base & last & msg & Hcomp & _);
    [by destruct Hwf|].
  pose proof (NextMessage_run now dummy round c _ _ _ _ _ (proj1 Hw) Hk Hle Hr Hcomp) as Hrun.
  assert (Hs : state_sessionKeyRound h <= round) by (destruct Hk; lia).
  do 4 eexists. split; [exact Hrun|]. split; [by apply mirrors_sent|].
  split; [rewrite <- (compose_set_lastRound round round), Hcomp by (by destruct Hwf); done|].
  rewrite DeadDrop_run, Seal_run by done. by rewrite Hp.
Qed.

Lemma mirrors_Reply now round e h c : mirrors h c → mirrors h (Reply now round e c).1.
Proof.
  intros Hm. pose proof (Reply_run now round e c) as Hrun.
  assert (Hout : mirrors h (reply_outcome now round e c).1).
  { unfold reply_outcome. destruct (rounds c !! round) as [st|]; [|done].
    case_decide; [done|]. destruct (Conversation.Open _ _ _ _); [|done].
    destruct (ConvoMessage_Unmarshal _ _) as [msg [[]| | |]]; try done.
    destruct (receive_fields (now - created st) msg c) as (Ep & Em & Ek & Er).
    eapply mirrors_same; [done..|]. cbn. by rewrite rounds_receive. }
  pose proof (rounds_reply_outcome now round e c) as Hrounds.
  destruct (reply_outcome now round e c) as [c1 r]. destruct Hrun as [u ->]. cbn [fst] in *.
  eapply mirrors_same; [exact Hout|done..|].
  intros r0 st. cbn [rounds set_rounds set_lastPeerResponding set_unread].
  rewrite lookup_rounds_left, Hrounds. by case_decide.
Qed.

End operations.

(** C39. The harness and the client are one protocol. Let a conversation of the harness and one
    of the client start from one key. Whatever messages and replies the client handles, in
    rounds of any order, the two keep mirroring each other: a message of the client is at
    the dead drop of the harness for that round and is the encryption the harness makes of
    it, unless the client's key has rolled past the round, when it is the dummy; and a reply
    to a round the client remembers opens for the harness exactly as it opens for the
    client. *)
Theorem convo_states_equivalent `{NaClLaws} h c :
  mirrors h c → wf_conversation c →
  (∀ now dummy round, is_u32 round →
    ∃ c' m, NextMessage now dummy round c = (c', Ret m) ∧ mirrors h c' ∧
      if decide (round < sessionKeyRound c) then m = dummy
      else ∃ msg d e, (compose round c).2 = Ret msg ∧ m = mkDeadDropMessage d e ∧
        DeadDrop (E:=harness_error) h round = Ret (Some d) ∧
        Seal (E:=harness_error) h (ConvoMessage_Marshal msg) round = Ret (Some e)) ∧
  (∀ now round e, mirrors h (Reply now round e c).1 ∧
    ∀ st, rounds c !! round = Some st →
      Open (E:=harness_error) h e round = Ret (Conversation.Open c e round (roundKey st))).
Proof.
  intros Hm Hwf. split.
  - intros now dummy round Hr. case_decide as Hlt.
    + destruct (NextMessage_past now dummy round c Hwf Hlt) as (base & last & Hrun).
      exists (set_lastOut last (set_seqBase base (set_lastRound round c))), dummy.
      split; [done|]. split; [by apply mirrors_same with c|done].
    + destruct (sent_by_harness now dummy round h c Hm Hwf Hr ltac:(lia))
        as (c' & msg & d & e & Hrun & Hm' & Hc & Hd & He).
      exists c', (mkDeadDropMessage d e). split; [done|]. split; [done|]. by exists msg, d, e.
  - intros now round e. split; [by apply mirrors_Reply|]. intros st Hst.
    destruct Hm as [_ Hmy Hw _ Hrs]. destruct (Hrs _ _ Hst) as (Hle & Hu & ->).
    rewrite Open_run by done. unfold Conversation.Open. by rewrite Hmy.
Qed.

(** ** Two clients of the harness *)

Lemma cut_nul_pad bs n : cut_nul (bs ++ replicate n x00) = cut_nul bs.
Proof.
  induction bs as [|b bs IH]; cbn; [by destruct n|].
  by rewrite IH.
Qed.

Lemma cut_nul_id bs : x00 ∉ bs → cut_nul bs = bs.
Proof.
  induction bs as [|b bs IH]; [done|]. rewrite not_elem_of_cons. intros [Hb Hbs]. cbn.
  rewrite decide_False by congruence. by rewrite IH.
Qed.

Lemma cut_nul_padded body :
  (length body ≤ SizeMessageBody)%nat →
  cut_nul (go_copy (replicate SizeMessageBody x00) body) = cut_nul body.
Proof.
  intros Hl. rewrite go_copy_short by len. rewrite drop_replicate. apply cut_nul_pad.
Qed.

Lemma try_send_take {A} (x : A) ch l :
  (length ch ≤ 16)%nat → take 16 (try_send x ch ++ l) = take 16 (ch ++ x :: l).
Proof.
  intros Hl. unfold try_send. case_decide.
  - by rewrite <- app_assoc.
  - by rewrite !take_app_le by lia.
Qed.

Lemma length_try_send {A} (x : A) ch : (length ch ≤ 16)%nat → (length (try_send x ch) ≤ 16)%nat.
Proof. intros Hl. unfold try_send. case_decide; len. Qed.

Section two_clients.
Context `{NaClLaws} {Friend IncomingRequest OutgoingRequest : Type}.
Abbreviation TestClient := (TestClient Friend IncomingRequest OutgoingRequest).
Implicit Types a b t : TestClient.

(** The two ends of one conversation. *)
Definition paired (sa sb : harnessConvoState) : Prop :=
  wf_harness sa ∧ state_peerUsername sa = state_myUsername sb ∧
  state_sessionKey sa = state_sessionKey sb ∧ state_sessionKeyRound sa = state_sessionKeyRound sb.

(** The texts that fit a message: the queue of a client holds no others. *)
Definition sendable (queue : list bytes) : Prop :=
  Forall (λ body, (length body ≤ SizeMessageBody)%nat) queue.

Lemma SendMessage_sendable body t :
  sendable (tc_outQueue t) → sendable (tc_outQueue (SendMessage body t).1).
Proof.
  intros Hq. unfold SendMessage. case_decide; [done|]. destruct (valid_utf8 body); [|done]. cbn [negb].
  case_decide; [done|]. rewrite go_bind_unfold. cbn [get]. destruct (tc_ConvoState t); [|done].
  cbn. apply Forall_app_2; [done|]. constructor; [lia|done].
Qed.

Definition next_text (queue : list bytes) : bytes := default [] (head queue).

Lemma next_text_sendable queue : sendable queue → (length (next_text queue) ≤ SizeMessageBody)%nat.
Proof. destruct 1; [unfold SizeMessageBody; cbn; lia|done]. Qed.

(** What a round sends: the first text of the queue, nothing where there is none. *)
Definition padded (text : bytes) : bytes := go_copy (replicate SizeMessageBody x00) text.

Definition sealed (s : harnessConvoState) (queue : list bytes) (round : Z) : bytes :=
  secretbox_Seal (padded (next_text queue)) (convo_nonce round (state_peerUsername s))
    (harness_key s round).

Lemma next_body_run t s :
  tc_ConvoState t = Some s →
  next_body t = (set_tc_outQueue (tail (tc_outQueue t)) t, Ret (Some s, head (tc_outQueue t))).
Proof.
  intros Hs. unfold next_body. rewrite go_bind_unfold. cbn [get]. rewrite Hs.
  by destruct t as [? ? [|body q]].
Qed.

Lemma padded_next queue :
  go_copy (replicate SizeMessageBody x00) (default (replicate SizeMessageBody x00) (head queue)) =
  padded (next_text queue).
Proof. by destruct queue. Qed.

Lemma test_Outgoing_run noise round t s :
  tc_ConvoState t = Some s → wf_harness s → is_u32 round → state_sessionKeyRound s <= round →
  Outgoing noise round t =
    (set_tc_outQueue (tail (tc_outQueue t)) t,
     Ret [mkDeadDropMessage (deadDrop round (harness_key s round)) (sealed s (tc_outQueue t) round)]).
Proof.
  intros Hs Hw Hr Hle.
  assert (El : length (sealed s (tc_outQueue t) round) = SizeEncryptedMessageBody).
  { unfold sealed, padded. by rewrite length_secretbox_Seal, length_go_copy, length_replicate. }
  unfold Outgoing. rewrite go_bind_unfold, (next_body_run t s Hs). cbv zeta.
  rewrite padded_next, go_bind_unfold. cbn [lift]. rewrite Seal_run by done.
  fold (sealed s (tc_outQueue t) round). rewrite go_bind_unfold. cbn [lift].
  rewrite DeadDrop_run by done.
  by rewrite (go_copy_exact _ (sealed _ _ _)) by (by rewrite length_replicate, El).
Qed.

(** In a past round the text is taken out of the queue and not sent. *)
Lemma Outgoing_past noise round t s :
  tc_ConvoState t = Some s → wf_harness s → is_u32 round → round < state_sessionKeyRound s →
  Outgoing noise round t = (set_tc_outQueue (tail (tc_outQueue t)) t, Ret [noise]).
Proof.
  intros Hs Hw Hr Hlt. destruct (past_run (E:=harness_error) s round Hw Hr Hlt) as (E & _ & _).
  unfold Outgoing. rewrite go_bind_unfold, (next_body_run t s Hs). cbv zeta.
  rewrite go_bind_unfold. cbn [lift]. by rewrite E.
Qed.

(** What the peer makes of it, whatever does not open before it. *)
Lemma first_open_run sa sb queue round pre post t :
  paired sa sb → is_u32 round → state_sessionKeyRound sa <= round → sendable queue →
  Forall (λ e, Open (E:=harness_error) sb e round = Ret None) pre →
  first_open sb round (pre ++ sealed sa queue round :: post) t =
    (set_tc_recvCh (try_send (mkIncomingMessage (state_peerUsername sb) (cut_nul (next_text queue)) round)
       (tc_recvCh t)) t, Ret ()).
Proof.
  intros (Hw & Hname & Hkey & Hround) Hr Hle Hq Hpre.
  assert (Hwb : wf_harness sb) by (destruct Hw; split; congruence).
  induction Hpre as [|e pre He _ IH]; cbn [app first_open].
  - rewrite go_bind_unfold. cbn [lift]. rewrite Open_run by (done || lia).
    unfold sealed, harness_key. rewrite Hname, Hkey, Hround, secretbox_Open_Seal. cbn.
    unfold padded. by rewrite cut_nul_padded by (by apply next_text_sendable).
  - rewrite go_bind_unfold. cbn [lift]. by rewrite He.
Qed.

(** The rounds of a test: what [a] sends is the reply to [b]. *)
Fixpoint run_rounds (noise : DeadDropMessage) (rs : list Z) a b : TestClient * TestClient :=
  match rs with
  | [] => (a, b)
  | round :: rs =>
      match Outgoing noise round a with
      | (a, Ret msgs) => run_rounds noise rs a (Replies round (EncryptedMessage <$> msgs) b).1
      | (a, _) => (a, b)
      end
  end.

(** The messages of the rounds. *)
Fixpoint sent (from : string) (queue : list bytes) (rs : list Z) : list IncomingMessage :=
  match rs with
  | [] => []
  | round :: rs => mkIncomingMessage from (cut_nul (next_text queue)) round :: sent from (tail queue) rs
  end.

(** What a test sees of its client. Over any rounds of a conversation the peer's channel
    receives one message for each round, in the order of the rounds: the queued texts, each
    up to its first NUL, and empty texts when the queue has run out; a message that finds 16
    unread ones before it is dropped, the texts among them as well as the empty ones. *)
Theorem RecvCh_sequence noise rs a b sa sb :
  tc_ConvoState a = Some sa → tc_ConvoState b = Some sb → paired sa sb →
  Forall (λ round, is_u32 round ∧ state_sessionKeyRound sa <= round) rs →
  sendable (tc_outQueue a) → (length (tc_recvCh b) ≤ 16)%nat →
  run_rounds noise rs a b =
    (set_tc_outQueue (drop (length rs) (tc_outQueue a)) a,
     set_tc_recvCh (take 16 (tc_recvCh b ++ sent (state_peerUsername sb) (tc_outQueue a) rs)) b).
Proof.
  intros Ha Hb Hp Hrs. revert a b Ha Hb.
  induction Hrs as [|round rs [Hu Hle] _ IH]; intros a b Ha Hb Hq Hl; cbn [run_rounds sent length].
  - rewrite app_nil_r, drop_0, take_ge by done. by destruct a, b.
  - rewrite (test_Outgoing_run noise round a sa) by (done || apply Hp).
    assert (Hrep : Replies round [sealed sa (tc_outQueue a) round] b =
      first_open sb round ([] ++ sealed sa (tc_outQueue a) round :: []) b).
    { unfold Replies. rewrite go_bind_unfold. cbn [get]. by rewrite Hb. }
    cbn [fmap list_fmap EncryptedMessage]. rewrite Hrep.
    rewrite (first_open_run sa sb) by done. cbn [fst]. rewrite IH; clear IH.
    + cbn -[take app]. rewrite try_send_take by done.
      destruct (tc_outQueue a); cbn [tail]; by rewrite ?drop_nil.
    + done.
    + done.
    + change (sendable (tail (tc_outQueue a))). by destruct Hq; [constructor|].
    + by apply length_try_send.
Qed.

End two_clients.

(** ** Waiting for a round *)

(** A poll ends the loop: the round is there, or the time is up. *)
Definition decisive (target deadline : Z) (poll : option Z * Z) : Prop :=
  (∃ round, poll.1 = Some round ∧ target <= round) ∨ deadline < poll.2.

(** The last round that was seen. *)
Fixpoint last_seen (last : Z) (polls : list (option Z * Z)) : Z :=
  match polls with
  | [] => last
  | (got, _) :: polls => last_seen (default last got) polls
  end.

Lemma wait_loop_skip {E} target deadline last pre polls :
  Forall (λ p, ¬ decisive target deadline p) pre →
  wait_loop (E:=E) target deadline last (pre ++ polls) =
    wait_loop target deadline (last_seen last pre) polls.
Proof.
  intros Hpre. revert last. induction Hpre as [|[got now] pre Hp _ IH]; intros last; [done|].
  cbn [app wait_loop last_seen]. unfold decisive in Hp. cbn in Hp.
  rewrite decide_False by (intros [[round ->] ?]; eauto).
  rewrite decide_False by tauto. apply IH.
Qed.

(** [WaitForConvoRound] returns at the first poll that ends it, with the round of that poll
    or the last one seen before an error; without such a poll it waits on. *)
Theorem WaitForConvoRound_returns {E} target timeout now pre got at_ post :
  Forall (λ p, ¬ decisive target (now + timeout) p) pre →
  WaitForConvoRound (E:=E) true target timeout now pre = Block ∧
  (decisive target (now + timeout) (got, at_) →
   WaitForConvoRound (E:=E) true target timeout now (pre ++ (got, at_) :: post) =
     Ret (match got with
          | Some round => (round, if decide (target <= round) then None else Some (WaitTimeout target round))
          | None => (last_seen 0 pre, Some (WaitTimeoutErr (last_seen 0 pre)))
          end)).
Proof.
  intros Hpre. unfold WaitForConvoRound. split.
  - rewrite <- (app_nil_r pre), wait_loop_skip by done. done.
  - intros Hd. rewrite wait_loop_skip by done. cbn [wait_loop]. unfold decisive in Hd. cbn in Hd.
    destruct got as [round|]; cbn [default].
    + destruct (decide (target <= round)) as [Hle|Hle].
      * rewrite decide_True by (split; [by eexists|done]). done.
      * rewrite decide_False by (intros [_ ?]; done).
        rewrite decide_True; [done|]. destruct Hd as [(? & [= <-] & ?)|]; [done|done].
    + rewrite decide_False by (intros [[? [=]] _]).
      rewrite decide_True; [done|]. by destruct Hd as [(? & [=] & _)|].
Qed.
