(* ===== verification/HarnessExamples.v ===== *)
(** * The test harness on concrete inputs

    The theorems of [Harness] applied to a conversation of alice and bob, with the
    cryptography of [Toy]. *)

From Stdlib Require Import ZArith Lia.
From stdpp Require Import base numbers strings gmap fin_maps list.
From S2P Require Import Prelude GoStd Json Sha2 External Convo Conversation Delivery ClientExamples Harness.

(** alice's conversation of [ClientExamples] started from the zero key in round 0. *)
Definition harness_alice : harnessConvoState := mkHarnessConvoState "bob" "alice" key0 0.

Lemma mirrors_alice : mirrors harness_alice alice.
Proof.
  constructor; [done|done| |apply keyed_alice|].
  - split; [done|]. unfold is_u32. cbn. lia.
  - intros r st. change (rounds alice) with (∅ : gmap Z convoRound). by rewrite lookup_empty.
Qed.

(** The text alice queued in the client is what the harness would seal in that round. *)
Lemma convo_states_equivalent_witness :
  ∃ c' msg d e, @NextMessage Toy.nacl 7 zero_message 5 alice = (c', Ret (mkDeadDropMessage d e)) ∧
    mirrors harness_alice c' ∧ (compose 5 alice).2 = Ret msg ∧ UserText msg = str "hello" ∧
    DeadDrop (E:=harness_error) harness_alice 5 = Ret (Some d) ∧
    @Seal Toy.nacl harness_error harness_alice (ConvoMessage_Marshal msg) 5 = Ret (Some e).
Proof.
  destruct (@convo_states_equivalent Toy.nacl Toy.nacl_laws harness_alice alice mirrors_alice wf_alice)
    as [H _].
  destruct (H 7 zero_message 5 ltac:(done)) as (c' & m & E & Hm & Hcase).
  rewrite decide_False in Hcase by (change (sessionKeyRound alice) with 0; lia).
  destruct Hcase as (msg & d & e & Em & -> & Ed & Ee).
  exists c', msg, d, e. split; [exact E|]. split; [exact Hm|]. split; [exact Em|].
  split; [|by split].
  assert (Ec : (compose 5 alice).2 = Ret (mkConvoMessage 6 0 true (str "hello"))) by reflexivity.
  rewrite Ec in Em. by injection Em as <-.
Defined.

(** ** Two clients *)

Definition start_with (my peer : string) (queue : list bytes) : TestClient unit unit unit :=
  mkTestClient my (Some (mkHarnessConvoState peer my key0 2)) queue [] [] [] [] [].

Definition client_alice : TestClient unit unit unit :=
  start_with "alice" "bob" [str "hello"; str "bye"].
Definition client_bob : TestClient unit unit unit := start_with "bob" "alice" [].

(** Both texts arrive, and an empty one for the round without text. *)
Lemma RecvCh_sequence_witness :
  tc_recvCh (@run_rounds Toy.nacl unit unit unit zero_message [3; 4; 7] client_alice client_bob).2 =
    [ mkIncomingMessage "alice" (str "hello") 3;
      mkIncomingMessage "alice" (str "bye") 4;
      mkIncomingMessage "alice" [] 7 ].
Proof.
  rewrite (@RecvCh_sequence Toy.nacl Toy.nacl_laws unit unit unit zero_message [3; 4; 7]
             client_alice client_bob (mkHarnessConvoState "bob" "alice" key0 2)
             (mkHarnessConvoState "alice" "bob" key0 2)).
  - reflexivity.
  - reflexivity.
  - reflexivity.
  - split; [|done]. split; [done|]. unfold is_u32. cbn. lia.
  - repeat constructor; unfold is_u32; cbn; lia.
  - repeat constructor; cbn; unfold SizeMessageBody; lia.
  - cbn. lia.
Defined.

(** The empty texts of sixteen rounds that nobody read fill the channel; a text that arrives
    then is lost: it has left the queue of the sender. *)
Definition covers : list IncomingMessage := mkIncomingMessage "alice" [] <$> seqZ 3 16.

Example unread_rounds_lose_a_text :
  let alice := set_tc_ConvoState (Some (mkHarnessConvoState "bob" "alice" key0 18)) client_alice in
  let bob := set_tc_ConvoState (Some (mkHarnessConvoState "alice" "bob" key0 18)) client_bob in
  let '(a, b) := @run_rounds Toy.nacl unit unit unit zero_message [19] alice
                   (set_tc_recvCh covers bob) in
  tc_outQueue a = [str "bye"] ∧ tc_recvCh b = covers.
Proof. vm_compute. split; reflexivity. Qed.
