(* ===== verification/System.v ===== *)
(** * The whole system

    Clients, coordinator and mixers composed: the onions that the clients' [runRound]
    seals, in the bundles the coordinator took, run by [mixOnions] through the chain of
    mixers, and the replies opened by [openReplyOnion]. Two conversations on top of it
    exchange their messages. *)

From Stdlib Require Import ZArith Lia.
From stdpp Require Import base numbers strings gmap fin_maps list.
From S2P Require Import Prelude GoStd External Concurrency Pb Settings Convo Mixnet MixOnions ConvoMix MixClient MixServe MixChain ConvoConfig Coordinator Client Conversation.

(** A client that takes part in a round: its connection, the randomness of its onions and
    the messages its handler returned. *)
Record party := mkParty {
  party_conn : conn;
  party_coins : nat → bytes;
  party_messages : list DeadDropMessage
}.

(** ** Sizes of onions and chains *)

Section sizes.
Context `{NaClLaws} `{!Onionbox} `{!OnionboxLaws} `{Shuffle} `{Spans}.

Lemma peels_length nonce sks m o ks :
  peels nonce sks m o ks → length o = (length sks * onion_Overhead + length m)%nat.
Proof.
  induction 1 as [m|sk sks m o o' eph ks Heph _ IH ->]; [done|].
  rewrite length_app, length_Seal, IH, onion_Overhead_eq, Heph. cbn [length Nat.mul]. lia.
Qed.

Lemma length_chain CoordinatorKey service round n i hops onions :
  chain_ok CoordinatorKey service round n i hops onions → (i + length hops = n)%nat.
Proof.
  revert i onions. induction hops as [|h [|h' rest] IH]; intros i onions Hc; [done| |].
  - destruct Hc as (_ & <- & _). cbn. lia.
  - destruct Hc as (_ & _ & _ & Hc). apply IH in Hc. cbn in *. lia.
Qed.

End sizes.

(** ** The round *)

Section system.
Context `{NaClLaws} `{!Onionbox} `{!OnionboxLaws} `{!Signature} `{ShuffleLaws} `{SpansLaws}.
Context `{SignedConfigs}.
Context (CoordinatorKey : bytes) (Services : gmap string (MixService convo_coins)).
Context (service : string) (round : Z) (cs : ConvoService) (n : nat) (hops : list hop).

(** The onion keys of the round's settings. *)
Definition round_keys : list bytes := box_Public <$> hop_sks hops.

Definition sealed_by (p : party) : list (bytes * list bytes) :=
  sealed_messages (party_coins p) round round_keys (party_messages p).

Definition bundle_of (p : party) : onionBundle := mkOnionBundle (party_conn p) (sealed_by p).*1.

Definition bundles (ps : list party) : list onionBundle := bundle_of <$> ps.

(** The place of message [j] of party [i] in the batch. *)
Definition place (ps : list party) (i j : nat) : nat := (bundle_start (bundles ps) i + j)%nat.

(** The client of a party that waits for the replies of the round. *)
Definition waiting (p : party) (c : Client) : Prop :=
  ∃ l st, client_rounds c !! round = Some l ∧ client_store c !! l = Some st ∧
    Client.OnionKeys st = Some ((sealed_by p).*2) ∧ length (MixServers (Client.Config st)) = n.

(** All servers are ready for the batch and everybody's messages are well-formed. *)
Record round_ready (ps : list party) (calls : mixnetCalls) (first : PublicServerConfig) : Prop := {
  rr_service : Services !! service = Some (convo_service cs);
  rr_round : is_u32 round;
  rr_messages : Forall (λ p, Forall wf_message (party_messages p)) ps;
  rr_chain : chain_ok CoordinatorKey service round n 0 hops (batch_onions (bundles ps));
  rr_calls onions : mix_RunRoundBidirectional calls first service round onions =
    run_chain CoordinatorKey Services service round hops onions
}.

(** Message [j] of party [i] gets through: no server takes it for a duplicate. *)
Definition gets_through (ps : list party) (i j : nat) : Prop :=
  kept round hops (batch_onions (bundles ps)) (place ps i j).

Lemma sealed_lookup p j m :
  party_messages p !! j = Some m →
  ∃ o ks, (sealed_by p).*1 !! j = Some o ∧ (sealed_by p).*2 !! j = Some ks ∧
    peels (ForwardNonce round) (hop_sks hops) (Convo.Marshal m) o ks.
Proof using All.
  intros Hj. unfold sealed_by, sealed_messages. rewrite !list_lookup_fmap, list_lookup_imap, Hj. cbn.
  do 2 eexists. split; [done|]. split; [done|]. apply onion_Seal_peels.
Qed.

Lemma length_sealed p : length (sealed_by p) = length (party_messages p).
Proof. apply length_imap. Qed.

Lemma sealed_batch_sizes ps :
  Forall (λ p, Forall wf_message (party_messages p)) ps → length hops = n →
  Forall (λ o, length o = onion_size n 0) (batch_onions (bundles ps)).
Proof using All.
  intros Hm Hn. unfold batch_onions, bundles. rewrite <- list_fmap_compose.
  apply Forall_join, Forall_fmap. eapply Forall_impl; [exact Hm|]. intros p Hp. cbn.
  apply Forall_lookup. intros j o Ho.
  assert (Hlt : (j < length (party_messages p))%nat).
  { apply lookup_lt_Some in Ho. by rewrite length_fmap, length_sealed in Ho. }
  destruct (lookup_lt_is_Some_1 _ _ Hlt) as [m Hj].
  destruct (sealed_lookup p j m Hj) as (o' & ks & Ho' & _ & Hpeel).
  rewrite Ho' in Ho. injection Ho as ->. rewrite (peels_length _ _ _ _ _ Hpeel).
  rewrite length_Marshal by (exact (Forall_lookup_1 _ _ j m Hp Hj)). unfold onion_size, hop_sks.
  by rewrite length_fmap, Hn, Nat.sub_0_r.
Qed.

(** ** What every party gets *)

(** The last server's batch, and what it answers to the message at [j]. *)
Definition last_batch (ps : list party) : list bytes := final_batch round hops (batch_onions (bundles ps)).
Definition answer (ps : list party) (j : nat) : bytes :=
  body (last_batch ps !!! partner (last_batch ps) j).

(** The round of the coordinator and the mixers, in terms of the parties. *)
Lemma round_runs ps calls first order (s : Coordinator.Server) :
  round_ready ps calls first → order ≡ₚ seq 0 (length ps) →
  ∃ replies msgs,
    mixOnions service calls order first round (bundles ps) s = (set_sends (sends s ++ msgs) s, Ret ()) ∧
    msgs ≡ₚ imap (reply_message round (bundles ps) replies) (bundles ps) ∧
    answered round n 0 hops (batch_onions (bundles ps)) replies ∧
    NoDup (last_batch ps).
Proof using All.
  intros [Hs Hr Hm Hc Hcalls] Ho.
  pose proof (sealed_batch_sizes ps Hm (length_chain _ _ _ _ _ _ _ Hc)) as Hsizes.
  destruct (run_chain_answers CoordinatorKey Services service round cs Hs Hr n 0 hops _ Hc Hsizes)
    as (replies & Hrun & Hans).
  exists replies. unfold mixOnions.
  destruct (gather_bundles_spec [] (bundles ps)) as (ranges & -> & Hranges). rewrite app_nil_l, Hcalls, Hrun.
  eexists. split.
  { apply (send_replies_run round (bundles ps) replies ranges order s); [apply Hans|exact Hranges|].
    intros i Hi. rewrite Ho in Hi. apply elem_of_seq in Hi. unfold bundles. rewrite length_fmap. lia. }
  split; [|split; [done|]].
  - rewrite Ho. unfold bundles at 1 3 4. rewrite <- (length_fmap bundle_of ps), omap_seq. done.
  - by apply (final_batch_NoDup CoordinatorKey Services service round cs Hs Hr n 0 hops _ Hc Hsizes).
Qed.

(** The message the coordinator sends to a party. *)
Definition reply_for (ps : list party) (replies : list bytes) (i : nat) (p : party) : OnionMsg :=
  mkOnionMsg round (bundle_replies (bundles ps) replies i (bundle_of p)).

Lemma bundles_lookup ps i p : ps !! i = Some p → bundles ps !! i = Some (bundle_of p).
Proof. intros Hp. unfold bundles. by rewrite list_lookup_fmap, Hp. Qed.

Lemma length_bundle_of p : length (bundle_onions (bundle_of p)) = length (party_messages p).
Proof. cbn. by rewrite length_fmap, length_sealed. Qed.

Lemma length_reply_for ps replies i p :
  length replies = length (batch_onions (bundles ps)) → ps !! i = Some p →
  length (om_Onions (reply_for ps replies i p)) = length (party_messages p).
Proof.
  intros Hl Hp%bundles_lookup. pose proof (bundle_end _ _ _ Hp) as He.
  unfold reply_for, bundle_replies. cbn [om_Onions].
  rewrite length_take, length_drop, length_bundle_of. rewrite length_bundle_of in He. lia.
Qed.

(** A message that gets through: where it is in the last batch, and the reply to it. *)
Lemma party_reply ps replies i p j m :
  answered round n 0 hops (batch_onions (bundles ps)) replies →
  ps !! i = Some p → party_messages p !! j = Some m → gets_through ps i j →
  ∃ j' ks, last_batch ps !! j' = Some (Convo.Marshal m) ∧
    exchange (last_batch ps) !! j' = Some (answer ps j') ∧
    (sealed_by p).*2 !! j = Some ks ∧
    om_Onions (reply_for ps replies i p) !! j = Some (reply_onion (BackwardNonce round) ks (answer ps j')).
Proof using All.
  intros (_ & _ & Hans) Hp Hm Hk. destruct (sealed_lookup p j m Hm) as (o & ks & Ho & Hks & Hpeel).
  pose proof (bundles_lookup _ _ _ Hp) as Hb.
  assert (Hj : (j < length (bundle_onions (bundle_of p)))%nat).
  { rewrite length_bundle_of. by eapply lookup_lt_Some. }
  destruct (Hans (place ps i j) o (Convo.Marshal m) ks) as (j' & Hj' & Hex & Hr); [|done|done|].
  { unfold place. rewrite (batch_onions_lookup _ _ _ j Hb Hj). exact Ho. }
  exists j', ks. split; [done|]. split; [done|]. split; [done|].
  cbn [om_Onions reply_for]. rewrite bundle_replies_lookup by done. exact Hr.
Qed.

(** What the client of a party makes of the replies. *)
Lemma client_opens ps replies i p c :
  answered round n 0 hops (batch_onions (bundles ps)) replies →
  ps !! i = Some p → waiting p c →
  ∃ errs texts,
    openReplyOnion (reply_for ps replies i p) c =
      (set_client_rounds (delete round (client_rounds c))
         (add_events ((CallError <$> errs) ++ [CallReplies round texts]) c), Ret ()) ∧
    length texts = length (party_messages p) ∧
    ((∀ j, (j < length (party_messages p))%nat → gets_through ps i j) → errs = []) ∧
    ∀ j m, party_messages p !! j = Some m → gets_through ps i j →
      ∃ j', last_batch ps !! j' = Some (Convo.Marshal m) ∧
        exchange (last_batch ps) !! j' = Some (answer ps j') ∧ texts !! j = Some (answer ps j').
Proof using All.
  intros Hans Hp (l & st & Hl & Hst & Hkeys & Hservers). pose proof Hans as (Hlen & Hsz & _).
  pose proof (length_reply_for ps replies i p Hlen Hp) as Hn.
  assert (Hnk : length ((sealed_by p).*2) = length (om_Onions (reply_for ps replies i p))).
  { by rewrite length_fmap, length_sealed, Hn. }
  assert (Hone : ∀ j m, party_messages p !! j = Some m → gets_through ps i j →
    ∃ j' ks o, last_batch ps !! j' = Some (Convo.Marshal m) ∧
      exchange (last_batch ps) !! j' = Some (answer ps j') ∧
      (sealed_by p).*2 !! j = Some ks ∧ om_Onions (reply_for ps replies i p) !! j = Some o ∧
      length o = (SizeEncryptedMessageBody + n * box_Overhead)%nat ∧
      onion_Open o (BackwardNonce round) ks = Some (answer ps j')).
  { intros j m Hm Hk. destruct (party_reply ps replies i p j m Hans Hp Hm Hk) as (j' & ks & ? & ? & ? & Ho).
    exists j', ks. eexists. repeat split; try done; [|apply onion_Open_reply].
    assert (Hin : om_Onions (reply_for ps replies i p) !! j = replies !! place ps i j).
    { apply bundle_replies_lookup. rewrite length_bundle_of. by eapply lookup_lt_Some. }
    rewrite Hin in Ho. pose proof (Forall_lookup_1 _ _ _ _ Hsz Ho) as E. cbn beta in E. rewrite E.
    unfold reply_bytes. lia. }
  destruct (openReplyOnion_run (reply_for ps replies i p) c l st _ Hl Hst Hkeys Hnk) as (errs & E & Herrs).
  rewrite Hservers in E, Herrs. do 2 eexists. split; [exact E|]. split; [|split].
  - rewrite length_zip_with, Hnk, Hn. lia.
  - intros Hall. apply Herrs. apply Forall2_same_length_lookup_2; [done|].
    intros j o ks Ho Hks. pose proof (lookup_lt_Some _ _ _ Ho) as Hj. rewrite Hn in Hj.
    destruct (lookup_lt_is_Some_1 _ _ Hj) as [m Hm].
    destruct (Hone j m Hm (Hall j Hj)) as (j' & ks' & o' & _ & _ & Hks' & Ho' & Hsize & Hop).
    rewrite Ho in Ho'. rewrite Hks in Hks'. injection Ho' as <-. injection Hks' as <-.
    split; [done|]. exists (answer ps j'). exact Hop.
  - intros j m Hm Hk. destruct (Hone j m Hm Hk) as (j' & ks & o & Hj' & Hex & Hks & Ho & Hsize & Hop).
    exists j'. split; [done|]. split; [done|]. rewrite lookup_zip_with, Ho, Hks. cbn -[reply_for answer].
    change (om_Round (reply_for ps replies i p)) with round. unfold opened_reply. rewrite decide_False by auto. by rewrite Hop.
Qed.

(** A message the handler is given reaches the view of the conversation it belongs to. *)
Lemma body_Marshal m : wf_message m → body (Convo.Marshal m) = EncryptedMessage m.
Proof.
  intros Hm. rewrite Marshal_app by done. destruct Hm as [Hd He]. unfold body.
  rewrite drop_app_length' by done. apply take_ge. by rewrite He.
Qed.

Lemma take_Marshal m : wf_message m → take 16 (Convo.Marshal m) = DeadDrop m.
Proof. intros Hm. rewrite Marshal_app by done. destruct Hm as [Hd _]. by apply take_app_length'. Qed.

(** Two messages alone at their dead drop: the second party's answer is the first's text. *)
Lemma answer_alone ps ja jb ma mb :
  NoDup (last_batch ps) → wf_message ma → wf_message mb →
  last_batch ps !! ja = Some (Convo.Marshal ma) → last_batch ps !! jb = Some (Convo.Marshal mb) →
  DeadDrop ma = DeadDrop mb → EncryptedMessage ma ≠ EncryptedMessage mb →
  (∀ m, m ∈ last_batch ps → take 16 m = DeadDrop ma → m = Convo.Marshal ma ∨ m = Convo.Marshal mb) →
  answer ps jb = EncryptedMessage ma.
Proof.
  intros Hnd Ha Hb Hja Hjb Hd Hne Halone. unfold answer.
  destruct (partners_alone (last_batch ps) ja jb (Convo.Marshal ma) (Convo.Marshal mb)) as [_ ->]; try done.
  - intros E. apply Hne. by rewrite <- (body_Marshal ma Ha), E, body_Marshal.
  - by rewrite !take_Marshal.
  - intros m Hm. rewrite take_Marshal by done. by apply Halone.
  - rewrite (list_lookup_total_correct _ _ _ Hja). by apply body_Marshal.
Qed.

End system.

(** ** Properties *)

Section properties.
Context `{NaClLaws} `{!Onionbox} `{!OnionboxLaws} `{!Signature} `{ShuffleLaws} `{SpansLaws}.
Context `{SignedConfigs}.
Context (CoordinatorKey : bytes) (Services : gmap string (MixService convo_coins)).

(** C2. A round of the whole system. When the mixers are ready for the round and the onions
    are those that clients sealed for it, the coordinator sends every client one message,
    in an arbitrary order; the client's [openReplyOnion] makes of it one call of its
    handler with an answer for each of its messages, and for every message that no mixer
    takes for a duplicate the answer is what the dead-drop exchange of the last mixer
    gives it; without duplicates nothing is reported as an error. *)
Theorem round_end_to_end service round cs n hops ps calls first order (s : Coordinator.Server) :
  round_ready CoordinatorKey Services service round cs n hops ps calls first →
  order ≡ₚ seq 0 (length ps) →
  ∃ replies msgs,
    mixOnions service calls order first round (bundles round hops ps) s = (set_sends (sends s ++ msgs) s, Ret ()) ∧
    msgs ≡ₚ imap (λ i p, SendTo (party_conn p) (MsgReply (reply_for round hops ps replies i p))) ps ∧
    ∀ i p c, ps !! i = Some p → waiting round n hops p c → ∃ errs texts,
      openReplyOnion (reply_for round hops ps replies i p) c =
        (set_client_rounds (delete round (client_rounds c))
           (add_events ((CallError <$> errs) ++ [CallReplies round texts]) c), Ret ()) ∧
      length texts = length (party_messages p) ∧
      ((∀ j, (j < length (party_messages p))%nat → gets_through round hops ps i j) → errs = []) ∧
      ∀ j m, party_messages p !! j = Some m → gets_through round hops ps i j →
        ∃ j', last_batch round hops ps !! j' = Some (Convo.Marshal m) ∧
          texts !! j = exchange (last_batch round hops ps) !! j'.
Proof.
  intros Hready Ho.
  destruct (round_runs CoordinatorKey Services service round cs n hops ps calls first order s Hready Ho) as (replies & msgs & E & Hm & Hans & _).
  exists replies, msgs. split; [exact E|]. split.
  { rewrite Hm. unfold bundles at 2. by rewrite imap_fmap. }
  intros i p c Hp Hc.
  destruct (client_opens CoordinatorKey Services service round cs n hops ps replies i p c Hans Hp Hc) as (errs & texts & Eo & Hl & He & Ht).
  exists errs, texts. split; [exact Eo|]. split; [exact Hl|]. split; [exact He|].
  intros j m Hj Hk. destruct (Ht j m Hj Hk) as (j' & Hj' & Hex & Htj). exists j'. by rewrite Htj, Hex.
Qed.

(** C1. A text reaches the friend. alice and bob hold the key of one call and their clients
    send what [NextMessage] gives in a round of the system. If neither message is lost as
    a duplicate and no third message of the last mixer's batch names their dead drop, then
    the message the coordinator sends to bob's client makes it call bob's handler, and
    given the answer in bob's place bob's [Reply] shows exactly the texts that receiving
    the message alice composed brings. *)
Theorem message_reaches_friend service round cs n hops ps calls first order (s : Coordinator.Server)
    ia ib pa pb ja jb a b key start nowa nowb da db ma mb :
  round_ready CoordinatorKey Services service round cs n hops ps calls first →
  order ≡ₚ seq 0 (length ps) →
  length key = 32%nat → keyed key start a → keyed key start b →
  sessionKeyRound a <= round → sessionKeyRound b <= round →
  wf_conversation a → wf_conversation b →
  peerUsername a = myUsername b → myUsername a = peerUsername b →
  (NextMessage nowa da round a).2 = Ret ma → (NextMessage nowb db round b).2 = Ret mb →
  ps !! ia = Some pa → party_messages pa !! ja = Some ma → gets_through round hops ps ia ja →
  ps !! ib = Some pb → party_messages pb !! jb = Some mb → gets_through round hops ps ib jb →
  EncryptedMessage ma ≠ EncryptedMessage mb →
  (∀ m, m ∈ last_batch round hops ps → take 16 m = DeadDrop ma →
     m = Convo.Marshal ma ∨ m = Convo.Marshal mb) →
  ∃ replies msgs msg,
    mixOnions service calls order first round (bundles round hops ps) s = (set_sends (sends s ++ msgs) s, Ret ()) ∧
    SendTo (party_conn pb) (MsgReply (reply_for round hops ps replies ib pb)) ∈ msgs ∧
    (compose round a).2 = Ret msg ∧
    ∀ c, waiting round n hops pb c → ∃ c' errs texts e,
      openReplyOnion (reply_for round hops ps replies ib pb) c = (c', Ret ()) ∧
      client_events c' = client_events c ++ (CallError <$> errs) ++ [CallReplies round texts] ∧
      texts !! jb = Some e ∧
      ∀ now, let b' := (NextMessage nowb db round b).1 in
        (Reply now round e b').2 = Ret (Shown (trim_right_nul <$> (receive (now - nowb) (wire msg) b').2)).
Proof.
  intros Hready Ho Hk Ka Kb Ra Rb Wa Wb Np Nm Hma Hmb Hpa Hja Hga Hpb Hjb Hgb Hne Halone.
  destruct (peers_exchange_run nowa nowb da db round a b key start Hk Ka Kb Ra Rb (rr_round _ _ _ _ _ _ _ _ _ _ Hready) Wa Wb Np Nm)
    as (a' & ma' & b' & mb' & msg & Ea & Eb & Em & Hmy & Hpeer & Wma & Wmb & Ed & HR).
  rewrite Ea in Hma. rewrite Eb in Hmb. injection Hma as ->. injection Hmb as ->.
  destruct (round_runs CoordinatorKey Services service round cs n hops ps calls first order s Hready Ho) as (replies & msgs & E & Hm & Hans & Hnd).
  destruct (party_reply CoordinatorKey Services service round cs n hops ps replies ia pa ja ma Hans Hpa Hja Hga) as (ka & _ & Hka & _).
  exists replies, msgs, msg. split; [exact E|]. split; [|split; [exact Em|]].
  - rewrite Hm. apply elem_of_lookup_imap. exists ib, (bundle_of round hops pb).
    split; [done|]. by apply bundles_lookup.
  - intros c Hc.
    destruct (client_opens CoordinatorKey Services service round cs n hops ps replies ib pb c Hans Hpb Hc) as (errs & texts & Eo & _ & _ & Ht).
    destruct (Ht jb mb Hjb Hgb) as (kb & Hkb & _ & Htj).
    exists (set_client_rounds (delete round (client_rounds c))
           (add_events ((CallError <$> errs) ++ [CallReplies round texts]) c)), errs, texts, (EncryptedMessage ma).
    split; [exact Eo|]. split; [done|]. split.
    + rewrite Htj. f_equal. by apply (answer_alone round hops ps ka kb ma mb).
    + intros now. rewrite Eb. cbn [fst].
      by destruct (HR now b' Hmy Hpeer eq_refl (or_introl Hne)) as [u ->].
Qed.

End properties.
