(* ===== verification/SystemExamples.v ===== *)
(** * A concrete round of the system

    alice and bob of [ClientExamples] send through the two mixers of [MixExamples]; the
    theorems of [System], [Client] and [Coordinator] applied to them. *)

From Stdlib Require Import ZArith Lia.
From stdpp Require Import base numbers strings gmap fin_maps list.
From S2P Require Import Prelude GoStd Json External Concurrency Pb Settings Convo Mixnet MixOnions ConvoMix MixClient MixServe MixChain MixExamples ConvoConfig Coordinator Client Conversation Delivery ClientExamples System.

Local Existing Instance Toy.nacl.
Local Existing Instance Toy.onionbox.
Local Existing Instance Toy.shuffle.
Local Existing Instance Toy.spans_inst.
Local Existing Instance Toy.signature.
Local Existing Instance Toy.nacl_laws.
Local Existing Instance Toy.onionbox_laws.
Local Existing Instance Toy.shuffle_laws.
Local Existing Instance Toy.spans_laws.
Local Existing Instance Toy.signature_laws.

(** Signed configurations that are the configuration, all with one hash. *)
Local Instance configs : SignedConfigs := {|
  SignedConfig := ConvoConfig;
  config_Hash _ := "hash";
  config_Inner c := InnerConvo c;
  config_Guardians _ := []
|}.

(** ** The messages of round 7 *)

(** alice sends a text that fills the message. [Toy] does not hide it, and the mixers tell
    messages apart by their ends. *)
Definition long_text : bytes := replicate SizeUserText x61.
Definition alice : Conversation :=
  QueueTextMessage true long_text (with_key (Init (zero_Conversation "bob" "alice"))).

Lemma keyed_sender : keyed key0 0 alice.
Proof. split; [vm_compute; done|]. split; [vm_compute; done|]. vm_compute. reflexivity. Qed.

Lemma wf_sender : wf_conversation alice.
Proof.
  constructor.
  - change (lastOut alice) with 0. lia.
  - change (ack alice) with 0. unfold is_u32. lia.
  - change (seqBase alice) with 0. unfold is_u32. lia.
  - change (relativeSeq alice) with (u32 (0 + 1)). apply u32_range.
  - change (outQueue alice) with [mkSeqMsg 0 long_text].
    constructor; [cbn [RelativeSeq]; unfold is_u32; lia|constructor].
Qed.

Definition msg_a : DeadDropMessage := Eval vm_compute in
  match (NextMessage 0 zero_message 7 alice).2 with Ret m => m | _ => zero_message end.
Definition msg_b : DeadDropMessage := Eval vm_compute in
  match (NextMessage 0 zero_message 7 bob).2 with Ret m => m | _ => zero_message end.

Lemma next_a : (NextMessage 0 zero_message 7 alice).2 = Ret msg_a.
Proof. vm_compute. reflexivity. Qed.

Lemma next_b : (NextMessage 0 zero_message 7 bob).2 = Ret msg_b.
Proof. vm_compute. reflexivity. Qed.

Definition party_a : party := mkParty 1%nat (λ _, [x11]) [msg_a].
Definition party_b : party := mkParty 2%nat (λ _, [x12]) [msg_b].
Definition ps : list party := [party_a; party_b].

Definition calls : mixnetCalls :=
  mkMixnetCalls (λ _ s, (s, Err NotInChain))
                (λ _ svc r onions, run_chain coordinator services svc r hops onions).
Definition first_server : PublicServerConfig := mkPublicServerConfig [] "".

Definition system_batch : list bytes := batch_onions (bundles 7 hops ps).

Lemma system_chain : chain_ok coordinator "Convo" 7 2 0 hops system_batch.
Proof.
  assert (H0 : hop_ok coordinator "Convo" 7 2 0 (hop_at 0)) by (apply hop_at_ok; lia).
  assert (H1 : hop_ok coordinator "Convo" 7 2 1 (hop_at 1)) by (apply hop_at_ok; lia).
  split; [exact H0|]. split; [lia|]. split; [vm_compute; done|].
  split; [exact H1|]. split; [done|]. split; [vm_compute; done|]. split; [vm_compute; done|].
  apply (in_order_valid 3).
Qed.

Lemma system_ready : round_ready coordinator services "Convo" 7 quiet 2 hops ps calls first_server.
Proof.
  constructor.
  - exact services_convo.
  - exact round_7.
  - repeat constructor; vm_compute; reflexivity.
  - exact system_chain.
  - done.
Qed.

Lemma system_distinct : NoDup (hop_sent 7 (hop_at 0) system_batch).
Proof. apply (bool_decide_unpack _). vm_compute. exact I. Qed.

Lemma system_kept i : (i < 2)%nat → kept 7 hops system_batch i.
Proof.
  intros Hi. assert (Hpos : ∃ pos msg, hop_opened 7 (hop_at 0) system_batch !! i = Some (Some msg) ∧
    hop_sent 7 (hop_at 0) system_batch !! pos = Some msg ∧
    first_of_key_b (hop_opened 7 (hop_at 1) (hop_sent 7 (hop_at 0) system_batch)) pos = true ∧
    first_of_key_b (hop_opened 7 (hop_at 0) system_batch) i = true).
  { assert (i = 0%nat ∨ i = 1%nat) as [-> | ->] by lia.
    - exists 2%nat. eexists. split; [vm_compute; reflexivity|]. split; [vm_compute; reflexivity|].
      split; vm_compute; reflexivity.
    - exists 1%nat. eexists. split; [vm_compute; reflexivity|]. split; [vm_compute; reflexivity|].
      split; vm_compute; reflexivity. }
  destruct Hpos as (pos & msg & Eo & Es & Hl & Hf). split; [by apply first_of_key_b_true|].
  intros i' msg' Eo' Es'. rewrite Eo in Eo'. injection Eo' as <-.
  assert (i' = pos) as -> by (eapply NoDup_lookup; [apply system_distinct|done..]).
  split; [by apply first_of_key_b_true|done].
Qed.

(** ** The clients that wait for the round *)

Definition two_mixers : ConvoConfig := mkConvoConfig 1 (mkCoordinatorConfig coordinator "entry")
  [mkPublicServerConfig (sig_Public (signing 0)) "mix0"; mkPublicServerConfig (sig_Public (signing 1)) "mix1"].

Definition signed : SignedConfig := two_mixers.

Definition client_of (p : party) : Client :=
  mkClient {[ 7 := 0%nat ]} {[ 0%nat := mkRoundState two_mixers signed (Some ((sealed_by 7 hops p).*2)) ]}
    (Some 0%nat) 7 (Some signed) "hash" [] [].

Lemma waiting_client p : waiting 7 2 hops p (client_of p).
Proof.
  exists 0%nat, (mkRoundState two_mixers signed (Some ((sealed_by 7 hops p).*2))).
  split; [reflexivity|]. split; [reflexivity|]. split; reflexivity.
Qed.

Definition idle : Coordinator.Server := Coordinator.mkServer 7 ∅ ∅ false false true (Some signed) [].

(** ** Witnesses *)

Lemma round_end_to_end_witness :
  ∃ replies msgs texts,
    mixOnions "Convo" calls [1; 0]%nat first_server 7 (bundles 7 hops ps) idle = (set_sends msgs idle, Ret ()) ∧
    (openReplyOnion (reply_for 7 hops ps replies 0 party_a) (client_of party_a)).1.(client_events) =
      [CallReplies 7 texts] ∧ length texts = 1%nat.
Proof.
  destruct (round_end_to_end coordinator services "Convo" 7 quiet 2 hops ps calls first_server [1; 0]%nat idle
              system_ready) as (replies & msgs & E & _ & H).
  { change (seq 0 (length ps)) with [0; 1]%nat. apply perm_swap. }
  destruct (H 0%nat party_a (client_of party_a) eq_refl (waiting_client party_a))
    as (errs & texts & Eo & Hl & Herr & _).
  exists replies, msgs, texts. split; [exact E|]. rewrite Eo. split; [|rewrite Hl; reflexivity].
  rewrite Herr; [reflexivity|]. intros j Hj.
  assert (j = 0%nat) as -> by (unfold party_a in Hj; cbn in Hj; lia). apply (system_kept 0). lia.
Defined.

Lemma message_reaches_friend_witness :
  ∃ replies e,
    (Reply 9 7 e (NextMessage 0 zero_message 7 bob).1).2 = Ret (Shown [long_text]) ∧
    ∃ texts, texts !! 0%nat = Some e ∧
    ∃ errs, (openReplyOnion (reply_for 7 hops ps replies 1 party_b) (client_of party_b)).1.(client_events) =
      (CallError <$> errs) ++ [CallReplies 7 texts].
Proof.
  destruct (message_reaches_friend coordinator services "Convo" 7 quiet 2 hops ps calls first_server [1; 0]%nat
    idle 0 1 party_a party_b 0 0 alice bob key0 0 0 0 zero_message zero_message msg_a msg_b)
    as (replies & msgs & msg & _ & _ & Em & H).
  - exact system_ready.
  - change (seq 0 (length ps)) with [0; 1]%nat. apply perm_swap.
  - reflexivity.
  - exact keyed_sender.
  - exact keyed_bob.
  - change (sessionKeyRound alice) with 0. lia.
  - change (sessionKeyRound bob) with 0. lia.
  - exact wf_sender.
  - exact wf_bob.
  - reflexivity.
  - reflexivity.
  - exact next_a.
  - exact next_b.
  - reflexivity.
  - reflexivity.
  - apply (system_kept 0). lia.
  - reflexivity.
  - reflexivity.
  - apply (system_kept 1). lia.
  - vm_compute. congruence.
  - assert (HF : Forall (λ m, take 16 m = DeadDrop msg_a → m = Convo.Marshal msg_a ∨ m = Convo.Marshal msg_b)
                   (last_batch 7 hops ps)).
    { apply (bool_decide_unpack _). vm_compute. exact I. }
    rewrite Forall_forall in HF. exact HF.
  - destruct (H (client_of party_b) (waiting_client party_b)) as (c' & errs & texts & e & Eo & Ee & Et & HR).
    exists replies, e. split.
    + rewrite HR. assert (Emsg : msg = mkConvoMessage 8 0 true long_text).
      { assert (Ec : (compose 7 alice).2 = Ret (mkConvoMessage 8 0 true long_text)) by (vm_compute; reflexivity).
        congruence. }
      rewrite Emsg. vm_compute. reflexivity.
    + exists texts. split; [exact Et|]. exists errs. rewrite Eo. exact Ee.
Defined.

(** ** The coordinator *)

(** Two bundles, and a mixnet that answers with the onions themselves. *)
Definition two_bundles : list onionBundle := [mkOnionBundle 4%nat [[x61]]; mkOnionBundle 5%nat [[x62]; [x63]]].
Definition echo : mixnetCalls :=
  mkMixnetCalls (λ _ s, (s, Err NotInChain)) (λ _ _ _ onions, Ret onions).

Lemma mixOnions_routes_witness :
  ∃ msgs, mixOnions "Convo" echo [1; 0]%nat first_server 7 two_bundles idle = (set_sends msgs idle, Ret ()) ∧
    msgs ≡ₚ [SendTo 4%nat (MsgReply (mkOnionMsg 7 [[x61]])); SendTo 5%nat (MsgReply (mkOnionMsg 7 [[x62]; [x63]]))].
Proof.
  destruct (mixOnions_routes "Convo" echo [1; 0]%nat first_server 7 two_bundles idle) as [H _].
  { change (seq 0 (length two_bundles)) with [0; 1]%nat. apply perm_swap. }
  destruct (H (batch_onions two_bundles) eq_refl eq_refl) as (msgs & E & Hm & _).
  exists msgs. split; [exact E|]. exact Hm.
Defined.

(** Six rounds, one after a refill: the fifth is persisted. *)
Definition turns : list loop_event := [Turn 50 50; Turn 50 50; Turn 50 50; Turn 50 50; Turn 50 50; Refill; Turn 90 91].

Lemma loop_rounds_witness :
  ∃ l started, loop_exec 10 turns (loop_start 40 15) = Some (l, started) ∧
    started.*1 = [116; 117; 118; 119; 120; 121] ∧ last (persists l) = Some 120 ∧
    ∀ l1 r1 d1, loop_turn 10 200 200 (loop_start 200 120) = Some (l1, (r1, d1)) → 121 < r1.
Proof.
  destruct (loop_exec 10 turns (loop_start 40 15)) as [[l started]|] eqn:E; [|vm_compute in E; discriminate].
  exists l, started. split; [done|].
  assert (El : length started = 6%nat ∧ last (persists l) = Some 120).
  { vm_compute in E. injection E as <- <-. split; reflexivity. }
  destruct El as [El Ep].
  assert (Hr : 0 <= 15) by lia.
  assert (Hb : 15 + 100 + Z.of_nat (length started) < 2 ^ 32) by (rewrite El; lia).
  assert (Ht : in_time turns) by (repeat (constructor; [cbn; lia|]); constructor).
  destruct (loop_rounds 10 40 15 turns l started 200 Hr Hb Ht E) as (Es & _ & _ & Hq & _).
  rewrite El in Es. assert (Es' : started.*1 = [116; 117; 118; 119; 120; 121]) by exact Es.
  split; [exact Es'|]. split; [exact Ep|]. intros l1 r1 d1 Hturn.
  apply (Hq 120 120 Ep ltac:(lia) ltac:(lia) 121 l1 r1 d1); [|exact Hturn].
  rewrite Es'. repeat (first [left | right]).
Defined.

(** ** The client *)

Definition settings_7 : RoundSettings := mkRoundSettings "Convo" 7 (Some <$> (box_Public <$> hop_sks hops)) None inil.
Definition announced : NewRound :=
  mkNewRound 7 "hash" settings_7
    [sig_Sign (signing 0) (SigningMessage settings_7); sig_Sign (signing 1) (SigningMessage settings_7)]
    (1000 * millisecond).

Lemma runRound_sends_when_signed_witness :
  ∃ c onions, runRound 0 0 millisecond [msg_a] (λ _, [x11]) (mkRunJob 0%nat announced) (client_of party_a) =
    (add_events [CallOutgoing 7; SendOnions (mkOnionMsg 7 onions)] c, Ret ()) ∧ length onions = 1%nat.
Proof.
  destruct (runRound_sends_when_signed 0 0 millisecond [msg_a] (λ _, [x11]) 0%nat announced (client_of party_a)
    (mkRoundState two_mixers signed (Some ((sealed_by 7 hops party_a).*2))) eq_refl) as [_ H].
  eexists _, _. split.
  - apply (H ltac:(apply verify_mixers_ok; vm_compute; reflexivity) (box_Public <$> hop_sks hops) eq_refl); vm_compute; discriminate.
  - reflexivity.
Defined.

Lemma openReplyOnion_answers_witness :
  openReplyOnion (mkOnionMsg 7 []) (client_of party_a) =
    (add_events [CallError (WrongOnionCount 7 1 0)] (client_of party_a), Ret ()).
Proof.
  pose proof (openReplyOnion_answers (mkOnionMsg 7 []) (client_of party_a)) as H.
  change (client_rounds (client_of party_a) !! om_Round (mkOnionMsg 7 [])) with (Some 0%nat) in H.
  specialize (H _ eq_refl). cbn [OnionKeys] in H. destruct H as [H _]. apply H. discriminate.
Defined.
