(* ===== verification/Gui.v ===== *)
(** * The terminal client (cmd/gjallarhorn-client/gui.go)

    [GuiClient] is the handler of the convo client: it keeps the conversations, which of
    them are active, what each round sent for them and which window has the focus.
    Conversations are shared by pointers, so they live in a heap. The terminal (gocui) and
    the colours of its text (ansi) are the classes [Gocui] and [Ansi]; calls of other
    packages are recorded in order in [gui_events]. *)

From Stdlib Require Import ZArith Lia.
From stdpp Require Import base numbers strings sets gmap fin_maps fin_sets list.
From S2P Require Import Prelude GoStd Json GoStrings External Settings Convo Conversation Wp.

(** ** The terminal *)

Inductive gui_error :=
| ErrUnknownView
| ErrQuit
| InvalidView
| ConversationFailed (e : conversation_error).

(** gocui: the views of the terminal by name. [screen_SetView] makes a view and returns
    [ErrUnknownView] where there was none; [screen_Attr] sets [Autoscroll], [Wrap] and
    [Frame]; [screen_Write] is [fmt.Fprintf] to a view. *)
Class Gocui := {
  screen : Type;
  screen_Size : screen → Z * Z;
  screen_View : string → screen → bool;
  screen_SetView : string → Z → Z → Z → Z → screen → screen * option gui_error;
  screen_SetViewOnTop : string → screen → screen * option gui_error;
  screen_Attr : string → bool → bool → bool → screen → screen;
  screen_Write : string → string → screen → screen
}.

(** A view with a name and an area can be set. *)
Class GocuiLaws `{Gocui} : Prop := {
  SetView_ok name x0 y0 x1 y1 g : name ≠ "" → x0 < x1 → y0 < y1 →
    (screen_SetView name x0 y0 x1 y1 g).2 = None ∨
    (screen_SetView name x0 y0 x1 y1 g).2 = Some ErrUnknownView
}.

(** neverlur/log/ansi *)
Class Ansi := {
  code : Type;
  Bold : code;
  Foreground : Z → code;
  Colorf : string → list code → string
}.

(** ** State *)

Definition loc : Type := nat.

Definition NumOutgoing : nat := 5.

(** What the client asks of other packages. *)
Inductive gui_event :=
| Notify (msg : string)                              (* [notify] *)
| SeldomNotify (msg : string)                        (* [seldomNotify] *)
| MainLoopError (e : gui_error)                      (* returned by a function given to [Update] *)
| UpdateIntent (username : string) (intent : Z)      (* [OutgoingCall.UpdateIntent] *)
| FriendCall (username : string)                     (* [Friend.Call(0)] *)
| FriendRemove (username : string)                   (* [Friend.Remove] *)
| SendFriendRequest (username : string)
| ApproveRequest (username : string)
| GoConnect                                          (* [go gc.Connect()] *)
| GoRegisterAll (token : string)                     (* [go gc.RegisterAll(token)] *)
| GoConnectLoop (service : string)                   (* [go gc.connectLoop(service, _)] *)
| RegisterUser (server token : string).              (* [Client.Register] *)

Section gui.
Context `{NaCl} `{Gocui} `{Ansi}.

(** [convos] is the heap; [active] maps to [true] only; [pendingRounds] holds the
    conversations of [activeConvos]; [marks] counts the goroutines that will set
    [mainUnread]; [connectOnce] tells whether it has run. *)
Record GuiClient := mkGuiClient {
  myName : string;
  convos : gmap loc Conversation;
  selectedConvo : option loc;
  conversations : list loc;
  active : gset loc;
  pendingRounds : gmap Z (list loc);
  mainUnread : bool;
  marks : nat;
  connectOnce : bool;
  gui : screen;
  gui_events : list gui_event
}.

Definition eta_GuiClient (s : GuiClient) : GuiClient :=
  mkGuiClient (myName s) (convos s) (selectedConvo s) (conversations s) (active s)
    (pendingRounds s) (mainUnread s) (marks s) (connectOnce s) (gui s) (gui_events s).

Definition set_convos v (s : GuiClient) : GuiClient := ltac:(set_field eta_GuiClient convos v s).
Definition set_selectedConvo v (s : GuiClient) : GuiClient :=
  ltac:(set_field eta_GuiClient selectedConvo v s).
Definition set_conversations v (s : GuiClient) : GuiClient :=
  ltac:(set_field eta_GuiClient conversations v s).
Definition set_active v (s : GuiClient) : GuiClient := ltac:(set_field eta_GuiClient active v s).
Definition set_pendingRounds v (s : GuiClient) : GuiClient :=
  ltac:(set_field eta_GuiClient pendingRounds v s).
Definition set_mainUnread v (s : GuiClient) : GuiClient := ltac:(set_field eta_GuiClient mainUnread v s).
Definition set_marks v (s : GuiClient) : GuiClient := ltac:(set_field eta_GuiClient marks v s).
Definition set_connectOnce v (s : GuiClient) : GuiClient :=
  ltac:(set_field eta_GuiClient connectOnce v s).
Definition set_gui v (s : GuiClient) : GuiClient := ltac:(set_field eta_GuiClient gui v s).
Definition set_gui_events v (s : GuiClient) : GuiClient := ltac:(set_field eta_GuiClient gui_events v s).

Abbreviation handler := (go GuiClient gui_error).

Definition event (e : gui_event) : handler unit :=
  modify (λ s, set_gui_events (gui_events s ++ [e]) s).

Definition deref (p : loc) : handler Conversation :=
  s ← get;
  lift (or_panic (convos s !! p)).

Definition modify_convo (p : loc) (f : Conversation → Conversation) : handler unit :=
  modify (λ s, set_convos (alter f p (convos s)) s).

(** An operation of the conversation at [p]. *)
Definition run_convo {A} (p : loc) (m : go Conversation conversation_error A) : handler A := λ s,
  match convos s !! p with
  | None => (s, Panic)
  | Some c =>
      let '(c, r) := m c in
      (set_convos (<[p := c]> (convos s)) s,
       match r with
       | Ret a => Ret a
       | Err e => Err (ConversationFailed e)
       | Panic => Panic
       | Block => Block
       end)
  end.

(** ** Printing *)

(** [stamp] is the time of day that a line of a conversation shows. *)
Context (stamp : string).

Definition ViewName (c : Conversation) : string := peerUsername c.

Definition write (view text : string) : handler unit :=
  modify (λ s, set_gui (screen_Write view text (gui s)) s).

(** A function given to [gui.Update]: its error ends the main loop. *)
Definition write_sync (view text : string) : handler unit :=
  s ← get;
  if screen_View view (gui s) then write view text else event (MainLoopError ErrUnknownView).

Definition warningPrefix : string := (Colorf "-!-" [Foreground 11] ++ " ")%string.

Definition stamped (text : string) : string := (Colorf stamp [Foreground 8] ++ " " ++ text)%string.

Definition gc_Printf (text : string) : handler unit :=
  s ← get;
  if screen_View "main" (gui s)
  then write "main" text;; modify (λ s, set_marks (S (marks s)) s)
  else mret ().

Definition gc_PrintfSync (text : string) : handler unit :=
  write_sync "main" text;;
  modify (λ s, set_marks (S (marks s)) s).

Definition gc_Warnf (text : string) : handler unit := gc_Printf (warningPrefix ++ text)%string.
Definition gc_WarnfSync (text : string) : handler unit := gc_PrintfSync (warningPrefix ++ text)%string.

(** The goroutine that both start. *)
Definition run_mark : handler unit :=
  s ← get;
  match marks s with
  | O => mret ()
  | S n =>
      modify (set_marks n);;
      if decide (is_Some (selectedConvo s)) then modify (set_mainUnread true) else mret ()
  end.

Definition convo_Printf (p : loc) (text : string) : handler unit :=
  c ← deref p;
  s ← get;
  let view := screen_View (ViewName c) (gui s) in
  (if view then write (ViewName c) (stamped text) else mret ());;
  modify_convo p (Printf view).

(** It waits until the main loop of the terminal has written the line. The loop is taken to run;
    while it does not, the caller waits. *)
Definition convo_PrintfSync (p : loc) (text : string) : handler unit :=
  c ← deref p;
  write_sync (ViewName c) (stamped text);;
  modify_convo p PrintfSync.

Definition convo_Warnf (p : loc) (text : string) : handler unit :=
  convo_Printf p (warningPrefix ++ text)%string.
Definition convo_WarnfSync (p : loc) (text : string) : handler unit :=
  convo_PrintfSync p (warningPrefix ++ text)%string.

Definition formatUserMessage (c : Conversation) (fromMe : bool) (msg : string) : string :=
  let max := S (String.length (myUsername c) `max` String.length (peerUsername c)) in
  let username := if fromMe then myUsername c else peerUsername c in
  let usernameColor := if fromMe then [Bold] else [] in
  let pad := spaces (max - String.length username) in
  (pad ++ Colorf username usernameColor ++ " " ++ Colorf "|" [Foreground 27] ++ " " ++ msg)%string.

(** [QueueTextMessage] prints the line it queued. *)
Definition convo_QueueTextMessage (p : loc) (msg : string) : handler unit :=
  c ← deref p;
  s ← get;
  let view := screen_View (ViewName c) (gui s) in
  modify_convo p (QueueTextMessage view (str msg));;
  (if view then write (ViewName c) (stamped (formatUserMessage c true msg ++ nl)%string) else mret ()).

(** The texts of a reply; [Reply] has already marked the conversation unread. *)
Fixpoint show (c : Conversation) (texts : list bytes) : handler unit :=
  match texts with
  | [] => mret ()
  | text :: texts =>
      let s := to_string text in
      write_sync (ViewName c) (stamped (formatUserMessage c false s ++ nl)%string);;
      event (SeldomNotify (peerUsername c ++ " says: " ++ s)%string);;
      show c texts
  end.

Definition convo_Reply (now round : Z) (encmsg : bytes) (p : loc) : handler unit :=
  r ← run_convo p (Reply now round encmsg);
  match r with
  | Shown texts => c ← deref p; show c texts
  | _ => mret ()
  end.

(** ** Rounds *)

(** The loop over [active]: conversation [i] of the order [order] reads the clock [now i]
    and uses the random message [coins i] where its key is rolled past the round. *)
Fixpoint next_messages (now : nat → Z) (coins : nat → DeadDropMessage) (round : Z) (i : nat)
    (order : list loc) : handler (list DeadDropMessage) :=
  match order with
  | [] => mret []
  | p :: order =>
      m ← run_convo p (NextMessage (now i) (coins i) round);
      out ← next_messages now coins round (S i) order;
      mret (m :: out)
  end.

(** [order] is the order in which the map [active] is ranged over; [coins i] is the random
    message at [i]. *)
Definition Outgoing (now : nat → Z) (coins : nat → DeadDropMessage) (order : list loc) (round : Z)
    : handler (list DeadDropMessage) :=
  out ← next_messages now coins round 0 order;
  let out := out ++ (coins <$> seq (length out) (NumOutgoing - length out)) in
  modify (λ s, set_pendingRounds (<[round := order]> (pendingRounds s)) s);;
  mret out.

(** The loop of [Replies], from reply [i] on. *)
Fixpoint reply_all (now : nat → Z) (round : Z) (replies : list bytes) (i : nat) (convos : list loc)
    : handler unit :=
  match convos with
  | [] => mret ()
  | p :: convos =>
      e ← lift (or_panic (replies !! i));
      convo_Reply (now i) round e p;;
      reply_all now round replies (S i) convos
  end.

Definition Replies (now : nat → Z) (round : Z) (replies : list bytes) : handler unit :=
  s ← get;
  let st := default [] (pendingRounds s !! round) in
  modify (λ s, set_pendingRounds (delete round (pendingRounds s)) s);;
  reply_all now round replies 0 st.

(** ** Active conversations *)

Definition start_session (wheel : keywheelStart) (c : Conversation) : Conversation :=
  let c := set_sessionKey (wheel_sessionKey wheel) c in
  let c := set_sessionKeyRound (convoRound_ wheel) c in
  let c := set_lastPeerResponding false c in
  let c := set_lastLatency 0 c in
  let c := set_pendingCall None c in
  set_lastOut (-1) c.

Definition activateConvo (p : loc) (wheel : keywheelStart) : handler bool :=
  s ← get;
  if decide (size (active s) < NumOutgoing)%nat
  then
    modify (λ s, set_active ({[p]} ∪ active s) s);;
    modify_convo p (start_session wheel);;
    mret true
  else mret false.

Definition deactivateConvo (p : loc) : handler bool :=
  s ← get;
  if decide (p ∈ active s)
  then modify (λ s, set_active (active s ∖ {[p]}) s);; mret true
  else mret false.

(** ** Windows *)

Definition gui_op (f : screen → screen * option gui_error) : handler unit :=
  s ← get;
  let '(g, err) := f (gui s) in
  modify (set_gui g);;
  match err with None => mret () | Some e => throw e end.

Definition setConvoView (name : string) (maxX maxY : Z) : handler unit :=
  err ← catch (gui_op (screen_SetView name 0 (-1) (maxX - 1) (maxY - 1)));
  match err with
  | inl ErrUnknownView => modify (λ s, set_gui (screen_Attr name true true false (gui s)) s)
  | inl e => throw e
  | inr _ => mret ()
  end.

(** The loop that looks for a conversation with the user. *)
Fixpoint find_convo (username : string) (ps : list loc) : handler (option loc) :=
  match ps with
  | [] => mret None
  | p :: ps =>
      c ← deref p;
      if decide (peerUsername c = username) then mret (Some p) else find_convo username ps
  end.

Definition getOrCreateConvo (username : string) : handler loc :=
  s ← get;
  found ← find_convo username (conversations s);
  match found with
  | Some p => mret p
  | None =>
      let p := fresh (dom (convos s)) in
      modify (λ s, set_convos (<[p := Init (zero_Conversation username (myName s))]> (convos s)) s);;
      modify (λ s, set_conversations (conversations s ++ [p]) s);;
      s ← get;
      let '(maxX, maxY) := screen_Size (gui s) in
      err ← catch (setConvoView username maxX maxY);
      match err with
      | inl _ => panic
      | inr _ => mret p
      end
  end.

Definition setViewOnTop (view : string) : handler unit :=
  gui_op (screen_SetViewOnTop view);;
  gui_op (screen_SetViewOnTop "status").

(** The conversation that had the focus loses it. *)
Definition unfocus (prev : option loc) : handler unit :=
  match prev with
  | Some prev => modify_convo prev (set_focused false)
  | None => mret ()
  end.

Definition focusMain : handler unit :=
  s ← get;
  unfocus (selectedConvo s);;
  modify (set_selectedConvo None);;
  modify (set_mainUnread false);;
  setViewOnTop "main".

Definition focusConvo (p : loc) : handler unit :=
  s ← get;
  unfocus (selectedConvo s);;
  modify (set_selectedConvo (Some p));;
  modify_convo p (λ c, set_focused true (set_unread false c));;
  c ← deref p;
  setViewOnTop (ViewName c).

Definition focusConvoIndex (i : Z) : handler unit :=
  if decide (i = 0) then focusMain
  else
    s ← get;
    let convoIndex := i - 1 in
    if decide (Z.of_nat (length (conversations s)) - 1 < convoIndex) then mret ()
    else
      p ← lift (or_panic (index convoIndex (conversations s)));
      focusConvo p.

End gui.
