(* ===== verification/GuiInvariant.v ===== *)
(** * What the operations of the terminal client keep

    Every operation of a conversation keeps it well formed, and every operation of
    [GuiClient] keeps [wf_gui]: distinct windows, a focus that is the selected window, at
    most [NumOutgoing] active conversations, each with a key. Under it no operation panics. *)

From Stdlib Require Import ZArith Lia.
From stdpp Require Import base numbers strings sets gmap fin_maps fin_sets list.
From S2P Require Import Prelude GoStd Json GoStrings External Settings Convo Conversation Wp Gui.

(** ** Conversations *)

Definition has_key (c : Conversation) : Prop :=
  is_u32 (sessionKeyRound c) ∧ ∃ key, sessionKey c = Some key ∧ length key = 32%nat.

(** A key of the right size from a round on. *)
Definition wheel_ok (wheel : keywheelStart) : Prop :=
  is_u32 (convoRound_ wheel) ∧ ∃ key, wheel_sessionKey wheel = Some key ∧ length key = 32%nat.

(** A call that waits has a key. *)
Definition held_ok (c : Conversation) : Prop := ∀ w, pendingCall c = Some w → wheel_ok w.

Lemma has_key_keyed c : has_key c → ∃ key, length key = 32%nat ∧ keyed key (sessionKeyRound c) c.
Proof.
  intros (Hr & key & Hk & Hl). exists key. split; [done|]. unfold is_u32 in Hr.
  split; [lia|]. split; [done|]. rewrite Z.sub_diag. done.
Qed.

Lemma wf_zero peer my : wf_conversation (Init (zero_Conversation peer my)).
Proof. constructor; cbn; unfold is_u32; try lia. constructor. Qed.

Lemma drop_acked_wf base acked queue last :
  -1 <= last → Forall (λ m, is_u32 (RelativeSeq m)) queue →
  -1 <= (drop_acked base acked queue last).2 ∧
  Forall (λ m, is_u32 (RelativeSeq m)) (drop_acked base acked queue last).1.
Proof.
  revert last. induction queue as [|m queue IH]; intros last Hl Hq; [done|].
  apply Forall_cons in Hq as [Hm Hq]. cbn [drop_acked].
  destruct (decide (0 < base ∧ u32 (RelativeSeq m + base) <= acked)).
  - apply IH; [case_decide; lia|done].
  - specialize (IH last Hl Hq). destruct (drop_acked base acked queue last) as [q l]. cbn in *.
    split; [tauto|]. constructor; tauto.
Qed.

Lemma drain_acked fuel i queue acked :
  is_u32 i → is_u32 acked → is_u32 (drain fuel i queue acked).2.
Proof.
  revert i queue acked. induction fuel as [|fuel IH]; intros i queue acked Hi Ha; [done|].
  cbn [drain]. destruct (queue !! i); [|done].
  specialize (IH (u32 (i + 1)) (delete i queue) i (u32_range _) Hi).
  by destruct (drain _ _ _ _) as [[? ?] ?].
Qed.

(** What an operation of a conversation keeps besides: names, key and focus. *)
Definition benign (c c' : Conversation) : Prop :=
  peerUsername c' = peerUsername c ∧ myUsername c' = myUsername c ∧ focused c' = focused c ∧
  (has_key c → has_key c') ∧ (held_ok c → held_ok c') ∧ (wf_conversation c → wf_conversation c').

#[export] Instance benign_preorder : PreOrder benign.
Proof.
  split; [by intros c; unfold benign|]. intros a b c (? & ? & ? & ? & ? & ?) (? & ? & ? & ? & ? & ?).
  unfold benign. split_and!; [congruence..|by auto|by auto|by auto].
Qed.

(** For an operation that leaves names, key and focus alone. *)
Lemma benign_intro c c' :
  peerUsername c' = peerUsername c → myUsername c' = myUsername c → focused c' = focused c →
  sessionKey c' = sessionKey c → sessionKeyRound c' = sessionKeyRound c →
  pendingCall c' = pendingCall c → (wf_conversation c → wf_conversation c') → benign c c'.
Proof.
  intros E1 E2 E3 E4 E5 E6 Hw. unfold benign, has_key, held_ok. rewrite E4, E5, E6. by split_and!.
Qed.

Lemma benign_flags c r u p : benign c (set_lastPeerResponding p (set_unread u (set_rounds r c))).
Proof. apply benign_intro; try done. by intros []; constructor. Qed.

Lemma benign_set_unread u c : benign c (set_unread u c).
Proof. apply benign_intro; try done. by intros []; constructor. Qed.

Lemma benign_mark_unread c : benign c (mark_unread c).
Proof. unfold mark_unread. destruct (focused c); [done|apply benign_set_unread]. Qed.

Lemma benign_Printf view c : benign c (Printf view c).
Proof. destruct view; [apply benign_mark_unread|done]. Qed.

Lemma benign_Queue view msg c : benign c (QueueTextMessage view msg c).
Proof.
  unfold QueueTextMessage. etrans; [|apply benign_Printf].
  apply benign_intro; try done. intros []. constructor; cbn; try done; [apply u32_range|].
  apply Forall_app. split; [done|]. constructor; [done|constructor].
Qed.

Lemma benign_receive l msg c : is_u32 (Seq msg) → benign c (receive l msg c).1.
Proof.
  intros Hs. unfold receive. cbv zeta. cbn -[drain drop_acked].
  pose proof (drop_acked_wf (seqBase c) (Ack msg) (outQueue c) (lastOut c)) as Hq.
  destruct (drop_acked _ _ _ _) as [q o]. cbn -[drain] in Hq |- *.
  destruct (decide (ack c < Seq msg)) as [Hlt|Hlt].
  - assert (Hacked : ∀ b fuel queue, is_u32 (ack c) →
        is_u32 (drain fuel (u32 ((if b : bool then u32 (Seq msg - 1) else ack c) + 1)) queue
                  (if b then u32 (Seq msg - 1) else ack c)).2).
    { intros b fuel queue Ha. apply drain_acked; [apply u32_range|]. destruct b; [apply u32_range|done]. }
    destruct (Lowest msg); cbn -[drain];
      [specialize (Hacked true)|specialize (Hacked false)]; cbn [negb] in Hacked;
      match goal with |- context [drain ?f ?i ?q ?a] => specialize (Hacked f q) end;
      destruct (drain _ _ _ _) as [[t q'] a]; cbn in Hacked |- *;
      (apply benign_intro; try done; intros []; constructor; cbn; tauto).
  - apply benign_intro; try done. intros []. constructor; cbn; tauto.
Qed.

Lemma Unmarshal_range msg cm0 :
  is_u32 (Seq cm0) → is_u32 (Seq (ConvoMessage_Unmarshal msg cm0).1).
Proof.
  intros H0. unfold ConvoMessage_Unmarshal. destruct (decide (length msg ≠ SizeMessageBody)); [done|].
  rewrite !go_bind_unfold. cbn [lift].
  repeat match goal with
  | |- context [slice ?a ?b msg] => destruct (slice a b msg); [|done]
  | |- context [msg !! ?i] => destruct (msg !! i); [|done]
  end. apply BigEndian.get32_range.
Qed.

Section conversations.
Context `{NaClLaws}.

(** [NextMessage] of a conversation with a key. *)
Lemma NextMessage_total now dummy round c :
  wf_conversation c → has_key c → is_u32 round → wf_message dummy →
  ∃ c' m, NextMessage now dummy round c = (c', Ret m) ∧ wf_message m ∧ benign c c'.
Proof.
  intros Hwf Hk Hr Hd.
  destruct (compose_total round (set_lastRound round c)) as (base & last & msg & Ec & _ & _ & Hb & Hl);
    [by destruct Hwf|].
  assert (Hben : ∀ k r rs, (has_key c → has_key (set_sessionKeyRound r (set_sessionKey k c))) →
    benign c (set_rounds rs (set_sessionKeyRound r (set_sessionKey k
       (set_lastOut last (set_seqBase base (set_lastRound round c))))))).
  { intros k r rs Hkr. split; [done|]. split; [done|]. split; [done|]. split; [exact Hkr|].
    split; [done|]. intros []. by constructor. }
  destruct (decide (round < sessionKeyRound c)) as [Hlt|Hge].
  - eexists _, dummy. split.
    + unfold NextMessage. rewrite go_bind_unfold. cbn [modify]. rewrite go_bind_unfold, Ec.
      rewrite go_bind_unfold, rollAndReplaceKey_run. rewrite rollKey_past by exact Hlt. reflexivity.
    + split; [done|]. specialize (Hben (sessionKey c) (sessionKeyRound c) (rounds c)).
      destruct c. apply Hben. done.
  - destruct (has_key_keyed c Hk) as (key & Hlen & Hkeyed).
    eexists _, _. split; [apply (NextMessage_run now dummy round c key (sessionKeyRound c) base last msg); [done|done|lia|done|exact Ec]|].
    split; [split|].
    + apply length_deadDrop.
    + cbn. by rewrite length_secretbox_Seal, length_ConvoMessage_Marshal.
    + apply Hben. intros _. split; [done|]. eexists. split; [done|]. by apply length_roll.
Qed.

Lemma Reply_total now round e c :
  ∃ c' r, Reply now round e c = (c', Ret r) ∧ benign c c'.
Proof.
  pose proof (Reply_run now round e c) as HR.
  assert (Hb : benign c (reply_outcome now round e c).1).
  { unfold reply_outcome. destruct (rounds c !! round) as [st|]; [|done].
    destruct (decide (e = sentMessage st ∧ Solo c = false)); [done|].
    destruct (Open _ _ _ _) as [data|]; [|done].
    pose proof (Unmarshal_range data (mkConvoMessage 0 0 false [])) as Hu.
    destruct (ConvoMessage_Unmarshal _ _) as [msg [| | |]]; try done.
    apply benign_receive, Hu. unfold is_u32. cbn. lia. }
  destruct (reply_outcome now round e c) as [c1 r]. destruct HR as [u ->].
  eexists _, r. split; [done|]. etrans; [exact Hb|]. apply benign_flags.
Qed.

End conversations.

(** ** The client *)

Section gui.
Context `{NaClLaws} `{Gocui} `{Ansi}.
Implicit Types s : GuiClient.

(** The invariant is one of the heap, the active and pending conversations, the windows and
    the selected one; the screen, the events and the flags are free. *)
Record wf_fields (name : string) (heap : gmap loc Conversation) (act : gset loc)
    (pending : gmap Z (list loc)) (windows : list loc) (selected : option loc) : Prop := {
  wf_heap p c : heap !! p = Some c → wf_conversation c;
  wf_mine p c : heap !! p = Some c → myUsername c = name;
  wf_held p c : heap !! p = Some c → held_ok c;
  wf_active p : p ∈ act → ∃ c, heap !! p = Some c ∧ has_key c;
  wf_size : (size act ≤ NumOutgoing)%nat;
  wf_pending r ps : pending !! r = Some ps →
    (length ps ≤ NumOutgoing)%nat ∧ NoDup ps ∧ ∀ p, p ∈ ps → is_Some (heap !! p);
  wf_windows p : p ∈ windows → is_Some (heap !! p);
  wf_distinct : NoDup windows;
  wf_names p q c d : p ∈ windows → q ∈ windows → heap !! p = Some c → heap !! q = Some d →
    peerUsername c = peerUsername d → p = q;
  wf_selected p : selected = Some p → p ∈ windows;
  wf_focus p c : heap !! p = Some c → (focused c = true ↔ selected = Some p);
  wf_named p c : heap !! p = Some c → peerUsername c ≠ ""
}.

Definition wf_gui s : Prop :=
  wf_fields (myName s) (convos s) (active s) (pendingRounds s) (conversations s) (selectedConvo s).

(** An operation that keeps the invariant whether or not it returns an error, and that
    does not panic. *)
Definition keeps {A} (m : go GuiClient gui_error A) : Prop :=
  ∀ s, wf_gui s → wp m (λ _, wf_gui) (λ _, wf_gui) s.

(** A heap of the same conversations, up to what [benign] lets change. *)
Lemma wf_benign name heap heap' act pending windows selected :
  wf_fields name heap act pending windows selected →
  (∀ p, is_Some (heap' !! p) → is_Some (heap !! p)) →
  (∀ p c, heap !! p = Some c → ∃ c', heap' !! p = Some c' ∧ benign c c') →
  wf_fields name heap' act pending windows selected.
Proof.
  intros [] Hd Hb.
  assert (Hs : ∀ p, is_Some (heap !! p) → is_Some (heap' !! p)).
  { intros p [c Hc]. destruct (Hb p c Hc) as (c' & -> & _). done. }
  assert (Hinv : ∀ p c', heap' !! p = Some c' → ∃ c, heap !! p = Some c ∧ benign c c').
  { intros p c' Hc'. destruct (Hd p) as [c Hc]; [by eexists|]. exists c. split; [done|].
    destruct (Hb p c Hc) as (c2 & Hc2 & ?). congruence. }
  constructor; try done.
  - intros p c' (c & Hc & Hcc)%Hinv. apply Hcc. by apply (wf_heap0 p).
  - intros p c' (c & Hc & _ & -> & _)%Hinv. by apply (wf_mine0 p).
  - intros p c' (c & Hc & Hcc)%Hinv. apply Hcc. by apply (wf_held0 p).
  - intros p (c & Hc & Hk)%wf_active0. destruct (Hb p c Hc) as (c' & Hc' & Hcc). exists c'. split; [done|].
    by apply Hcc.
  - intros r ps (Hl & Hn & Hps)%wf_pending0. eauto.
  - eauto.
  - intros p q c d Hp Hq (c0 & Hc0 & Ec & _)%Hinv (d0 & Hd0 & Ed & _)%Hinv E.
    apply (wf_names0 p q c0 d0); congruence.
  - intros p c' (c & Hc & _ & _ & -> & _)%Hinv. by apply wf_focus0.
  - intros p c' (c & Hc & -> & _)%Hinv. by apply (wf_named0 p).
Qed.

Lemma wf_alter p f s :
  wf_gui s → (∀ c, convos s !! p = Some c → benign c (f c)) →
  wf_gui (set_convos (alter f p (convos s)) s).
Proof.
  intros Hwf Hf. apply (wf_benign _ (convos s)); [exact Hwf| |].
  - intros q. cbn. by rewrite lookup_alter_is_Some.
  - intros q c Hc. cbn. destruct (decide (p = q)) as [<-|Hne].
    + rewrite lookup_alter_eq, Hc. eauto.
    + rewrite lookup_alter_ne by done. by exists c.
Qed.

Lemma wf_insert p c c' s :
  wf_gui s → convos s !! p = Some c → benign c c' → wf_gui (set_convos (<[p := c']> (convos s)) s).
Proof.
  intros Hwf Hc Hb. apply (wf_benign _ (convos s)); [exact Hwf| |].
  - intros q. cbn. destruct (decide (p = q)) as [<-|Hne]; [by rewrite Hc|by rewrite lookup_insert_ne].
  - intros q d Hd. cbn. destruct (decide (p = q)) as [<-|Hne].
    + rewrite lookup_insert_eq. assert (d = c) as -> by congruence. eauto.
    + rewrite lookup_insert_ne by done. by exists d.
Qed.

(** *** Operations on one conversation *)

Lemma deref_wp p c s Q (R : gui_error → GuiClient → Prop) :
  convos s !! p = Some c → Q c s → wp (deref p) Q R s.
Proof. intros Hc HQ. unfold deref. wp_steps. by rewrite (wp_lift_Some _ c). Qed.

(** A conversation keeps its place and its name whatever is printed. *)
Definition alive p s : Prop := is_Some (convos s !! p).

Lemma convo_Printf_keeps stamp p text s :
  wf_gui s → alive p s →
  wp (convo_Printf stamp p text) (λ _ s', wf_gui s' ∧ dom (convos s') = dom (convos s)) (λ _ _, False) s.
Proof.
  intros Hwf [c Hc]. unfold convo_Printf. wp_steps. apply (deref_wp p c); [done|]. wp_steps.
  assert (Hf : ∀ view s', wf_gui s' → convos s' = convos s →
    wf_gui (set_convos (alter (Printf view) p (convos s')) s') ∧
    dom (alter (Printf view) p (convos s')) = dom (convos s)).
  { intros view s' Hs' E. split; [apply wf_alter; [done|intros; apply benign_Printf]|].
    by rewrite dom_alter_L, E. }
  destruct (screen_View (ViewName c) (gui s)); unfold write, modify_convo; wp_steps; by apply Hf.
Qed.

Lemma convo_PrintfSync_keeps stamp p text s :
  wf_gui s → alive p s →
  wp (convo_PrintfSync stamp p text) (λ _ s', wf_gui s' ∧ dom (convos s') = dom (convos s)) (λ _ _, False) s.
Proof.
  intros Hwf [c Hc]. unfold convo_PrintfSync. wp_steps. apply (deref_wp p c); [done|].
  unfold write_sync. wp_steps.
  assert (Hf : ∀ s', wf_gui s' → convos s' = convos s →
    wf_gui (set_convos (alter PrintfSync p (convos s')) s') ∧
    dom (alter PrintfSync p (convos s')) = dom (convos s)).
  { intros s' Hs' E. split; [apply wf_alter; [done|intros; apply benign_mark_unread]|].
    by rewrite dom_alter_L, E. }
  destruct (screen_View (ViewName c) (gui s)); unfold write, event, modify_convo; wp_steps; by apply Hf.
Qed.

Lemma gc_Printf_keeps text s :
  wf_gui s → wp (gc_Printf text) (λ _ s', wf_gui s' ∧ convos s' = convos s ∧ conversations s' = conversations s)
    (λ _ _, False) s.
Proof.
  intros Hwf. unfold gc_Printf. wp_steps. destruct (screen_View "main" (gui s)); unfold write; wp_steps; done.
Qed.

Lemma gc_PrintfSync_keeps text s :
  wf_gui s → wp (gc_PrintfSync text) (λ _ s', wf_gui s' ∧ convos s' = convos s) (λ _ _, False) s.
Proof.
  intros Hwf. unfold gc_PrintfSync, write_sync. wp_steps.
  destruct (screen_View "main" (gui s)); unfold write, event; wp_steps; done.
Qed.

Lemma run_mark_keeps : keeps run_mark.
Proof.
  intros s Hwf. unfold run_mark. wp_steps. destruct (marks s); wp_steps; [done|].
  destruct (decide (is_Some (selectedConvo s))); wp_steps; exact Hwf.
Qed.

Lemma convo_QueueTextMessage_keeps stamp p msg s :
  wf_gui s → alive p s → wp (convo_QueueTextMessage stamp p msg) (λ _, wf_gui) (λ _ _, False) s.
Proof.
  intros Hwf [c Hc]. unfold convo_QueueTextMessage. wp_steps. apply (deref_wp p c); [done|].
  unfold modify_convo. wp_steps.
  assert (Hs : wf_gui (set_convos (alter (QueueTextMessage (screen_View (ViewName c) (gui s)) (str msg)) p
                         (convos s)) s)).
  { apply wf_alter; [done|]. intros. apply benign_Queue. }
  destruct (screen_View (ViewName c) (gui s)); unfold write; wp_steps; exact Hs.
Qed.

(** *** Rounds *)

Lemma run_convo_run {A} p c (m : go Conversation conversation_error A) c' a s :
  convos s !! p = Some c → m c = (c', Ret a) →
  run_convo p m s = (set_convos (<[p := c']> (convos s)) s, Ret a).
Proof. intros Hc Hm. unfold run_convo. by rewrite Hc, Hm. Qed.

(** The messages of a round, each from its conversation. *)
Lemma next_messages_run now coins round i order s :
  wf_gui s → NoDup order → (∀ p, p ∈ order → p ∈ active s) → is_u32 round → (∀ j, wf_message (coins j)) →
  ∃ heap out, next_messages now coins round i order s = (set_convos heap s, Ret out) ∧
    wf_gui (set_convos heap s) ∧ Forall wf_message out ∧ length out = length order ∧
    (∀ j p c, order !! j = Some p → convos s !! p = Some c → ∃ c' m,
       NextMessage (now (i + j)%nat) (coins (i + j)%nat) round c = (c', Ret m) ∧
       out !! j = Some m ∧ heap !! p = Some c') ∧
    (∀ p, p ∉ order → heap !! p = convos s !! p).
Proof.
  intros Hwf Hnd Hact Hr Hcoins. revert i s Hwf Hact.
  induction Hnd as [|p order Hp Hnd IH]; intros i s Hwf Hact.
  { exists (convos s), []. split; [by destruct s|]. split; [exact Hwf|]. repeat split; try done. }
  destruct (wf_active _ _ _ _ _ _ Hwf p) as (c & Hc & Hk); [apply Hact; by left|].
  destruct (NextMessage_total (now i) (coins i) round c) as (c' & m & Em & Hm & Hb); [|done|done|done|].
  { by apply (wf_heap _ _ _ _ _ _ Hwf p). }
  cbn [next_messages]. rewrite go_bind_unfold, (run_convo_run p c _ c' m s Hc Em).
  destruct (IH (S i) (set_convos (<[p:=c']> (convos s)) s)) as (heap & out & E & Hwf' & Hout & Hlen & Hat & Hother).
  { by apply (wf_insert p c). }
  { intros q Hq. apply Hact. by right. }
  rewrite go_bind_unfold, E. exists heap, (m :: out). split; [done|]. split; [exact Hwf'|].
  split; [by constructor|]. split; [cbn; lia|]. split.
  - intros [|j] q d Hq Hd.
    + injection Hq as <-. assert (d = c) as -> by congruence. exists c', m. rewrite Nat.add_0_r.
      split; [done|]. split; [done|]. rewrite Hother by done. apply lookup_insert_eq.
    + assert (Hpq : p ≠ q). { intros ->. apply Hp. by apply (list_elem_of_lookup_2 order j). }
      destruct (Hat j q d Hq) as (c2 & m2 & ? & ? & ?); [cbn; by rewrite lookup_insert_ne|].
      exists c2, m2. rewrite Nat.add_succ_r. done.
  - intros q Hq. apply not_elem_of_cons in Hq as [? ?]. rewrite Hother by done. cbn.
    by rewrite lookup_insert_ne.
Qed.

Lemma active_order order s :
  wf_gui s → order ≡ₚ elements (active s) →
  NoDup order ∧ (length order ≤ NumOutgoing)%nat ∧ ∀ p, p ∈ order → p ∈ active s.
Proof.
  intros Hwf Ho. split; [rewrite Ho; apply NoDup_elements|]. split.
  - rewrite Ho. exact (wf_size _ _ _ _ _ _ Hwf).
  - intros p. rewrite Ho. apply elem_of_elements.
Qed.

Lemma Outgoing_run now coins order round s :
  wf_gui s → order ≡ₚ elements (active s) → is_u32 round → (∀ j, wf_message (coins j)) →
  ∃ heap out,
    Outgoing now coins order round s =
      (set_pendingRounds (<[round := order]> (pendingRounds s)) (set_convos heap s), Ret out) ∧
    wf_gui (set_pendingRounds (<[round := order]> (pendingRounds s)) (set_convos heap s)) ∧
    length out = NumOutgoing ∧ Forall wf_message out ∧
    (∀ j p c, order !! j = Some p → convos s !! p = Some c → ∃ c' m,
       NextMessage (now j) (coins j) round c = (c', Ret m) ∧ out !! j = Some m ∧ heap !! p = Some c') ∧
    (∀ j, (length order ≤ j < NumOutgoing)%nat → out !! j = Some (coins j)) ∧
    (∀ p, p ∉ order → heap !! p = convos s !! p).
Proof.
  intros Hwf Ho Hr Hcoins. destruct (active_order order s Hwf Ho) as (Hnd & Hlen & Hact).
  destruct (next_messages_run now coins round 0 order s Hwf Hnd Hact Hr Hcoins)
    as (heap & out & E & Hwf' & Hout & Hl & Hat & Hother).
  exists heap. eexists. split.
  { unfold Outgoing. rewrite go_bind_unfold, E. reflexivity. }
  split; [|split; [|split; [|split; [|split; [|done]]]]].
  - destruct Hwf' as [h1 h0 hh h2 h3 h4 h5 h6 h7 h8 h9 h10]. constructor; try done. cbn. intros r ps Hps.
    apply lookup_insert_Some in Hps as [[<- <-]|[_ Hps]]; [|by apply (h4 r)].
    split; [done|]. split; [done|]. intros p Hp. destruct (h2 p) as (c & Hc & _); [by apply Hact|]. by exists c.
  - rewrite length_app, length_fmap, length_seq. lia.
  - apply Forall_app. split; [done|]. apply Forall_fmap, Forall_true. intros. apply Hcoins.
  - intros j p c Hp Hc. destruct (Hat j p c Hp Hc) as (c' & m & ? & Hm & ?). exists c', m.
    split; [done|]. split; [|done]. apply lookup_app_l_Some. exact Hm.
  - intros j Hj. rewrite lookup_app_r, list_lookup_fmap by lia. rewrite lookup_seq_lt by lia. cbn.
    do 2 f_equal. lia.
Qed.

(** What is shown does not touch the conversations. *)
Lemma show_run stamp c texts s :
  ∃ g es, show stamp c texts s = (set_gui g (set_gui_events es s), Ret ()).
Proof.
  revert s. induction texts as [|t texts IH]; intros s; [exists (gui s), (gui_events s); by destruct s|].
  cbn [show]. rewrite go_bind_unfold. unfold write_sync at 1. rewrite go_bind_unfold. cbn [get].
  destruct (screen_View (ViewName c) (gui s)); unfold write, event; cbn [modify]; rewrite go_bind_unfold;
    cbn [modify]; match goal with |- context [show stamp c texts ?s'] => destruct (IH s') as (g & es & ->) end;
    by exists g, es.
Qed.

Lemma convo_Reply_run stamp now round e p c s :
  convos s !! p = Some c →
  ∃ c' r g es, Reply now round e c = (c', Ret r) ∧ benign c c' ∧
    convo_Reply stamp now round e p s =
      (set_gui g (set_gui_events es (set_convos (<[p := c']> (convos s)) s)), Ret ()).
Proof.
  intros Hc. destruct (Reply_total now round e c) as (c' & r & Er & Hb). exists c', r.
  unfold convo_Reply. rewrite go_bind_unfold, (run_convo_run p c _ c' r s Hc Er).
  assert (Hdone : ∃ g es, (mret () : go GuiClient gui_error unit) (set_convos (<[p:=c']> (convos s)) s) =
    (set_gui g (set_gui_events es (set_convos (<[p := c']> (convos s)) s)), Ret ()))
    by (exists (gui s), (gui_events s); by destruct s).
  destruct r as [| | | |texts]; try (destruct Hdone as (g & es & E); exists g, es; done).
  rewrite go_bind_unfold. unfold deref. rewrite go_bind_unfold. cbn [get lift].
  change (convos (set_convos ?h s)) with h. rewrite lookup_insert_eq. cbn [or_panic].
  destruct (show_run stamp c' texts (set_convos (<[p:=c']> (convos s)) s)) as (g & es & ->). by exists g, es.
Qed.

Lemma reply_all_run stamp now round replies i ps s :
  wf_gui s → NoDup ps → (∀ p, p ∈ ps → alive p s) → (i + length ps ≤ length replies)%nat →
  ∃ heap g es, reply_all stamp now round replies i ps s =
      (set_gui g (set_gui_events es (set_convos heap s)), Ret ()) ∧
    wf_gui (set_convos heap s) ∧
    (∀ j p c e, ps !! j = Some p → convos s !! p = Some c → replies !! (i + j)%nat = Some e → ∃ c' r,
       Reply (now (i + j)%nat) round e c = (c', Ret r) ∧ heap !! p = Some c') ∧
    (∀ p, p ∉ ps → heap !! p = convos s !! p).
Proof.
  intros Hwf Hnd. revert i s Hwf. induction Hnd as [|p ps Hp Hnd IH]; intros i s Hwf Hal Hlen.
  { exists (convos s), (gui s), (gui_events s). split; [by destruct s|]. split; [exact Hwf|]. by split. }
  destruct (Hal p) as [c Hc]; [by left|]. cbn [length] in Hlen.
  destruct (lookup_lt_is_Some_1 replies i) as [e He]; [lia|].
  cbn [reply_all]. rewrite go_bind_unfold, He. cbn [or_panic lift]. rewrite go_bind_unfold.
  destruct (convo_Reply_run stamp (now i) round e p c s Hc) as (c' & r & g & es & Er & Hb & ->).
  destruct (IH (S i) (set_gui g (set_gui_events es (set_convos (<[p := c']> (convos s)) s))))
    as (heap & g' & es' & E & Hwf' & Hat & Hother).
  { by apply (wf_insert p c). }
  { intros q Hq. unfold alive. cbn. destruct (decide (p = q)) as [<-|]; [by rewrite lookup_insert_eq|].
    rewrite lookup_insert_ne by done. apply Hal. by right. }
  { lia. }
  exists heap, g', es'. split; [exact E|]. split; [exact Hwf'|]. split.
  - intros [|j] q d x Hq Hd Hx.
    + injection Hq as <-. rewrite Nat.add_0_r in *. assert (d = c) as -> by congruence.
      assert (x = e) as -> by congruence. exists c', r. split; [done|]. rewrite Hother by done. apply lookup_insert_eq.
    + assert (Hpq : p ≠ q). { intros ->. apply Hp. by apply (list_elem_of_lookup_2 ps j). }
      rewrite Nat.add_succ_r in *. apply (Hat j q d x Hq); [cbn; by rewrite lookup_insert_ne|done].
  - intros q Hq. apply not_elem_of_cons in Hq as [? ?]. rewrite Hother by done. cbn.
    by rewrite lookup_insert_ne.
Qed.

Lemma Replies_run stamp now round replies s ps :
  wf_gui s → default [] (pendingRounds s !! round) = ps → (length ps ≤ length replies)%nat →
  ∃ heap g es, Replies stamp now round replies s =
      (set_gui g (set_gui_events es (set_convos heap
         (set_pendingRounds (delete round (pendingRounds s)) s))), Ret ()) ∧
    wf_gui (set_convos heap (set_pendingRounds (delete round (pendingRounds s)) s)) ∧
    (∀ j p c e, ps !! j = Some p → convos s !! p = Some c → replies !! j = Some e → ∃ c' r,
       Reply (now j) round e c = (c', Ret r) ∧ heap !! p = Some c') ∧
    (∀ p, p ∉ ps → heap !! p = convos s !! p).
Proof.
  intros Hwf Hps Hlen. unfold Replies. rewrite go_bind_unfold. cbn [get]. rewrite Hps, go_bind_unfold.
  cbn [modify].
  assert (Hpend : NoDup ps ∧ ∀ p, p ∈ ps → is_Some (convos s !! p)).
  { subst ps. destruct (pendingRounds s !! round) as [l|] eqn:E; [|split; [constructor|by intros ? ?%elem_of_nil]].
    by destruct (wf_pending _ _ _ _ _ _ Hwf round l E) as (_ & ? & ?). }
  apply (reply_all_run stamp now round replies 0 ps (set_pendingRounds (delete round (pendingRounds s)) s));
    [|apply Hpend..|done].
  destruct Hwf as [h1 h0 hh h2 h3 h4 h5 h6 h7 h8 h9 h10]. constructor; try done. cbn.
  intros r l [_ Hl]%lookup_delete_Some. by apply (h4 r).
Qed.

(** *** Active conversations *)

Lemma benign_start_session wheel c : wheel_ok wheel → benign c (start_session wheel c).
Proof.
  intros [Hr Hk]. unfold benign. split_and!; try done. intros []. constructor; cbn; try done.
Qed.

Lemma activateConvo_run p wheel s :
  activateConvo p wheel s =
    if decide (size (active s) < NumOutgoing)%nat
    then (set_convos (alter (start_session wheel) p (convos s)) (set_active ({[p]} ∪ active s) s), Ret true)
    else (s, Ret false).
Proof.
  unfold activateConvo. rewrite go_bind_unfold. cbn [get].
  by destruct (decide (size (active s) < NumOutgoing)%nat).
Qed.

Lemma wf_activate p wheel s :
  wf_gui s → alive p s → wheel_ok wheel → (size (active s) < NumOutgoing)%nat →
  wf_gui (set_convos (alter (start_session wheel) p (convos s)) (set_active ({[p]} ∪ active s) s)).
Proof.
  intros Hwf [c Hc] Hw Hs.
  pose proof (wf_alter p (start_session wheel) s Hwf (λ c _, benign_start_session wheel c Hw)) as Hwf'.
  destruct Hwf' as [h1 h0 hh h2 h3 h4 h5 h6 h7 h8 h9 h10]. constructor; try done; cbn in *.
  - intros q Hq. destruct (decide (q = p)) as [->|Hne]; [|apply h2; set_solver].
    rewrite lookup_alter_eq, Hc. cbn. eexists. split; [done|]. exact Hw.
  - rewrite size_union_alt, size_singleton. pose proof (subseteq_size (active s ∖ {[p]}) (active s)) as Hle.
    specialize (Hle ltac:(set_solver)). lia.
Qed.

Lemma deactivateConvo_run p s :
  deactivateConvo p s =
    (set_active (active s ∖ {[p]}) s, Ret (bool_decide (p ∈ active s))).
Proof.
  unfold deactivateConvo. rewrite go_bind_unfold. cbn [get]. destruct (decide (p ∈ active s)) as [Hp|Hp].
  - by rewrite bool_decide_eq_true_2.
  - rewrite bool_decide_eq_false_2 by done. rewrite difference_disjoint_L by set_solver. by destruct s.
Qed.

Lemma wf_deactivate p s : wf_gui s → wf_gui (set_active (active s ∖ {[p]}) s).
Proof.
  intros [h1 h0 hh h2 h3 h4 h5 h6 h7 h8 h9 h10]. constructor; try done; cbn.
  - intros q Hq. apply h2. set_solver.
  - pose proof (subseteq_size (active s ∖ {[p]}) (active s)) as Hle. specialize (Hle ltac:(set_solver)). lia.
Qed.

(** *** Windows *)

Lemma gui_op_run f s :
  gui_op f s = (set_gui (f (gui s)).1 s, match (f (gui s)).2 with None => Ret () | Some e => Err e end).
Proof.
  unfold gui_op. rewrite go_bind_unfold. cbn [get]. destruct (f (gui s)) as [g [e|]]; done.
Qed.

Lemma setViewOnTop_screen view s : ∃ g r, setViewOnTop view s = (set_gui g s, r) ∧ (r = Ret () ∨ ∃ e, r = Err e).
Proof.
  unfold setViewOnTop. rewrite go_bind_unfold, gui_op_run.
  destruct (screen_SetViewOnTop view (gui s)).2 as [e|]; [by eauto 6|].
  rewrite gui_op_run. cbn. destruct (screen_SetViewOnTop "status" _).2 as [e|]; by eauto 6.
Qed.

Lemma find_convo_run username ps s :
  (∀ p, p ∈ ps → alive p s) →
  ∃ r, find_convo username ps s = (s, Ret r) ∧
    match r with
    | Some p => p ∈ ps ∧ ∃ c, convos s !! p = Some c ∧ peerUsername c = username
    | None => ∀ p c, p ∈ ps → convos s !! p = Some c → peerUsername c ≠ username
    end.
Proof.
  induction ps as [|p ps IH]; intros Hal.
  { exists None. split; [done|]. by intros p c ?%elem_of_nil. }
  destruct (Hal p) as [c Hc]; [by left|]. cbn [find_convo]. rewrite go_bind_unfold.
  unfold deref. rewrite go_bind_unfold. cbn [get lift]. rewrite Hc. cbn [or_panic].
  destruct (decide (peerUsername c = username)) as [E|E].
  - exists (Some p). split; [done|]. split; [by left|]. by exists c.
  - destruct IH as (r & -> & Hr); [intros q Hq; apply Hal; by right|]. exists r. split; [done|].
    destruct r as [q|].
    + destruct Hr as (? & ?). split; [by right|done].
    + intros q d [->|Hq]%elem_of_cons Hd; [congruence|by apply (Hr q)].
Qed.

Lemma focus_new (heap : gmap loc Conversation) selected p c (windows : list loc) :
  (∀ q, selected = Some q → q ∈ windows) → (∀ q, q ∈ windows → is_Some (heap !! q)) → heap !! p = None →
  focused c = false → (focused c = true ↔ selected = Some p).
Proof.
  intros Hs Hw Hp ->. split; [done|]. intros E. destruct (Hw p (Hs p E)). congruence.
Qed.

(** The client with one more window. *)
Definition open_window (p : loc) (username : string) s : GuiClient :=
  set_conversations (conversations s ++ [p])
    (set_convos (<[p := Init (zero_Conversation username (myName s))]> (convos s)) s).

Lemma wf_open_window p username s :
  wf_gui s → username ≠ "" → convos s !! p = None →
  (∀ q c, q ∈ conversations s → convos s !! q = Some c → peerUsername c ≠ username) →
  wf_gui (open_window p username s).
Proof.
  intros [h1 h0 hh h2 h3 h4 h5 h6 h7 h8 h9 h10] Hne0 Hp Hu.
  assert (Hne : ∀ q, is_Some (convos s !! q) → p ≠ q) by (intros q [c Hc] <-; congruence).
  constructor; cbn.
  - intros q c [[<- <-]|[_ Hc]]%lookup_insert_Some; [apply wf_zero|by apply (h1 q)].
  - intros q c [[<- <-]|[_ Hc]]%lookup_insert_Some; [done|by apply (h0 q)].
  - intros q c [[<- <-]|[_ Hc]]%lookup_insert_Some; [done|by apply (hh q)].
  - intros q (c & Hc & ?)%h2. exists c. rewrite lookup_insert_ne; [done|]. apply Hne. by exists c.
  - done.
  - intros r ps (? & ? & Hal)%h4. split; [done|]. split; [done|]. intros q Hq%Hal. by rewrite lookup_insert_ne by auto.
  - intros q [Hq%h5| ->%list_elem_of_singleton]%elem_of_app; [by rewrite lookup_insert_ne by auto|].
    by rewrite lookup_insert_eq.
  - apply NoDup_app. split; [done|]. split; [|apply NoDup_singleton].
    intros q Hq ->%list_elem_of_singleton. by apply (Hne p); [apply h5|].
  - intros q q' c d Hq Hq' [[<- <-]|[Hn Hc]]%lookup_insert_Some [[<- <-]|[Hn' Hd]]%lookup_insert_Some E; [done|..].
    + apply elem_of_app in Hq' as [Hq'|Hq'%list_elem_of_singleton]; [|congruence]. by destruct (Hu q' d).
    + apply elem_of_app in Hq as [Hq|Hq%list_elem_of_singleton]; [|congruence]. by destruct (Hu q c).
    + apply elem_of_app in Hq as [Hq|Hq%list_elem_of_singleton]; [|congruence].
      apply elem_of_app in Hq' as [Hq'|Hq'%list_elem_of_singleton]; [|congruence]. by apply (h7 q q' c d).
  - intros q Hq%h8. apply elem_of_app. by left.
  - intros q c [[<- <-]|[_ Hc]]%lookup_insert_Some; [|by apply h9].
    by apply (focus_new (convos s) _ _ _ (conversations s)).
  - intros q c [[<- <-]|[_ Hc]]%lookup_insert_Some; [done|by apply (h10 q)].
Qed.

(** The terminal has room for a window. *)
Definition has_room s : Prop := 1 < (screen_Size (gui s)).1 ∧ 0 < (screen_Size (gui s)).2.

Lemma setConvoView_run `{!GocuiLaws} name maxX maxY s :
  name ≠ "" → 1 < maxX → 0 < maxY → ∃ g, setConvoView name maxX maxY s = (set_gui g s, Ret ()).
Proof.
  intros Hn Hx Hy. unfold setConvoView. rewrite go_bind_unfold. unfold catch. rewrite gui_op_run.
  destruct (SetView_ok name 0 (-1) (maxX - 1) (maxY - 1) (gui s)) as [-> | ->]; [done|lia|lia|..];
    cbn; by eexists.
Qed.

(** The window of a user: found, or new and idle. *)
Lemma getOrCreateConvo_run `{!GocuiLaws} username s :
  wf_gui s → username ≠ "" → has_room s →
  ∃ p g s', getOrCreateConvo username s = (set_gui g s', Ret p) ∧ wf_gui s' ∧
    p ∈ conversations s' ∧ (∃ c, convos s' !! p = Some c ∧ peerUsername c = username) ∧
    (s' = s ∨ convos s !! p = None ∧ s' = open_window p username s).
Proof.
  intros Hwf Hu [Hx Hy]. unfold getOrCreateConvo. rewrite go_bind_unfold. cbn [get].
  destruct (find_convo_run username (conversations s) s) as (r & Er & Hr).
  { intros p Hp. by apply (wf_windows _ _ _ _ _ _ Hwf). }
  rewrite go_bind_unfold, Er. destruct r as [p|].
  - destruct Hr as [Hp Hc]. exists p, (gui s), s. split; [by destruct s|]. split; [done|]. split; [done|].
    split; [done|]. by left.
  - set (p := fresh (dom (convos s))).
    assert (Hp : convos s !! p = None) by (apply not_elem_of_dom, is_fresh).
    rewrite go_bind_unfold. cbn [modify]. rewrite go_bind_unfold. cbn [modify].
    rewrite go_bind_unfold. cbn [get].
    change (gui (set_conversations _ _)) with (gui s). destruct (screen_Size (gui s)) as [maxX maxY] eqn:Esize.
    rewrite go_bind_unfold. cbn [fst snd] in Hx, Hy.
    match goal with |- context [catch _ ?s'] => change s' with (open_window p username s) end.
    destruct (setConvoView_run username maxX maxY (open_window p username s) Hu Hx Hy) as [g Eg].
    unfold catch. rewrite Eg. exists p, g, (open_window p username s). split; [done|].
    split; [by apply wf_open_window|]. split; [apply elem_of_app; right; by left|]. split.
    + eexists. split; [apply lookup_insert_eq|done].
    + right. done.
Qed.

(** *** Focus *)

(** The heap with the focus moved from [prev]. *)
Definition unfocused (prev : option loc) (heap : gmap loc Conversation) : gmap loc Conversation :=
  match prev with Some prev => alter (set_focused false) prev heap | None => heap end.

Lemma unfocus_run prev s : unfocus prev s = (set_convos (unfocused prev (convos s)) s, Ret ()).
Proof. destruct prev; [done|]. by destruct s. Qed.

(** A heap of the same conversations with another one in focus. *)
Lemma wf_refocus name heap heap' act pending windows selected selected' :
  wf_fields name heap act pending windows selected →
  (∀ p, is_Some (heap' !! p) → is_Some (heap !! p)) →
  (∀ p c, heap !! p = Some c → ∃ c', heap' !! p = Some c' ∧ benign c (set_focused (focused c) c') ∧
     (focused c' = true ↔ selected' = Some p)) →
  (∀ p, selected' = Some p → p ∈ windows) →
  wf_fields name heap' act pending windows selected'.
Proof.
  intros Hwf Hd Hb Hsel.
  set (heap0 := map_imap (λ p c', (λ c, set_focused (focused c) c') <$> heap !! p) heap').
  assert (Hwf0 : wf_fields name heap0 act pending windows selected).
  { apply (wf_benign _ heap); [done| |].
    - intros p (c & Hc). unfold heap0 in Hc. rewrite map_lookup_imap in Hc.
      destruct (heap' !! p) eqn:E; [|done]. apply Hd. by rewrite E.
    - intros p c Hc. destruct (Hb p c Hc) as (c' & Hc' & Hcc & _). exists (set_focused (focused c) c').
      split; [|done]. unfold heap0. rewrite map_lookup_imap, Hc'. cbn. by rewrite Hc. }
  assert (H0' : ∀ p c', heap' !! p = Some c' → ∃ c, heap !! p = Some c ∧ heap0 !! p = Some (set_focused (focused c) c') ∧
            (focused c' = true ↔ selected' = Some p)).
  { intros p c' Hc'. destruct (Hd p) as [c Hc]; [by eexists|]. exists c. split; [done|].
    destruct (Hb p c Hc) as (c2 & Hc2 & _ & Hf). assert (c2 = c') as -> by congruence. split; [|done].
    unfold heap0. rewrite map_lookup_imap, Hc'. cbn. by rewrite Hc. }
  destruct Hwf0 as [h1 hm hh h2 h3 h4 h5 h6 h7 h8 h9 h10]. constructor; try done.
  - intros p c' (c & _ & Hc & _)%H0'. destruct (h1 p _ Hc). by constructor.
  - intros p c' (c & _ & Hc & _)%H0'. apply (hm p _ Hc).
  - intros p c' (c & _ & Hc & _)%H0'. exact (hh p _ Hc).
  - intros p Hp. destruct (wf_active _ _ _ _ _ _ Hwf p Hp) as (c & Hc & Hk).
    destruct (Hb p c Hc) as (c' & Hc' & (_ & _ & _ & Hk' & _) & _). exists c'. split; [done|]. by apply Hk'.
  - intros r ps (? & ? & Hal)%h4. split; [done|]. split; [done|]. intros p (c0 & Hc0)%Hal.
    unfold heap0 in Hc0. rewrite map_lookup_imap in Hc0. by destruct (heap' !! p).
  - intros p (c0 & Hc0)%h5. unfold heap0 in Hc0. rewrite map_lookup_imap in Hc0. by destruct (heap' !! p).
  - intros p q c d Hp Hq (c0 & _ & Hc & _)%H0' (d0 & _ & Hd' & _)%H0' E. by apply (h7 p q _ _ Hp Hq Hc Hd').
  - intros p c' (c & _ & _ & Hf)%H0'. done.
  - intros p c' (c & _ & Hc & _)%H0'. apply (h10 p _ Hc).
Qed.

Lemma wf_unfocused name heap act pending windows selected :
  wf_fields name heap act pending windows selected →
  wf_fields name (unfocused selected heap) act pending windows None.
Proof.
  intros Hwf. apply (wf_refocus _ heap _ _ _ _ selected); [exact Hwf| | |done].
  - intros p. destruct selected; cbn; [by rewrite lookup_alter_is_Some|done].
  - intros p c Hc. pose proof (wf_focus _ _ _ _ _ _ Hwf p c Hc) as Hf.
    assert (Hsame : set_focused (focused c) c = c) by (by destruct c).
    destruct selected as [q|]; cbn; [|exists c; split; [done|]; split; [by rewrite Hsame|done]].
    rewrite lookup_alter. destruct (decide (q = p)) as [->|Hne].
    + rewrite Hc. cbn. eexists. split; [done|]. split; [|done].
      change (benign c (set_focused (focused c) c)). by rewrite Hsame.
    + exists c. split; [done|]. split; [by rewrite Hsame|]. split; [|done]. intros E%Hf. congruence.
Qed.

(** The windows may become fewer while none is selected. *)
Lemma wf_fewer name heap act pending windows windows' :
  wf_fields name heap act pending windows None → windows' `sublist_of` windows →
  wf_fields name heap act pending windows' None.
Proof.
  intros [h1 h0 hh h2 h3 h4 h5 h6 h7 h8 h9 h10] Hsub.
  assert (Hin : ∀ p, p ∈ windows' → p ∈ windows) by (intros p Hp; by eapply elem_of_submseteq, sublist_submseteq).
  constructor; try done; [by auto|by eapply sublist_NoDup|].
  intros p q c d ? ?. apply h7; auto.
Qed.

Definition main_focused s : GuiClient :=
  set_mainUnread false (set_selectedConvo None (set_convos (unfocused (selectedConvo s) (convos s)) s)).

Lemma focusMain_run s :
  ∃ g r, focusMain s = (set_gui g (main_focused s), r) ∧ (r = Ret () ∨ ∃ e, r = Err e).
Proof.
  unfold focusMain. rewrite go_bind_unfold. cbn [get].
  rewrite go_bind_unfold, unfocus_run. rewrite go_bind_unfold. cbn [modify]. rewrite go_bind_unfold. cbn [modify].
  match goal with |- context [setViewOnTop "main" ?s'] => destruct (setViewOnTop_screen "main" s') as (g & r & -> & Hr) end.
  by exists g, r.
Qed.

Lemma focusMain_wp s : wf_gui (main_focused s) → wp focusMain (λ _, wf_gui) (λ _, wf_gui) s.
Proof. intros Hwf. unfold wp. destruct (focusMain_run s) as (g & r & -> & [->|[e ->]]); exact Hwf. Qed.

Lemma focusMain_keeps : keeps focusMain.
Proof. intros s Hwf. apply focusMain_wp. exact (wf_unfocused _ _ _ _ _ _ Hwf). Qed.

Lemma focusConvo_keeps p s :
  wf_gui s → p ∈ conversations s →
  wp (focusConvo p) (λ _ s', wf_gui s' ∧ dom (convos s') = dom (convos s) ∧ conversations s' = conversations s)
     (λ _ s', wf_gui s' ∧ dom (convos s') = dom (convos s) ∧ conversations s' = conversations s) s.
Proof.
  intros Hwf Hp. unfold focusConvo. unfold wp. rewrite go_bind_unfold. cbn [get].
  rewrite go_bind_unfold, unfocus_run. rewrite go_bind_unfold. cbn [modify].
  rewrite go_bind_unfold. unfold modify_convo. cbn [modify]. rewrite go_bind_unfold. unfold deref at 1.
  rewrite go_bind_unfold. cbn [get lift].
  destruct (wf_windows _ _ _ _ _ _ Hwf p Hp) as [c0 Hc0].
  set (s' := set_convos (alter (λ c, set_focused true (set_unread false c)) p (unfocused (selectedConvo s) (convos s))) (set_selectedConvo (Some p) s)).
  assert (Hdom : dom (convos s') = dom (convos s)).
  { cbn. rewrite dom_alter_L. destruct (selectedConvo s); cbn; [by rewrite dom_alter_L|done]. }
  assert (Hwf' : wf_gui s').
  { apply (wf_refocus _ (convos s) _ _ _ _ (selectedConvo s)); [exact Hwf| | |by intros ? [= <-]].
    - intros q. rewrite <- !elem_of_dom. fold (convos s'). by rewrite Hdom.
    - intros q c Hc. pose proof (wf_focus _ _ _ _ _ _ Hwf q c Hc) as Hf.
      assert (Hsame : set_focused (focused c) c = c) by (by destruct c).
      assert (Hu : ∃ b, unfocused (selectedConvo s) (convos s) !! q = Some (set_focused b c) ∧
                (q ≠ p → b = false)).
      { destruct (selectedConvo s) as [prev|]; cbn.
        - rewrite lookup_alter. destruct (decide (prev = q)) as [->|Hne]; rewrite Hc; [by exists false|].
          exists (focused c). rewrite Hsame. split; [done|]. intros _. apply not_true_is_false. intros ?%Hf. congruence.
        - exists (focused c). rewrite Hsame. split; [done|]. intros _. apply not_true_is_false. by intros ?%Hf. }
      destruct Hu as (b & Hu & Hb).
      change (convos s') with (alter (λ c, set_focused true (set_unread false c)) p (unfocused (selectedConvo s) (convos s))).
      rewrite lookup_alter. destruct (decide (p = q)) as [->|Hne]; rewrite Hu.
      + cbn. eexists. split; [done|]. split; [|done].
        change (benign c (set_unread false (set_focused (focused c) c))). rewrite Hsame. apply benign_set_unread.
      + exists (set_focused b c). split; [done|]. split.
        * change (benign c (set_focused (focused c) c)). by rewrite Hsame.
        * rewrite Hb by done. cbn. split; [done|congruence]. }
  destruct (proj1 (elem_of_dom (convos s') p)) as [c Hc]; [rewrite Hdom; apply elem_of_dom; by exists c0|].
  change (convos (set_convos _ _)) with (convos s'). rewrite Hc. cbn [or_panic].
  match goal with |- context [setViewOnTop ?v ?x] => change x with s'; destruct (setViewOnTop_screen v s') as (g & r & -> & Hr) end.
  destruct Hr as [->|[e ->]]; (split; [exact Hwf'|]); (split; [exact Hdom|done]).
Qed.

Lemma focusConvoIndex_keeps i : 0 <= i → keeps (focusConvoIndex i).
Proof.
  intros Hi s Hwf. unfold focusConvoIndex. destruct (decide (i = 0)); [by apply focusMain_keeps|].
  wp_steps. destruct (decide (Z.of_nat (length (conversations s)) - 1 < i - 1)) as [Hd|Hd]; [by wp_steps|].
  wp_steps. destruct (lookup_lt_is_Some_2 (conversations s) (Z.to_nat (i - 1))) as [p Hp]; [lia|].
  rewrite (wp_lift_Some _ p) by (unfold index; rewrite decide_False by lia; done).
  eapply wp_mono; [apply focusConvo_keeps; [done|by apply (list_elem_of_lookup_2 _ _ _ Hp)]| |]; by intros ? s' [? _].
Qed.

End gui.
