(* ===== verification/GuiScreen.v ===== *)
(** * The screen of the terminal client (cmd/gjallarhorn-client/gui.go)

    What the terminal shows and which key does what: [layout] draws the windows, the status
    bar and the input line anew after every event, the line editor and the key bindings turn
    keys into edits and operations, and [Run] ends when one of them returns an error. The
    further operations of gocui that this code uses are [GocuiViews]. *)

From Stdlib Require Import ZArith Lia.
From stdpp Require Import base numbers strings sets gmap fin_maps fin_sets list.
From S2P Require Import Prelude GoStd Json GoStrings External Settings Convo Conversation Wp Gui GuiInvariant.

(** ** The terminal *)

(** The fields of a view that are assigned to. *)
Inductive view_field :=
| Wrap (b : bool)
| Frame (b : bool)
| Autoscroll (b : bool)
| Editable (b : bool)
| BgColor (c : Z)
| FgColor (c : Z).

(** The attributes of gocui. *)
Definition ColorDefault : Z := 0.
Definition ColorRed : Z := 2.
Definition ColorGreen : Z := 3.
Definition ColorYellow : Z := 4.

(** gocui: [view_Edit] makes [vuvuzelaEditor] the editor of a view. *)
Class GocuiViews `{Gocui} := {
  screen_Set : string → view_field → screen → screen;
  screen_Edit : string → screen → screen;
  screen_Clear : string → screen → screen;
  screen_SetCurrentView : string → screen → screen * option gui_error;
  screen_SetOrigin : string → Z → Z → screen → screen * option gui_error;
  view_Autoscroll : string → screen → bool;
  view_Size : string → screen → Z * Z;
  view_Origin : string → screen → Z * Z;
  view_ViewBuffer : string → screen → string
}.

(** A view that was made stays, whatever is done to the screen. *)
Definition keeps_views `{Gocui} (f : screen → screen) : Prop :=
  ∀ name g, screen_View name g = true → screen_View name (f g) = true.

Class GocuiViewsLaws `{GocuiViews} : Prop := {
  Set_views name f : keeps_views (screen_Set name f);
  Edit_views name : keeps_views (screen_Edit name);
  Clear_views name : keeps_views (screen_Clear name);
  Write_views name text : keeps_views (screen_Write name text);
  Attr_views name a w f : keeps_views (screen_Attr name a w f);
  SetOnTop_views name : keeps_views (λ g, (screen_SetViewOnTop name g).1);
  SetCurrent_views name : keeps_views (λ g, (screen_SetCurrentView name g).1);
  SetView_views name x0 y0 x1 y1 : keeps_views (λ g, (screen_SetView name x0 y0 x1 y1 g).1);
  (** a view with a name and an area is there after it was set, others cannot be set *)
  SetView_makes name x0 y0 x1 y1 g : name ≠ "" → x0 < x1 → y0 < y1 →
    screen_View name (screen_SetView name x0 y0 x1 y1 g).1 = true;
  SetView_invalid name x0 y0 x1 y1 g : x1 <= x0 ∨ y1 <= y0 →
    (screen_SetView name x0 y0 x1 y1 g).2 = Some InvalidView;
  (** the operations on a view fail only where there is none *)
  SetOnTop_ok name g : screen_View name g = true → (screen_SetViewOnTop name g).2 = None;
  SetCurrent_ok name g : screen_View name g = true → (screen_SetCurrentView name g).2 = None
}.

(** The two colours that ansi names. *)
Class AnsiColors `{Ansi} := { Green : code; Yellow : code }.

(** ** The status of a conversation (conversation.go) *)

(** [Latency] is in nanoseconds; the code divides it by a second. *)
Record ConvoStatus := mkConvoStatus {
  PeerResponding : bool;
  Round : Z;
  Latency : Z;
  Unread : bool;
  Unacked : nat
}.

Definition Status (c : Conversation) : ConvoStatus :=
  mkConvoStatus (lastPeerResponding c) (lastRound c) (lastLatency c) (unread c) (length (outQueue c)).

Section screen.
Context `{NaCl} `{GocuiViews} `{AnsiColors}.
(** %.1f of a number of seconds. *)
Context (seconds : Z → string).

Abbreviation handler := (go GuiClient gui_error).

Definition on_screen (f : screen → screen) : handler unit := modify (λ s, set_gui (f (gui s)) s).

(** ** Scrolling *)

(** [strings.Count(s, "\n")] *)
Fixpoint count_lines (s : string) : Z :=
  match s with
  | "" => 0
  | String.String c s => (if decide (c = Ascii.ascii_of_nat 10) then 1 else 0) + count_lines s
  end.

(** The name of the view that has the focus. *)
Definition focused_view : handler string :=
  s ← get;
  match selectedConvo s with
  | None => mret "main"
  | Some p => c ← deref p; mret (ViewName c)
  end.

Definition scrollCurrentView (dy : Z) : handler unit :=
  viewName ← focused_view;
  s ← get;
  if screen_View viewName (gui s) then
    let '(_, y) := view_Size viewName (gui s) in
    let '(ox, oy) := view_Origin viewName (gui s) in
    if decide (count_lines (view_ViewBuffer viewName (gui s)) - y - 1 < oy + dy)
    then on_screen (screen_Set viewName (Autoscroll true))
    else
      on_screen (screen_Set viewName (Autoscroll false));;
      gui_op (screen_SetOrigin viewName ox (oy + dy))
  else throw ErrUnknownView.

Definition scrollUp : handler unit := _ ← catch (scrollCurrentView (-1)); mret ().
Definition scrollDown : handler unit := _ ← catch (scrollCurrentView 1); mret ().

(** ** Layout *)

(** [SetView], with what is done to a view that is new. *)
Definition set_view (name : string) (x0 y0 x1 y1 : Z) (fresh_view : handler unit) : handler unit :=
  err ← catch (gui_op (screen_SetView name x0 y0 x1 y1));
  match err with
  | inl ErrUnknownView => fresh_view
  | inl e => throw e
  | inr _ => mret ()
  end.

Fixpoint set_convo_views (ps : list loc) (maxX maxY : Z) : handler unit :=
  match ps with
  | [] => mret ()
  | p :: ps =>
      c ← deref p;
      setConvoView (ViewName c) maxX maxY;;
      set_convo_views ps maxX maxY
  end.

(** The numbers of the windows, from number [menuNumber] on. *)
Fixpoint convo_menu (selected : option loc) (menuNumber : nat) (ps : list loc) : handler string :=
  match ps with
  | [] => mret ""
  | p :: ps =>
      c ← deref p;
      let number := Decimal.sprint (Z.of_nat menuNumber) in
      let entry :=
        if decide (selected = Some p) then (Colorf number [Bold])%string
        else if Unread (Status c) then (Colorf number [Green; Bold] ++ ":" ++ peerUsername c)%string
        else number in
      rest ← convo_menu selected (S menuNumber) ps;
      mret ("," ++ entry ++ rest)%string
  end.

Definition main_menu (s : GuiClient) : string :=
  match selectedConvo s with
  | None => Colorf "1" [Bold]
  | Some _ => if mainUnread s then (Colorf "1" [Green; Bold] ++ ":main")%string else "1"
  end.

(** The status of the selected conversation if it is active; [convoStatus] is nil otherwise. *)
Definition selected_status : handler (option ConvoStatus) :=
  s ← get;
  match selectedConvo s with
  | Some p => if decide (p ∈ active s) then c ← deref p; mret (Some (Status c)) else mret None
  | None => mret None
  end.

Definition roundLatency (st : ConvoStatus) : string :=
  let latency := if decide (Latency st = 0) then "-" else (seconds (Latency st) ++ "s")%string in
  let round := if decide (Round st = 0) then "-" else Decimal.sprint (Round st) in
  let unacked :=
    if decide (0 < Unacked st)%nat
    then ("[" ++ Decimal.sprint (Z.of_nat (Unacked st)) ++ " unacked]")%string else "" in
  ("  [round: " ++ round ++ "]  [latency: " ++ latency ++ "]  " ++ unacked)%string.

(** The line of the status bar; the status it shows is used once more. *)
Definition draw_status : handler (option ConvoStatus) :=
  s ← get;
  let menu := main_menu s in
  rest ← convo_menu (selectedConvo s) 2 (conversations s);
  st ← selected_status;
  let rl := match st with Some st => roundLatency st | None => "" end in
  viewName ← focused_view;
  s ← get;
  if screen_View viewName (gui s) then
    let more := if view_Autoscroll viewName (gui s) then "" else "-MORE-" in
    write "status" (" [" ++ myName s ++ "]  [" ++ menu ++ rest ++ "]" ++ rl ++ " " ++
                    Colorf more [Yellow; Bold])%string;;
    mret st
  else throw ErrUnknownView.

(** The colour of the partner's name; [convoStatus] is not nil where it is read. *)
Definition partner_color (st : option ConvoStatus) : handler Z :=
  s ← get;
  match selectedConvo s with
  | None => mret ColorDefault
  | Some p =>
      if decide (p ∈ active s)
      then
        st ← lift (or_panic st);
        mret (if PeerResponding st then ColorGreen else ColorYellow)
      else mret ColorRed
  end.

Definition partner_name : handler string :=
  s ← get;
  match selectedConvo s with
  | None => mret "vuvuzela"
  | Some p => c ← deref p; mret (peerUsername c)
  end.

(** The partner's name and the input line next to it. *)
Definition draw_input (st : option ConvoStatus) (maxX maxY : Z) : handler unit :=
  partner ← partner_name;
  let x := Z.of_nat (String.length partner) + 1 in
  set_view "partner" (-1) (maxY - 2) x maxY
    (on_screen (screen_Set "partner" (Wrap false));; on_screen (screen_Set "partner" (Frame false)));;
  on_screen (screen_Clear "partner");;
  color ← partner_color st;
  on_screen (screen_Set "partner" (FgColor color));;
  write "partner" (partner ++ ">")%string;;
  set_view "input" x (maxY - 2) maxX maxY
    (on_screen (screen_Edit "input");;
     on_screen (screen_Set "input" (Editable true));;
     on_screen (screen_Set "input" (Wrap false));;
     on_screen (screen_Set "input" (Frame false));;
     gui_op (screen_SetCurrentView "input")).

(** The windows and the status bar. *)
Definition draw_windows (maxX maxY : Z) : handler (option ConvoStatus) :=
  setConvoView "main" maxX maxY;;
  s ← get;
  set_convo_views (conversations s) maxX maxY;;
  set_view "status" (-1) (maxY - 3) maxX (maxY - 1)
    (on_screen (screen_Set "status" (Wrap false));; on_screen (screen_Set "status" (Frame false));;
     on_screen (screen_Set "status" (BgColor 26));; on_screen (screen_Set "status" (FgColor 231)));;
  on_screen (screen_Clear "status");;
  draw_status.

Definition layout : handler unit :=
  s ← get;
  let '(maxX, maxY) := screen_Size (gui s) in
  st ← draw_windows maxX maxY;
  draw_input st maxX maxY;;
  viewName ← focused_view;
  setViewOnTop viewName.

End screen.

(** ** Drawing succeeds *)

Section drawing.
Context `{NaClLaws} `{GocuiViewsLaws} `{!GocuiLaws} `{AnsiColors}.
Context (seconds : Z → string).
Implicit Types s : GuiClient.

(** Only the screen changed, and no view is gone. *)
Definition drawn s s' : Prop :=
  ∃ g, s' = set_gui g s ∧ ∀ name, screen_View name (gui s) = true → screen_View name g = true.

#[local] Instance drawn_preorder : PreOrder drawn.
Proof.
  split.
  - intros s. exists (gui s). split; [by destruct s|done].
  - intros s1 s2 s3 (g & -> & Hg) (g' & -> & Hg'). exists g'. split; [done|]. intros name Hn.
    apply Hg'. by apply Hg.
Qed.

Lemma drawn_view s s' name :
  drawn s s' → screen_View name (gui s) = true → screen_View name (gui s') = true.
Proof. intros (g & -> & Hg). apply Hg. Qed.

(** [m] draws: it returns, and what it returned satisfies [Q]. *)
Definition draws {A} (m : go GuiClient gui_error A) (Q : A → GuiClient → Prop) s : Prop :=
  wp m (λ a s', drawn s s' ∧ Q a s') (λ _ _, False) s.

Lemma draws_bind {A B} (m : go GuiClient gui_error A) (f : A → go GuiClient gui_error B) Q Q' s :
  draws m Q s → (∀ a s', drawn s s' → Q a s' → draws (f a) Q' s') → draws (m ≫= f) Q' s.
Proof.
  intros Hm Hf. unfold draws. apply wp_bind. eapply wp_mono; [exact Hm| |done].
  intros a s1 [Hd Hq]. eapply wp_mono; [by apply Hf| |done].
  intros b s2 [Hd' Hq']. split; [by etrans|done].
Qed.

Lemma draws_mono {A} (m : go GuiClient gui_error A) (Q Q' : A → GuiClient → Prop) s :
  draws m Q s → (∀ a s', drawn s s' → Q a s' → Q' a s') → draws m Q' s.
Proof. intros Hm HQ. eapply wp_mono; [exact Hm| |done]. intros a s' [? ?]. split; [done|by apply HQ]. Qed.

Lemma draws_ret {A} (a : A) (Q : A → GuiClient → Prop) s : Q a s → draws (mret a) Q s.
Proof. intros HQ. unfold draws. wp_steps. done. Qed.

Lemma draws_get (Q : GuiClient → GuiClient → Prop) s : Q s s → draws get Q s.
Proof. intros HQ. unfold draws. wp_steps. done. Qed.

Lemma draws_deref p c (Q : Conversation → GuiClient → Prop) s :
  convos s !! p = Some c → Q c s → draws (deref p) Q s.
Proof. intros Hc HQ. unfold draws. by apply (deref_wp p c). Qed.

Lemma draws_on_screen f s : keeps_views f → draws (on_screen f) (λ _ s', gui s' = f (gui s)) s.
Proof.
  intros Hf. unfold draws, on_screen. wp_steps. split; [|done].
  eexists. split; [done|]. intros name. apply Hf.
Qed.

(** An operation of the terminal that succeeds. *)
Lemma draws_gui_op f s :
  (f (gui s)).2 = None → keeps_views (λ g, (f g).1) →
  draws (gui_op f) (λ _ s', gui s' = (f (gui s)).1) s.
Proof.
  intros E Hf. unfold draws, wp. rewrite gui_op_run, E. split; [|done].
  eexists. split; [done|]. intros name. apply Hf.
Qed.

Lemma draws_set_view name x0 y0 x1 y1 (fresh_view : go GuiClient gui_error unit) s :
  name ≠ "" → x0 < x1 → y0 < y1 →
  (∀ s', screen_View name (gui s') = true → draws fresh_view (λ _ _, True) s') →
  draws (set_view name x0 y0 x1 y1 fresh_view) (λ _ s', screen_View name (gui s') = true) s.
Proof.
  intros Hn Hx Hy Hfresh. unfold set_view, draws. apply wp_bind, wp_catch. unfold wp at 1.
  rewrite gui_op_run.
  set (s1 := set_gui (screen_SetView name x0 y0 x1 y1 (gui s)).1 s).
  assert (Hd : drawn s s1).
  { eexists. split; [done|]. intros n. apply (SetView_views name x0 y0 x1 y1). }
  assert (Hv : screen_View name (gui s1) = true) by by apply SetView_makes.
  destruct (SetView_ok name x0 y0 x1 y1 (gui s) Hn Hx Hy) as [-> | ->].
  - wp_steps. done.
  - eapply wp_mono; [by apply (Hfresh s1)| |done]. intros _ s2 [Hd2 _].
    split; [by etrans|]. by eapply drawn_view.
Qed.

Lemma draws_setConvoView name maxX maxY s :
  name ≠ "" → 1 < maxX → 0 < maxY →
  draws (setConvoView name maxX maxY) (λ _ s', screen_View name (gui s') = true) s.
Proof.
  intros Hn Hx Hy. apply (draws_set_view name 0 (-1) (maxX - 1) (maxY - 1)
    (modify (λ s, set_gui (screen_Attr name true true false (gui s)) s))); [done|lia|lia|].
  intros s' _. eapply draws_mono; [by apply (draws_on_screen _ _ (Attr_views _ _ _ _))|done].
Qed.

Lemma drawn_same s s' :
  drawn s s' → convos s' = convos s ∧ conversations s' = conversations s ∧ active s' = active s ∧
    selectedConvo s' = selectedConvo s ∧ myName s' = myName s ∧ (wf_gui s → wf_gui s').
Proof. by intros (g & -> & _). Qed.

(** The windows have names. *)
Definition named (ps : list loc) s : Prop :=
  ∀ p, p ∈ ps → ∃ c, convos s !! p = Some c ∧ peerUsername c ≠ "".

Lemma named_drawn ps s s' : drawn s s' → named ps s → named ps s'.
Proof. intros (g & -> & _) Hp. exact Hp. Qed.

Lemma wf_windows_named s : wf_gui s → named (conversations s) s.
Proof.
  intros Hwf p Hp. destruct (wf_windows _ _ _ _ _ _ Hwf p Hp) as [c Hc].
  exists c. split; [done|]. by apply (wf_named _ _ _ _ _ _ Hwf p).
Qed.

(** The view of every window is there. *)
Definition windows_shown (ps : list loc) s : Prop :=
  ∀ p c, p ∈ ps → convos s !! p = Some c → screen_View (ViewName c) (gui s) = true.

Lemma windows_shown_drawn ps s s' : drawn s s' → windows_shown ps s → windows_shown ps s'.
Proof. intros (g & -> & Hg) Hw p c Hp Hc. by apply Hg, (Hw p c). Qed.

Lemma draws_convo_views ps maxX maxY s :
  named ps s → 1 < maxX → 0 < maxY →
  draws (set_convo_views ps maxX maxY) (λ _ s', windows_shown ps s') s.
Proof.
  intros Hp Hx Hy. revert s Hp. induction ps as [|p ps IH]; intros s Hp; cbn [set_convo_views].
  - apply draws_ret. by intros p c Hp'%not_elem_of_nil.
  - destruct (Hp p) as (c & Hc & Hn); [left|].
    eapply draws_bind; [by apply (draws_deref p c (λ c' s', c' = c ∧ s' = s))|].
    intros _ _ _ [-> ->]. eapply draws_bind; [by apply draws_setConvoView|].
    intros ? s1 Hd1 Hv. eapply draws_mono.
    + apply IH. apply (named_drawn _ s); [done|]. intros q Hq. apply Hp. by right.
    + intros ? s2 Hd2 Hw q d Hq Hqd. apply elem_of_cons in Hq as [->|Hq]; [|by apply (Hw q)].
      assert (d = c) as ->.
      { destruct (drawn_same _ _ Hd1) as [E1 _]. destruct (drawn_same _ _ Hd2) as [E2 _]. congruence. }
      by eapply drawn_view.
Qed.

Lemma draws_convo_menu selected n ps s :
  named ps s → draws (convo_menu selected n ps) (λ _ _, True) s.
Proof.
  intros Hp. revert n s Hp. induction ps as [|p ps IH]; intros n s Hp; cbn [convo_menu].
  - by apply draws_ret.
  - destruct (Hp p) as (c & Hc & _); [left|].
    eapply draws_bind; [by apply (draws_deref p c (λ _ s', s' = s))|]. intros c' _ _ ->.
    eapply draws_bind; [apply IH; intros q Hq; apply Hp; by right|].
    intros rest s' _ _. by apply draws_ret.
Qed.

(** The selected conversation is a window. *)
Lemma selected_named s p :
  wf_gui s → named (conversations s) s → selectedConvo s = Some p →
  ∃ c, convos s !! p = Some c ∧ peerUsername c ≠ "".
Proof. intros Hwf Hn Hp. apply Hn. by apply (wf_selected _ _ _ _ _ _ Hwf). Qed.

(** The status that is shown: of an active conversation. *)
Definition status_of s (st : option ConvoStatus) : Prop :=
  ∀ p, selectedConvo s = Some p → p ∈ active s → is_Some st.

Lemma draws_selected_status s :
  wf_gui s → named (conversations s) s → draws selected_status (λ st s', status_of s' st) s.
Proof.
  intros Hwf Hn. unfold selected_status. eapply draws_bind; [by apply (draws_get (λ a s', a = s ∧ s' = s))|].
  intros _ _ _ [-> ->]. destruct (selectedConvo s) as [p|] eqn:Ep.
  - destruct (decide (p ∈ active s)).
    + destruct (selected_named s p Hwf Hn Ep) as (c & Hc & _).
      eapply draws_bind; [by apply (draws_deref p c (λ _ s', s' = s))|].
      intros c' _ _ ->. apply draws_ret. by intros ???.
    + apply draws_ret. intros q Eq Hq. congruence.
  - apply draws_ret. intros q Eq Hq. congruence.
Qed.

(** The views the client itself makes, and those of the windows. *)
Definition shown_windows s : Prop :=
  screen_View "main" (gui s) = true ∧ windows_shown (conversations s) s.

Lemma draws_focused_view s :
  wf_gui s → named (conversations s) s → shown_windows s →
  draws focused_view (λ name s', s' = s ∧ name ≠ "" ∧ screen_View name (gui s) = true) s.
Proof.
  intros Hwf Hn [Hm Hw]. unfold focused_view.
  eapply draws_bind; [by apply (draws_get (λ a s', a = s ∧ s' = s))|].
  intros _ _ _ [-> ->]. destruct (selectedConvo s) as [p|] eqn:Ep; [|by apply draws_ret].
  destruct (selected_named s p Hwf Hn Ep) as (c & Hc & Hname).
  eapply draws_bind; [by apply (draws_deref p c (λ c' s', c' = c ∧ s' = s))|].
  intros _ _ _ [-> ->]. apply draws_ret. split_and!; [done|done|].
  apply (Hw p c); [|done]. by apply (wf_selected _ _ _ _ _ _ Hwf).
Qed.

Lemma draws_write name text s : draws (write name text) (λ _ _, True) s.
Proof.
  unfold write. eapply draws_mono; [apply (draws_on_screen _ _ (Write_views name text))|done].
Qed.

Lemma draws_status s :
  wf_gui s → named (conversations s) s → shown_windows s →
  draws (draw_status seconds) (λ st s', status_of s' st) s.
Proof.
  intros Hwf Hn Hs. unfold draw_status.
  eapply draws_bind; [by apply (draws_get (λ a s', a = s ∧ s' = s))|]. intros _ _ _ [-> ->].
  eapply draws_bind; [by apply draws_convo_menu|]. intros rest s1 Hd1 _.
  assert (Hn1 := named_drawn _ _ _ Hd1 Hn). assert (Hd1' := Hd1). destruct Hd1' as (g1 & -> & Hg1).
  eapply draws_bind; [by apply draws_selected_status|]. intros st s2 Hd2 Hst.
  assert (Hn2 := named_drawn _ _ _ Hd2 Hn1).
  assert (Hs2 : shown_windows s2).
  { destruct Hs as [Hm Hw]. assert (Hd : drawn s s2) by by etrans.
    split; [by eapply drawn_view|]. destruct (drawn_same _ _ Hd) as (_ & -> & _).
    by eapply windows_shown_drawn. }
  assert (Hd2' := Hd2). destruct Hd2' as (g2 & -> & Hg2).
  eapply draws_bind; [by apply draws_focused_view|]. intros name s3 _ (-> & _ & Hv).
  eapply draws_bind; [by apply (draws_get (λ a s', a = set_gui g2 (set_gui g1 s) ∧ s' = a))|].
  intros _ _ _ [-> ->]. rewrite Hv.
  eapply draws_bind; [apply draws_write|]. intros _ s4 (g4 & -> & _) _. by apply draws_ret.
Qed.

(** The name of the partner has room next to the input line. *)
Definition partner_fits s : Prop :=
  match selectedConvo s with
  | None => 9 < (screen_Size (gui s)).1
  | Some p => ∀ c, convos s !! p = Some c →
      Z.of_nat (String.length (peerUsername c)) + 1 < (screen_Size (gui s)).1
  end.

Lemma draws_partner_name maxX s :
  wf_gui s → named (conversations s) s →
  match selectedConvo s with
  | None => 9 < maxX
  | Some p => ∀ c, convos s !! p = Some c → Z.of_nat (String.length (peerUsername c)) + 1 < maxX
  end →
  draws partner_name (λ name s', s' = s ∧ Z.of_nat (String.length name) + 1 < maxX) s.
Proof.
  intros Hwf Hn Hf. unfold partner_name.
  eapply draws_bind; [by apply (draws_get (λ a s', a = s ∧ s' = s))|].
  intros _ _ _ [-> ->]. destruct (selectedConvo s) as [p|] eqn:Ep; [|apply draws_ret; split; [done|cbn; lia]].
  destruct (selected_named s p Hwf Hn Ep) as (c & Hc & _).
  eapply draws_bind; [by apply (draws_deref p c (λ c' s', c' = c ∧ s' = s))|].
  intros _ _ _ [-> ->]. apply draws_ret. split; [done|by apply Hf].
Qed.

Lemma draws_partner_color st s : status_of s st → draws (partner_color st) (λ _ _, True) s.
Proof.
  intros Hst. unfold partner_color. eapply draws_bind; [by apply (draws_get (λ a s', a = s ∧ s' = s))|].
  intros _ _ _ [-> ->]. destruct (selectedConvo s) as [p|] eqn:Ep; [|by apply draws_ret].
  destruct (decide (p ∈ active s)) as [Ha|]; [|by apply draws_ret].
  destruct (Hst p Ep Ha) as [x ->]. eapply draws_bind; [by apply (draws_ret x (λ _ _, True))|].
  intros x' s' _ _. by apply draws_ret.
Qed.

Lemma shown_windows_drawn s s' : drawn s s' → shown_windows s → shown_windows s'.
Proof.
  intros Hd [Hm Hw]. split; [by eapply drawn_view|].
  destruct (drawn_same _ _ Hd) as (_ & -> & _). by eapply windows_shown_drawn.
Qed.

(** A view, or the windows, found through what was drawn since. *)
Ltac keep := cbn beta in *; solve [eauto 6 using drawn_view, shown_windows_drawn].

Lemma draws_fields name fields (m : go GuiClient gui_error unit) Q s :
  screen_View name (gui s) = true →
  (∀ s', screen_View name (gui s') = true → draws m Q s') →
  draws (foldr (λ f m, on_screen (screen_Set name f);; m) m fields) Q s.
Proof.
  revert s. induction fields as [|f fields IH]; intros s Hv Hm; cbn; [by apply Hm|].
  eapply draws_bind; [apply draws_on_screen, Set_views|]. intros ? s1 Hd1 _.
  apply IH; [keep|done].
Qed.

Lemma draws_input st maxX maxY s :
  wf_gui s → named (conversations s) s → status_of s st → 1 < maxX → 0 < maxY →
  match selectedConvo s with
  | None => 9 < maxX
  | Some p => ∀ c, convos s !! p = Some c → Z.of_nat (String.length (peerUsername c)) + 1 < maxX
  end →
  draws (draw_input st maxX maxY)
    (λ _ s', screen_View "partner" (gui s') = true ∧ screen_View "input" (gui s') = true) s.
Proof.
  intros Hwf Hn Hst Hx Hy Hf. unfold draw_input.
  eapply draws_bind; [by apply (draws_partner_name maxX)|]. intros partner ? _ [-> Hlen].
  eapply draws_bind.
  { apply draws_set_view; [done|lia|lia|]. intros s' Hv.
    apply (draws_fields "partner" [Wrap false] (on_screen (screen_Set "partner" (Frame false)))); [done|].
    intros s2 _. eapply draws_mono; [apply draws_on_screen, Set_views|done]. }
  intros ? s1 Hd1 Hp1.
  eapply draws_bind; [apply draws_on_screen, Clear_views|]. intros ? s2 Hd2 _.
  assert (Hd02 : drawn s s2) by by etrans.
  assert (Hp2 : screen_View "partner" (gui s2) = true) by keep.
  eapply draws_bind.
  { apply draws_partner_color. destruct (drawn_same _ _ Hd02) as (_ & _ & Ea & Es & _).
    unfold status_of. rewrite Ea, Es. exact Hst. }
  intros color s3 Hd3 _. eapply draws_bind; [apply draws_on_screen, Set_views|]. intros ? s4 Hd4 _.
  eapply draws_bind; [apply draws_write|]. intros ? s5 Hd5 _.
  assert (Hp5 : screen_View "partner" (gui s5) = true).
  { keep. }
  eapply draws_mono.
  - apply draws_set_view; [done|lia|lia|]. intros s' Hv.
    eapply draws_bind; [apply draws_on_screen, Edit_views|]. intros ? s6 Hd6 _.
    apply (draws_fields "input" [Editable true; Wrap false; Frame false]).
    { keep. }
    intros s7 Hv7. eapply draws_mono; [apply draws_gui_op|done].
    + by apply SetCurrent_ok.
    + apply SetCurrent_views.
  - intros ? s6 Hd6 Hv6. split; [keep|done].
Qed.

(** After it was laid out the screen has the view of every window and those of the client. *)
Definition laid_out s : Prop :=
  shown_windows s ∧ screen_View "status" (gui s) = true ∧ screen_View "partner" (gui s) = true ∧
  screen_View "input" (gui s) = true.

Lemma draws_setViewOnTop name s :
  screen_View name (gui s) = true → screen_View "status" (gui s) = true →
  draws (setViewOnTop name) (λ _ _, True) s.
Proof.
  intros Hv Hst. unfold setViewOnTop.
  eapply draws_bind; [apply draws_gui_op; [by apply SetOnTop_ok|apply SetOnTop_views]|].
  intros ? s1 Hd1 _. eapply draws_mono; [|done].
  apply draws_gui_op; [|apply SetOnTop_views]. apply SetOnTop_ok. keep.
Qed.

Lemma draws_windows maxX maxY s :
  wf_gui s → named (conversations s) s → 1 < maxX → 0 < maxY →
  draws (draw_windows seconds maxX maxY) (λ st s', status_of s' st ∧ shown_windows s' ∧
    screen_View "status" (gui s') = true) s.
Proof.
  intros Hwf Hn Hx Hy. unfold draw_windows.
  eapply draws_bind; [by apply draws_setConvoView|]. intros ? s1 Hd1 Hm1.
  eapply draws_bind; [by apply (draws_get (λ a s', a = s1 ∧ s' = s1))|]. intros ? ? _ [-> ->].
  destruct (drawn_same _ _ Hd1) as (_ & El & _). rewrite El.
  eapply draws_bind; [apply draws_convo_views; [by apply (named_drawn _ s)|lia|lia]|].
  intros ? s2 Hd2 Hw2. assert (Hd02 : drawn s s2) by by etrans.
  assert (Hsh : shown_windows s2).
  { split; [keep|]. destruct (drawn_same _ _ Hd02) as (_ & -> & _). done. }
  eapply draws_bind.
  { apply draws_set_view; [done|lia|lia|]. intros s' Hv.
    apply (draws_fields "status" [Wrap false; Frame false; BgColor 26]
      (on_screen (screen_Set "status" (FgColor 231)))); [done|].
    intros s'' _. eapply draws_mono; [apply draws_on_screen, Set_views|done]. }
  intros ? s3 Hd3 Hst3. eapply draws_bind; [apply draws_on_screen, Clear_views|]. intros ? s4 Hd4 _.
  assert (Hd04 : drawn s s4) by (etrans; [exact Hd02|by etrans]).
  assert (Hst4 : screen_View "status" (gui s4) = true) by keep.
  assert (Hsh4 : shown_windows s4) by keep.
  destruct (drawn_same _ _ Hd04) as (_ & El4 & _ & _ & _ & Hwf4). specialize (Hwf4 Hwf).
  eapply draws_mono; [apply draws_status; [done|rewrite El4; by eapply named_drawn|done]|].
  intros st s5 Hd5 Hst5. split_and!; [done|keep|keep].
Qed.

Lemma draws_layout s :
  wf_gui s → named (conversations s) s → has_room s → partner_fits s →
  draws (layout seconds) (λ _ s', laid_out s') s.
Proof.
  intros Hwf Hn [Hx Hy] Hf. unfold layout, partner_fits in *.
  eapply draws_bind; [by apply (draws_get (λ a s', a = s ∧ s' = s))|]. intros ? ? _ [-> ->].
  destruct (screen_Size (gui s)) as [maxX maxY]. cbn in Hx, Hy, Hf.
  eapply draws_bind; [by apply draws_windows|]. intros st s5 Hd5 (Hst5 & Hsh5 & Hv5).
  destruct (drawn_same _ _ Hd5) as (Ec5 & El5 & Ea5 & Es5 & _ & Hwf5). specialize (Hwf5 Hwf).
  assert (Hn5 : named (conversations s5) s5) by (rewrite El5; by eapply named_drawn).
  eapply draws_bind; [apply draws_input; [done..|]; rewrite Es5, Ec5; exact Hf|].
  intros ? s6 Hd6 [Hp6 Hi6].
  destruct (drawn_same _ _ Hd6) as (_ & El6 & _ & _ & _ & Hwf6). specialize (Hwf6 Hwf5).
  assert (Hsh6 : shown_windows s6) by keep.
  assert (Hst6 : screen_View "status" (gui s6) = true) by keep.
  eapply draws_bind; [apply draws_focused_view; [done|rewrite El6; by eapply named_drawn|done]|].
  intros name ? _ (-> & _ & Hv). eapply draws_mono; [by apply draws_setViewOnTop|].
  intros ? s7 Hd7 _. unfold laid_out. split_and!; keep.
Qed.

(** C30. In every state the client can be in, on a terminal with room for the partner's name next to
    the input line, drawing the screen fails nowhere and changes nothing but the screen; after
    it, the main window, every conversation's window, the status bar, the partner and the input
    line all have their view, so that whatever is printed finds the view it is printed to. *)
Theorem layout_draws_all s :
  wf_gui s → has_room s → partner_fits s →
  ∃ g, layout seconds s = (set_gui g s, Ret ()) ∧ laid_out (set_gui g s).
Proof.
  intros Hwf Hr Hf. destruct (wp_Ret _ _ _ (draws_layout s Hwf (wf_windows_named s Hwf) Hr Hf)) as (s' & [] & E & (g & -> & _) & Hl).
  by exists g.
Qed.

(** Where the partner's name leaves no room, it fails with an error that is not [ErrQuit]. *)
Lemma draw_input_narrow st maxX maxY s partner :
  partner_name s = (s, Ret partner) → maxX <= Z.of_nat (String.length partner) + 1 → 0 < maxY →
  status_of s st →
  ∃ s', draw_input st maxX maxY s = (s', Err InvalidView).
Proof.
  intros Hp Hx Hy Hst. unfold draw_input. rewrite go_bind_unfold, Hp.
  assert (Hd : draws (set_view "partner" (-1) (maxY - 2) (Z.of_nat (String.length partner) + 1) maxY
    (on_screen (screen_Set "partner" (Wrap false));; on_screen (screen_Set "partner" (Frame false))))
    (λ _ _, True) s).
  { eapply draws_mono; [apply draws_set_view; [done|lia|lia|]|done]. intros s' Hv.
    apply (draws_fields "partner" [Wrap false] (on_screen (screen_Set "partner" (Frame false)))); [done|].
    intros s2 _. eapply draws_mono; [apply draws_on_screen, Set_views|done]. }
  destruct (wp_Ret _ _ _ Hd) as (s1 & [] & E & Hd1 & _). rewrite go_bind_unfold, E.
  rewrite go_bind_unfold. cbn [on_screen modify].
  destruct (wp_Ret _ _ _ (draws_partner_color st (set_gui (screen_Clear "partner" (gui s1)) s1)
    ltac:(destruct Hd1 as (g & -> & _); exact Hst))) as (s2 & color & E2 & _).
  rewrite go_bind_unfold, E2. rewrite go_bind_unfold. cbn [on_screen modify].
  rewrite go_bind_unfold. cbn [write modify]. unfold set_view. rewrite go_bind_unfold. unfold catch.
  rewrite gui_op_run. rewrite SetView_invalid by lia. cbn. by eexists.
Qed.

Lemma layout_narrow s :
  wf_gui s → has_room s → ¬ partner_fits s →
  ∃ s', layout seconds s = (s', Err InvalidView).
Proof.
  intros Hwf [Hx Hy] Hf. assert (Hn := wf_windows_named s Hwf). unfold layout, partner_fits in *. rewrite go_bind_unfold. cbn [get].
  destruct (screen_Size (gui s)) as [maxX maxY]. cbn in Hx, Hy, Hf.
  destruct (wp_Ret _ _ _ (draws_windows maxX maxY s Hwf Hn Hx Hy)) as (s5 & st & E & Hd5 & Hst5 & _).
  rewrite go_bind_unfold, E. rewrite go_bind_unfold.
  destruct (drawn_same _ _ Hd5) as (Ec5 & El5 & _ & Es5 & _).
  assert (∃ partner, partner_name s5 = (s5, Ret partner) ∧ maxX <= Z.of_nat (String.length partner) + 1)
    as (partner & Ep & Hlen).
  { unfold partner_name. rewrite go_bind_unfold. cbn [get]. rewrite Es5.
    destruct (selectedConvo s) as [p|] eqn:Esel; [|eexists; split; [done|cbn; lia]].
    destruct (selected_named s p Hwf Hn Esel) as (c & Hc & _).
    exists (peerUsername c). unfold deref. rewrite !go_bind_unfold. cbn [get]. rewrite Ec5, Hc.
    split; [done|]. apply Z.nlt_ge. intros Hlt. apply Hf. intros c' Hc'. congruence. }
  destruct (draw_input_narrow st maxX maxY s5 partner Ep Hlen Hy Hst5) as [s6 ->]. by exists s6.
Qed.

End drawing.
