(* ===== verification/Commands.v ===== *)
(** * The command line (cmd/gjallarhorn-client/commands.go, and handleLine of gui.go)

    Every command is a [Command] with its help and its handler; [handleLine] runs the one
    the line names. What the alpenhorn client (neverlur) knows is an argument of the
    handlers, what they ask of it is recorded in [gui_events]. *)

From Stdlib Require Import ZArith Lia.
From stdpp Require Import base numbers strings sets gmap fin_maps fin_sets list.
From S2P Require Import Prelude GoStd Json GoStrings Sha2 External Settings Convo Conversation Wp Gui.

(** ** The alpenhorn client *)

Record IncomingFriendRequest := mkIncomingFriendRequest { in_Username : string; in_LongTermKey : bytes }.

Record OutgoingFriendRequest := mkOutgoingFriendRequest {
  out_Username : string;
  out_Confirmation : bool;
  out_ExpectedKey : option bytes
}.

(** neverlur: the friends with their keywheels, the requests, and the errors of requests;
    [base32_Encode] is its encoding of keys. *)
Class Alpenhorn := {
  alpenhorn : Type;
  GetFriends : alpenhorn → list string;
  GetFriend : alpenhorn → string → bool;                       (* whether it is not nil *)
  friend_keyRound : alpenhorn → string → Z;                    (* [UnsafeKeywheelState] *)
  friend_SessionKey : alpenhorn → string → Z → bytes;
  GetIncomingFriendRequests : alpenhorn → list IncomingFriendRequest;
  GetOutgoingFriendRequests : alpenhorn → list OutgoingFriendRequest;
  GetSentFriendRequests : alpenhorn → list OutgoingFriendRequest;
  SendFriendRequest_err : alpenhorn → string → option string;
  Approve_err : alpenhorn → string → option string;
  base32_Encode : bytes → string;
  Quote : string → string                                      (* %q *)
}.

Section commands.
Context `{NaCl} `{Gocui} `{Ansi} `{Alpenhorn}.
Context (stamp : string).

Abbreviation handler := (go GuiClient gui_error).

Record Command := mkCommand { Help : string; Handler : alpenhorn → list string → handler unit }.

Definition selected : handler (option loc) := s ← get; mret (selectedConvo s).

(** ** Handlers *)

Definition cmd_quit (a : alpenhorn) (args : list string) : handler unit := throw ErrQuit.

Definition cmd_connect (a : alpenhorn) (args : list string) : handler unit := event GoConnect.

Definition cmd_register (a : alpenhorn) (args : list string) : handler unit :=
  match args with
  | [] => gc_Warnf ("Usage: /register <token>" ++ nl ++ "See https://vuvuzela.io to get started." ++ nl)%string
  | token :: _ =>
      gc_Warnf ("Checking registration status (this may take a minute)..." ++ nl)%string;;
      event (GoRegisterAll token)
  end.

Definition cmd_w (a : alpenhorn) (args : list string) : handler unit :=
  match args with
  | [] => gc_Warnf ("Missing username or window number" ++ nl)%string
  | username :: _ =>
      match ParseInt username with
      | Some winNum =>
          if decide (winNum < 0) then mret ()
          else if decide (winNum = 0) then focusMain
          else focusConvoIndex (winNum - 1)
      | None =>
          convo ← getOrCreateConvo username;
          focusConvo convo
      end
  end.

(** The loop that looks for the window: the last one that is [p], [-1] if none is. *)
Fixpoint window_index (p : loc) (i : Z) (windows : list loc) (found : Z) : Z :=
  match windows with
  | [] => found
  | c :: windows => window_index p (i + 1) windows (if decide (c = p) then i else found)
  end.

Definition cmd_wc (a : alpenhorn) (args : list string) : handler unit :=
  convo ← selected;
  match convo with
  | None => gc_Warnf ("You can't close the main window!" ++ nl)%string
  | Some convo =>
      deactivateConvo convo;;
      s ← get;
      let i := window_index convo 0 (conversations s) (-1) in
      (if decide (i < 0) then panic
       else modify (set_conversations
              (take (Z.to_nat i) (conversations s) ++ drop (S (Z.to_nat i)) (conversations s))));;
      focusMain
  end.

Definition prettyPrintOutReqs (reqs : list OutgoingFriendRequest) : string :=
  tabwriter ((λ req,
    let confirm := if out_Confirmation req then "(confirmation)" else "" in
    let key := match out_ExpectedKey req with
               | None => "(no key specified)"
               | Some key => ("{" ++ base32_Encode key ++ "}")%string
               end in
    ([("  " ++ out_Username req)%string; key], confirm)) <$> reqs).

Definition cmd_list (a : alpenhorn) (args : list string) : handler unit :=
  let inReqs := GetIncomingFriendRequests a in
  let outReqs := GetOutgoingFriendRequests a in
  let sentReqs := GetSentFriendRequests a in
  let friends := GetFriends a in
  let title s := (Colorf s [Bold] ++ nl)%string in
  gc_Printf
    ((match inReqs with
      | [] => ""
      | _ => title "Incoming Friend Requests" ++
          tabwriter ((λ req, ([("  " ++ in_Username req)%string],
                              ("{" ++ base32_Encode (in_LongTermKey req) ++ "}")%string)) <$> inReqs)
      end) ++
     (match outReqs with [] => "" | _ => title "Outgoing Friend Requests" ++ prettyPrintOutReqs outReqs end) ++
     (match sentReqs with [] => "" | _ => title "Sent Friend Requests" ++ prettyPrintOutReqs sentReqs end) ++
     title "Friends" ++
     (match friends with
      | [] => "  No friends; use /addfriend to add a friend" ++ nl
      | _ => tabwriter ((λ friend, ([], ("  " ++ friend)%string)) <$> friends)
      end) ++ nl)%string.

Definition cmd_debugfriend (a : alpenhorn) (args : list string) : handler unit :=
  match args with
  | [] => gc_Warnf ("Missing username" ++ nl)%string
  | username :: _ =>
      if negb (GetFriend a username)
      then gc_Warnf (Quote username ++ " is not in your friends list!" ++ nl)%string
      else
        let keyRound := friend_keyRound a username in
        let keyRound := u32 (u32 (keyRound + 100) / 100 * 100) in
        let key := Sum256 (friend_SessionKey a username keyRound) in
        let keyStr := to_string (take 12 (raw_url_base64 key)) in
        gc_Warnf ("Keywheel for " ++ Quote username ++ ": {" ++ Decimal.sprint keyRound ++ "|" ++ keyStr ++
                  "...}" ++ nl)%string;;
        gc_Warnf ("You and your friend should have the same keywheel for eachother." ++ nl)%string
  end.

Definition cmd_call (a : alpenhorn) (args : list string) : handler unit :=
  convo ← selected;
  match args, convo with
  | [], None => gc_Warnf ("Try `/call <username>` or run /call in a conversation window." ++ nl)%string
  | _, _ =>
      convo ← match args with
              | username :: _ => getOrCreateConvo username
              | [] => lift (or_panic convo)
              end;
      catch (focusConvo convo);;
      s ← get;
      if decide (size (active s) = NumOutgoing)
      then convo_Warnf stamp convo ("Too many active conversations!" ++ nl)%string
      else
        c ← deref convo;
        if negb (GetFriend a (peerUsername c))
        then convo_Warnf stamp convo (Quote (peerUsername c) ++ " is not in your friends list! Try `/addfriend " ++
               peerUsername c ++ "` first." ++ nl)%string
        else
          event (FriendCall (peerUsername c));;
          convo_Warnf stamp convo ("Queued call: " ++ peerUsername c ++ nl)%string
  end.

Definition cmd_hangup (a : alpenhorn) (args : list string) : handler unit :=
  convo ← selected;
  match convo with
  | None => gc_Warnf ("/hangup only works in a conversation window." ++ nl)%string
  | Some convo =>
      hung ← deactivateConvo convo;
      if hung : bool then convo_Warnf stamp convo ("Hung up!" ++ nl)%string
      else convo_Warnf stamp convo ("This conversation is not active!" ++ nl)%string
  end.

Definition cmd_answer (a : alpenhorn) (args : list string) : handler unit :=
  convo ← selected;
  match convo with
  | None => gc_Warnf ("/answer only works in a conversation window." ++ nl)%string
  | Some convo =>
      c ← deref convo;
      match pendingCall c with
      | None => convo_Warnf stamp convo ("No pending call." ++ nl)%string
      | Some call =>
          activated ← activateConvo convo call;
          if activated : bool
          then convo_Warnf stamp convo ("Now talking to " ++ Quote (peerUsername c) ++ nl)%string
          else convo_Warnf stamp convo
                 ("Too many active conversations! Hang up another convo and try again." ++ nl)%string
      end
  end.

Definition cmd_addfriend (a : alpenhorn) (args : list string) : handler unit :=
  match args with
  | [] => gc_Warnf ("Missing username" ++ nl)%string
  | username :: _ =>
      event (SendFriendRequest username);;
      match SendFriendRequest_err a username with
      | Some err => gc_Warnf ("Error sending friend request: " ++ err)%string
      | None => gc_Warnf ("Queued friend request: " ++ username ++ nl)%string
      end
  end.

Definition cmd_delfriend (a : alpenhorn) (args : list string) : handler unit :=
  match args with
  | [] => gc_Warnf ("Missing username" ++ nl)%string
  | username :: _ =>
      if negb (GetFriend a username)
      then gc_Warnf ("Cannot find friend " ++ username ++ nl)%string
      else
        event (FriendRemove username);;
        gc_Warnf ("Removed friend " ++ username ++ nl)%string
  end.

(** The first request of the user is approved. *)
Definition cmd_approve (a : alpenhorn) (args : list string) : handler unit :=
  match args with
  | [] => gc_Warnf ("Missing username" ++ nl)%string
  | username :: _ =>
      if decide (username ∈ in_Username <$> GetIncomingFriendRequests a)
      then
        event (ApproveRequest username);;
        match Approve_err a username with
        | Some err => gc_Warnf ("error approving friend request: " ++ err ++ nl)%string
        | None => gc_Warnf ("Approved friend request: " ++ username ++ nl)%string
        end
      else gc_Warnf ("No friend request from " ++ username ++ nl)%string
  end.

(** ** The table *)

Definition help_of : list (string * string) := [
  ("help", "/help prints this help message.");
  ("quit", "/quit quits vuvuzela.");
  ("connect", "/connect connects to the Vuvuzela servers.");
  ("register", "/register <token> registers your username with the Alpenhorn servers.");
  ("w", "/w (<username>|<number>) creates or jumps to a window.");
  ("wc", "/wc closes the current window.");
  ("list", "/list prints your friends list and friend requests.");
  ("debugfriend", "/debugfriend <username> prints a friend's keywheel state.");
  ("call", "/call [<username>] calls a friend.");
  ("hangup", "/hangup hangs up the current conversation.");
  ("answer", "/answer answers a held call.");
  ("addfriend", "/addfriend <username> sends a friend request to a friend.");
  ("delfriend", "/delfriend <username> removes a friend from your friends list.");
  ("approve", "/approve <username> approves a friend request.")].

Definition command_names : list string := help_of.*1.

(** The help of every command, in the order of the names. *)
Fixpoint print_helps (cmds : list string) : handler unit :=
  match cmds with
  | [] => mret ()
  | cmd :: cmds =>
      gc_Printf ("  " ++ default "" ((list_to_map help_of : gmap string string) !! cmd) ++ nl)%string;;
      print_helps cmds
  end.

Definition printHelp : handler unit :=
  gc_Printf (Colorf "Vuvuzela Help" [Bold] ++ nl ++ "Commands:" ++ nl)%string;;
  print_helps (sort_Strings command_names);;
  gc_Printf ("To jump between windows use the /w command, Alt-[1..9], or Esc+[1..9]." ++ nl)%string;;
  gc_Printf ("Scroll up and down with PageUp and PageDown." ++ nl)%string;;
  gc_Printf ("Get started at: https://vuvuzela.io/getstarted" ++ nl)%string;;
  gc_Printf ("Report bugs to: https://github.com/vuvuzela/vuvuzela" ++ nl)%string.

Definition cmd_help (a : alpenhorn) (args : list string) : handler unit := printHelp.

Definition handlers : list (alpenhorn → list string → handler unit) :=
  [cmd_help; cmd_quit; cmd_connect; cmd_register; cmd_w; cmd_wc; cmd_list; cmd_debugfriend; cmd_call;
   cmd_hangup; cmd_answer; cmd_addfriend; cmd_delfriend; cmd_approve].

Definition commands : gmap string Command :=
  list_to_map (zip_with (λ h f, (h.1, mkCommand h.2 f)) help_of handlers).

(** ** Lines *)

Definition handleLine (a : alpenhorn) (line : string) : handler unit :=
  match line with
  | "" => panic
  | String.String c rest =>
      if decide (c = Ascii.ascii_of_nat 47)
      then
        let args := match Fields rest with [] => [""] | args => args end in
        let name := default "" (head args) in
        match commands !! name with
        | None =>
            gc_Warnf ("Unknown command: " ++ name ++ nl)%string;;
            gc_Warnf ("Valid commands: " ++ sprint_list (sort_Strings command_names) ++ nl)%string
        | Some cmd => Handler cmd a (tail args)
        end
      else
        convo ← selected;
        match convo with
        | None => gc_Warnf ("Try typing a command like /help or /call <username>." ++ nl)%string
        | Some convo => convo_QueueTextMessage stamp convo line
        end
  end.

(** [buffer] is the text of the input view, which is cleared before the line is handled. *)
Definition readLine (a : alpenhorn) (clear : screen → screen) (buffer : string) : handler unit :=
  let line := trim_right (Ascii.ascii_of_nat 10) buffer in
  if decide (line = "") then mret ()
  else
    modify (λ s, set_gui (clear (gui s)) s);;
    handleLine a line.

(** ** Completion *)

Definition completePrefix (prefix : string) (choices : list string) : list string :=
  filter (λ choice, HasPrefix choice prefix = true) choices.

(** The loop that drops what it has seen. *)
Fixpoint remove_dupes (seen : gset string) (choices : list string) : list string :=
  match choices with
  | [] => []
  | choice :: choices =>
      if decide (choice ∈ seen) then remove_dupes seen choices
      else choice :: remove_dupes ({[choice]} ∪ seen) choices
  end.

(** The usernames of the windows. *)
Fixpoint window_names (ps : list loc) : handler (list string) :=
  match ps with
  | [] => mret []
  | p :: ps =>
      c ← deref p;
      names ← window_names ps;
      mret (peerUsername c :: names)
  end.

(** What an argument of a command can be. *)
Definition argument_choices (a : alpenhorn) (cmd : string) : handler (list string) :=
  s ← get;
  windows ← (if decide (cmd = "w") then window_names (conversations s) else mret []);
  let friends := if decide (cmd ∈ ["call"; "delfriend"; "debugfriend"; "addfriend"; "w"])
                 then GetFriends a else [] in
  let requests := if decide (cmd = "approve") then in_Username <$> GetIncomingFriendRequests a else [] in
  mret (windows ++ friends ++ requests).

(** The result is what is typed for the user: the rest of the only match and a blank.
    [order] is the order in which the commands are ranged over. *)
Definition tabComplete (a : alpenhorn) (order : list string) (buffer : string) : handler (option string) :=
  match trim_right (Ascii.ascii_of_nat 10) buffer with
  | "" => mret None
  | String.String c rest =>
      if decide (c ≠ Ascii.ascii_of_nat 47) then mret None
      else
        let args := split_on (Ascii.ascii_of_nat 32) rest in
        uniqChoices ←
          (if decide (length args = 1%nat) then mret order
           else
             choices ← argument_choices a (default "" (head args));
             mret (remove_dupes ∅ choices));
        let prefix := default "" (last args) in
        let matches := completePrefix prefix uniqChoices in
        match matches with
        | [] => mret None
        | [m] => mret ((λ completion, completion ++ " ")%string <$> cut_prefix prefix m)
        | _ =>
            gc_Warnf ("Choices: " ++ sprint_list (sort_Strings matches) ++ nl)%string;;
            mret None
        end
  end.

End commands.
