(* ===== verification/Calls.v ===== *)
(** * The events of the alpenhorn and convo clients (cmd/gjallarhorn-client/alpenhorn.go)

    A call, sent or received, starts the session of a conversation: caller and callee take
    the key of the call from a round they agree on ([roundSyncer]). [latest] is what
    [LatestRound] of the convo client returns. *)

From Stdlib Require Import ZArith Lia.
From stdpp Require Import base numbers strings sets gmap fin_maps fin_sets list.
From S2P Require Import Prelude GoStd Json GoStrings External Settings Convo ConvoConfig Coordinator Client Conversation Wp Gui.

(** neverlur: a call of the own user, and one of a friend. *)
Record OutgoingCall := mkOutgoingCall { outgoing_Username : string; outgoing_SessionKey : bytes }.
Record IncomingCall := mkIncomingCall {
  incoming_Username : string;
  incoming_SessionKey : bytes;
  incoming_Intent : Z
}.

Section calls.
Context `{NaCl} `{Gocui} `{Ansi}.
Context (stamp : string).

Abbreviation handler := (go GuiClient gui_error).

Definition too_many : string :=
  "Too many active conversations! Hang up another convo and type /answer to answer the call.".

(** Both calls end alike: the session starts, or the call is held. *)
Definition activate_or_hold (convo : loc) (wheel : keywheelStart) : handler unit :=
  activated ← activateConvo convo wheel;
  if activated : bool then mret ()
  else
    modify_convo convo (set_pendingCall (Some wheel));;
    convo_WarnfSync stamp convo (too_many ++ nl)%string.

(** The critical sections of these two handlers, finding the conversation and activating it, are one
    step: what another goroutine does between them comes before or after. The error message has
    one argument for two verbs. *)
Definition SendingCall (latest : string + Z) (call : OutgoingCall) : handler unit :=
  convo ← getOrCreateConvo (outgoing_Username call);
  match latest with
  | inl err =>
      convo_WarnfSync stamp convo
        ("Error calling " ++ err ++ ": failed to fetch latest convo round: %!s(MISSING)" ++ nl)%string
  | inr round =>
      convo_WarnfSync stamp convo ("Calling " ++ outgoing_Username call ++ " ..." ++ nl)%string;;
      '(epochStart, intent) ← lift (outgoingCallConvoRound stdRoundSyncer round);
      event (UpdateIntent (outgoing_Username call) intent);;
      activate_or_hold convo (mkKeywheelStart (Some (outgoing_SessionKey call)) epochStart)
  end.

Definition ReceivedCall (latest : string + Z) (call : IncomingCall) : handler unit :=
  convo ← getOrCreateConvo (incoming_Username call);
  convo_WarnfSync stamp convo ("Received call: " ++ incoming_Username call ++ nl)%string;;
  event (Notify ("Call from " ++ incoming_Username call)%string);;
  match latest with
  | inl err =>
      convo_WarnfSync stamp convo
        ("Error activating convo: failed to fetch latest convo round: " ++ err ++ nl)%string
  | inr round =>
      start ← lift (incomingCallConvoRound stdRoundSyncer round (incoming_Intent call));
      activate_or_hold convo (mkKeywheelStart (Some (incoming_SessionKey call)) start)
  end.

(** ** Notices *)

Definition ConfirmedFriend (username : string) : handler unit :=
  gc_WarnfSync ("Confirmed friend: " ++ username ++ nl)%string.

Definition SentFriendRequest (username : string) : handler unit :=
  gc_WarnfSync ("Sent friend request: " ++ username ++ nl)%string.

Definition ReceivedFriendRequest (username : string) : handler unit :=
  gc_WarnfSync ("Received friend request: " ++ username ++ nl)%string;;
  gc_WarnfSync ("Type `/approve " ++ username ++ "` to approve the friend request." ++ nl)%string;;
  event (Notify ("Friend request from " ++ username)%string).

Definition UnexpectedSigningKey (username : string) : handler unit :=
  gc_WarnfSync ("Unexpected signing key: " ++ username ++ nl)%string.

Definition GuiClient_GlobalAnnouncement (message : string) : handler unit :=
  gc_WarnfSync ("Global Announcement: " ++ message ++ nl)%string;;
  event (Notify ("Global Announcement: " ++ message)%string).

(** [service] is the service of a configuration. *)
Definition NewConfig `{SignedConfigs} (service : SignedConfig → string) (quote : string → string)
    (chain : list SignedConfig) : handler unit :=
  prev ← lift (or_panic (last chain));
  next ← lift (or_panic (head chain));
  gc_WarnfSync ("New " ++ quote (service prev) ++ " config: " ++ config_Hash prev ++ " -> " ++
                config_Hash next ++ nl)%string;;
  event (Notify ("New " ++ service prev ++ " config")%string).

(** ** Errors *)

(** [regexp.MatchString("round [0-9]+ not configured", s)] *)
Definition is_digit_char (c : Ascii.ascii) : bool := bool_decide (is_Some (Decimal.digit_val c)).

Fixpoint after_digits (some : bool) (s : string) : bool :=
  (some && HasPrefix s " not configured") ||
  match s with
  | "" => false
  | String.String c s => is_digit_char c && after_digits true s
  end.

Fixpoint round_not_configured (s : string) : bool :=
  match cut_prefix "round " s with Some rest => after_digits false rest | None => false end ||
  match s with "" => false | String.String _ s => round_not_configured s end.

(** Whether the error is logged; [debug] is the flag of the program. *)
Definition Error (debug : bool) (err : string) : bool :=
  if debug then true else negb (round_not_configured err).

Definition DebugError (debug : bool) (err : string) : bool := debug.

End calls.

Example round_not_configured_ex :
  round_not_configured "openReplyOnion: round 17 not configured" = true ∧
  round_not_configured "round  not configured" = false ∧
  round_not_configured "round 17x not configured" = false.
Proof. vm_compute. done. Qed.
