(* ===== verification/GuiSystem.v ===== *)
(** * The terminal client as a state machine

    What can happen to a [GuiClient]: rounds and their replies, calls, lines of the user,
    keys, notices and changes of the screen, in any order. The invariant holds in every
    reachable state and nothing that can happen there panics. *)

From Stdlib Require Import ZArith Lia.
From stdpp Require Import base numbers strings sets gmap fin_maps fin_sets relations list.
From S2P Require Import Prelude GoStd Json GoStrings Sha2 External Settings Convo ConvoConfig Coordinator Client Conversation Wp Gui GuiInvariant Commands Calls.

(** ** Words *)

Lemma to_string_nonempty bs : bs ≠ [] → to_string bs ≠ "".
Proof. intros Hb E. apply Hb. rewrite <- (str_to_string bs), E. done. Qed.

Lemma fields_nonempty fuel bs cur w : w ∈ fields_go fuel bs cur → w ≠ [].
Proof.
  assert (Hflush : ∀ cur, w ∈ flush cur → w ≠ []).
  { intros [|b c]; cbn; [by intros ?%elem_of_nil|by intros ->%list_elem_of_singleton]. }
  revert bs cur. induction fuel as [|fuel IH]; intros [|b bs] cur; cbn [fields_go]; try apply Hflush.
  destruct (decode_rune (b :: bs)) as [[r rest]|]; [|apply IH].
  destruct (is_space r); [|apply IH]. intros [?|?]%elem_of_app; [by eapply Hflush|by eapply IH].
Qed.

Lemma Fields_nonempty s w : w ∈ Fields s → w ≠ "".
Proof.
  unfold Fields. intros (bs & -> & Hbs)%list_elem_of_fmap. apply to_string_nonempty. by eapply fields_nonempty.
Qed.

Section system.
Context `{NaClLaws} `{GocuiLaws} `{Ansi} `{Alpenhorn}.
Context (stamp : string).
Implicit Types s : GuiClient.

(** ** Combining operations that keep the invariant *)

Lemma keeps_ret {A} (a : A) : keeps (mret a).
Proof. by intros s. Qed.

Lemma keeps_bind {A B} (m : go GuiClient gui_error A) (f : A → go GuiClient gui_error B) :
  keeps m → (∀ a, keeps (f a)) → keeps (m ≫= f).
Proof.
  intros Hm Hf s Hwf. wp_steps. eapply wp_mono; [by apply Hm| |done]. intros a s' Hwf'. by apply Hf.
Qed.

Lemma keeps_event e : keeps (event e).
Proof. intros s Hwf. unfold event. wp_steps. exact Hwf. Qed.

Lemma keeps_gc_Printf text : keeps (gc_Printf text).
Proof. intros s Hwf. eapply wp_mono; [by apply gc_Printf_keeps| |done]. by intros _ s' [? _]. Qed.

Lemma keeps_gc_PrintfSync text : keeps (gc_PrintfSync text).
Proof. intros s Hwf. eapply wp_mono; [by apply gc_PrintfSync_keeps| |done]. by intros _ s' [? _]. Qed.

Lemma keeps_throw {A} e : keeps (throw (A:=A) e).
Proof. by intros s. Qed.

Lemma keeps_print_helps cmds : keeps (print_helps cmds).
Proof.
  induction cmds as [|cmd cmds IH]; cbn [print_helps]; [apply keeps_ret|].
  apply keeps_bind; [apply keeps_gc_Printf|done].
Qed.

Lemma convo_Warnf_wp p text s : wf_gui s → alive p s → wp (convo_Warnf stamp p text) (λ _, wf_gui) (λ _, wf_gui) s.
Proof. intros. eapply wp_mono; [by apply convo_Printf_keeps| |done]. by intros _ s' [? _]. Qed.

(** ** Commands *)

(** A handler that keeps the invariant when its arguments are words. *)
Definition handler_ok (h : alpenhorn → list string → go GuiClient gui_error unit) : Prop :=
  ∀ a args s, wf_gui s → has_room s → (∀ w, w ∈ args → w ≠ "") → wp (h a args) (λ _, wf_gui) (λ _, wf_gui) s.

Lemma keeps_handler h : (∀ a args, keeps (h a args)) → handler_ok h.
Proof. intros Hh a args s Hwf _ _. by apply Hh. Qed.

Create HintDb keeps.
#[local] Hint Resolve keeps_ret keeps_bind keeps_event keeps_gc_Printf keeps_gc_PrintfSync keeps_throw
  keeps_print_helps focusMain_keeps : keeps.

(** Handlers that print and record, whatever they read. *)
Ltac printing :=
  apply keeps_handler; intros a args;
  repeat (first [apply keeps_gc_Printf | apply keeps_event | apply keeps_throw | case_match
                | apply keeps_bind; [|intros []]]).

Lemma ok_help : handler_ok cmd_help.
Proof.
  apply keeps_handler. intros a args. unfold cmd_help, printHelp.
  apply keeps_bind; [apply keeps_gc_Printf|intros _]. apply keeps_bind; [apply keeps_print_helps|intros _].
  repeat (apply keeps_bind; [apply keeps_gc_Printf|intros _]). apply keeps_gc_Printf.
Qed.
Lemma ok_quit : handler_ok cmd_quit.
Proof. unfold cmd_quit. printing. Qed.
Lemma ok_connect : handler_ok cmd_connect.
Proof. unfold cmd_connect. printing. Qed.
Lemma ok_register : handler_ok cmd_register.
Proof. unfold cmd_register, gc_Warnf. printing. Qed.
Lemma ok_list : handler_ok cmd_list.
Proof. apply keeps_handler. intros a args. apply keeps_gc_Printf. Qed.
Lemma ok_debugfriend : handler_ok cmd_debugfriend.
Proof. unfold cmd_debugfriend, gc_Warnf. printing. Qed.
Lemma ok_addfriend : handler_ok cmd_addfriend.
Proof. unfold cmd_addfriend, gc_Warnf. printing. Qed.
Lemma ok_delfriend : handler_ok cmd_delfriend.
Proof. unfold cmd_delfriend, gc_Warnf. printing. Qed.
Lemma ok_approve : handler_ok cmd_approve.
Proof. unfold cmd_approve, gc_Warnf. printing. Qed.

Lemma focus_wp p s : wf_gui s → p ∈ conversations s → wp (focusConvo p) (λ _, wf_gui) (λ _, wf_gui) s.
Proof. intros. eapply wp_mono; [by apply focusConvo_keeps|by intros ? s' [? _]..]. Qed.

(** [getOrCreateConvo] in front of [f]. *)
Lemma getOrCreateConvo_wp {A} username (f : loc → go GuiClient gui_error A) Q R s :
  wf_gui s → username ≠ "" → has_room s →
  (∀ p s', wf_gui s' → p ∈ conversations s' → wp (f p) Q R s') →
  wp (getOrCreateConvo username ≫= f) Q R s.
Proof.
  intros Hwf Hu Hroom Hf. destruct (getOrCreateConvo_run username s Hwf Hu Hroom) as (p & g & s' & E & Hwf' & Hp & _).
  wp_steps. rewrite (wp_run _ _ _ _ _ _ E). by apply Hf.
Qed.

Lemma ok_w : handler_ok cmd_w.
Proof.
  intros a args s Hwf Hroom Hargs. unfold cmd_w. destruct args as [|username args]; [by apply keeps_gc_Printf|].
  destruct (ParseInt username) as [n|].
  - destruct (decide (n < 0)); [by apply keeps_ret|]. destruct (decide (n = 0)); [by apply focusMain_keeps|].
    apply focusConvoIndex_keeps; [lia|done].
  - apply getOrCreateConvo_wp; [done|apply Hargs; by left|done|]. intros p s' Hwf' Hp. by apply focus_wp.
Qed.

Lemma selected_run s : selected s = (s, Ret (selectedConvo s)).
Proof. done. Qed.

Lemma selected_wp {A} (f : option loc → go GuiClient gui_error A) Q R s :
  wp (f (selectedConvo s)) Q R s → wp (selected ≫= f) Q R s.
Proof. unfold selected. by wp_steps. Qed.

(** *** Closing a window *)

(** [window_index] finds the place of a window that occurs once. *)
Lemma window_index_absent p i windows found : p ∉ windows → window_index p i windows found = found.
Proof.
  revert i found. induction windows as [|q windows IH]; intros i found; [done|].
  intros [Hne Hp]%not_elem_of_cons. cbn. rewrite decide_False by done. by apply IH.
Qed.

Lemma window_index_found p l1 l2 i found :
  p ∉ l1 → p ∉ l2 → window_index p i (l1 ++ p :: l2) found = i + Z.of_nat (length l1).
Proof.
  revert i found. induction l1 as [|q l1 IH]; intros i found Ha Hb.
  - cbn. rewrite decide_True, window_index_absent by done. lia.
  - apply not_elem_of_cons in Ha as [? ?]. cbn [app window_index length]. rewrite IH by done. lia.
Qed.

(** The client without the window [p]. *)
Definition closed_window p s : GuiClient :=
  set_conversations (filter (λ q, q ≠ p) (conversations s)) (set_active (active s ∖ {[p]}) s).

Lemma filter_split (p : loc) l1 l2 :
  p ∉ l1 → p ∉ l2 → filter (λ q, q ≠ p) (l1 ++ p :: l2) = l1 ++ l2.
Proof.
  intros Ha Hb. rewrite filter_app, filter_cons_False by tauto.
  assert (Hid : ∀ l : list loc, p ∉ l → filter (λ q, q ≠ p) l = l).
  { induction l as [|q l IH]; [done|]. intros [? ?]%not_elem_of_cons. rewrite filter_cons_True by congruence.
    by rewrite IH. }
  by rewrite !Hid.
Qed.

(** [/wc] up to the change of focus. *)
Lemma cmd_wc_run a args p s :
  wf_gui s → selectedConvo s = Some p →
  cmd_wc a args s = focusMain (closed_window p s).
Proof.
  intros Hwf Hp. pose proof (wf_selected _ _ _ _ _ _ Hwf p Hp) as Hin.
  pose proof (wf_distinct _ _ _ _ _ _ Hwf) as Hnd.
  destruct (list_elem_of_split _ _ Hin) as (l1 & l2 & El). rewrite El in Hnd.
  apply NoDup_app in Hnd as (_ & Hl1 & [Hl2 _]%NoDup_cons).
  assert (Hp1 : p ∉ l1) by (intros ?; apply (Hl1 p); [done|by left]).
  unfold cmd_wc. rewrite go_bind_unfold, selected_run, Hp.
  rewrite go_bind_unfold, deactivateConvo_run. rewrite go_bind_unfold. cbn [get].
  change (conversations (set_active _ s)) with (conversations s).
  rewrite El, window_index_found by done. rewrite go_bind_unfold, decide_False by lia. cbn [modify].
  unfold closed_window. rewrite El, filter_split by done. rewrite Z.add_0_l, Nat2Z.id, take_app_length.
  replace (drop (S (length l1)) (l1 ++ p :: l2)) with l2; [done|].
  rewrite drop_app_ge by lia. by replace (S (length l1) - length l1)%nat with 1%nat by lia.
Qed.

Lemma ok_wc : handler_ok cmd_wc.
Proof.
  intros a args s Hwf _ _. destruct (selectedConvo s) as [p|] eqn:Hp.
  - unfold wp. rewrite (cmd_wc_run a args p s Hwf Hp). apply focusMain_wp.
    change (wf_fields (myName s) (unfocused (selectedConvo s) (convos s)) (active s ∖ {[p]}) (pendingRounds s)
              (filter (λ q, q ≠ p) (conversations s)) None).
    apply wf_fewer with (conversations s); [|apply sublist_filter].
    exact (wf_unfocused _ _ _ _ _ _ (wf_deactivate p s Hwf)).
  - unfold cmd_wc. apply selected_wp. rewrite Hp. by apply keeps_gc_Printf.
Qed.

(** *** Calls and sessions *)

Lemma selected_alive p s : wf_gui s → selectedConvo s = Some p → p ∈ conversations s ∧ alive p s.
Proof.
  intros Hwf Hp. pose proof (wf_selected _ _ _ _ _ _ Hwf p Hp) as Hin. split; [done|].
  by apply (wf_windows _ _ _ _ _ _ Hwf).
Qed.

(** What [/call] does with the window it found. *)
Lemma call_wp a p s :
  wf_gui s → p ∈ conversations s →
  wp (catch (focusConvo p);;
      s ← get;
      if decide (size (active s) = NumOutgoing)
      then convo_Warnf stamp p ("Too many active conversations!" ++ nl)%string
      else
        c ← deref p;
        if negb (GetFriend a (peerUsername c))
        then convo_Warnf stamp p (Quote (peerUsername c) ++ " is not in your friends list! Try `/addfriend " ++
               peerUsername c ++ "` first." ++ nl)%string
        else
          event (FriendCall (peerUsername c));;
          convo_Warnf stamp p ("Queued call: " ++ peerUsername c ++ nl)%string) (λ _, wf_gui) (λ _, wf_gui) s.
Proof.
  intros Hwf Hp. destruct (wf_windows _ _ _ _ _ _ Hwf p Hp) as [c0 Hc0].
  assert (Hrest : ∀ s', wf_gui s' ∧ dom (convos s') = dom (convos s) ∧ conversations s' = conversations s →
    wf_gui s' ∧ alive p s').
  { intros s' (Hwf' & Hdom & _). split; [done|]. apply elem_of_dom. rewrite Hdom. apply elem_of_dom. by exists c0. }
  wp_steps. eapply wp_mono; [by apply focusConvo_keeps|..];
    (intros _ s' [Hwf' Hal]%Hrest; wp_steps;
     destruct (decide (size (active s') = NumOutgoing)); [by apply convo_Warnf_wp|];
     wp_steps; destruct (id Hal) as [c Hc]; apply (deref_wp p c); [done|];
     destruct (negb (GetFriend a (peerUsername c))); [by apply convo_Warnf_wp|];
     unfold event; wp_steps; by apply convo_Warnf_wp).
Qed.

Lemma ok_call : handler_ok (cmd_call stamp).
Proof.
  intros a args s Hwf Hroom Hargs. unfold cmd_call. apply selected_wp.
  destruct args as [|username args].
  - destruct (selectedConvo s) as [p|] eqn:Hp; [|by apply keeps_gc_Printf].
    rewrite wp_bind, (wp_lift_Some _ p) by done.
    apply call_wp; [done|]. by apply (selected_alive p s).
  - apply getOrCreateConvo_wp; [done|apply Hargs; by left|done|]. intros p s' Hwf' Hp. by apply call_wp.
Qed.

Lemma ok_hangup : handler_ok (cmd_hangup stamp).
Proof.
  intros a args s Hwf _ _. unfold cmd_hangup. apply selected_wp.
  destruct (selectedConvo s) as [p|] eqn:Hp; [|by apply keeps_gc_Printf].
  rewrite wp_bind, (wp_run _ _ _ _ _ _ (deactivateConvo_run p s)).
  destruct (selected_alive p s Hwf Hp) as [_ Hal].
  case_bool_decide; (apply convo_Warnf_wp; [by apply wf_deactivate|exact Hal]).
Qed.

Lemma ok_answer : handler_ok (cmd_answer stamp).
Proof.
  intros a args s Hwf _ _. unfold cmd_answer. apply selected_wp.
  destruct (selectedConvo s) as [p|] eqn:Hp; [|by apply keeps_gc_Printf].
  destruct (selected_alive p s Hwf Hp) as [_ Hal]. destruct (id Hal) as [c Hc].
  rewrite wp_bind. apply (deref_wp p c); [done|].
  destruct (pendingCall c) as [w|] eqn:Ew; [|by apply convo_Warnf_wp].
  pose proof (wf_held _ _ _ _ _ _ Hwf p c Hc w Ew) as Hw.
  rewrite wp_bind. unfold wp at 1. rewrite activateConvo_run.
  destruct (decide (size (active s) < NumOutgoing)%nat); (apply convo_Warnf_wp; [|]); try done.
  - by apply wf_activate.
  - unfold alive. cbn. by rewrite lookup_alter_is_Some.
Qed.

Lemma commands_ok name cmd : commands stamp !! name = Some cmd → handler_ok (Handler cmd).
Proof.
  intros Hc. apply elem_of_list_to_map_2 in Hc.
  unfold help_of, handlers in Hc. cbn [zip_with fst snd] in Hc.
  repeat (apply elem_of_cons in Hc as [[= _ ->]|Hc]);
    [apply ok_help|apply ok_quit|apply ok_connect|apply ok_register|apply ok_w|apply ok_wc|apply ok_list
    |apply ok_debugfriend|apply ok_call|apply ok_hangup|apply ok_answer|apply ok_addfriend|apply ok_delfriend
    |apply ok_approve|by apply elem_of_nil in Hc].
Qed.

Lemma handleLine_wp a line s :
  wf_gui s → has_room s → line ≠ "" → wp (handleLine stamp a line) (λ _, wf_gui) (λ _, wf_gui) s.
Proof.
  intros Hwf Hroom Hl. destruct line as [|c rest]; [done|]. unfold handleLine.
  destruct (decide (c = Ascii.ascii_of_nat 47)).
  - destruct (Fields rest) as [|name args] eqn:Ef.
    + cbv zeta. destruct (commands stamp !! default "" (head [""])) as [cmd|] eqn:E.
      * apply (commands_ok _ cmd E); [done|done|]. by intros w ?%elem_of_nil.
      * apply (keeps_bind _ (λ _, gc_Warnf _)); [apply keeps_gc_Printf|intros _; apply keeps_gc_Printf|done].
    + cbv zeta. destruct (commands stamp !! default "" (head (name :: args))) as [cmd|] eqn:E.
      * apply (commands_ok _ cmd E); [done|done|]. intros w Hw. apply (Fields_nonempty rest). rewrite Ef. by right.
      * apply (keeps_bind _ (λ _, gc_Warnf _)); [apply keeps_gc_Printf|intros _; apply keeps_gc_Printf|done].
  - apply selected_wp. destruct (selectedConvo s) as [p|] eqn:Hp; [|by apply keeps_gc_Printf].
    eapply wp_mono; [apply convo_QueueTextMessage_keeps; [done|by apply selected_alive]|done|done].
Qed.

(** ** Calls *)

(** [s'] is [s] after prints: the window [p] is the same, and events were added. *)
Definition printed p s s' : Prop :=
  wf_gui s' ∧ myName s' = myName s ∧ active s' = active s ∧ conversations s' = conversations s ∧
  (∀ e, e ∈ gui_events s → e ∈ gui_events s') ∧
  ∀ c, convos s !! p = Some c → ∃ c', convos s' !! p = Some c' ∧ peerUsername c' = peerUsername c.

Lemma convo_WarnfSync_wp p text s :
  wf_gui s → alive p s → wp (convo_WarnfSync stamp p text) (λ _, printed p s) (λ _ _, False) s.
Proof.
  intros Hwf [c Hc]. unfold convo_WarnfSync, convo_PrintfSync. wp_steps. apply (deref_wp p c); [done|].
  assert (Hs : ∀ g es, (∀ e, e ∈ gui_events s → e ∈ es) →
    printed p s (set_convos (alter PrintfSync p (convos s)) (set_gui g (set_gui_events es s)))).
  { intros g es He. split; [|split; [done|split; [done|split; [done|split; [done|]]]]].
    - apply (wf_alter p PrintfSync (set_gui g (set_gui_events es s))); [exact Hwf|]. intros. apply benign_mark_unread.
    - intros d Hd. exists (PrintfSync d). cbn. rewrite lookup_alter_eq, Hd. split; [done|]. apply benign_mark_unread. }
  unfold write_sync. wp_steps. destruct (screen_View (ViewName c) (gui s)); unfold write, event, modify_convo; wp_steps.
  - specialize (Hs (screen_Write (ViewName c) (stamped stamp (warningPrefix +:+ text)) (gui s)) (gui_events s)).
    apply Hs. done.
  - specialize (Hs (gui s) (gui_events s ++ [MainLoopError ErrUnknownView])).
    apply Hs. intros e He. apply elem_of_app. by left.
Qed.

Lemma activate_or_hold_wp p w s :
  wf_gui s → alive p s → wheel_ok w →
  wp (activate_or_hold stamp p w) (λ _ s', wf_gui s' ∧ myName s' = myName s ∧ conversations s' = conversations s ∧
      (∀ e, e ∈ gui_events s → e ∈ gui_events s') ∧
      ((size (active s) < NumOutgoing)%nat → p ∈ active s' ∧
         ∀ c, convos s !! p = Some c → convos s' !! p = Some (start_session w c)))
    (λ _ _, False) s.
Proof.
  intros Hwf Hal Hw. unfold activate_or_hold. rewrite wp_bind. unfold wp at 1. rewrite activateConvo_run.
  destruct (decide (size (active s) < NumOutgoing)%nat) as [Hs|Hs].
  - wp_steps. split; [by apply wf_activate|]. split; [done|]. split; [done|]. split; [done|]. intros _. split.
    + cbn. set_solver.
    + intros c Hc. cbn. by rewrite lookup_alter_eq, Hc.
  - unfold modify_convo. wp_steps. eapply wp_mono; [apply convo_WarnfSync_wp|..].
    + apply wf_alter; [done|]. intros c Hc. unfold benign. split_and!; try done.
      * intros _ w' [= <-]. done.
      * intros []. by constructor.
    + unfold alive. cbn. by rewrite lookup_alter_is_Some.
    + intros _ s' (? & ? & _ & ? & He & _). split_and!; try done.
    + done.
Qed.

(** The session a call starts. *)
Definition session_started (username : string) (key : bytes) (start : Z) s' : Prop :=
  ∃ p c, p ∈ active s' ∧ p ∈ conversations s' ∧ convos s' !! p = Some c ∧ peerUsername c = username ∧
    sessionKey c = Some key ∧ sessionKeyRound c = start.

Lemma epochStart_std {E} round :
  ∃ start intent, epochStart (E:=E) stdRoundSyncer round = Ret (start, intent) ∧ is_u32 start.
Proof. eexists _, _. split; [reflexivity|apply u32_range]. Qed.

Lemma SendingCall_wp latest call s :
  wf_gui s → has_room s → outgoing_Username call ≠ "" → length (outgoing_SessionKey call) = 32%nat →
  wp (SendingCall stamp latest call) (λ _ s', wf_gui s' ∧ myName s' = myName s ∧
      ∀ round start intent, latest = inr round → epochStart (E:=gui_error) stdRoundSyncer round = Ret (start, intent) →
        UpdateIntent (outgoing_Username call) intent ∈ gui_events s' ∧
        ((size (active s) < NumOutgoing)%nat →
           session_started (outgoing_Username call) (outgoing_SessionKey call) start s'))
    (λ _ _, False) s.
Proof.
  intros Hwf Hroom Hu Hk. unfold SendingCall.
  destruct (getOrCreateConvo_run _ s Hwf Hu Hroom) as (p & g & s1 & E & Hwf1 & Hp & (c & Hc & Ec) & Hs1).
  assert (Hname : myName s1 = myName s ∧ active s1 = active s) by (by destruct Hs1 as [->|[_ ->]]).
  rewrite wp_bind, (wp_run _ _ _ _ _ _ E). set (s2 := set_gui g s1).
  assert (Hal : alive p s2) by (by exists c).
  destruct latest as [err|round].
  - eapply wp_mono; [by apply convo_WarnfSync_wp|intros _ s' (? & Hn & _)|done].
    split; [done|]. split; [by rewrite Hn; apply Hname|]. done.
  - rewrite wp_bind. eapply wp_mono; [by apply convo_WarnfSync_wp|intros ? s3 Hs3|done].
    destruct Hs3 as (Hwf3 & Hn3 & Ha3 & Hw3 & He3 & Hc3). destruct (Hc3 c Hc) as (c3 & Hc3' & Ec3).
    destruct (epochStart_std (E:=gui_error) round) as (start & intent & Ee & Hstart).
    unfold outgoingCallConvoRound. rewrite Ee. unfold event. wp_steps.
    eapply wp_mono; [apply activate_or_hold_wp; [exact Hwf3|by exists c3|]|intros _ s4 (Hwf4 & Hn4 & Hw4 & He4 & Hact)|done].
    { split; [done|]. by eexists. }
    split; [done|]. split; [rewrite Hn4; cbn; rewrite Hn3; apply Hname|].
    intros round' start' intent' [= <-] Ee'. rewrite Ee in Ee'. injection Ee' as <- <-. split.
    + apply He4. cbn. apply elem_of_app. right. by left.
    + intros Hsize. destruct Hact as [Hact Hcs]; [change (size (active s3) < NumOutgoing)%nat; rewrite Ha3; change (active s2) with (active s1); by rewrite (proj2 Hname)|].
      exists p, (start_session (mkKeywheelStart (Some (outgoing_SessionKey call)) start) c3).
      split_and!; try done; [by rewrite Hw4; cbn; rewrite Hw3|by apply Hcs|]. cbn. congruence.
Qed.

Lemma ReceivedCall_wp latest call s :
  wf_gui s → has_room s → incoming_Username call ≠ "" → length (incoming_SessionKey call) = 32%nat →
  wp (ReceivedCall stamp latest call) (λ _ s', wf_gui s' ∧ myName s' = myName s ∧
      ∀ round start, latest = inr round →
        incomingCallConvoRound (E:=gui_error) stdRoundSyncer round (incoming_Intent call) = Ret start →
        (size (active s) < NumOutgoing)%nat →
        session_started (incoming_Username call) (incoming_SessionKey call) start s')
    (λ _ _, False) s.
Proof.
  intros Hwf Hroom Hu Hk. unfold ReceivedCall.
  destruct (getOrCreateConvo_run _ s Hwf Hu Hroom) as (p & g & s1 & E & Hwf1 & Hp & (c & Hc & Ec) & Hs1).
  assert (Hname : myName s1 = myName s ∧ active s1 = active s) by (by destruct Hs1 as [->|[_ ->]]).
  rewrite wp_bind, (wp_run _ _ _ _ _ _ E). set (s2 := set_gui g s1).
  assert (Hal : alive p s2) by (by exists c).
  rewrite wp_bind. eapply wp_mono; [by apply convo_WarnfSync_wp|intros ? s3 Hs3|done].
  destruct Hs3 as (Hwf3 & Hn3 & Ha3 & Hw3 & _ & Hc3). destruct (Hc3 c Hc) as (c3 & Hc3' & Ec3).
  unfold event. wp_steps. destruct latest as [err|round].
  - eapply wp_mono; [apply convo_WarnfSync_wp; [exact Hwf3|by exists c3]|intros _ s' (? & Hn & _)|done].
    split; [done|]. split; [by rewrite Hn; cbn; rewrite Hn3; apply Hname|]. done.
  - assert (Ei : ∃ start, incomingCallConvoRound (E:=gui_error) stdRoundSyncer round (incoming_Intent call) = Ret start
        ∧ is_u32 start).
    { unfold incomingCallConvoRound. destruct (epochStart_std (E:=gui_error) round) as (start & intent & -> & Hs).
      cbn [mbind outcome_bind]. destruct (decide (intent = incoming_Intent call)); eexists;
        (split; [reflexivity|]); [done|apply u32_range]. }
    destruct Ei as (start & Ei & Hstart). rewrite Ei. wp_steps.
    eapply wp_mono; [apply activate_or_hold_wp; [exact Hwf3|by exists c3|]|intros _ s4 (Hwf4 & Hn4 & Hw4 & _ & Hact)|done].
    { split; [done|]. by eexists. }
    split; [done|]. split; [rewrite Hn4; cbn; rewrite Hn3; apply Hname|].
    intros round' start' [= <-] Ei' Hsize. rewrite Ei in Ei'. injection Ei' as <-.
    destruct Hact as [Hact Hcs]; [change (size (active s3) < NumOutgoing)%nat; rewrite Ha3; change (active s2) with (active s1); by rewrite (proj2 Hname)|].
    exists p, (start_session (mkKeywheelStart (Some (incoming_SessionKey call)) start) c3).
    split_and!; try done; [by rewrite Hw4; cbn; rewrite Hw3|by apply Hcs|]. cbn. congruence.
Qed.

End system.

(** ** Everything that can happen *)

Section machine.
Context `{NaClLaws} `{GocuiLaws} `{Ansi} `{Alpenhorn}.
Implicit Types s : GuiClient.

Inductive request :=
| DoOutgoing (now : nat → Z) (coins : nat → DeadDropMessage) (order : list loc) (round : Z)
| DoReplies (now : nat → Z) (round : Z) (replies : list bytes)
| DoLine (a : alpenhorn) (clear : screen → screen) (buffer : string)    (* the enter key *)
| DoWindow (i : Z)                                                      (* Alt and a digit *)
| DoSendingCall (latest : string + Z) (call : OutgoingCall)
| DoReceivedCall (latest : string + Z) (call : IncomingCall)
| DoConfirmedFriend (username : string)
| DoSentFriendRequest (username : string)
| DoReceivedFriendRequest (username : string)
| DoUnexpectedSigningKey (username : string)
| DoAnnouncement (message : string)
| DoMark                                                                (* the goroutine of a print *)
| DoScreen (g : screen).                                                (* the terminal changes *)

(** [stamp] is the time of day. *)
Definition run (stamp : string) (req : request) : go GuiClient gui_error unit :=
  match req with
  | DoOutgoing now coins order round => Outgoing now coins order round;; mret ()
  | DoReplies now round replies => Replies stamp now round replies
  | DoLine a clear buffer => readLine stamp a clear buffer
  | DoWindow i => focusConvoIndex i
  | DoSendingCall latest call => SendingCall stamp latest call
  | DoReceivedCall latest call => ReceivedCall stamp latest call
  | DoConfirmedFriend username => ConfirmedFriend username
  | DoSentFriendRequest username => SentFriendRequest username
  | DoReceivedFriendRequest username => ReceivedFriendRequest username
  | DoUnexpectedSigningKey username => UnexpectedSigningKey username
  | DoAnnouncement message => GuiClient_GlobalAnnouncement message
  | DoMark => run_mark
  | DoScreen g => modify (set_gui g)
  end.

(** What the callers see to: the map is ranged over once, random messages and keys have
    their sizes, a round's replies are as many as its messages, and there is room for a
    window where one may be opened. *)
Definition allowed (req : request) s : Prop :=
  match req with
  | DoOutgoing _ coins order round => order ≡ₚ elements (active s) ∧ is_u32 round ∧ ∀ i, wf_message (coins i)
  | DoReplies _ _ replies => length replies = NumOutgoing
  | DoLine _ clear _ => has_room (set_gui (clear (gui s)) s)
  | DoWindow i => 0 <= i
  | DoSendingCall _ call =>
      has_room s ∧ outgoing_Username call ≠ "" ∧ length (outgoing_SessionKey call) = 32%nat
  | DoReceivedCall _ call =>
      has_room s ∧ incoming_Username call ≠ "" ∧ length (incoming_SessionKey call) = 32%nat
  | _ => True
  end.

Lemma run_keeps stamp req s : wf_gui s → allowed req s → wp (run stamp req) (λ _, wf_gui) (λ _, wf_gui) s.
Proof.
  intros Hwf Hal. destruct req; cbn [run allowed] in *.
  - destruct Hal as (Ho & Hr & Hc).
    destruct (Outgoing_run now coins order round s Hwf Ho Hr Hc) as (heap & out & E & Hwf' & _).
    wp_steps. by rewrite (wp_run _ _ _ _ _ _ E).
  - destruct (Replies_run stamp now round replies s _ Hwf eq_refl) as (heap & g & es & E & Hwf' & _).
    { rewrite Hal. destruct (pendingRounds s !! round) as [ps|] eqn:Ep; [|cbn; lia].
      by destruct (wf_pending _ _ _ _ _ _ Hwf round ps Ep). }
    by rewrite (wp_run _ _ _ _ _ _ E).
  - unfold readLine. destruct (decide (trim_right (Ascii.ascii_of_nat 10) buffer = "")); [by wp_steps|].
    wp_steps. by apply handleLine_wp.
  - by apply focusConvoIndex_keeps.
  - destruct Hal as (? & ? & ?). eapply wp_mono; [by apply SendingCall_wp|by intros ? s' [? _]|done].
  - destruct Hal as (? & ? & ?). eapply wp_mono; [by apply ReceivedCall_wp|by intros ? s' [? _]|done].
  - by apply keeps_gc_PrintfSync.
  - by apply keeps_gc_PrintfSync.
  - unfold ReceivedFriendRequest, gc_WarnfSync.
    apply keeps_bind; [apply keeps_gc_PrintfSync|intros _|done].
    apply keeps_bind; [apply keeps_gc_PrintfSync|intros _; apply keeps_event].
  - by apply keeps_gc_PrintfSync.
  - unfold GuiClient_GlobalAnnouncement, gc_WarnfSync.
    apply keeps_bind; [apply keeps_gc_PrintfSync|intros _; apply keeps_event|done].
  - by apply run_mark_keeps.
  - by wp_steps.
Qed.

(** [main] makes the client. *)
Definition initial (name : string) (g : screen) : GuiClient :=
  mkGuiClient name ∅ None [] ∅ ∅ false 0 false g [].

Lemma wf_initial name g : wf_gui (initial name g).
Proof.
  constructor; cbn.
  - intros p c. by rewrite lookup_empty.
  - intros p c. by rewrite lookup_empty.
  - intros p c. by rewrite lookup_empty.
  - intros p. by rewrite elem_of_empty.
  - rewrite size_empty. lia.
  - intros r ps. by rewrite lookup_empty.
  - intros p. by rewrite elem_of_nil.
  - constructor.
  - intros p q c d. by rewrite elem_of_nil.
  - done.
  - intros p c. by rewrite lookup_empty.
  - intros p c. by rewrite lookup_empty.
Qed.

(** A started session, with what the invariant says of it. *)
Lemma started_session username key start s :
  wf_gui s → session_started username key start s →
  ∃ p c, (p ∈ active s ∧ convos s !! p = Some c) ∧ peerUsername c = username ∧ myUsername c = myName s ∧
    keyed key start c ∧ sessionKeyRound c = start ∧ wf_conversation c.
Proof.
  intros Hwf (p & c & Hp & _ & Hc & Eu & Ek & Er). exists p, c. split; [done|]. split; [done|].
  split; [by apply (wf_mine _ _ _ _ _ _ Hwf p)|].
  destruct (wf_active _ _ _ _ _ _ Hwf p Hp) as (c' & Hc' & Hr & _). assert (c' = c) as -> by congruence.
  split; [|split; [done|by apply (wf_heap _ _ _ _ _ _ Hwf p)]].
  unfold is_u32 in Hr. split; [lia|]. split; [done|]. by rewrite Er, Z.sub_diag.
Qed.

Inductive step s : GuiClient → Prop :=
| step_run stamp req : allowed req s → step s (run stamp req s).1.

Lemma steps_wf s s' : wf_gui s → rtc step s s' → wf_gui s'.
Proof.
  intros Hwf Hs. induction Hs as [|s0 s1 s2 [stamp req Hal] _ IH]; [done|]. apply IH.
  pose proof (run_keeps stamp req s0 Hwf Hal) as Hk. unfold wp in Hk. by destruct (run stamp req s0) as [? []].
Qed.

Lemma reachable_wf name g s : rtc step (initial name g) s → wf_gui s.
Proof. apply steps_wf, wf_initial. Qed.

(** C6. The terminal client never breaks. Start it and let rounds, replies, calls, lines
    of the user, keys and notices come in any order: in every state that is reached the
    windows belong to different users, the window with the focus is the selected one, at
    most [NumOutgoing] conversations are active, each has a key, and whatever of these comes
    next is handled without a panic and without blocking; only an error can be returned. *)
Theorem reachable_safe name g s :
  rtc step (initial name g) s →
  wf_gui s ∧ ∀ stamp req, allowed req s → (run stamp req s).2 = Ret () ∨ ∃ e, (run stamp req s).2 = Err e.
Proof.
  intros Hs%reachable_wf. split; [done|]. intros stamp req Hal. pose proof (run_keeps stamp req s Hs Hal) as Hk.
  unfold wp in Hk. destruct (run stamp req s) as [s' [[]| | |]]; try done; eauto.
Qed.

(** C7. Every round sends the same number of messages. In a reachable state [Outgoing]
    returns [NumOutgoing] messages of full size, however many conversations are active and
    whether or not anything was typed: first, for each active conversation, what its
    [NextMessage] gives, then random ones. The round remembers whose place is whose. *)
Theorem Outgoing_constant_rate name g now coins order round s :
  rtc step (initial name g) s →
  order ≡ₚ elements (active s) → is_u32 round → (∀ i, wf_message (coins i)) →
  ∃ s' out, Outgoing now coins order round s = (s', Ret out) ∧
    length out = NumOutgoing ∧ Forall wf_message out ∧
    pendingRounds s' !! round = Some order ∧
    (∀ j p c, order !! j = Some p → convos s !! p = Some c → ∃ c' m,
       NextMessage (now j) (coins j) round c = (c', Ret m) ∧ out !! j = Some m ∧ convos s' !! p = Some c') ∧
    (∀ j, (size (active s) ≤ j < NumOutgoing)%nat → out !! j = Some (coins j)).
Proof.
  intros Hs%reachable_wf Ho Hr Hc.
  destruct (Outgoing_run now coins order round s Hs Ho Hr Hc) as (heap & out & E & _ & Hl & Hm & Hat & Hpad & _).
  eexists _, out. split; [exact E|]. split; [done|]. split; [done|]. split; [apply lookup_insert_eq|].
  split; [exact Hat|]. intros j Hj. apply Hpad. by rewrite Ho.
Qed.

(** C8. The replies go where the messages came from. With at least as many replies as the
    round had conversations, [Replies] gives each of them the reply in its message's place
    and leaves every other conversation alone; the round is forgotten, so that replies that
    come again change no conversation. *)
Theorem Replies_dispatch stamp name g now round replies order s :
  rtc step (initial name g) s →
  pendingRounds s !! round = Some order → (length order ≤ length replies)%nat →
  ∃ s', Replies stamp now round replies s = (s', Ret ()) ∧
    (∀ j p c e, order !! j = Some p → convos s !! p = Some c → replies !! j = Some e → ∃ c' r,
       Reply (now j) round e c = (c', Ret r) ∧ convos s' !! p = Some c') ∧
    (∀ p, p ∉ order → convos s' !! p = convos s !! p) ∧
    ∀ now' replies', ∃ s'', Replies stamp now' round replies' s' = (s'', Ret ()) ∧ convos s'' = convos s'.
Proof.
  intros Hs%reachable_wf Hp Hl.
  destruct (Replies_run stamp now round replies s order Hs) as (heap & g' & es & E & _ & Hat & Hother);
    [by rewrite Hp|done|].
  eexists. split; [exact E|]. split; [exact Hat|]. split; [exact Hother|]. intros now' replies'.
  unfold Replies. rewrite go_bind_unfold. cbn [get]. rewrite go_bind_unfold. cbn [modify].
  match goal with |- context [default [] ?x] => replace x with (None : option (list loc)) end.
  - eexists. split; [reflexivity|]. done.
  - symmetry. apply lookup_delete_eq.
Qed.

(** C5. A call sets up a conversation. When alice's client sends a call and bob's receives
    it, each having room for one more active conversation and bob's round at most one
    rounding increment after alice's, both clients activate the window of the other user
    with the call's key from one common round on; and in every round from there on their
    conversations put their messages at one dead drop, and either shows what it gets from the
    other as soon as the dead drop gives it the other's message. *)
Theorem call_connects stampa stampb namea nameb ga gb key r x sa sb :
  rtc step (initial namea ga) sa → rtc step (initial nameb gb) sb →
  myName sa ≠ "" → myName sb ≠ "" → has_room sa → has_room sb →
  (size (active sa) < NumOutgoing)%nat → (size (active sb) < NumOutgoing)%nat →
  length key = 32%nat → 0 <= r → 0 <= x <= roundingIncrement stdRoundSyncer → is_u32 (r + x) →
  ∃ sa' sb' start intent,
    outgoingCallConvoRound (E:=gui_error) stdRoundSyncer r = Ret (start, intent) ∧ start <= r ∧
    SendingCall stampa (inr r) (mkOutgoingCall (myName sb) key) sa = (sa', Ret ()) ∧
    UpdateIntent (myName sb) intent ∈ gui_events sa' ∧
    ReceivedCall stampb (inr (r + x)) (mkIncomingCall (myName sa) key intent) sb = (sb', Ret ()) ∧
    ∃ pa a pb b,
      (pa ∈ active sa' ∧ convos sa' !! pa = Some a ∧ peerUsername a = myName sb) ∧
      (pb ∈ active sb' ∧ convos sb' !! pb = Some b ∧ peerUsername b = myName sa) ∧
      ∀ round nowa nowb da db, start <= round → is_u32 round → ∃ a' ma msga b' mb msgb,
        NextMessage nowa da round a = (a', Ret ma) ∧ NextMessage nowb db round b = (b', Ret mb) ∧
        (compose round a).2 = Ret msga ∧ (compose round b).2 = Ret msgb ∧ DeadDrop ma = DeadDrop mb ∧
        ∀ now, EncryptedMessage ma ≠ EncryptedMessage mb →
          (Reply now round (EncryptedMessage ma) b').2 =
            Ret (Shown (trim_right_nul <$> (receive (now - nowb) (wire msga) b').2)) ∧
          (Reply now round (EncryptedMessage mb) a').2 =
            Ret (Shown (trim_right_nul <$> (receive (now - nowa) (wire msgb) a').2)).
Proof.
  intros Hwa%reachable_wf Hwb%reachable_wf Hna Hnb Hra Hrb Hsa Hsb Hk Hr Hx Hrx.
  destruct (start_round_agrees (E:=gui_error) stdRoundSyncer r x) as (start & intent & Eo & Ei & Hstart); [done..|].
  destruct (wp_Ret _ _ _ (SendingCall_wp stampa (inr r) (mkOutgoingCall (myName sb) key) sa Hwa Hra Hnb Hk))
    as (sa' & [] & Ea & Hwa' & Ena' & Hca).
  destruct (wp_Ret _ _ _ (ReceivedCall_wp stampb (inr (r + x)) (mkIncomingCall (myName sa) key intent) sb Hwb Hrb Hna Hk))
    as (sb' & [] & Eb & Hwb' & Enb' & Hcb).
  destruct (Hca r start intent eq_refl Eo) as [Hint Hca'].
  destruct (started_session _ _ _ _ Hwa' (Hca' Hsa)) as (pa & a & Hpa & Epa & Ema & Ka & Ra & Wa).
  destruct (started_session _ _ _ _ Hwb' (Hcb (r + x) start eq_refl Ei Hsb)) as (pb & b & Hpb & Epb & Emb & Kb & Rb & Wb).
  exists sa', sb', start, intent. do 5 (split; [done || lia|]). exists pa, a, pb, b. do 2 (split; [tauto|]).
  intros round nowa nowb da db Hle Hround.
  assert (Eab : peerUsername a = myUsername b) by (cbn in *; congruence).
  assert (Eba : peerUsername b = myUsername a) by (cbn in *; congruence).
  destruct (peers_exchange_run nowa nowb da db round a b key start) as (a' & ma & b' & mb & msga & Na & Nb & Em & E1 & E2 & _ & _ & Ed & HR);
    [done..|lia|lia|done|done|done|done|done|].
  destruct (peers_exchange_run nowb nowa db da round b a key start) as (b2 & mb2 & a2 & ma2 & msgb & Nb2 & Na2 & Em2 & F1 & F2 & _ & _ & _ & HR');
    [done..|lia|lia|done|done|done|done|done|].
  rewrite Na in Na2. rewrite Nb in Nb2. injection Na2 as <- <-. injection Nb2 as <- <-.
  exists a', ma, msga, b', mb, msgb. do 5 (split; [done|]). intros now Hne. split.
  - by destruct (HR now b' E1 E2 eq_refl (or_introl Hne)) as [u ->].
  - by destruct (HR' now a' F1 F2 eq_refl (or_introl (not_eq_sym Hne))) as [u ->].
Qed.

(** ** Completion *)

Lemma elem_of_remove_dupes seen choices x :
  x ∈ remove_dupes seen choices ↔ x ∈ choices ∧ x ∉ seen.
Proof.
  revert seen. induction choices as [|c choices IH]; intros seen; cbn [remove_dupes].
  - rewrite elem_of_nil. naive_solver.
  - destruct (decide (c ∈ seen)) as [Hc|Hc]; [|rewrite elem_of_cons]; rewrite IH, elem_of_cons; [naive_solver|].
    rewrite not_elem_of_union, not_elem_of_singleton. destruct (decide (x = c)) as [->|]; naive_solver.
Qed.

Lemma NoDup_remove_dupes seen choices : NoDup (remove_dupes seen choices).
Proof.
  revert seen. induction choices as [|c choices IH]; intros seen; cbn [remove_dupes]; [constructor|].
  destruct (decide (c ∈ seen)); [done|]. constructor; [|done]. rewrite elem_of_remove_dupes, not_elem_of_union, not_elem_of_singleton. tauto.
Qed.

(** The usernames of the windows. *)
Definition name_at s (p : loc) : string := default "" (peerUsername <$> convos s !! p).

Lemma window_names_run ps s : (∀ p, p ∈ ps → alive p s) → window_names ps s = (s, Ret (name_at s <$> ps)).
Proof.
  induction ps as [|p ps IH]; intros Hal; [done|]. destruct (Hal p) as [c Hc]; [by left|].
  cbn [window_names]. rewrite go_bind_unfold. unfold deref. rewrite go_bind_unfold. cbn [get lift].
  rewrite Hc. cbn [or_panic]. rewrite go_bind_unfold, IH by (intros q Hq; apply Hal; by right).
  cbn. unfold name_at at 2. by rewrite Hc.
Qed.

(** What can follow the command: its windows, friends and requests. *)
Definition choices_of (a : alpenhorn) (cmd : string) s : list string :=
  (if decide (cmd = "w") then name_at s <$> conversations s else []) ++
  (if decide (cmd ∈ ["call"; "delfriend"; "debugfriend"; "addfriend"; "w"]) then GetFriends a else []) ++
  (if decide (cmd = "approve") then in_Username <$> GetIncomingFriendRequests a else []).

Lemma argument_choices_run a cmd s :
  wf_gui s → argument_choices a cmd s = (s, Ret (choices_of a cmd s)).
Proof.
  intros Hwf. unfold argument_choices. rewrite go_bind_unfold. cbn [get]. rewrite go_bind_unfold.
  unfold choices_of. destruct (decide (cmd = "w")) as [->|]; [|done].
  rewrite window_names_run; [done|]. intros p Hp. by apply (wf_windows _ _ _ _ _ _ Hwf).
Qed.

Lemma elem_of_completePrefix prefix choices m :
  m ∈ completePrefix prefix choices ↔ m ∈ choices ∧ ∃ rest, m = (prefix ++ rest)%string.
Proof. unfold completePrefix. rewrite list_elem_of_filter, HasPrefix_true. tauto. Qed.

Lemma gc_Printf_returns text s : ∃ s', gc_Printf text s = (s', Ret ()).
Proof.
  unfold gc_Printf. rewrite go_bind_unfold. cbn [get]. destruct (screen_View "main" (gui s)); by eexists.
Qed.

(** The tab key completes what can only be one thing. If [tabComplete] types a text,
    that text ends in a blank and makes of the last word on the line the one name that
    starts with it: a command on the first word, else a window, friend or request that the
    command takes. If it types nothing, there is no such name or there are several, or the
    line is no command. *)
Theorem tabComplete_unique name g a order s c words typed :
  rtc step (initial name g) s → order ≡ₚ command_names →
  trim_right (Ascii.ascii_of_nat 10) typed = String.String c words →
  let args := split_on (Ascii.ascii_of_nat 32) words in
  let prefix := default "" (last args) in
  let choices := if decide (length args = 1%nat) then command_names
                 else choices_of a (default "" (head args)) s in
  ∃ s' answer, tabComplete a order typed s = (s', Ret answer) ∧
    match answer with
    | Some text => c = Ascii.ascii_of_nat 47 ∧ ∃ rest, text = (rest ++ " ")%string ∧
        ∀ m, (m ∈ choices ∧ ∃ r, m = (prefix ++ r)%string) ↔ m = (prefix ++ rest)%string
    | None => c = Ascii.ascii_of_nat 47 →
        ¬ ∃ m, ∀ m', (m' ∈ choices ∧ ∃ r, m' = (prefix ++ r)%string) ↔ m' = m
    end.
Proof.
  intros Hwf%reachable_wf Ho Ht args prefix choices. unfold tabComplete. rewrite Ht.
  destruct (decide (c ≠ Ascii.ascii_of_nat 47)) as [Hc|Hc]; [by exists s, None|].
  apply dec_stable in Hc as ->. fold args. rewrite go_bind_unfold.
  set (uniq := if decide (length args = 1%nat) then order
               else remove_dupes ∅ (choices_of a (default "" (head args)) s)).
  assert (Euniq : (if decide (length args = 1%nat) then mret order
           else choices ← argument_choices a (default "" (head args)); mret (remove_dupes ∅ choices)) s =
         (s, Ret (E:=gui_error) uniq)).
  { unfold uniq. destruct (decide (length args = 1%nat)); [done|].
    by rewrite go_bind_unfold, argument_choices_run. }
  assert (Hin : ∀ m, m ∈ completePrefix prefix uniq ↔ m ∈ choices ∧ ∃ r, m = (prefix ++ r)%string).
  { intros m. rewrite elem_of_completePrefix. unfold uniq, choices.
    destruct (decide (length args = 1%nat)); [by rewrite Ho|]. rewrite elem_of_remove_dupes.
    split; [tauto|]. intros [Hm Hr]. split; [|done]. split; [done|]. apply not_elem_of_empty. }
  assert (Hnd : NoDup (completePrefix prefix uniq)).
  { apply NoDup_filter. unfold uniq. destruct (decide (length args = 1%nat)); [|apply NoDup_remove_dupes].
    rewrite Ho. apply (bool_decide_unpack _). vm_compute. exact I. }
  rewrite Euniq. fold prefix. destruct (completePrefix prefix uniq) as [|m [|m' ms]].
  - exists s, None. split; [done|]. intros _ [m Hm]. pose proof (proj2 (Hm m) eq_refl) as Hx.
    apply Hin in Hx. by apply elem_of_nil in Hx.
  - destruct (proj1 (Hin m)) as [Hm [rest Erest]]; [by left|].
    exists s, (Some (rest ++ " ")%string). split.
    + cbn. by rewrite (proj2 (cut_prefix_Some prefix m rest) Erest).
    + split; [done|]. exists rest. split; [done|]. intros x. rewrite <- Hin, list_elem_of_singleton. by rewrite Erest.
  - unfold gc_Warnf. rewrite go_bind_unfold.
    match goal with |- context [gc_Printf ?t s] => destruct (gc_Printf_returns t s) as [s' ->] end.
    exists s', None. split; [done|]. intros _ [x Hx]. apply NoDup_cons in Hnd as [Hne _].
    assert (E : ∀ y, y ∈ m :: m' :: ms → y = x) by (intros y Hy; apply Hx, Hin, Hy).
    apply Hne. rewrite (E m) by (by left). rewrite <- (E m') by (right; by left). by left.
Qed.

End machine.
