(* ===== verification/Connect.v ===== *)
(** * Connecting (cmd/gjallarhorn-client/connect.go)

    The client connects once the servers that keep the users' keys (PKGs) know it; three
    goroutines then keep the connections up. What the PKGs answer is an argument. *)

From Stdlib Require Import ZArith Lia.
From stdpp Require Import base numbers strings sets gmap fin_maps fin_sets list.
From S2P Require Import Prelude GoStd Json GoStrings External Settings Convo Conversation Wp Gui.

(** neverlur/pkg: [pkg.Error] with its code. *)
Inductive pkg_code := ErrNotRegistered | ErrInvalidSignature | OtherCode.

(** An error: its code if it is a [pkg.Error], and its text. *)
Record conn_error := mkConnError { err_code : option pkg_code; err_text : string }.

#[export] Instance pkg_code_eq_dec : EqDecision pkg_code.
Proof. solve_decision. Defined.

(** The answer of one PKG. *)
Record pkg_status := mkPkgStatus { pkg_Address : string; pkg_Error : option conn_error }.

Definition statusString (err : option conn_error) : string :=
  match err with
  | None => "OK"
  | Some err =>
      match err_code err with
      | Some ErrNotRegistered => "Username not registered"
      | Some ErrInvalidSignature => "Invalid signature (username taken)"
      | _ => err_text err
      end
  end.

(** The loop over the answers: [numOK] and [numUnregistered]. *)
Fixpoint count_status (stats : list pkg_status) (numOK numUnregistered : nat) : nat * nat :=
  match stats with
  | [] => (numOK, numUnregistered)
  | st :: stats =>
      match pkg_Error st with
      | None => count_status stats (S numOK) numUnregistered
      | Some err =>
          if decide (err_code err = Some ErrNotRegistered)
          then count_status stats numOK (S numUnregistered)
          else count_status stats numOK numUnregistered
      end
  end.

(** The start of a line about a PKG. *)
Definition bullet : string := " ·  ".

Section connect.
Context `{NaCl} `{Gocui} `{Ansi}.
(** %q, and the name of the user. *)
Context (quote : string → string) (username : string).

Abbreviation handler := (go GuiClient gui_error).

Definition EnsureConnected : handler unit :=
  s ← get;
  if connectOnce s then mret ()
  else
    modify (set_connectOnce true);;
    event (GoConnectLoop "Convo");;
    event (GoConnectLoop "AddFriend");;
    event (GoConnectLoop "Dialing").

Definition CheckPKGStatus (stats : list pkg_status) : handler bool :=
  let '(numOK, numUnregistered) := count_status stats 0 0 in
  if decide (numUnregistered = length stats)
  then
    gc_WarnfSync ("Username " ++ quote username ++
      " not registered. Visit https://vuvuzela.io to get started." ++ nl)%string;;
    mret false
  else if decide (numOK ≠ length stats)
  then
    let lines := String.concat "" ((λ st,
      (bullet ++ "PKG " ++ pkg_Address st ++ ": " ++ statusString (pkg_Error st) ++ nl)%string) <$> stats) in
    gc_WarnfSync ("Connection error: inconsistent PKG status for " ++ quote username ++ ":" ++ nl ++ lines)%string;;
    gc_WarnfSync ("Type /connect after resolving the issue to try again." ++ nl)%string;;
    mret false
  else mret true.

Definition Connect (stats : list pkg_status) : handler unit :=
  ok ← CheckPKGStatus stats;
  if ok : bool then EnsureConnected else mret ().

(** The loop over the PKGs: the lines that are printed and the number of those that know the
    user; [register] is what [Register] returns for a server. *)
Fixpoint register_all (register : string → option string) (token : string) (stats : list pkg_status)
    (numOK : nat) : handler (string * nat) :=
  match stats with
  | [] => mret ("", numOK)
  | st :: stats =>
      let pkg := ("PKG " ++ pkg_Address st ++ ": ")%string in
      '(line, ok) ←
        match pkg_Error st with
        | None => mret ((pkg ++ "OK (already registered)")%string, true)
        | Some err =>
            if decide (err_code err ≠ Some ErrNotRegistered) then mret ((pkg ++ err_text err)%string, false)
            else
              event (RegisterUser (pkg_Address st) token);;
              mret match register (pkg_Address st) with
                   | Some err => ((pkg ++ "failed to register: " ++ err)%string, false)
                   | None => ((pkg ++ "OK (registered)")%string, true)
                   end
        end;
      '(lines, numOK) ← register_all register token stats (if ok : bool then S numOK else numOK);
      mret ((bullet ++ line ++ nl ++ lines)%string, numOK)
  end.

Definition RegisterAll (register : string → option string) (token : string) (stats : list pkg_status)
    : handler unit :=
  '(lines, numOK) ← register_all register token stats 0;
  gc_WarnfSync ("Registration status for " ++ quote username ++ ":" ++ nl ++ lines)%string;;
  if decide (numOK = length stats) then EnsureConnected else mret ().

(** ** The loop of a connection *)

(** What a turn meets: [ConnectFailed] is an error of [connectFunc], [Disconnected] is what
    the channel of a connection delivers. *)
Inductive connection := ConnectFailed (err : string) | Disconnected (err : string).

Definition connectRetry : string := "10s".

(** A turn, with [prevErr]. *)
Definition connect_turn (service : string) (prevErr : option string) (c : connection)
    : handler (option string) :=
  match c with
  | ConnectFailed err =>
      if decide (prevErr = None ∨ prevErr ≠ Some err)
      then
        gc_WarnfSync ("Error connecting to " ++ service ++ " service: " ++ err ++ " (retrying every " ++
                      connectRetry ++ ")" ++ nl)%string;;
        mret (Some err)
      else mret prevErr
  | Disconnected err =>
      gc_WarnfSync ("Connected to " ++ service ++ " service!" ++ nl)%string;;
      gc_WarnfSync ("Disconnected from " ++ service ++ " service: " ++ err ++ " (reconnecting in " ++
                    connectRetry ++ ")" ++ nl)%string;;
      mret None
  end.

Fixpoint connectLoop (service : string) (prevErr : option string) (cs : list connection)
    : handler (option string) :=
  match cs with
  | [] => mret prevErr
  | c :: cs =>
      prevErr ← connect_turn service prevErr c;
      connectLoop service prevErr cs
  end.

End connect.

(** ** Properties *)

Definition registered (st : pkg_status) : Prop := pkg_Error st = None.
Definition unregistered (st : pkg_status) : Prop :=
  ∃ err, pkg_Error st = Some err ∧ err_code err = Some ErrNotRegistered.

Lemma count_status_spec stats a b :
  ∃ n m, count_status stats a b = ((a + n)%nat, (b + m)%nat) ∧ (n + m ≤ length stats)%nat ∧
    (n = length stats ↔ Forall registered stats) ∧ (m = length stats ↔ Forall unregistered stats).
Proof.
  revert a b. induction stats as [|st stats IH]; intros a b.
  - exists 0%nat, 0%nat. cbn. rewrite !Nat.add_0_r. repeat split; try done; constructor.
  - cbn [count_status length]. unfold registered, unregistered in *.
    destruct (pkg_Error st) as [err|] eqn:E; [destruct (decide (err_code err = Some ErrNotRegistered)) as [Hc|Hc]|].
    + destruct (IH a (S b)) as (n & m & -> & Hle & Hn & Hm). exists n, (S m).
      split; [f_equal; lia|]. split; [lia|]. rewrite !Forall_cons, E. split; [split; [lia|by intros []]|].
      rewrite <- Hm. split; [|lia]. intros [= ->]. split; [by exists err|done].
    + destruct (IH a b) as (n & m & -> & Hle & Hn & Hm). exists n, m.
      split; [done|]. split; [lia|]. rewrite !Forall_cons, E. split; [split; [lia|by intros []]|].
      split; [lia|]. intros [(err' & [= <-] & ?) _]. done.
    + destruct (IH (S a) b) as (n & m & -> & Hle & Hn & Hm). exists (S n), m.
      split; [f_equal; lia|]. split; [lia|]. rewrite !Forall_cons, E. split.
      * rewrite <- Hn. split; [|lia]. by intros [= ->].
      * split; [lia|]. by intros [(err & ? & _) _].
Qed.

Section properties.
Context `{NaCl} `{Gocui} `{Ansi}.

(** The connections are started at most once. *)
Lemma EnsureConnected_twice s :
  ∃ s', EnsureConnected s = (s', Ret ()) ∧ connectOnce s' = true ∧ EnsureConnected s' = (s', Ret ()).
Proof.
  unfold EnsureConnected. rewrite go_bind_unfold. cbn [get]. destruct (connectOnce s) eqn:E.
  - exists s. by rewrite go_bind_unfold; cbn [get]; rewrite E.
  - eexists. split; [reflexivity|]. by split.
Qed.

Lemma gc_PrintfSync_once text s : ∃ s', gc_PrintfSync text s = (s', Ret ()) ∧ connectOnce s' = connectOnce s ∧
  (∀ service, GoConnectLoop service ∈ gui_events s' ↔ GoConnectLoop service ∈ gui_events s).
Proof.
  unfold gc_PrintfSync, write_sync. rewrite go_bind_unfold. rewrite go_bind_unfold. cbn [get].
  destruct (screen_View "main" (gui s)); (eexists; split; [reflexivity|]); (split; [done|]); [done|].
  intros service. cbn. rewrite elem_of_app, list_elem_of_singleton. split; [by intros [?|?]|by left].
Qed.

(** The client connects only when every PKG knows the user. [Connect] starts the three
    connection loops when no PKG reports an error and there is a PKG at all, and starts them once;
    otherwise it prints what is wrong and starts nothing. *)
Theorem Connect_when_registered quote username stats s :
  connectOnce s = false →
  ∃ s', Connect quote username stats s = (s', Ret ()) ∧
    (Forall registered stats ∧ stats ≠ [] →
       connectOnce s' = true ∧
       gui_events s' = gui_events s ++ [GoConnectLoop "Convo"; GoConnectLoop "AddFriend"; GoConnectLoop "Dialing"] ∧
       Connect quote username stats s' = (s', Ret ())) ∧
    (¬ (Forall registered stats ∧ stats ≠ []) →
       connectOnce s' = false ∧
       ∀ service, GoConnectLoop service ∈ gui_events s' ↔ GoConnectLoop service ∈ gui_events s).
Proof.
  intros Hs. unfold Connect, CheckPKGStatus.
  destruct (count_status_spec stats 0 0) as (n & m & -> & Hle & Hn & Hm). cbn [Nat.add].
  destruct (decide (m = length stats)) as [Em|Em]; [|destruct (decide (n ≠ length stats)) as [En|En]].
  - destruct (gc_PrintfSync_once (warningPrefix ++ ("Username " ++ quote username ++
      " not registered. Visit https://vuvuzela.io to get started." ++ nl))%string s) as (s' & E & Eo & Ee).
    exists s'. rewrite go_bind_unfold, go_bind_unfold. unfold gc_WarnfSync. rewrite E.
    split; [done|]. split; [|by rewrite Eo].
    intros [Hall%Hn Hne]. destruct stats; [done|]. cbn [length] in *. lia.
  - match goal with |- context [gc_WarnfSync ?a;; _] => set (line := a) end.
    destruct (gc_PrintfSync_once (warningPrefix ++ line)%string s) as (s1 & E1 & Eo1 & Ee1).
    destruct (gc_PrintfSync_once (warningPrefix ++ ("Type /connect after resolving the issue to try again." ++ nl))%string s1)
      as (s2 & E2 & Eo2 & Ee2).
    exists s2. rewrite go_bind_unfold, go_bind_unfold. unfold gc_WarnfSync. rewrite E1, go_bind_unfold, E2.
    split; [done|]. split; [by intros [Hall%Hn _]|].
    split; [congruence|]. intros service. by rewrite Ee2.
  - apply dec_stable in En. rewrite go_bind_unfold. cbn [mret go_ret].
    assert (Hne : stats ≠ []) by (intros ->; cbn in *; lia).
    unfold EnsureConnected. rewrite go_bind_unfold. cbn [get]. rewrite Hs.
    eexists. split; [reflexivity|]. split; [|intros Hf; exfalso; apply Hf; split; [by apply Hn|done]].
    intros _. split; [done|]. split; [cbn; by rewrite <- !app_assoc|]. done.
Qed.

(** A failure that repeats is not printed again. *)
Lemma connectLoop_quiet service err n s :
  connectLoop service (Some err) (replicate n (ConnectFailed err)) s = (s, Ret (Some err)).
Proof.
  induction n as [|n IH]; [done|]. cbn [replicate connectLoop]. rewrite go_bind_unfold. cbn [connect_turn].
  rewrite decide_False by (intros [|]; congruence). exact IH.
Qed.

End properties.
