(* ===== verification/GuiRun.v ===== *)
(** * Running the terminal client (cmd/gjallarhorn-client/gui.go)

    [Run]: the key bindings, the line editor, the greeting and the main loop of the terminal,
    which draws the screen after every event and ends when an operation returns an error. *)

From Stdlib Require Import ZArith Lia.
From stdpp Require Import base numbers strings sets gmap fin_maps fin_sets list.
From S2P Require Import Prelude GoStd Json GoStrings External Settings Convo Conversation Wp Gui GuiInvariant GuiScreen Commands Connect.

(** ** Keys *)

(** gocui: a key with its rune ([None] the rune 0), and whether a modifier is held. *)
Inductive key :=
| KeyCtrlC | KeyEnter | KeyTab | KeyPgup | KeyPgdn | KeySpace | KeyBackspace | KeyBackspace2
| KeyDelete | KeyInsert | KeyArrowLeft | KeyArrowRight | KeyHome | KeyEnd | KeyOther.

Inductive modifier := ModNone | ModAlt.

Record key_event := mkKeyEvent { ev_key : key; ev_rune : option Ascii.ascii; ev_mod : modifier }.

(** What the editor does to its view. *)
Inductive edit :=
| EditWrite (ch : Ascii.ascii)
| EditDelete (back : bool)
| EditOverwrite
| MoveCursor (dx dy : Z)
| SetCursor (x y : Z).

(** [line] is the first line of the view. *)
Definition vuvuzelaEditor (line : string) (e : key_event) : option edit :=
  match ev_rune e, ev_mod e with
  | Some ch, ModNone => Some (EditWrite ch)
  | _, _ =>
      match ev_key e with
      | KeySpace => Some (EditWrite (Ascii.ascii_of_nat 32))
      | KeyBackspace | KeyBackspace2 => Some (EditDelete true)
      | KeyDelete => Some (EditDelete false)
      | KeyInsert => Some EditOverwrite
      | KeyArrowLeft => Some (MoveCursor (-1) 0)
      | KeyArrowRight => Some (MoveCursor 1 0)
      | KeyHome => Some (SetCursor 0 0)
      | KeyEnd => Some (SetCursor (Z.of_nat (String.length line)) 0)
      | _ => None
      end
  end.

(** The runes of the Alt bindings, in the order of their windows. *)
Definition window_runes : list Ascii.ascii := String.list_ascii_of_string "1234567890".

Record launchStatus := mkLaunchStatus { isNewAlpenhornClient : bool; isNewVuvuzelaClient : bool }.

Section run.
Context `{NaCl} `{GocuiViews} `{AnsiColors} `{Alpenhorn}.
Context (seconds : Z → string) (quote : string → string) (stamp : string).

Abbreviation handler := (go GuiClient gui_error).

Definition quit : handler unit := throw ErrQuit.

(** What a bound key runs in the view [view], the one with the cursor. [typed] is given the
    text that completion adds. *)
Definition key_binding (a : alpenhorn) (order : list string) (clear : screen → screen)
    (buffer view : string) (typed : option string → handler unit) (e : key_event)
    : option (handler unit) :=
  match ev_key e, ev_rune e, ev_mod e with
  | KeyCtrlC, None, ModNone => Some quit
  | _, Some ch, ModAlt =>
      (λ p : nat * Ascii.ascii, focusConvoIndex (Z.of_nat p.1)) <$> list_find (λ c, c = ch) window_runes
  | KeyEnter, None, ModNone => if decide (view = "input") then Some (readLine stamp a clear buffer) else None
  | KeyTab, None, ModNone =>
      if decide (view = "input") then Some (tabComplete a order buffer ≫= typed) else None
  | KeyPgup, None, ModNone => Some scrollUp
  | KeyPgdn, None, ModNone => Some scrollDown
  | _, _, _ => None
  end.

(** ** The greeting

    The goroutine that [Run] starts; [stats] is what the PKGs answer. *)

(** [PrintfSync] line by line. *)
Fixpoint print_lines (lines : list string) : handler unit :=
  match lines with
  | [] => mret ()
  | line :: lines => gc_PrintfSync line;; print_lines lines
  end.

Definition greet (status : launchStatus) (username publicKey alpenhornPath convoPath : string)
    (stats : list pkg_status) : handler unit :=
  gc_Printf ("Welcome to Vuvuzela. Type /help for help." ++ nl)%string;;
  (if isNewAlpenhornClient status || isNewVuvuzelaClient status
   then
     (if isNewAlpenhornClient status
      then print_lines
        [(nl ++ "-!- Generated new Alpenhorn client" ++ nl)%string;
         (bullet ++ "Username:   " ++ username ++ nl)%string;
         (bullet ++ "Public Key: " ++ publicKey ++ nl)%string;
         (bullet ++ "Data Path:  " ++ alpenhornPath ++ nl)%string]
      else mret ());;
     (if isNewVuvuzelaClient status
      then print_lines
        [(nl ++ "-!- Generated new Vuvuzela client" ++ nl)%string;
         (bullet ++ "Data Path:  " ++ convoPath ++ nl)%string]
      else mret ());;
     gc_PrintfSync (nl ++ "@@@ Cautious users should verify the initial configs at the above paths before sending messages. @@@" ++ nl ++ nl)%string
   else mret ());;
  Connect quote username stats.

(** ** The log

    [Fire] gets a log entry; its parts, already formatted, are arguments. *)
Definition Fire (is_info : bool) (time : string) (color : code) (icon message fields : string)
    : handler unit :=
  let time := if is_info then time else Colorf time [color; Bold] in
  gc_WarnfSync (time ++ " " ++ icon ++ " " ++ pad_cell 44 message ++ " " ++ fields ++ nl)%string.

(** ** The main loop

    gocui draws, then handles one event after the other and draws again. *)
Fixpoint main_loop (events : list (handler unit)) : handler unit :=
  match events with
  | [] => mret ()
  | e :: events => e;; layout seconds;; main_loop events
  end.

Definition Run (events : list (handler unit)) : handler unit :=
  err ← catch (layout seconds;; main_loop events);
  match err with
  | inl ErrQuit => mret ()
  | inl _ => panic
  | inr _ => mret ()
  end.

End run.

Section running.
Context `{NaClLaws} `{GocuiViewsLaws} `{!GocuiLaws} `{AnsiColors}.
Context (seconds : Z → string).

(** The room that drawing needs. *)
Definition drawable (s : GuiClient) : Prop :=
  wf_gui s ∧ has_room s ∧ partner_fits s.

(** The events leave the screen drawable or quit. *)
Fixpoint drawable_events (events : list (go GuiClient gui_error unit)) (s : GuiClient) : Prop :=
  match events with
  | [] => True
  | e :: events =>
      wp e (λ _ s', drawable s' ∧ ∀ g, laid_out (set_gui g s') → drawable_events events (set_gui g s'))
        (λ err _, err = ErrQuit) s
  end.

Lemma layout_Ret s : drawable s →
  ∃ g, layout seconds s = (set_gui g s, Ret ()) ∧ laid_out (set_gui g s).
Proof.
  intros (Hwf & Hr & Hf).
  destruct (wp_Ret _ _ _ (draws_layout seconds s Hwf (wf_windows_named s Hwf) Hr Hf)) as (s' & [] & E & (g & -> & _) & Hl). by exists g.
Qed.

Lemma main_loop_ends events s :
  drawable_events events s → wp (main_loop seconds events) (λ _ _, True) (λ err _, err = ErrQuit) s.
Proof.
  revert s. induction events as [|e events IH]; intros s He; cbn [main_loop]; [by wp_steps|].
  cbn [drawable_events] in He. apply wp_bind. eapply wp_mono; [exact He| |done].
  intros ? s1 [Hd Hrest]. apply wp_bind. destruct (layout_Ret s1 Hd) as (g & E & Hl).
  rewrite (wp_run _ _ _ _ _ _ E). by apply IH, Hrest.
Qed.

(** As long as every event leaves a state that can be drawn, [Run] ends without a panic. *)
Lemma Run_ends events s :
  drawable s → (∀ g, laid_out (set_gui g s) → drawable_events events (set_gui g s)) →
  wp (Run seconds events) (λ _ _, True) (λ _ _, False) s.
Proof.
  intros Hd He. unfold Run. apply wp_bind, wp_catch, wp_bind.
  destruct (layout_Ret s Hd) as (g & E & Hl). rewrite (wp_run _ _ _ _ _ _ E).
  eapply wp_mono; [apply main_loop_ends, He, Hl|by intros; wp_steps|].
  intros err s' ->. by wp_steps.
Qed.

(** On a terminal without room for the input line it panics. *)
Lemma Run_narrow_panics events (s : GuiClient) :
  wf_gui s → has_room s → ¬ partner_fits s →
  (Run seconds events s).2 = Panic.
Proof.
  intros Hwf Hr Hf. unfold Run. rewrite go_bind_unfold. unfold catch. rewrite go_bind_unfold.
  by destruct (layout_narrow seconds s Hwf Hr Hf) as [s' ->].
Qed.

End running.
