(* ===== verification/GuiScreenExamples.v ===== *)
(** * The screen on concrete inputs

    A terminal that is a set of views and a width, on which a view needs an area. *)

From Stdlib Require Import ZArith Lia.
From stdpp Require Import base numbers strings sets gmap fin_maps fin_sets relations list.
From S2P Require Import Prelude GoStd Json GoStrings External Settings Convo ConvoConfig Coordinator Client Conversation Delivery ClientExamples Wp Gui GuiInvariant GuiScreen Commands Calls GuiSystem Connect GuiRun.

Local Existing Instance Toy.nacl.
Local Existing Instance Toy.nacl_laws.

Record terminal := mkTerminal { term_width : Z; term_views : gset string }.

Definition add_view (name : string) (x0 y0 x1 y1 : Z) (g : terminal) : terminal * option gui_error :=
  if decide (x0 < x1 ∧ y0 < y1)
  then (mkTerminal (term_width g) ({[name]} ∪ term_views g),
        if decide (name ∈ term_views g) then None else Some ErrUnknownView)
  else (g, Some InvalidView).

Definition with_view (name : string) (g : terminal) : terminal * option gui_error :=
  (g, if decide (name ∈ term_views g) then None else Some ErrUnknownView).

Local Instance gocui : Gocui := {|
  screen := terminal;
  screen_Size g := (term_width g, 25);
  screen_View name g := bool_decide (name ∈ term_views g);
  screen_SetView := add_view;
  screen_SetViewOnTop := with_view;
  screen_Attr _ _ _ _ g := g;
  screen_Write _ _ g := g
|}.

Local Instance gocui_views : GocuiViews := {|
  screen_Set _ _ g := g;
  screen_Edit _ g := g;
  screen_Clear _ g := g;
  screen_SetCurrentView := with_view;
  screen_SetOrigin name _ _ := with_view name;
  view_Autoscroll _ _ := true;
  view_Size _ _ := (80, 22);
  view_Origin _ _ := (0, 0);
  view_ViewBuffer _ _ := ""
|}.

Lemma screen_laws : GocuiLaws.
Proof.
  constructor. intros name x0 y0 x1 y1 g _ Hx Hy. cbn. unfold add_view. rewrite decide_True by done.
  cbn. destruct (decide (name ∈ term_views g)); [by left|by right].
Qed.

Lemma gocui_views_laws : GocuiViewsLaws.
Proof.
  constructor; try (intros; by intros ? ?).
  - intros name x0 y0 x1 y1 n g. cbn. unfold add_view. case_decide; [|done]. cbn.
    rewrite !bool_decide_eq_true. set_solver.
  - intros name x0 y0 x1 y1 g _ Hx Hy. cbn. unfold add_view. rewrite decide_True by done. cbn.
    apply bool_decide_eq_true. set_solver.
  - intros name x0 y0 x1 y1 g Hb. cbn. unfold add_view. rewrite decide_False by lia. done.
  - intros name g Hv%bool_decide_eq_true. cbn. by rewrite decide_True.
  - intros name g Hv%bool_decide_eq_true. cbn. by rewrite decide_True.
Qed.

Local Existing Instance screen_laws.
Local Existing Instance gocui_views_laws.

Local Instance ansi : Ansi := {| code := Z; Bold := 1; Foreground n := n; Colorf s _ := s |}.
Local Instance ansi_colors : AnsiColors := {| Green := 3; Yellow := 4 |}.

(** alice's client in a terminal of a width, after it opened a window for bob. *)
Definition started (width : Z) : GuiClient := initial "alice" (mkTerminal width ∅).
Definition opened (width : Z) : GuiClient := open_window 0%nat "bob" (started width).

Lemma opened_wf width : wf_gui (opened width).
Proof.
  apply wf_open_window; [apply wf_initial|done|done|].
  intros q c Hq. by apply not_elem_of_nil in Hq.
Qed.

Lemma layout_draws_all_witness :
  ∃ g, layout (λ _, "") (opened 80) = (set_gui g (opened 80), Ret ()) ∧ laid_out (set_gui g (opened 80)).
Proof.
  apply (layout_draws_all (λ _, "") (opened 80)).
  - apply opened_wf.
  - split; reflexivity.
  - reflexivity.
Defined.

(** Nine columns are too few for the name of the main window and the input line. *)
Example nine_columns_panic events : (Run (λ _, "") events (opened 9)).2 = Panic.
Proof.
  apply Run_narrow_panics; [apply opened_wf|split; reflexivity|].
  unfold partner_fits. cbn. lia.
Qed.

(** Alt and a digit select a window, the editor ignores what it does not know. *)
Example keys :
  vuvuzelaEditor "hello" (mkKeyEvent KeyEnd None ModNone) = Some (SetCursor 5 0) ∧
  vuvuzelaEditor "hello" (mkKeyEvent KeyOther (Some (Ascii.ascii_of_nat 97)) ModNone) =
    Some (EditWrite (Ascii.ascii_of_nat 97)) ∧
  vuvuzelaEditor "hello" (mkKeyEvent KeyOther (Some (Ascii.ascii_of_nat 97)) ModAlt) = None ∧
  fst <$> list_find (λ c, c = Ascii.ascii_of_nat 48) window_runes = Some 9%nat.
Proof. done. Qed.
