(* ===== verification/Handler.v ===== *)
(** * The terminal client as the handler of the client library

    [Client] calls [Outgoing] and [Replies] of its handler. Here the two are put together: the
    library keeps as many keys as [Outgoing] returned messages, so the replies it hands on
    are always enough for [Replies]. *)

From Stdlib Require Import ZArith Lia.
From stdpp Require Import base numbers strings sets gmap fin_maps fin_sets relations list.
From S2P Require Import Prelude GoStd Json GoStrings External Settings Convo ConvoConfig Coordinator Client Conversation Wp Gui GuiInvariant Commands Calls GuiSystem.

Section handler.
Context `{NaClLaws} `{GocuiLaws} `{Ansi} `{Alpenhorn} `{Onionbox} `{Signature} `{SignedConfigs}.
Context (stamp : string).

Lemma length_sealed_messages coins round keys outgoing :
  length (sealed_messages coins round keys outgoing) = length outgoing.
Proof. unfold sealed_messages. apply length_imap. Qed.

(** What the client library holds for a round whose messages it sent. *)
Lemma runRound_sent now1 now2 latency outgoing coins p v c st keys :
  client_store c !! p = Some st →
  all_signed (SigningMessage (nr_MixSettings v)) (MixServers (Config st)) (nr_MixSignatures v) →
  Settings.OnionKeys (nr_MixSettings v) = Some <$> keys →
  latency <= nr_EndTime v - now1 →
  ∃ c' st' sent, runRound now1 now2 latency outgoing coins (mkRunJob p v) c = (c', Ret ()) ∧
    client_rounds c' = client_rounds c ∧ client_store c' !! p = Some st' ∧
    OnionKeys st' = Some sent ∧ length sent = length outgoing.
Proof.
  intros Hp Hs Hk Ht. rewrite (runRound_verified _ _ _ _ _ _ _ _ st) by done.
  rewrite decide_False by lia. rewrite Hk, seal_messages_ok.
  eexists _, (mkRoundState (Config st) (ConfigParent st) _), _. split; [done|]. split; [done|]. split.
  - cbn. by rewrite lookup_alter_eq, Hp.
  - split; [done|]. by rewrite length_fmap, length_sealed_messages.
Qed.

(** C9. The library and its handler fit together. The terminal client answers a round with
    its messages, the library seals them. Whatever message then comes as the replies of the
    round, it either leads to error reports alone, and the round stays, or to one call of
    [Replies], which every state of the terminal client reached from there handles without a
    panic, giving each conversation that was active the reply in its place. *)
Theorem round_trip_in_client name g now coins order round s s1 out now1 now2 latency seeds p v c st keys m :
  rtc step (initial name g) s →
  order ≡ₚ elements (active s) → is_u32 round → (∀ i, wf_message (coins i)) →
  Outgoing now coins order round s = (s1, Ret out) →
  client_rounds c !! round = Some p → client_store c !! p = Some st →
  all_signed (SigningMessage (nr_MixSettings v)) (MixServers (Config st)) (nr_MixSignatures v) →
  Settings.OnionKeys (nr_MixSettings v) = Some <$> keys →
  latency <= nr_EndTime v - now1 → om_Round m = round →
  ∃ c1, runRound now1 now2 latency out seeds (mkRunJob p v) c = (c1, Ret ()) ∧
    ((∃ e, openReplyOnion m c1 = (add_events [CallError e] c1, Ret ())) ∨
     (∃ errs texts,
        openReplyOnion m c1 =
          (set_client_rounds (delete round (client_rounds c1))
             (add_events ((CallError <$> errs) ++ [CallReplies round texts]) c1), Ret ()) ∧
        length texts = NumOutgoing ∧
        ∀ s2 now', rtc step s1 s2 → pendingRounds s2 !! round = Some order → ∃ s3,
          Replies stamp now' round texts s2 = (s3, Ret ()) ∧
          ∀ j q d e, order !! j = Some q → convos s2 !! q = Some d → texts !! j = Some e → ∃ d' r,
            Reply (now' j) round e d = (d', Ret r) ∧ convos s3 !! q = Some d')).
Proof.
  intros Hreach Ho Hr Hc Eout Hp Hst Hs Hk Ht Hm.
  pose proof (reachable_wf name g s Hreach) as Hwf.
  destruct (Outgoing_run now coins order round s Hwf Ho Hr Hc) as (heap & out' & E & Hwf1 & Hlen & _).
  rewrite E in Eout. injection Eout as <- <-.
  destruct (active_order order s Hwf Ho) as (_ & Hol & _).
  destruct (runRound_sent now1 now2 latency out' seeds p v c st keys Hst Hs Hk Ht)
    as (c1 & st1 & sent & E1 & Er1 & Est1 & Esent & Hsent).
  exists c1. split; [exact E1|].
  pose proof (openReplyOnion_cases m c1) as Hcases. cbv zeta in Hcases. rewrite Hm, Er1, Hp in Hcases.
  specialize (Hcases st1 Est1). rewrite Esent in Hcases. destruct Hcases as [Hbad Hok].
  destruct (decide (length sent = length (om_Onions m))) as [El|El]; [right|left; by eexists; apply Hbad].
  destruct (Hok El) as (errs & Eo & _). exists errs. eexists. split; [rewrite Er1; exact Eo|].
  match goal with |- length ?t = _ ∧ _ => set (texts := t) end.
  assert (Hl : length texts = NumOutgoing) by (unfold texts; rewrite length_zip_with; lia).
  split; [exact Hl|]. intros s2 now' Hs2 Hp2.
  assert (Hwf2 : wf_gui s2) by (by eapply steps_wf).
  destruct (Replies_run stamp now' round texts s2 order Hwf2) as (heap2 & g2 & es2 & E2 & _ & Hat & _);
    [by rewrite Hp2|lia|]. eexists. split; [exact E2|]. exact Hat.
Qed.

End handler.
