(* ===== verification/GuiExamples.v ===== *)
(** * The terminal client on concrete inputs

    A terminal that is the set of its views, a user with one friend, and the theorems about
    the terminal client applied to a few of their states. *)

From Stdlib Require Import ZArith Lia.
From stdpp Require Import base numbers strings sets gmap fin_maps fin_sets relations list.
From S2P Require Import Prelude GoStd Json GoStrings External Settings Convo ConvoConfig Coordinator Client Conversation Delivery ClientExamples Wp Gui GuiInvariant Commands Calls GuiSystem Connect Handler.

Local Existing Instance Toy.nacl.
Local Existing Instance Toy.nacl_laws.

(** ** A terminal *)

Local Instance gocui : Gocui := {|
  screen := gset string;
  screen_Size _ := (80, 25);
  screen_View name g := bool_decide (name ∈ g);
  screen_SetView name _ _ _ _ g :=
    ({[name]} ∪ g, if decide (name ∈ g) then None else Some ErrUnknownView);
  screen_SetViewOnTop name g := (g, if decide (name ∈ g) then None else Some ErrUnknownView);
  screen_Attr _ _ _ _ g := g;
  screen_Write _ _ g := g
|}.

Lemma gocui_laws : GocuiLaws.
Proof. constructor. intros name x0 y0 x1 y1 g _ _ _. cbn. destruct (decide _); [by left|by right]. Qed.

Local Existing Instance gocui_laws.

Local Instance ansi : Ansi := {| code := Z; Bold := 1; Foreground n := n; Colorf s _ := s |}.

Local Instance alpenhorn_client : Alpenhorn := {|
  alpenhorn := unit;
  GetFriends _ := ["bob"];
  GetFriend _ name := bool_decide (name = "bob");
  friend_keyRound _ _ := 0;
  friend_SessionKey _ _ _ := [];
  GetIncomingFriendRequests _ := [];
  GetOutgoingFriendRequests _ := [];
  GetSentFriendRequests _ := [];
  SendFriendRequest_err _ _ := None;
  Approve_err _ _ := None;
  base32_Encode := to_string;
  Quote s := s
|}.

Definition views : @screen gocui := ({["main"; "status"]} : gset string).
Definition start (name : string) : GuiClient := initial name views.

(** ** A call from bob in round 17 *)

Definition call : request := DoReceivedCall (inr 17) (mkIncomingCall "bob" key0 0).
Definition called : GuiClient := (run "12:00:00" call (start "alice")).1.

Lemma call_allowed name : allowed call (start name).
Proof. split; [split; vm_compute; reflexivity|]. split; [discriminate|]. vm_compute. reflexivity. Qed.

Lemma called_reachable : rtc step (start "alice") called.
Proof. apply rtc_once, step_run, call_allowed. Qed.

Lemma called_active : elements (active called) = [0%nat].
Proof. vm_compute. reflexivity. Qed.

Lemma called_order : ([0%nat] : list loc) ≡ₚ elements (active called).
Proof. vm_compute. reflexivity. Qed.

Lemma reachable_safe_witness :
  wf_gui called ∧ elements (active called) = [0%nat] ∧
  ((run "12:00:00" (DoLine tt (λ g, g) "/wc") called).2 = Ret () ∨
   ∃ e, (run "12:00:00" (DoLine tt (λ g, g) "/wc") called).2 = Err e).
Proof.
  destruct (reachable_safe "alice" views called called_reachable) as [Hwf Hrun].
  split; [exact Hwf|]. split; [exact called_active|]. apply Hrun. split; vm_compute; reflexivity.
Defined.

Definition zeros (i : nat) : DeadDropMessage :=
  mkDeadDropMessage (replicate 16 x00) (replicate SizeEncryptedMessageBody x00).

Lemma wf_zeros i : wf_message (zeros i).
Proof. split; apply length_replicate. Qed.

Lemma Outgoing_constant_rate_witness :
  ∃ s' out, Outgoing (λ _, 0) zeros [0%nat] 20 called = (s', Ret out) ∧ length out = 5%nat ∧
    pendingRounds s' !! 20 = Some [0%nat] ∧ out !! 1%nat = Some (zeros 1).
Proof.
  destruct (Outgoing_constant_rate "alice" views (λ _, 0) zeros [0%nat] 20 called)
    as (s' & out & E & Hl & _ & Hp & _ & Hpad).
  - exact called_reachable.
  - exact called_order.
  - unfold is_u32. lia.
  - exact wf_zeros.
  - exists s', out. split; [exact E|]. split; [exact Hl|]. split; [exact Hp|]. apply Hpad.
    assert (Ea : size (active called) = 1%nat) by (vm_compute; reflexivity). rewrite Ea. unfold NumOutgoing. lia.
Defined.

(** ** The round after it *)

Definition asked : GuiClient := (run "12:00:00" (DoOutgoing (λ _, 0) zeros [0%nat] 20) called).1.

Lemma asked_reachable : rtc step (start "alice") asked.
Proof.
  eapply rtc_r; [exact called_reachable|]. apply step_run. split; [exact called_order|].
  split; [unfold is_u32; lia|exact wf_zeros].
Qed.

Lemma asked_pending : pendingRounds asked !! 20 = Some [0%nat].
Proof. vm_compute. reflexivity. Qed.

Lemma Replies_dispatch_witness :
  ∃ s', Replies "12:00:01" (λ _, 9) 20 [[]; []; []; []; []] asked = (s', Ret ()) ∧
    ∀ p, p ∉ [0%nat] → convos s' !! p = convos asked !! p.
Proof.
  destruct (Replies_dispatch "12:00:01" "alice" views (λ _, 9) 20 [[]; []; []; []; []] [0%nat] asked)
    as (s' & E & _ & Hother & _).
  - exact asked_reachable.
  - exact asked_pending.
  - cbn. lia.
  - exists s'. split; [exact E|exact Hother].
Defined.

(** ** alice calls bob *)

Lemma call_connects_witness :
  ∃ sa' sb' intent,
    SendingCall "12:00:00" (inr 19990) (mkOutgoingCall "bob" key0) (start "alice") = (sa', Ret ()) ∧
    UpdateIntent "bob" intent ∈ gui_events sa' ∧
    ReceivedCall "12:00:01" (inr 20010) (mkIncomingCall "alice" key0 intent) (start "bob") = (sb', Ret ()).
Proof.
  destruct (call_connects "12:00:00" "12:00:01" "alice" "bob" views views key0 19990 20 (start "alice") (start "bob"))
    as (sa' & sb' & first & intent & _ & _ & Ea & Hi & Eb & _).
  - apply rtc_refl.
  - apply rtc_refl.
  - discriminate.
  - discriminate.
  - split; vm_compute; reflexivity.
  - split; vm_compute; reflexivity.
  - apply Nat.ltb_lt. reflexivity.
  - apply Nat.ltb_lt. reflexivity.
  - reflexivity.
  - lia.
  - split; vm_compute; discriminate.
  - unfold is_u32. lia.
  - exists sa', sb', intent. split; [exact Ea|]. split; [exact Hi|exact Eb].
Defined.

(** ** Typing *)

Definition nobody : @alpenhorn alpenhorn_client := tt.

Lemma tabComplete_unique_witness :
  ∃ s' answer, tabComplete nobody command_names "/h" (start "alice") = (s', Ret answer) ∧
    match answer with
    | Some _ => False
    | None => ¬ ∃ m, ∀ m', (m' ∈ command_names ∧ ∃ r, m' = ("h" ++ r)%string) ↔ m' = m
    end.
Proof.
  destruct (tabComplete_unique "alice" views nobody command_names (start "alice") (Ascii.ascii_of_nat 47) "h" "/h")
    as (s' & answer & E & Ha).
  - apply rtc_refl.
  - reflexivity.
  - vm_compute. reflexivity.
  - exists s', answer. split; [exact E|]. cbn in Ha. destruct answer as [text|]; [|by apply Ha].
    assert (Enone : (tabComplete nobody command_names "/h" (start "alice")).2 = Ret None) by (vm_compute; reflexivity).
    rewrite E in Enone. discriminate.
Defined.

(** ** Connecting *)

Definition one_pkg : list pkg_status := [mkPkgStatus "pkg1" None].

Lemma Connect_when_registered_witness :
  ∃ s', Connect (λ s, s) "alice" one_pkg (start "alice") = (s', Ret ()) ∧ connectOnce s' = true.
Proof.
  destruct (Connect_when_registered (λ s, s) "alice" one_pkg (start "alice") eq_refl) as (s' & E & Hyes & _).
  exists s'. split; [exact E|]. apply Hyes. split; [repeat constructor|discriminate].
Defined.
