(* ===== verification/HandlerExamples.v ===== *)
(** * A round of the terminal client and the client library

    [round_trip_in_client] for alice's client after bob's call, with the announcement and the
    mixers of [SystemExamples]. *)

From Stdlib Require Import ZArith Lia.
From stdpp Require Import base numbers strings sets gmap fin_maps fin_sets relations list.
From S2P Require Import Prelude GoStd Json GoStrings External Settings Convo ConvoConfig Coordinator Client Conversation ClientExamples SystemExamples Wp Gui GuiInvariant Commands Calls GuiSystem Handler GuiExamples.

Local Existing Instance Toy.nacl.
Local Existing Instance Toy.nacl_laws.
Local Existing Instance Toy.onionbox.
Local Existing Instance Toy.signature.
Local Existing Instance SystemExamples.configs.
Local Existing Instance GuiExamples.gocui.
Local Existing Instance GuiExamples.gocui_laws.
Local Existing Instance GuiExamples.ansi.
Local Existing Instance GuiExamples.alpenhorn_client.

Definition five_replies : OnionMsg := mkOnionMsg 7 (replicate 5 []).

Lemma round_trip_in_client_witness :
  ∃ out c1, runRound 0 0 millisecond out (λ _, [x11]) (mkRunJob 0%nat announced) (client_of party_a) = (c1, Ret ()) ∧
    ((∃ e, openReplyOnion five_replies c1 = (add_events [CallError e] c1, Ret ())) ∨
     (∃ errs texts, openReplyOnion five_replies c1 =
        (set_client_rounds (delete 7 (client_rounds c1))
           (add_events ((CallError <$> errs) ++ [CallReplies 7 texts]) c1), Ret ()) ∧ length texts = 5%nat)).
Proof.
  assert (Hr : is_u32 7) by (unfold is_u32; lia).
  destruct (Outgoing_run (λ _, 0) zeros [0%nat] 7 called (reachable_wf _ _ _ called_reachable) called_order Hr wf_zeros)
    as (heap & out & E & _).
  match type of E with _ = (?s1, _) => destruct (round_trip_in_client "12:00:00" "alice" views (λ _, 0) zeros [0%nat] 7 called s1 out 0 0 millisecond
    (λ _, [x11]) 0%nat announced (client_of party_a)
    (mkRoundState two_mixers signed (Some ((System.sealed_by 7 MixExamples.hops party_a).*2)))
    (External.box_Public <$> MixChain.hop_sks MixExamples.hops) five_replies) as (c1 & E1 & H1) end.
  - exact called_reachable.
  - exact called_order.
  - exact Hr.
  - exact wf_zeros.
  - exact E.
  - reflexivity.
  - reflexivity.
  - apply verify_mixers_ok. vm_compute. reflexivity.
  - reflexivity.
  - vm_compute. discriminate.
  - reflexivity.
  - exists out, c1. split; [exact E1|]. destruct H1 as [H1|(errs & texts & Eo & Hl & _)]; [left; exact H1|right].
    exists errs, texts. split; [exact Eo|exact Hl].
Defined.
