(* ===== verification/Persist.v ===== *)
(** * State on disk (internal/ioutil2/ioutil.go, coordinator/persist.go, persist.go)

    [WriteFileAtomic] writes a temporary file and renames it. A [Disk] remembers every state
    of the files, so that what a crash leaves behind is one of the states passed through.
    What the calls of package [os] answer is an argument. The coordinator's round is read back
    by [json.Unmarshal] as [JsonText] models it; the JSON of a signed configuration is
    neverlur's and stays an argument. *)

From Stdlib Require Import ZArith Lia.
From stdpp Require Import base numbers strings gmap fin_maps list.
From S2P Require Import Prelude GoStd Json GoStrings JsonText JsonFacts Settings Mixnet ConvoConfig Coordinator Client.

(** ** Files *)

Record Disk := mkDisk { files : gmap string bytes; past : list (gmap string bytes) }.

Inductive io_error :=
| TempFileFailed
| WriteFailed
| SyncFailed
| CloseFailed
| ChmodFailed
| RenameFailed.

(** The answers of the calls: the name of the temporary file, the bytes written before a
    write fails, and whether the others succeed. *)
Record io := mkIo {
  temp : option string;
  write_err : option nat;
  sync_ok : bool;
  close_ok : bool;
  chmod_ok : bool;
  rename_ok : bool;
  remove_ok : bool
}.

Definition on_disk {E} (f : gmap string bytes → gmap string bytes) : go Disk E unit :=
  modify (λ d, mkDisk (f (files d)) (past d ++ [files d])).

Definition rename (old new : string) (fs : gmap string bytes) : gmap string bytes :=
  match fs !! old with Some data => <[new := data]> (delete old fs) | None => fs end.

(** [if err == nil { err = e }] *)
Definition unless (err : option io_error) (ok : bool) (e : io_error) : option io_error :=
  match err with Some _ => err | None => if ok then None else Some e end.

(** The temporary file is removed. *)
Definition abandon (r : io) (f : string) (e : io_error) : go Disk io_error unit :=
  (if remove_ok r then on_disk (delete f) else mret ());;
  throw e.

Definition WriteFileAtomic (r : io) (filename : string) (data : bytes) : go Disk io_error unit :=
  match temp r with
  | None => throw TempFileFailed
  | Some f =>
      on_disk (<[f := []]>);;
      on_disk (<[f := match write_err r with None => data | Some n => take n data end]>);;
      let err := match write_err r with None => None | Some _ => Some WriteFailed end in
      let err := unless err (sync_ok r) SyncFailed in
      let err := unless err (close_ok r) CloseFailed in
      let err := unless err (chmod_ok r) ChmodFailed in
      err ← match err with
            | Some e => mret (Some e)
            | None => if rename_ok r then on_disk (rename f filename);; mret None else mret (Some RenameFailed)
            end;
      match err with
      | Some e => abandon r f e
      | None => mret ()
      end
  end.

(** ** The coordinator's round *)

Definition version : Byte.byte := x01.

(** What the JSON encoder writes with an indent of two blanks. *)
Definition encode_round (round : Z) : bytes :=
  str "{" ++ [x0a] ++ str "  " ++ [x22] ++ str "Round" ++ [x22] ++ str ": " ++ json_number round ++
  [x0a] ++ str "}" ++ [x0a].

Inductive load_error :=
| ReadFailed
| NoData
| UnexpectedVersion (got : Byte.byte)
| DecodeFailed.

(** The new value of [srv.round]. *)
Definition LoadPersistedState (path : string) (fs : gmap string bytes) : outcome load_error Z :=
  match fs !! path with
  | None => Err ReadFailed
  | Some [] => Err NoData
  | Some (ver :: data) =>
      if decide (ver ≠ version) then Err (UnexpectedVersion ver)
      else match unmarshal_uint32 "Round" data with
           | None => Err DecodeFailed
           | Some round => Ret round
           end
  end.

Definition Persist (r : io) (path : string) (round : Z) : go Disk io_error unit :=
  WriteFileAtomic r path ([version] ++ encode_round round).

(** ** The client's configuration *)

Section client_state.
Context `{SignedConfigs}.
(** [json.MarshalIndent] and [json.Unmarshal] of the client's [persistedState], which holds no
    configuration when the text has none or null, and [Validate] of a signed configuration. *)
Context (encode_config : option SignedConfig → option bytes).
Context (decode_config : bytes → option (option SignedConfig)).
Context (config_valid : SignedConfig → bool).

Inductive client_load_error :=
| ClientMissing        (* [os.IsNotExist] *)
| ClientReadFailed
| ClientDecodeFailed
| InvalidConfig
| UnexpectedInner.

Definition persistLocked (r : io) (path : string) (c : Client) : go Disk (option io_error) unit :=
  match encode_config (convoConfig c) with
  | None => throw None
  | Some data => λ d,
      match WriteFileAtomic r path data d with
      | (d, Ret u) => (d, Ret u)
      | (d, Err e) => (d, Err (Some e))
      | (d, Panic) => (d, Panic)
      | (d, Block) => (d, Block)
      end
  end.

Definition loadStateLocked (conf : SignedConfig) (c : Client) : Client :=
  set_convoConfigHash (config_Hash conf) (set_convoConfig (Some conf) c).

Definition zero_Client : Client := mkClient ∅ ∅ None 0 None "" [] [].

(** [readable] tells whether a file that exists can be read; a state without a configuration has no hash. *)
Definition LoadClient (readable : bool) (path : string) (fs : gmap string bytes)
    : outcome client_load_error Client :=
  match fs !! path with
  | None => Err ClientMissing
  | Some data =>
      if negb readable then Err ClientReadFailed
      else
        match decode_config data with
        | None => Err ClientDecodeFailed
        | Some None => Panic
        | Some (Some conf) => Ret (loadStateLocked conf zero_Client)
        end
  end.

Definition Bootstrap (conf : SignedConfig) : go Client client_load_error unit :=
  if negb (config_valid conf) then throw InvalidConfig
  else
    match as_ConvoConfig (config_Inner conf) with
    | None => throw UnexpectedInner
    | Some _ => modify (loadStateLocked conf)
    end.

End client_state.

(** ** Properties *)

(** What a write may have done to the files: only the temporary file [t] and [filename]
    change, and [filename] holds what it held or [data]. *)
Definition partly_written (t : option string) (filename : string) (data : bytes)
    (fs0 fs : gmap string bytes) : Prop :=
  (fs !! filename = fs0 !! filename ∨ fs !! filename = Some data) ∧
  ∀ g, g ≠ filename → t ≠ Some g → fs !! g = fs0 !! g.

(** A write from [d]: the states on the way, and the last one. *)
Definition atomic (t : option string) (filename : string) (data : bytes) (d : Disk)
    (run : Disk * outcome io_error unit) : Prop :=
  (∃ new, past run.1 = past d ++ new ∧
     ∀ fs, fs ∈ new ++ [files run.1] → partly_written t filename data (files d) fs) ∧
  ((run.2 = Ret () ∧ files run.1 !! filename = Some data) ∨
   (∃ e, run.2 = Err e ∧ files run.1 !! filename = files d !! filename)).

Lemma partly_refl t filename data fs : partly_written t filename data fs fs.
Proof. by split; [left|]. Qed.

Lemma partly_insert f filename data x fs0 fs :
  f ≠ filename → partly_written (Some f) filename data fs0 fs →
  partly_written (Some f) filename data fs0 (<[f := x]> fs).
Proof.
  intros Hf [Hold Hg]. split; [by rewrite lookup_insert_ne|].
  intros g Hg1 Hg2. rewrite lookup_insert_ne by congruence. by apply Hg.
Qed.

Lemma partly_delete f filename data fs0 fs :
  f ≠ filename → partly_written (Some f) filename data fs0 fs →
  partly_written (Some f) filename data fs0 (delete f fs).
Proof.
  intros Hf [Hold Hg]. split; [by rewrite lookup_delete_ne|].
  intros g Hg1 Hg2. rewrite lookup_delete_ne by congruence. by apply Hg.
Qed.

(** Giving up after the temporary file was written. *)
Lemma abandon_atomic r f filename data e new d d1 :
  f ≠ filename → past d1 = past d ++ new →
  (∀ fs, fs ∈ new ++ [files d1] → partly_written (Some f) filename data (files d) fs) →
  files d1 !! filename = files d !! filename →
  atomic (Some f) filename data d (abandon r f e d1).
Proof.
  intros Hf Hp Hnew Hold. unfold abandon. rewrite go_bind_unfold. destruct (remove_ok r); cbn.
  - split.
    + exists (new ++ [files d1]). split; [cbn; by rewrite Hp, app_assoc|].
      intros fs [Hin| ->%list_elem_of_singleton]%elem_of_app; [by apply Hnew|]. cbn.
      apply partly_delete; [done|]. apply Hnew, elem_of_app. right. by left.
    + right. exists e. split; [done|]. cbn. by rewrite lookup_delete_ne.
  - split; [by exists new|]. right. by exists e.
Qed.

Lemma WriteFileAtomic_run r filename data d :
  (∀ f, temp r = Some f → f ≠ filename) →
  atomic (temp r) filename data d (WriteFileAtomic r filename data d).
Proof.
  intros Ht. unfold WriteFileAtomic. destruct (temp r) as [f|].
  2: { split; [exists []; cbn; rewrite app_nil_r; split; [done|]|right; by exists TempFileFailed].
       intros fs ->%list_elem_of_singleton. apply partly_refl. }
  specialize (Ht f eq_refl). set (part := match write_err r with None => data | Some n => take n data end).
  rewrite go_bind_unfold. cbn [on_disk modify]. rewrite go_bind_unfold. cbn [on_disk modify files past].
  set (err := unless _ _ ChmodFailed). cbv zeta.
  assert (Hpart : err = None → part = data) by (unfold err, part; destruct (write_err r); done).
  set (fs1 := <[f := []]> (files d)). set (fs2 := <[f := part]> fs1).
  assert (H1 : partly_written (Some f) filename data (files d) fs1) by (apply partly_insert; [done|apply partly_refl]).
  assert (H2 : partly_written (Some f) filename data (files d) fs2) by (by apply partly_insert).
  assert (Hold : fs2 !! filename = files d !! filename) by (unfold fs2, fs1; by rewrite !lookup_insert_ne).
  assert (Hfail : ∀ e, atomic (Some f) filename data d (abandon r f e (mkDisk fs2 ((past d ++ [files d]) ++ [fs1])))).
  { intros e. apply (abandon_atomic r f filename data e [files d; fs1]); [done|cbn; by rewrite <- app_assoc| |done].
    intros fs Hin. cbn in Hin. repeat (apply elem_of_cons in Hin as [->|Hin]); [apply partly_refl|done..|by apply elem_of_nil in Hin]. }
  rewrite go_bind_unfold. destruct err as [e|]; [apply (Hfail e)|].
  destruct (rename_ok r); [|apply (Hfail RenameFailed)]. rewrite go_bind_unfold. cbn [on_disk modify mret go_ret files past].
  assert (Hren : rename f filename fs2 = <[filename := data]> (delete f fs2)).
  { unfold rename, fs2. rewrite lookup_insert_eq. by rewrite Hpart. }
  split; [|left; split; [done|]; cbn; by rewrite Hren, lookup_insert_eq].
  exists [files d; fs1; fs2]. split; [cbn; by rewrite <- !app_assoc|]. cbn. rewrite Hren.
  intros fs Hin. repeat (apply elem_of_cons in Hin as [->|Hin]); [apply partly_refl|done|done| |by apply elem_of_nil in Hin].
  split; [right; by rewrite lookup_insert_eq|]. intros g Hg1 Hg2. rewrite lookup_insert_ne by done.
  by apply (partly_delete f filename data).
Qed.

(** What the encoder writes, the decoder reads. *)
Lemma lexes_encode_round round : is_u32 round →
  lexes (encode_round round)
    [TDelim LBrace; TString (str "Round"); TColon; TNumber (json_number round); TDelim RBrace].
Proof.
  intros Hr. unfold is_u32 in Hr. unfold encode_round.
  eapply lexes_cons; [reflexivity|].
  change (lexes (x0a :: x20 :: x20 :: json_string (str "Round") ++ x3a :: x20 :: json_number round ++ [x0a; x7d; x0a])
    [TString (str "Round"); TColon; TNumber (json_number round); TDelim RBrace]).
  eapply lexes_cons; [by apply (lex_json_string (str "Round"))|].
  eapply lexes_cons; [reflexivity|].
  eapply lexes_cons.
  - change (skip_ws (x20 :: json_number round ++ [x0a; x7d; x0a])) with
      (skip_ws (json_number round ++ [x0a; x7d; x0a])).
    rewrite skip_ws_number by lia. apply lex_json_number; [lia|].
    intros b [= <-]. split; [by intros [? _]|set_solver].
  - by eapply lexes_cons.
Qed.

Lemma unmarshal_encode_round round : is_u32 round → unmarshal_uint32 "Round" (encode_round round) = Some round.
Proof.
  intros Hr. unfold unmarshal_uint32, unmarshal_number.
  rewrite (parse_json_intro _ _ 9 (JObject [(str "Round", JNumber (json_number round))])
    (lexes_encode_round round Hr)) by reflexivity.
  cbn [mbind option_bind number_field foldl store_number]. rewrite decide_True by done.
  unfold json_number. by rewrite to_string_str, Decimal.parse_uint32_sprint.
Qed.

(** A successful [Persist] leaves the round to be loaded, and the other files as they are. *)
Lemma Persist_loads r path round d d' :
  is_u32 round → (∀ f, temp r = Some f → f ≠ path) → Persist r path round d = (d', Ret ()) →
  LoadPersistedState path (files d') = Ret round ∧
  ∀ g, g ≠ path → temp r ≠ Some g → files d' !! g = files d !! g.
Proof.
  intros Hround Ht. unfold Persist.
  destruct (WriteFileAtomic_run r path ([version] ++ encode_round round) d Ht) as [(states & _ & Hs) Hend].
  intros E. rewrite E in Hs, Hend. cbn [fst snd] in *. destruct Hend as [[_ Hd]|(e & [=] & _)]. split.
  - unfold LoadPersistedState. rewrite Hd. cbn [app]. rewrite decide_False by (by intros []).
    by rewrite unmarshal_encode_round.
  - intros g Hg Htg. apply (Hs (files d')); [apply elem_of_app; right; by left|done|done].
Qed.

(** C40. A crash does not lose the coordinator's round. While [Persist] writes, whichever
    calls fail and wherever it is interrupted, the file can be loaded and gives the round
    persisted before or the new one; when [Persist] reports success it gives the new one,
    when it reports an error the old one. No other file but the temporary one is touched. *)
Theorem Persist_crash_safe r path old new d :
  is_u32 new → (∀ f, temp r = Some f → f ≠ path) →
  LoadPersistedState path (files d) = Ret old →
  let '(d', res) := Persist r path new d in
  (∃ states, past d' = past d ++ states ∧ ∀ fs, fs ∈ states ++ [files d'] →
     (LoadPersistedState path fs = Ret old ∨ LoadPersistedState path fs = Ret new) ∧
     ∀ g, g ≠ path → temp r ≠ Some g → fs !! g = files d !! g) ∧
  ((res = Ret () ∧ LoadPersistedState path (files d') = Ret new) ∨
   (∃ e, res = Err e ∧ LoadPersistedState path (files d') = Ret old)).
Proof.
  intros Hnew Ht Hold. unfold Persist.
  pose proof (WriteFileAtomic_run r path ([version] ++ encode_round new) d Ht) as Hw.
  destruct (WriteFileAtomic _ _ _ d) as [d' res]. destruct Hw as [(states & Hp & Hs) Hend]. cbn [fst snd] in *.
  assert (Hload : ∀ fs : gmap string bytes, fs !! path = Some ([version] ++ encode_round new) →
            LoadPersistedState path fs = Ret new).
  { intros fs E. unfold LoadPersistedState. rewrite E. cbn [app]. rewrite decide_False by (by intros []).
    by rewrite unmarshal_encode_round. }
  assert (Hsame : ∀ fs : gmap string bytes, fs !! path = files d !! path →
            LoadPersistedState path fs = Ret old).
  { intros fs E. unfold LoadPersistedState in *. by rewrite E. }
  split.
  - exists states. split; [done|]. intros fs Hin. destruct (Hs fs Hin) as [[E|E] Hg]; (split; [|exact Hg]); auto.
  - destruct Hend as [[-> E]|(e & -> & E)]; [left|right; exists e]; auto.
Qed.

(** ** An example *)

(** The disk is full when round 140 is to replace round 120. *)
Definition disk_120 : Disk := mkDisk {[ "coordinator" := [version] ++ encode_round 120 ]} [].
Definition disk_full : io := mkIo (Some "coordinator123") (Some 5%nat) true true true true true.

Lemma Persist_crash_safe_witness :
  ∃ d' e, Persist disk_full "coordinator" 140 disk_120 = (d', Err e) ∧
    LoadPersistedState "coordinator" (files d') = Ret 120.
Proof.
  pose proof (Persist_crash_safe disk_full "coordinator" 120 140 disk_120) as H.
  destruct (Persist disk_full "coordinator" 140 disk_120) as [d' res] eqn:E.
  destruct H as [_ [[-> _]|(e & -> & Hl)]].
  - unfold is_u32. lia.
  - intros f [= <-]. discriminate.
  - vm_compute. reflexivity.
  - exfalso. vm_compute in E. discriminate.
  - exists d', e. split; [reflexivity|exact Hl].
Defined.
