(* ===== verification/Startup.v ===== *)
(** * Starting the terminal client (cmd/gjallarhorn-client/main.go)

    [main] loads the state of the two clients from the user's directory, or makes new ones and
    writes their state, and starts the terminal client with them. The alpenhorn client is a
    library of its own: what its operations answer are arguments. *)

From Stdlib Require Import ZArith Lia.
From stdpp Require Import base numbers strings sets gmap fin_maps fin_sets list.
From S2P Require Import Prelude GoStd Json GoStrings Paths External Settings Mixnet ConvoConfig Coordinator Client Persist Conversation Wp Gui GuiInvariant Commands Calls GuiSystem GuiRun.

(** ** The convo client *)

(** Why the program exits with status 1, and what it prints. *)
Inductive exit_reason :=
| NoUsername
| NoHome               (* the user or the directory of the configuration *)
| GenerateFailed (client why : string)
| LoadFailed (client : string).

Section startup.
Context `{SignedConfigs}.
Context (encode_config : option SignedConfig → option bytes).
Context (decode_config : bytes → option (option SignedConfig)).
Context (config_valid : SignedConfig → bool).

Abbreviation startup := (go Disk exit_reason).

(** The client on disk fails with an error that is wrapped. *)
Definition or_exit {E A} (m : go Disk E A) (why : exit_reason) : startup A := λ d,
  match m d with
  | (d, Ret a) => (d, Ret a)
  | (d, Err _) => (d, Err why)
  | (d, Panic) => (d, Panic)
  | (d, Block) => (d, Block)
  end.

(** [current] is what [CurrentConfig] answers, [None] an error. *)
Definition generateVuvuzelaClient (r : io) (current : option SignedConfig) (clientPath : string)
    : startup Client :=
  match current with
  | None => throw (GenerateFailed "Vuvuzela" "fetching latest convo config")
  | Some convoConfig =>
      match Bootstrap config_valid convoConfig zero_Client with
      | (client, Ret _) =>
          or_exit (persistLocked encode_config r clientPath client)
            (GenerateFailed "Vuvuzela" "persisting vuvuzela client");;
          mret client
      | (_, Err _) => throw (GenerateFailed "Vuvuzela" "bootstrapping vuvuzela client")
      | (_, Panic) => panic
      | (_, Block) => block
      end
  end.

Definition vuvuzela_path (confHome username : string) : string :=
  Join confHome (username ++ "-vuvuzela-client-state").

Definition LoadVuvuzelaState (r : io) (readable : bool) (current : option SignedConfig)
    (confHome username : string) : startup (Client * bool) :=
  let vzStatePath := vuvuzela_path confHome username in
  d ← get;
  match LoadClient decode_config readable vzStatePath (files d) with
  | Ret client => mret (client, false)
  | Err ClientMissing =>
      client ← generateVuvuzelaClient r current vzStatePath;
      mret (client, true)
  | Err _ => throw (LoadFailed "vuvuzela")
  | Panic => panic
  | Block => block
  end.

(** ** The alpenhorn client *)

(** What [neverlur.LoadClient] answers. *)
Inductive alpenhorn_load := AlpenhornLoaded | AlpenhornMissing | AlpenhornBroken.

Record alpenhorn_answers := mkAlpenhornAnswers {
  alp_load : alpenhorn_load;
  alp_addFriend : bool;        (* the configuration of the service is fetched *)
  alp_dialing : bool;
  alp_bootstrap : bool;
  alp_persist : bool
}.

Definition generateAlpenhornClient (a : alpenhorn_answers) : outcome string unit :=
  if negb (alp_addFriend a) then Err "fetching latest addfriend config"
  else if negb (alp_dialing a) then Err "fetching latest dialing config"
  else if negb (alp_bootstrap a) then Err "bootstrapping alpenhorn client"
  else if negb (alp_persist a) then Err "persisting alpenhorn client"
  else Ret ().

(** Whether the client is new. *)
Definition LoadAlpenhornState (a : alpenhorn_answers) : outcome exit_reason bool :=
  match alp_load a with
  | AlpenhornLoaded => Ret false
  | AlpenhornMissing =>
      match generateAlpenhornClient a with
      | Ret _ => Ret true
      | Err why => Err (GenerateFailed "Alpenhorn" why)
      | Panic => Panic
      | Block => Block
      end
  | AlpenhornBroken => Err (LoadFailed "alpenhorn")
  end.

(** ** main *)

Section main.
Context `{NaCl} `{Gocui} `{Ansi}.

(** The clients, what is new, and the terminal client. [home] is the directory of the user, if the
    user is known; [made] tells whether the directory in it is there or was made. *)
Definition main (r : io) (readable : bool) (a : alpenhorn_answers) (current : option SignedConfig)
    (username : string) (home : option string) (made : bool) (alpenhorn_name : string) (g : screen)
    : startup (Client * launchStatus * GuiClient) :=
  if decide (username = "") then throw NoUsername
  else
    match home with
    | None => throw NoHome
    | Some home =>
        let confHome := Join home ".vuvuzela" in
        if negb made then throw NoHome
        else
          isNewAlpClient ← lift (LoadAlpenhornState a);
          '(vuvuzelaClient, isNewVuvuzelaClient) ← LoadVuvuzelaState r readable current confHome username;
          mret (vuvuzelaClient, mkLaunchStatus isNewAlpClient isNewVuvuzelaClient, initial alpenhorn_name g)
    end.

End main.

(** ** What a start leaves on disk *)

Hypothesis config_reads : ∀ conf data, encode_config (Some conf) = Some data → decode_config data = Some (Some conf).

Lemma Bootstrap_inv conf c :
  Bootstrap config_valid conf zero_Client = (c, Ret ()) → c = loadStateLocked conf zero_Client.
Proof.
  unfold Bootstrap. destruct (negb (config_valid conf)); [done|].
  destruct (as_ConvoConfig (config_Inner conf)); [|done]. by intros [= <-].
Qed.

(** A write of a new client's state, from files without it. *)
Lemma persist_new r path conf c d d' o :
  (∀ t, temp r = Some t → t ≠ path) → files d !! path = None →
  convoConfig c = Some conf →
  or_exit (persistLocked encode_config r path c) o d = d' →
  (∃ states, past d'.1 = past d ++ states ∧ ∀ fs, fs ∈ states ++ [files d'.1] →
     fs !! path = None ∨ LoadClient decode_config true path fs = Ret (loadStateLocked conf zero_Client)) ∧
  ((d'.2 = Ret () ∧ LoadClient decode_config true path (files d'.1) = Ret (loadStateLocked conf zero_Client)) ∨
   (d'.2 = Err o ∧ files d'.1 !! path = None)).
Proof.
  intros Ht Hnone Hc <-. unfold or_exit, persistLocked. rewrite Hc.
  destruct (encode_config (Some conf)) as [data|] eqn:Ed; cycle 1.
  { cbn. split; [|by right]. exists []. rewrite app_nil_r. split; [done|].
    intros fs ->%list_elem_of_singleton. by left. }
  assert (Hload : ∀ fs, fs !! path = Some data →
    LoadClient decode_config true path fs = Ret (loadStateLocked conf zero_Client)).
  { intros fs E. unfold LoadClient. by rewrite E, (config_reads _ _ Ed). }
  destruct (WriteFileAtomic_run r path data d Ht) as [(states & Hp & Hs) Hend].
  destruct (WriteFileAtomic r path data d) as [d1 o1]. cbn [fst snd] in *.
  assert (Hall : ∀ fs, fs ∈ states ++ [files d1] →
    fs !! path = None ∨ LoadClient decode_config true path fs = Ret (loadStateLocked conf zero_Client)).
  { intros fs Hin. destruct (Hs fs Hin) as [[E|E] _]; [left; by rewrite E|right; by apply Hload]. }
  destruct Hend as [[-> E]|(e & -> & E)]; cbn; (split; [by exists states|]).
  - left. split; [done|by apply Hload].
  - right. split; [done|]. by rewrite E.
Qed.

(** C31. The first start of a user makes a client from the configuration that is served and
    writes it; whenever the program is stopped on the way, or fails, the next start finds either
    the whole state of that client or none and starts over, never a broken one; after a start
    that succeeded every later start loads the same client, whatever is served then, or, when the
    file is there but cannot be read, exits and leaves it as it is: no new client replaces it. *)
Theorem first_start_persists r readable conf confHome username d d' res :
  let path := vuvuzela_path confHome username in
  (∀ t, temp r = Some t → t ≠ path) → files d !! path = None →
  LoadVuvuzelaState r readable (Some conf) confHome username d = (d', res) →
  (∃ states, past d' = past d ++ states ∧ ∀ fs, fs ∈ states ++ [files d'] →
     fs !! path = None ∨ LoadClient decode_config true path fs = Ret (loadStateLocked conf zero_Client)) ∧
  ((res = Ret (loadStateLocked conf zero_Client, true) ∧
    ∀ r' readable' current, LoadVuvuzelaState r' readable' current confHome username d' =
      (d', if readable' then Ret (loadStateLocked conf zero_Client, false) else Err (LoadFailed "vuvuzela"))) ∨
   (∃ why, res = Err why ∧ files d' !! path = None)).
Proof.
  intros path Ht Hnone. unfold LoadVuvuzelaState at 1. rewrite go_bind_unfold. cbn [get].
  unfold LoadClient at 1. fold path. rewrite Hnone. rewrite go_bind_unfold. unfold generateVuvuzelaClient.
  assert (Hstop : ∀ (d1 : Disk), d1 = d → ∃ states, past d1 = past d ++ states ∧ ∀ fs,
    fs ∈ states ++ [files d1] →
    fs !! path = None ∨ LoadClient decode_config true path fs = Ret (loadStateLocked conf zero_Client)).
  { intros d1 ->. exists []. rewrite app_nil_r. split; [done|]. intros fs ->%list_elem_of_singleton. by left. }
  destruct (Bootstrap config_valid conf zero_Client) as [c [[]|e| |]] eqn:Eb; cycle 1.
  { intros [= <- <-]. split; [by apply Hstop|]. right. by eexists. }
  { exfalso. unfold Bootstrap in Eb. repeat case_match; discriminate Eb. }
  { exfalso. unfold Bootstrap in Eb. repeat case_match; discriminate Eb. }
  apply Bootstrap_inv in Eb as ->. rewrite go_bind_unfold.
  set (c := loadStateLocked conf zero_Client). intros E.
  destruct (persist_new r path conf c d _ (GenerateFailed "Vuvuzela" "persisting vuvuzela client")
    Ht Hnone eq_refl eq_refl) as [Hstates Hend].
  destruct (or_exit _ _ d) as [d1 o1]. cbn [fst snd] in *.
  destruct Hend as [[-> Hl]|[-> Hl]]; cbn in E; injection E as <- <-; (split; [done|]).
  - left. split; [done|]. intros r' readable' current. unfold LoadVuvuzelaState. rewrite go_bind_unfold.
    cbn [get]. fold path. destruct readable'; [by rewrite Hl|]. unfold LoadClient in Hl |- *.
    by destruct (files d1 !! path).
  - right. by eexists.
Qed.

End startup.

(** ** An example

    Signed configurations that are their own encoding. *)

#[local] Instance own_configs : SignedConfigs := {|
  SignedConfig := bytes;
  config_Hash := to_string;
  config_Inner _ := InnerConvo (mkConvoConfig 1 (mkCoordinatorConfig [] "entry") []);
  config_Guardians _ := []
|}.

Definition all_well : io := mkIo (Some "/tmp/vz123") None true true true true true.

Definition own_encode (c : option (@SignedConfig own_configs)) : option bytes := c.
Definition own_decode (data : bytes) : option (option (@SignedConfig own_configs)) := Some (Some data).

Lemma own_reads conf data : own_encode (Some conf) = Some data → own_decode data = Some (Some conf).
Proof. by intros [= ->]. Qed.

Lemma first_start_persists_witness :
  let d := mkDisk ∅ [] in
  let '(d', res) := LoadVuvuzelaState own_encode own_decode (λ _, true) all_well true (Some (str "conf")) "/home/alice" "alice" d in
  res = Ret (loadStateLocked (str "conf") zero_Client, true) ∧
  LoadVuvuzelaState own_encode own_decode (λ _, true) all_well true None "/home/alice" "alice" d' =
    (d', Ret (loadStateLocked (str "conf") zero_Client, false)).
Proof.
  cbv zeta.
  destruct (LoadVuvuzelaState own_encode own_decode (λ _, true) all_well true (Some (str "conf")) "/home/alice" "alice" (mkDisk ∅ []))
    as [d' res] eqn:E.
  destruct (first_start_persists own_encode own_decode (λ _, true) own_reads all_well true (str "conf") "/home/alice" "alice"
    (mkDisk ∅ []) d' res) as [_ [[-> H]|(why & -> & _)]].
  - intros t [= <-]. discriminate.
  - reflexivity.
  - exact E.
  - split; [reflexivity|]. apply H.
  - exfalso. vm_compute in E. discriminate E.
Defined.
