(* ===== verification/HarnessNeverlur.v ===== *)
(** * The services of neverlur that the test harness starts (internal/testharness/neverlur.go)

    [startNeverlurSide] starts the configuration server, the content server, the mixers and
    the key server of neverlur, publishes two configurations that the harness signs, and runs
    two coordinators. The servers are neverlur's: what starting each answers is an argument,
    and what it is started with, signed and published is kept. *)

From Stdlib Require Import ZArith Lia.
From stdpp Require Import base numbers strings gmap list.
From S2P Require Import Prelude External GoStrings Paths Json Settings ConvoConfig Startup.

Inductive stage_error := Wrap (stage : string).

(** [if err != nil { return wrap(stage, err) }] *)
Definition need {S A} (name : string) (o : option A) : go S stage_error A :=
  match o with Some a => mret a | None => throw (Wrap name) end.
Definition check {S} (name : string) (ok : bool) : go S stage_error unit :=
  if ok then mret () else throw (Wrap name).

(** What a computation that returned went through. *)
Section inversion.
Context {S : Type}.
Implicit Types s : S.

Lemma need_run {A} name (o : option A) s s' a : need name o s = (s', Ret a) → s' = s ∧ o = Some a.
Proof. destruct o; [|done]. by intros [= <- <-]. Qed.

Lemma check_run name ok s s' u : check name ok s = (s', Ret u) → s' = s ∧ ok = true.
Proof. destruct ok; [|done]. by intros [= <-]. Qed.

Lemma bind_run {E A B} (m : go S E A) (f : A → go S E B) s s' b :
  (m ≫= f) s = (s', Ret b) → ∃ s1 a, m s = (s1, Ret a) ∧ f a s1 = (s', Ret b).
Proof. rewrite go_bind_unfold. destruct (m s) as [s1 [a| | |]]; naive_solver. Qed.

End inversion.

(** What [Close] has to do, named by what it closes. *)
Inductive cleanup :=
| CloseConfigHTTP
| CloseCDN
| CloseMixchain
| ClosePKG
| CloseDialing
| CloseAddFriend
| CloseCoordinatorHTTP
| CloseConvoMixers
| CloseConvoCoordinator
| CloseConvoHTTP.

(** What neverlur's packages name: the public sides of its mixers and key servers, and the
    versions of its configurations. *)
Class NeverlurLib := mkNeverlurLib {
  MixServer : Type;
  PKGServer : Type;
  SignedConfigVersion : Z;
  AddFriendConfigVersion : Z;
  DialingConfigVersion : Z
}.

(** ** Signed configurations *)

Section configs.
Context `{Signature} `{NeverlurLib}.

(** A coordinator, a content server or a registrar: its key and address. *)
Record endpoint := mkEndpoint { ep_Key : bytes; ep_Address : string }.

Record AddFriendConfig := mkAddFriendConfig {
  af_Version : Z;
  af_Coordinator : endpoint;
  af_PKGServers : list PKGServer;
  af_MixServers : list MixServer;
  af_CDNServer : endpoint;
  af_Registrar : endpoint
}.

Record DialingConfig := mkDialingConfig {
  dl_Version : Z;
  dl_Coordinator : endpoint;
  dl_MixServers : list MixServer;
  dl_CDNServer : endpoint
}.

Inductive inner_config :=
| InnerAddFriend (c : AddFriendConfig)
| InnerDialing (c : DialingConfig)
| InnerConvoConfig (c : ConvoConfig).

(** The guardian of the harness: its two key pairs; signing with the second one can fail. *)
Record guardian := mkGuardian { EdPub : bytes; EdPriv : bytes; PQPub : bytes; PQSign : bytes → option bytes }.

(** Times are in nanoseconds. *)
Record signed_config := mkSigned {
  sc_Version : Z;
  MinClientVersion : Z;
  Created : Z;
  Expires : Z;
  Service : string;
  Inner : inner_config;
  Guardians : list (bytes * bytes);                 (* the two public keys of each *)
  Signatures : list (bytes * (bytes * bytes))       (* by the first key: the two signatures *)
}.

(** The readings of the clock at [Created] and at [Expires]. *)
Definition new_config (clock : Z * Z) (service : string) (inner : inner_config) : signed_config :=
  mkSigned SignedConfigVersion SignedConfigVersion clock.1 (clock.2 + 3600 * 10 ^ 9) service inner [] [].

Definition set_signatures (guardians : list (bytes * bytes)) (signatures : list (bytes * (bytes * bytes)))
    (c : signed_config) : signed_config :=
  mkSigned (sc_Version c) (MinClientVersion c) (Created c) (Expires c) (Service c) (Inner c) guardians signatures.

End configs.

Section neverlur.
Context `{Signature} `{NeverlurLib}.

(** [SigningMessage] of a configuration, which covers its guardians. *)
Context (SigningMessage : signed_config → bytes).

Definition signConfigInPlace (g : guardian) (conf : signed_config) : outcome stage_error signed_config :=
  let guardians := [(EdPub g, PQPub g)] in
  let conf := set_signatures guardians [] conf in
  let msg := SigningMessage conf in
  let sigEd := sig_Sign (EdPriv g) msg in
  match PQSign g msg with
  | None => Err (Wrap "signConfigInPlace pqsig.Sign")
  | Some sigPQ => Ret (set_signatures guardians [(EdPub g, (sigEd, sigPQ))] conf)
  end.

(** ** Starting *)

(** A coordinator of neverlur; the waits are in seconds. *)
Record nl_coordinator := mkNlCoordinator {
  nc_Service : string;
  nc_PrivateKey : bytes;
  nc_ConfigURL : string;
  nc_PKGWait : Z;
  nc_MixWait : Z;
  nc_RoundWait : Z;
  nc_NumMailboxes : Z;
  nc_PersistPath : string
}.

Record neverlur_side := mkNeverlurSide {
  neverlurCfgServer : option (list signed_config);   (* what was published, the last first *)
  neverlurCfgClient : option string;          (* the URL the clients fetch from *)
  NeverlurCDN : option endpoint;
  NeverlurMixers : option (list MixServer);
  NeverlurPKG : option PKGServer;
  harness_AddFriendConfig : option signed_config;
  harness_DialingConfig : option signed_config;
  NeverlurCoordinator : option nl_coordinator;
  neverlurCoord : option endpoint;
  cleanups : list cleanup
}.

Definition eta_side (s : neverlur_side) : neverlur_side :=
  mkNeverlurSide (neverlurCfgServer s) (neverlurCfgClient s) (NeverlurCDN s) (NeverlurMixers s) (NeverlurPKG s)
    (harness_AddFriendConfig s) (harness_DialingConfig s) (NeverlurCoordinator s) (neverlurCoord s) (cleanups s).

Definition set_cfgServer v (s : neverlur_side) : neverlur_side := ltac:(set_field eta_side neverlurCfgServer v s).
Definition set_cfgClient v (s : neverlur_side) : neverlur_side := ltac:(set_field eta_side neverlurCfgClient v s).
Definition set_CDN v (s : neverlur_side) : neverlur_side := ltac:(set_field eta_side NeverlurCDN v s).
Definition set_Mixers v (s : neverlur_side) : neverlur_side := ltac:(set_field eta_side NeverlurMixers v s).
Definition set_PKG v (s : neverlur_side) : neverlur_side := ltac:(set_field eta_side NeverlurPKG v s).
Definition set_AddFriendConfig v (s : neverlur_side) : neverlur_side :=
  ltac:(set_field eta_side harness_AddFriendConfig v s).
Definition set_DialingConfig v (s : neverlur_side) : neverlur_side :=
  ltac:(set_field eta_side harness_DialingConfig v s).
Definition set_Coordinator v (s : neverlur_side) : neverlur_side := ltac:(set_field eta_side NeverlurCoordinator v s).
Definition set_Coord v (s : neverlur_side) : neverlur_side := ltac:(set_field eta_side neverlurCoord v s).
Definition set_side_cleanups v (s : neverlur_side) : neverlur_side := ltac:(set_field eta_side cleanups v s).

Definition no_side : neverlur_side := mkNeverlurSide None None None None None None None None None [].

(** What starting the parts answers; a coordinator can fail to persist, to load or to run. *)
Record neverlur_answers := mkNeverlurAnswers {
  cfg_created : bool;
  cfg_listen : option string;
  nl_private : option bytes;
  nl_listen : option string;
  cdn : endpoint;
  mixchain_of : nat → bytes → list MixServer;     (* as many mixers, for a coordinator's key *)
  pkg : option PKGServer;
  addFriend_clock : Z * Z;
  dialing_clock : Z * Z;
  publish : signed_config → bool;
  addFriend_starts : bool * bool * bool;
  dialing_starts : bool * bool * bool
}.

Abbreviation starting_side := (go neverlur_side stage_error).

Definition register_side (c : cleanup) : starting_side unit :=
  modify (λ s, set_side_cleanups (cleanups s ++ [c]) s).

(** A configuration is signed and set as the current one. *)
Definition sign_and_set (publish : signed_config → bool) (g : guardian) (sign_stage set_stage : string)
    (conf : signed_config) : starting_side signed_config :=
  match signConfigInPlace g conf with
  | Ret signed =>
      check set_stage (publish signed);;
      modify (λ s, set_cfgServer ((signed ::.) <$> neverlurCfgServer s) s);;
      mret signed
  | _ => throw (Wrap sign_stage)
  end.

(** [Persist], [LoadPersistedState] and [Run] of a coordinator. *)
Definition start_side_coordinator (persist load run : string) (starts : bool * bool * bool) : starting_side unit :=
  let '(p, l, r) := starts in
  check persist p;; check load l;; check run r.

Definition addFriendSrv (coordPriv : bytes) (url tmpDir : string) : nl_coordinator :=
  mkNlCoordinator "AddFriend" coordPriv url 1 1 2 1 (Join tmpDir "addfriend-coordinator-state").

Definition startNeverlurSide (a : neverlur_answers) (g : guardian) (mixers : nat) (tmpDir : string)
    : starting_side unit :=
  check "config.CreateServer" (cfg_created a);;
  cfgAddr ← need "config-server net.Listen" (cfg_listen a);
  register_side CloseConfigHTTP;;
  let cfgClient := ("http://" ++ cfgAddr)%string in
  modify (set_cfgServer (Some []));;
  coordPriv ← need "coordinator key" (nl_private a);
  let coordPub := sig_Public coordPriv in
  coordAddr ← need "coordinator edtls.Listen" (nl_listen a);
  let coord := mkEndpoint coordPub coordAddr in
  modify (set_CDN (Some (cdn a)));;
  register_side CloseCDN;;
  let mixchain := mixchain_of a mixers coordPub in
  modify (set_Mixers (Some mixchain));;
  register_side CloseMixchain;;
  pkgInst ← need "mock.LaunchPKG" (pkg a);
  modify (set_PKG (Some pkgInst));;
  register_side ClosePKG;;
  addFriendConf ← sign_and_set (publish a) g "sign AddFriend config" "set AddFriend config"
    (new_config (addFriend_clock a) "AddFriend"
       (InnerAddFriend (mkAddFriendConfig AddFriendConfigVersion coord [pkgInst] mixchain (cdn a) coord)));
  modify (set_AddFriendConfig (Some addFriendConf));;
  dialingConf ← sign_and_set (publish a) g "sign Dialing config" "set Dialing config"
    (new_config (dialing_clock a) "Dialing"
       (InnerDialing (mkDialingConfig DialingConfigVersion coord mixchain (cdn a))));
  modify (set_DialingConfig (Some dialingConf));;
  start_side_coordinator "addFriend Persist" "addFriend LoadPersistedState" "addFriend Run" (addFriend_starts a);;
  modify (set_Coordinator (Some (addFriendSrv coordPriv cfgClient tmpDir)));;
  start_side_coordinator "dialing Persist" "dialing LoadPersistedState" "dialing Run" (dialing_starts a);;
  register_side CloseDialing;;
  register_side CloseAddFriend;;
  register_side CloseCoordinatorHTTP;;
  modify (set_Coord (Some coord));;
  modify (set_cfgClient (Some cfgClient)).

(** ** What a signed configuration and a started side are *)

(** The guardian is the only one, and its signature is on what is signed. *)
Definition signed_by (g : guardian) (conf : signed_config) : Prop :=
  let unsigned := set_signatures (Guardians conf) [] conf in
  Guardians conf = [(EdPub g, PQPub g)] ∧
  ∃ ed pq, Signatures conf = [(EdPub g, (ed, pq))] ∧
    sig_Verify (EdPub g) (SigningMessage unsigned) ed = true ∧ PQSign g (SigningMessage unsigned) = Some pq.

Lemma signConfigInPlace_ok `{!SignatureLaws} g conf signed :
  EdPub g = sig_Public (EdPriv g) → signConfigInPlace g conf = Ret signed →
  Service signed = Service conf ∧ Inner signed = Inner conf ∧ signed_by g signed.
Proof.
  intros Hg. unfold signConfigInPlace. destruct (PQSign g _) as [pq|] eqn:E; [|done].
  intros [= <-]. split; [done|]. split; [done|]. split; [done|]. eexists _, pq. split; [done|].
  split; [|done]. cbn. rewrite Hg. apply Verify_Sign.
Qed.

(** The two configurations are signed, published, and name the parts that run. *)
Definition side_ok (g : guardian) (mixers : nat) (tmpDir : string) (a : neverlur_answers) (s : neverlur_side) : Prop :=
  ∃ coord private pkgInst af dl url,
    neverlurCoord s = Some coord ∧ nl_private a = Some private ∧ ep_Key coord = sig_Public private ∧
    NeverlurMixers s = Some (mixchain_of a mixers (ep_Key coord)) ∧
    NeverlurPKG s = Some pkgInst ∧ NeverlurCDN s = Some (cdn a) ∧ 
    neverlurCfgClient s = Some url ∧ NeverlurCoordinator s = Some (addFriendSrv private url tmpDir) ∧
    harness_AddFriendConfig s = Some af ∧ harness_DialingConfig s = Some dl ∧
    neverlurCfgServer s = Some [dl; af] ∧ signed_by g af ∧ signed_by g dl ∧
    Inner af =
      InnerAddFriend (mkAddFriendConfig AddFriendConfigVersion coord [pkgInst] (mixchain_of a mixers (ep_Key coord)) (cdn a) coord) ∧
    Inner dl = InnerDialing (mkDialingConfig DialingConfigVersion coord (mixchain_of a mixers (ep_Key coord)) (cdn a)) ∧
    Service af = "AddFriend" ∧ Service dl = "Dialing" ∧
    cleanups s = [CloseConfigHTTP; CloseCDN; CloseMixchain; ClosePKG; CloseDialing; CloseAddFriend; CloseCoordinatorHTTP].

Lemma sign_and_set_run `{!SignatureLaws} pub g ss st conf s s' signed :
  EdPub g = sig_Public (EdPriv g) → sign_and_set pub g ss st conf s = (s', Ret signed) →
  s' = set_cfgServer ((signed ::.) <$> neverlurCfgServer s) s ∧ pub signed = true ∧
  Service signed = Service conf ∧ Inner signed = Inner conf ∧ signed_by g signed.
Proof.
  intros Hg. unfold sign_and_set. destruct (signConfigInPlace g conf) as [x| | |] eqn:E; try done.
  intros (s1 & u & [-> Hp]%check_run & E1)%bind_run. injection E1 as <- <-.
  apply signConfigInPlace_ok in E as (? & ? & ?); [|done]. done.
Qed.

Lemma start_side_coordinator_run p l r starts s s' u :
  start_side_coordinator p l r starts s = (s', Ret u) → s' = s.
Proof.
  destruct starts as [[x y] z]. unfold start_side_coordinator.
  intros (? & ? & [-> _]%check_run & (? & ? & [-> _]%check_run & [-> _]%check_run)%bind_run)%bind_run. done.
Qed.

Lemma startNeverlurSide_ok `{!SignatureLaws} a g mixers tmpDir s u :
  EdPub g = sig_Public (EdPriv g) → startNeverlurSide a g mixers tmpDir no_side = (s, Ret u) →
  side_ok g mixers tmpDir a s.
Proof.
  intros Hg. unfold startNeverlurSide.
  intros (s1 & [] & [-> _]%check_run & (s2 & addr & [-> _]%need_run & E)%bind_run)%bind_run.
  cbv beta in E. apply bind_run in E as (s3 & [] & [= <-] & E). apply bind_run in E as (s4 & [] & [= <-] & E).
  apply bind_run in E as (s5 & private & [-> Hpriv]%need_run & E).
  apply bind_run in E as (s6 & coordAddr & [-> _]%need_run & E). cbv zeta in E.
  do 4 apply bind_run in E as (? & [] & [= <-] & E).
  apply bind_run in E as (s7 & pkgInst & [-> _]%need_run & E).
  do 2 apply bind_run in E as (? & [] & [= <-] & E).
  apply bind_run in E as (s8 & af & (-> & _ & Vaf & Iaf & Saf)%sign_and_set_run & E); [|done].
  apply bind_run in E as (? & [] & [= <-] & E).
  apply bind_run in E as (s9 & dl & (-> & _ & Vdl & Idl & Sdl)%sign_and_set_run & E); [|done].
  apply bind_run in E as (? & [] & [= <-] & E).
  apply bind_run in E as (s10 & [] & ->%start_side_coordinator_run & E).
  apply bind_run in E as (? & [] & [= <-] & E).
  apply bind_run in E as (s11 & [] & ->%start_side_coordinator_run & E).
  do 4 apply bind_run in E as (? & [] & [= <-] & E). injection E as <- _.
  exists (mkEndpoint (sig_Public private) coordAddr), private, pkgInst, af, dl, ("http://" ++ addr)%string. split_and!; try done.
Qed.

End neverlur.
