(* ===== verification/HarnessServers.v ===== *)
(** * The servers of the test harness (internal/testharness, internal/mock)

    [New] starts the services of a test in one process: the side of neverlur, whose parts are
    a library of their own, and the mixers and the coordinator of the conversation protocol.
    What the system answers (keys, listeners, the disk) is an argument; what a server is
    configured with is kept, so that the theorems can say what a started harness is. *)

From Stdlib Require Import ZArith Lia.
From stdpp Require Import base numbers strings gmap fin_maps list.
From S2P Require Import Prelude GoStd Json GoStrings Paths JsonText External Pb Settings Convo Mixnet ConvoMix ConvoConfig Coordinator Client Persist Startup HarnessNeverlur.

(** ** Options *)

Record options := mkOptions { listenAddr : string; neverlurMixers : nat; gjallarhornMixers : nat }.

Definition defaultOptions : options := mkOptions "" 3 3.

Inductive Option :=
| OptionListenAddr (path : string)
| OptionMixerCount (neverlur gjallarhorn : nat).

Definition apply_option (o : options) (opt : Option) : options :=
  match opt with
  | OptionListenAddr path => mkOptions path (neverlurMixers o) (gjallarhornMixers o)
  | OptionMixerCount n g => mkOptions (listenAddr o) n g
  end.

Definition resolve (opts : list Option) : options := foldl apply_option defaultOptions opts.

(** ** The mixers *)

Section harness.
Context `{NaCl} `{Onionbox} `{Signature}.

(** A chain of mixers: their public side, their configuration, the order in which they began
    to serve, and whether each was stopped. *)
Record mixchain := mkMixchain {
  chain_Servers : list PublicServerConfig;
  mixServers : list mixer;
  served : list nat;
  stopped : bool
}.

(** The first loop: a key and a listener for each mixer. *)
Fixpoint make_mixers (key : nat → option bytes) (listen : nat → option string) (i n : nat)
    : outcome stage_error (list (bytes * string)) :=
  match n with
  | O => Ret []
  | S n =>
      match key i with
      | None => Err (Wrap "gjallarhorn mixer keygen")
      | Some private =>
          match listen i with
          | None => Err (Wrap "gjallarhorn mixer net.Listen")
          | Some addr =>
              rest ← make_mixers key listen (S i) n;
              Ret ((private, addr) :: rest)
          end
      end
  end.

(** The second and third loop: the servers, from the last to the first, and their public side. *)
Definition chain_of (coordinatorKey : bytes) (made : list (bytes * string)) : mixchain :=
  let services := {[ "Convo" := convo_service (mkConvoService None) ]} in
  mkMixchain
    ((λ m : bytes * string, mkPublicServerConfig (sig_Public m.1) m.2) <$> made)
    ((λ m : bytes * string, mkMixer m.1 coordinatorKey services) <$> made)
    (reverse (seq 0 (length made))) false.

Definition launchConvoMixchain (key : nat → option bytes) (listen : nat → option string) (length : nat)
    (coordinatorKey : bytes) : outcome stage_error mixchain :=
  made ← make_mixers key listen 0 length;
  Ret (chain_of coordinatorKey made).

(** [Close] of the handle: the closers return no error. *)
Definition chain_Close (c : mixchain) : mixchain :=
  mkMixchain (chain_Servers c) (mixServers c) (served c) true.

(** internal/mock: an error of the key is ignored and leaves the nil key, one of the listener
    panics. *)
Fixpoint mock_mixers (key : nat → option bytes) (listen : nat → option string) (i n : nat)
    : outcome stage_error (list (bytes * string)) :=
  match n with
  | O => Ret []
  | S n =>
      addr ← or_panic (listen i);
      rest ← mock_mixers key listen (S i) n;
      Ret ((default [] (key i), addr) :: rest)
  end.

Definition LaunchMixchain (key : nat → option bytes) (listen : nat → option string) (length : nat)
    (coordinatorKey : bytes) : outcome stage_error mixchain :=
  made ← mock_mixers key listen 0 length;
  Ret (chain_of coordinatorKey made).

(** ** The harness *)

Context `{NeverlurLib} (SigningMessage : signed_config → bytes).

Record Harness := mkHarness {
  opts : options;
  HarnessGuardian : guardian;
  side : neverlur_side;                   (* the servers of neverlur, and the cleanups *)
  GjallarhornConvoMixers : option mixchain;
  harness_ConvoConfig : option signed_config;
  coordinator_key : option bytes;
  coordinator_round : option Z;           (* of the running coordinator *)
  harness_disk : Disk;
  cleaned : list cleanup;                 (* the cleanups that ran *)
  closeOnce : bool
}.

Definition eta_Harness (h : Harness) : Harness :=
  mkHarness (opts h) (HarnessGuardian h) (side h) (GjallarhornConvoMixers h) (harness_ConvoConfig h)
    (coordinator_key h) (coordinator_round h) (harness_disk h) (cleaned h) (closeOnce h).

Definition set_side v (h : Harness) : Harness := ltac:(set_field eta_Harness side v h).
Definition set_mixers v (h : Harness) : Harness := ltac:(set_field eta_Harness GjallarhornConvoMixers v h).
Definition set_config v (h : Harness) : Harness := ltac:(set_field eta_Harness harness_ConvoConfig v h).
Definition set_coordinator_key v (h : Harness) : Harness := ltac:(set_field eta_Harness coordinator_key v h).
Definition set_coordinator_round v (h : Harness) : Harness := ltac:(set_field eta_Harness coordinator_round v h).
Definition set_disk v (h : Harness) : Harness := ltac:(set_field eta_Harness harness_disk v h).
Definition on_side (f : neverlur_side → neverlur_side) (h : Harness) : Harness := set_side (f (side h)) h.

Abbreviation starting := (go Harness stage_error).

Definition register (c : cleanup) : starting unit :=
  modify (on_side (λ s, set_side_cleanups (cleanups s ++ [c]) s)).

(** What the system answers while the convo side starts. *)
Record answers := mkAnswers {
  coord_private : option bytes;
  coord_listen : option string;
  mixer_key : nat → option bytes;
  mixer_listen : nat → option string;
  convo_clock : Z * Z;
  publish_convo : signed_config → bool;
  disk_io : io
}.

Definition persist_path (tmpDir : string) : string := Join tmpDir "convo-coordinator-state".

(** The coordinator is new: it persists round 0, loads it back and runs. *)
Definition start_coordinator (a : answers) (tmpDir : string) : starting unit :=
  h ← get;
  let path := persist_path tmpDir in
  let '(d, saved) := Persist (disk_io a) path 0 (harness_disk h) in
  modify (set_disk d);;
  check "convo Persist" (match saved with Ret _ => true | _ => false end);;
  match LoadPersistedState path (files d) with
  | Ret round =>
      check "convo Run" (negb (bool_decide (path = "")));;
      modify (set_coordinator_round (Some round))
  | _ => throw (Wrap "convo LoadPersistedState")
  end.

Definition startGjallarhornSide (a : answers) (tmpDir : string) : starting unit :=
  coordPriv ← need "gjallarhorn coordinator key" (coord_private a);
  let coordPub := sig_Public coordPriv in
  coordAddr ← need "gjallarhorn coordinator edtls.Listen" (coord_listen a);
  h ← get;
  convoChain ← need "launchConvoMixchain"
    (match launchConvoMixchain (mixer_key a) (mixer_listen a) (gjallarhornMixers (opts h)) coordPub with
     | Ret c => Some c
     | _ => None
     end);
  modify (set_mixers (Some convoChain));;
  register CloseConvoMixers;;
  convoConf ← need "sign Convo config"
    (match signConfigInPlace SigningMessage (HarnessGuardian h) (new_config (convo_clock a) "Convo"
             (InnerConvoConfig (mkConvoConfig ConvoConfigVersion (mkCoordinatorConfig coordPub coordAddr)
                (chain_Servers convoChain)))) with
     | Ret signed => Some signed
     | _ => None
     end);
  _ ← need "publish Convo config" (neverlurCfgServer (side h));
  check "publish Convo config" (publish_convo a convoConf);;
  modify (on_side (λ s, set_cfgServer ((convoConf ::.) <$> neverlurCfgServer s) s));;
  modify (set_config (Some convoConf));;
  start_coordinator a tmpDir;;
  modify (set_coordinator_key (Some coordPriv));;
  register CloseConvoCoordinator;;
  register CloseConvoHTTP.

(** What [New] comes to: a harness, or a call of [Fatalf] that leaves what was built so far. *)
Inductive new_result :=
| Started (h : Harness)
| Fatal (left_over : option Harness).

(** [identity] is the guardian that was generated, if it could be, and whether its binding verifies. *)
Definition New (identity : option (guardian * bool)) (na : neverlur_answers) (a : answers)
    (tmpDir : string) (disk : Disk) (os : list Option) : new_result :=
  let resolved := resolve os in
  match identity with
  | None | Some (_, false) => Fatal None
  | Some (id, true) =>
      let h := mkHarness resolved id no_side None None None None disk [] false in
      let '(s, started) := startNeverlurSide SigningMessage na id (neverlurMixers resolved) tmpDir (side h) in
      let h := set_side s h in
      match started with
      | Ret _ =>
          match startGjallarhornSide a tmpDir h with
          | (h, Ret _) => Started h
          | (h, _) => Fatal (Some h)
          end
      | _ => Fatal (Some h)
      end
  end.

(** [Close] runs what was registered, the last first, once. *)
Definition run_cleanup (h : Harness) (c : cleanup) : Harness :=
  mkHarness (opts h) (HarnessGuardian h) (side h)
    (match c with CloseConvoMixers => chain_Close <$> GjallarhornConvoMixers h | _ => GjallarhornConvoMixers h end)
    (harness_ConvoConfig h) (coordinator_key h)
    (match c with CloseConvoCoordinator => None | _ => coordinator_round h end)
    (harness_disk h) (cleaned h ++ [c]) (closeOnce h).

Definition harness_Close (h : Harness) : Harness :=
  if closeOnce h then h
  else
    let h := foldl run_cleanup h (reverse (cleanups (side h))) in
    mkHarness (opts h) (HarnessGuardian h) (side h) (GjallarhornConvoMixers h) (harness_ConvoConfig h)
      (coordinator_key h) (coordinator_round h) (harness_disk h) (cleaned h) true.

End harness.

(** ** What a started harness is *)

Section started.
Context `{NaCl} `{Onionbox} `{SignatureLaws} `{NeverlurLib}.
Context (SigningMessage : signed_config → bytes).

Lemma make_mixers_inv key listen i n made :
  make_mixers key listen i n = Ret made →
  length made = n ∧ ∀ j m, made !! j = Some m → key (i + j)%nat = Some m.1 ∧ listen (i + j)%nat = Some m.2.
Proof.
  revert i made. induction n as [|n IH]; intros i made; cbn [make_mixers].
  - intros [= <-]. split; [done|]. by intros j m.
  - destruct (key i) as [private|] eqn:Ek; [|done]. destruct (listen i) as [addr|] eqn:El; [|done].
    intros (rest & Er & [= <-])%bind_Ret_inv. destruct (IH _ _ Er) as [Hlen Hj]. split; [cbn; lia|].
    intros [|j] m; cbn; [intros [= <-]; by rewrite Nat.add_0_r|].
    intros Hm. rewrite Nat.add_succ_r, <- Nat.add_succ_l. by apply Hj.
Qed.

(** Each mixer has the key its public side shows, knows the coordinator and runs the service. *)
Definition chain_ok (coordKey : bytes) (c : mixchain) : Prop :=
  length (chain_Servers c) = length (mixServers c) ∧
  ∀ i m, mixServers c !! i = Some m →
    CoordinatorKey m = coordKey ∧ Services m !! "Convo" = Some (convo_service (mkConvoService None)) ∧
    ∃ addr, chain_Servers c !! i = Some (mkPublicServerConfig (sig_Public (SigningKey m)) addr) ∧ addr ≠ "".

Lemma chain_of_ok coordKey made :
  (∀ i m, made !! i = Some m → m.2 ≠ "") → chain_ok coordKey (chain_of coordKey made).
Proof.
  intros Hm. split; cbn; [by rewrite !length_fmap|]. intros i m. rewrite !list_lookup_fmap.
  destruct (made !! i) as [[private addr]|] eqn:E; [|done]. cbn. intros [= <-]. cbn.
  split; [done|]. split; [apply lookup_singleton_eq|]. exists addr. split; [done|by apply (Hm i _ E)].
Qed.

Lemma launch_ok key listen n coordKey c :
  (∀ i addr, listen i = Some addr → addr ≠ "") →
  launchConvoMixchain key listen n coordKey = Ret c →
  chain_ok coordKey c ∧ length (mixServers c) = n ∧ stopped c = false.
Proof.
  intros Hl (made & Em & [= <-])%bind_Ret_inv. destruct (make_mixers_inv _ _ _ _ _ Em) as [Hlen Hj].
  split; [|split; [cbn; by rewrite length_fmap|done]].
  apply chain_of_ok. intros i m Hm. destruct (Hj i m Hm) as [_ E]. by eapply Hl.
Qed.

Lemma chain_config_valid coordKey addr c :
  length coordKey = 32%nat → addr ≠ "" → chain_ok coordKey c → mixServers c ≠ [] →
  Validate (mkConvoConfig ConvoConfigVersion (mkCoordinatorConfig coordKey addr) (chain_Servers c)) = Ret ().
Proof.
  intros Hk Ha [Hlen Hc] Hne. apply Validate_ok. cbn. split_and!; [done|done| |].
  - intros E. apply Hne. apply nil_length_inv. by rewrite <- Hlen, E.
  - apply Forall_lookup. intros i srv Hs.
    destruct (lookup_lt_is_Some_2 (mixServers c) i) as [m Hm].
    { rewrite <- Hlen. by apply lookup_lt_Some in Hs. }
    destruct (Hc i m Hm) as (_ & _ & addr' & Hs' & Ha'). rewrite Hs in Hs'. injection Hs' as ->. cbn.
    split; [apply length_sig_Public|done].
Qed.

Lemma start_coordinator_inv a tmpDir h h' u :
  (∀ t, temp (disk_io a) = Some t → t ≠ persist_path tmpDir) →
  start_coordinator a tmpDir h = (h', Ret u) →
  ∃ d, h' = set_coordinator_round (Some 0) (set_disk d h) ∧
    LoadPersistedState (persist_path tmpDir) (files d) = Ret 0.
Proof.
  intros Ht. unfold start_coordinator. rewrite go_bind_unfold. cbn [get].
  destruct (Persist _ _ _ _) as [d saved] eqn:Ep. rewrite go_bind_unfold. cbn [modify]. rewrite go_bind_unfold.
  destruct saved as [[]| | |]; [|done..]. cbn [check mret go_ret].
  destruct (Persist_loads (disk_io a) (persist_path tmpDir) 0 _ d ltac:(unfold is_u32; lia) Ht Ep) as [El _].
  rewrite El, go_bind_unfold. destruct (negb _); [|done]. intros [= <- _]. by exists d.
Qed.

(** Everything a harness that was started promises. *)
Definition harness_ok (g : guardian) (na : neverlur_answers) (os : list Option) (tmpDir : string) (h : Harness) : Prop :=
  ∃ s c signed conf private,
    side_ok SigningMessage g (neverlurMixers (resolve os)) tmpDir na s ∧
    side h = set_side_cleanups (cleanups s ++ [CloseConvoMixers; CloseConvoCoordinator; CloseConvoHTTP])
      (set_cfgServer ((signed ::.) <$> neverlurCfgServer s) s) ∧
    GjallarhornConvoMixers h = Some c ∧ harness_ConvoConfig h = Some signed ∧ coordinator_key h = Some private ∧
    length (mixServers c) = gjallarhornMixers (resolve os) ∧ stopped c = false ∧
    signed_by SigningMessage g signed ∧ Service signed = "Convo" ∧ Inner signed = InnerConvoConfig conf ∧
    MixServers conf = chain_Servers c ∧ coord_Key (Coordinator conf) = sig_Public private ∧
    chain_ok (sig_Public private) c ∧
    ((0 < length (mixServers c))%nat → Validate conf = Ret ()) ∧
    coordinator_round h = Some 0 ∧ cleaned h = [] ∧ closeOnce h = false.

(** One step of a sequence of stages that returned. *)
Ltac next E := apply bind_run in E as (? & [] & [= <-] & E).

Lemma startGjallarhornSide_ok g na os a tmpDir disk s h u :
  EdPub g = sig_Public (EdPriv g) →
  (∀ t, temp (disk_io a) = Some t → t ≠ persist_path tmpDir) →
  (∀ addr, coord_listen a = Some addr → addr ≠ "") → (∀ i addr, mixer_listen a i = Some addr → addr ≠ "") →
  side_ok SigningMessage g (neverlurMixers (resolve os)) tmpDir na s →
  startGjallarhornSide SigningMessage a tmpDir (mkHarness (resolve os) g s None None None None disk [] false) = (h, Ret u) →
  harness_ok g na os tmpDir h.
Proof.
  intros Hg Ht Hca Hma Hs. unfold startGjallarhornSide.
  intros (s1 & private & [-> Hpriv]%need_run & E)%bind_run. cbv zeta in E.
  apply bind_run in E as (s2 & addr & [-> Haddr]%need_run & E).
  apply bind_run in E as (s3 & h1 & [= <- <-] & E).
  apply bind_run in E as (s4 & c & [-> El]%need_run & E).
  destruct (launchConvoMixchain _ _ _ _) as [c'| | |] eqn:Ec; simplify_eq/=.
  destruct (launch_ok _ _ _ _ _ Hma Ec) as (Hc & Hn & Hst).
  do 2 next E. apply bind_run in E as (s5 & signed & [-> Es]%need_run & E).
  destruct (signConfigInPlace _ _ _) as [signed'| | |] eqn:Esign; simplify_eq/=.
  destruct (signConfigInPlace_ok _ _ _ _ Hg Esign) as (Hsv & Hin & Hby).
  apply bind_run in E as (s6 & srv & [-> _]%need_run & E).
  apply bind_run in E as (s7 & [] & [-> _]%check_run & E).
  do 2 next E. apply bind_run in E as (s8 & [] & Eco & E).
  destruct (start_coordinator_inv _ _ _ _ _ Ht Eco) as (d & -> & _).
  do 2 next E. injection E as <- _.
  exists s, c, signed, (mkConvoConfig ConvoConfigVersion (mkCoordinatorConfig (sig_Public private) addr)
    (chain_Servers c)), private.
  split_and!; try done; cbn.
  - by rewrite <- !app_assoc.
  - intros Hpos. apply chain_config_valid; [apply length_sig_Public|by apply Hca|done|].
    intros Enil. rewrite Enil in Hpos. cbn in Hpos. lia.
Qed.

Lemma New_ok g binding na a tmpDir disk os h :
  EdPub g = sig_Public (EdPriv g) →
  (∀ t, temp (disk_io a) = Some t → t ≠ persist_path tmpDir) →
  (∀ addr, coord_listen a = Some addr → addr ≠ "") → (∀ i addr, mixer_listen a i = Some addr → addr ≠ "") →
  New SigningMessage (Some (g, binding)) na a tmpDir disk os = Started h → harness_ok g na os tmpDir h.
Proof.
  intros Hg Ht Hca Hma. unfold New. destruct binding; [|done].
  destruct (startNeverlurSide _ _ _ _ _ _) as [s [u| | |]] eqn:En; [|done..].
  pose proof (startNeverlurSide_ok _ _ _ _ _ _ _ Hg En) as Hs.
  destruct (startGjallarhornSide _ _ _ _) as [h1 [u1| | |]] eqn:E; [|done..].
  intros [= <-]. by eapply startGjallarhornSide_ok.
Qed.

(** Closing runs what was registered, the last first. *)
Lemma run_cleanups_cleaned cs h :
  cleaned (foldl run_cleanup h cs) = cleaned h ++ cs ∧ closeOnce (foldl run_cleanup h cs) = closeOnce h ∧
  (CloseConvoMixers ∈ cs → ∀ c, GjallarhornConvoMixers (foldl run_cleanup h cs) = Some c → stopped c = true).
Proof.
  induction cs as [|x cs IH] using rev_ind.
  - cbn. rewrite app_nil_r. split_and!; [done|done|]. by intros ?%not_elem_of_nil.
  - rewrite foldl_app. cbn [foldl]. destruct IH as (IH1 & IH2 & IH3). split_and!; cbn.
    + by rewrite IH1, <- app_assoc.
    + done.
    + intros Hin c. apply elem_of_app in Hin as [Hin| <-%list_elem_of_singleton].
      * specialize (IH3 Hin). destruct x; try (by apply IH3).
        destruct (GjallarhornConvoMixers _) as [c'|]; [|done]. cbn. by intros [= <-].
      * destruct (GjallarhornConvoMixers _) as [c'|]; [|done]. cbn. by intros [= <-].
Qed.

(** C38. A harness that [New] returns is consistent. The servers of neverlur run and the two
    configurations that name them were signed by the guardian and published; it has the convo
    mixers that were asked for, each signs with the key that the published configuration lists for
    it, accepts the coordinator that the configuration names and runs the conversation service;
    that configuration is signed by the guardian too, and valid if there is a mixer; the coordinator
    starts at the round it persisted. [Close] stops everything once, the mixers included, in the
    reverse order of its registration: that is the reverse order of the start, except that the
    AddFriend coordinator, which starts before the Dialing coordinator, is registered after it,
    and stops first. *)
Theorem started_harness g binding na a tmpDir disk os h :
  EdPub g = sig_Public (EdPriv g) →
  (∀ t, temp (disk_io a) = Some t → t ≠ persist_path tmpDir) →
  (∀ addr, coord_listen a = Some addr → addr ≠ "") → (∀ i addr, mixer_listen a i = Some addr → addr ≠ "") →
  New SigningMessage (Some (g, binding)) na a tmpDir disk os = Started h →
  harness_ok g na os tmpDir h ∧
  cleaned (harness_Close h) =
    [CloseConvoHTTP; CloseConvoCoordinator; CloseConvoMixers; CloseCoordinatorHTTP; CloseAddFriend;
     CloseDialing; ClosePKG; CloseMixchain; CloseCDN; CloseConfigHTTP] ∧
  (∀ c, GjallarhornConvoMixers (harness_Close h) = Some c → stopped c = true) ∧
  harness_Close (harness_Close h) = harness_Close h.
Proof.
  intros Hg Ht Hca Hma E. pose proof (New_ok _ _ _ _ _ _ _ _ Hg Ht Hca Hma E) as Hok.
  split; [done|]. destruct Hok as (s & c & signed & conf & private & Hs & Hside & Hok).
  destruct_and! Hok. destruct Hs as (coord & nl & pkgInst & af & dl & url & Hs). destruct_and! Hs.
  assert (Ecl : cleanups (side h) = [CloseConfigHTTP; CloseCDN; CloseMixchain; ClosePKG; CloseDialing;
    CloseAddFriend; CloseCoordinatorHTTP; CloseConvoMixers; CloseConvoCoordinator; CloseConvoHTTP])
    by (rewrite Hside; cbn; by match goal with H : cleanups s = _ |- _ => rewrite H end).
  unfold harness_Close. match goal with H : closeOnce h = false |- _ => rewrite H end. cbn.
  destruct (run_cleanups_cleaned (reverse (cleanups (side h))) h) as (H1' & H2' & H3').
  split_and!; [|apply H3'|done].
  - rewrite H1', Ecl. match goal with H : cleaned h = [] |- _ => by rewrite H end.
  - rewrite elem_of_reverse, Ecl. set_solver.
Qed.

End started.

(** ** Examples *)

Section examples.
Local Existing Instance Toy.nacl.
Local Existing Instance Toy.onionbox.
Local Existing Instance Toy.signature.
Local Existing Instance Toy.signature_laws.

(** A library of neverlur in which a mixer is its number and the key server is a number too. *)
Local Instance toy_neverlur : NeverlurLib := mkNeverlurLib nat nat 2 1 1.

Definition sound : answers :=
  mkAnswers (Some [x01]) (Some "localhost:1") (λ i, Some (replicate i x02)) (λ _, Some "localhost:2")
    (0, 0) (λ _, true) (mkIo (Some "/tmp/x1") None true true true true true).

Definition neverlur_sound : neverlur_answers :=
  mkNeverlurAnswers true (Some "localhost:3") (Some [x03]) (Some "localhost:4") (mkEndpoint [x04] "localhost:5")
    (λ n _, seq 0 n) (Some 7%nat) (0, 0) (0, 0) (λ _, true) (true, true, true) (true, true, true).

Definition toy_message (c : signed_config) : bytes := concat (Guardians c).*1.
Definition toy_guardian : guardian := mkGuardian (sig_Public [x05]) [x05] [x06] (λ msg, Some (x06 :: msg)).

Definition tmp : string := "/tmp/test".
Definition started : new_result :=
  New toy_message (Some (toy_guardian, true)) neverlur_sound sound tmp (mkDisk ∅ []) [OptionMixerCount 1 2].

Lemma started_harness_witness :
  ∃ h, started = Started h ∧ harness_ok toy_message toy_guardian neverlur_sound [OptionMixerCount 1 2] tmp h ∧
    length (cleaned (harness_Close h)) = 10%nat.
Proof.
  assert (Es : match started with Started _ => true | Fatal _ => false end = true)
    by (vm_compute; reflexivity).
  destruct started as [h|h'] eqn:E; [clear Es|discriminate Es].
  exists h. destruct (started_harness toy_message toy_guardian true neverlur_sound sound tmp (mkDisk ∅ [])
    [OptionMixerCount 1 2] h) as (Hok & Hc & _).
  - reflexivity.
  - intros t [= <-]. vm_compute. discriminate.
  - intros addr [= <-]. discriminate.
  - intros i addr [= <-]. discriminate.
  - rewrite <- E. unfold started. f_equal.
  - split; [reflexivity|]. split; [exact Hok|]. rewrite Hc. reflexivity.
Defined.

(** A harness whose convo side does not start is not closed: the services of neverlur that
    were started go on. *)
Example failed_start_leaves_services :
  let broken := mkAnswers None (Some "localhost:1") (λ _, None) (λ _, None) (0, 0) (λ _, true)
    (mkIo None None true true true true true) in
  match New toy_message (Some (toy_guardian, true)) neverlur_sound broken tmp (mkDisk ∅ []) [] with
  | Fatal (Some left_over) =>
      cleanups (side left_over) = [CloseConfigHTTP; CloseCDN; CloseMixchain; ClosePKG; CloseDialing;
        CloseAddFriend; CloseCoordinatorHTTP] ∧ cleaned left_over = []
  | _ => False
  end.
Proof. done. Qed.

(** The AddFriend coordinator runs and is not even registered where the dialing one cannot persist. *)
Example failed_dialing_leaves_addFriend :
  let a := mkNeverlurAnswers true (Some "localhost:3") (Some [x03]) (Some "localhost:4") (mkEndpoint [x04] "localhost:5")
    (λ n _, seq 0 n) (Some 7%nat) (0, 0) (0, 0) (λ _, true) (true, true, true) (false, true, true) in
  match New toy_message (Some (toy_guardian, true)) a sound tmp (mkDisk ∅ []) [] with
  | Fatal (Some left_over) =>
      nc_Service <$> NeverlurCoordinator (side left_over) = Some "AddFriend" ∧
      cleanups (side left_over) = [CloseConfigHTTP; CloseCDN; CloseMixchain; ClosePKG]
  | _ => False
  end.
Proof. done. Qed.

End examples.
