(* ===== verification/HarnessClient.v ===== *)
(** * The clients of the test harness (internal/testharness/client.go)

    [ClientFor] makes the pair of clients of a test user against a harness: the client of
    neverlur, which it bootstraps with the harness's configurations and registers, and the
    conversation client, which is not connected yet. [Start] connects them, [Stop] closes them. *)

From Stdlib Require Import ZArith Lia.
From stdpp Require Import base numbers strings gmap list.
From S2P Require Import Prelude GoStrings Paths External Settings Convo ConvoMix ConvoConfig Client Persist HarnessNeverlur HarnessServers Harness.

(** ** ClientFor *)

(** Where [ClientFor] calls [Fatalf]. *)
Inductive client_for_error := GenerateIdentity | PKGLoginKeygen | BootstrapFailed | RegisterFailed.

Section client_for.
Context `{NaCl} `{Signature} `{NeverlurLib} `{SignedConfigs}.
Context {Friend IncomingRequest OutgoingRequest : Type}.

(** The client of neverlur: what it is made with, bootstrapped with, and where it registered. *)
Record nl_client := mkNlClient {
  nl_Username : string;
  LongTermPublicKey : bytes;
  LongTermPrivateKey : bytes;
  PKGLoginKey : bytes;
  nl_ConfigClient : option string;
  ClientPersistPath : string;
  KeywheelPersistPath : string;
  bootstrapped : option (signed_config * signed_config);
  registered : option PKGServer
}.

(** The conversation client: its settings, and its state; the latency is in nanoseconds. *)
Record convo_client := mkConvoClient {
  PersistPath : string;
  cc_ConfigClient : option string;
  CoordinatorLatency : Z;
  cc_state : Client
}.

Record test_client := mkTestPair {
  tc : @TestClient Friend IncomingRequest OutgoingRequest;
  tc_Client : nl_client;
  ConvoClient : convo_client;
  HybridIdentity : bytes * bytes           (* the classical half: public and private key *)
}.

(** What the libraries answer: the identity and the login key that are generated, what
    [Bootstrap] and [Register] of neverlur's client return. *)
Record client_answers := mkClientAnswers {
  ca_identity : option (bytes * bytes);
  ca_login : option bytes;
  ca_Bootstrap : option signed_config → option signed_config → bool;
  ca_Register : PKGServer → bool
}.

(** [Bootstrap] of neverlur's client sets both configurations where it accepts them. *)
Definition bootstrapClient (a : client_answers) (c : nl_client) (addFriend dialing : option signed_config)
    : outcome client_for_error nl_client :=
  if ca_Bootstrap a addFriend dialing then
    Ret (mkNlClient (nl_Username c) (LongTermPublicKey c) (LongTermPrivateKey c) (PKGLoginKey c) (nl_ConfigClient c)
      (ClientPersistPath c) (KeywheelPersistPath c)
      (af ← addFriend; dl ← dialing; Some (af, dl)) (registered c))
  else Err BootstrapFailed.

(** The key server of a harness without one is a nil pointer. *)
Definition register_client (a : client_answers) (c : nl_client) (pkg : option PKGServer)
    : outcome client_for_error nl_client :=
  pkgServer ← or_panic pkg;
  if ca_Register a pkgServer then
    Ret (mkNlClient (nl_Username c) (LongTermPublicKey c) (LongTermPrivateKey c) (PKGLoginKey c) (nl_ConfigClient c)
      (ClientPersistPath c) (KeywheelPersistPath c) (bootstrapped c) (Some pkgServer))
  else Err RegisterFailed.

Definition ClientFor (h : Harness) (a : client_answers) (clientDir username : string)
    : outcome client_for_error test_client :=
  match ca_identity a with
  | None => Err GenerateIdentity
  | Some id =>
      match ca_login a with
      | None => Err PKGLoginKeygen
      | Some pkgLoginPriv =>
          let t := new_TestClient username in
          let c := mkNlClient username id.1 id.2 pkgLoginPriv (neverlurCfgClient (side h))
            (Join clientDir "client") (Join clientDir "keywheel") None None in
          c ← bootstrapClient a c (harness_AddFriendConfig (side h)) (harness_DialingConfig (side h));
          c ← register_client a c (NeverlurPKG (side h));
          Ret (mkTestPair t c
            (mkConvoClient (Join clientDir "convo-client") (neverlurCfgClient (side h)) (500 * 10 ^ 6) zero_Client) id)
      end
  end.

(** [StartConvo] is [ConnectConvo] of the conversation client ([ClientConn]). *)

(** ** What a client of a started harness is *)

Context (SigningMessage : signed_config → bytes).

(** The client knows the two configurations that the guardian signed, is registered with the key
    server that the first one lists, and both clients ask the server that published them; its
    three files are different ones; it has no conversation and no connection yet. *)
Definition client_ok (g : guardian) (h : Harness) (username : string) (t : test_client) : Prop :=
  ∃ af dl pkg cfg url,
    bootstrapped (tc_Client t) = Some (af, dl) ∧ signed_by SigningMessage g af ∧ signed_by SigningMessage g dl ∧
    Inner af = InnerAddFriend cfg ∧ af_PKGServers cfg = [pkg] ∧ registered (tc_Client t) = Some pkg ∧
    neverlurCfgClient (side h) = Some url ∧
    nl_ConfigClient (tc_Client t) = Some url ∧ cc_ConfigClient (ConvoClient t) = Some url ∧
    af ∈ default [] (neverlurCfgServer (side h)) ∧ dl ∈ default [] (neverlurCfgServer (side h)) ∧
    nl_Username (tc_Client t) = username ∧ tc_Username (tc t) = username ∧
    NoDup [ClientPersistPath (tc_Client t); KeywheelPersistPath (tc_Client t); PersistPath (ConvoClient t)] ∧
    tc_ConvoState (tc t) = None ∧ client_conn (cc_state (ConvoClient t)) = None.

Lemma client_files clientDir :
  NoDup [Join clientDir "client"; Join clientDir "keywheel"; Join clientDir "convo-client"].
Proof.
  assert (Hp : plain "client" ∧ plain "keywheel" ∧ plain "convo-client") by (split_and!; done).
  destruct Hp as (H1' & H2' & H3').
  repeat constructor; rewrite ?elem_of_cons, ?elem_of_nil; intros Hin; destruct_or? Hin; try done;
    by apply Join_inj in Hin.
Qed.

(** On a harness that [New] returned, [ClientFor] makes such a client or names the step that failed. *)
Lemma ClientFor_ok `{!SignatureLaws} `{!Onionbox} g na os tmpDir h a clientDir username :
  harness_ok SigningMessage g na os tmpDir h →
  match ClientFor h a clientDir username with
  | Ret t => client_ok g h username t
  | Err GenerateIdentity => ca_identity a = None
  | Err PKGLoginKeygen => ca_login a = None
  | Err BootstrapFailed => ca_Bootstrap a (harness_AddFriendConfig (side h)) (harness_DialingConfig (side h)) = false
  | Err RegisterFailed => ∃ pkg, NeverlurPKG (side h) = Some pkg ∧ ca_Register a pkg = false
  | _ => False
  end.
Proof.
  intros (s & c & signed & conf & private & Hs & Hside & _).
  destruct Hs as (coord & nl & pkgInst & af & dl & url & Hs). destruct_and! Hs.
  unfold ClientFor, bootstrapClient, register_client. rewrite !Hside. cbn.
  destruct (ca_identity a) as [id|]; [|done]. destruct (ca_login a) as [login|]; [|done].
  repeat match goal with E : _ s = Some _ |- _ => rewrite !E end. cbn.
  destruct (ca_Bootstrap a _ _) eqn:Eb; cbn; [|done].
  destruct (ca_Register a pkgInst) eqn:Er; cbn; [|by exists pkgInst].
  exists af, dl, pkgInst, (mkAddFriendConfig AddFriendConfigVersion coord [pkgInst]
    (mixchain_of na (neverlurMixers (resolve os)) (ep_Key coord)) (cdn na) coord), url. cbn.
  rewrite !Hside. cbn.
  repeat match goal with E : _ s = Some _ |- _ => rewrite !E end. cbn.
  split_and!; try done; try set_solver. apply client_files.
Qed.

(** A new client refuses a message until a call made its conversation. *)
Lemma SendMessage_before_call username body :
  (0 < length body ≤ SizeMessageBody)%nat → Json.valid_utf8 body = true →
  SendMessage (Friend:=Friend) (IncomingRequest:=IncomingRequest) (OutgoingRequest:=OutgoingRequest) body
    (new_TestClient username) = (new_TestClient username, Err errNoConvoState).
Proof.
  intros Hl Hu. unfold SendMessage. rewrite decide_False by lia. rewrite Hu. cbn [negb].
  by rewrite decide_False by lia.
Qed.

End client_for.

(** ** The connections *)

(** The three connections of a client, open or not. *)
Record sockets := mkSockets { addFriend_open : bool; dialing_open : bool; convo_open : bool }.

Definition no_sockets : sockets := mkSockets false false false.

(** Whether each connects; the goroutines that forward disconnects start on success. *)
Definition Start (af dl cv : bool) (s : sockets) : sockets * outcome stage_error unit :=
  if negb af then (s, Err (Wrap "Start: ConnectAddFriend"))
  else
    let s := mkSockets true (dialing_open s) (convo_open s) in
    if negb dl then
      (mkSockets false (dialing_open s) (convo_open s), Err (Wrap "Start: ConnectDialing"))
    else
      let s := mkSockets true true (convo_open s) in
      if negb cv then (mkSockets false false (convo_open s), Err (Wrap "Start: ConnectConvo"))
      else (mkSockets true true true, Ret ()).

Definition Stop (s : sockets) : sockets := mkSockets false false false.

(** What arrives on the channel of one connection goes to [out] while it has room for eight. *)
Fixpoint forwardDisconnect {E} (service : string) (errs : list E) (out : list (string * E))
    : list (string * E) :=
  match errs with
  | [] => out
  | err :: errs =>
      forwardDisconnect service errs (if decide (length out < 8)%nat then out ++ [(service, err)] else out)
  end.

(** A start that fails leaves nothing open. *)
Lemma Start_all_or_nothing af dl cv :
  match Start af dl cv no_sockets with
  | (s, Ret _) => s = mkSockets true true true ∧ Stop s = no_sockets
  | (s, _) => s = no_sockets
  end.
Proof. by destruct af, dl, cv. Qed.

Lemma forwardDisconnect_run {E} service (errs : list E) out :
  (length out ≤ 8)%nat →
  forwardDisconnect service errs out = take 8 (out ++ ((λ e, (service, e)) <$> errs)).
Proof.
  revert out. induction errs as [|err errs IH]; intros out Hl; cbn [forwardDisconnect fmap list_fmap].
  - by rewrite app_nil_r, take_ge.
  - destruct (decide (length out < 8)%nat) as [Hlt|Hge].
    + rewrite IH by (rewrite length_app; cbn; lia). by rewrite <- app_assoc.
    + rewrite IH by done. by rewrite !take_app_length' by lia.
Qed.
