(* ===== verification/Demo.v ===== *)
(** * The demonstration program (cmd/gjallarhorn-conversation-demo/main.go)

    One process runs a harness and two clients, makes them friends, lets one call the other and
    sends a message. [main] returns or leaves through one of two [Fatalf]: that of the test object
    runs the cleanups first, [log.Fatalf] ends the process at once, so that what was deferred does
    not run. What the services answer is an argument. *)

From Stdlib Require Import ZArith Lia.
From stdpp Require Import base numbers strings sets gmap list.
From S2P Require Import Prelude GoStd Json GoStrings External Settings Convo ConvoMix ConvoConfig Persist HarnessNeverlur HarnessServers Harness HarnessClient.

(** ** The test object *)

(** What is to be undone: directories, the harness, and the connections of the two clients. *)
Inductive tb_cleanup := RemoveAll (dir : string) | CloseHarness | StopAlice | StopBob.

(** The reason is the beginning of what is printed. *)
Inductive demo_exit := TBFatal (why : string) | LogFatal (why : string).

Section demo.
Context `{NaCl} `{Onionbox} `{Signature} `{NeverlurLib} `{SignedConfigs}.
Context (SigningMessage : signed_config → bytes).
Context {Friend IncomingRequest OutgoingRequest : Type}.

Record Demo := mkDemo {
  tb_cleanups : list tb_cleanup;
  tb_ran : list tb_cleanup;
  universe : option Harness;
  alice_sockets : sockets;
  bob_sockets : sockets
}.

Definition eta_Demo (d : Demo) : Demo :=
  mkDemo (tb_cleanups d) (tb_ran d) (universe d) (alice_sockets d) (bob_sockets d).

Definition set_tb_cleanups v (d : Demo) : Demo := ltac:(set_field eta_Demo tb_cleanups v d).
Definition set_tb_ran v (d : Demo) : Demo := ltac:(set_field eta_Demo tb_ran v d).
Definition set_universe v (d : Demo) : Demo := ltac:(set_field eta_Demo universe v d).
Definition set_alice_sockets v (d : Demo) : Demo := ltac:(set_field eta_Demo alice_sockets v d).
Definition set_bob_sockets v (d : Demo) : Demo := ltac:(set_field eta_Demo bob_sockets v d).

Definition no_demo : Demo := mkDemo [] [] None no_sockets no_sockets.

Abbreviation program := (go Demo demo_exit).

Definition Cleanup (c : tb_cleanup) : program unit := modify (λ d, set_tb_cleanups (tb_cleanups d ++ [c]) d).

Definition run_tb (d : Demo) (c : tb_cleanup) : Demo :=
  let d := set_tb_ran (tb_ran d ++ [c]) d in
  match c with
  | RemoveAll _ => d
  | CloseHarness => set_universe (harness_Close <$> universe d) d
  | StopAlice => set_alice_sockets (Stop (alice_sockets d)) d
  | StopBob => set_bob_sockets (Stop (bob_sockets d)) d
  end.

Definition runCleanups : program unit :=
  modify (λ d, foldl run_tb (set_tb_cleanups [] d) (reverse (tb_cleanups d))).

Definition Fatalf {A} (why : string) : program A :=
  runCleanups;;
  throw (TBFatal why).

Definition log_Fatalf {A} (why : string) : program A := throw (LogFatal why).

Definition TempDir (dir : option string) : program string :=
  match dir with
  | None => Fatalf "MkdirTemp"
  | Some dir => Cleanup (RemoveAll dir);; mret dir
  end.

(** A [defer] runs when the function returns or panics, not when the process exits. *)
Definition defer {A} (m : program A) (c : program unit) : program A := λ d,
  match m d with
  | (d, Err e) => (d, Err e)
  | (d, Block) => (d, Block)
  | (d, o) => ((c d).1, o)
  end.

(** ** The steps *)

(** What the services answer; a [None] where a wait is over without what it waited for. *)
Record demo_answers := mkDemoAnswers {
  an_identity : option (guardian * bool);
  an_dirs : option string * option string * option string;    (* of the harness, alice and bob *)
  an_neverlur : neverlur_answers;
  an_gjallarhorn : HarnessServers.answers;
  an_disk : Disk;
  an_bindings : bool * bool * bool;
  an_alice : client_answers;
  an_bob : client_answers;
  an_alice_start : bool * bool * bool;
  an_bob_start : bool * bool * bool;
  an_sent_request : bool;
  an_request : option unit;
  an_approved : bool;
  an_friends : list (Z * bool) * bool;        (* the polls and the check after them *)
  an_friend : bool;
  an_states : list (Z * bool) * option harnessConvoState;
  an_received : option IncomingMessage
}.

Definition log_check (why : string) (ok : bool) : program unit :=
  if ok then mret () else log_Fatalf why.

(** [New], which asks for its directory once it has a guardian. *)
Definition new_harness (a : demo_answers) : program Harness :=
  match an_identity a with
  | None => Fatalf "testharness: generate harness guardian"
  | Some (_, false) => Fatalf "testharness: harness guardian binding"
  | Some (id, true) =>
      dir ← TempDir (an_dirs a).1.1;
      match New SigningMessage (Some (id, true)) (an_neverlur a) (an_gjallarhorn a) dir (an_disk a) [] with
      | Started h => modify (set_universe (Some h));; Cleanup CloseHarness;; mret h
      | Fatal left_over => modify (set_universe left_over);; Fatalf "testharness"
      end
  end.

(** [ClientFor], which asks for its directory once it has its keys. *)
Definition new_client (h : Harness) (ca : client_answers) (dir : option string) (username : string)
    : program (@test_client _ _ Friend IncomingRequest OutgoingRequest) :=
  match ca_identity ca, ca_login ca with
  | None, _ => Fatalf "testharness: ClientFor: generate identity"
  | _, None => Fatalf "testharness: ClientFor: PKG login keygen"
  | _, _ =>
      clientDir ← TempDir dir;
      match ClientFor h ca clientDir username with
      | Ret t => mret t
      | Err _ => Fatalf "testharness: ClientFor"
      | Panic => panic
      | Block => block
      end
  end.

(** A client starts, or all its connections are closed again. *)
Definition start_alice (c : bool * bool * bool) : program unit :=
  d ← get;
  let '(s, r) := Start c.1.1 c.1.2 c.2 (alice_sockets d) in
  modify (set_alice_sockets s);;
  log_check "alice.Start" (match r with Ret _ => true | _ => false end).

Definition start_bob (c : bool * bool * bool) : program unit :=
  d ← get;
  let '(s, r) := Start c.1.1 c.1.2 c.2 (bob_sockets d) in
  modify (set_bob_sockets s);;
  log_check "bob.Start" (match r with Ret _ => true | _ => false end).

(** The loop that waits: before the deadline it looks, and sleeps where both are not there; with
    no more readings it goes on. *)
Fixpoint poll {E} (deadline : Z) (polls : list (Z * bool)) : outcome E unit :=
  match polls with
  | [] => Block
  | (now, both) :: polls =>
      if decide (now < deadline) then if both then Ret () else poll deadline polls
      else Ret ()
  end.

(** [now] is the clock when the wait of a minute begins. *)
Definition wait_minute (now : Z) (polls : list (Z * bool)) : program unit :=
  lift (poll (now + 60 * 10 ^ 9) polls).

Definition body : bytes :=
  str "hello bob — sealed via NaCl secretbox with key derived from hybrid X25519+ML-KEM-768 keywheel".

(** From the friend request to the message. *)
Definition conversation (a : demo_answers) (now1 now2 : Z)
    (alice : @test_client _ _ Friend IncomingRequest OutgoingRequest) : program unit :=
  log_check "SendFriendRequest" (an_sent_request a);;
  log_check "bob never received friend request within 60s" (match an_request a with Some _ => true | None => false end);;
  log_check "Approve" (an_approved a);;
  wait_minute now1 (an_friends a).1;;
  log_check "friendship not confirmed within 60s" (an_friends a).2;;
  log_check "alice has no friend object for bob despite HasFriend=true" (an_friend a);;
  wait_minute now2 (an_states a).1;;
  match (an_states a).2 with
  | None => log_Fatalf "ConvoState not bootstrapped within 60s"
  | Some state =>
      let t := set_tc_ConvoState (Some state) (tc alice) in
      log_check "SendMessage" (match (SendMessage body t).2 with Ret _ => true | _ => false end);;
      match an_received a with
      | None => log_Fatalf "bob never received the message"
      | Some msg => log_check "body mismatch" (bool_decide (Body msg = body))
      end
  end.

Definition main (a : demo_answers) (now1 now2 : Z) : program unit :=
  defer (
    h ← new_harness a;
    log_check "harness guardian binding" (an_bindings a).1.1;;
    alice ← new_client h (an_alice a) (an_dirs a).1.2 "alice@gjallarhorn-demo.test";
    bob ← new_client h (an_bob a) (an_dirs a).2 "bob@gjallarhorn-demo.test";
    log_check "alice binding" (an_bindings a).1.2;;
    log_check "bob binding" (an_bindings a).2;;
    start_alice (an_alice_start a);;
    start_bob (an_bob_start a);;
    defer (defer (conversation a now1 now2 alice) (modify (λ d, run_tb d StopBob)))
      (modify (λ d, run_tb d StopAlice)))
  runCleanups.

End demo.

(** ** The waits *)

(** Readings of a clock that are at least half a second apart, from [t] on. *)
Fixpoint half_seconds {A} (t : Z) (polls : list (Z * A)) : Prop :=
  match polls with
  | [] => True
  | (now, _) :: polls => t <= now ∧ half_seconds (now + 500 * 10 ^ 6) polls
  end.

Lemma poll_reaches {E} deadline t polls n :
  half_seconds t polls → (n < length polls)%nat → deadline <= t + Z.of_nat n * (500 * 10 ^ 6) →
  poll (E:=E) deadline polls = Ret ().
Proof.
  revert t n. induction polls as [|[now both] polls IH]; intros t n; cbn [half_seconds length poll]; [lia|].
  intros [Ht Hp] Hn Hd. destruct (decide (now < deadline)) as [Hlt|]; [|done]. destruct both; [done|].
  destruct n as [|n]; [lia|]. apply (IH _ n Hp); lia.
Qed.

Lemma poll_ends {E} deadline polls : poll (E:=E) deadline polls = Ret () ∨ poll (E:=E) deadline polls = Block.
Proof.
  induction polls as [|[now both] polls IH]; cbn [poll]; [by right|].
  destruct (decide _); [destruct both; [by left|done]|by left].
Qed.

(** A wait of a minute is over after 121 looks. *)
Lemma minute_is_over {E} now polls :
  half_seconds now polls → (120 < length polls)%nat → poll (E:=E) (now + 60 * 10 ^ 9) polls = Ret ().
Proof. intros Hp Hl. apply (poll_reaches _ now polls 120 Hp Hl). lia. Qed.

(** ** How the program ends *)

Section ends.
Context `{NaCl} `{Onionbox} `{SignatureLaws} `{NeverlurLib} `{SignedConfigs}.
Context (SigningMessage : signed_config → bytes).
Context {Friend IncomingRequest OutgoingRequest : Type}.

(** What is open, and what was undone, where the program is left by the test object's [Fatalf]. *)
Definition left_clean (d : Demo) : Prop :=
  tb_cleanups d = [] ∧ alice_sockets d = no_sockets ∧ bob_sockets d = no_sockets.

Lemma Fatalf_run {A} why d :
  alice_sockets d = no_sockets → bob_sockets d = no_sockets →
  ∃ d', Fatalf (A:=A) why d = (d', Err (TBFatal why)) ∧ left_clean d'.
Proof.
  intros Ha Hb. unfold Fatalf. rewrite go_bind_unfold. cbn [runCleanups modify]. eexists. split; [done|].
  assert (Hf : ∀ cs d0, alice_sockets d0 = no_sockets → bob_sockets d0 = no_sockets → tb_cleanups d0 = [] →
    left_clean (foldl run_tb d0 cs)).
  { induction cs as [|c cs IH]; intros d0 H1' H2' H3'; [done|]. cbn. apply IH; destruct c; done. }
  by apply Hf.
Qed.

Lemma new_harness_run a :
  match new_harness SigningMessage a no_demo with
  | (d, Ret h) => ∃ g dir, an_identity a = Some (g, true) ∧ (an_dirs a).1.1 = Some dir ∧
      New SigningMessage (Some (g, true)) (an_neverlur a) (an_gjallarhorn a) dir (an_disk a) [] = Started h ∧
      d = mkDemo [RemoveAll dir; CloseHarness] [] (Some h) no_sockets no_sockets
  | (d, Err (TBFatal _)) => left_clean d
  | _ => False
  end.
Proof.
  unfold new_harness. destruct (an_identity a) as [[g [|]]|]; [|done..].
  rewrite go_bind_unfold. destruct ((an_dirs a).1.1) as [dir|]; [|done].
  cbn [TempDir]. unfold Cleanup at 1. rewrite go_bind_unfold. cbn [modify mret go_ret].
  destruct (New _ _ _ _ _ _ _) as [h|left_over] eqn:En.
  - exists g, dir. done.
  - rewrite go_bind_unfold. cbn [modify].
    match goal with |- context [Fatalf ?w ?d] => destruct (Fatalf_run (A:=Harness) w d) as (d' & -> & Hd) end; done.
Qed.

Lemma ClientFor_total h ca p username pkg :
  NeverlurPKG (side h) = Some pkg →
  let r := ClientFor (Friend:=Friend) (IncomingRequest:=IncomingRequest) (OutgoingRequest:=OutgoingRequest)
    h ca p username in
  r ≠ Panic ∧ r ≠ Block.
Proof.
  intros Hpkg. unfold ClientFor, bootstrapClient, register_client. rewrite Hpkg.
  destruct (ca_identity ca); [|done]. destruct (ca_login ca); [|done]. cbn.
  destruct (ca_Bootstrap _ _ _); [|done]. cbn. by destruct (ca_Register _ _).
Qed.

Lemma new_client_run h ca dir username d :
  is_Some (NeverlurPKG (side h)) → alice_sockets d = no_sockets → bob_sockets d = no_sockets →
  match new_client (Friend:=Friend) (IncomingRequest:=IncomingRequest) (OutgoingRequest:=OutgoingRequest)
          h ca dir username d with
  | (d', Ret t) => ∃ p, dir = Some p ∧ ClientFor h ca p username = Ret t ∧
      d' = set_tb_cleanups (tb_cleanups d ++ [RemoveAll p]) d
  | (d', Err (TBFatal _)) => left_clean d'
  | _ => False
  end.
Proof.
  intros [pkg Hpkg] Ha Hb. unfold new_client.
  assert (Hf : ∀ why d0, alice_sockets d0 = no_sockets → bob_sockets d0 = no_sockets →
    match Fatalf (A:=@test_client _ _ Friend IncomingRequest OutgoingRequest) why d0 with
    | (d', Err (TBFatal _)) => left_clean d' | _ => False end).
  { intros why d0 H1' H2'. by destruct (Fatalf_run (A:=@test_client _ _ Friend IncomingRequest OutgoingRequest)
      why d0 H1' H2') as (d' & -> & Hd). }
  destruct (ca_identity ca) as [id|] eqn:Ei; [|specialize (Hf "testharness: ClientFor: generate identity" d Ha Hb); by case_match; case_match].
  destruct (ca_login ca) as [login|] eqn:El; [|specialize (Hf "testharness: ClientFor: PKG login keygen" d Ha Hb); by case_match; case_match].
  rewrite go_bind_unfold. destruct dir as [p|]; cbn [TempDir]; cycle 1.
  { destruct (Fatalf_run (A:=string) "MkdirTemp" d Ha Hb) as (d' & -> & Hd). done. }
  unfold Cleanup. rewrite go_bind_unfold. cbn [modify mret go_ret].
  destruct (ClientFor h ca p username) as [t|e| |] eqn:Ec; cbn.
  - by exists p.
  - specialize (Hf "testharness: ClientFor" (set_tb_cleanups (tb_cleanups d ++ [RemoveAll p]) d) Ha Hb). by case_match; case_match.
  - by destruct (ClientFor_total h ca p username pkg Hpkg).
  - by destruct (ClientFor_total h ca p username pkg Hpkg).
Qed.

(** The message is one that a client with a conversation takes. *)
Lemma SendMessage_body (t : TestClient Friend IncomingRequest OutgoingRequest) state :
  ∃ t', SendMessage body (set_tc_ConvoState (Some state) t) = (t', Ret ()).
Proof. unfold SendMessage. eexists. vm_compute. done. Qed.

(** The conversation undoes nothing itself. *)
Lemma conversation_run a now1 now2 (alice : @test_client _ _ Friend IncomingRequest OutgoingRequest) d :
  match conversation a now1 now2 alice d with
  | (d', Ret _) => d' = d ∧ Body <$> an_received a = Some body
  | (d', Err (LogFatal _)) => d' = d
  | (d', Block) => d' = d ∧ (poll (E:=demo_exit) (now1 + 60 * 10 ^ 9) (an_friends a).1 = Block ∨
                             poll (E:=demo_exit) (now2 + 60 * 10 ^ 9) (an_states a).1 = Block)
  | _ => False
  end.
Proof.
  unfold conversation, log_check. rewrite go_bind_unfold. destruct (an_sent_request a); cbn [mret go_ret]; [|done].
  rewrite go_bind_unfold. destruct (an_request a); cbn [mret go_ret]; [|done].
  rewrite go_bind_unfold. destruct (an_approved a); cbn [mret go_ret]; [|done].
  rewrite go_bind_unfold. unfold wait_minute at 1. cbn [lift].
  destruct (poll_ends (E:=demo_exit) (now1 + 60 * 10 ^ 9) (an_friends a).1) as [-> | ->]; [|by split; [|left]].
  rewrite go_bind_unfold. destruct ((an_friends a).2); cbn [mret go_ret]; [|done].
  rewrite go_bind_unfold. destruct (an_friend a); cbn [mret go_ret]; [|done].
  rewrite go_bind_unfold. unfold wait_minute. cbn [lift].
  destruct (poll_ends (E:=demo_exit) (now2 + 60 * 10 ^ 9) (an_states a).1) as [-> | ->]; [|by split; [|right]].
  destruct ((an_states a).2) as [state|]; [|done].
  destruct (SendMessage_body (tc alice) state) as [t' ->]. cbn [snd]. rewrite go_bind_unfold. cbn [mret go_ret].
  destruct (an_received a) as [msg|]; [|done]. destruct (bool_decide _) eqn:Eb; [|done].
  apply bool_decide_eq_true in Eb. by rewrite <- Eb.
Qed.

(** How the program left: it returned, or a [Fatalf] ended it. *)
Definition demo_left (a : demo_answers) (d : Demo) (r : outcome demo_exit unit) : Prop :=
  match r with
  | Ret _ =>
      Body <$> an_received a = Some body ∧ left_clean d ∧
      ∃ h dir dir_alice dir_bob,
        tb_ran d = [StopBob; StopAlice; RemoveAll dir_bob; RemoveAll dir_alice; CloseHarness; RemoveAll dir] ∧
        universe d = Some (harness_Close h)
  | Err (TBFatal _) => left_clean d
  | Err (LogFatal _) =>
      tb_ran d = [] ∧ ∃ h, universe d = Some h ∧ closeOnce h = false ∧ CloseHarness ∈ tb_cleanups d
  | Panic | Block => False
  end.

(** Starting a client opens connections, or the program fails. *)
Lemma start_alice_run c d :
  ∃ s, start_alice c d = (set_alice_sockets s d, Ret ()) ∨
       start_alice c d = (set_alice_sockets s d, Err (LogFatal "alice.Start")).
Proof. destruct c as [[[|] [|]] [|]]; eexists; (by left) || by right. Qed.

Lemma start_bob_run c d :
  ∃ s, start_bob c d = (set_bob_sockets s d, Ret ()) ∨
       start_bob c d = (set_bob_sockets s d, Err (LogFatal "bob.Start")).
Proof. destruct c as [[[|] [|]] [|]]; eexists; (by left) || by right. Qed.

(** Where the program fails itself. *)
Ltac fatal h := intros [= <- <-]; split; [done|]; exists h; split_and!; [done|done|set_solver].

(** C33. How the demonstration ends, whatever the services answer. Every wait is over after a minute
    at most, and nothing panics. It returns only if bob received the very message that alice sent,
    and then it undid everything in the reverse order: the connections of bob and alice, their
    directories, the harness and its directory. Where the test object fails it, no client is
    connected and all that was registered is undone. Where it fails itself, through [log.Fatalf],
    nothing is: the servers and the directories are left as they are. *)
Theorem demo_ends a now1 now2 d r :
  (∀ g b, an_identity a = Some (g, b) → EdPub g = sig_Public (EdPriv g)) →
  (∀ dir t, (an_dirs a).1.1 = Some dir → temp (disk_io (an_gjallarhorn a)) = Some t → t ≠ persist_path dir) →
  (∀ addr, coord_listen (an_gjallarhorn a) = Some addr → addr ≠ "") →
  (∀ i addr, mixer_listen (an_gjallarhorn a) i = Some addr → addr ≠ "") →
  half_seconds now1 (an_friends a).1 → (120 < length (an_friends a).1)%nat →
  half_seconds now2 (an_states a).1 → (120 < length (an_states a).1)%nat →
  main SigningMessage (Friend:=Friend) (IncomingRequest:=IncomingRequest) (OutgoingRequest:=OutgoingRequest)
    a now1 now2 no_demo = (d, r) →
  demo_left a d r.
Proof.
  intros Hg Ht Hca Hma Hp1 Hl1 Hp2 Hl2. unfold main, defer at 1. rewrite go_bind_unfold.
  pose proof (new_harness_run a) as Hn. destruct (new_harness _ _ _) as [d0 [h|[]| |]]; [|by intros [= <- <-]|done..].
  destruct Hn as (g & dir & Hid & Hdir & Hnew & ->).
  assert (Hok : harness_ok SigningMessage g (an_neverlur a) [] dir h).
  { eapply New_ok; [by eapply Hg| |done..|done]. intros t. by apply Ht. }
  destruct Hok as (s & c & signed & conf & private & Hs & Hside & Hok). destruct_and! Hok.
  destruct Hs as (coord & nl & pkgInst & af & dl & url & Hs). destruct_and! Hs.
  assert (Hpkg : is_Some (NeverlurPKG (side h))) by (rewrite Hside; by eexists).
  assert (Hno : closeOnce h = false) by done.
  rewrite go_bind_unfold. unfold log_check at 1. destruct ((an_bindings a).1.1); [|by fatal h].
  cbn [mret go_ret]. rewrite go_bind_unfold.
  match goal with |- context [new_client h (an_alice a) ?x ?u ?d] =>
    pose proof (new_client_run h (an_alice a) x u d Hpkg eq_refl eq_refl) as Ha;
    destruct (new_client h (an_alice a) x u d) as [d1 [alice|[]| |]]; [|by intros [= <- <-]|done..] end.
  destruct Ha as (dir_alice & Edir1 & _ & ->). rewrite go_bind_unfold.
  match goal with |- context [new_client h (an_bob a) ?x ?u ?d] =>
    pose proof (new_client_run h (an_bob a) x u d Hpkg eq_refl eq_refl) as Hb;
    destruct (new_client h (an_bob a) x u d) as [d1 [bob|[]| |]]; [|by intros [= <- <-]|done..] end.
  destruct Hb as (dir_bob & Edir2 & _ & ->). cbn.
  rewrite go_bind_unfold. unfold log_check at 1. destruct ((an_bindings a).1.2); [|by fatal h].
  cbn [mret go_ret]. rewrite go_bind_unfold. unfold log_check at 1. destruct ((an_bindings a).2); [|by fatal h].
  cbn [mret go_ret]. rewrite go_bind_unfold.
  match goal with |- context [start_alice _ ?d] =>
    destruct (start_alice_run (an_alice_start a) d) as (s1 & [-> | ->]); [|by fatal h] end.
  rewrite go_bind_unfold.
  match goal with |- context [start_bob _ ?d] =>
    destruct (start_bob_run (an_bob_start a) d) as (s2 & [-> | ->]); [|by fatal h] end.
  unfold defer.
  match goal with |- context [conversation a now1 now2 alice ?d] =>
    pose proof (conversation_run a now1 now2 alice d) as Hc;
    destruct (conversation a now1 now2 alice d) as [d2 [u|[]| |]] end; [| done| |done|].
  - destruct Hc as [-> Hbody]. intros [= <- <-]. split; [done|]. split; [done|].
    by exists h, dir, dir_alice, dir_bob.
  - subst d2. by fatal h.
  - destruct Hc as [_ Hc]. by rewrite !minute_is_over in Hc by done; destruct Hc.
Qed.

End ends.
