(* ===== verification/DemoExamples.v ===== *)
(** * The demonstration program on concrete inputs

    A run that completes, with the services of [Demo] answering well, and the runs that fail. *)

From Stdlib Require Import ZArith Lia.
From stdpp Require Import base numbers strings gmap list.
From S2P Require Import Prelude GoStd Json External Convo ConvoConfig Persist HarnessNeverlur HarnessServers Harness ClientExamples HarnessClient HarnessExamples Demo.

Local Existing Instance Toy.nacl.
Local Existing Instance Toy.onionbox.
Local Existing Instance Toy.signature.
Local Existing Instance Toy.signature_laws.
Local Existing Instance toy_neverlur.
Local Instance demo_configs : SignedConfigs :=
  Build_SignedConfigs ConvoConfig (λ _, "hash") InnerConvo (λ _, []).

(** Looks every half second, for more than a minute. *)
Definition looks : list (Z * bool) := (λ i, (i * (500 * 10 ^ 6), bool_decide (3 < i))) <$> seqZ 0 121.

Definition client_well (k : bytes) : client_answers :=
  mkClientAnswers (Some (sig_Public k, k)) (Some [x08]) (λ _ _, true) (λ _, true).

Definition demo_with (approved : bool) (received : option IncomingMessage) : demo_answers :=
  mkDemoAnswers (Some (toy_guardian, true)) (Some "/tmp/h", Some "/tmp/a", Some "/tmp/b") neverlur_sound sound
    (mkDisk ∅ []) (true, true, true) (client_well [x0b]) (client_well [x0c]) (true, true, true) (true, true, true)
    true (Some tt) approved (looks, true) true (looks, Some harness_alice) received.

Abbreviation run_demo a := (main toy_message (Friend:=unit) (IncomingRequest:=unit) (OutgoingRequest:=unit) a 0 0 no_demo).

Lemma demo_ends_witness :
  let '(d, r) := run_demo (demo_with true (Some (mkIncomingMessage "alice" body 6))) in
  r = Ret () ∧ demo_left (demo_with true (Some (mkIncomingMessage "alice" body 6))) d r.
Proof.
  destruct (run_demo (demo_with true (Some (mkIncomingMessage "alice" body 6)))) as [d r] eqn:E.
  assert (Er : match r with Ret _ => true | _ => false end = true).
  { change r with ((d, r).2). rewrite <- E. vm_compute. reflexivity. }
  split; [by destruct r as [[]| | |]|].
  apply (demo_ends toy_message (Friend:=unit) (IncomingRequest:=unit) (OutgoingRequest:=unit) (demo_with true (Some (mkIncomingMessage "alice" body 6))) 0 0 d r).
  - intros g b [= <- <-]. reflexivity.
  - intros dir t [= <-] [= <-]. vm_compute. discriminate.
  - intros addr [= <-]. discriminate.
  - intros i addr [= <-]. discriminate.
  - cbn. repeat split; lia.
  - vm_compute. lia.
  - cbn. repeat split; lia.
  - vm_compute. lia.
  - exact E.
Defined.

(** bob's client does not approve: the harness goes on running. *)
Example refused_leaves_servers :
  match run_demo (demo_with false None) with
  | (d, Err (LogFatal why)) =>
      why = "Approve" ∧ tb_ran d = [] ∧
      tb_cleanups d = [RemoveAll "/tmp/h"; CloseHarness; RemoveAll "/tmp/a"; RemoveAll "/tmp/b"]
  | _ => False
  end.
Proof. vm_compute. done. Qed.

(** A round that both clients take part in before alice has sent her message puts an empty text on
    bob's channel; it is what the program reads, and takes for a wrong body. *)
Definition first_received : option IncomingMessage :=
  let '(alice, bob) := run_rounds zero_message [3] (start_with "alice" "bob" []) client_bob in
  let '(alice, _) := SendMessage body alice in
  let '(_, bob) := run_rounds zero_message [4] alice bob in
  match (recv bob).2 with Ret m => m | _ => None end.

Example silent_round_fails_demo :
  first_received = Some (mkIncomingMessage "alice" [] 3) ∧
  match run_demo (demo_with true first_received) with
  | (_, r) => r = Err (LogFatal "body mismatch")
  end.
Proof. vm_compute. done. Qed.
