(* ===== verification/CmdConf.v ===== *)
(** * The configuration files and the log of the server programs (cmd/cmdconf, internal/vzlog)

    A new configuration and its text: the templates of cmdconf.go with the verbs of package fmt
    that they use. The base-32 encoding of keys is neverlur's. A reference reader of such files
    states what the text says. *)

From Stdlib Require Import ZArith Lia.
From stdpp Require Import base numbers strings sets list.
From S2P Require Import Prelude GoStd Json JsonText GoStrings Paths External.

(** ** Package fmt: the verb q *)

Section quote.
(** Which runes above Latin-1 are printable, a table of package strconv. *)
Context (printable : Z → bool).

Definition IsPrint (r : Z) : bool :=
  if decide (r <= 0xFF) then bool_decide ((0x20 <= r < 0x7F) ∨ (0xA1 <= r ∧ r ≠ 0xAD)) else printable r.

Definition hex_digits (n : nat) (v : Z) : bytes :=
  (λ i, hex_digit (v / 16 ^ Z.of_nat i mod 16)) <$> reverse (seq 0 n).

Definition appendEscapedRune (r : Z) : bytes :=
  if decide (r = 0x22 ∨ r = 0x5C) then [x5c; byte_of_Z r]
  else if IsPrint r then encode_rune r
  else if decide (r = 7) then [x5c] ++ str "a"
  else if decide (r = 8) then [x5c] ++ str "b"
  else if decide (r = 12) then [x5c] ++ str "f"
  else if decide (r = 10) then [x5c] ++ str "n"
  else if decide (r = 13) then [x5c] ++ str "r"
  else if decide (r = 9) then [x5c] ++ str "t"
  else if decide (r = 11) then [x5c] ++ str "v"
  else if decide (r < 0x20 ∨ r = 0x7F) then [x5c] ++ str "x" ++ hex_digits 2 r
  else if decide (r < 0x10000) then [x5c] ++ str "u" ++ hex_digits 4 r
  else [x5c] ++ str "U" ++ hex_digits 8 r.

(** A byte that is not part of a rune is written in hexadecimal. *)
Fixpoint quote_go (fuel : nat) (bs : bytes) : bytes :=
  match fuel, bs with
  | S fuel, b :: rest =>
      match decode_rune bs with
      | Some (r, rest) => appendEscapedRune r ++ quote_go fuel rest
      | None => [x5c] ++ str "x" ++ hex_digits 2 (Z_of_byte b) ++ quote_go fuel rest
      end
  | _, _ => []
  end.

(** [fmt.Sprintf] of a string with the verb q *)
Definition quote (s : string) : string := to_string ([x22] ++ quote_go (length (str s)) (str s) ++ [x22]).

End quote.

Example quote_ex :
  str (quote (λ _, true) "a:b") = [x22] ++ str "a:b" ++ [x22] ∧
  str (quote (λ _, true) (String.String (Ascii.ascii_of_nat 1) (String.String (Ascii.ascii_of_nat 92) ""))) =
    [x22; x5c] ++ str "x01" ++ [x5c; x5c; x22].
Proof. vm_compute. done. Qed.

(** ** Package fmt: a float with one decimal *)

(** A finite float64: [mant * 2 ^ expo]. *)
Record float64 := mkFloat { mant : Z; expo : Z }.

(** The tenths nearest to it, the even ones from the middle of two. *)
Definition tenths (f : float64) : Z :=
  let m := 10 * Z.abs (mant f) in
  if decide (0 <= expo f) then m * 2 ^ expo f
  else
    let den := 2 ^ (- expo f) in
    let q := m / den in
    let r := m mod den in
    match 2 * r ?= den with Lt => q | Gt => q + 1 | Eq => q + q mod 2 end.

Fixpoint sprint_big (fuel : nat) (n : Z) (acc : string) : string :=
  match fuel with
  | O => acc
  | S fuel =>
      let acc := String.String (Decimal.digit (n mod 10)) acc in
      if decide (n / 10 = 0) then acc else sprint_big fuel (n / 10) acc
  end.

(** A float64 has at most 309 digits before the point. *)
Definition sprint_tenths (f : float64) : string :=
  let t := tenths f in
  ((if decide (mant f < 0) then "-" else "") ++ sprint_big 309 (t / 10) "" ++ "." ++
   String.String (Decimal.digit (t mod 10)) "")%string.

Example sprint_tenths_ex :
  sprint_tenths (mkFloat 100 0) = "100.0" ∧ sprint_tenths (mkFloat 3 0) = "3.0" ∧
  sprint_tenths (mkFloat (-1) (-2)) = "-0.2" ∧ sprint_tenths (mkFloat 3 (-2)) = "0.8".
Proof. vm_compute. done. Qed.

(** ** Configurations *)

Record Laplace := mkLaplace { Mu : float64; B : float64 }.

Section cmdconf.
Context `{Signature} (printable : Z → bool) (EncodeBytes : bytes → string).

Record MixerConfig := mkMixerConfig {
  mc_PublicKey : bytes;
  mc_PrivateKey : bytes;
  mc_ListenAddr : string;
  DebugAddr : string;
  Noise : Laplace
}.

(** [key] is the private key that is generated; without one the program panics. *)
Definition NewMixerConfig {E} (key : option bytes) : outcome E MixerConfig :=
  privateKey ← or_panic key;
  Ret (mkMixerConfig (sig_Public privateKey) privateKey "0.0.0.0:2718" "0.0.0.0:6060"
    (mkLaplace (mkFloat 100 0) (mkFloat 3 0))).

(** The lines of a template. *)
Definition lines (ls : list string) : string := foldr (λ l rest, (l ++ nl ++ rest)%string) "" ls.

Definition mixerTemplate (c : MixerConfig) : list string := ([
  "# Vuvuzela mixnet server config";
  "";
  "publicKey  = " ++ quote printable (EncodeBytes (mc_PublicKey c));
  "privateKey = " ++ quote printable (EncodeBytes (mc_PrivateKey c));
  "";
  "listenAddr = " ++ quote printable (mc_ListenAddr c);
  "debugAddr = " ++ quote printable (DebugAddr c);
  "";
  "[noise]";
  "mu = " ++ sprint_tenths (Mu (Noise c));
  "b = " ++ sprint_tenths (B (Noise c))])%string.

Definition MixerConfig_TOML (c : MixerConfig) : bytes := str (lines (mixerTemplate c)).

(** The delay is in nanoseconds. *)
Record CoordinatorConfig := mkCoordinatorFile {
  cc_PublicKey : bytes;
  cc_PrivateKey : bytes;
  cc_ListenAddr : string;
  cc_RoundDelay : Z
}.

Definition NewCoordinatorConfig {E} (key : option bytes) : outcome E CoordinatorConfig :=
  privateKey ← or_panic key;
  Ret (mkCoordinatorFile (sig_Public privateKey) privateKey "0.0.0.0:8000" (800 * 10 ^ 6)).

Definition coordinatorTemplate (c : CoordinatorConfig) : list string := ([
  "# Vuvuzela coordinator (entry) server config";
  "";
  "publicKey  = " ++ quote printable (EncodeBytes (cc_PublicKey c));
  "privateKey = " ++ quote printable (EncodeBytes (cc_PrivateKey c));
  "";
  "listenAddr = " ++ quote printable (cc_ListenAddr c);
  "";
  "roundDelay = " ++ quote printable (Duration.String (cc_RoundDelay c))])%string.

Definition CoordinatorConfig_TOML (c : CoordinatorConfig) : bytes := str (lines (coordinatorTemplate c)).

End cmdconf.

(** ** The log (internal/vzlog/format.go) *)

Record ProductionOutput := mkProductionOutput { dirHandler : option string }.

(** [made] tells whether the directory could be made. *)
Definition NewProductionOutput (made : bool) (logsDir : string) : outcome string ProductionOutput :=
  if decide (logsDir ≠ "") then
    if made then Ret (mkProductionOutput (Some logsDir)) else Err "failed to create logs directory"
  else Ret (mkProductionOutput None).

Definition Name (h : ProductionOutput) : string :=
  match dirHandler h with None => "[stderr]" | Some dir => dir end.

(** Where an entry goes: the directory, and the standard error. A higher level is less urgent. *)
Inductive sink := ToDir (dir : string) | ToStderr.

Definition Fire (ErrorLevel : Z) (h : ProductionOutput) (level : Z) : list sink :=
  match dirHandler h with
  | Some dir =>
      [ToDir dir] ++ (if decide (ErrorLevel < level) then [] else [ToStderr])
  | None => [ToStderr]
  end.

(** No entry is lost, and the operator sees every error. *)
Lemma Fire_sinks ErrorLevel h level :
  Fire ErrorLevel h level ≠ [] ∧ (level <= ErrorLevel → ToStderr ∈ Fire ErrorLevel h level) ∧
  (∀ dir, dirHandler h = Some dir → ToDir dir ∈ Fire ErrorLevel h level).
Proof.
  unfold Fire. destruct (dirHandler h) as [dir|]; [|set_solver].
  case_decide; (split_and!; [done|intros; try lia; set_solver|naive_solver set_solver]).
Qed.
