(* ===== verification/Toml.v ===== *)
(** * Reading a configuration file back

    The programs read their configuration with package toml of neverlur. What they rely on is the
    documented format: of a file whose lines are comments, blank, or a key and a string, the
    unmarshaler sets the fields that the keys name. Here are such files, what their keys and
    values mean for the coordinator's configuration, the laws of the package, and that the
    template of cmdconf.go writes such a file. *)

From Stdlib Require Import ZArith Lia.
From stdpp Require Import base numbers strings list.
From S2P Require Import Prelude GoStd Json GoStrings Paths External CmdConf.

(** ** Documents *)

Fixpoint all_chars (P : Ascii.ascii → bool) (s : string) : bool :=
  match s with "" => true | String.String c s => P c && all_chars P s end.

(** What stands for itself between the quotes of a string: printable ASCII without the quote and the backslash. *)
Definition plain_char (c : Ascii.ascii) : bool :=
  let n := Ascii.nat_of_ascii c in bool_decide (32 ≤ n ≤ 126 ∧ n ≠ 34 ∧ n ≠ 92)%nat.

(** A bare key has letters, digits, dashes and underscores. *)
Definition key_char (c : Ascii.ascii) : bool :=
  let n := Ascii.nat_of_ascii c in
  bool_decide (48 ≤ n ≤ 57 ∨ 65 ≤ n ≤ 90 ∨ 97 ≤ n ≤ 122 ∨ n = 45 ∨ n = 95)%nat.

Definition dquote : Ascii.ascii := Ascii.ascii_of_nat 34.
Definition hash : Ascii.ascii := Ascii.ascii_of_nat 35.

Inductive toml_line :=
| TomlComment (text : string)
| TomlBlank
| TomlString (key : string) (before after : nat) (value : string).   (* spaces around the sign *)

Definition line_text (l : toml_line) : string :=
  match l with
  | TomlComment text => String.String hash text
  | TomlBlank => ""
  | TomlString key before after value =>
      (key ++ spaces before ++ "=" ++ spaces after ++ String.String dquote (value ++ String.String dquote ""))%string
  end.

Definition line_ok (l : toml_line) : Prop :=
  match l with
  | TomlComment text => all_chars plain_char text = true
  | TomlBlank => True
  | TomlString key _ _ value => key ≠ "" ∧ all_chars key_char key = true ∧ all_chars plain_char value = true
  end.

Definition entries (ls : list toml_line) : list (string * string) :=
  ls ≫= λ l, match l with TomlString key _ _ value => [(key, value)] | _ => [] end.

Definition document_text (ls : list toml_line) : bytes := str (lines (line_text <$> ls)).

(** No field is named twice: the case of a key does not matter. *)
Definition document_ok (ls : list toml_line) : Prop := Forall line_ok ls ∧ NoDup (ToLower <$> (entries ls).*1).

(** ** The configuration of a coordinator *)

Section toml.
Context (EncodeBytes : bytes → string) (DecodeBytes : string → option bytes) (ParseDuration : string → option Z).

(** A key names the field of the same name, in any case; a key and a duration are decoded from their text. *)
Definition set_coordinator_field (key value : string) (c : CoordinatorConfig) : option CoordinatorConfig :=
  let name := ToLower key in
  if decide (name = "publickey") then
    k ← DecodeBytes value; Some (mkCoordinatorFile k (cc_PrivateKey c) (cc_ListenAddr c) (cc_RoundDelay c))
  else if decide (name = "privatekey") then
    k ← DecodeBytes value; Some (mkCoordinatorFile (cc_PublicKey c) k (cc_ListenAddr c) (cc_RoundDelay c))
  else if decide (name = "listenaddr") then
    Some (mkCoordinatorFile (cc_PublicKey c) (cc_PrivateKey c) value (cc_RoundDelay c))
  else if decide (name = "rounddelay") then
    d ← ParseDuration value; Some (mkCoordinatorFile (cc_PublicKey c) (cc_PrivateKey c) (cc_ListenAddr c) d)
  else Some c.

(** A field that no key names stays zero. *)
Definition coordinator_of (kvs : list (string * string)) : option CoordinatorConfig :=
  foldl (λ c kv, c ≫= set_coordinator_field kv.1 kv.2) (Some (mkCoordinatorFile [] [] "" 0)) kvs.

(** What the programs rely on: bytes survive their encoding, which is base 32; a whole number of milliseconds is
    read as package time documents; and the file is read as its entries say. *)
Record toml_laws (read_coordinator : bytes → option CoordinatorConfig) : Prop := {
  decode_encode bs : DecodeBytes (EncodeBytes bs) = Some bs;
  encode_plain bs : all_chars plain_char (EncodeBytes bs) = true;
  parse_milliseconds n : is_u32 n → ParseDuration (Decimal.sprint n ++ "ms") = Some (n * 10 ^ 6);
  read_document ls : document_ok ls → read_coordinator (document_text ls) = coordinator_of (entries ls)
}.

End toml.

(** ** Strings of plain characters are quoted as they are *)

Lemma plain_char_quoted printable c :
  plain_char c = true →
  Z_of_byte (Ascii.byte_of_ascii c) < 0x80 ∧
  appendEscapedRune printable (Z_of_byte (Ascii.byte_of_ascii c)) = [Ascii.byte_of_ascii c].
Proof.
  destruct c as [[] [] [] [] [] [] [] []]; intros Hc; vm_compute in Hc; try discriminate Hc; split;
    vm_compute; reflexivity.
Qed.

Lemma str_cons c s : str (String.String c s) = Ascii.byte_of_ascii c :: str s.
Proof. done. Qed.

Lemma str_append s t : str (s ++ t)%string = str s ++ str t.
Proof.
  induction s as [|c s IH]; [done|].
  change (String.String c s +:+ t) with (String.String c (s +:+ t)). rewrite !str_cons, IH. done.
Qed.

Lemma quote_go_plain printable s :
  all_chars plain_char s = true → quote_go printable (length (str s)) (str s) = str s.
Proof.
  induction s as [|c s IH]; [done|]. cbn [all_chars]. intros [Hc Hs]%andb_prop. rewrite str_cons. cbn [length quote_go].
  destruct (plain_char_quoted printable c Hc) as [Hlt Hq].
  rewrite decode_rune_ascii by done. rewrite Hq. cbn [app]. by rewrite IH.
Qed.

Lemma quote_plain printable s :
  all_chars plain_char s = true → quote printable s = String.String dquote (s ++ String.String dquote "")%string.
Proof.
  intros Hs. unfold quote. rewrite quote_go_plain by done. apply str_inj. by rewrite str_to_string, str_cons, str_append.
Qed.

(** ** What the template writes *)

Section template.
Context `{Signature} (printable : Z → bool) (EncodeBytes : bytes → string) (DecodeBytes : string → option bytes).
Context (ParseDuration : string → option Z) (read_coordinator : bytes → option CoordinatorConfig).
Hypothesis laws : toml_laws EncodeBytes DecodeBytes ParseDuration read_coordinator.

Definition coordinator_document (c : CoordinatorConfig) : list toml_line := [
  TomlComment " Vuvuzela coordinator (entry) server config";
  TomlBlank;
  TomlString "publicKey" 2 1 (EncodeBytes (cc_PublicKey c));
  TomlString "privateKey" 1 1 (EncodeBytes (cc_PrivateKey c));
  TomlBlank;
  TomlString "listenAddr" 1 1 (cc_ListenAddr c);
  TomlBlank;
  TomlString "roundDelay" 1 1 (Duration.String (cc_RoundDelay c))].

Lemma coordinator_template c :
  all_chars plain_char (cc_ListenAddr c) = true → all_chars plain_char (Duration.String (cc_RoundDelay c)) = true →
  CoordinatorConfig_TOML printable EncodeBytes c = document_text (coordinator_document c).
Proof.
  intros Ha Hd. unfold CoordinatorConfig_TOML, coordinatorTemplate, document_text.
  rewrite !quote_plain by (done || apply (encode_plain _ _ _ _ laws)). done.
Qed.

(** A configuration whose delay is a whole number of milliseconds below a second is read back from its text. *)
Lemma coordinator_reads_back c n :
  all_chars plain_char (cc_ListenAddr c) = true → cc_RoundDelay c = n * 10 ^ 6 → is_u32 n →
  Duration.String (n * 10 ^ 6) = (Decimal.sprint n ++ "ms")%string → all_chars plain_char (Decimal.sprint n ++ "ms") = true →
  read_coordinator (CoordinatorConfig_TOML printable EncodeBytes c) = Some c.
Proof.
  intros Ha Hd Hn Hs Hp. rewrite coordinator_template by (rewrite ?Hd, ?Hs; done).
  rewrite (read_document _ _ _ _ laws).
  - unfold coordinator_of, coordinator_document. cbn -[set_coordinator_field Duration.String].
    unfold set_coordinator_field. cbn -[Duration.String].
    rewrite !(decode_encode _ _ _ _ laws). cbn -[Duration.String].
    rewrite Hd, Hs, (parse_milliseconds _ _ _ _ laws) by done. cbn. rewrite <- Hd. by destruct c.
  - split.
    + repeat constructor; try discriminate; try done; try apply (encode_plain _ _ _ _ laws). by rewrite Hd, Hs.
    + by apply (bool_decide_unpack _); vm_compute.
Qed.

End template.

(** ** A reader that satisfies the laws

    It reads such documents, and nothing more of the format. *)

Fixpoint until (c : Ascii.ascii) (s : string) : option (string * string) :=
  match s with
  | "" => None
  | String.String d s =>
      if decide (d = c) then Some ("", s)
      else '(a, rest) ← until c s; Some (String.String d a, rest)
  end.

Definition newline : Ascii.ascii := Ascii.ascii_of_nat 10.
Definition space : Ascii.ascii := Ascii.ascii_of_nat 32.
Definition equals : Ascii.ascii := Ascii.ascii_of_nat 61.

Definition read_entry (l : string) : option (list (string * string)) :=
  '(key, rest) ← until equals l;
  '(_, rest) ← until dquote rest;
  '(value, _) ← until dquote rest;
  Some [(match until space key with Some (key, _) => key | None => key end, value)].

(** The entries of a line, none or one. *)
Definition read_line (l : string) : option (list (string * string)) :=
  match l with
  | "" => Some []
  | String.String c _ => if decide (c = hash) then Some [] else read_entry l
  end.

Fixpoint read_lines (fuel : nat) (s : string) : option (list (string * string)) :=
  match fuel, s with
  | _, "" => Some []
  | O, _ => None
  | S fuel, _ =>
      '(l, rest) ← until newline s;
      e ← read_line l;
      es ← read_lines fuel rest;
      Some (e ++ es)
  end.

Definition lacks (c : Ascii.ascii) (s : string) : Prop := all_chars (λ d, bool_decide (d ≠ c)) s = true.

Lemma until_ok c a rest : lacks c a → until c (a ++ String.String c rest)%string = Some (a, rest).
Proof.
  unfold lacks. induction a as [|d a IH]; cbn [all_chars].
  - intros _. change ("" +:+ String.String c rest) with (String.String c rest). cbn [until]. by rewrite decide_True.
  - intros [Hd%bool_decide_eq_true Ha]%andb_prop.
    change (String.String d a +:+ String.String c rest) with (String.String d (a +:+ String.String c rest)).
    cbn [until]. rewrite decide_False by done. by rewrite IH.
Qed.

Lemma until_none c s : lacks c s → until c s = None.
Proof.
  unfold lacks. induction s as [|d s IH]; cbn; [done|]. intros [Hd%bool_decide_eq_true Hs]%andb_prop.
  rewrite decide_False by done. by rewrite IH.
Qed.

Lemma lacks_append c a b : lacks c a → lacks c b → lacks c (a ++ b)%string.
Proof.
  unfold lacks. induction a as [|d a IH]; [done|]. intros [Hd Ha]%andb_prop Hb.
  change (String.String d a +:+ b) with (String.String d (a +:+ b)). cbn [all_chars]. by rewrite Hd, IH.
Qed.

Lemma all_chars_lacks (P : Ascii.ascii → bool) c s : P c = false → all_chars P s = true → lacks c s.
Proof.
  intros Hc. unfold lacks. induction s as [|d s IH]; [done|]. cbn. intros [Hd Hs]%andb_prop.
  rewrite IH by done. rewrite bool_decide_true; [done|]. intros ->. congruence.
Qed.

Lemma lacks_spaces c n : c ≠ space → lacks c (spaces n).
Proof.
  intros Hc. unfold lacks. induction n as [|n IH]; [done|]. cbn [spaces all_chars]. rewrite IH.
  by rewrite bool_decide_true by (intros E; by apply Hc).
Qed.

Lemma append_empty s : (s ++ "")%string = s.
Proof. apply str_inj. by rewrite str_append, app_nil_r. Qed.

Lemma read_line_ok l :
  line_ok l → read_line (line_text l) = Some (entries [l]) ∧ lacks newline (line_text l).
Proof.
  destruct l as [text| |key m n value]; cbn [line_ok line_text].
  - intros Ht. split; [done|]. change (String.String hash text) with (String.String hash "" +:+ text).
    apply lacks_append; [done|]. by apply (all_chars_lacks plain_char).
  - done.
  - intros (Hne & Hk & Hv).
    assert (Hkey : ∀ c, key_char c = false → lacks c key) by (intros c Hc; by eapply all_chars_lacks).
    assert (Hval : ∀ c, plain_char c = false → lacks c value) by (intros c Hc; by eapply all_chars_lacks).
    split; cycle 1.
    { repeat apply lacks_append; try (by apply lacks_spaces); try done; [by apply Hkey|].
      by apply Hval. }
    assert (Eread : read_entry (key ++ spaces m ++ "=" ++ spaces n ++ String.String dquote (value ++ String.String dquote "")) =
      Some [(key, value)]).
    { unfold read_entry. rewrite append_assoc.
      change ("=" +:+ ?x) with (String.String equals x).
      rewrite until_ok by (apply lacks_append; [by apply Hkey|by apply lacks_spaces]). cbn [mbind option_bind].
      rewrite until_ok by (by apply lacks_spaces). cbn [mbind option_bind].
      rewrite until_ok by (by apply Hval). cbn [mbind option_bind].
      destruct m as [|m].
      - rewrite append_empty, until_none by (by apply Hkey). done.
      - change (spaces (S m)) with (String.String space (spaces m)). by rewrite until_ok by (by apply Hkey). }
    destruct key as [|c key]; [done|].
    assert (c ≠ hash) by (intros ->; by cbn in Hk).
    change (read_line (?a +:+ ?b)) with (if decide (c = hash) then Some [] else read_entry (a +:+ b)).
    rewrite decide_False by done. exact Eread.
Qed.

Lemma read_lines_ok ls fuel :
  Forall line_ok ls → (length ls ≤ fuel)%nat → read_lines fuel (lines (line_text <$> ls)) = Some (entries ls).
Proof.
  intros Hls. revert fuel. induction Hls as [|l ls Hl _ IH]; intros fuel Hf; [by destruct fuel|].
  destruct fuel as [|fuel]; [cbn in Hf; lia|]. destruct (read_line_ok l Hl) as [El Hn].
  cbn [fmap list_fmap]. unfold lines. cbn [foldr]. fold (lines (line_text <$> ls)).
  change (nl +:+ ?x) with (String.String newline x).
  assert (Eu : until newline (line_text l +:+ String.String newline (lines (line_text <$> ls))) =
    Some (line_text l, lines (line_text <$> ls))) by (by apply until_ok).
  destruct (line_text l +:+ String.String newline (lines (line_text <$> ls))) as [|c rest] eqn:E.
  - by destruct (line_text l).
  - cbn [read_lines]. rewrite Eu. cbn [mbind option_bind]. rewrite El. cbn [mbind option_bind].
    rewrite IH by (cbn in Hf; lia). cbn [mbind option_bind]. unfold entries. cbn. by rewrite app_nil_r.
Qed.

(** Two letters for a byte stand for its base 32. *)
Definition letter (n : nat) : Ascii.ascii := Ascii.ascii_of_nat (97 + n).
Definition letter_val (c : Ascii.ascii) : nat := Ascii.nat_of_ascii c - 97.

Fixpoint letters (bs : bytes) : string :=
  match bs with
  | [] => ""
  | b :: bs =>
      let n := Byte.to_nat b in
      String.String (letter (n / 16)) (String.String (letter (n mod 16)) (letters bs))
  end.

Fixpoint of_letters (s : string) : option bytes :=
  match s with
  | "" => Some []
  | String.String c (String.String d s) =>
      b ← Byte.of_nat (16 * letter_val c + letter_val d);
      bs ← of_letters s;
      Some (b :: bs)
  | _ => None
  end.

Definition milliseconds (s : string) : option Z :=
  '(n, unit) ← until (Ascii.ascii_of_nat 109) s;
  n ← Decimal.parse_uint32 n;
  if decide (unit = "s") then Some (n * 10 ^ 6) else None.

Definition reader (text : bytes) : option CoordinatorConfig :=
  kvs ← read_lines (length text) (to_string text);
  coordinator_of of_letters milliseconds kvs.

Lemma letters_of_byte b :
  let n := Byte.to_nat b in
  Byte.of_nat (16 * letter_val (letter (n / 16)) + letter_val (letter (n mod 16))) = Some b ∧
  plain_char (letter (n / 16)) = true ∧ plain_char (letter (n mod 16)) = true.
Proof. by destruct b; vm_compute. Qed.

Lemma of_letters_ok bs : of_letters (letters bs) = Some bs ∧ all_chars plain_char (letters bs) = true.
Proof.
  induction bs as [|b bs [IH1 IH2]]; [done|]. destruct (letters_of_byte b) as (Hb & H1 & H2).
  cbn [letters of_letters all_chars]. by rewrite Hb, IH1, H1, H2, IH2.
Qed.

Lemma digits_lack c s : ¬ is_digit (Ascii.byte_of_ascii c) → Forall is_digit (str s) → lacks c s.
Proof.
  intros Hc. unfold lacks. induction s as [|d s IH]; [done|]. rewrite str_cons.
  intros [Hd Hs]%Forall_cons. cbn [all_chars]. rewrite IH by done. rewrite bool_decide_true; [done|]. by intros ->.
Qed.

Lemma milliseconds_ok n : is_u32 n → milliseconds (Decimal.sprint n ++ "ms") = Some (n * 10 ^ 6).
Proof.
  intros Hn. unfold milliseconds. change "ms" with (String.String (Ascii.ascii_of_nat 109) "s").
  rewrite until_ok; cycle 1.
  { apply digits_lack; [by vm_compute; intros [_ H]|]. apply sprint_go_digits; [constructor|].
    unfold is_u32 in Hn. lia. }
  cbn [mbind option_bind]. by rewrite Decimal.parse_uint32_sprint.
Qed.

(** A text is at least as long as it has lines. *)
Lemma document_length ls : (length ls ≤ length (document_text ls))%nat.
Proof.
  unfold document_text. induction ls as [|l ls IH]; [done|]. cbn [fmap list_fmap]. unfold lines. cbn [foldr].
  fold (lines (line_text <$> ls)). rewrite !str_append, !length_app.
  change (length (str nl)) with 1%nat. cbn [length]. lia.
Qed.

Lemma reader_laws : toml_laws letters of_letters milliseconds reader.
Proof.
  split.
  - intros bs. apply of_letters_ok.
  - intros bs. apply of_letters_ok.
  - intros n. apply milliseconds_ok.
  - intros ls [Hls _]. unfold reader. unfold document_text at 2. rewrite to_string_str.
    by rewrite read_lines_ok by (done || apply document_length).
Qed.
