(* ===== verification/ServerMain.v ===== *)
(** * The server programs (cmd/gjallarhorn-mixer, cmd/gjallarhorn-coordinator)

    Each [main] either makes the files a server needs ([-init]) or reads them back and serves.
    The disk is that of [Persist]; what the system, the configuration server and the user (who is
    asked before a file is overwritten) answer is an argument. A [log.Fatal] is an error, with the
    reason; the last call of each [main] serves until it fails, and what it serves with is the
    result. *)

From Stdlib Require Import ZArith Lia.
From stdpp Require Import base numbers strings sets gmap fin_maps list.
From S2P Require Import Prelude GoStd Json GoStrings Paths External Settings Convo Mixnet ConvoMix ConvoConfig Coordinator Client Persist CmdConf Toml.

(** ** Files and messages *)

(** [ioutil.WriteFile]: the file is cut and written in place. *)
Record write_answers := mkWriteAnswers { wr_open : bool; wr_short : option nat; wr_close : bool }.

Definition WriteFile {E} (r : write_answers) (why : E) (path : string) (data : bytes) : go Disk E unit :=
  if wr_open r then
    on_disk (<[path := []]>);;
    on_disk (<[path := match wr_short r with None => data | Some n => take n data end]>);;
    match wr_short r with
    | Some _ => throw why
    | None => if wr_close r then mret () else throw why
    end
  else throw why.

Inductive fatal :=
| MkdirFailed
| WriteConfigFailed
| PersistInitFailed
| ReadConfigFailed
| ParseConfigFailed
| LogsFailed
| CurrentConfigFailed
| LoadStateFailed
| ListenFailed
| RunFailed.

(** [if err != nil { log.Fatal(err) }] *)
Definition must {S A} (why : fatal) (o : option A) : go S fatal A :=
  match o with Some a => mret a | None => throw why end.
Definition must_ok {S} (why : fatal) (ok : bool) : go S fatal unit :=
  if ok then mret () else throw why.

Section programs.
Context `{NaCl} `{Onionbox} `{Signature} `{SignedConfigs}.
(** Of neverlur: the base-32 encoding of keys, [toml.Unmarshal] into either configuration, and
    [cmdutil.Overwrite], which asks the user. *)
Context (printable : Z → bool) (EncodeBytes : bytes → string).
Context (read_mixer : bytes → option MixerConfig) (read_coordinator : bytes → option CoordinatorConfig).
Context (Overwrite : gmap string bytes → string → bool).

Abbreviation program := (go Disk fatal).

Definition mkdir_ok (made : bool) : program unit := must_ok MkdirFailed made.

(** [ioutil.ReadFile] and [toml.Unmarshal] *)
Definition read_config {A} (unmarshal : bytes → option A) (path : string) : program A :=
  d ← get;
  data ← must ReadConfigFailed (files d !! path);
  must ParseConfigFailed (unmarshal data).

(** ** The mixer *)

(** What [-init] comes to, or what is served. *)
Inductive ended (A : Type) := Initialized | Serving (a : A).

Record mixer_answers := mkMixerAnswers {
  ma_mkdir : bool;
  ma_key : option bytes;
  ma_write : write_answers;
  ma_logs : bool;
  ma_current : option SignedConfig;
  ma_listen : bool
}.

Record mixer_run := mkMixerRun {
  mr_server : mixer;
  mr_noise : Laplace;
  mr_debug : option string;
  mr_listen : string;
  mr_log : ProductionOutput
}.

Definition mixer_writeNewConfig (a : mixer_answers) (path : string) : program unit :=
  conf ← lift (NewMixerConfig (ma_key a));
  WriteFile (ma_write a) WriteConfigFailed path (MixerConfig_TOML printable EncodeBytes conf).

(** The service counts accesses for a reader of its channel, of which there is none. *)
Definition serve_mixer (a : mixer_answers) (conf : MixerConfig) (logHandler : ProductionOutput)
    : program mixer_run :=
  signedConfig ← must CurrentConfigFailed (ma_current a);
  convoConfig ← lift (or_panic (as_ConvoConfig (config_Inner signedConfig)));
  let mixServer := mkMixer (mc_PrivateKey conf) (coord_Key (Coordinator convoConfig))
    {[ "Convo" := convo_service (mkConvoService (Some (64%nat, []))) ]} in
  let debug := if decide (DebugAddr conf ≠ "") then Some (DebugAddr conf) else None in
  must_ok ListenFailed (ma_listen a);;
  mret (mkMixerRun mixServer (Noise conf) debug (mc_ListenAddr conf) logHandler).

Definition mixer_main (doinit : bool) (persistPath : string) (a : mixer_answers) : program (ended mixer_run) :=
  mkdir_ok (ma_mkdir a);;
  let confPath := Join persistPath "mixer.conf" in
  if doinit then
    d ← get;
    (if Overwrite (files d) confPath then mixer_writeNewConfig a confPath else mret ());;
    mret (Initialized _)
  else
    conf ← read_config read_mixer confPath;
    let logsDir := Join persistPath "logs" in
    logHandler ← must LogsFailed
      (match NewProductionOutput (ma_logs a) logsDir with Ret h => Some h | _ => None end);
    run ← serve_mixer a conf logHandler;
    mret (Serving _ run).

(** ** The coordinator *)

Record coordinator_answers := mkCoordinatorAnswers {
  ca_mkdir : bool;
  ca_key : option bytes;
  ca_write : write_answers;
  ca_persist : io;
  ca_logs : bool;
  ca_listen : bool
}.

(** The coordinator that serves: its settings and its state after [Run]. *)
Record coordinator_run := mkCoordinatorRun {
  cr_Service : string;
  cr_PrivateKey : bytes;
  cr_RoundDelay : Z;
  cr_PersistPath : string;
  cr_listen : string;
  cr_log : ProductionOutput;
  cr_server : Coordinator.Server
}.

Definition initService (a : coordinator_answers) (persistPath service : string) : program unit :=
  let servicePersistPath := Join persistPath (ToLower service ++ "-coordinator-state") in
  d ← get;
  if Overwrite (files d) servicePersistPath then
    let '(d, saved) := Persist (ca_persist a) servicePersistPath 0 d in
    put d;;
    must_ok PersistInitFailed (match saved with Ret _ => true | _ => false end)
  else mret ().

Definition initCoordinator (a : coordinator_answers) (persistPath confPath : string) : program unit :=
  d ← get;
  (if Overwrite (files d) confPath then
     conf ← lift (NewCoordinatorConfig (ca_key a));
     WriteFile (ca_write a) WriteConfigFailed confPath (CoordinatorConfig_TOML printable EncodeBytes conf)
   else mret ());;
  initService a persistPath "Convo".

(** A [coordinator.Server] with the round that was loaded. *)
Definition new_server (round : Z) : Coordinator.Server := Coordinator.mkServer round ∅ ∅ false false false None [].

Definition coordinator_main (doInit : bool) (persistPath : string) (a : coordinator_answers)
    : program (ended coordinator_run) :=
  mkdir_ok (ca_mkdir a);;
  let confPath := Join persistPath "coordinator.conf" in
  if doInit then
    initCoordinator a persistPath confPath;;
    mret (Initialized _)
  else
    conf ← read_config read_coordinator confPath;
    let logsDir := Join persistPath "logs" in
    logHandler ← must LogsFailed
      (match NewProductionOutput (ca_logs a) logsDir with Ret h => Some h | _ => None end);
    let convoPersistPath := Join persistPath "convo-coordinator-state" in
    d ← get;
    round ← must LoadStateFailed
      (match LoadPersistedState convoPersistPath (files d) with Ret r => Some r | _ => None end);
    must_ok ListenFailed (ca_listen a);;
    match Run convoPersistPath (new_server round) with
    | (server, Ret _) =>
        mret (Serving _ (mkCoordinatorRun "Convo" (cc_PrivateKey conf) (cc_RoundDelay conf) convoPersistPath
          (cc_ListenAddr conf) logHandler server))
    | _ => throw RunFailed
    end.

End programs.

(** ** What is on disk on the way *)

(** Whatever a program does, the files satisfy [P] at every moment if they do at the start. *)
Definition passes {E A} (P : gmap string bytes → Prop) (m : go Disk E A) : Prop :=
  ∀ d, P (files d) → P (files (m d).1) ∧ ∃ new, past (m d).1 = past d ++ new ∧ Forall P new.

Section passes.
Context {E : Type}.
Implicit Types P : gmap string bytes → Prop.

Lemma passes_still {A} P (m : go Disk E A) : (∀ d, (m d).1 = d) → passes P m.
Proof. intros Hm d Hd. rewrite Hm. split; [done|]. exists []. by rewrite app_nil_r. Qed.

Lemma passes_bind {A B} P (m : go Disk E A) (f : A → go Disk E B) :
  passes P m → (∀ a, passes P (f a)) → passes P (m ≫= f).
Proof.
  intros Hm Hf d Hd. specialize (Hm d Hd). rewrite go_bind_unfold. destruct (m d) as [d1 [a| | |]]; [|done..].
  cbn [fst] in Hm. destruct Hm as [H1 (new & Hp & Hnew)]. destruct (Hf a d1 H1) as [H2 (new' & Hp' & Hnew')].
  split; [done|]. exists (new ++ new'). rewrite Hp', Hp, app_assoc. split; [done|by apply Forall_app].
Qed.

Lemma passes_on_disk P f : (∀ fs, P fs → P (f fs)) → passes P (on_disk (E:=E) f).
Proof.
  intros Hf d Hd. cbn. split; [by apply Hf|]. exists [files d]. split; [done|]. by constructor.
Qed.

(** [WriteFile] leaves a beginning of the data, at worst. *)
Lemma passes_WriteFile P r (why : E) path data :
  (∀ fs n, P fs → P (<[path := take n data]> fs)) → passes P (WriteFile r why path data).
Proof.
  intros Hw. unfold WriteFile. destruct (wr_open r); [|by apply passes_still].
  apply passes_bind; [apply passes_on_disk; intros fs Hfs; by apply (Hw fs 0%nat)|intros _].
  apply passes_bind; [apply passes_on_disk; intros fs Hfs|intros _].
  - destruct (wr_short r) as [n|]; [by apply Hw|]. rewrite <- (firstn_all data). by apply Hw.
  - destruct (wr_short r); [by apply passes_still|]. destruct (wr_close r); by apply passes_still.
Qed.

Lemma WriteFile_ok r (why : E) path data d d' u :
  WriteFile r why path data d = (d', Ret u) → files d' = <[path := data]> (files d).
Proof.
  unfold WriteFile. destruct (wr_open r); [|done]. rewrite go_bind_unfold. cbn [on_disk modify].
  rewrite go_bind_unfold. cbn [on_disk modify files]. destruct (wr_short r); [done|].
  destruct (wr_close r); [|done]. intros [= <- _]. cbn. by rewrite insert_insert_eq.
Qed.

Lemma WriteFile_ends r (why : E) path data d :
  match (WriteFile r why path data d).2 with Ret _ => True | Err e => e = why | _ => False end.
Proof.
  unfold WriteFile. destruct (wr_open r); [|done]. rewrite go_bind_unfold. cbn [on_disk modify].
  rewrite go_bind_unfold. cbn [on_disk modify]. destruct (wr_short r); [done|]. by destruct (wr_close r).
Qed.

End passes.

(** ** Making a server's files, and serving *)

Section init.
Context `{NaCl} `{Onionbox} `{Signature} `{SignedConfigs}.
Context (printable : Z → bool) (EncodeBytes : bytes → string).
Context (read_mixer : bytes → option MixerConfig) (read_coordinator : bytes → option CoordinatorConfig).
Context (Overwrite : gmap string bytes → string → bool).

(** The user is asked only about a file that exists. *)
Hypothesis Overwrite_new : ∀ fs p, fs !! p = None → Overwrite fs p = true.

(** At worst a beginning of the configuration, and the state of a new coordinator or none. *)
Definition coordinator_left (text : bytes) (confPath statePath : string) (fs : gmap string bytes) : Prop :=
  (fs !! confPath = None ∨ ∃ n, fs !! confPath = Some (take n text)) ∧
  (fs !! statePath = None ∨ LoadPersistedState statePath fs = Ret 0).

Lemma coordinator_left_insert text confPath statePath fs n :
  confPath ≠ statePath → coordinator_left text confPath statePath fs →
  coordinator_left text confPath statePath (<[confPath := take n text]> fs).
Proof.
  intros Hne [_ Hs]. split; [right; exists n; by rewrite lookup_insert_eq|].
  unfold LoadPersistedState. by rewrite lookup_insert_ne.
Qed.

Lemma coordinator_left_partly text confPath statePath t fs fs' :
  confPath ≠ statePath → t ≠ Some confPath → coordinator_left text confPath statePath fs →
  partly_written t statePath ([version] ++ encode_round 0) fs fs' →
  coordinator_left text confPath statePath fs'.
Proof.
  intros Hne Ht [Hc Hs] [Hw Hg]. split; [rewrite Hg by done; done|]. destruct Hw as [E|E].
  - unfold LoadPersistedState in *. by rewrite E.
  - right. unfold LoadPersistedState. rewrite E. cbn [app]. rewrite decide_False by (by intros []).
    by rewrite unmarshal_encode_round by (unfold is_u32; lia).
Qed.

Lemma passes_initService text persistPath a :
  let confPath := Join persistPath "coordinator.conf" in
  let statePath := Join persistPath "convo-coordinator-state" in
  confPath ≠ statePath → (∀ t, temp (ca_persist a) = Some t → t ≠ confPath ∧ t ≠ statePath) →
  passes (coordinator_left text confPath statePath) (initService Overwrite a persistPath "Convo").
Proof.
  intros confPath statePath Hne Ht d Hd. unfold initService. rewrite go_bind_unfold. cbn [get].
  change (Join persistPath (ToLower "Convo" ++ "-coordinator-state")) with statePath.
  destruct (Overwrite _ _); [|by apply (passes_still _ (mret ()))].
  pose proof (WriteFileAtomic_run (ca_persist a) statePath ([version] ++ encode_round 0) d) as Hw.
  destruct Hw as [(new & Hp & Hnew) _]; [intros t Et; by apply (Ht t Et)|].
  unfold Persist. destruct (WriteFileAtomic _ _ _ d) as [d1 saved]. cbn [fst snd] in *.
  rewrite go_bind_unfold. cbn [put modify].
  assert (Hall : ∀ fs, fs ∈ new ++ [files d1] → coordinator_left text confPath statePath fs).
  { intros fs Hin. eapply coordinator_left_partly; [done| |exact Hd|by apply Hnew].
    intros Et. by destruct (Ht _ Et). }
  assert (Hend : coordinator_left text confPath statePath (files d1) ∧
    ∃ new', past d1 = past d ++ new' ∧ Forall (coordinator_left text confPath statePath) new').
  { split; [apply Hall, elem_of_app; right; by left|]. exists new. split; [done|].
    apply Forall_forall. intros fs Hin. apply Hall, elem_of_app. by left. }
  destruct saved; exact Hend.
Qed.

(** Both steps of [-init] where there was nothing. *)
Lemma initCoordinator_new a key persistPath d d1 u :
  let confPath := Join persistPath "coordinator.conf" in
  let statePath := Join persistPath "convo-coordinator-state" in
  let conf := mkCoordinatorFile (sig_Public key) key "0.0.0.0:8000" (800 * 10 ^ 6) in
  confPath ≠ statePath → ca_key a = Some key →
  (∀ t, temp (ca_persist a) = Some t → t ≠ confPath ∧ t ≠ statePath) →
  files d !! confPath = None → files d !! statePath = None →
  initCoordinator printable EncodeBytes Overwrite a persistPath confPath d = (d1, Ret u) →
  files d1 !! confPath = Some (CoordinatorConfig_TOML printable EncodeBytes conf) ∧
  LoadPersistedState statePath (files d1) = Ret 0.
Proof.
  intros confPath statePath conf Hne Hkey Ht Hc Hs E. unfold initCoordinator in E.
  rewrite go_bind_unfold in E. cbn [get] in E. rewrite Overwrite_new in E by done.
  rewrite Hkey in E. cbn [NewCoordinatorConfig or_panic mbind outcome_bind] in E.
  rewrite go_bind_unfold in E. rewrite go_bind_unfold in E. cbn [lift] in E.
  change (mkCoordinatorFile _ _ _ _) with conf in E.
  destruct (WriteFile _ _ _ _ d) as [d2 [u2| | |]] eqn:Ew; [|done..]. apply WriteFile_ok in Ew.
  unfold initService in E. rewrite go_bind_unfold in E. cbn [get] in E.
  change (Join persistPath (ToLower "Convo" ++ "-coordinator-state")) with statePath in E.
  rewrite Overwrite_new in E by (rewrite Ew, lookup_insert_ne; done).
  destruct (Persist (ca_persist a) statePath 0 d2) as [d3 saved] eqn:Ep. rewrite go_bind_unfold in E.
  cbn [put modify] in E. destruct saved as [[]| | |]; [|done..]. injection E as <-.
  destruct (Persist_loads (ca_persist a) statePath 0 d2 d3) as [Hl Hg]; [unfold is_u32; lia| |done|].
  { intros t Et. by apply (Ht t Et). }
  split; [|done]. rewrite Hg, Ew, lookup_insert_eq; [done|done|].
  intros Et. by destruct (Ht _ Et).
Qed.

Lemma passes_initCoordinator a key persistPath :
  let confPath := Join persistPath "coordinator.conf" in
  let statePath := Join persistPath "convo-coordinator-state" in
  let conf := mkCoordinatorFile (sig_Public key) key "0.0.0.0:8000" (800 * 10 ^ 6) in
  confPath ≠ statePath → ca_key a = Some key →
  (∀ t, temp (ca_persist a) = Some t → t ≠ confPath ∧ t ≠ statePath) →
  passes (coordinator_left (CoordinatorConfig_TOML printable EncodeBytes conf) confPath statePath)
    (initCoordinator printable EncodeBytes Overwrite a persistPath confPath).
Proof.
  intros confPath statePath conf Hne Hkey Ht. unfold initCoordinator.
  apply passes_bind; [by apply passes_still|intros d].
  apply passes_bind; [|intros _; by apply passes_initService].
  destruct (Overwrite _ _); [|by apply passes_still].
  rewrite Hkey. intros d' Hd'. rewrite go_bind_unfold. cbn [lift NewCoordinatorConfig or_panic mbind outcome_bind].
  revert d' Hd'. apply passes_WriteFile. intros fs n. by apply coordinator_left_insert.
Qed.

(** Why [-init] may end. *)
Lemma initCoordinator_ends a key persistPath confPath d :
  ca_key a = Some key →
  match (initCoordinator printable EncodeBytes Overwrite a persistPath confPath d).2 with
  | Ret _ => True
  | Err why => why ∈ [WriteConfigFailed; PersistInitFailed]
  | _ => False
  end.
Proof.
  clear read_mixer read_coordinator Overwrite_new. intros Hkey. unfold initCoordinator.
  rewrite go_bind_unfold. cbn [get]. rewrite go_bind_unfold.
  assert (Hi : ∀ d, match (initService Overwrite a persistPath "Convo" d).2 with
    | Ret _ => True | Err why => why ∈ [WriteConfigFailed; PersistInitFailed] | _ => False end).
  { intros d0. unfold initService. rewrite go_bind_unfold. cbn [get]. destruct (Overwrite _ _); [|done].
    destruct (Persist _ _ _ _) as [d1 saved]. rewrite go_bind_unfold. cbn [put modify].
    destruct saved; cbn; set_solver. }
  destruct (Overwrite _ _); [|apply Hi]. rewrite Hkey, go_bind_unfold.
  cbn [lift NewCoordinatorConfig or_panic mbind outcome_bind].
  pose proof (WriteFile_ends (ca_write a) WriteConfigFailed confPath (CoordinatorConfig_TOML printable EncodeBytes
    (mkCoordinatorFile (sig_Public key) key "0.0.0.0:8000" (800 * 10 ^ 6))) d) as Hw.
  destruct (WriteFile _ _ _ _ d) as [d1 [u|e| |]]; [apply Hi|cbn in Hw; subst e; by left|done..].
Qed.

(** A start that finds its files, and that the system lets serve. *)
Lemma coordinator_serves a persistPath d text conf r :
  ca_mkdir a = true → ca_logs a = true → ca_listen a = true →
  files d !! Join persistPath "coordinator.conf" = Some text → read_coordinator text = Some conf →
  LoadPersistedState (Join persistPath "convo-coordinator-state") (files d) = Ret r →
  coordinator_main printable EncodeBytes read_coordinator Overwrite false persistPath a d =
    (d, Ret (Serving _ (mkCoordinatorRun "Convo" (cc_PrivateKey conf) (cc_RoundDelay conf)
      (Join persistPath "convo-coordinator-state") (cc_ListenAddr conf)
      (mkProductionOutput (Some (Join persistPath "logs"))) (new_server r)))).
Proof.
  intros Hm Hl Hli Hf Hread Hload. unfold coordinator_main, mkdir_ok, read_config.
  rewrite Hm, go_bind_unfold. cbn [must_ok mret go_ret]. rewrite go_bind_unfold, go_bind_unfold. cbn [get].
  rewrite Hf, go_bind_unfold. cbn [must mret go_ret]. rewrite Hread. cbn [must mret go_ret].
  rewrite go_bind_unfold. unfold NewProductionOutput.
  rewrite decide_True by (apply Join_nonempty; by split_and!). rewrite Hl. cbn [must mret go_ret].
  rewrite go_bind_unfold. cbn [get]. rewrite Hload, go_bind_unfold. cbn [must mret go_ret].
  rewrite go_bind_unfold, Hli. cbn [must_ok mret go_ret]. unfold Run.
  rewrite decide_False by (apply Join_nonempty; by split_and!). done.
Qed.

(** C32. What [-init] of the coordinator makes, a later start serves. In a directory without
    these files [-init] writes a configuration and the state of round 0; whatever fails and
    wherever it is stopped, the state file is absent or loads round 0, and the configuration is
    absent or a beginning of the text. If it succeeds, a start that the system lets serve does
    serve: with the key that was generated, at the address 0.0.0.0:8000 and with the delay of
    800 ms, from round 0, and it changes no file. Of package toml this relies on its format only:
    a file of comments, blank lines and keys with plain strings sets the fields that the keys
    name, decoding inverts the encoding of keys, and a whole number of milliseconds is read as
    such. That the text which the template writes is such a file, names each field once and says
    what was generated is part of the theorem. *)
Theorem coordinator_init_then_serve DecodeBytes ParseDuration a a' key persistPath d d1 res :
  let confPath := Join persistPath "coordinator.conf" in
  let statePath := Join persistPath "convo-coordinator-state" in
  let conf := mkCoordinatorFile (sig_Public key) key "0.0.0.0:8000" (800 * 10 ^ 6) in
  let text := CoordinatorConfig_TOML printable EncodeBytes conf in
  let main := coordinator_main printable EncodeBytes read_coordinator Overwrite in
  toml_laws EncodeBytes DecodeBytes ParseDuration read_coordinator → ca_key a = Some key →
  (∀ t, temp (ca_persist a) = Some t → t ≠ confPath ∧ t ≠ statePath) →
  files d !! confPath = None → files d !! statePath = None →
  main true persistPath a d = (d1, res) →
  (∃ new, past d1 = past d ++ new ∧
     ∀ fs, fs ∈ new ++ [files d1] → coordinator_left text confPath statePath fs) ∧
  match res with
  | Ret (Serving _ _) | Panic | Block => False
  | Err why => why ∈ [MkdirFailed; WriteConfigFailed; PersistInitFailed]
  | Ret (Initialized _) =>
      ca_mkdir a' = true → ca_logs a' = true → ca_listen a' = true →
      ∃ run, main false persistPath a' d1 = (d1, Ret (Serving _ run)) ∧
        cr_PrivateKey run = key ∧ cr_listen run = "0.0.0.0:8000" ∧ cr_RoundDelay run = 800 * 10 ^ 6 ∧
        cr_PersistPath run = statePath ∧ Coordinator.round (cr_server run) = 0 ∧
        Coordinator.closed (cr_server run) = false
  end.
Proof.
  clear read_mixer. intros confPath statePath conf text main Hlaws Hkey Ht Hc Hs E.
  assert (Hread : read_coordinator text = Some conf) by
    (by apply (coordinator_reads_back printable _ _ _ _ Hlaws conf 800); vm_compute).
  assert (Hne : confPath ≠ statePath) by (intros Ej; by apply Join_inj in Ej).
  unfold main, coordinator_main in E. rewrite go_bind_unfold in E. unfold mkdir_ok in E.
  destruct (ca_mkdir a); cbn in E; cycle 1.
  { injection E as <- <-. split; [|set_solver]. exists []. rewrite app_nil_r. split; [done|].
    intros fs ->%list_elem_of_singleton. by split; left. }
  fold confPath in E. rewrite go_bind_unfold in E.
  pose proof (passes_initCoordinator a key persistPath Hne Hkey Ht d) as Hp.
  pose proof (initCoordinator_ends a key persistPath confPath d Hkey) as He.
  pose proof (λ d1 u, initCoordinator_new a key persistPath d d1 u Hne Hkey Ht Hc Hs) as Hn.
  fold confPath statePath conf text in Hp, Hn.
  destruct (initCoordinator _ _ _ _ _ _ d) as [d2 r]. cbn [fst snd] in *.
  assert (Ed : d2 = d1) by (destruct r; by injection E). subst d2. split.
  - destruct Hp as (Hd1 & new & Hpast & Hnew); [by split; left|]. exists new. split; [done|].
    intros fs [Hin| ->%list_elem_of_singleton]%elem_of_app; [|done]. by eapply Forall_forall in Hnew.
  - destruct r as [u|why| |]; [|injection E as <-; set_solver|done..]. injection E as <-. intros Hm Hl Hli.
    destruct (Hn d1 u eq_refl) as [Hf Hload]. eexists. split; [by apply coordinator_serves with (text := text) (conf := conf)|done].
Qed.

(** *** The mixer *)

(** A start that finds its file: it serves the conversation service to the coordinator that the
    current configuration names; a configuration of another service is a panic. *)
Lemma mixer_starts a persistPath d text conf current :
  ma_mkdir a = true → ma_logs a = true → ma_listen a = true → ma_current a = Some current →
  files d !! Join persistPath "mixer.conf" = Some text → read_mixer text = Some conf →
  mixer_main printable EncodeBytes read_mixer Overwrite false persistPath a d =
    (d, match as_ConvoConfig (config_Inner current) with
        | Some convoConfig =>
            Ret (Serving _ (mkMixerRun
              (mkMixer (mc_PrivateKey conf) (coord_Key (Coordinator convoConfig))
                {[ "Convo" := convo_service (mkConvoService (Some (64%nat, []))) ]})
              (Noise conf) (if decide (DebugAddr conf ≠ "") then Some (DebugAddr conf) else None)
              (mc_ListenAddr conf) (mkProductionOutput (Some (Join persistPath "logs")))))
        | None => Panic
        end).
Proof.
  intros Hm Hl Hli Hcur Hf Hread. unfold mixer_main, mkdir_ok, read_config.
  rewrite Hm, go_bind_unfold. cbn [must_ok mret go_ret]. rewrite go_bind_unfold, go_bind_unfold. cbn [get].
  rewrite Hf, go_bind_unfold. cbn [must mret go_ret]. rewrite Hread. cbn [must mret go_ret].
  rewrite go_bind_unfold. unfold NewProductionOutput.
  rewrite decide_True by (apply Join_nonempty; by split_and!). rewrite Hl. cbn [must mret go_ret].
  rewrite go_bind_unfold. unfold serve_mixer. rewrite go_bind_unfold, Hcur. cbn [must mret go_ret].
  rewrite go_bind_unfold. destruct (as_ConvoConfig _) as [cc|]; cbn [or_panic lift]; [|done].
  rewrite go_bind_unfold, Hli. done.
Qed.

(** What [-init] of the mixer leaves, and that a start then serves with the new key. *)
Lemma mixer_init_then_serve a a' key persistPath d d1 current cc :
  let confPath := Join persistPath "mixer.conf" in
  let conf := mkMixerConfig (sig_Public key) key "0.0.0.0:2718" "0.0.0.0:6060"
    (mkLaplace (mkFloat 100 0) (mkFloat 3 0)) in
  let text := MixerConfig_TOML printable EncodeBytes conf in
  read_mixer text = Some conf → ma_key a = Some key → files d !! confPath = None →
  mixer_main printable EncodeBytes read_mixer Overwrite true persistPath a d = (d1, Ret (Initialized _)) →
  ma_mkdir a' = true → ma_logs a' = true → ma_listen a' = true →
  ma_current a' = Some current → as_ConvoConfig (config_Inner current) = Some cc →
  ∃ run, mixer_main printable EncodeBytes read_mixer Overwrite false persistPath a' d1 = (d1, Ret (Serving _ run)) ∧
    SigningKey (mr_server run) = key ∧ CoordinatorKey (mr_server run) = coord_Key (Coordinator cc) ∧
    mr_listen run = "0.0.0.0:2718" ∧ mr_noise run = mkLaplace (mkFloat 100 0) (mkFloat 3 0).
Proof.
  intros confPath conf text Hread Hkey Hc E Hm Hl Hli Hcur Hcc.
  unfold mixer_main, mkdir_ok in E. rewrite go_bind_unfold in E. destruct (ma_mkdir a); [|done].
  cbn [must_ok mret go_ret] in E. fold confPath in E. rewrite go_bind_unfold in E. cbn [get] in E.
  rewrite Overwrite_new, go_bind_unfold in E by done. unfold mixer_writeNewConfig in E.
  rewrite Hkey, go_bind_unfold in E. cbn [lift NewMixerConfig or_panic mbind outcome_bind] in E.
  destruct (WriteFile _ _ _ _ d) as [d2 [u| | |]] eqn:Ew; [|done..]. injection E as <-.
  apply WriteFile_ok in Ew. eexists. split.
  - erewrite mixer_starts with (text := text) (conf := conf); [by rewrite Hcc|done..| |done].
    by rewrite Ew, lookup_insert_eq.
  - done.
Qed.

End init.

(** ** An example *)

Section examples.
Local Existing Instance Toy.nacl.
Local Existing Instance Toy.onionbox.
Local Existing Instance Toy.signature.
Local Instance toy_configs : SignedConfigs :=
  Build_SignedConfigs ConvoConfig (λ _, "hash") InnerConvo (λ _, []).

(** A directory without files, where nothing is overwritten, and a system that grants everything. *)
Definition asks (fs : gmap string bytes) (p : string) : bool := bool_decide (fs !! p = None).
Definition granted : coordinator_answers :=
  mkCoordinatorAnswers true (Some [x07]) (mkWriteAnswers true None true)
    (mkIo (Some "persist/tmp1") None true true true true true) true true.

Example coordinator_file :
  to_string (CoordinatorConfig_TOML (λ _, true) letters
    (mkCoordinatorFile [x01; xff] [x07] "0.0.0.0:8000" (800 * 10 ^ 6))) =
  lines ["# Vuvuzela coordinator (entry) server config"; "";
    "publicKey  = " ++ quote (λ _, true) "abpp"; "privateKey = " ++ quote (λ _, true) "ah"; "";
    "listenAddr = " ++ quote (λ _, true) "0.0.0.0:8000"; "";
    "roundDelay = " ++ quote (λ _, true) "800ms"]%string.
Proof. vm_compute. done. Qed.

Lemma coordinator_init_then_serve_witness :
  let main := coordinator_main (λ _, true) letters reader asks in
  let d1 := (main true "persist" granted (mkDisk ∅ [])).1 in
  ∃ run, main false "persist" granted d1 = (d1, Ret (Serving _ run)) ∧ cr_PrivateKey run = [x07].
Proof.
  cbv zeta.
  destruct (coordinator_main (λ _, true) letters reader asks true "persist" granted (mkDisk ∅ [])) as [d1 res] eqn:E.
  assert (Er : res = Ret (Initialized _)) by (vm_compute in E; by injection E as <- <-).
  subst res.
  edestruct (coordinator_init_then_serve (λ _, true) letters reader asks) with
    (a := granted) (a' := granted) (key := [x07]) (persistPath := "persist") (d := mkDisk (∅ : gmap string bytes) [])
    as (_ & Hrun).
  - intros fs p Hp. unfold asks. by rewrite bool_decide_true.
  - exact reader_laws.
  - reflexivity.
  - intros t [= <-]. split; vm_compute; discriminate.
  - reflexivity.
  - reflexivity.
  - exact E.
  - destruct Hrun as (run & H1 & H2 & _); [reflexivity|reflexivity|reflexivity|]. exists run. split; [exact H1|exact H2].
Defined.

End examples.
