(* ===== verification/ClientConnExamples.v ===== *)
(** * The connection of a client on concrete inputs

    [session_safe] for a client that connects and starts the round of [SystemExamples], and
    what an old goroutine does to a new connection. *)

From Stdlib Require Import ZArith Lia.
From stdpp Require Import base numbers strings gmap fin_maps list.
From S2P Require Import Prelude GoStd Json External Settings Convo ConvoConfig Coordinator Client SystemExamples ClientConn Persist.

Local Existing Instance Toy.nacl.
Local Existing Instance Toy.onionbox.
Local Existing Instance Toy.signature.
Local Existing Instance SystemExamples.configs.

Definition dial_as (n : nat) (addr : string) (key : bytes) : option nat := Some n.

Definition connected : session := (connect true (Some signed) (dial_as 0) (mkSession zero_Client [] ∅)).1.

Definition with_round : session :=
  (in_client (convoMux (NewRoundMessage 0 None true announced)) connected).1.

Lemma connected_reachable : reachable zero_Client connected.
Proof.
  eapply (reachable_step _ (mkSession zero_Client [] ∅) _ _ (Ret ())); [constructor| |done].
  refine (step_connect true (Some signed) (dial_as 0) (mkSession zero_Client [] ∅) _).
  intros addr key conn [= <-]. by apply not_elem_of_empty.
Qed.

Lemma with_round_reachable : reachable zero_Client with_round.
Proof.
  eapply (reachable_step _ connected _ _ (Ret ())); [exact connected_reachable| |done].
  refine (step_message 0%nat (NewRoundMessage 0 None true announced) connected _). left.
Qed.

(** An announcement of the next round, under a configuration that cannot be written to disk. *)
Definition unpersisted : action :=
  DoMessage 0%nat (NewRoundMessage 0 (Some [signed]) false
    (mkNewRound (nr_Round announced + 1) "newer" (nr_MixSettings announced) (nr_MixSignatures announced) (nr_EndTime announced))).


(** ** A goroutine that leaves late

    The client closes its first connection and connects again before the goroutine of the first
    has cleared [conn]: the new connection is served, but the client does not have it. *)

Definition closed : session := (in_client CloseConvo connected).1.
Definition leaving : session := mkSession (client closed) [(0%nat, Leaving)] (dialed closed).
Definition again : session := (connect true (Some signed) (dial_as 1) leaving).1.
Definition left_late : session :=
  mkSession (set_client_conn None (client again)) [(1%nat, Serving)] (dialed again).

Lemma left_late_reachable : reachable zero_Client left_late.
Proof.
  eapply (reachable_step _ again _ _ (Ret ())); [|exact (step_leave [] 0%nat [(1%nat, Serving)] again eq_refl)|done].
  eapply (reachable_step _ leaving _ _ (Ret ())); [| |done].
  - eapply (reachable_step _ closed _ _ (Ret ())); [|exact (step_disconnect [] 0%nat [] closed eq_refl)|done].
    eapply (reachable_step _ connected _ _ (Ret ())); [exact connected_reachable|exact (step_close connected)|done].
  - refine (step_connect true (Some signed) (dial_as 1) leaving _).
    intros addr key conn [= <-]. vm_compute. set_solver.
Qed.

Example late_leave_drops_connection :
  goroutines left_late = [(1%nat, Serving)] ∧
  (LatestRound (client left_late)).2 = Err NotConnected ∧
  (CloseConvo (client left_late)).2 = Ret None.
Proof. vm_compute. done. Qed.

(** A round announced without signatures makes the goroutine that runs it panic. *)
Example missing_signatures_panic :
  let bare := mkNewRound (nr_Round announced) (nr_ConfigHash announced) (nr_MixSettings announced) []
    (nr_EndTime announced) in
  let s := (in_client (convoMux (NewRoundMessage 0 None true bare)) connected).1 in
  client_jobs (client s) = [mkRunJob 0%nat bare] ∧
  (runRound 0 0 0 [] (λ _, []) (mkRunJob 0%nat bare) (client s)).2 = Panic.
Proof. split; reflexivity. Qed.

(** The configuration a client loaded from disk plays no part in connecting: the one that was
    fetched replaces it unchecked. *)
Lemma ConnectConvo_replaces_config conf c c' n dial :
  ConnectConvo true (Some conf) dial c = (c', Ret n) →
  convoConfig c' = Some conf ∧ convoConfigHash c' = config_Hash conf.
Proof.
  unfold ConnectConvo. rewrite go_bind_unfold. cbn [lift].
  destruct (as_ConvoConfig (config_Inner conf)) as [inner|]; [|done]. cbn [or_panic].
  destruct (dial _ _); [|done]. by intros [= <- <-].
Qed.
