(* ===== verification/Notify.v ===== *)
(** * Notifications (cmd/gjallarhorn-client/notify.go)

    Desktop notifications about messages are rare: [seldomNotifyLoop] shows one only when
    nothing was typed and nothing shown for four minutes. The loop is a goroutine of its own
    that the program talks to through two channels of capacity one; its turns are operations
    that can run at any time after what they wait for is there. Timers are those of Go 1.23
    and later (go.mod asks for 1.25), whose channel holds no value: a timer that has run out
    stays so until the value is received, and [Stop] is true until then. *)

From Stdlib Require Import ZArith Lia.
From stdpp Require Import base numbers strings list.
From S2P Require Import Prelude GoStd.

(** ** Timers *)

(** [Armed d] until the value of the instant [d] is received or the timer is stopped. *)
Inductive timer := Armed (deadline : Z) | Unarmed.

Definition NewTimer (now d : Z) : timer := Armed (now + d).

(** The timer after [Stop], and what it returns. *)
Definition timer_Stop (t : timer) : timer * bool :=
  match t with Armed _ => (Unarmed, true) | Unarmed => (Unarmed, false) end.

Definition timer_Reset (now d : Z) (t : timer) : timer := Armed (now + d).

(** A receive from the channel of the timer; [None] where it would have to wait. *)
Definition timer_recv (now : Z) (t : timer) : option timer :=
  match t with
  | Armed d => if decide (d <= now) then Some Unarmed else None
  | Unarmed => None
  end.

(** ** State *)

Definition duration : Z := 4 * 60 * 1000000000.

(** The two channels, the timer of the loop, and what [beeep.Notify] has shown and when. *)
Record notifier := mkNotifier {
  notifyChan : option string;
  notifyResetChan : bool;
  loop_timer : timer;
  shown_at : list (Z * string)
}.

Definition start_loop (now : Z) : notifier := mkNotifier None false (NewTimer now duration) [].

(** ** What the program calls: sends that never wait *)

Definition resetNotifyTimer (n : notifier) : notifier :=
  mkNotifier (notifyChan n) true (loop_timer n) (shown_at n).

Definition seldomNotify (msg : string) (n : notifier) : notifier :=
  match notifyChan n with
  | None => mkNotifier (Some msg) (notifyResetChan n) (loop_timer n) (shown_at n)
  | Some _ => n
  end.

(** ** The loop

    A turn takes one of the channels that have a value. *)

(** The case of [notifyResetChan]; the receive that follows a failing [Stop] waits for a
    timer that nothing starts again, unless it has run out. *)
Definition turn_reset (now : Z) (n : notifier) : notifier * outcome unit unit :=
  let '(t, stopped) := timer_Stop (loop_timer n) in
  let n := mkNotifier (notifyChan n) false t (shown_at n) in
  if stopped : bool
  then (mkNotifier (notifyChan n) false (timer_Reset now duration t) (shown_at n), Ret ())
  else
    match timer_recv now t with
    | Some t => (mkNotifier (notifyChan n) false (timer_Reset now duration t) (shown_at n), Ret ())
    | None => (n, Block)
    end.

(** The case of [notifyChan]. *)
Definition turn_message (now : Z) (msg : string) (n : notifier) : notifier * outcome unit unit :=
  match timer_recv now (loop_timer n) with
  | Some t =>
      (mkNotifier None (notifyResetChan n) (timer_Reset now duration t)
         (shown_at n ++ [(now, msg)]), Ret ())
  | None => (mkNotifier None (notifyResetChan n) (loop_timer n) (shown_at n), Ret ())
  end.

(** What happens at an instant: the user types, a message is to be notified, or the loop takes
    a turn, whose case is the one [select] picks. *)
Inductive notify_action :=
| Typed
| Message (msg : string)
| TurnReset
| TurnMessage.

Definition notify_step (now : Z) (a : notify_action) (n : notifier) : notifier * outcome unit unit :=
  match a with
  | Typed => (resetNotifyTimer n, Ret ())
  | Message msg => (seldomNotify msg n, Ret ())
  | TurnReset => if notifyResetChan n then turn_reset now n else (n, Ret ())
  | TurnMessage => match notifyChan n with Some msg => turn_message now msg n | None => (n, Ret ()) end
  end.

(** A run; [Block] as soon as the loop waits for ever. *)
Fixpoint notify_run (acts : list (Z * notify_action)) (n : notifier) : notifier * outcome unit unit :=
  match acts with
  | [] => (n, Ret ())
  | (now, a) :: acts =>
      match notify_step now a n with
      | (n, Ret _) => notify_run acts n
      | r => r
      end
  end.

(** Instants do not go back. *)
Fixpoint in_time (now : Z) (acts : list (Z * notify_action)) : Prop :=
  match acts with
  | [] => True
  | (t, _) :: acts => now <= t ∧ in_time t acts
  end.

(** ** What it guarantees *)

(** At least [duration] passes from [since] to the first instant, and between any two. *)
Fixpoint spaced (since : Z) (shown : list (Z * string)) : Prop :=
  match shown with
  | [] => True
  | (t, _) :: shown => since + duration <= t ∧ spaced t shown
  end.

(** The instant of the last notification, [since] if there is none. *)
Definition last_shown (since : Z) (shown : list (Z * string)) : Z :=
  match last shown with Some (t, _) => t | None => since end.

Lemma spaced_snoc since shown t msg :
  spaced since (shown ++ [(t, msg)]) ↔ spaced since shown ∧ last_shown since shown + duration <= t.
Proof.
  revert since. induction shown as [|[u m] shown IH]; intros since; cbn.
  - tauto.
  - rewrite IH. unfold last_shown. destruct shown as [|p shown]; [cbn; tauto|].
    cbn [last]. destruct (last (p :: shown)) as [[]|] eqn:E; [tauto|].
    by apply last_None in E.
Qed.

(** The timer is armed, and not before the last notification was [duration] ago. *)
Definition notifier_ok (since : Z) (n : notifier) : Prop :=
  spaced since (shown_at n) ∧
  ∃ d, loop_timer n = Armed d ∧ last_shown since (shown_at n) + duration <= d.

Lemma last_shown_snoc since shown t msg : last_shown since (shown ++ [(t, msg)]) = t.
Proof. unfold last_shown. by rewrite last_snoc. Qed.

Lemma notify_step_ok since now a n :
  notifier_ok since n → last_shown since (shown_at n) <= now →
  ∃ n', notify_step now a n = (n', Ret ()) ∧ notifier_ok since n' ∧
    last_shown since (shown_at n') <= now.
Proof.
  destruct n as [c r t l]. intros (Hs & d & Et & Hd) Hnow. cbn in Et, Hs, Hd, Hnow. subst t.
  assert (Hkeep : ∀ c' r', notifier_ok since (mkNotifier c' r' (Armed d) l)).
  { intros c' r'. split; [done|]. by exists d. }
  destruct a as [|msg| |]; cbn.
  - eexists. split_and!; [done|apply Hkeep|done].
  - destruct c; eexists; (split_and!; [done|apply Hkeep|done]).
  - destruct r; [|eexists; split_and!; [done|apply Hkeep|done]].
    eexists. split_and!; [done| |done].
    split; [done|]. exists (now + duration). split; [done|]. cbn. lia.
  - destruct c as [msg|]; [|eexists; split_and!; [done|apply Hkeep|done]].
    unfold turn_message. cbn. destruct (decide (d <= now)) as [Hdn|]; cycle 1.
    { eexists. split_and!; [done|apply Hkeep|done]. }
    eexists. split_and!; [done| |by cbn; rewrite last_shown_snoc].
    split; cbn; [apply spaced_snoc; split; [done|lia]|].
    exists (now + duration). split; [done|]. rewrite last_shown_snoc. lia.
Qed.

Lemma notify_run_ok acts since now n :
  notifier_ok since n → last_shown since (shown_at n) <= now → in_time now acts →
  ∃ n', notify_run acts n = (n', Ret ()) ∧ notifier_ok since n'.
Proof.
  revert now n. induction acts as [|[t a] acts IH]; intros now n Hn Hl Ht; cbn.
  - eauto.
  - destruct Ht as [Hle Ht].
    destruct (notify_step_ok since t a n Hn ltac:(lia)) as (n1 & -> & Hn1 & Hl1).
    by apply (IH t).
Qed.

(** From a timer armed for [d] on, nothing is shown before [d]. *)
Lemma notify_run_quiet acts now n d :
  loop_timer n = Armed d → d <= now + duration → in_time now acts →
  ∃ more, shown_at (notify_run acts n).1 = shown_at n ++ more ∧ Forall (λ p, d <= p.1) more.
Proof.
  revert now n d. induction acts as [|[t a] acts IH]; intros now n d En Hd Ht.
  { exists []. by rewrite app_nil_r. }
  destruct Ht as [Hle Ht]. destruct n as [c r tm l]. cbn in En. subst tm.
  assert (Hgo : ∀ c' r' d' l', d <= d' → d' <= t + duration → ∃ more,
    shown_at (notify_run acts (mkNotifier c' r' (Armed d') l')).1 = l' ++ more ∧
    Forall (λ p, d <= p.1) more).
  { intros c' r' d' l' Hdd Hd'.
    destruct (IH t (mkNotifier c' r' (Armed d') l') d' eq_refl Hd' Ht) as (more & E & HF).
    exists more. split; [done|]. eapply Forall_impl; [done|]. cbn. lia. }
  cbn [notify_run notify_step].
  destruct a as [|msg| |]; [|destruct c|destruct r|destruct c as [msg|]]; cbn; try (apply Hgo; lia).
  unfold turn_message. cbn. destruct (decide (d <= t)); [|apply Hgo; lia].
  destruct (Hgo None r (t + duration) (l ++ [(t, msg)])) as (more & E & HF); [lia..|].
  exists ((t, msg) :: more). cbn [timer_Reset]. split; [|by constructor].
  etrans; [exact E|]. by rewrite <- app_assoc.
Qed.

Lemma notify_run_app acts acts' n n' :
  notify_run acts n = (n', Ret ()) → notify_run (acts ++ acts') n = notify_run acts' n'.
Proof.
  revert n. induction acts as [|[t a] acts IH]; intros n; cbn.
  - by intros [= ->].
  - destruct (notify_step t a n) as [n1 []]; [apply IH|done..].
Qed.

Lemma in_time_app now acts acts' :
  in_time now (acts ++ acts') → in_time now acts ∧ in_time now acts'.
Proof.
  revert now. induction acts as [|[t a] acts IH]; intros now; cbn; [done|].
  intros [Hle Ht]. destruct (IH t Ht) as [H1 H2]. split; [done|].
  destruct acts' as [|[u b] acts']; [done|]. destruct H2. split; [lia|done].
Qed.

(** C37. However typing, messages and the turns of the loop mix in time, the loop never waits for
    ever at its timer; no notification is shown in the first four minutes, in the four minutes
    after another one, or in the four minutes after the loop learnt that the user typed. *)
Theorem notifications_are_rare start acts :
  in_time start acts →
  ∃ n, notify_run acts (start_loop start) = (n, Ret ()) ∧ spaced start (shown_at n) ∧
    ∀ before t after n1, acts = before ++ (t, TurnReset) :: after →
      notify_run before (start_loop start) = (n1, Ret ()) → notifyResetChan n1 = true →
      ∃ more, shown_at n = shown_at n1 ++ more ∧ Forall (λ p, t + duration <= p.1) more.
Proof.
  intros Ht.
  assert (Hok : notifier_ok start (start_loop start)).
  { split; [done|]. exists (start + duration). split; [done|]. cbn. lia. }
  destruct (notify_run_ok acts start start _ Hok ltac:(cbn; lia) Ht) as (n & E & Hs & _).
  exists n. split; [done|]. split; [done|]. intros before t after n1 -> E1 Hr.
  destruct (in_time_app _ _ _ Ht) as [Hb [_ Ha]].
  destruct (notify_run_ok before start start _ Hok ltac:(cbn; lia) Hb) as (n1' & E1' & _ & d & Ed & _).
  rewrite E1 in E1'. injection E1' as <-.
  rewrite (notify_run_app _ _ _ _ E1) in E. destruct n1 as [c r tm l]. cbn in Hr, Ed. subst r tm.
  destruct (notify_run_quiet after t (mkNotifier c false (Armed (t + duration)) l) (t + duration)
    eq_refl ltac:(lia) Ha) as (more & Em & HF).
  exists more. split; [|done]. change n with (n, Ret (E:=unit) ()).1. by rewrite <- E.
Qed.

(** A message that comes five minutes after the start is shown, the next one is dropped. *)
Definition five_minutes : Z := 5 * 60 * 1000000000.

Definition quiet_run : list (Z * notify_action) :=
  [(five_minutes, Message "alice says: hi"); (five_minutes, TurnMessage);
   (five_minutes + 1, Message "alice says: there"); (five_minutes + 1, TurnMessage);
   (five_minutes + 2, Typed); (five_minutes + 3, TurnReset);
   (2 * five_minutes, Message "bob says: hi"); (2 * five_minutes, TurnMessage)].

Lemma notifications_are_rare_witness :
  in_time 0 quiet_run ∧
  ∃ n, notify_run quiet_run (start_loop 0) = (n, Ret ()) ∧ spaced 0 (shown_at n) ∧
    shown_at n = [(five_minutes, "alice says: hi"); (2 * five_minutes, "bob says: hi")]%string.
Proof.
  assert (Ht : in_time 0 quiet_run) by (vm_compute; intuition congruence).
  split; [done|]. destruct (notifications_are_rare 0 quiet_run Ht) as (n & E & Hs & _).
  exists n. split; [done|]. split; [done|]. change n with (n, Ret (E:=unit) ()).1. rewrite <- E. reflexivity.
Defined.
