(* ===== verification/MixConns.v ===== *)
(** * The connections of a mixnet client (mixnet/mixnet.go)

    [Client] keeps its connections to each server by the key of the server, and dials only
    those that are missing. [getConns] runs in many goroutines; it holds the lock only where
    it reads the cache and where it stores a new connection, so the calls interleave, and the
    slices they append to can share their arrays. *)

From Stdlib Require Import ZArith Lia.
From stdpp Require Import base numbers strings gmap fin_maps list.
From S2P Require Import Prelude Pb Settings.

(** ** State *)

(** What [grpc.Dial] makes: a connection to an address whose peer must prove that it has a
    key. [conn_id] tells the connections apart. *)
Record ClientConn := mkClientConn { conn_id : nat; conn_key : bytes; conn_address : string }.

(** A slice of connections: its array ([None] the nil slice) and its length. *)
Record conn_slice := mkConnSlice { cs_array : option nat; cs_len : nat }.

(** A turn of a call of [getConns]: it starts, dials [missing] more connections, reads those it
    returns, or is over. *)
Inductive conns_phase :=
| Starting
| Dialing (ccs : conn_slice) (missing : nat)
| Reading (ccs : conn_slice) (got : list ClientConn)
| Returned (r : outcome unit (list ClientConn)).

Record conns_call := mkConnsCall {
  call_count : nat;
  call_server : PublicServerConfig;
  call_phase : conns_phase
}.

(** [arrays] is the heap: the arrays of the slices, whose length is the capacity. *)
Record conn_cache := mkConnCache {
  conns : gmap bytes conn_slice;
  arrays : gmap nat (list (option ClientConn));
  dialed : nat;
  calls : list conns_call
}.

(** The array [k] that [server.Key] is copied to. *)
Definition conns_key (key : bytes) : bytes := go_copy (replicate PublicKeySize x00) key.

(** ** Slices *)

Definition nil_slice : conn_slice := mkConnSlice None 0.

Definition cells_of (s : conn_slice) (h : gmap nat (list (option ClientConn)))
    : list (option ClientConn) :=
  match cs_array s with Some a => default [] (h !! a) | None => [] end.

(** [append(ccs, cc)]: in place where the array has room, in a new array otherwise, whose
    capacity [grow] gives for the length that is needed. *)
Definition append_conn (grow : nat → nat) (s : conn_slice) (cc : ClientConn)
    (h : gmap nat (list (option ClientConn))) : conn_slice * gmap nat (list (option ClientConn)) :=
  let n := cs_len s in
  let cells := cells_of s h in
  match cs_array s with
  | Some a =>
      if decide (n < length cells)%nat
      then (mkConnSlice (Some a) (S n), <[a := <[n := Some cc]> cells]> h)
      else
        let b := fresh (dom h) in
        (mkConnSlice (Some b) (S n),
         <[b := take n cells ++ Some cc :: replicate (grow (S n) - S n) None]> h)
  | None =>
      let b := fresh (dom h) in
      (mkConnSlice (Some b) (S n),
       <[b := take n cells ++ Some cc :: replicate (grow (S n) - S n) None]> h)
  end.

(** [ccs[i]] where a nil connection is not expected. *)
Definition conn_at (s : conn_slice) (i : nat) (h : gmap nat (list (option ClientConn)))
    : option ClientConn :=
  if decide (i < cs_len s)%nat then mjoin (cells_of s h !! i) else None.

(** ** getConns *)

Section cache.
Context (grow : nat → nat).

Definition set_phase (i : nat) (p : conns_phase) (c : conn_cache) : conn_cache :=
  mkConnCache (conns c) (arrays c) (dialed c)
    (alter (λ k, mkConnsCall (call_count k) (call_server k) p) i (calls c)).

(** Under the lock: what the cache has for the server, the nil slice if it has nothing. *)
Definition getConns_start (i : nat) (k : conns_call) (c : conn_cache) : conn_cache :=
  let ccs := default nil_slice (conns c !! conns_key (Key (call_server k))) in
  set_phase i (Dialing ccs (call_count k - cs_len ccs)) c.

(** One turn of the loop; [ok] tells whether [Dial] returns a connection. *)
Definition getConns_dial (ok : bool) (i : nat) (k : conns_call) (ccs : conn_slice) (missing : nat)
    (c : conn_cache) : conn_cache :=
  if ok then
    let server := call_server k in
    let cc := mkClientConn (dialed c) (Key server) (Address server) in
    let '(ccs, h) := append_conn grow ccs cc (arrays c) in
    set_phase i (Dialing ccs missing)
      (mkConnCache (<[conns_key (Key server) := ccs]> (conns c)) h (S (dialed c)) (calls c))
  else set_phase i (Returned (Err ())) c.

Definition getConns_read (i : nat) (k : conns_call) (ccs : conn_slice) (got : list ClientConn)
    (c : conn_cache) : conn_cache :=
  if decide (length got < call_count k)%nat
  then
    match conn_at ccs (length got) (arrays c) with
    | Some cc => set_phase i (Reading ccs (got ++ [cc])) c
    | None => set_phase i (Returned Panic) c
    end
  else set_phase i (Returned (Ret got)) c.

(** What can happen: a goroutine calls [getConns], or a call goes one step further. *)
Inductive conns_event :=
| CallGetConns (count : nat) (server : PublicServerConfig)
| StepCall (i : nat) (dial_ok : bool).

Definition conns_step (e : conns_event) (c : conn_cache) : conn_cache :=
  match e with
  | CallGetConns count server =>
      mkConnCache (conns c) (arrays c) (dialed c) (calls c ++ [mkConnsCall count server Starting])
  | StepCall i ok =>
      match calls c !! i with
      | None => c
      | Some k =>
          match call_phase k with
          | Starting => getConns_start i k c
          | Dialing ccs (S missing) => getConns_dial ok i k ccs missing c
          | Dialing ccs O => set_phase i (Reading ccs []) c
          | Reading ccs got => getConns_read i k ccs got c
          | Returned _ => c
          end
      end
  end.

Definition conns_run (es : list conns_event) (c : conn_cache) : conn_cache := foldl (flip conns_step) c es.

Definition new_cache : conn_cache := mkConnCache ∅ ∅ 0 [].

(** [getConn] asks for one connection. *)
Definition getConn (r : outcome unit (list ClientConn)) : outcome unit ClientConn :=
  conns ← r;
  or_panic (conns !! 0%nat).

(** ** The invariant

    [owner] gives each array the key of the connections that are written to it. *)

Definition serves (k : bytes) (o : option ClientConn) : Prop :=
  ∃ cc, o = Some cc ∧ conns_key (conn_key cc) = k.

Definition good_slice (owner : nat → bytes) (h : gmap nat (list (option ClientConn))) (k : bytes)
    (s : conn_slice) : Prop :=
  match cs_array s with
  | None => cs_len s = 0%nat
  | Some a => owner a = k ∧ ∃ cells, h !! a = Some cells ∧
      (cs_len s ≤ length cells)%nat ∧ Forall (serves k) (take (cs_len s) cells)
  end.

Definition good_call (owner : nat → bytes) (h : gmap nat (list (option ClientConn))) (c : conns_call)
    : Prop :=
  let k := conns_key (Key (call_server c)) in
  let served cc := conns_key (conn_key cc) = k in
  match call_phase c with
  | Starting => True
  | Dialing ccs missing => good_slice owner h k ccs ∧ (call_count c ≤ cs_len ccs + missing)%nat
  | Reading ccs got =>
      good_slice owner h k ccs ∧ (call_count c ≤ cs_len ccs)%nat ∧
      (length got ≤ call_count c)%nat ∧ Forall served got
  | Returned (Ret got) => length got = call_count c ∧ Forall served got
  | Returned (Err _) => True
  | Returned _ => False
  end.

Definition good_cache (c : conn_cache) : Prop :=
  ∃ owner, map_Forall (good_slice owner (arrays c)) (conns c) ∧
    Forall (good_call owner (arrays c)) (calls c).

Lemma length_conns_key key : length (conns_key key) = PublicKeySize.
Proof. unfold conns_key. by rewrite length_go_copy, length_replicate. Qed.

(** A key of the right size is its own entry. *)
Lemma conns_key_id key : length key = PublicKeySize → conns_key key = key.
Proof. intros E. unfold conns_key. apply go_copy_exact. by rewrite length_replicate. Qed.

Lemma serves_new k cc : conns_key (conn_key cc) = k → serves k (Some cc).
Proof. intros E. by exists cc. Qed.

(** ** Appending keeps every slice good *)

Definition extends (owner : nat → bytes) (h : gmap nat (list (option ClientConn)))
    (owner' : nat → bytes) (h' : gmap nat (list (option ClientConn))) : Prop :=
  ∀ k s, good_slice owner h k s → good_slice owner' h' k s.

Lemma extends_write owner h a cells i cc :
  h !! a = Some cells → serves (owner a) (Some cc) →
  extends owner h owner (<[a := <[i := Some cc]> cells]> h).
Proof.
  intros Ha Hcc k [[b|] n]; unfold good_slice; cbn; [|done].
  intros (Ho & cells' & Hb & Hlen & HF). split; [done|].
  destruct (decide (a = b)) as [<-|Hne].
  - rewrite Ha in Hb. injection Hb as <-. eexists. rewrite lookup_insert_eq. split; [done|].
    rewrite length_insert. split; [done|]. apply Forall_lookup. intros j o Hj.
    apply lookup_take_Some in Hj as [Hj Hjn].
    destruct (decide (i = j)) as [<-|].
    + rewrite list_lookup_insert_eq in Hj by lia. injection Hj as <-. by rewrite <- Ho.
    + rewrite list_lookup_insert_ne in Hj by done. rewrite Forall_lookup in HF.
      apply (HF j). by apply lookup_take_Some.
  - exists cells'. by rewrite lookup_insert_ne.
Qed.

Lemma extends_alloc owner h k cells :
  let b := fresh (dom h) in
  extends owner h (λ a, if decide (a = b) then k else owner a) (<[b := cells]> h).
Proof.
  intros b k' [[a|] n]; unfold good_slice; cbn; [|done].
  intros (Ho & cells' & Ha & HF).
  assert (a ≠ b).
  { intros ->. apply (is_fresh (dom h)). apply elem_of_dom. by exists cells'. }
  rewrite decide_False by done. split; [done|]. exists cells'. by rewrite lookup_insert_ne.
Qed.

Lemma append_conn_good owner h k s cc :
  good_slice owner h k s → conns_key (conn_key cc) = k →
  ∃ owner', extends owner h owner' (append_conn grow s cc h).2 ∧
    good_slice owner' (append_conn grow s cc h).2 k (append_conn grow s cc h).1 ∧
    cs_len (append_conn grow s cc h).1 = S (cs_len s).
Proof.
  intros Hs Hcc.
  assert (Halloc : ∀ cells, (cs_len s ≤ length cells)%nat →
    Forall (serves k) (take (cs_len s) cells) →
    let b := fresh (dom h) in
    let h' := <[b := take (cs_len s) cells ++ Some cc :: replicate (grow (S (cs_len s)) - S (cs_len s)) None]> h in
    ∃ owner', extends owner h owner' h' ∧ good_slice owner' h' k (mkConnSlice (Some b) (S (cs_len s)))).
  { intros cells Hl HF b h'. eexists. split; [apply extends_alloc|].
    split; cbn; [by rewrite decide_True|]. eexists. subst h'. rewrite lookup_insert_eq. split; [done|].
    rewrite length_app, length_take, Nat.min_l by done. cbn. split; [lia|].
    rewrite take_app_ge, length_take, Nat.min_l, Nat.sub_succ_l, Nat.sub_diag by (rewrite ?length_take; lia).
    cbn. apply Forall_app. split; [done|]. constructor; [by apply serves_new|constructor]. }
  unfold append_conn, cells_of. unfold good_slice in Hs. destruct s as [[a|] n]; cbn in *.
  - destruct Hs as (Ho & cells & Ha & Hl & HF). rewrite Ha. cbn.
    destruct (decide (n < length cells)%nat) as [Hlt|].
    + exists owner. split; [|split; [|done]].
      * apply extends_write; [done|]. rewrite Ho. by apply serves_new.
      * split; [done|]. eexists. cbn. rewrite lookup_insert_eq. split; [done|].
        rewrite length_insert. split; [lia|].
        rewrite (take_S_r _ _ (Some cc)) by (by apply list_lookup_insert_eq).
        rewrite take_insert_ge by lia. apply Forall_app. split; [done|].
        constructor; [by apply serves_new|constructor].
    + destruct (Halloc cells Hl HF) as (owner' & He & Hg). by exists owner'.
  - subst n. destruct (Halloc [] ltac:(done) ltac:(done)) as (owner' & He & Hg). by exists owner'.
Qed.

(** ** Every step keeps the invariant *)

Lemma good_call_extends owner h owner' h' c :
  extends owner h owner' h' → good_call owner h c → good_call owner' h' c.
Proof.
  intros He. unfold good_call. destruct (call_phase c) as [|ccs n|ccs got|r]; [done| | |done].
  - intros [Hs Hn]. split; [by apply He|done].
  - intros (Hs & Hrest). split; [by apply He|done].
Qed.

Lemma good_set_phase owner h i k p c :
  calls c !! i = Some k → Forall (good_call owner h) (calls c) →
  good_call owner h (mkConnsCall (call_count k) (call_server k) p) →
  Forall (good_call owner h) (calls (set_phase i p c)).
Proof. intros Hi HF Hp. cbn. apply Forall_alter; [done|]. intros k' Hk' _. congruence. Qed.

Lemma conn_at_good owner h k s i :
  good_slice owner h k s → (i < cs_len s)%nat →
  ∃ cc, conn_at s i h = Some cc ∧ conns_key (conn_key cc) = k.
Proof.
  unfold good_slice, conn_at, cells_of. intros Hs Hi. rewrite decide_True by done.
  destruct s as [[a|] n]; cbn in *; [|lia]. destruct Hs as (_ & cells & -> & Hl & HF). cbn.
  destruct (lookup_lt_is_Some_2 cells i ltac:(lia)) as [o Ho]. rewrite Ho.
  rewrite Forall_lookup in HF. destruct (HF i o) as (cc & -> & Hcc); [by apply lookup_take_Some|].
  by exists cc.
Qed.

Lemma conns_step_good e c : good_cache c → good_cache (conns_step e c).
Proof.
  intros (owner & Hc & Hk). destruct e as [count server|i ok]; cbn.
  { exists owner. split; [done|]. cbn. apply Forall_app. split; [done|]. by repeat constructor. }
  destruct (calls c !! i) as [k|] eqn:Ei; [|by exists owner].
  assert (Hi := proj1 (Forall_lookup _ _) Hk i k Ei). unfold good_call in Hi.
  destruct (call_phase k) as [|ccs [|n]|ccs got|r]; [| | | |by exists owner].
  - exists owner. split; [done|]. eapply good_set_phase; [done..|]. unfold good_call; cbn.
    destruct (conns c !! conns_key (Key (call_server k))) as [s|] eqn:Es; cbn; [|split; [done|lia]].
    split; [by apply (Hc _ _ Es)|lia].
  - exists owner. split; [done|]. eapply good_set_phase; [done..|]. unfold good_call; cbn.
    destruct Hi as [Hs Hn]. split_and!; [done|lia|lia|constructor].
  - destruct Hi as [Hs Hn]. unfold getConns_dial. destruct ok.
    + destruct (append_conn_good owner (arrays c) _ ccs
        (mkClientConn (dialed c) (Key (call_server k)) (Address (call_server k))) Hs eq_refl)
        as (owner' & He & Hg & Hl).
      destruct (append_conn grow ccs _ (arrays c)) as [ccs' h']. cbn in He, Hg, Hl.
      exists owner'. split; cbn.
      * apply map_Forall_insert_2; [done|]. intros k' s' Hs'. by apply He, (Hc k' s').
      * apply Forall_alter.
        -- eapply Forall_impl; [exact Hk|]. intros k' Hk'. by eapply good_call_extends.
        -- intros k' Hk' _. rewrite Ei in Hk'. injection Hk' as <-. unfold good_call; cbn.
           split; [done|lia].
    + exists owner. split; [done|]. by eapply good_set_phase.
  - destruct Hi as (Hs & Hn & Hg & HF). unfold getConns_read.
    destruct (decide (length got < call_count k)%nat) as [Hlt|Hge].
    + destruct (conn_at_good _ _ _ _ (length got) Hs ltac:(lia)) as (cc & -> & Hcc).
      exists owner. split; [done|]. eapply good_set_phase; [done..|]. unfold good_call; cbn.
      split_and!; [done|done| |].
      * rewrite length_app. cbn. lia.
      * apply Forall_app. split; [done|]. by repeat constructor.
    + exists owner. split; [done|]. eapply good_set_phase; [done..|]. unfold good_call; cbn.
      split; [lia|done].
Qed.

Lemma conns_run_good es c : good_cache c → good_cache (conns_run es c).
Proof. revert c. induction es as [|e es IH]; intros c Hc; cbn; [done|]. by apply IH, conns_step_good. Qed.

Lemma new_cache_good : good_cache new_cache.
Proof. exists (λ _, []). split; [apply map_Forall_empty|constructor]. Qed.

(** ** Every call ends *)

(** The turns a call still takes. *)
Definition turns_left (k : conns_call) : nat :=
  match call_phase k with
  | Starting => 3 + 2 * call_count k
  | Dialing ccs missing => 2 + missing + call_count k
  | Reading ccs got => 1 + call_count k - length got
  | Returned _ => 0
  end.

(** The turns of the call [i] among what happens. *)
Definition stepped (e : conns_event) : option nat :=
  match e with StepCall i _ => Some i | CallGetConns _ _ => None end.

Definition turns_of (i : nat) (es : list conns_event) : nat :=
  length (filter (λ e, stepped e = Some i) es).

(** What happens to a call: it stays the same request, comes closer to its end with every turn
    of its own, and fails only where a dial of its own fails. *)
Definition advances (i : nat) (es : list conns_event) (k k' : conns_call) : Prop :=
  call_count k' = call_count k ∧ call_server k' = call_server k ∧
  (turns_left k' ≤ turns_left k - turns_of i es)%nat ∧
  (call_phase k' = Returned (Err ()) → call_phase k = Returned (Err ()) ∨ StepCall i false ∈ es).

Lemma own_turn owner i ok c k :
  calls c !! i = Some k → good_call owner (arrays c) k →
  ∃ k', calls (conns_step (StepCall i ok) c) !! i = Some k' ∧ advances i [StepCall i ok] k k'.
Proof.
  intros Ei Hk.
  assert (Eset : ∀ p c', calls c' = calls c →
    calls (set_phase i p c') !! i = Some (mkConnsCall (call_count k) (call_server k) p)).
  { intros p c' E. cbn. by rewrite list_lookup_alter_eq, E, Ei. }
  cbn [conns_step]. rewrite Ei. unfold good_call in Hk. unfold advances.
  assert (Et : turns_of i [StepCall i ok] = 1%nat).
  { unfold turns_of. by rewrite filter_cons_True. }
  rewrite Et. destruct k as [count server phase]. cbn in *.
  destruct phase as [|ccs [|n]|ccs got|r]; unfold turns_left; cbn in *.
  - unfold getConns_start. eexists. split; [by apply Eset|]. cbn. split_and!; [done|done|lia|done].
  - eexists. split; [by apply Eset|]. cbn. split_and!; [done|done|lia|done].
  - unfold getConns_dial. destruct ok; cbn.
    + destruct (append_conn grow ccs _ (arrays c)) as [ccs' h']. eexists. split; [by apply Eset|]. cbn.
      split_and!; [done|done|lia|done].
    + eexists. split; [by apply Eset|]. cbn. split_and!; [done|done|lia|]. right. left.
  - unfold getConns_read. cbn. destruct Hk as (_ & _ & Hg & _).
    destruct (decide (length got < count)%nat).
    + destruct (conn_at ccs (length got) (arrays c)).
      * eexists. split; [by apply Eset|]. cbn. split_and!; [done|done| |done].
        rewrite length_app. cbn. lia.
      * eexists. split; [by apply Eset|]. cbn. split_and!; [done|done|lia|done].
    + eexists. split; [by apply Eset|]. cbn. split_and!; [done|done|lia|done].
  - eexists. split; [done|]. cbn. split_and!; [done|done|lia|]. intros. by left.
Qed.

Lemma advances_trans i es es' k1 k2 k3 :
  advances i es k1 k2 → advances i es' k2 k3 → advances i (es ++ es') k1 k3.
Proof.
  unfold advances, turns_of. intros (E1 & E2 & E3 & E4) (F1 & F2 & F3 & F4).
  rewrite filter_app, length_app. split_and!; [congruence|congruence|lia|].
  intros E. rewrite elem_of_app. destruct (F4 E) as [E'|]; [|by auto].
  destruct (E4 E'); auto.
Qed.

(** A step of another goroutine leaves the call alone. *)
Lemma other_turn i e c k :
  calls c !! i = Some k → stepped e ≠ Some i → calls (conns_step e c) !! i = Some k.
Proof.
  intros Ei Hne. destruct e as [count server|j ok]; cbn.
  { by apply lookup_app_l_Some. }
  destruct (calls c !! j) as [kj|] eqn:Ej; [|done].
  assert (j ≠ i) by (cbn in Hne; congruence).
  destruct (call_phase kj) as [|ccs [|n]|ccs got|r]; cbn.
  - by rewrite list_lookup_alter_ne.
  - by rewrite list_lookup_alter_ne.
  - unfold getConns_dial. destruct ok; cbn; [|by rewrite list_lookup_alter_ne].
    destruct (append_conn grow ccs _ (arrays c)). cbn. by rewrite list_lookup_alter_ne.
  - unfold getConns_read. repeat case_match; cbn; by rewrite list_lookup_alter_ne.
  - done.
Qed.

Lemma run_call i es c k :
  good_cache c → calls c !! i = Some k →
  ∃ k', calls (conns_run es c) !! i = Some k' ∧ advances i es k k'.
Proof.
  revert c k. induction es as [|e es IH]; intros c k Hc Ei.
  { exists k. split; [done|]. unfold advances. split_and!; [done|done|cbn; lia|by auto]. }
  assert (∃ k1, calls (conns_step e c) !! i = Some k1 ∧ advances i [e] k k1) as (k1 & E1 & H1).
  { destruct (decide (stepped e = Some i)) as [Es|Es].
    - destruct e as [|j ok]; [done|]. injection Es as ->. destruct Hc as (owner & _ & HF).
      eapply own_turn; [done|]. by apply (proj1 (Forall_lookup _ _) HF i).
    - exists k. split; [by apply other_turn|]. unfold advances, turns_of.
      rewrite filter_cons_False by done. split_and!; [done|done|cbn; lia|by auto]. }
  destruct (IH _ _ (conns_step_good e c Hc) E1) as (k' & E' & H').
  exists k'. split; [done|]. apply (advances_trans i [e] es _ _ _ H1 H').
Qed.

Lemma conns_run_app es es' c : conns_run (es ++ es') c = conns_run es' (conns_run es c).
Proof. apply foldl_app. Qed.

(** C36. However the calls of [getConns] interleave, a call that has had three turns and two more
    for each connection it asks for is over: it returned as many connections as it asked for, each
    dialed for the key of its server, and it fails only if one of its own dials failed. *)
Theorem getConns_returns before count server after :
  let i := length (calls (conns_run before new_cache)) in
  let es := before ++ CallGetConns count server :: after in
  length (Key server) = PublicKeySize →
  (3 + 2 * count ≤ turns_of i after)%nat →
  ∃ k, calls (conns_run es new_cache) !! i = Some k ∧
    ((call_phase k = Returned (Err ()) ∧ StepCall i false ∈ after) ∨
     ∃ cs, call_phase k = Returned (Ret cs) ∧ length cs = count ∧
       Forall (λ cc, conns_key (conn_key cc) = Key server) cs).
Proof.
  intros i es Hkey Hturns. unfold es. rewrite conns_run_app. cbn [conns_run foldl flip].
  set (c := conns_run before new_cache).
  assert (Hc : good_cache c) by apply conns_run_good, new_cache_good.
  change (foldl (flip conns_step) ?c' after) with (conns_run after c').
  assert (Hc1 := conns_step_good (CallGetConns count server) c Hc).
  destruct (run_call i after _ (mkConnsCall count server Starting) Hc1) as (k & Ek & Ec & Es & Et & Ef).
  { cbn. by rewrite lookup_app_r, Nat.sub_diag by done. }
  exists k. split; [done|]. destruct (conns_run_good after _ Hc1) as (owner & _ & HF).
  assert (Hk := proj1 (Forall_lookup _ _) HF i k Ek). unfold good_call in Hk.
  cbn in Ec, Es, Et, Ef. rewrite Es in Hk. cbn in Hk. rewrite (conns_key_id (Key server)) in Hk by done.
  rewrite <- Ec. unfold turns_left in Et. cbn in Et.
  destruct (call_phase k) as [|ccs n|ccs got|[cs|[]| |]]; [lia|lia|destruct Hk as (_ & _ & Hg & _); lia| | |done|done].
  - right. by exists cs.
  - left. split; [done|]. by destruct (Ef eq_refl) as [|].
Qed.

End cache.

(** ** What the cache does not promise *)

Definition server_at (address : string) : PublicServerConfig :=
  mkPublicServerConfig (replicate 32 x07) address.

(** All turns of the call [i] for [count] connections. *)
Definition alone (i count : nat) : list conns_event := replicate (3 + 2 * count) (StepCall i true).

Definition doubled (n : nat) : nat := 2 * n.

(** A later call finds the connections of an earlier one. *)
Example connections_are_reused :
  let c := conns_run doubled (CallGetConns 2 (server_at "a") :: alone 0 2 ++
    CallGetConns 2 (server_at "a") :: alone 1 2) new_cache in
  dialed c = 2%nat ∧ call_phase <$> (calls c !! 0%nat) = call_phase <$> (calls c !! 1%nat).
Proof. vm_compute. done. Qed.

(** The cache is keyed by the key alone: after the server has moved, the connections to its old
    address are returned. *)
Example moved_server_is_not_dialed :
  let c := conns_run doubled (CallGetConns 1 (server_at "old") :: alone 0 1 ++
    CallGetConns 1 (server_at "new") :: alone 1 1) new_cache in
  call_phase <$> (calls c !! 1%nat) =
    Some (Returned (Ret [mkClientConn 0 (Key (server_at "old")) "old"])).
Proof. vm_compute. done. Qed.

(** Two first calls: the one that stores last wins, and the connections of the other are in no
    slice of the cache. *)
Example racing_calls_lose_connections :
  let c := conns_run doubled ([CallGetConns 1 (server_at "a"); CallGetConns 3 (server_at "a");
    StepCall 0 true] ++ alone 1 3 ++ alone 0 1) new_cache in
  dialed c = 4%nat ∧ cs_len <$> (conns c !! conns_key (Key (server_at "a"))) = Some 1%nat.
Proof. vm_compute. done. Qed.

Lemma getConns_returns_witness :
  let c := conns_run doubled (CallGetConns 3 (server_at "a") :: alone 0 3) new_cache in
  ∃ k, calls c !! 0%nat = Some k ∧ ∃ cs, call_phase k = Returned (Ret cs) ∧ length cs = 3%nat.
Proof.
  destruct (getConns_returns doubled [] 3 (server_at "a") (alone 0 3)) as (k & Ek & H).
  - reflexivity.
  - apply leb_complete. reflexivity.
  - exists k. split; [exact Ek|]. destruct H as [[_ Hin]|(cs & E & El & _)].
    + exfalso. apply elem_of_replicate_inv in Hin. discriminate Hin.
    + by exists cs.
Defined.
